(* ===== verification/_CoqProject ===== *)
-Q . S2P
Prelude.v
Common.v
Murmur.v
CompressGen.v
LruCache.v
ReadCache.v
Queue.v
QueueThreads.v
QueueSpec.v
QueueDestroy.v
MessageQueue.v
Semaphore.v
BlockingQueue.v
FileSystem.v
ClientVar.v
Storage.v
Database.v
Crypto.v
Index.v
IndexThreads.v
DataWriter.v
WriterLoop.v
Connect.v
SslConn.v
RecvDecoder.v
DataReceiver.v
EndToEnd.v
ConcurrentRestore.v
RecipeSender.v
ClientLocks.v
ServerOpt.v
Typing.v
Lifetime.v
Crash.v
