(* ===== verification/Prelude.v ===== *)
(** * Verification of the deduplicating cloud storage server

    The program (src/) is the server of a deduplicating storage system.  Edge nodes
    upload chunks and recipes; the server stores every distinct chunk once, packed into
    container files, keeps an index from chunk hashes to container names, and gives
    recipes and chunks back.  This library models the server's own code and proves what
    its parts promise, each part alone and put together.

    ** The parts and their files

    - [Prelude]: bytes, buffers, machine words, outcomes ([result]: a value, or
      [EXIT_FAILURE], undefined behaviour [UB], a C++ [EXCEPTION]), tactics, lemmas.
    - [Common]: include/constVar.h, chunkStructure.h, define.h, configure.h: sizes and
      codes, the message header as bytes of a buffer, records, configuration, tools.
    - [FileSystem]: files and C++ file streams as the code uses them.
    - [LruCache], [ReadCache]: include/lruCache.h, src/Util/readCache.cc: list, map and
      iterators of the cache; the pool of container buffers behind it.
    - [Queue], [QueueThreads], [QueueSpec], [QueueDestroy]: readerwriterqueue.h: the ring
      of blocks and the atomic steps of both roles; all their interleavings; the callers'
      view; the destructor and moving.
      [MessageQueue]: include/messageQueue.h, the wrapper with its done flag.
    - [Semaphore], [BlockingQueue]: atomicops.h and the second class of
      readerwriterqueue.h: the semaphore that spins before it sleeps, and the queue whose
      consumer can wait for an element, which the server does not instantiate.
    - [ClientVar]: src/Util/clientVar.cc: the object of one request over raw memory.
    - [Storage]: storageCore.cc, storeOCall.cc: packing chunks into containers.
    - [Database]: src/Database/: the interface [AbsDatabase] of an index store, the
      in-memory store with its file, the LevelDB wrapper, the factory.
    - [Crypto]: src/Util/cryptoPrimitive.cc over OpenSSL's EVP calls.
    - [Index]: src/Index/: deduplication of chunk batches, recipe queries, statistics.
      [IndexThreads]: the same batch loop as the steps of any number of threads that
      share the index and its lock.
    - [DataWriter], [WriterLoop]: dataWriter.cc: writing a container; the polling loop
      interleaved with the pushing thread over the atomic steps of the queue.
    - [Connect], [SslConn]: src/Comm/sslConnect.cc: making and closing connections, and
      the accept loop of daeServer.cc beside the threads of its connections; the framing
      of messages, and [Channel], the interface the services use (send, receive, and
      clearing the connection at the end).
    - [DataReceiver]: dataReceiver.cc: the upload thread.  [RecvDecoder]: recvDecoder.cc,
      absRecvDecoder.cc: the restore thread.  [RecipeSender]: recipeSender.cc: the recipe
      thread.
    - [ClientLocks], [ServerOpt]: serverOptThread.cc, daeServer.cc: the two levels of
      locks over any number of connections; logins, start and shutdown.
    - [EndToEnd]: upload, writer and restore put together; [ConcurrentRestore]: uploads
      of several clients at once, their writers and a restore.
    - [Typing]: what the upload thread, and every connection, keeps for arbitrary input.
    - [Lifetime]: the server over its whole life, one connection after the other with
      restarts in between, against an abstract store.  [Crash]: the server after an exit
      without a shutdown.
    - [Murmur], [CompressGen]: src/Util/murmurHash.cc, compressGen.cc, library code the
      server does not call.

    ** How the model corresponds to the code

    A structure is a record with the source's member names, an operation a function with
    the source's name; a member function takes and returns the object.  A buffer is a
    function from offsets to byte values with a capacity next to it: memory that was
    never written holds what the initial function says, and every access of the code
    that could leave a block is a [check] that gives [UB].  Integers are [Z] with the
    wrap-around of their type written out ([u32], [u64], [s32]).  [exit(EXIT_FAILURE)]
    is a value of [result].  [rand()] is a stream of numbers.  Threads are step
    relations over shared state ([QueueThreads], [WriterLoop], [ClientLocks],
    [IndexThreads], [Connect]); the atomics of the queue are sequentially consistent.

    Code that is not in the repository is a parameter: OpenSSL's digests and ciphers
    (class with the documented laws in [Crypto]), the kernel's semaphores (class
    [PosixSemaphore]), [SSL_write] and [SSL_read] ([SslConn]),
    the socket and SSL calls (an arbitrary answering function in [Connect]), LevelDB
    ([Database]), Boost's property tree ([Common]), and the floating-point expressions of
    [CompressGen].  The laws have instances on concrete values, which the theorems'
    examples use.

    ** What the theorems show

    - End to end: over any legal history of connections and restarts the server answers
      and stores what an abstract store does ([Lifetime.server_refines_store]), and nothing
      that was uploaded is lost ([Lifetime.uploads_are_kept]).  Legal means that clients
      keep to the protocol and ask for what there is, that the random container names do
      not repeat, that the index fits its file, and that the chunk count of each upload's
      first container, which the code never initialises, happens to be zero
      ([Lifetime.legal_history], [Lifetime.count_zeroed]); the theorems on defects below
      show what happens outside these bounds.  The single steps are
      [EndToEnd.upload_then_restore], [ServerOpt.recipes_roundtrip] and
      [ServerOpt.restart_preserves].
    - Refinement of a specification: the upload thread and a small abstract machine
      ([DataReceiver.Run_uploads]), the restore thread and the list of requested chunks
      ([RecvDecoder.Run_restores]), the cache and a list in recency order
      ([LruCache.lru_trace_refines]), the queue and a bounded list
      ([QueueSpec.queue_refines_list], [BlockingQueue.blocking_queue_refines_list]), TLS
      framing and the channel interface
      ([SslConn.ssl_implements_channel]).
    - Deduplication: [Index.ProcessOneBatch_dedup], [Index.ProcessOneBatch_once],
      [Index.ProcessRecipeBatch_answers].
    - Concurrency: what several clients upload at once can be restored
      ([ConcurrentRestore.concurrent_uploads_restored]); their uploads store each chunk
      once and end ([IndexThreads.uploads_interleave], [IndexThreads.uploads_finish]; the steps
      of a thread that is not interrupted are the function of [Index],
      [IndexThreads.uninterrupted_batch]); first in, first out under every interleaving
      ([QueueSpec.spsc_fifo]), and no block leaks or is freed twice
      ([QueueDestroy.destroy_frees_all]); the semaphore promises no element that is not
      there and loses no wake-up ([BlockingQueue.blocking_queue_safe],
      [BlockingQueue.wait_dequeue_served]); the writer saves everything and ends
      ([WriterLoop.writer_saves_all], [WriterLoop.writer_terminates]); one connection per
      client, and every login gets its turn ([ClientLocks.client_exclusion],
      [ClientLocks.logins_terminate]); descriptors and SSL objects are given back and never
      used after that, however accepting and clearing overlap
      ([Connect.connections_release]).
    - Formats: containers from the stored chunk to the recovered one, the database file, the statistics file, ciphertexts, and
      the hash functions ([RecvDecoder.container_roundtrip],
      [Database.InMemory.reload_destroyed], [Index.stats_roundtrip],
      [Crypto.Decrypt_Encrypt], [Murmur.murmur_reference], [Murmur.four_byte_keys]).
    - Termination, types and set-up: [Database.InMemory.OpenDB_terminates],
      [RecipeSender.Run_sends_recipes], [Typing.Run_typed] (the fields keep to their
      widths, which [Lifetime] uses), [Connect.new_SSLConnection_sets_up],
      [CompressGen.LZGenerateData_fills], [CompressGen.candidate_set_serves].
    - Defects, stated as theorems about the code as it is: a chunk count that is never
      initialised ([EndToEnd.uninitialised_count]), sizes and counts that are trusted
      ([Storage.WriteContainer_oversized], [RecvDecoder.bad_count_overruns],
      [SslConn.ReceiveData_overflow]), answers that are not looked at
      ([RecvDecoder.unknown_hash_faults], [SslConn.SendData_hides_failure],
      [Crypto.DecryptWithKey_unauthenticated]), a pointer that is never assigned
      ([ServerOpt.missing_recipe_faults]), a chunk that is indexed before it is on the
      disk ([EndToEnd.unsaved_chunk_exits]), an index that an exit loses
      ([Crash.exit_loses_uploads]), a lock held while waiting for another
      ([ClientLocks.second_login_blocks_all]), a handshake that ends the process
      ([Connect.failed_handshake_exits]), a connection that is never cleared
      ([RecipeSender.late_message_keeps_open]), and inputs the code does not provide for
      ([Database.InMemory.empty_key_truncates], [DataReceiver.other_message_exits]).

    ** Fuel and bounds

    A loop whose number of rounds depends on its input takes a number of rounds as fuel
    and gives [UB] when that runs out; the theorems about it say how much is enough and
    that the result is then a value: one more than the number of messages for the
    service threads, the length of the data for sending and receiving, the size of the
    file for loading the database, the length of the file for the recipe loops, 8 and 6
    steps for one call of the consumer and the producer, the spins and six more steps for
    one wait, the number of blocks and of slots for the destructor, the size of the block
    for [CompressGen].  The two spinning loops of the queue's callers,
    the threads of the index and a waiting consumer have a measure instead ([WriterLoop],
    [IndexThreads], [BlockingQueue]).  [RecvDecoder.max_records] cuts the loop over a container's records
    off behind the end of the array, where it has already failed.

    ** Not modelled

    - concurrentqueue.h (vendored; no file includes it); the fences of atomicops.h, on
      which sequential consistency rests, its semaphores for Windows and Mach, and [peek]
      of either queue while the producer runs.
    - Logging, printing, time and memory statistics, argument and signal handling: they
      have no effect on the state (of [GetClientIp] only the calls are there).
    - In the sessions ([DataReceiver], [Lifetime]) a container is handed to the writer in
      one step and the queue is its history; the bounded queue on which [Push] spins is in
      [WriterLoop].  The counter of the shared [DataWriter], which concurrent uploads
      increment without a lock, is followed for one writer at a time.
    - Uploads that interleave below the statements of the locked part of
      [ProcessOneBatch], or with the reads of the index outside the lock (recipe queries
      and restores): the code leaves those unprotected, which is a data race.
      [IndexThreads] has the batches of running uploads; [Lifetime] has whole
      connections, one after the other.
    - The EVP contexts a client object carries and the freeing of heap blocks. *)
From Stdlib Require Import ZArith Lia Ascii String.
From stdpp Require Import base tactics numbers list gmap strings.
#[local] Open Scope Z_scope.

(** ** Bytes, sizes and machine words *)

(** A byte is its unsigned value; C strings, [std::string]s, file contents and
    network frames are lists of bytes. *)
Abbreviation bytes := (list Z).

Definition zlen {A} (l : list A) : Z := Z.of_nat (length l).

(** Wrap-around of the unsigned types and the conversion to [int]. *)
Definition u8 (x : Z) : Z := x mod 2 ^ 8.
Definition u32 (x : Z) : Z := x mod 2 ^ 32.
Definition u64 (x : Z) : Z := x mod 2 ^ 64.
Definition s32 (x : Z) : Z := (x + 2 ^ 31) mod 2 ^ 32 - 2 ^ 31.

(** A string literal of the source as bytes. *)
Definition of_string (s : string) : bytes :=
  (λ a, Z.of_N (N_of_ascii a)) <$> list_ascii_of_string s.

(** ** Outcomes

    [exit(EXIT_FAILURE)], undefined behaviour (an out-of-bounds access, the
    dereference of an end iterator, the deletion of an indeterminate pointer)
    and an uncaught C++ exception are the ways a call does not return. *)
Inductive fault := EXIT_FAILURE | UB | EXCEPTION.

Inductive result (A : Type) :=
| Ok (a : A)
| Err (e : fault).
Arguments Ok {A} a.
Arguments Err {A} e.

#[export] Instance fault_eq_dec : EqDecision fault.
Proof. solve_decision. Defined.

#[export] Instance result_ret : MRet result := @Ok.
#[export] Instance result_bind : MBind result := λ A B f m,
  match m with Ok a => f a | Err e => Err e end.
#[export] Instance result_fmap : FMap result := λ A B f m,
  match m with Ok a => Ok (f a) | Err e => Err e end.

(** [check b e]: continue when [b] holds, stop with [e] otherwise. *)
Definition check (b : bool) (e : fault) : result unit :=
  if b then Ok () else Err e.

Lemma bind_Ok {A B} (f : A → result B) (m : result A) b :
  (m ≫= f) = Ok b ↔ ∃ a, m = Ok a ∧ f a = Ok b.
Proof. destruct m; simpl; [|by split; [|intros (?&?&?)]]. naive_solver. Qed.

Lemma check_Ok b e u : check b e = Ok u ↔ b = true.
Proof. by destruct b, u. Qed.

(** ** Byte buffers

    A buffer is the content of a block of memory, as a function of the offset;
    bytes that were never written hold whatever the initial function gives, so a
    theorem about every initial buffer covers uninitialised memory.  Capacities
    are checked by the operations that access a buffer. *)
Definition buf := Z → Z.

Definition bread (b : buf) (off n : Z) : bytes :=
  (λ i, b (off + Z.of_nat i)) <$> seq 0 (Z.to_nat n).

Definition bwrite (b : buf) (off : Z) (bs : bytes) : buf := λ i,
  if (off <=? i) && (i <? off + zlen bs) then nth (Z.to_nat (i - off)) bs 0 else b i.

(** ** Integer encodings *)

(** Little endian, as [memcpy] of an integer object gives on x86-64. *)
Fixpoint le_enc (n : nat) (x : Z) : bytes :=
  match n with O => [] | S n => x mod 256 :: le_enc n (x / 256) end.
Fixpoint le_dec (bs : bytes) : Z :=
  match bs with [] => 0 | b :: bs => b + 256 * le_dec bs end.

(** ** Automation *)

Create HintDb cloud.
Create Rewrite HintDb zlen.

(** Split the binds and checks of hypotheses that say that a call returned. *)
Ltac inv_ok :=
  repeat match goal with
  | H : (_ ≫= _) = Ok _ |- _ =>
      let x := fresh "r" in let E := fresh "E" in
      apply bind_Ok in H as (x & E & H)
  | H : check _ _ = Ok _ |- _ => apply check_Ok in H
  | H : Ok _ = Ok _ |- _ => injection H as H; subst
  | H : mret _ = Ok _ |- _ => injection H as H; subst
  | H : Err _ = Ok _ |- _ => discriminate H
  | H : _ && _ = true |- _ => apply andb_true_iff in H as [? H]
  end.

(** Boolean comparisons of [Z] as propositions, then [lia]. *)
Ltac zbool :=
  repeat match goal with
  | H : (_ <=? _) = true |- _ => apply Z.leb_le in H
  | H : (_ <=? _) = false |- _ => apply Z.leb_gt in H
  | H : (_ <? _) = true |- _ => apply Z.ltb_lt in H
  | H : (_ <? _) = false |- _ => apply Z.ltb_ge in H
  | H : (_ >=? _) = true |- _ => rewrite Z.geb_leb in H; apply Z.leb_le in H
  | H : (_ >=? _) = false |- _ => rewrite Z.geb_leb in H; apply Z.leb_gt in H
  | H : (_ >? _) = true |- _ => rewrite Z.gtb_ltb in H; apply Z.ltb_lt in H
  | H : (_ >? _) = false |- _ => rewrite Z.gtb_ltb in H; apply Z.ltb_ge in H
  | H : (_ =? _) = true |- _ => apply Z.eqb_eq in H
  | H : (_ =? _) = false |- _ => apply Z.eqb_neq in H
  end.

(** ** Lengths *)

Lemma zlen_nonneg {A} (l : list A) : 0 ≤ zlen l.
Proof. unfold zlen; lia. Qed.
Lemma zlen_nil {A} : zlen (@nil A) = 0.
Proof. done. Qed.
Lemma zlen_cons {A} (x : A) l : zlen (x :: l) = 1 + zlen l.
Proof. unfold zlen; simpl; lia. Qed.
Lemma zlen_app {A} (l k : list A) : zlen (l ++ k) = zlen l + zlen k.
Proof. unfold zlen; rewrite length_app; lia. Qed.
Lemma zlen_fmap {A B} (f : A → B) l : zlen (f <$> l) = zlen l.
Proof. unfold zlen; by rewrite length_fmap. Qed.
Lemma zlen_0_nil {A} (l : list A) : zlen l = 0 → l = [].
Proof. destruct l; [done|]. rewrite zlen_cons. pose proof (zlen_nonneg l). lia. Qed.

Lemma to_nat_zlen {A} (l : list A) : Z.to_nat (zlen l) = length l.
Proof. apply Nat2Z.id. Qed.

#[export] Hint Rewrite @zlen_nil @zlen_cons @zlen_app @zlen_fmap : zlen.
#[export] Hint Resolve zlen_nonneg : cloud.

(** [lia] with the lengths of the lists in the context known to be nonnegative. *)
Ltac zlia :=
  autorewrite with zlen in *;
  repeat match goal with
  | |- context [zlen ?l] =>
      lazymatch goal with H : 0 ≤ zlen l |- _ => fail | _ => pose proof (zlen_nonneg l) end
  | _ : context [zlen ?l] |- _ =>
      lazymatch goal with H : 0 ≤ zlen l |- _ => fail | _ => pose proof (zlen_nonneg l) end
  end; lia.

(** ** Words *)

Lemma u32_small x : 0 ≤ x < 2 ^ 32 → u32 x = x.
Proof. apply Z.mod_small. Qed.
Lemma u64_small x : 0 ≤ x < 2 ^ 64 → u64 x = x.
Proof. apply Z.mod_small. Qed.
Lemma s32_small x : - 2 ^ 31 ≤ x < 2 ^ 31 → s32 x = x.
Proof. intros. unfold s32. rewrite Z.mod_small; lia. Qed.
Lemma u32_range x : 0 ≤ u32 x < 2 ^ 32.
Proof. apply Z.mod_pos_bound. lia. Qed.
Lemma u64_range x : 0 ≤ u64 x < 2 ^ 64.
Proof. apply Z.mod_pos_bound. lia. Qed.
Lemma u8_range x : 0 ≤ u8 x < 2 ^ 8.
Proof. apply Z.mod_pos_bound. lia. Qed.
Lemma u64_add_l x y : u64 (u64 x + y) = u64 (x + y).
Proof. apply Zplus_mod_idemp_l. Qed.

(** ** Reading and writing buffers *)

Lemma zlen_bread b off n : 0 ≤ n → zlen (bread b off n) = n.
Proof. intros. unfold bread. rewrite zlen_fmap. unfold zlen. rewrite length_seq. lia. Qed.

Lemma length_bread b off n : length (bread b off n) = Z.to_nat n.
Proof. unfold bread. by rewrite length_fmap, length_seq. Qed.

Lemma lookup_bread b off n i :
  (i < Z.to_nat n)%nat → bread b off n !! i = Some (b (off + Z.of_nat i)).
Proof.
  intros. unfold bread. rewrite list_lookup_fmap, lookup_seq_lt by lia. done.
Qed.

Lemma bread_ext b b' off off' n :
  (∀ i, 0 ≤ i < n → b (off + i) = b' (off' + i)) → bread b off n = bread b' off' n.
Proof.
  intros Hext. apply list_eq. intros i.
  destruct (decide (i < Z.to_nat n)%nat).
  - rewrite !lookup_bread by done. f_equal. apply Hext. lia.
  - rewrite !lookup_ge_None_2; rewrite ?length_bread; (done || lia).
Qed.

Lemma bread_app b off n m : 0 ≤ n → 0 ≤ m →
  bread b off (n + m) = bread b off n ++ bread b (off + n) m.
Proof.
  intros. unfold bread. rewrite Z2Nat.inj_add, seq_app, fmap_app by done. f_equal.
  replace (seq (0 + Z.to_nat n) (Z.to_nat m)) with (Nat.add (Z.to_nat n) <$> seq 0 (Z.to_nat m))
    by (rewrite fmap_add_seq; f_equal; lia).
  rewrite <- list_fmap_compose.
  apply list_fmap_ext. intros i k _. simpl. f_equal. lia.
Qed.

Lemma bread_0 b off : bread b off 0 = [].
Proof. done. Qed.

Lemma bread_bwrite_eq b off bs : bread (bwrite b off bs) off (zlen bs) = bs.
Proof.
  apply list_eq. intros i. unfold zlen. destruct (decide (i < length bs)%nat) as [Hi|Hi].
  - rewrite lookup_bread by lia. unfold bwrite, zlen.
    rewrite (proj2 (Z.leb_le _ _)), (proj2 (Z.ltb_lt _ _)) by lia. simpl.
    replace (Z.to_nat (off + Z.of_nat i - off)) with i by lia.
    destruct (lookup_lt_is_Some_2 bs i Hi) as [x Hx].
    by rewrite Hx, (nth_lookup_Some _ _ 0 _ Hx).
  - rewrite !lookup_ge_None_2; rewrite ?length_bread; (done || lia).
Qed.

Lemma bread_bwrite_len b off bs n : n = zlen bs → bread (bwrite b off bs) off n = bs.
Proof. intros ->. apply bread_bwrite_eq. Qed.

Lemma bwrite_out b off bs i : i < off ∨ off + zlen bs ≤ i → bwrite b off bs i = b i.
Proof.
  intros H. unfold bwrite.
  destruct (off <=? i) eqn:E1, (i <? off + zlen bs) eqn:E2; try done. zbool. lia.
Qed.

Lemma bread_bwrite_ne b off bs o n :
  o + n ≤ off ∨ off + zlen bs ≤ o → bread (bwrite b off bs) o n = bread b o n.
Proof. intros H. apply bread_ext. intros i Hi. apply bwrite_out. lia. Qed.

(** Two adjacent writes are one. *)
Lemma bwrite_bwrite_app b off l k i :
  bwrite (bwrite b off l) (off + zlen l) k i = bwrite b off (l ++ k) i.
Proof.
  unfold bwrite. rewrite zlen_app. pose proof (zlen_nonneg l). pose proof (zlen_nonneg k).
  destruct (Z.leb_spec (off + zlen l) i), (Z.leb_spec off i), (Z.ltb_spec i (off + zlen l + zlen k)),
    (Z.ltb_spec i (off + zlen l)), (Z.ltb_spec i (off + (zlen l + zlen k))); simpl; try done; try lia.
  - rewrite app_nth2 by (unfold zlen in *; lia). f_equal. unfold zlen in *. lia.
  - rewrite app_nth1 by (unfold zlen in *; lia). done.
Qed.

Lemma bread_bwrite_app b o n off bs :
  0 ≤ n → off = o + n → bread (bwrite b off bs) o (n + zlen bs) = bread b o n ++ bs.
Proof.
  intros Hn ->. rewrite bread_app by zlia.
  by rewrite bread_bwrite_ne, bread_bwrite_eq by lia.
Qed.

(** Reading part of a range whose content is known. *)
Lemma bread_sub b o l i n :
  bread b o (zlen l) = l → 0 ≤ i → 0 ≤ n → i + n ≤ zlen l →
  bread b (o + i) n = take (Z.to_nat n) (drop (Z.to_nat i) l).
Proof.
  intros Hl Hi Hn Hle. rewrite <- Hl at 1.
  replace (zlen l) with (i + (n + (zlen l - i - n))) by lia.
  rewrite !bread_app by lia.
  rewrite drop_app_length' by (rewrite length_bread; lia).
  rewrite take_app_length'; [done|]. rewrite length_bread; lia.
Qed.

(** Reading the middle part of a range. *)
Lemma bread_mid b o l1 l2 l3 :
  bread b o (zlen (l1 ++ l2 ++ l3)) = l1 ++ l2 ++ l3 → bread b (o + zlen l1) (zlen l2) = l2.
Proof.
  intros H. rewrite (bread_sub b o (l1 ++ l2 ++ l3)) by (done || zlia).
  unfold zlen. rewrite !Nat2Z.id, drop_app_length, take_app_length. done.
Qed.

Lemma bread_prefix b o l1 l2 :
  bread b o (zlen (l1 ++ l2)) = l1 ++ l2 → bread b o (zlen l1) = l1.
Proof.
  intros H. apply (bread_mid b o [] l1 l2) in H.
  by rewrite zlen_nil, Z.add_0_r in H.
Qed.

Lemma bread_suffix b o l1 l2 :
  bread b o (zlen (l1 ++ l2)) = l1 ++ l2 → bread b (o + zlen l1) (zlen l2) = l2.
Proof. intros H. apply (bread_mid b o l1 l2 []). by rewrite app_nil_r. Qed.

(** ** Bits above the width of a word *)

Lemma bits_high x w n : 0 ≤ x < 2 ^ w → 0 ≤ w ≤ n → Z.testbit x n = false.
Proof. intros Hx Hn. rewrite <- (Z.mod_small x (2 ^ w)) by done. by apply Z.mod_pow2_bits_high. Qed.
Lemma bits_bound x w : 0 ≤ w → 0 ≤ x → (∀ n, w ≤ n → Z.testbit x n = false) → x < 2 ^ w.
Proof.
  intros Hw Hx Hb. assert (E : x = x mod 2 ^ w); [|rewrite E; apply Z.mod_pos_bound; lia].
  apply Z.bits_inj'. intros n Hn. destruct (Z.lt_ge_cases n w).
  - by rewrite Z.mod_pow2_bits_low by lia.
  - rewrite Z.mod_pow2_bits_high by lia. by apply Hb.
Qed.

(** ** Little-endian integers *)

Lemma length_le_enc n x : length (le_enc n x) = n.
Proof. revert x. induction n; intros; simpl; auto. Qed.
Lemma zlen_le_enc n x : zlen (le_enc n x) = Z.of_nat n.
Proof. unfold zlen. by rewrite length_le_enc. Qed.
#[export] Hint Rewrite zlen_le_enc : zlen.

Lemma le_dec_enc n x : le_dec (le_enc n x) = x mod 256 ^ Z.of_nat n.
Proof.
  revert x. induction n as [|n IH]; intros x; [by rewrite Z.mod_1_r|].
  cbn [le_enc le_dec]. rewrite IH, Nat2Z.inj_succ, Z.pow_succ_r by lia.
  rewrite Z.rem_mul_r; lia.
Qed.

Lemma le_dec_enc4 x : 0 ≤ x < 2 ^ 32 → le_dec (le_enc 4 x) = x.
Proof. intros. rewrite le_dec_enc. apply Z.mod_small. done. Qed.
Lemma le_dec_enc8 x : 0 ≤ x < 2 ^ 64 → le_dec (le_enc 8 x) = x.
Proof. intros. rewrite le_dec_enc. apply Z.mod_small. done. Qed.

Lemma le_enc_byte n x : Forall (λ b, 0 ≤ b < 256) (le_enc n x).
Proof.
  revert x. induction n; intros; simpl; constructor; auto. apply Z.mod_pos_bound. lia.
Qed.

(** In a list with distinct keys a key determines its pair. *)
Lemma NoDup_fst_inj {A B} (l : list (A * B)) x y :
  NoDup (l.*1) → x ∈ l → y ∈ l → x.1 = y.1 → x = y.
Proof.
  induction l as [|z l IH]; [by intros _ ?%elem_of_nil|]. csimpl.
  intros [Hz Hnd]%NoDup_cons [->|Hx]%elem_of_cons [->|Hy]%elem_of_cons E; try done; [..|auto].
  - exfalso. apply Hz. rewrite E. apply list_elem_of_fmap. eauto.
  - exfalso. apply Hz. rewrite <- E. apply list_elem_of_fmap. eauto.
Qed.

(** ** Filters that keep everything or nothing *)

Lemma filter_all {A} (P : A → Prop) `{!∀ x, Decision (P x)} (l : list A) :
  (∀ x, x ∈ l → P x) → filter P l = l.
Proof.
  induction l as [|x l IH]; intros HP; [done|]. rewrite filter_cons_True by (apply HP; left).
  f_equal. apply IH. intros. apply HP. by right.
Qed.
Lemma filter_none {A} (P : A → Prop) `{!∀ x, Decision (P x)} (l : list A) :
  (∀ x, x ∈ l → ¬ P x) → filter P l = [].
Proof.
  induction l as [|x l IH]; intros HP; [done|]. rewrite filter_cons_False by (apply HP; left).
  apply IH. intros. apply HP. by right.
Qed.

(** ** What every run comes to

    Whatever steps are taken from [c], there is a next one until [P] holds, and after
    finitely many it does. *)
Inductive inevitably {A} (R : A → A → Prop) (P : A → Prop) (c : A) : Prop :=
| inev_now : P c → inevitably R P c
| inev_later : (∃ c', R c c') → (∀ c', R c c' → inevitably R P c') → inevitably R P c.

Lemma inevitably_measure {A} (R : A → A → Prop) (P I : A → Prop) (m : A → nat) :
  (∀ c, I c → P c ∨ ((∃ c', R c c') ∧ ∀ c', R c c' → I c' ∧ (m c' < m c)%nat)) → ∀ c, I c → inevitably R P c.
Proof.
  intros Hstep c. remember (m c) as n eqn:En. revert c En. induction n as [n IH] using lt_wf_ind. intros c -> Hc.
  destruct (Hstep c Hc) as [Hp|[Hex Hall]]; [by apply inev_now|]. apply inev_later; [done|]. intros c' Hc'.
  destruct (Hall c' Hc') as [Hi Hlt]. by apply (IH (m c')).
Qed.

#[global] Arguments bread : simpl never.
#[global] Arguments bwrite : simpl never.
#[global] Arguments le_enc : simpl never.
#[global] Arguments le_dec : simpl never.
#[global] Arguments zlen : simpl never.
#[global] Arguments u32 : simpl never.
#[global] Arguments u64 : simpl never.
#[global] Arguments s32 : simpl never.
