(* ===== verification/Common.v ===== *)
(** * Constants, data structures, configuration and tools

    [include/constVar.h], [include/chunkStructure.h], [include/define.h],
    [include/configure.h] and [src/Util/configure.cc]: the sizes and protocol
    codes, the layout of the network message buffer, the configuration object and
    the pure helpers of namespace [tool]. *)
From Stdlib Require Import ZArith Lia String.
From stdpp Require Import base tactics numbers list gmap strings.
From S2P Require Import Prelude.
#[local] Open Scope Z_scope.

(** ** include/constVar.h *)

Definition CRYPTO_BLOCK_SIZE : Z := 16.
Definition CHUNK_HASH_SIZE : Z := 32.
Definition MLE_KEY_SIZE : Z := 32.
Definition MIN_CHUNK_SIZE : Z := 4096.
Definition AVG_CHUNK_SIZE : Z := 8192.
Definition MAX_CHUNK_SIZE : Z := 16384.
Definition MAX_CONTAINER_SIZE : Z := Z.shiftl 1 22.
Definition CONTAINER_ID_LENGTH : Z := 8.
Definition CONTAINER_QUEUE_SIZE : Z := 32.
Definition CONTAINER_CAPPING_VALUE : Z := 16.

Inductive ENCRYPT_SET := AES_256_GCM | AES_128_GCM | AES_256_CFB | AES_128_CFB.
Inductive HASH_SET := SHA_256 | MD5 | SHA_1.
Definition HASH_TYPE : HASH_SET := SHA_256.
Definition CIPHER_TYPE : ENCRYPT_SET := AES_256_GCM.

Inductive OPT_TYPE := UPLOAD_OPT | DOWNLOAD_RECIPE_OPT | DOWNLOAD_CHUNK_OPT.

Inductive PROTCOL_CODE_SET :=
| EDGE_UPLOAD_CHUNK | EDGE_UPLOAD_CHUNK_END | CLOUD_QUERY_RETURN | CLIENT_RESTORE_READY
| SERVER_RESTORE_CHUNK | SERVER_RESTORE_RECIPE | SERVER_RESTORE_FINAL | CLIENT_KEY_GEN
| KEY_MANAGER_KEY_GEN_REPLY.

Inductive EDGE_PROTCOL_CODE_SET :=
| EDGE_LOGIN_RESPONSE | CLOUD_FILE_NON_EXIST
| EDGE_MIGRATE_LOGIN | EDGE_UPLOAD_SEC_RECIPE | EDGE_UPLOAD_SEC_RECIPE_END
| EDGE_UPLOAD_RECIPE | EDGE_UPLOAD_RECIPE_END | EDGE_UPLOAD_KEY_RECIPE
| EDGE_UPLOAD_KEY_RECIPE_END | EDGE_MIGRATION_CHUNK | EDGE_MIGRATION_CHUNK_FINAL
| EDGE_MIGRATION_NEWFILE
| EDGE_DOWNLOAD_RECIPE_LOGIN | EDGE_DOWNLOAD_RECIPE_READY | CLOUD_SEND_RECIPE
| CLOUD_SEND_SECURE_RECIPE | CLOUD_SEND_KEY_RECIPE | EDGE_RECEIVE_READY
| CLOUD_SEND_RECIPE_END
| EDGE_DOWNLOAD_CHUNK_LOGIN | EDGE_DOWNLOAD_CHUNK_READY | CLOUD_SEND_CHUNK
| CLOUD_SEND_CHUNK_END.

#[export] Instance edge_code_eq_dec : EqDecision EDGE_PROTCOL_CODE_SET.
Proof. solve_decision. Defined.
#[export] Instance opt_type_eq_dec : EqDecision OPT_TYPE.
Proof. solve_decision. Defined.
#[export] Instance hash_set_eq_dec : EqDecision HASH_SET.
Proof. solve_decision. Defined.

Definition protocol_code (c : PROTCOL_CODE_SET) : Z :=
  match c with
  | EDGE_UPLOAD_CHUNK => 0 | EDGE_UPLOAD_CHUNK_END => 1 | CLOUD_QUERY_RETURN => 2
  | CLIENT_RESTORE_READY => 3 | SERVER_RESTORE_CHUNK => 4 | SERVER_RESTORE_RECIPE => 5
  | SERVER_RESTORE_FINAL => 6 | CLIENT_KEY_GEN => 7 | KEY_MANAGER_KEY_GEN_REPLY => 8
  end.

(** The codes in the order the enumeration declares them. *)
Definition edge_codes : list EDGE_PROTCOL_CODE_SET :=
  [EDGE_LOGIN_RESPONSE; CLOUD_FILE_NON_EXIST;
   EDGE_MIGRATE_LOGIN; EDGE_UPLOAD_SEC_RECIPE; EDGE_UPLOAD_SEC_RECIPE_END;
   EDGE_UPLOAD_RECIPE; EDGE_UPLOAD_RECIPE_END; EDGE_UPLOAD_KEY_RECIPE;
   EDGE_UPLOAD_KEY_RECIPE_END; EDGE_MIGRATION_CHUNK; EDGE_MIGRATION_CHUNK_FINAL;
   EDGE_MIGRATION_NEWFILE;
   EDGE_DOWNLOAD_RECIPE_LOGIN; EDGE_DOWNLOAD_RECIPE_READY; CLOUD_SEND_RECIPE;
   CLOUD_SEND_SECURE_RECIPE; CLOUD_SEND_KEY_RECIPE; EDGE_RECEIVE_READY;
   CLOUD_SEND_RECIPE_END;
   EDGE_DOWNLOAD_CHUNK_LOGIN; EDGE_DOWNLOAD_CHUNK_READY; CLOUD_SEND_CHUNK;
   CLOUD_SEND_CHUNK_END].

(** The [int] of a code, and the code of an [int] (the [switch] statements go to
    [default] when there is none). *)
Definition edge_code (c : EDGE_PROTCOL_CODE_SET) : Z :=
  match list_find (c =.) edge_codes with Some (i, _) => Z.of_nat i | None => -1 end.
Definition edge_decode (x : Z) : option EDGE_PROTCOL_CODE_SET :=
  if x <? 0 then None else edge_codes !! Z.to_nat x.

(** ** include/chunkStructure.h *)

Definition sizeof_uint32_t : Z := 4.
Definition sizeof_Chunk_t : Z := sizeof_uint32_t + MAX_CHUNK_SIZE.
Definition sizeof_RecipeEntry_t : Z := CHUNK_HASH_SIZE.
Definition sizeof_KeyRecipeEntry_t : Z := MLE_KEY_SIZE.
Definition sizeof_FileRecipeHead_t : Z := 16.
Definition sizeof_NetworkHead_t : Z := 16.

Record FileRecipeHead_t := { fileSize : Z; totalChunkNum : Z }.

(** The object representation of a recipe head: two little-endian [uint64_t]. *)
Definition enc_RecipeHead (h : FileRecipeHead_t) : bytes :=
  le_enc 8 (fileSize h) ++ le_enc 8 (totalChunkNum h).
Definition dec_RecipeHead (b : buf) (off : Z) : FileRecipeHead_t :=
  {| fileSize := le_dec (bread b off 8); totalChunkNum := le_dec (bread b (off + 8) 8) |}.

Record EnclaveInfo_t := {
  info_uniqueChunkNum : Z; info_uniqueDataSize : Z; info_logicalChunkNum : Z;
  info_logicalDataSize : Z; info_compressedSize : Z }.

(** [SendMsgBuffer_t]: one allocation of [bufCap] bytes; [header] points at its
    start and [dataBuffer] behind the header, so that both are views of
    [sendBuffer]. *)
Record SendMsgBuffer_t := { sendBuffer : buf; bufCap : Z }.

Definition set_sendBuffer (b : buf) (m : SendMsgBuffer_t) : SendMsgBuffer_t :=
  {| sendBuffer := b; bufCap := bufCap m |}.

(** The fields of [NetworkHead_t] at their offsets. *)
Definition messageType (m : SendMsgBuffer_t) : Z := s32 (le_dec (bread (sendBuffer m) 0 4)).
Definition clientID (m : SendMsgBuffer_t) : Z := le_dec (bread (sendBuffer m) 4 4).
Definition dataSize (m : SendMsgBuffer_t) : Z := le_dec (bread (sendBuffer m) 8 4).
Definition currentItemNum (m : SendMsgBuffer_t) : Z := le_dec (bread (sendBuffer m) 12 4).

Definition set_messageType (v : Z) (m : SendMsgBuffer_t) : SendMsgBuffer_t :=
  set_sendBuffer (bwrite (sendBuffer m) 0 (le_enc 4 v)) m.
Definition set_clientID (v : Z) (m : SendMsgBuffer_t) : SendMsgBuffer_t :=
  set_sendBuffer (bwrite (sendBuffer m) 4 (le_enc 4 v)) m.
Definition set_dataSize (v : Z) (m : SendMsgBuffer_t) : SendMsgBuffer_t :=
  set_sendBuffer (bwrite (sendBuffer m) 8 (le_enc 4 v)) m.
Definition set_currentItemNum (v : Z) (m : SendMsgBuffer_t) : SendMsgBuffer_t :=
  set_sendBuffer (bwrite (sendBuffer m) 12 (le_enc 4 v)) m.

(** [dataBuffer + off]: the offset in the allocation, and the payload capacity. *)
Definition dataOff (off : Z) : Z := sizeof_NetworkHead_t + off.
Definition dataCap (m : SendMsgBuffer_t) : Z := bufCap m - sizeof_NetworkHead_t.

(** Bounds-checked accesses to the data part: outside the allocation they are
    undefined behaviour. *)
Definition data_read (m : SendMsgBuffer_t) (off n : Z) : result bytes :=
  check ((0 <=? off) && (0 <=? n) && (off + n <=? dataCap m)) UB ;;
  Ok (bread (sendBuffer m) (dataOff off) n).
Definition data_write (m : SendMsgBuffer_t) (off : Z) (bs : bytes) : result SendMsgBuffer_t :=
  check ((0 <=? off) && (off + zlen bs <=? dataCap m)) UB ;;
  Ok (set_sendBuffer (bwrite (sendBuffer m) (dataOff off) bs) m).

Record InmemoryContainer_t := {
  containerID : bytes;
  chunkNum : Z;
  body : buf;
  currentBodySize : Z;
  header : buf;
  currentHeaderSize : Z }.

Record Container_t := { c_containerID : bytes; c_body : buf; c_currentSize : Z }.

Record DownloadChunkEntry_t := {
  chunkHash : bytes; containerName : bytes;
  chunkOffset : Z; chunkSize : Z; entryContainerID : Z }.

Record RestoreIndexEntry_t := { offset : Z; length_ : Z }.

(** ** include/define.h *)

Definition ALPHABET : bytes := of_string "abcdefghijklmnopqrstuvwxyz0123456789".

Definition CompareLimit (input lower upper : Z) : Z :=
  if input <=? lower then lower else if input >=? upper then upper else input.

(** Division by zero is undefined. *)
Definition DivCeil (a b : Z) : result Z :=
  check (negb (b =? 0)) UB ;;
  let tmp := a / b in
  if a mod b =? 0 then Ok tmp else Ok (u32 (tmp + 1)).

(** [rand()] is the C library's: its successive results are a stream, of which
    the state keeps the position. *)
Record rng := { rand_stream : nat → Z; rand_pos : nat }.
Definition rand (g : rng) : Z * rng :=
  (rand_stream g (rand_pos g), {| rand_stream := rand_stream g; rand_pos := S (rand_pos g) |}).

Fixpoint CreateUUID_loop (n : nat) (g : rng) : bytes * rng :=
  match n with
  | O => ([], g)
  | S n =>
      let '(r, g) := rand g in
      let c := nth (Z.to_nat (r mod zlen ALPHABET)) ALPHABET 0 in
      let '(cs, g) := CreateUUID_loop n g in (c :: cs, g)
  end.
Definition CreateUUID (idLen : Z) (g : rng) : bytes * rng :=
  CreateUUID_loop (Z.to_nat idLen) g.

(** The 96-bit mix of [GetStrongSeed], on the three values it samples (processor
    clock, wall clock in microseconds, process id). *)
Definition mix_sub (x y : Z) : Z := u64 (x - y).
Definition GetStrongSeed_mix (a b c : Z) : Z * Z * Z :=
  let a := mix_sub a b in let a := mix_sub a c in let a := Z.lxor a (Z.shiftr c 13) in
  let b := mix_sub b c in let b := mix_sub b a in let b := Z.lxor b (u64 (Z.shiftl a 8)) in
  let c := mix_sub c a in let c := mix_sub c b in let c := Z.lxor c (Z.shiftr b 13) in
  let a := mix_sub a b in let a := mix_sub a c in let a := Z.lxor a (Z.shiftr c 12) in
  let b := mix_sub b c in let b := mix_sub b a in let b := Z.lxor b (u64 (Z.shiftl a 16)) in
  let c := mix_sub c a in let c := mix_sub c b in let c := Z.lxor c (Z.shiftr b 5) in
  let a := mix_sub a b in let a := mix_sub a c in let a := Z.lxor a (Z.shiftr c 3) in
  let b := mix_sub b c in let b := mix_sub b a in let b := Z.lxor b (u64 (Z.shiftl a 10)) in
  let c := mix_sub c a in let c := mix_sub c b in let c := Z.lxor c (Z.shiftr b 15) in
  (a, b, c).
Definition GetStrongSeed (a b c : Z) : Z :=
  let '(_, _, c) := GetStrongSeed_mix a b c in c.

(** ** include/configure.h and src/Util/configure.cc *)

(** The property tree that Boost's JSON reader returns: a typed lookup per path,
    [None] where [root.get] throws. *)
Record ptree := {
  get_uint64 : string → option Z;
  get_int : string → option Z;
  get_uint32 : string → option Z;
  get_string : string → option bytes }.

Record Configure := {
  chunkingType_ : Z; maxChunkSize_ : Z; avgChunkSize_ : Z; minChunkSize_ : Z;
  slidingWinSize_ : Z; readSize_ : Z;
  recipeRootPath_ : bytes; containerRootPath_ : bytes; fp2ChunkDBName_ : bytes;
  readCacheSize_ : Z;
  storageServerIp_ : bytes; storageServerPort_ : Z;
  clientID_ : Z; sendChunkBatchSize_ : Z; sendRecipeBatchSize_ : Z;
  localSecret_ : bytes; keyServerIp_ : bytes; keyServerPort_ : Z }.

Definition recipeSuffix_ : bytes := of_string "-recipe".
Definition secureRecipeSuffix_ : bytes := of_string "-secureRecipe".
Definition keyRecipeSuffix_ : bytes := of_string "-keyRecipe".
Definition containerSuffix_ : bytes := of_string "-container".

Definition pt_get {A} (o : option A) : result A :=
  match o with Some a => Ok a | None => Err EXCEPTION end.

Definition ReadConf (root : ptree) : result Configure :=
  chunkingType ← pt_get (get_uint64 root "ChunkerConfig.chunkingType_");
  maxChunkSize ← pt_get (get_uint64 root "ChunkerConfig.maxChunkSize_");
  minChunkSize ← pt_get (get_uint64 root "ChunkerConfig.minChunkSize_");
  avgChunkSize ← pt_get (get_uint64 root "ChunkerConfig.avgChunkSize_");
  slidingWinSize ← pt_get (get_uint64 root "ChunkerConfig.slidingWinSize_");
  readSize ← pt_get (get_uint64 root "ChunkerConfig.readSize_");
  recipeRootPath ← pt_get (get_string root "StorageCore.recipeRootPath_");
  containerRootPath ← pt_get (get_string root "StorageCore.containerRootPath_");
  fp2ChunkDBName ← pt_get (get_string root "StorageCore.fp2ChunkDBName_");
  readCacheSize ← pt_get (get_uint64 root "RestoreWriter.readCacheSize_");
  storageServerIp ← pt_get (get_string root "DataSender.storageServerIp_");
  storageServerPort ← pt_get (get_int root "DataSender.storageServerPort_");
  clientID ← pt_get (get_uint32 root "DataSender.clientID_");
  sendChunkBatchSize ← pt_get (get_uint64 root "DataSender.sendChunkBatchSize_");
  sendRecipeBatchSize ← pt_get (get_uint64 root "DataSender.sendRecipeBatchSize_");
  localSecret ← pt_get (get_string root "DataSender.localSecret_");
  keyServerIp ← pt_get (get_string root "KeyServer.keyServerIp_");
  keyServerPort ← pt_get (get_int root "KeyServer.keyServerPort_");
  check (negb (sendChunkBatchSize =? 0)) UB ;;
  check (sendRecipeBatchSize mod sendChunkBatchSize =? 0) EXIT_FAILURE ;;
  Ok {| chunkingType_ := chunkingType; maxChunkSize_ := maxChunkSize;
        avgChunkSize_ := avgChunkSize; minChunkSize_ := minChunkSize;
        slidingWinSize_ := slidingWinSize; readSize_ := readSize;
        recipeRootPath_ := recipeRootPath; containerRootPath_ := containerRootPath;
        fp2ChunkDBName_ := fp2ChunkDBName; readCacheSize_ := readCacheSize;
        storageServerIp_ := storageServerIp; storageServerPort_ := storageServerPort;
        clientID_ := clientID; sendChunkBatchSize_ := sendChunkBatchSize;
        sendRecipeBatchSize_ := sendRecipeBatchSize; localSecret_ := localSecret;
        keyServerIp_ := keyServerIp; keyServerPort_ := keyServerPort |}.

(** The batch sizes in use are constants; the configured ones are only checked. *)
Definition GetSendChunkBatchSize (config : Configure) : Z := 256.
Definition GetSendRecipeBatchSize (config : Configure) : Z :=
  if chunkingType_ config =? 1 then 512 else 1024.

Definition GetRecipeRootPath := recipeRootPath_.
Definition GetRecipeSuffix (config : Configure) : bytes := recipeSuffix_.
Definition GetSecureRecipeSuffix (config : Configure) : bytes := secureRecipeSuffix_.
Definition GetKeyRecipeSuffix (config : Configure) : bytes := keyRecipeSuffix_.
Definition GetContainerRootPath := containerRootPath_.
Definition GetContainerSuffix (config : Configure) : bytes := containerSuffix_.
Definition GetReadCacheSize := readCacheSize_.
Definition GetFp2ChunkDBName := fp2ChunkDBName_.

(** The configuration of the repository's [config.json], for concrete inputs. *)
Definition sample_config : Configure :=
  {| chunkingType_ := 1; maxChunkSize_ := 16384; avgChunkSize_ := 8192; minChunkSize_ := 4096;
     slidingWinSize_ := 128; readSize_ := 128; recipeRootPath_ := of_string "Recipes/";
     containerRootPath_ := of_string "Containers/"; fp2ChunkDBName_ := of_string "db1";
     readCacheSize_ := 64; storageServerIp_ := of_string "192.168.104.8"; storageServerPort_ := 18889;
     clientID_ := 1; sendChunkBatchSize_ := 512; sendRecipeBatchSize_ := 1024;
     localSecret_ := of_string "12345"; keyServerIp_ := of_string "127.0.0.1"; keyServerPort_ := 16667 |}.

(** ** Lemmas: protocol codes *)

Lemma edge_decode_code c : edge_decode (edge_code c) = Some c.
Proof. by destruct c. Qed.

Lemma edge_decode_Some x c : edge_decode x = Some c → edge_code c = x.
Proof.
  unfold edge_decode. destruct (x <? 0) eqn:Hx; [done|]. apply Z.ltb_ge in Hx. intros E.
  enough (edge_code c = Z.of_nat (Z.to_nat x)) by lia.
  revert E. generalize (Z.to_nat x). intros k E. do 23 (destruct k as [|k]; [by injection E as <-|]). done.
Qed.

Lemma edge_code_inj c c' : edge_code c = edge_code c' → c = c'.
Proof.
  intros H. apply (f_equal edge_decode) in H. rewrite !edge_decode_code in H. by injection H.
Qed.

Lemma edge_code_range c : 0 ≤ edge_code c ≤ 22.
Proof. destruct c; vm_compute; split; discriminate. Qed.

(** ** Lemmas: the message header *)

Lemma get_set_type v m : - 2 ^ 31 ≤ v < 2 ^ 31 → messageType (set_messageType v m) = v.
Proof.
  intros. unfold messageType, set_messageType. simpl.
  rewrite bread_bwrite_len, le_dec_enc by zlia.
  change (256 ^ Z.of_nat 4) with (2 ^ 32). unfold s32.
  rewrite Zplus_mod_idemp_l, Z.mod_small; lia.
Qed.
Lemma get_set_size v m : 0 ≤ v < 2 ^ 32 → dataSize (set_dataSize v m) = v.
Proof.
  intros. unfold dataSize, set_dataSize. simpl.
  rewrite bread_bwrite_len by zlia. by apply le_dec_enc4.
Qed.
Lemma get_set_num v m : 0 ≤ v < 2 ^ 32 → currentItemNum (set_currentItemNum v m) = v.
Proof.
  intros. unfold currentItemNum, set_currentItemNum. simpl.
  rewrite bread_bwrite_len by zlia. by apply le_dec_enc4.
Qed.

Lemma data_read_ok m off n : 0 ≤ off → 0 ≤ n → off + n ≤ dataCap m →
  data_read m off n = Ok (bread (sendBuffer m) (dataOff off) n).
Proof. intros. unfold data_read. by rewrite !(proj2 (Z.leb_le _ _)) by done. Qed.
Lemma data_write_ok m off bs : 0 ≤ off → off + zlen bs ≤ dataCap m →
  data_write m off bs = Ok (set_sendBuffer (bwrite (sendBuffer m) (dataOff off) bs) m).
Proof. intros. unfold data_write. by rewrite !(proj2 (Z.leb_le _ _)) by done. Qed.

(** Every setter leaves the other fields and the data alone. *)
Ltac hdr_frame :=
  intros; unfold messageType, clientID, dataSize, currentItemNum, set_messageType,
    set_clientID, set_dataSize, set_currentItemNum, set_sendBuffer, dataOff,
    sizeof_NetworkHead_t in *; simpl; rewrite ?bread_bwrite_ne by zlia; done.

Lemma type_set_size v m : messageType (set_dataSize v m) = messageType m. Proof. hdr_frame. Qed.
Lemma type_set_num v m : messageType (set_currentItemNum v m) = messageType m. Proof. hdr_frame. Qed.
Lemma size_set_type v m : dataSize (set_messageType v m) = dataSize m. Proof. hdr_frame. Qed.
Lemma size_set_num v m : dataSize (set_currentItemNum v m) = dataSize m. Proof. hdr_frame. Qed.
Lemma num_set_type v m : currentItemNum (set_messageType v m) = currentItemNum m. Proof. hdr_frame. Qed.
Lemma num_set_size v m : currentItemNum (set_dataSize v m) = currentItemNum m. Proof. hdr_frame. Qed.
Lemma data_set_type v m o n : 0 ≤ o →
  bread (sendBuffer (set_messageType v m)) (dataOff o) n = bread (sendBuffer m) (dataOff o) n.
Proof. hdr_frame. Qed.
Lemma data_set_size v m o n : 0 ≤ o →
  bread (sendBuffer (set_dataSize v m)) (dataOff o) n = bread (sendBuffer m) (dataOff o) n.
Proof. hdr_frame. Qed.
Lemma data_set_num v m o n : 0 ≤ o →
  bread (sendBuffer (set_currentItemNum v m)) (dataOff o) n = bread (sendBuffer m) (dataOff o) n.
Proof. hdr_frame. Qed.

Create Rewrite HintDb hdr.
#[export] Hint Rewrite type_set_size type_set_num size_set_type size_set_num num_set_type
  num_set_size : hdr.
#[export] Hint Rewrite data_set_type data_set_size data_set_num using lia : hdr.

(** ** Lemmas: container names *)

Lemma length_CreateUUID_loop n g : length (CreateUUID_loop n g).1 = n.
Proof.
  revert g. induction n as [|n IH]; intros g; simpl; [done|].
  match goal with |- context [CreateUUID_loop n ?g] => specialize (IH g) end.
  destruct (CreateUUID_loop n _) as [cs g'] eqn:E. simpl in *. by rewrite IH.
Qed.

Lemma zlen_CreateUUID g : zlen (CreateUUID CONTAINER_ID_LENGTH g).1 = CONTAINER_ID_LENGTH.
Proof. unfold CreateUUID, zlen. by rewrite length_CreateUUID_loop. Qed.

Lemma rand_pos_CreateUUID_loop n g :
  (CreateUUID_loop n g).2 = {| rand_stream := rand_stream g; rand_pos := n + rand_pos g |}.
Proof.
  revert g. induction n as [|n IH]; intros g; simpl; [by destruct g|].
  destruct (CreateUUID_loop n _) as [cs g'] eqn:E. simpl.
  specialize (IH {| rand_stream := rand_stream g; rand_pos := S (rand_pos g) |}).
  rewrite E in IH. simpl in IH. rewrite IH. f_equal. lia.
Qed.

(** ** The constants as numbers, for [lia] *)

Lemma MAX_CONTAINER_SIZE_val : MAX_CONTAINER_SIZE = 4194304.
Proof. done. Qed.
Ltac sizes :=
  rewrite ?MAX_CONTAINER_SIZE_val in *;
  unfold sizeof_uint32_t, sizeof_NetworkHead_t, sizeof_RecipeEntry_t, sizeof_KeyRecipeEntry_t,
    sizeof_FileRecipeHead_t, CONTAINER_CAPPING_VALUE in *;
  unfold CHUNK_HASH_SIZE, MAX_CHUNK_SIZE, CONTAINER_ID_LENGTH, MLE_KEY_SIZE in *.
#[global] Opaque MAX_CONTAINER_SIZE.
#[global] Opaque CreateUUID.
