(* ===== verification/Murmur.v ===== *)
(** * MurmurHash3 (src/Util/murmurHash.cc)

    The three hash functions over the bytes of a key, with every read checked against
    the key; the reference they are compared with treats the bytes behind the last
    whole block as one more block, filled up with zeros, that is mixed but not rotated
    into the state. *)
From Stdlib Require Import ZArith Lia.
From stdpp Require Import base tactics numbers list.
From S2P Require Import Prelude.
#[local] Open Scope Z_scope.

(** ** Words *)

Definition rotl32 (x r : Z) : Z := Z.lor (u32 (Z.shiftl x r)) (Z.shiftr x (32 - r)).
Definition rotl64 (x r : Z) : Z := Z.lor (u64 (Z.shiftl x r)) (Z.shiftr x (64 - r)).
Definition mul32 (x y : Z) : Z := u32 (x * y).
Definition mul64 (x y : Z) : Z := u64 (x * y).
Definition add32 (x y : Z) : Z := u32 (x + y).
Definition add64 (x y : Z) : Z := u64 (x + y).
(** [h ^= h >> r] *)
Definition xorshift (r h : Z) : Z := Z.lxor h (Z.shiftr h r).

Definition fmix32 (h : Z) : Z :=
  let h := xorshift 16 h in
  let h := mul32 h 0x85ebca6b in
  let h := xorshift 13 h in
  let h := mul32 h 0xc2b2ae35 in
  let h := xorshift 16 h in h.
Definition fmix64 (k : Z) : Z :=
  let k := xorshift 33 k in
  let k := mul64 k 0xff51afd7ed558ccd in
  let k := xorshift 33 k in
  let k := mul64 k 0xc4ceb9fe1a85ec53 in
  let k := xorshift 33 k in k.

(** ** Reads *)

Definition read_key (key : bytes) (off n : Z) : result bytes :=
  check ((0 <=? off) && (off + n <=? zlen key)) UB ;;
  Ok (take (Z.to_nat n) (drop (Z.to_nat off) key)).
Definition getblock32 (key : bytes) (blocks i : Z) : result Z :=
  bs ← read_key key (blocks + 4 * i) 4; Ok (le_dec bs).
Definition getblock64 (key : bytes) (blocks i : Z) : result Z :=
  bs ← read_key key (blocks + 8 * i) 8; Ok (le_dec bs).

(** [case (i + 1): k ^= tail[i] << sh], reached when the [switch] value is at least
    [i + 1]; [w] is the width of [k]. *)
Definition tail_case (w : Z) (key : bytes) (tail t i sh k : Z) : result Z :=
  if i <? t then bs ← read_key key (tail + i) 1; Ok (Z.lxor k (Z.shiftl (le_dec bs) sh mod 2 ^ w)) else Ok k.

(** A loop of [n] rounds with index [i] counting up. *)
Fixpoint rounds {S} (f : Z → S → result S) (n : nat) (i : Z) (s : S) : result S :=
  match n with O => Ok s | S n => s ← f i s; rounds f n (i + 1) s end.

(** ** MurmurHash3_x86_32 *)

Definition c1_32 : Z := 0xcc9e2d51.
Definition c2_32 : Z := 0x1b873593.
Definition mix32 (k : Z) : Z := mul32 (rotl32 (mul32 k c1_32) 15) c2_32.
Definition round32 (h1 k1 : Z) : Z :=
  let h1 := Z.lxor h1 (mix32 k1) in
  let h1 := rotl32 h1 13 in
  add32 (mul32 h1 5) 0xe6546b64.

(** A negative [len] makes the loop index overflow. *)
Definition MurmurHash3_x86_32 (key : bytes) (len seed : Z) : result bytes :=
  let nblocks := Z.quot len 4 in
  check (0 <=? nblocks) UB ;;
  let blocks := nblocks * 4 in
  h1 ← rounds (λ i h1, k1 ← getblock32 key blocks i; Ok (round32 h1 k1)) (Z.to_nat nblocks) (- nblocks) seed;
  let tail := nblocks * 4 in
  let t := Z.land len 3 in
  k1 ← tail_case 32 key tail t 2 16 0;
  k1 ← tail_case 32 key tail t 1 8 k1;
  k1 ← tail_case 32 key tail t 0 0 k1;
  let h1 := if 1 <=? t then Z.lxor h1 (mix32 k1) else h1 in
  let h1 := Z.lxor h1 (u32 len) in
  let h1 := fmix32 h1 in
  Ok (le_enc 4 h1).

(** ** MurmurHash3_x86_128 *)

Definition d1 : Z := 0x239b961b.
Definition d2 : Z := 0xab0e9789.
Definition d3 : Z := 0x38b34ae5.
Definition d4 : Z := 0xa1e38b93.
Definition mix_k1 (k : Z) : Z := mul32 (rotl32 (mul32 k d1) 15) d2.
Definition mix_k2 (k : Z) : Z := mul32 (rotl32 (mul32 k d2) 16) d3.
Definition mix_k3 (k : Z) : Z := mul32 (rotl32 (mul32 k d3) 17) d4.
Definition mix_k4 (k : Z) : Z := mul32 (rotl32 (mul32 k d4) 18) d1.

Abbreviation state4 := (Z * Z * Z * Z)%type.

Definition round128 (h k : state4) : state4 :=
  let '(h1, h2, h3, h4) := h in
  let '(k1, k2, k3, k4) := k in
  let h1 := Z.lxor h1 (mix_k1 k1) in
  let h1 := rotl32 h1 19 in
  let h1 := add32 h1 h2 in
  let h1 := add32 (mul32 h1 5) 0x561ccd1b in
  let h2 := Z.lxor h2 (mix_k2 k2) in
  let h2 := rotl32 h2 17 in
  let h2 := add32 h2 h3 in
  let h2 := add32 (mul32 h2 5) 0x0bcaa747 in
  let h3 := Z.lxor h3 (mix_k3 k3) in
  let h3 := rotl32 h3 15 in
  let h3 := add32 h3 h4 in
  let h3 := add32 (mul32 h3 5) 0x96cd1c35 in
  let h4 := Z.lxor h4 (mix_k4 k4) in
  let h4 := rotl32 h4 13 in
  let h4 := add32 h4 h1 in
  let h4 := add32 (mul32 h4 5) 0x32ac3b17 in
  (h1, h2, h3, h4).

(** The additions before and after the final mix. *)
Definition cross32 (h : state4) : state4 :=
  let '(h1, h2, h3, h4) := h in
  let h1 := add32 h1 h2 in
  let h1 := add32 h1 h3 in
  let h1 := add32 h1 h4 in
  (h1, add32 h2 h1, add32 h3 h1, add32 h4 h1).
Definition final128 (len : Z) (h : state4) : bytes :=
  let '(h1, h2, h3, h4) := h in
  let '(h1, h2, h3, h4) := cross32 (Z.lxor h1 (u32 len), Z.lxor h2 (u32 len), Z.lxor h3 (u32 len), Z.lxor h4 (u32 len)) in
  let '(h1, h2, h3, h4) := cross32 (fmix32 h1, fmix32 h2, fmix32 h3, fmix32 h4) in
  le_enc 4 h1 ++ le_enc 4 h2 ++ le_enc 4 h3 ++ le_enc 4 h4.

Definition MurmurHash3_x86_128 (key : bytes) (len seed : Z) : result bytes :=
  let nblocks := Z.quot len 16 in
  check (0 <=? nblocks) UB ;;
  let blocks := nblocks * 16 in
  h ← rounds (λ i h, k1 ← getblock32 key blocks (i * 4 + 0); k2 ← getblock32 key blocks (i * 4 + 1);
                     k3 ← getblock32 key blocks (i * 4 + 2); k4 ← getblock32 key blocks (i * 4 + 3);
                     Ok (round128 h (k1, k2, k3, k4))) (Z.to_nat nblocks) (- nblocks) (seed, seed, seed, seed);
  let '(h1, h2, h3, h4) := h in
  let tail := nblocks * 16 in
  let t := Z.land len 15 in
  k4 ← tail_case 32 key tail t 14 16 0;
  k4 ← tail_case 32 key tail t 13 8 k4;
  k4 ← tail_case 32 key tail t 12 0 k4;
  let h4 := if 13 <=? t then Z.lxor h4 (mix_k4 k4) else h4 in
  k3 ← tail_case 32 key tail t 11 24 0;
  k3 ← tail_case 32 key tail t 10 16 k3;
  k3 ← tail_case 32 key tail t 9 8 k3;
  k3 ← tail_case 32 key tail t 8 0 k3;
  let h3 := if 9 <=? t then Z.lxor h3 (mix_k3 k3) else h3 in
  k2 ← tail_case 32 key tail t 7 24 0;
  k2 ← tail_case 32 key tail t 6 16 k2;
  k2 ← tail_case 32 key tail t 5 8 k2;
  k2 ← tail_case 32 key tail t 4 0 k2;
  let h2 := if 5 <=? t then Z.lxor h2 (mix_k2 k2) else h2 in
  k1 ← tail_case 32 key tail t 3 24 0;
  k1 ← tail_case 32 key tail t 2 16 k1;
  k1 ← tail_case 32 key tail t 1 8 k1;
  k1 ← tail_case 32 key tail t 0 0 k1;
  let h1 := if 1 <=? t then Z.lxor h1 (mix_k1 k1) else h1 in
  Ok (final128 len (h1, h2, h3, h4)).

(** ** MurmurHash3_x64_128 *)

Definition e1 : Z := 0x87c37b91114253d5.
Definition e2 : Z := 0x4cf5ad432745937f.
Definition mix64_k1 (k : Z) : Z := mul64 (rotl64 (mul64 k e1) 31) e2.
Definition mix64_k2 (k : Z) : Z := mul64 (rotl64 (mul64 k e2) 33) e1.

Definition round_x64 (h k : Z * Z) : Z * Z :=
  let '(h1, h2) := h in
  let '(k1, k2) := k in
  let h1 := Z.lxor h1 (mix64_k1 k1) in
  let h1 := rotl64 h1 27 in
  let h1 := add64 h1 h2 in
  let h1 := add64 (mul64 h1 5) 0x52dce729 in
  let h2 := Z.lxor h2 (mix64_k2 k2) in
  let h2 := rotl64 h2 31 in
  let h2 := add64 h2 h1 in
  let h2 := add64 (mul64 h2 5) 0x38495ab5 in
  (h1, h2).

Definition cross64 (h : Z * Z) : Z * Z :=
  let '(h1, h2) := h in
  let h1 := add64 h1 h2 in
  (h1, add64 h2 h1).
(** [h ^= len] extends the sign of the [int]. *)
Definition final_x64 (len : Z) (h : Z * Z) : bytes :=
  let '(h1, h2) := h in
  let '(h1, h2) := cross64 (Z.lxor h1 (u64 len), Z.lxor h2 (u64 len)) in
  let '(h1, h2) := cross64 (fmix64 h1, fmix64 h2) in
  le_enc 8 h1 ++ le_enc 8 h2.

(** The loop runs upwards from 0 and not at all for a negative [nblocks]. *)
Definition MurmurHash3_x64_128 (key : bytes) (len seed : Z) : result bytes :=
  let nblocks := Z.quot len 16 in
  h ← rounds (λ i h, k1 ← getblock64 key 0 (i * 2 + 0); k2 ← getblock64 key 0 (i * 2 + 1);
                     Ok (round_x64 h (k1, k2))) (Z.to_nat nblocks) 0 (seed, seed);
  let '(h1, h2) := h in
  let tail := nblocks * 16 in
  let t := Z.land len 15 in
  k2 ← tail_case 64 key tail t 14 48 0;
  k2 ← tail_case 64 key tail t 13 40 k2;
  k2 ← tail_case 64 key tail t 12 32 k2;
  k2 ← tail_case 64 key tail t 11 24 k2;
  k2 ← tail_case 64 key tail t 10 16 k2;
  k2 ← tail_case 64 key tail t 9 8 k2;
  k2 ← tail_case 64 key tail t 8 0 k2;
  let h2 := if 9 <=? t then Z.lxor h2 (mix64_k2 k2) else h2 in
  k1 ← tail_case 64 key tail t 7 56 0;
  k1 ← tail_case 64 key tail t 6 48 k1;
  k1 ← tail_case 64 key tail t 5 40 k1;
  k1 ← tail_case 64 key tail t 4 32 k1;
  k1 ← tail_case 64 key tail t 3 24 k1;
  k1 ← tail_case 64 key tail t 2 16 k1;
  k1 ← tail_case 64 key tail t 1 8 k1;
  k1 ← tail_case 64 key tail t 0 0 k1;
  let h1 := if 1 <=? t then Z.lxor h1 (mix64_k1 k1) else h1 in
  Ok (final_x64 len (h1, h2)).

(** ** Reference *)

(** The word of [n] bytes at [off], zeros behind the end. *)
Definition word (n off : nat) (bs : bytes) : Z := le_dec (take n (drop off bs)).
(** The blocks of [n] bytes, without the incomplete last one. *)
Fixpoint whole_blocks (k n : nat) (bs : bytes) : list bytes :=
  match k with O => [] | S k => take n bs :: whole_blocks k n (drop n bs) end.
Definition blocks_of (n : nat) (bs : bytes) : list bytes := whole_blocks (length bs / n) n bs.
Definition rest_of (n : nat) (bs : bytes) : bytes := drop (length bs / n * n) bs.

Definition ref_x86_32 (seed : Z) (bs : bytes) : bytes :=
  let h := foldl (λ h b, round32 h (word 4 0 b)) seed (blocks_of 4 bs) in
  let h := Z.lxor h (mix32 (word 4 0 (rest_of 4 bs))) in
  le_enc 4 (fmix32 (Z.lxor h (zlen bs))).

Definition words4 (b : bytes) : state4 := (word 4 0 b, word 4 4 b, word 4 8 b, word 4 12 b).
Definition ref_x86_128 (seed : Z) (bs : bytes) : bytes :=
  let '(h1, h2, h3, h4) := foldl (λ h b, round128 h (words4 b)) (seed, seed, seed, seed) (blocks_of 16 bs) in
  let '(k1, k2, k3, k4) := words4 (rest_of 16 bs) in
  final128 (zlen bs) (Z.lxor h1 (mix_k1 k1), Z.lxor h2 (mix_k2 k2), Z.lxor h3 (mix_k3 k3), Z.lxor h4 (mix_k4 k4)).

Definition ref_x64_128 (seed : Z) (bs : bytes) : bytes :=
  let '(h1, h2) := foldl (λ h b, round_x64 h (word 8 0 b, word 8 8 b)) (seed, seed) (blocks_of 16 bs) in
  let r := rest_of 16 bs in
  final_x64 (zlen bs) (Z.lxor h1 (mix64_k1 (word 8 0 r)), Z.lxor h2 (mix64_k2 (word 8 8 r))).

(** Published test values. *)
Example x86_32_hello : MurmurHash3_x86_32 [104; 101; 108; 108; 111] 5 0 = Ok (le_enc 4 0x248bfa47).
Proof. by vm_compute. Qed.
Example x64_128_hello : MurmurHash3_x64_128 [104; 101; 108; 108; 111] 5 0 = Ok (le_enc 8 0xcbd8a7b341bd9b02 ++ le_enc 8 0x5b1e906a48ae1d19).
Proof. by vm_compute. Qed.

(** ** Lemmas: words and tails *)

Lemma nth_drop (l : bytes) off : nth off l 0 = nth 0 (drop off l) 0.
Proof. revert l. induction off as [|off IH]; intros [|x l]; try done. apply IH. Qed.
Lemma word_S n off l : word (S n) off l = nth off l 0 + 256 * word n (S off) l.
Proof.
  unfold word. replace (drop (S off) l) with (drop 1 (drop off l)) by (rewrite drop_drop; f_equal; lia).
  rewrite nth_drop. by destruct (drop off l), n.
Qed.
Lemma word_0 off l : word 0 off l = 0.
Proof. done. Qed.
Lemma word_short n off l : (length l ≤ off)%nat → word n off l = 0.
Proof. intros. unfold word. by rewrite drop_ge, take_nil by lia. Qed.

Lemma xor_step w Y b s : 0 ≤ b < 256 → 0 ≤ s → s + 8 ≤ w →
  Z.lxor (Y * 2 ^ (s + 8)) (Z.shiftl b s mod 2 ^ w) = (Y * 256 + b) * 2 ^ s.
Proof.
  intros Hb Hs Hw. rewrite Z.shiftl_mul_pow2 by lia. pose proof (Z.pow_pos_nonneg 2 s).
  rewrite Z.mod_small by (split; [nia|]; apply Z.lt_le_trans with (2 ^ (s + 8)); [rewrite Z.pow_add_r by lia; nia|]; apply Z.pow_le_mono_r; lia).
  rewrite <- Z.add_nocarry_lxor; [rewrite Z.pow_add_r by lia; lia|].
  apply Z.bits_inj'. intros n Hn. rewrite Z.land_spec, Z.bits_0, !Z.mul_pow2_bits by lia.
  destruct (Z.ltb_spec n (s + 8)); [by rewrite (Z.testbit_neg_r Y) by lia|].
  rewrite <- (Z.mod_small b (2 ^ 8)) by lia. rewrite Z.mod_pow2_bits_high by lia. apply andb_false_r.
Qed.

Section Tail.
Context (w : Z) (key : bytes) (tail t : Z) (rest : bytes).
Context (Htail : 0 ≤ tail) (Ht : t = zlen rest) (Hrest : rest = drop (Z.to_nat tail) key) (Hlen : tail + t = zlen key).

Lemma tail_case_spec i sh k : 0 ≤ i → 0 ≤ w →
  tail_case w key tail t i sh k = Ok (Z.lxor k (Z.shiftl (nth (Z.to_nat i) rest 0) sh mod 2 ^ w)).
Proof.
  intros Hi Hw. unfold tail_case. destruct (i <? t) eqn:E; zbool.
  - unfold read_key. rewrite !(proj2 (Z.leb_le _ _)) by lia. cbn [andb check mbind result_bind].
    change (Z.to_nat 1) with 1%nat. replace (Z.to_nat (tail + i)) with (Z.to_nat tail + Z.to_nat i)%nat by lia.
    rewrite <- drop_drop, <- Hrest. fold (word 1 (Z.to_nat i) rest). rewrite word_S, word_0. by rewrite Z.mul_0_r, Z.add_0_r.
  - rewrite nth_overflow by (unfold zlen in Ht; lia). rewrite Z.shiftl_0_l, Z.mod_0_l by lia. by rewrite Z.lxor_0_r.
Qed.
End Tail.

(** The bytes of a tail word, from the highest down. *)
Lemma tail_word32 b0 b1 b2 b3 : 0 ≤ b0 < 256 → 0 ≤ b1 < 256 → 0 ≤ b2 < 256 → 0 ≤ b3 < 256 →
  Z.lxor (Z.lxor (Z.lxor (Z.lxor 0 (Z.shiftl b3 24 mod 2 ^ 32)) (Z.shiftl b2 16 mod 2 ^ 32)) (Z.shiftl b1 8 mod 2 ^ 32))
    (Z.shiftl b0 0 mod 2 ^ 32) = b0 + 256 * (b1 + 256 * (b2 + 256 * (b3 + 256 * 0))).
Proof.
  intros H0 H1 H2 H3. change 0 with (0 * 2 ^ (24 + 8)) at 1. rewrite (xor_step 32 0 b3 24) by lia.
  change (2 ^ 24) with (2 ^ (16 + 8)). rewrite (xor_step 32 _ b2 16) by lia.
  change (2 ^ 16) with (2 ^ (8 + 8)). rewrite (xor_step 32 _ b1 8) by lia.
  change (2 ^ 8) with (2 ^ (0 + 8)) at 1. rewrite (xor_step 32 _ b0 0) by lia. lia.
Qed.
Lemma tail_word64 b0 b1 b2 b3 b4 b5 b6 b7 :
  0 ≤ b0 < 256 → 0 ≤ b1 < 256 → 0 ≤ b2 < 256 → 0 ≤ b3 < 256 →
  0 ≤ b4 < 256 → 0 ≤ b5 < 256 → 0 ≤ b6 < 256 → 0 ≤ b7 < 256 →
  Z.lxor (Z.lxor (Z.lxor (Z.lxor (Z.lxor (Z.lxor (Z.lxor (Z.lxor 0 (Z.shiftl b7 56 mod 2 ^ 64)) (Z.shiftl b6 48 mod 2 ^ 64))
    (Z.shiftl b5 40 mod 2 ^ 64)) (Z.shiftl b4 32 mod 2 ^ 64)) (Z.shiftl b3 24 mod 2 ^ 64)) (Z.shiftl b2 16 mod 2 ^ 64))
    (Z.shiftl b1 8 mod 2 ^ 64)) (Z.shiftl b0 0 mod 2 ^ 64) =
  b0 + 256 * (b1 + 256 * (b2 + 256 * (b3 + 256 * (b4 + 256 * (b5 + 256 * (b6 + 256 * (b7 + 256 * 0))))))).
Proof.
  intros H0 H1 H2 H3 H4 H5 H6 H7. change 0 with (0 * 2 ^ (56 + 8)) at 1. rewrite (xor_step 64 0 b7 56) by lia.
  change (2 ^ 56) with (2 ^ (48 + 8)). rewrite (xor_step 64 _ b6 48) by lia.
  change (2 ^ 48) with (2 ^ (40 + 8)). rewrite (xor_step 64 _ b5 40) by lia.
  change (2 ^ 40) with (2 ^ (32 + 8)). rewrite (xor_step 64 _ b4 32) by lia.
  change (2 ^ 32) with (2 ^ (24 + 8)). rewrite (xor_step 64 _ b3 24) by lia.
  change (2 ^ 24) with (2 ^ (16 + 8)). rewrite (xor_step 64 _ b2 16) by lia.
  change (2 ^ 16) with (2 ^ (8 + 8)). rewrite (xor_step 64 _ b1 8) by lia.
  change (2 ^ 8) with (2 ^ (0 + 8)) at 1. rewrite (xor_step 64 _ b0 0) by lia. lia.
Qed.

(** ** Lemmas: blocks *)

Lemma word_block n off sz m key : (off + n ≤ sz)%nat → word n off (take sz (drop m key)) = word n (m + off) key.
Proof.
  intros H. unfold word. f_equal. rewrite <- drop_drop. replace sz with (off + (sz - off))%nat by lia.
  rewrite <- take_drop_commute, take_take. f_equal. lia.
Qed.

Lemma getblock32_ok key blocks i : 0 ≤ blocks + 4 * i → blocks + 4 * i + 4 ≤ zlen key →
  getblock32 key blocks i = Ok (word 4 (Z.to_nat (blocks + 4 * i)) key).
Proof. intros. unfold getblock32, read_key. by rewrite !(proj2 (Z.leb_le _ _)) by lia. Qed.
Lemma getblock64_ok key blocks i : 0 ≤ blocks + 8 * i → blocks + 8 * i + 8 ≤ zlen key →
  getblock64 key blocks i = Ok (word 8 (Z.to_nat (blocks + 8 * i)) key).
Proof. intros. unfold getblock64, read_key. by rewrite !(proj2 (Z.leb_le _ _)) by lia. Qed.

Lemma rounds_blocks {S} (f : Z → S → result S) (g : S → bytes → S) sz n : ∀ i key s,
  (∀ j s, (j < n)%nat → f (i + Z.of_nat j) s = Ok (g s (take sz (drop (j * sz) key)))) →
  rounds f n i s = Ok (foldl g s (whole_blocks n sz key)).
Proof.
  induction n as [|n IH]; intros i key s Hf; [done|]. cbn [rounds whole_blocks foldl].
  pose proof (Hf 0%nat s ltac:(lia)) as H0. rewrite Z.add_0_r in H0. rewrite H0. cbn [mbind result_bind].
  change (drop (0 * sz) key) with key. apply IH. intros j s' Hj. specialize (Hf (Datatypes.S j) s' ltac:(lia)).
  replace (i + 1 + Z.of_nat j) with (i + Z.of_nat (Datatypes.S j)) by lia. by rewrite Hf, drop_drop.
Qed.

(** The number of blocks of a key and what remains, as the code computes them. *)
Lemma quot_blocks (key : bytes) sz : 0 < sz → Z.to_nat (Z.quot (zlen key) sz) = (length key / Z.to_nat sz)%nat.
Proof.
  intros Hs. rewrite Z.quot_div_nonneg by (pose proof (zlen_nonneg key); lia).
  unfold zlen. rewrite <- (Z2Nat.id sz) at 1 by lia. by rewrite <- Nat2Z.inj_div, Nat2Z.id.
Qed.

Record split_key (sz : Z) (key : bytes) : Prop := {
  sk_n : 0 ≤ Z.quot (zlen key) sz;
  sk_rest : zlen (rest_of (Z.to_nat sz) key) = zlen key mod sz;
  sk_sum : Z.quot (zlen key) sz * sz + zlen (rest_of (Z.to_nat sz) key) = zlen key;
  sk_eq : rest_of (Z.to_nat sz) key = drop (Z.to_nat (Z.quot (zlen key) sz * sz)) key }.

Lemma split_key_ok sz key : 0 < sz → split_key sz key.
Proof.
  intros Hs. pose proof (zlen_nonneg key). pose proof (quot_blocks key sz Hs) as Hq.
  assert (Hqd : Z.quot (zlen key) sz = zlen key / sz) by (by apply Z.quot_div_nonneg; lia).
  pose proof (Z.div_mod (zlen key) sz ltac:(lia)) as Hdm. pose proof (Z.mod_pos_bound (zlen key) sz Hs).
  assert (Hn : 0 ≤ zlen key / sz) by (apply Z.div_pos; lia).
  assert (He : rest_of (Z.to_nat sz) key = drop (Z.to_nat (Z.quot (zlen key) sz * sz)) key).
  { unfold rest_of. by rewrite Hqd, Z2Nat.inj_mul, <- Hq, Hqd by lia. }
  assert (Hr : zlen (rest_of (Z.to_nat sz) key) = zlen key mod sz).
  { rewrite He, Hqd. unfold zlen at 1. rewrite length_drop. unfold zlen in *. nia. }
  split; [lia|done| |done]. rewrite Hr, Hqd. lia.
Qed.

Lemma nth_byte key i : Forall (λ b, 0 ≤ b < 256) key → 0 ≤ nth i key 0 < 256.
Proof.
  intros Hk. destruct (nth_in_or_default i key 0) as [Hin| ->]; [|lia].
  rewrite Forall_forall in Hk. apply Hk. by apply list_elem_of_In.
Qed.

(** ** Equivalence with the reference *)

Section Equivalence.
Context (key : bytes) (Hkey : Forall (λ b, 0 ≤ b < 256) key) (Hlen : zlen key < 2 ^ 31).

Lemma rest_byte n i : 0 ≤ nth i (rest_of n key) 0 < 256.
Proof. apply nth_byte. by apply Forall_drop. Qed.

Lemma land_ones_mod x n : 0 ≤ n → Z.land x (2 ^ n - 1) = x mod 2 ^ n.
Proof. intros. rewrite <- Z.land_ones by done. f_equal. rewrite Z.ones_equiv. lia. Qed.

(** A word of the tail that is not there is mixed to 0. *)
Lemma guard_mix (mix : Z → Z) n h off r : mix 0 = 0 →
  (if Z.of_nat off + 1 <=? zlen r then Z.lxor h (mix (word n off r)) else h) = Z.lxor h (mix (word n off r)).
Proof.
  intros Hmix. destruct (_ <=? _) eqn:E; [done|]. zbool. rewrite word_short, Hmix; [by rewrite Z.lxor_0_r|].
  unfold zlen in E. lia.
Qed.

Lemma tail32 r o : (∀ i, 0 ≤ nth i r 0 < 256) →
  word 4 o r = Z.lxor (Z.lxor (Z.lxor (Z.lxor 0 (Z.shiftl (nth (o + 3) r 0) 24 mod 2 ^ 32)) (Z.shiftl (nth (o + 2) r 0) 16 mod 2 ^ 32))
    (Z.shiftl (nth (o + 1) r 0) 8 mod 2 ^ 32)) (Z.shiftl (nth o r 0) 0 mod 2 ^ 32).
Proof.
  intros Hr. rewrite !word_S, word_0, tail_word32 by apply Hr. do 8 f_equal; lia.
Qed.
Lemma tail64 r o : (∀ i, 0 ≤ nth i r 0 < 256) →
  word 8 o r = Z.lxor (Z.lxor (Z.lxor (Z.lxor (Z.lxor (Z.lxor (Z.lxor (Z.lxor 0 (Z.shiftl (nth (o + 7) r 0) 56 mod 2 ^ 64))
    (Z.shiftl (nth (o + 6) r 0) 48 mod 2 ^ 64)) (Z.shiftl (nth (o + 5) r 0) 40 mod 2 ^ 64)) (Z.shiftl (nth (o + 4) r 0) 32 mod 2 ^ 64))
    (Z.shiftl (nth (o + 3) r 0) 24 mod 2 ^ 64)) (Z.shiftl (nth (o + 2) r 0) 16 mod 2 ^ 64))
    (Z.shiftl (nth (o + 1) r 0) 8 mod 2 ^ 64)) (Z.shiftl (nth o r 0) 0 mod 2 ^ 64).
Proof.
  intros Hr. rewrite !word_S, word_0, tail_word64 by apply Hr. rewrite !(Nat.add_comm o). done.
Qed.

(** Run the cases of the [switch]. *)
Ltac tail_cases w q r :=
  repeat (rewrite (tail_case_spec w key q (zlen r) r) by (lia || done); cbn [mbind result_bind]).

Lemma x86_32_spec seed : MurmurHash3_x86_32 key (zlen key) seed = Ok (ref_x86_32 seed key).
Proof.
  destruct (split_key_ok 4 key ltac:(lia)) as [Hn Hr Hsum Heq]. pose proof (zlen_nonneg key).
  pose proof (quot_blocks key 4 ltac:(lia)) as Hq. pose proof (zlen_nonneg (rest_of (Z.to_nat 4) key)).
  pose proof (Z.mod_pos_bound (zlen key) 4 ltac:(lia)).
  unfold MurmurHash3_x86_32. rewrite (proj2 (Z.leb_le 0 (Z.quot (zlen key) 4)) Hn). cbn [check mbind result_bind].
  rewrite (rounds_blocks _ (λ h b, round32 h (word 4 0 b)) 4 _ _ key).
  2:{ intros j s Hj. rewrite getblock32_ok by lia. cbn [mbind result_bind]. rewrite word_block by lia. do 3 f_equal. lia. }
  cbn [mbind result_bind]. rewrite (land_ones_mod _ 2) by lia. change (2 ^ 2) with 4. rewrite <- Hr.
  set (q := Z.quot (zlen key) 4) in *. pose proof (rest_byte (Z.to_nat 4)) as Hb. set (r := rest_of (Z.to_nat 4) key) in *.
  tail_cases 32 (q * 4) r. unfold ref_x86_32, blocks_of. rewrite (u32_small (zlen key)), Hq by lia.
  change (rest_of 4 key) with r. rewrite <- (guard_mix mix32 4 _ 0 r), (tail32 r 0 Hb) by done.
  by rewrite (nth_overflow r 0 (n := 0 + 3)) by (unfold zlen in *; lia).
Qed.

Lemma x86_128_spec seed : MurmurHash3_x86_128 key (zlen key) seed = Ok (ref_x86_128 seed key).
Proof.
  destruct (split_key_ok 16 key ltac:(lia)) as [Hn Hr Hsum Heq]. pose proof (zlen_nonneg key).
  pose proof (quot_blocks key 16 ltac:(lia)) as Hq. pose proof (zlen_nonneg (rest_of (Z.to_nat 16) key)).
  pose proof (Z.mod_pos_bound (zlen key) 16 ltac:(lia)).
  unfold MurmurHash3_x86_128. rewrite (proj2 (Z.leb_le 0 (Z.quot (zlen key) 16)) Hn). cbn [check mbind result_bind].
  rewrite (rounds_blocks _ (λ h b, round128 h (words4 b)) 16 _ _ key).
  2:{ intros j s Hj. rewrite !getblock32_ok by lia. cbn [mbind result_bind]. unfold words4. rewrite !word_block by lia.
      do 6 f_equal; lia. }
  cbn [mbind result_bind]. rewrite (land_ones_mod _ 4) by lia. change (2 ^ 4) with 16. rewrite <- Hr.
  set (q := Z.quot (zlen key) 16) in *. pose proof (rest_byte (Z.to_nat 16)) as Hb. set (r := rest_of (Z.to_nat 16) key) in *.
  unfold ref_x86_128, blocks_of. rewrite Hq. change (rest_of 16 key) with r. change (Z.to_nat 16) with 16%nat.
  destruct (foldl _ _ _) as [[[h1 h2] h3] h4]. tail_cases 32 (q * 16) r. unfold words4.
  rewrite <- (guard_mix mix_k1 4 _ 0 r), <- (guard_mix mix_k2 4 _ 4 r), <- (guard_mix mix_k3 4 _ 8 r), <- (guard_mix mix_k4 4 _ 12 r) by done.
  rewrite !(tail32 r _ Hb). by rewrite (nth_overflow r 0 (n := 12 + 3)) by (unfold zlen in *; lia).
Qed.

Lemma x64_128_spec seed : MurmurHash3_x64_128 key (zlen key) seed = Ok (ref_x64_128 seed key).
Proof.
  destruct (split_key_ok 16 key ltac:(lia)) as [Hn Hr Hsum Heq]. pose proof (zlen_nonneg key).
  pose proof (quot_blocks key 16 ltac:(lia)) as Hq. pose proof (zlen_nonneg (rest_of (Z.to_nat 16) key)).
  pose proof (Z.mod_pos_bound (zlen key) 16 ltac:(lia)).
  unfold MurmurHash3_x64_128.
  rewrite (rounds_blocks _ (λ h b, round_x64 h (word 8 0 b, word 8 8 b)) 16 _ _ key).
  2:{ intros j s Hj. rewrite !getblock64_ok by lia. cbn [mbind result_bind]. rewrite !word_block by lia. do 4 f_equal; lia. }
  cbn [mbind result_bind]. rewrite (land_ones_mod _ 4) by lia. change (2 ^ 4) with 16. rewrite <- Hr.
  set (q := Z.quot (zlen key) 16) in *. pose proof (rest_byte (Z.to_nat 16)) as Hb. set (r := rest_of (Z.to_nat 16) key) in *.
  unfold ref_x64_128, blocks_of. rewrite Hq. change (rest_of 16 key) with r. change (Z.to_nat 16) with 16%nat.
  destruct (foldl _ _ _) as [h1 h2]. tail_cases 64 (q * 16) r.
  rewrite <- (guard_mix mix64_k1 8 _ 0 r), <- (guard_mix mix64_k2 8 _ 8 r) by done.
  rewrite !(tail64 r _ Hb). by rewrite (nth_overflow r 0 (n := 8 + 7)) by (unfold zlen in *; lia).
Qed.
End Equivalence.

(** ** The final mix loses nothing *)

Definition unshift13 (y : Z) : Z := Z.lxor (Z.lxor y (Z.shiftr y 13)) (Z.shiftr y 26).
(** The inverse mixes; the factors are the inverses modulo the word size. *)
Definition unfmix32 (h : Z) : Z :=
  let h := xorshift 16 h in
  let h := mul32 h 0x7ed1b41d in
  let h := unshift13 h in
  let h := mul32 h 0xa5cb9243 in
  xorshift 16 h.
Definition unfmix64 (k : Z) : Z :=
  let k := xorshift 33 k in
  let k := mul64 k 0x9cb4b2f8129337db in
  let k := xorshift 33 k in
  let k := mul64 k 0x4f74430c22a54005 in
  xorshift 33 k.

Lemma xorshift_range w r x : 0 ≤ w → 0 ≤ r → 0 ≤ x < 2 ^ w → 0 ≤ xorshift r x < 2 ^ w.
Proof.
  intros Hw Hr Hx. unfold xorshift.
  assert (0 ≤ Z.lxor x (Z.shiftr x r)) by (apply Z.lxor_nonneg; rewrite Z.shiftr_nonneg; lia).
  split; [done|]. apply bits_bound; [lia|done|]. intros n Hn.
  rewrite Z.lxor_spec, Z.shiftr_spec, !(bits_high x w) by lia. done.
Qed.
Lemma xorshift_invol w r x : 0 ≤ w → 0 ≤ r → w ≤ 2 * r → 0 ≤ x < 2 ^ w → xorshift r (xorshift r x) = x.
Proof.
  intros Hw Hr Hwr Hx. apply Z.bits_inj'. intros n Hn. unfold xorshift.
  rewrite !Z.lxor_spec, !Z.shiftr_spec, Z.lxor_spec, Z.shiftr_spec by lia.
  rewrite (bits_high x w (n + r + r)) by lia. by destruct (Z.testbit x n), (Z.testbit x (n + r)).
Qed.
Lemma unshift13_ok x : 0 ≤ x < 2 ^ 32 → unshift13 (xorshift 13 x) = x.
Proof.
  intros Hx. apply Z.bits_inj'. intros n Hn. unfold unshift13, xorshift.
  rewrite !Z.lxor_spec, !Z.shiftr_spec, !Z.lxor_spec, !Z.shiftr_spec by lia.
  rewrite (bits_high x 32 (n + 26 + 13)) by lia. replace (n + 13 + 13) with (n + 26) by lia.
  by destruct (Z.testbit x n), (Z.testbit x (n + 13)), (Z.testbit x (n + 26)).
Qed.
Lemma mul32_inv c c' x : u32 (c * c') = 1 → 0 ≤ x < 2 ^ 32 → mul32 (mul32 x c) c' = x.
Proof.
  intros Hc Hx. unfold mul32, u32 in *. rewrite Zmult_mod_idemp_l, <- Z.mul_assoc, <- Zmult_mod_idemp_r, Hc, Z.mul_1_r.
  by apply Z.mod_small.
Qed.
Lemma mul64_inv c c' x : u64 (c * c') = 1 → 0 ≤ x < 2 ^ 64 → mul64 (mul64 x c) c' = x.
Proof.
  intros Hc Hx. unfold mul64, u64 in *. rewrite Zmult_mod_idemp_l, <- Z.mul_assoc, <- Zmult_mod_idemp_r, Hc, Z.mul_1_r.
  by apply Z.mod_small.
Qed.
Lemma mul32_range x y : 0 ≤ mul32 x y < 2 ^ 32.
Proof. apply Z.mod_pos_bound. lia. Qed.
Lemma mul64_range x y : 0 ≤ mul64 x y < 2 ^ 64.
Proof. apply Z.mod_pos_bound. lia. Qed.

Lemma unfmix32_fmix32 h : 0 ≤ h < 2 ^ 32 → unfmix32 (fmix32 h) = h.
Proof.
  intros Hh. unfold unfmix32, fmix32. cbv zeta.
  rewrite (xorshift_invol 32) by (lia || apply mul32_range).
  rewrite mul32_inv by first [done|apply (xorshift_range 32); [lia..|apply mul32_range]].
  rewrite unshift13_ok by apply mul32_range.
  rewrite mul32_inv by first [done|apply (xorshift_range 32); [lia..|done]].
  by rewrite (xorshift_invol 32) by lia.
Qed.
Lemma unfmix64_fmix64 k : 0 ≤ k < 2 ^ 64 → unfmix64 (fmix64 k) = k.
Proof.
  intros Hk. unfold unfmix64, fmix64. cbv zeta.
  rewrite (xorshift_invol 64) by (lia || apply mul64_range).
  rewrite mul64_inv by first [done|apply (xorshift_range 64); [lia..|apply mul64_range]].
  rewrite (xorshift_invol 64) by (lia || apply mul64_range).
  rewrite mul64_inv by first [done|apply (xorshift_range 64); [lia..|done]].
  by rewrite (xorshift_invol 64) by lia.
Qed.

Lemma rotl32_inj r x y : 0 < r < 32 → 0 ≤ x < 2 ^ 32 → 0 ≤ y < 2 ^ 32 → rotl32 x r = rotl32 y r → x = y.
Proof.
  intros Hr Hx Hy E. apply Z.bits_inj'. intros n Hn. destruct (Z.lt_ge_cases n 32).
  2: by rewrite !(bits_high _ 32) by lia.
  assert (Hrot : ∀ z, 0 ≤ z < 2 ^ 32 → Z.testbit (rotl32 z r) (if n + r <? 32 then n + r else n + r - 32) = Z.testbit z n).
  { intros z Hz. unfold rotl32, u32. destruct (n + r <? 32) eqn:En; zbool.
    - rewrite Z.lor_spec, Z.mod_pow2_bits_low, Z.shiftl_spec, Z.shiftr_spec by lia.
      rewrite (bits_high z 32 (n + r + (32 - r))) by lia. rewrite orb_false_r. f_equal. lia.
    - rewrite Z.lor_spec, Z.mod_pow2_bits_low, Z.shiftl_spec, Z.shiftr_spec by lia.
      rewrite (Z.testbit_neg_r z (n + r - 32 - r)) by lia. simpl. f_equal. lia. }
  rewrite <- (Hrot x Hx), <- (Hrot y Hy). by rewrite E.
Qed.
Lemma rotl32_range r x : 0 < r < 32 → 0 ≤ x < 2 ^ 32 → 0 ≤ rotl32 x r < 2 ^ 32.
Proof.
  intros Hr Hx. unfold rotl32, u32. pose proof (Z.mod_pos_bound (Z.shiftl x r) (2 ^ 32)).
  assert (0 ≤ Z.lor (Z.shiftl x r mod 2 ^ 32) (Z.shiftr x (32 - r))) by (apply Z.lor_nonneg; rewrite Z.shiftr_nonneg; lia).
  split; [done|]. apply bits_bound; [lia|done|]. intros n Hn.
  rewrite Z.lor_spec, Z.mod_pow2_bits_high, Z.shiftr_spec, (bits_high x 32) by lia. done.
Qed.

Lemma le_enc_dec bs : Forall (λ b, 0 ≤ b < 256) bs → le_enc (length bs) (le_dec bs) = bs.
Proof.
  induction 1 as [|b bs Hb _ IH]; [done|]. cbn [length]. change (le_dec (b :: bs)) with (b + 256 * le_dec bs).
  change (le_enc (S (length bs)) (b + 256 * le_dec bs)) with
    ((b + 256 * le_dec bs) mod 256 :: le_enc (length bs) ((b + 256 * le_dec bs) / 256)).
  rewrite (Z.mul_comm 256), Z_mod_plus_full, Z.mod_small by lia. rewrite Z.div_add, Z.div_small by lia. by rewrite Z.add_0_l, IH.
Qed.
Lemma le_dec_range bs : Forall (λ b, 0 ≤ b < 256) bs → 0 ≤ le_dec bs < 256 ^ zlen bs.
Proof.
  induction 1 as [|b bs Hb _ IH]; [by vm_compute|]. change (le_dec (b :: bs)) with (b + 256 * le_dec bs).
  unfold zlen in *. cbn [length].
  rewrite Nat2Z.inj_succ, Z.pow_succ_r by lia. lia.
Qed.

Lemma lxor_inj_r a b c : Z.lxor a c = Z.lxor b c → a = b.
Proof. intros E. rewrite <- (Z.lxor_0_r a), <- (Z.lxor_nilpotent c), <- Z.lxor_assoc, E. by rewrite Z.lxor_assoc, Z.lxor_nilpotent, Z.lxor_0_r. Qed.
Lemma lxor_range a b w : 0 ≤ w → 0 ≤ a < 2 ^ w → 0 ≤ b < 2 ^ w → 0 ≤ Z.lxor a b < 2 ^ w.
Proof.
  intros Hw Ha Hb. assert (0 ≤ Z.lxor a b) by (apply Z.lxor_nonneg; lia). split; [done|].
  apply bits_bound; [lia|done|]. intros n Hn. by rewrite Z.lxor_spec, !(bits_high _ w) by lia.
Qed.
Lemma mul32_inj c c' x y : u32 (c * c') = 1 → 0 ≤ x < 2 ^ 32 → 0 ≤ y < 2 ^ 32 → mul32 x c = mul32 y c → x = y.
Proof. intros Hc Hx Hy E. rewrite <- (mul32_inv c c' x Hc Hx), <- (mul32_inv c c' y Hc Hy). by rewrite E. Qed.
Lemma add32_inj c x y : 0 ≤ x < 2 ^ 32 → 0 ≤ y < 2 ^ 32 → add32 x c = add32 y c → x = y.
Proof.
  intros Hx Hy E. rewrite <- (Z.mod_small x (2 ^ 32)), <- (Z.mod_small y (2 ^ 32)) by done.
  replace x with (x + c - c) by lia. replace y with (y + c - c) by lia. unfold add32, u32 in E.
  by rewrite Zminus_mod, E, <- Zminus_mod.
Qed.
Lemma fmix32_inj x y : 0 ≤ x < 2 ^ 32 → 0 ≤ y < 2 ^ 32 → fmix32 x = fmix32 y → x = y.
Proof. intros Hx Hy E. by rewrite <- (unfmix32_fmix32 x Hx), <- (unfmix32_fmix32 y Hy), E. Qed.

Lemma mix32_inj x y : 0 ≤ x < 2 ^ 32 → 0 ≤ y < 2 ^ 32 → mix32 x = mix32 y → x = y.
Proof.
  intros Hx Hy E. unfold mix32 in E. apply (mul32_inj c2_32 0x56ed309b) in E; [|done|apply rotl32_range; [lia|apply mul32_range]..].
  apply rotl32_inj in E; [|lia|apply mul32_range..]. by apply (mul32_inj c1_32 0xdee13bb1) in E.
Qed.
Lemma round32_range h k : 0 ≤ round32 h k < 2 ^ 32.
Proof. apply Z.mod_pos_bound. lia. Qed.
Lemma round32_inj h x y : 0 ≤ h < 2 ^ 32 → 0 ≤ x < 2 ^ 32 → 0 ≤ y < 2 ^ 32 → round32 h x = round32 h y → x = y.
Proof.
  intros Hh Hx Hy E. unfold round32 in E. assert (Hm : ∀ z, 0 ≤ Z.lxor h (mix32 z) < 2 ^ 32).
  { intros z. apply lxor_range; [lia|done|apply mul32_range]. }
  apply add32_inj in E; [|apply mul32_range..]. apply (mul32_inj 5 0xcccccccd) in E; [|done|by apply rotl32_range..].
  apply rotl32_inj in E; [|lia|apply Hm..]. rewrite !(Z.lxor_comm h) in E. apply lxor_inj_r in E. by apply mix32_inj.
Qed.

(** C37: the three hash functions read only the key and compute the reference, in which
    the bytes behind the last whole block are one zero-filled block that is mixed in:
    the fall-through switch over the tail, with its shifts, is exactly that. *)
Theorem murmur_reference key seed :
  Forall (λ b, 0 ≤ b < 256) key → zlen key < 2 ^ 31 →
  MurmurHash3_x86_32 key (zlen key) seed = Ok (ref_x86_32 seed key) ∧
  MurmurHash3_x86_128 key (zlen key) seed = Ok (ref_x86_128 seed key) ∧
  MurmurHash3_x64_128 key (zlen key) seed = Ok (ref_x64_128 seed key).
Proof. intros Hk Hl. split_and!; [by apply x86_32_spec|by apply x86_128_spec|by apply x64_128_spec]. Qed.

Lemma murmur_reference_witness :
  MurmurHash3_x86_32 [104; 101; 108; 108; 111] 5 7 = Ok (ref_x86_32 7 [104; 101; 108; 108; 111]) ∧
  MurmurHash3_x86_128 [104; 101; 108; 108; 111] 5 7 = Ok (ref_x86_128 7 [104; 101; 108; 108; 111]) ∧
  MurmurHash3_x64_128 [104; 101; 108; 108; 111] 5 7 = Ok (ref_x64_128 7 [104; 101; 108; 108; 111]).
Proof. apply (murmur_reference [104; 101; 108; 108; 111] 7); [|done]. by repeat (constructor; [lia|]). Defined.

(** No two keys of four bytes collide: for any seed, the 32-bit hash of a four-byte
    key determines the key; the final mixes of both word sizes are undone by the inverse
    mixes. *)
Theorem four_byte_keys seed k k' :
  0 ≤ seed < 2 ^ 32 → length k = 4%nat → length k' = 4%nat →
  Forall (λ b, 0 ≤ b < 256) k → Forall (λ b, 0 ≤ b < 256) k' →
  (MurmurHash3_x86_32 k 4 seed = MurmurHash3_x86_32 k' 4 seed → k = k') ∧
  (∀ h, 0 ≤ h < 2 ^ 32 → unfmix32 (fmix32 h) = h) ∧ (∀ h, 0 ≤ h < 2 ^ 64 → unfmix64 (fmix64 h) = h).
Proof.
  intros Hs Hl Hl' Hk Hk'. split_and!; [|apply unfmix32_fmix32|apply unfmix64_fmix64]. intros E.
  assert (Hz : zlen k = 4) by (unfold zlen; lia). assert (Hz' : zlen k' = 4) by (unfold zlen; lia).
  rewrite <- Hz in E at 1. rewrite <- Hz' in E. rewrite !x86_32_spec in E by (done || lia).
  apply (f_equal (λ r, match r with Ok a => a | Err _ => [] end)) in E. cbv beta iota in E.
  assert (Href : ∀ l, length l = 4%nat → Forall (λ b, 0 ≤ b < 256) l →
    ref_x86_32 seed l = le_enc 4 (fmix32 (Z.lxor (round32 seed (le_dec l)) 4)) ∧ 0 ≤ le_dec l < 2 ^ 32).
  { intros l Hll Hb. split; [|pose proof (le_dec_range l Hb) as Hr; unfold zlen in Hr; by rewrite Hll in Hr].
    unfold ref_x86_32, blocks_of, rest_of, word. replace (zlen l) with 4 by (unfold zlen; lia). rewrite Hll. simpl.
    rewrite drop_0, !take_ge by (rewrite ?length_take; lia). rewrite (drop_ge l 4) by lia.
    change (mix32 (le_dec [])) with 0. by rewrite Z.lxor_0_r. }
  destruct (Href k Hl Hk) as [R1 B1]. destruct (Href k' Hl' Hk') as [R2 B2]. rewrite R1, R2 in E.
  assert (Hx : ∀ z, 0 ≤ Z.lxor (round32 seed z) 4 < 2 ^ 32) by (intros z; apply lxor_range; [lia|apply round32_range|lia]).
  apply (f_equal le_dec) in E. rewrite !le_dec_enc4 in E by (apply (xorshift_range 32); [lia..|]; apply mul32_range).
  apply fmix32_inj in E; [|apply Hx..]. apply lxor_inj_r, round32_inj in E; [|done..].
  by rewrite <- (le_enc_dec k Hk), <- (le_enc_dec k' Hk'), Hl, Hl', E.
Qed.

Lemma four_byte_keys_witness :
  (MurmurHash3_x86_32 [1; 2; 3; 4] 4 7 = MurmurHash3_x86_32 [1; 2; 3; 5] 4 7 → [1; 2; 3; 4] = [1; 2; 3; 5]) ∧
  (∀ h, 0 ≤ h < 2 ^ 32 → unfmix32 (fmix32 h) = h) ∧ (∀ h, 0 ≤ h < 2 ^ 64 → unfmix64 (fmix64 h) = h).
Proof. apply (four_byte_keys 7); [lia|done|done|by repeat (constructor; [lia|])..]. Defined.
