(* ===== verification/CompressGen.v ===== *)
(** * Compressible test data (include/compressGen.h, src/Util/compressGen.cc)

    A PCG generator, and data made of literals and of repetitions of a small buffer.
    The floating-point expressions are parameters: each is a function of the 32-bit
    number drawn for it ([RandDouble] is that number divided by 2^32). *)
From Stdlib Require Import ZArith Lia.
From stdpp Require Import base tactics numbers list gmap.
From S2P Require Import Prelude Common.
#[local] Open Scope Z_scope.

Definition MIN_LEN : Z := 3.
Definition MAX_LEN : Z := 160.
Definition NUM_LEN : Z := MAX_LEN - MIN_LEN + 1.
Definition LEN_PER_CHUNK : Z := 512.
Definition COMPRESSION_SET_SIZE : Z := 21.

(** ** The generator *)

Record pcg32_random_t := { state : Z; inc : Z }.
Definition PCG32_INITIALIZER : pcg32_random_t := {| state := 0x853c49e6748fea9b; inc := 0xda3e39cb94b95bdb |}.

Definition pcg32_random_r (rng : pcg32_random_t) : Z * pcg32_random_t :=
  let oldstate := state rng in
  let rng := {| state := u64 (oldstate * 6364136223846793005 + inc rng); inc := inc rng |} in
  let xorshifted := u32 (Z.shiftr (Z.lxor (Z.shiftr oldstate 18) oldstate) 27) in
  let rot := u32 (Z.shiftr oldstate 59) in
  (Z.lor (Z.shiftr xorshifted rot) (u32 (Z.shiftl xorshifted (Z.land (- rot) 31))), rng).

Definition pcg32_srandom_r (initstate initseq : Z) : pcg32_random_t :=
  let rng := {| state := 0; inc := Z.lor (u64 (Z.shiftl initseq 1)) 1 |} in
  let '(_, rng) := pcg32_random_r rng in
  let rng := {| state := u64 (state rng + initstate); inc := inc rng |} in
  let '(_, rng) := pcg32_random_r rng in rng.

(** Rejection of the numbers below the threshold; [fuel] bounds the draws. *)
Fixpoint pcg32_boundedrand_r (fuel : nat) (bound : Z) (rng : pcg32_random_t) : result (Z * pcg32_random_t) :=
  check (negb (bound =? 0)) UB ;;
  let threshold := u32 (- bound) mod bound in
  match fuel with
  | O => Err UB
  | S fuel =>
      let '(r, rng) := pcg32_random_r rng in
      if threshold <=? r then Ok (r mod bound, rng) else pcg32_boundedrand_r fuel bound rng
  end.

#[global] Arguments pcg32_random_r : simpl never.

Section CompressGen.
(** [(uint8_t)(256 * pow(d, lit_exp_))] and [(size_t)(NUM_LEN * pow(d, len_exp_))]. *)
Context (literal length_ : Z → Z).

Fixpoint GenerateLiterals (size : nat) (rng : pcg32_random_t) : bytes * pcg32_random_t :=
  match size with
  | O => ([], rng)
  | S size =>
      let '(r, rng) := pcg32_random_r rng in
      let '(bs, rng) := GenerateLiterals size rng in (literal r :: bs, rng)
  end.

Fixpoint count_lengths (num : nat) (len_freq : list Z) (rng : pcg32_random_t) : result (list Z * pcg32_random_t) :=
  match num with
  | O => Ok (len_freq, rng)
  | S num =>
      let '(r, rng) := pcg32_random_r rng in
      let len := length_ r in
      check (len <? NUM_LEN) EXIT_FAILURE ;;
      count_lengths num (<[Z.to_nat len := u32 (nth (Z.to_nat len) len_freq 0 + 1)]> len_freq) rng
  end.
Definition GenerateLengths (num : Z) (rng : pcg32_random_t) : result (list Z * pcg32_random_t) :=
  count_lengths (Z.to_nat num) (replicate (Z.to_nat NUM_LEN) 0) rng.

(** The locals of [LZGenerateData] that last; the two arrays start as what the stack
    holds. *)
Record lz := {
  len_freq : list Z; buffer : bytes; cur_len : Z; i_ : Z; p_ : Z; last_was_match : bool;
  out : buf; lz_rng : pcg32_random_t }.

(** "Find next length with non-zero frequency". *)
Fixpoint next_length (fuel : nat) (x : lz) : result lz :=
  match len_freq x !! Z.to_nat (cur_len x) with
  | None => Err UB
  | Some f =>
      if f =? 0 then
        match fuel with
        | O => Err UB
        | S fuel =>
            '(freq, b, c, g) ←
              (if cur_len x =? 0 then
                 let '(b, g) := GenerateLiterals (Z.to_nat MAX_LEN) (lz_rng x) in
                 '(freq, g) ← GenerateLengths LEN_PER_CHUNK g;
                 Ok (freq, b, NUM_LEN, g)
               else Ok (len_freq x, buffer x, cur_len x, lz_rng x));
            next_length fuel {| len_freq := freq; buffer := b; cur_len := u64 (c - 1); i_ := i_ x; p_ := p_ x;
                                last_was_match := last_was_match x; out := out x; lz_rng := g |}
        end
      else Ok x
  end.

(** Writes at [p]; [cap] bytes are allocated. *)
Definition put (cap : Z) (bs : bytes) (x : lz) : result lz :=
  check (p_ x + zlen bs <=? cap) UB ;;
  Ok {| len_freq := len_freq x; buffer := buffer x; cur_len := cur_len x; i_ := i_ x; p_ := p_ x;
        last_was_match := last_was_match x; out := bwrite (out x) (p_ x) bs; lz_rng := lz_rng x |}.
Definition put_literals (cap len : Z) (x : lz) : result lz :=
  let '(bs, g) := GenerateLiterals (Z.to_nat len) (lz_rng x) in
  put cap bs {| len_freq := len_freq x; buffer := buffer x; cur_len := cur_len x; i_ := i_ x; p_ := p_ x;
                last_was_match := last_was_match x; out := out x; lz_rng := g |}.
Definition advance (n : Z) (b : bool) (x : lz) : lz :=
  {| len_freq := len_freq x; buffer := buffer x; cur_len := cur_len x; i_ := u64 (i_ x + n); p_ := p_ x + n;
     last_was_match := b; out := out x; lz_rng := lz_rng x |}.

(** One round of the loop; [is_literal r] is [RandDouble() < 1.0 / ratio]. *)
Definition lz_round (is_literal : Z → bool) (fuel : nat) (cap size : Z) (x : lz) : result lz :=
  x ← next_length fuel x;
  let len := MIN_LEN + cur_len x in
  let f := nth (Z.to_nat (cur_len x)) (len_freq x) 0 in
  let x := {| len_freq := <[Z.to_nat (cur_len x) := u32 (f - 1)]> (len_freq x); buffer := buffer x; cur_len := cur_len x;
              i_ := i_ x; p_ := p_ x; last_was_match := last_was_match x; out := out x; lz_rng := lz_rng x |} in
  let len := if u64 (size - i_ x) <? len then u64 (size - i_ x) else len in
  let '(r, g) := pcg32_random_r (lz_rng x) in
  let x := {| len_freq := len_freq x; buffer := buffer x; cur_len := cur_len x; i_ := i_ x; p_ := p_ x;
              last_was_match := last_was_match x; out := out x; lz_rng := g |} in
  if is_literal r then
    x ← put_literals cap len x;
    Ok (advance len false x)
  else
    '(x, len) ←
      (if last_was_match x then
         x ← put_literals cap 1 x;
         let x := advance 1 (last_was_match x) x in
         Ok (x, if u64 (size - i_ x) <? len then u64 (size - i_ x) else len)
       else Ok (x, len));
    check (len <=? zlen (buffer x)) UB ;;
    x ← put cap (take (Z.to_nat len) (buffer x)) x;
    Ok (advance len true x).

Fixpoint lz_loop (is_literal : Z → bool) (fuel fuel' : nat) (cap size : Z) (x : lz) : result lz :=
  if i_ x <? size then
    match fuel with
    | O => Err UB
    | S fuel => x ← lz_round is_literal fuel' cap size x; lz_loop is_literal fuel fuel' cap size x
    end
  else Ok x.

(** [freq] and [b] are what the stack holds. *)
Definition LZGenerateData (is_literal : Z → bool) (fuel fuel' : nat) (freq : list Z) (b : bytes)
    (ptr : buf) (cap size : Z) (rng : pcg32_random_t) : result (buf * pcg32_random_t) :=
  x ← lz_loop is_literal fuel fuel' cap size
        {| len_freq := <[0%nat := 0]> freq; buffer := b; cur_len := 0; i_ := 0; p_ := 0; last_was_match := false;
           out := ptr; lz_rng := rng |};
  Ok (out x, lz_rng x).

Definition GenerateCompressibleData (is_literal : Z → bool) (fuel fuel' : nat) (freq : list Z) (b : bytes)
    (ptr : buf) (cap size : Z) (rng : pcg32_random_t) : result (buf * pcg32_random_t) :=
  LZGenerateData is_literal fuel fuel' freq b ptr cap size rng.

(** The constructor's loop: [ratio k] is the test for the [k]-th ratio, [mem k] the
    memory of the [k]-th block. *)
Fixpoint make_blocks (n : nat) (fuel fuel' : nat) (freq : list Z) (b : bytes) (ratio : Z → Z → bool) (mem : Z → buf)
    (initVal : Z) (rng : pcg32_random_t) (blocks : gmap Z buf) : result (gmap Z buf * pcg32_random_t) :=
  match n with
  | O => Ok (blocks, rng)
  | S n =>
      '(chunk, rng) ← GenerateCompressibleData (ratio initVal) fuel fuel' freq b (mem initVal) MAX_CHUNK_SIZE MAX_CHUNK_SIZE rng;
      make_blocks n fuel fuel' freq b ratio mem (u32 (initVal + 1)) rng (<[initVal := chunk]> blocks)
  end.
Definition new_CompressGen (fuel fuel' : nat) (freq : list Z) (b : bytes) (ratio : Z → Z → bool) (mem : Z → buf) (seed : Z) :
    result (gmap Z buf * pcg32_random_t) :=
  make_blocks (Z.to_nat COMPRESSION_SET_SIZE) fuel fuel' freq b ratio mem 10 (pcg32_srandom_r (u64 seed) 0xC0FFEE) ∅.
End CompressGen.

(** [compressBlockSet_[k]] of a key that is not there is a null pointer. *)
Definition GenerateChunkFromCanditdateSet (blocks : gmap Z buf) (compressionInt chunkSize : Z) : result bytes :=
  let compressionInt := if compressionInt >? 30 then 30 else compressionInt in
  let compressionInt := if compressionInt <? 10 then 10 else compressionInt in
  match blocks !! compressionInt with
  | None => Err UB
  | Some chunk => check (chunkSize <=? MAX_CHUNK_SIZE) UB ;; Ok (bread chunk 0 chunkSize)
  end.

(** ** Lemmas *)

Lemma pcg32_range rng : 0 ≤ (pcg32_random_r rng).1 < 2 ^ 32.
Proof.
  unfold pcg32_random_r. cbn [fst]. set (x := u32 (Z.shiftr (Z.lxor _ _) 27)). set (y := u32 (Z.shiftl x _)).
  assert (Hx : 0 ≤ x < 2 ^ 32) by (apply Z.mod_pos_bound; lia). assert (Hy : 0 ≤ y < 2 ^ 32) by (apply Z.mod_pos_bound; lia).
  assert (Hrot : 0 ≤ u32 (Z.shiftr (state rng) 59)) by (apply Z.mod_pos_bound; lia).
  assert (H : 0 ≤ Z.lor (Z.shiftr x (u32 (Z.shiftr (state rng) 59))) y) by (apply Z.lor_nonneg; rewrite Z.shiftr_nonneg; lia).
  split; [done|]. apply bits_bound; [lia|done|]. intros n Hn.
  by rewrite Z.lor_spec, Z.shiftr_spec, (bits_high y 32), (bits_high x 32) by lia.
Qed.

Section Proofs.
Context (literal length_ : Z → Z).
(** The powers are below 1: no length reaches [NUM_LEN]. *)
Context (Hlength : ∀ r, 0 ≤ r < 2 ^ 32 → 0 ≤ length_ r < NUM_LEN).

Lemma length_GenerateLiterals n rng : length (GenerateLiterals literal n rng).1 = n.
Proof.
  revert rng. induction n as [|n IH]; intros rng; [done|]. cbn [GenerateLiterals]. destruct (pcg32_random_r rng) as [r g].
  specialize (IH g). destruct (GenerateLiterals literal n g) as [bs g']. simpl in *. lia.
Qed.

(** There is a next length. *)
Definition nonzero (freq : list Z) : Prop := ∃ j f, freq !! j = Some f ∧ f ≠ 0.

Lemma count_lengths_spec num : ∀ freq rng k,
  length freq = Z.to_nat NUM_LEN → Forall (λ f, 0 ≤ f ≤ k) freq → k + Z.of_nat num < 2 ^ 32 →
  ∃ freq' rng', count_lengths length_ num freq rng = Ok (freq', rng') ∧ length freq' = Z.to_nat NUM_LEN ∧
    Forall (λ f, 0 ≤ f ≤ k + Z.of_nat num) freq' ∧ ((0 < num)%nat ∨ nonzero freq → nonzero freq').
Proof.
  induction num as [|num IH]; intros freq rng k Hl Hf Hk.
  { exists freq, rng. split_and!; [done|done|by rewrite Z.add_0_r|]. intros [?|?]; [lia|done]. }
  cbn [count_lengths]. pose proof (pcg32_range rng) as Hr. destruct (pcg32_random_r rng) as [r g]. cbn [fst] in Hr.
  specialize (Hlength r Hr). rewrite (proj2 (Z.ltb_lt _ _)) by lia. cbn [check mbind result_bind].
  set (l := Z.to_nat (length_ r)). assert (Hi : (l < length freq)%nat) by (unfold l; lia).
  destruct (lookup_lt_is_Some_2 freq l Hi) as [f E]. rewrite (nth_lookup_Some _ _ 0 _ E).
  assert (Hfk : 0 ≤ f ≤ k) by (eapply (Forall_lookup_1 _ _ _ _ Hf E)). rewrite u32_small by lia.
  destruct (IH (<[l := f + 1]> freq) g (k + 1)) as (freq' & g' & -> & Hl' & Hf' & Hz).
  - by rewrite length_insert.
  - apply Forall_insert; [|lia]. eapply Forall_impl; [exact Hf|]. simpl. lia.
  - lia.
  - exists freq', g'. split_and!; [done|done| |].
    + eapply Forall_impl; [exact Hf'|]. simpl. lia.
    + intros _. apply Hz. right. exists l, (f + 1). split; [by apply list_lookup_insert_eq|lia].
Qed.

(** What the loop keeps: [p] and [i] move together, [i] bytes are written, and the
    table of lengths is either empty at the start or a generated one. *)
Record lz_ok (ptr : buf) (x : lz) : Prop := {
  lo_p : p_ x = i_ x;
  lo_cur : 0 ≤ cur_len x < NUM_LEN;
  lo_freq : length (len_freq x) = Z.to_nat NUM_LEN;
  lo_buffer : (cur_len x = 0 ∧ len_freq x !! 0%nat = Some 0) ∨
    (length (buffer x) = Z.to_nat MAX_LEN ∧ Forall (λ f, 0 ≤ f < 2 ^ 32) (len_freq x));
  lo_out : ∃ w, zlen w = i_ x ∧ ∀ j, out x j = bwrite ptr 0 w j }.

(** What [next_length] leaves alone. *)
Definition same_place (x x' : lz) : Prop :=
  i_ x' = i_ x ∧ p_ x' = p_ x ∧ last_was_match x' = last_was_match x ∧ out x' = out x.
(** A state at a length that can be used. *)
Definition at_length (ptr : buf) (x : lz) : Prop :=
  lz_ok ptr x ∧ length (buffer x) = Z.to_nat MAX_LEN ∧ Forall (λ f, 0 ≤ f < 2 ^ 32) (len_freq x) ∧
  ∃ f, len_freq x !! Z.to_nat (cur_len x) = Some f ∧ f ≠ 0.

Lemma descend n : ∀ fuel x ptr, lz_ok ptr x → length (buffer x) = Z.to_nat MAX_LEN →
  Forall (λ f, 0 ≤ f < 2 ^ 32) (len_freq x) → cur_len x = Z.of_nat n →
  (∃ j f, (j ≤ n)%nat ∧ len_freq x !! j = Some f ∧ f ≠ 0) → (n ≤ fuel)%nat →
  ∃ x', next_length literal length_ fuel x = Ok x' ∧ at_length ptr x' ∧ same_place x x'.
Proof.
  induction n as [|n IH]; intros fuel x ptr Hx Hb Hf Hc (j & f & Hj & Ej & Hnz) Hfuel.
  - replace j with 0%nat in Ej by lia. exists x. split; [|by split; [split_and!; [done..|exists f; rewrite Hc]|]].
    destruct fuel; cbn [next_length]; rewrite Hc, Nat2Z.id, Ej, (proj2 (Z.eqb_neq _ _)) by done; done.
  - pose proof (lo_cur _ _ Hx). pose proof (lo_freq _ _ Hx).
    destruct (lookup_lt_is_Some_2 (len_freq x) (Z.to_nat (cur_len x))) as [f0 E0]; [lia|].
    destruct (decide (f0 = 0)) as [->|Hn0].
    + destruct fuel as [|fuel]; [lia|]. cbn [next_length]. rewrite E0. cbn [Z.eqb]. rewrite (proj2 (Z.eqb_neq _ _)) by lia.
      cbn [mbind result_bind]. rewrite u64_small by (unfold NUM_LEN, MAX_LEN, MIN_LEN in *; lia).
      assert (Hjn : j ≠ S n). { intros ->. rewrite Hc, Nat2Z.id, Ej in E0. congruence. }
      edestruct (IH fuel) as (x' & E & Ha & Hs); [| | | | | |exists x'; split; [exact E|split; [exact Ha|exact Hs]]].
      * destruct Hx as [Hp Hcu Hl Hbu Ho]. split; [done|simpl; lia|done|by right|done].
      * done.
      * done.
      * simpl. lia.
      * exists j, f. split_and!; [lia|done|done].
      * lia.
    + exists x. split; [|by split; [split_and!; [done..|by exists f0]|]].
      destruct fuel; cbn [next_length]; rewrite E0, (proj2 (Z.eqb_neq _ _)) by done; done.
Qed.

(** From anywhere: down to 0, at most one new table, and down to a length of that. *)
Lemma next_length_spec n : ∀ fuel x ptr, lz_ok ptr x → cur_len x = Z.of_nat n → (n + Z.to_nat NUM_LEN < fuel)%nat →
  ∃ x', next_length literal length_ fuel x = Ok x' ∧ at_length ptr x' ∧ same_place x x'.
Proof.
  induction n as [|n IH]; intros fuel x ptr Hx Hc Hfuel; pose proof (lo_cur _ _ Hx); pose proof (lo_freq _ _ Hx) as Hl;
    destruct (lookup_lt_is_Some_2 (len_freq x) (Z.to_nat (cur_len x))) as [f E]; try lia;
    (destruct (decide (f = 0)) as [->|Hf];
     [|destruct (lo_buffer _ _ Hx) as [[Hc0 E0]|[Hb Hfr]];
       [exfalso; rewrite Hc0 in E; change (Z.to_nat 0) with 0%nat in E; rewrite E0 in E; congruence|];
       eapply descend; [done..|exact Hc| |lia]; exists (Z.to_nat (cur_len x)), f; split_and!; [lia|done..]]);
    (destruct fuel as [|fuel]; [lia|]); cbn [next_length]; rewrite E; cbn [Z.eqb].
  - rewrite Hc. cbn [Z.eqb Z.of_nat]. pose proof (length_GenerateLiterals (Z.to_nat MAX_LEN) (lz_rng x)) as Hb.
    destruct (GenerateLiterals literal (Z.to_nat MAX_LEN) (lz_rng x)) as [b g]. cbn [fst] in Hb. unfold GenerateLengths.
    destruct (count_lengths_spec (Z.to_nat LEN_PER_CHUNK) (replicate (Z.to_nat NUM_LEN) 0) g 0)
      as (freq & g' & -> & Hl' & Hf' & Hz); [by rewrite length_replicate| |done|].
    { apply Forall_replicate. lia. }
    cbn [mbind result_bind]. destruct Hz as (j & f & Ej & Hnz); [left; vm_compute; lia|].
    destruct Hx as [Hp Hcu _ Hbu Ho].
    edestruct (descend (Z.to_nat (NUM_LEN - 1)) fuel) as (x' & Ex & Ha & Hs);
      [| | | | | |exists x'; split; [exact Ex|split; [exact Ha|exact Hs]]].
    + split; [done|done|done| |done]. right. split; [done|]. eapply Forall_impl; [exact Hf'|].
      intros y Hy. unfold LEN_PER_CHUNK in Hy. simpl. lia.
    + done.
    + eapply Forall_impl; [exact Hf'|]. intros y Hy. unfold LEN_PER_CHUNK in Hy. simpl. lia.
    + done.
    + exists j, f. split_and!; [|done|done]. apply lookup_lt_Some in Ej. lia.
    + lia.
  - rewrite (proj2 (Z.eqb_neq _ _)) by lia. cbn [mbind result_bind].
    rewrite u64_small by (unfold NUM_LEN, MAX_LEN, MIN_LEN in *; lia).
    edestruct (IH fuel) as (x' & Ex & Ha & Hs); [| | |exists x'; split; [exact Ex|split; [exact Ha|exact Hs]]].
    + destruct Hx as [Hp Hcu _ Hbu Ho]. split; [done|simpl; lia|done| |done].
      destruct Hbu as [[Hc0 _]|?]; [lia|by right].
    + simpl. lia.
    + lia.
Qed.

(** Writing at the end of what is written. *)
Lemma written_app ptr o w bs : (∀ j, o j = bwrite ptr 0 w j) → ∀ j, bwrite o (zlen w) bs j = bwrite ptr 0 (w ++ bs) j.
Proof.
  intros Ho j. rewrite <- bwrite_bwrite_app. unfold bwrite at 1 2. rewrite Z.add_0_l.
  destruct (_ && _); [done|]. apply Ho.
Qed.

Lemma put_spec cap bs ptr x : lz_ok ptr x → i_ x + zlen bs ≤ cap →
  ∃ x', put cap bs x = Ok x' ∧ (∃ w, zlen w = i_ x + zlen bs ∧ ∀ j, out x' j = bwrite ptr 0 w j) ∧
    len_freq x' = len_freq x ∧ buffer x' = buffer x ∧ cur_len x' = cur_len x ∧ i_ x' = i_ x ∧ p_ x' = i_ x ∧
    last_was_match x' = last_was_match x ∧ lz_rng x' = lz_rng x.
Proof.
  intros [Hp Hc Hf Hb (w & Hw & Ho)] Hcap. unfold put. rewrite Hp, (proj2 (Z.leb_le _ _)) by done. eexists.
  split; [reflexivity|]. split; [|by split_and!]. exists (w ++ bs). split; [by rewrite zlen_app, Hw|].
  simpl. rewrite <- Hw. by apply written_app.
Qed.

Lemma with_rng_ok ptr x g : lz_ok ptr x →
  lz_ok ptr {| len_freq := len_freq x; buffer := buffer x; cur_len := cur_len x; i_ := i_ x; p_ := p_ x;
               last_was_match := last_was_match x; out := out x; lz_rng := g |}.
Proof. intros []. by split. Qed.

(** Writing [n] literals or [n] bytes of the buffer and going on behind them. *)
Lemma step_ok cap bs b ptr x : lz_ok ptr x → i_ x + zlen bs ≤ cap → cap < 2 ^ 63 → 0 ≤ i_ x →
  ∃ x', (x ← put cap bs x; Ok (advance (zlen bs) b x)) = Ok x' ∧ lz_ok ptr x' ∧ i_ x' = i_ x + zlen bs ∧
    buffer x' = buffer x ∧ len_freq x' = len_freq x.
Proof.
  intros Hx Hcap H63 Hi. destruct (put_spec cap bs ptr x Hx Hcap) as (x' & -> & Hw & Hf & Hb & Hc & Hi' & Hp' & Hm & Hg).
  cbn [mbind result_bind]. eexists. split; [reflexivity|]. unfold advance. cbn [i_ buffer len_freq p_ cur_len out].
  pose proof (zlen_nonneg bs). rewrite Hi', Hp', u64_small by lia. split; [|done].
  destruct Hx as [? ? ? ? _]. split; cbn [i_ buffer len_freq p_ cur_len out]; rewrite ?Hf, ?Hb, ?Hc; done.
Qed.

Lemma put_literals_step cap len b ptr x : lz_ok ptr x → 0 ≤ len → i_ x + len ≤ cap → cap < 2 ^ 63 → 0 ≤ i_ x →
  ∃ x', (x ← put_literals literal cap len x; Ok (advance len b x)) = Ok x' ∧ lz_ok ptr x' ∧ i_ x' = i_ x + len ∧
    buffer x' = buffer x ∧ len_freq x' = len_freq x.
Proof.
  intros Hx Hl Hcap H63 Hi. unfold put_literals. pose proof (length_GenerateLiterals (Z.to_nat len) (lz_rng x)) as Hb.
  destruct (GenerateLiterals _ _ _) as [bs g]. cbn [fst] in Hb. assert (E : zlen bs = len) by (unfold zlen; lia).
  destruct (step_ok cap bs b ptr _ (with_rng_ok ptr x g Hx)) as (x' & E' & H'); [cbn [i_]; lia|done|done|].
  rewrite E in *. by exists x'.
Qed.

Lemma lz_round_spec is_literal fuel cap size ptr x : lz_ok ptr x → 0 ≤ i_ x < size → size ≤ cap → cap < 2 ^ 63 →
  (2 * Z.to_nat NUM_LEN ≤ fuel)%nat →
  ∃ x', lz_round literal length_ is_literal fuel cap size x = Ok x' ∧ lz_ok ptr x' ∧ i_ x < i_ x' ≤ size.
Proof.
  intros Hx Hi Hsize H63 Hfuel. unfold lz_round. pose proof (lo_cur _ _ Hx) as Hcur.
  destruct (next_length_spec (Z.to_nat (cur_len x)) fuel x ptr Hx) as (x1 & -> & (Hx1 & Hb1 & Hf1 & f & Ef & Hnz) & (Hi1 & Hp1 & Hm1 & Ho1)); [lia|lia|].
  cbn [mbind result_bind len_freq buffer cur_len i_ p_ last_was_match out lz_rng].
  rewrite (nth_lookup_Some _ _ 0 _ Ef), Hi1, (u64_small (size - i_ x)) by lia.
  set (len := if size - i_ x <? MIN_LEN + cur_len x1 then size - i_ x else MIN_LEN + cur_len x1).
  pose proof (lo_cur _ _ Hx1) as Hc1. assert (Hfr : 0 ≤ f < 2 ^ 32) by exact (Forall_lookup_1 _ _ _ _ Hf1 Ef).
  assert (Hlen : 1 ≤ len ≤ size - i_ x ∧ len ≤ MAX_LEN).
  { unfold len, NUM_LEN, MAX_LEN, MIN_LEN in *. destruct (_ <? _) eqn:E; zbool; lia. }
  set (freq := <[Z.to_nat (cur_len x1) := u32 (f - 1)]> (len_freq x1)).
  assert (Hfreq : length freq = Z.to_nat NUM_LEN ∧ Forall (λ f, 0 ≤ f < 2 ^ 32) freq).
  { unfold freq. split; [rewrite length_insert; apply Hx1|]. apply Forall_insert; [done|]. rewrite u32_small by lia. lia. }
  destruct (pcg32_random_r (lz_rng x1)) as [r g]. fold len. fold freq.
  match goal with |- context [put_literals literal cap len ?y] => set (x2 := y) end.
  assert (Hx2 : lz_ok ptr x2 ∧ i_ x2 = i_ x ∧ buffer x2 = buffer x1 ∧ last_was_match x2 = last_was_match x1).
  { destruct Hx1 as [Hp Hc _ _ Ho]. split; [|done]. destruct Hfreq. rewrite Hi1 in Hp, Ho.
    split; [done|done|done|by right|done]. }
  destruct Hx2 as (Hx2 & Hi2 & Hb2 & Hm2). clearbody x2 len. destruct (is_literal r).
  { destruct (put_literals_step cap len false ptr x2 Hx2) as (x3 & -> & Hx3 & Hi3 & _); [lia..|].
    exists x3. split_and!; [done|done|lia|lia]. }
  assert (Hcopy : ∀ y l, lz_ok ptr y → buffer y = buffer x1 → 0 ≤ l ≤ MAX_LEN → 0 ≤ i_ y → i_ y + l ≤ size →
    ∃ y', (check (l <=? zlen (buffer y)) UB ;; y ← put cap (take (Z.to_nat l) (buffer y)) y; Ok (advance l true y)) = Ok y' ∧
      lz_ok ptr y' ∧ i_ y' = i_ y + l).
  { intros y l Hy Hby Hl Hiy Hil. assert (Hz : zlen (buffer y) = MAX_LEN) by (rewrite Hby; unfold zlen; lia).
    rewrite (proj2 (Z.leb_le _ _)) by lia. cbn [check mbind result_bind].
    assert (Ht : zlen (take (Z.to_nat l) (buffer y)) = l) by (unfold zlen in *; rewrite length_take; lia).
    destruct (step_ok cap (take (Z.to_nat l) (buffer y)) true ptr y Hy) as (y' & E & Hy' & Hi' & _); [lia..|].
    rewrite Ht in E, Hi'. by exists y'. }
  rewrite Hm1. destruct (last_was_match x) eqn:Elw.
  - destruct (put_literals_step cap 1 (last_was_match x2) ptr x2 Hx2) as (x3 & E3 & Hx3 & Hi3 & Hb3 & _); [lia..|].
    apply bind_Ok in E3 as (x3' & E3' & E3). injection E3 as E3.
    assert (Hlw : last_was_match x3' = last_was_match x2).
    { revert E3'. unfold put_literals, put. destruct (GenerateLiterals _ _ _) as [bs g']. cbn [p_].
      destruct (_ <=? _); [|discriminate]. intros E'. by injection E' as <-. }
    rewrite E3'. cbn [mbind result_bind]. rewrite Hlw, E3, Hi3, u64_small by lia.
    destruct (Hcopy x3 (if size - (i_ x2 + 1) <? len then size - (i_ x2 + 1) else len) Hx3) as (x4 & -> & Hx4 & Hi4);
      [congruence|destruct (_ <? len) eqn:E; zbool; lia|lia|destruct (_ <? len) eqn:E; zbool; lia|].
    exists x4. split_and!; [done|done|..]; rewrite Hi4, Hi3; destruct (_ <? len) eqn:E; zbool; lia.
  - cbn [mbind result_bind]. destruct (Hcopy x2 len Hx2) as (x4 & -> & Hx4 & Hi4); [done|lia|lia|lia|].
    exists x4. split_and!; [done|done|lia|lia].
Qed.

Definition lz_fuel : nat := 2 * Z.to_nat NUM_LEN.

Lemma lz_loop_spec is_literal fuel cap size ptr : ∀ x, lz_ok ptr x → 0 ≤ i_ x ≤ size → size ≤ cap → cap < 2 ^ 63 →
  (Z.to_nat (size - i_ x) ≤ fuel)%nat →
  ∃ x', lz_loop literal length_ is_literal fuel lz_fuel cap size x = Ok x' ∧ lz_ok ptr x' ∧ i_ x' = size.
Proof.
  induction fuel as [|fuel IH]; intros x Hx Hi Hsize H63 Hfuel; cbn [lz_loop]; destruct (i_ x <? size) eqn:E; zbool; try lia.
  - exists x. split_and!; [done|done|lia].
  - destruct (lz_round_spec is_literal lz_fuel cap size ptr x Hx) as (x1 & -> & Hx1 & Hi1); [lia..|unfold lz_fuel; lia|].
    cbn [mbind result_bind]. apply IH; [done|lia..].
  - exists x. split_and!; [done|done|lia].
Qed.

(** Where the generator starts; the first table is made before anything is read. *)
Definition lz_start (freq : list Z) (b : bytes) (ptr : buf) (rng : pcg32_random_t) : lz :=
  {| len_freq := <[0%nat := 0]> freq; buffer := b; cur_len := 0; i_ := 0; p_ := 0; last_was_match := false;
     out := ptr; lz_rng := rng |}.

Lemma lz_start_ok freq b ptr rng : length freq = Z.to_nat NUM_LEN → lz_ok ptr (lz_start freq b ptr rng).
Proof.
  intros Hl. split; simpl; [done|done|by rewrite length_insert| |].
  - left. split; [done|]. apply list_lookup_insert_eq. rewrite Hl. by vm_compute; lia.
  - exists []. split; [done|]. intros j. unfold bwrite. change (zlen (@nil Z)) with 0.
    destruct (0 <=? j) eqn:E1, (j <? 0 + 0) eqn:E2; zbool; try done; lia.
Qed.

Lemma lz_start_same freq b freq' b' ptr rng is_literal cap size fuel :
  length freq = Z.to_nat NUM_LEN → length freq' = Z.to_nat NUM_LEN →
  LZGenerateData literal length_ is_literal fuel lz_fuel freq b ptr cap size rng =
  LZGenerateData literal length_ is_literal fuel lz_fuel freq' b' ptr cap size rng.
Proof.
  intros Hl Hl'. unfold LZGenerateData. fold (lz_start freq b ptr rng). fold (lz_start freq' b' ptr rng).
  assert (E0 : ∀ fr, length fr = Z.to_nat NUM_LEN → <[0%nat := 0]> fr !! 0%nat = Some 0).
  { intros fr Hfr. apply list_lookup_insert_eq. rewrite Hfr. by vm_compute; lia. }
  assert (E : ∀ f, next_length literal length_ (S f) (lz_start freq b ptr rng) = next_length literal length_ (S f) (lz_start freq' b' ptr rng)).
  { intros f. cbn [next_length lz_start cur_len len_freq buffer i_ p_ last_was_match out lz_rng]. change (Z.to_nat 0) with 0%nat.
    rewrite (E0 freq Hl), (E0 freq' Hl'). cbn [Z.eqb]. reflexivity. }
  destruct fuel; cbn [lz_loop lz_start i_]; destruct (0 <? size) eqn:Es; [done|done| |done].
  unfold lz_round. change lz_fuel with (S (pred lz_fuel)). fold (lz_start freq b ptr rng). fold (lz_start freq' b' ptr rng). by rewrite E.
Qed.

Lemma LZ_spec is_literal ptr cap size rng : 0 ≤ size ≤ cap → cap < 2 ^ 63 →
  ∃ w g', zlen w = size ∧ ∀ freq b, length freq = Z.to_nat NUM_LEN →
    ∃ p', LZGenerateData literal length_ is_literal (Z.to_nat size) lz_fuel freq b ptr cap size rng = Ok (p', g') ∧
      ∀ j, p' j = bwrite ptr 0 w j.
Proof.
  intros Hs H63. set (f0 := replicate (Z.to_nat NUM_LEN) 0). assert (Hl0 : length f0 = Z.to_nat NUM_LEN) by apply length_replicate.
  destruct (lz_loop_spec is_literal (Z.to_nat size) cap size ptr (lz_start f0 [] ptr rng)) as (x & E & Hx & Hi);
    [by apply lz_start_ok|simpl; lia|lia|done|simpl; lia|].
  pose proof (lo_out _ _ Hx) as (w & Hw & Ho). exists w, (lz_rng x). split; [lia|]. intros freq b Hl. exists (out x).
  rewrite (lz_start_same freq b f0 []) by done. unfold LZGenerateData. fold (lz_start f0 [] ptr rng). rewrite E. done.
Qed.

Lemma make_blocks_spec fuel freq b ratio mem n : ∀ k rng blocks,
  length freq = Z.to_nat NUM_LEN → fuel = Z.to_nat MAX_CHUNK_SIZE → 0 ≤ k → k + Z.of_nat n < 2 ^ 32 →
  ∃ blocks' rng', make_blocks literal length_ n fuel lz_fuel freq b ratio mem k rng blocks = Ok (blocks', rng') ∧
    ∀ i, (k ≤ i < k + Z.of_nat n ∨ is_Some (blocks !! i)) → is_Some (blocks' !! i).
Proof.
  induction n as [|n IH]; intros k rng blocks Hl Hfuel Hk Hn; cbn [make_blocks].
  { exists blocks, rng. split; [done|]. intros i [?|?]; [lia|done]. }
  destruct (LZ_spec (ratio k) (mem k) MAX_CHUNK_SIZE MAX_CHUNK_SIZE rng) as (w & g' & _ & Hrun); [unfold MAX_CHUNK_SIZE; lia..|].
  destruct (Hrun freq b Hl) as (p' & E & _). unfold GenerateCompressibleData. rewrite Hfuel in *. rewrite E. cbn [mbind result_bind].
  rewrite u32_small by lia. destruct (IH (k + 1) g' (<[k := p']> blocks)) as (blocks' & g2 & -> & Hb); [done|done|lia|lia|].
  exists blocks', g2. split; [done|]. intros i Hi. apply Hb.
  destruct (decide (i = k)) as [->|Hne]; [right; rewrite lookup_insert_eq; eauto|].
  rewrite lookup_insert_ne by done. destruct Hi as [?|?]; [left; lia|by right].
Qed.

(** The generator fills exactly the block it is asked for and always ends: [size]
    rounds suffice for any size (each with one descent through the length table, one new
    table and one descent through that), all [size] bytes and no others are written, and
    neither they nor the state of the random numbers depend on what the stack held in
    the two local arrays. *)
Theorem LZGenerateData_fills is_literal ptr cap size rng : 0 ≤ size ≤ cap → cap < 2 ^ 63 →
  ∃ w g', zlen w = size ∧ ∀ freq b, length freq = Z.to_nat NUM_LEN →
    ∃ p', LZGenerateData literal length_ is_literal (Z.to_nat size) lz_fuel freq b ptr cap size rng = Ok (p', g') ∧
      ∀ j, p' j = bwrite ptr 0 w j.
Proof. apply LZ_spec. Qed.

(** After construction every request for a chunk is served: the constructor ends with a
    block for each ratio between 10 and 30, and for every ratio, also outside that
    range, and every size up to a chunk's, the request gives that many bytes. *)
Theorem candidate_set_serves freq b ratio mem seed : length freq = Z.to_nat NUM_LEN →
  ∃ blocks rng, new_CompressGen literal length_ (Z.to_nat MAX_CHUNK_SIZE) lz_fuel freq b ratio mem seed = Ok (blocks, rng) ∧
    ∀ compressionInt chunkSize, 0 ≤ chunkSize ≤ MAX_CHUNK_SIZE →
      ∃ bs, GenerateChunkFromCanditdateSet blocks compressionInt chunkSize = Ok bs ∧ zlen bs = chunkSize.
Proof.
  intros Hl. unfold new_CompressGen.
  destruct (make_blocks_spec (Z.to_nat MAX_CHUNK_SIZE) freq b ratio mem (Z.to_nat COMPRESSION_SET_SIZE) 10
    (pcg32_srandom_r (u64 seed) 0xC0FFEE) ∅ Hl eq_refl) as (blocks & rng & E & Hb); [lia|by vm_compute|].
  exists blocks, rng. split; [exact E|]. intros ci cs Hcs. unfold GenerateChunkFromCanditdateSet.
  set (k := if (if ci >? 30 then 30 else ci) <? 10 then 10 else (if ci >? 30 then 30 else ci)).
  assert (Hk : 10 ≤ k ≤ 30).
  { unfold k. destruct (ci >? 30) eqn:E1; [done|]. destruct (ci <? 10) eqn:E2; zbool; lia. }
  destruct (Hb k) as [chunk ->]; [left; unfold COMPRESSION_SET_SIZE; lia|].
  rewrite (proj2 (Z.leb_le _ _)) by lia. cbn [check mbind result_bind]. eexists. split; [done|]. rewrite zlen_bread; lia.
Qed.
End Proofs.

(** ** Concrete runs *)

(** A quadratic distribution in integer arithmetic. *)
Definition sample_literal (r : Z) : Z := r * r * 256 / 2 ^ 64.
Definition sample_length (r : Z) : Z := r * r * NUM_LEN / 2 ^ 64.
Lemma sample_length_ok r : 0 ≤ r < 2 ^ 32 → 0 ≤ sample_length r < NUM_LEN.
Proof.
  intros Hr. unfold sample_length. change NUM_LEN with 158. split; [apply Z.div_pos; nia|].
  apply Z.div_lt_upper_bound; [lia|]. nia.
Defined.

Lemma LZGenerateData_fills_witness :
  ∃ w g', zlen w = 300 ∧ ∀ freq b, length freq = Z.to_nat NUM_LEN →
    ∃ p', LZGenerateData sample_literal sample_length (λ r, r <? 2 ^ 31) (Z.to_nat 300) lz_fuel freq b (λ _, 0) 512 300 PCG32_INITIALIZER = Ok (p', g') ∧
      ∀ j, p' j = bwrite (λ _, 0) 0 w j.
Proof. apply (LZGenerateData_fills sample_literal sample_length sample_length_ok (λ r, r <? 2 ^ 31) (λ _, 0) 512 300 PCG32_INITIALIZER); lia. Defined.

Lemma candidate_set_serves_witness :
  ∃ blocks rng, new_CompressGen sample_literal sample_length (Z.to_nat MAX_CHUNK_SIZE) lz_fuel
      (replicate (Z.to_nat NUM_LEN) 0) [] (λ k r, r <? 2 ^ 32 * 10 / k) (λ _ _, 0) 95924 = Ok (blocks, rng) ∧
    ∀ compressionInt chunkSize, 0 ≤ chunkSize ≤ MAX_CHUNK_SIZE →
      ∃ bs, GenerateChunkFromCanditdateSet blocks compressionInt chunkSize = Ok bs ∧ zlen bs = chunkSize.
Proof. apply (candidate_set_serves sample_literal sample_length sample_length_ok). by rewrite length_replicate. Defined.
