(* ===== verification/LruCache.v ===== *)
(** * The LRU cache [lru11::Cache] (include/lruCache.h)

    The cache is a hash map from keys to iterators of a linked list of key-value
    nodes, most recently used first.  The list nodes carry an identity, which is
    what an iterator denotes: [splice] moves the node and keeps the iterator valid.
    The abstract specification is the list of pairs in recency order; the
    operations are shown to refine it and to keep the map and the list in step. *)
From Stdlib Require Import ZArith Lia.
From stdpp Require Import base tactics numbers list gmap fin_maps.
From S2P Require Import Prelude.
#[local] Open Scope Z_scope.

Section Cache.
Context {K V : Type} `{Countable K}.

(** A node of [std::list<KeyValuePair<Key, Value>>]. *)
Record node := { nid : nat; nkey : K; nval : V }.

Record Cache := {
  cache_ : gmap K nat;
  keys_ : list node;
  maxSize_ : Z;
  elasticity_ : Z;
  next_node : nat (* the identity of the next allocated node *) }.

Definition new_Cache (maxSize elasticity : Z) : Cache :=
  {| cache_ := ∅; keys_ := []; maxSize_ := maxSize; elasticity_ := elasticity; next_node := 0 |}.

Definition with_lists (m : gmap K nat) (l : list node) (c : Cache) : Cache :=
  {| cache_ := m; keys_ := l; maxSize_ := maxSize_ c; elasticity_ := elasticity_ c;
     next_node := next_node c |}.

(** Dereference of an iterator, and [keys_.splice(keys_.begin(), keys_, it)]. *)
Definition deref (it : nat) (l : list node) : result node :=
  match list_find (λ n, nid n = it) l with Some (_, n) => Ok n | None => Err UB end.
Definition set_value (it : nat) (v : V) (l : list node) : list node :=
  (λ n, if decide (nid n = it) then {| nid := nid n; nkey := nkey n; nval := v |} else n) <$> l.
Definition splice_front (it : nat) (l : list node) : list node :=
  filter (λ n, nid n = it) l ++ filter (λ n, nid n ≠ it) l.
Definition erase_node (it : nat) (l : list node) : list node := filter (λ n, nid n ≠ it) l.

Definition size_ (c : Cache) : Z := Z.of_nat (size (cache_ c)).
Definition empty_ (c : Cache) : bool := size_ c =? 0.
Definition clear (c : Cache) : Cache := with_lists ∅ [] c.
Definition contains (c : Cache) (k : K) : bool := bool_decide (is_Some (cache_ c !! k)).

(** The loop of [prune]: [keys_.back()] of an empty list is undefined. *)
Fixpoint prune_loop (n : nat) (maxSize : Z) (m : gmap K nat) (l : list node) (count : Z) :
    result (gmap K nat * list node * Z) :=
  if Z.of_nat (size m) >? maxSize then
    match n with
    | O => Err UB
    | S n =>
        match last l with
        | None => Err UB
        | Some b => prune_loop n maxSize (delete (nkey b) m) (take (pred (length l)) l) (count + 1)
        end
    end
  else Ok (m, l, count).

Definition prune (c : Cache) : result (Z * Cache) :=
  let maxAllowed := maxSize_ c + elasticity_ c in
  if (maxSize_ c =? 0) || (size_ c <? maxAllowed) then Ok (0, c)
  else
    '(m, l, count) ← prune_loop (length (keys_ c)) (maxSize_ c) (cache_ c) (keys_ c) 0;
    Ok (count, with_lists m l c).

Definition insert_ (k : K) (v : V) (c : Cache) : result Cache :=
  match cache_ c !! k with
  | Some it =>
      _ ← deref it (keys_ c);
      Ok (with_lists (cache_ c) (splice_front it (set_value it v (keys_ c))) c)
  | None =>
      let n := {| nid := next_node c; nkey := k; nval := v |} in
      '(_, c) ← prune {| cache_ := <[k := nid n]> (cache_ c); keys_ := n :: keys_ c;
                         maxSize_ := maxSize_ c; elasticity_ := elasticity_ c;
                         next_node := S (next_node c) |};
      Ok c
  end.

(** [cwalk] visits the nodes from the front. *)
Definition cwalk (c : Cache) : list (K * V) := (λ n, (nkey n, nval n)) <$> keys_ c.

(** [get], and [getCopy] after it, throw [KeyNotFound]; [tryGet] returns false and leaves [vOut]. *)
Definition get_ (k : K) (c : Cache) : result (V * Cache) :=
  match cache_ c !! k with
  | None => Err EXCEPTION
  | Some it =>
      n ← deref it (keys_ c);
      Ok (nval n, with_lists (cache_ c) (splice_front it (keys_ c)) c)
  end.
Definition tryGet (k : K) (vOut : V) (c : Cache) : result (bool * V * Cache) :=
  match cache_ c !! k with
  | None => Ok (false, vOut, c)
  | Some it =>
      n ← deref it (keys_ c);
      Ok (true, nval n, with_lists (cache_ c) (splice_front it (keys_ c)) c)
  end.
Definition remove_ (k : K) (c : Cache) : result (bool * Cache) :=
  match cache_ c !! k with
  | None => Ok (false, c)
  | Some it =>
      _ ← deref it (keys_ c);
      Ok (true, with_lists (delete k (cache_ c)) (erase_node it (keys_ c)) c)
  end.

(** [pruneValue]: the value of the least recently used entry, which stays. *)
Definition pruneValue (c : Cache) : result V :=
  match last (keys_ c) with
  | None => Err UB
  | Some b =>
      match cache_ c !! nkey b with
      | None => Err EXCEPTION
      | Some it => n ← deref it (keys_ c); Ok (nval n)
      end
  end.

(** ** The invariant and the abstract view *)

Definition pair_of (n : node) : K * V := (nkey n, nval n).
Definition absr (c : Cache) : list (K * V) := pair_of <$> keys_ c.

(** Keys occur once, and the map sends each key to its node. *)
Record linked (m : gmap K nat) (l : list node) : Prop := {
  l_ids : NoDup (nid <$> l);
  l_keys : NoDup (nkey <$> l);
  l_map : ∀ k it, m !! k = Some it ↔ ∃ n, n ∈ l ∧ nkey n = k ∧ nid n = it }.

Record wf (c : Cache) : Prop := {
  wf_linked : linked (cache_ c) (keys_ c);
  wf_fresh : ∀ n, n ∈ keys_ c → (nid n < next_node c)%nat }.

(** The abstract cache: pairs, most recently used first. *)
Definition a_lookup (k : K) (l : list (K * V)) : option V :=
  snd <$> (snd <$> list_find (λ p, p.1 = k) l).
Definition a_remove (k : K) (l : list (K * V)) : list (K * V) := filter (λ p, p.1 ≠ k) l.
Definition a_trim (maxSize elasticity : Z) (l : list (K * V)) : list (K * V) :=
  if (maxSize =? 0) || (zlen l <? maxSize + elasticity) then l else take (Z.to_nat maxSize) l.
Definition a_insert (maxSize elasticity : Z) (k : K) (v : V) (l : list (K * V)) :=
  match a_lookup k l with
  | Some _ => (k, v) :: a_remove k l
  | None => a_trim maxSize elasticity ((k, v) :: l)
  end.

(** ** Lemmas *)

Lemma linked_size m l : linked m l → size m = length l.
Proof.
  intros [_ Hk Hm]. rewrite <- (length_fmap nkey l), <- (size_list_to_set (C:=gset K)) by done.
  rewrite <- size_dom. f_equal. apply set_eq. intros k.
  rewrite elem_of_dom, elem_of_list_to_set, list_elem_of_fmap. split.
  - intros [it (n & ? & <- & _)%Hm]. eauto.
  - intros (n & -> & ?). exists (nid n). apply Hm. eauto.
Qed.

(** The node a key maps to, and the rest of the list. *)
Lemma linked_split m l k it : linked m l → m !! k = Some it →
  ∃ l1 n l2, l = l1 ++ n :: l2 ∧ nkey n = k ∧ nid n = it ∧
    (∀ n', n' ∈ l1 ++ l2 → nkey n' ≠ k ∧ nid n' ≠ it).
Proof.
  intros [Hi Hk Hm] Hl. apply Hm in Hl as (n & Hn & <- & <-).
  apply list_elem_of_split in Hn as (l1 & l2 & ->). exists l1, n, l2. split_and!; [done..|].
  rewrite !fmap_app, !fmap_cons in *. intros n' Hn'. split; intros E.
  - apply (NoDup_app (nkey <$> l1)) in Hk as (_ & H1 & [H2 _]%NoDup_cons).
    apply elem_of_app in Hn' as [Hn'|Hn']; [apply (H1 (nkey n'))|apply H2]; rewrite ?E;
      [rewrite <- E; by apply list_elem_of_fmap_2|left|rewrite <- E; by apply list_elem_of_fmap_2].
  - apply (NoDup_app (nid <$> l1)) in Hi as (_ & H1 & [H2 _]%NoDup_cons).
    apply elem_of_app in Hn' as [Hn'|Hn']; [apply (H1 (nid n'))|apply H2]; rewrite ?E;
      [rewrite <- E; by apply list_elem_of_fmap_2|left|rewrite <- E; by apply list_elem_of_fmap_2].
Qed.

(** What the list operations do to the split list. *)
Section split.
Context (l1 l2 : list node) (n : node) (l : list node) (it : nat) (k : K).
Hypothesis El : l = l1 ++ n :: l2.
Hypothesis Ek : nkey n = k.
Hypothesis Ei : nid n = it.
Hypothesis Hne : ∀ n', n' ∈ l1 ++ l2 → nkey n' ≠ k ∧ nid n' ≠ it.

Lemma split_ne1 n' : n' ∈ l1 → nkey n' ≠ k ∧ nid n' ≠ it.
Proof. intros. apply Hne. set_solver. Qed.
Lemma split_ne2 n' : n' ∈ l2 → nkey n' ≠ k ∧ nid n' ≠ it.
Proof. intros. apply Hne. set_solver. Qed.

Lemma split_deref : deref it l = Ok n.
Proof.
  unfold deref. subst l.
  rewrite list_find_app_r; [by simpl; rewrite decide_True|].
  apply list_find_None. apply Forall_forall. intros x Hx. by apply split_ne1.
Qed.

Lemma split_erase : erase_node it l = l1 ++ l2.
Proof.
  unfold erase_node. subst l. rewrite filter_app, filter_cons_False by (by intros []).
  rewrite !filter_all; [done|intros; by apply split_ne2|intros; by apply split_ne1].
Qed.

Lemma split_splice : splice_front it l = n :: l1 ++ l2.
Proof.
  unfold splice_front. fold (erase_node it l). rewrite split_erase. subst l.
  rewrite filter_app, filter_cons_True by done.
  rewrite !filter_none; [done|intros; by apply split_ne2|intros; by apply split_ne1].
Qed.

Lemma split_set_value v :
  set_value it v l = l1 ++ {| nid := it; nkey := k; nval := v |} :: l2.
Proof.
  assert (Hid : ∀ l', (∀ n', n' ∈ l' → nid n' ≠ it) → set_value it v l' = l').
  { intros l' Hl'. unfold set_value. rewrite <- (list_fmap_id l') at 2.
    apply list_fmap_ext. intros i x Hx%list_elem_of_lookup_2.
    by rewrite decide_False by auto. }
  subst l. unfold set_value in *. rewrite fmap_app, fmap_cons, decide_True by done.
  rewrite !Hid; [by subst|intros; by apply split_ne2|intros; by apply split_ne1].
Qed.

Lemma split_a_lookup : a_lookup k (pair_of <$> l) = Some (nval n).
Proof.
  unfold a_lookup. subst l. rewrite fmap_app, fmap_cons.
  rewrite list_find_app_r; [by simpl; rewrite decide_True|].
  apply list_find_None, Forall_forall. intros x (y & -> & Hy)%list_elem_of_fmap.
  by apply split_ne1.
Qed.

Lemma split_a_remove : a_remove k (pair_of <$> l) = pair_of <$> (l1 ++ l2).
Proof.
  unfold a_remove. subst l. rewrite !fmap_app, fmap_cons, filter_app, filter_cons_False
    by (by intros []).
  rewrite !filter_all; [done| |]; intros x (y & -> & Hy)%list_elem_of_fmap;
    [by apply split_ne2|by apply split_ne1].
Qed.
End split.

(** [linked] depends on the identities and keys only, in any order. *)
Lemma linked_perm m l l' :
  ((λ n, (nid n, nkey n)) <$> l) ≡ₚ ((λ n, (nid n, nkey n)) <$> l') → linked m l → linked m l'.
Proof.
  intros Hp [Hi Hk Hm].
  assert (Hin : ∀ k it, (∃ n, n ∈ l ∧ nkey n = k ∧ nid n = it) ↔ (∃ n, n ∈ l' ∧ nkey n = k ∧ nid n = it)).
  { intros k it. transitivity ((it, k) ∈ ((λ n, (nid n, nkey n)) <$> l)).
    - rewrite list_elem_of_fmap. naive_solver.
    - rewrite Hp, list_elem_of_fmap. naive_solver. }
  split.
  - change (nid <$> l') with ((fst ∘ (λ n, (nid n, nkey n))) <$> l').
    by rewrite list_fmap_compose, <- Hp, <- list_fmap_compose.
  - change (nkey <$> l') with ((snd ∘ (λ n, (nid n, nkey n))) <$> l').
    by rewrite list_fmap_compose, <- Hp, <- list_fmap_compose.
  - intros k it. by rewrite Hm, Hin.
Qed.

Lemma linked_delete m l1 n l2 : linked m (l1 ++ n :: l2) →
  linked (delete (nkey n) m) (l1 ++ l2).
Proof.
  intros HL.
  assert (Hn : m !! nkey n = Some (nid n)) by (apply (l_map _ _ HL); exists n; set_solver).
  destruct (linked_split _ _ _ _ HL Hn) as (k1 & n' & k2 & Ek & En & Ei & Hne).
  destruct HL as [Hi Hk Hm]. rewrite !fmap_app, !fmap_cons in *.
  assert (Hs1 : NoDup (nid <$> l1 ++ l2)).
  { rewrite fmap_app. rewrite NoDup_app in *. setoid_rewrite NoDup_cons in Hi. set_solver. }
  assert (Hs2 : NoDup (nkey <$> l1 ++ l2)).
  { rewrite fmap_app. rewrite NoDup_app in *. setoid_rewrite NoDup_cons in Hk. set_solver. }
  split; [done..|]. intros k it. rewrite lookup_delete_Some, Hm. split.
  - intros (Hnk & x & Hx & <- & <-). exists x. split_and!; [|done..]. set_solver.
  - intros (x & Hx & <- & <-). split; [|exists x; set_solver].
    intros E. rewrite NoDup_app in Hk. destruct Hk as (_ & H1 & [H2 _]%NoDup_cons).
    apply elem_of_app in Hx as [Hx|Hx].
    + apply (H1 (nkey x)); [by apply list_elem_of_fmap_2|]. rewrite E. left.
    + apply H2. rewrite E. by apply list_elem_of_fmap_2.
Qed.

Lemma linked_cons m l n : linked m l → m !! nkey n = None → (∀ n', n' ∈ l → nid n' ≠ nid n) →
  linked (<[nkey n := nid n]> m) (n :: l).
Proof.
  intros [Hi Hk Hm] Hnone Hid. split.
  - rewrite fmap_cons. constructor; [|done]. intros (x & E & Hx)%list_elem_of_fmap. by apply (Hid x).
  - rewrite fmap_cons. constructor; [|done]. intros (x & E & Hx)%list_elem_of_fmap.
    assert (m !! nkey n = Some (nid x)) by (apply Hm; eauto). congruence.
  - intros k it. rewrite lookup_insert_Some, Hm. split.
    + intros [[<- <-]|(Hne & x & Hx & <- & <-)]; [exists n|exists x]; set_solver.
    + intros (x & [->|Hx]%elem_of_cons & <- & <-); [by left|]. right. split; [|eauto].
      intros E. assert (m !! nkey n = Some (nid x)) by (apply Hm; eauto). congruence.
Qed.

Lemma linked_a_lookup_None m l k : linked m l → m !! k = None → a_lookup k (pair_of <$> l) = None.
Proof.
  intros HL Hk. unfold a_lookup. rewrite (proj2 (list_find_None _ _)); [done|].
  apply Forall_forall. intros x (n & -> & Hn)%list_elem_of_fmap <-.
  assert (m !! nkey n = Some (nid n)) by (apply (l_map _ _ HL); eauto). simpl in Hk. congruence.
Qed.

(** The pruning loop keeps the [maxSize] most recent nodes and counts the others. *)
Lemma prune_loop_spec n maxSize m l count : linked m l → (length l ≤ n)%nat → 0 ≤ maxSize →
  ∃ m', prune_loop n maxSize m l count =
      Ok (m', take (Z.to_nat maxSize) l, count + (zlen l - zlen (take (Z.to_nat maxSize) l))) ∧
    linked m' (take (Z.to_nat maxSize) l).
Proof.
  revert m l count. induction n as [|n IH]; intros m l count HL Hlen Hmax; simpl;
    rewrite (linked_size _ _ HL).
  - destruct l; [|simpl in Hlen; lia]. simpl length. rewrite take_nil.
    rewrite Z.gtb_ltb, (proj2 (Z.ltb_ge _ _)) by done. rewrite Z.sub_diag, Z.add_0_r. eauto.
  - destruct (_ >? _) eqn:E; zbool; [|rewrite take_ge, Z.sub_diag, Z.add_0_r by lia; eauto].
    destruct l as [|b l _] using rev_ind; [simpl in *; lia|].
    rewrite last_snoc, length_app in *. simpl in *.
    replace (pred (length l + 1)) with (length l) by lia. rewrite take_app_length.
    apply linked_delete in HL. rewrite app_nil_r in HL.
    destruct (IH _ _ (count + 1) HL ltac:(lia) Hmax) as (m' & -> & ?).
    rewrite take_app_le, zlen_app by lia. exists m'. split; [|done]. do 2 f_equal. unfold zlen. simpl. lia.
Qed.

Lemma prune_spec c : wf c → 0 ≤ maxSize_ c →
  let l' := a_trim (maxSize_ c) (elasticity_ c) (absr c) in
  ∃ c', prune c = Ok (zlen (absr c) - zlen l', c') ∧ wf c' ∧ absr c' = l' ∧
    maxSize_ c' = maxSize_ c ∧ elasticity_ c' = elasticity_ c.
Proof.
  intros [HL Hf] Hmax. unfold prune, a_trim, absr. rewrite zlen_fmap. unfold size_.
  rewrite (linked_size _ _ HL). fold (zlen (keys_ c)).
  destruct (_ || _); [exists c; rewrite zlen_fmap, Z.sub_diag; by split_and!; [|split|..]|].
  destruct (prune_loop_spec (length (keys_ c)) (maxSize_ c) _ _ 0 HL) as (m' & -> & HL'); [lia..|].
  simpl. eexists. rewrite <- fmap_take, zlen_fmap. split_and!; [done| |done..].
  split; [done|]. simpl. intros n (i & Hn & _)%elem_of_take.
  apply Hf. by eapply list_elem_of_lookup_2.
Qed.

(** ** Refinement of the abstract cache *)

(** [insert] succeeds on every well-formed cache, keeps the map and the list
    in step, and acts as the abstract insertion: an existing key gets the new value
    and moves to the front; a new key goes to the front and, when the hard limit is
    reached, only the [maxSize] most recently used entries stay. *)
Lemma insert_refines k v c : wf c → 0 ≤ maxSize_ c →
  ∃ c', insert_ k v c = Ok c' ∧ wf c' ∧
    absr c' = a_insert (maxSize_ c) (elasticity_ c) k v (absr c) ∧
    maxSize_ c' = maxSize_ c ∧ elasticity_ c' = elasticity_ c.
Proof.
  intros Hwf Hmax. pose proof Hwf as [HL Hf]. unfold insert_, a_insert.
  destruct (cache_ c !! k) as [it|] eqn:Hk.
  - destruct (linked_split _ _ _ _ HL Hk) as (l1 & n & l2 & El & En & Ei & Hne).
    rewrite (split_deref l1 l2 n _ it k), (split_set_value l1 l2 n _ it k) by done.
    rewrite (split_splice l1 l2 {| nid := it; nkey := k; nval := v |} _ it k) by done.
    unfold absr. rewrite (split_a_lookup l1 l2 n _ it k), (split_a_remove l1 l2 n _ it k) by done.
    simpl. eexists. split_and!; [done| |done..]. split.
    + simpl. eapply linked_perm; [|exact HL]. rewrite El, !fmap_cons, !fmap_app, !fmap_cons.
      subst. symmetry. apply Permutation_middle.
    + simpl. intros x [->|Hx]%elem_of_cons; [|apply Hf; rewrite El; set_solver].
      simpl. subst it. apply Hf. rewrite El. set_solver.
  - unfold absr at 2. rewrite linked_a_lookup_None with (m := cache_ c) by done.
    cbn [nid]. edestruct (prune_spec {| cache_ := <[k := next_node c]> (cache_ c);
                             keys_ := {| nid := next_node c; nkey := k; nval := v |} :: keys_ c;
                             maxSize_ := maxSize_ c; elasticity_ := elasticity_ c;
                             next_node := S (next_node c) |}) as (c' & -> & Hc'); [|done|by exists c'].
    split; simpl.
    + apply (linked_cons _ _ {| nid := next_node c; nkey := k; nval := v |}); [done..|].
      intros n' Hn'%Hf. simpl. lia.
    + intros n' [->|Hn'%Hf]%elem_of_cons; simpl; lia.
Qed.

(** [get] returns the value stored for the key and makes the entry the most
    recently used one, without changing any other entry; it throws exactly when
    the key is absent. *)
Lemma get_refines k c : wf c →
  match a_lookup k (absr c) with
  | Some v => ∃ c', get_ k c = Ok (v, c') ∧ wf c' ∧ absr c' = (k, v) :: a_remove k (absr c)
  | None => get_ k c = Err EXCEPTION
  end.
Proof.
  intros [HL Hf]. unfold get_, absr. destruct (cache_ c !! k) as [it|] eqn:Hk.
  - destruct (linked_split _ _ _ _ HL Hk) as (l1 & n & l2 & El & En & Ei & Hne).
    rewrite (split_deref l1 l2 n _ it k), (split_splice l1 l2 n _ it k),
      (split_a_lookup l1 l2 n _ it k), (split_a_remove l1 l2 n _ it k) by done.
    simpl. eexists. split_and!; [done| |by subst]. split; simpl.
    + eapply linked_perm; [|exact HL]. rewrite El, !fmap_cons, !fmap_app, !fmap_cons.
      symmetry. apply Permutation_middle.
    + intros x Hx. apply Hf. rewrite El. set_solver.
  - by rewrite linked_a_lookup_None with (m := cache_ c).
Qed.

(** [contains] and [pruneValue] against the abstract cache. *)
Lemma contains_spec k c : wf c → contains c k = bool_decide (is_Some (a_lookup k (absr c))).
Proof.
  intros [HL _]. unfold contains, absr. destruct (cache_ c !! k) as [it|] eqn:Hk.
  - destruct (linked_split _ _ _ _ HL Hk) as (l1 & n & l2 & El & En & Ei & Hne).
    rewrite (split_a_lookup l1 l2 n _ it k) by done. by rewrite !bool_decide_true by eauto.
  - rewrite linked_a_lookup_None with (m := cache_ c) by done.
    by rewrite !bool_decide_false by apply is_Some_None.
Qed.

Lemma absr_keys c : wf c → NoDup (fst <$> absr c).
Proof. intros [HL _]. unfold absr. rewrite <- list_fmap_compose. apply (l_keys _ _ HL). Qed.

Lemma size_spec c : wf c → size_ c = zlen (absr c).
Proof.
  intros [HL _]. unfold size_, absr. by rewrite zlen_fmap, (linked_size _ _ HL).
Qed.

Lemma pruneValue_spec c k v : wf c → last (absr c) = Some (k, v) → pruneValue c = Ok v.
Proof.
  intros [HL _]. unfold pruneValue, absr. rewrite fmap_last.
  destruct (last (keys_ c)) as [b|] eqn:Hl; [|done]. intros [= <- <-].
  apply last_Some in Hl as [l El].
  assert (Hb : cache_ c !! nkey b = Some (nid b)).
  { apply (l_map _ _ HL). exists b. rewrite El. set_solver. }
  rewrite Hb. destruct (linked_split _ _ _ _ HL Hb) as (l1 & n & l2 & El' & En & Ei & Hne).
  rewrite (split_deref l1 l2 n _ (nid b) (nkey b)) by done. simpl.
  assert (Hin : b ∈ l1 ++ n :: l2) by (rewrite <- El', El; set_solver).
  apply elem_of_app in Hin as [Hin|[->|Hin]%elem_of_cons]; [|done|];
    exfalso; apply (Hne b); [set_solver|done|set_solver|done].
Qed.

Lemma remove_refines k c : wf c →
  ∃ c', remove_ k c = Ok (bool_decide (is_Some (a_lookup k (absr c))), c') ∧ wf c' ∧
    absr c' = a_remove k (absr c) ∧ maxSize_ c' = maxSize_ c ∧ elasticity_ c' = elasticity_ c.
Proof.
  intros Hwf. rewrite <- contains_spec by done. destruct Hwf as [HL Hf].
  unfold remove_, contains, absr. destruct (cache_ c !! k) as [it|] eqn:Hk.
  - destruct (linked_split _ _ _ _ HL Hk) as (l1 & n & l2 & El & En & Ei & Hne).
    rewrite (split_deref l1 l2 n _ it k), (split_erase l1 l2 n _ it k),
      (split_a_remove l1 l2 n _ it k) by done. rewrite bool_decide_true by eauto.
    simpl. eexists. split_and!; [done| |done..]. split; simpl.
    + subst k. apply linked_delete. by rewrite <- El.
    + intros x Hx. apply Hf. rewrite El. set_solver.
  - rewrite bool_decide_false by apply is_Some_None. exists c. split_and!; [done| |..|done|done].
    + by split.
    + unfold a_remove. rewrite filter_all; [done|]. intros p (n & -> & Hn)%list_elem_of_fmap <-.
      assert (cache_ c !! nkey n = Some (nid n)) by (apply (l_map _ _ HL); eauto).
      simpl in Hk. congruence.
Qed.

Lemma tryGet_refines k vOut c : wf c →
  ∃ c', tryGet k vOut c = Ok (bool_decide (is_Some (a_lookup k (absr c))),
                              default vOut (a_lookup k (absr c)), c') ∧ wf c' ∧
    absr c' = match a_lookup k (absr c) with
              | Some v => (k, v) :: a_remove k (absr c) | None => absr c end ∧
    maxSize_ c' = maxSize_ c ∧ elasticity_ c' = elasticity_ c.
Proof.
  intros Hwf. pose proof (get_refines k c Hwf) as Hg. revert Hg. unfold get_, tryGet.
  destruct (a_lookup k (absr c)) as [v|] eqn:Ha.
  - intros (c' & Hg & Hwf' & Habs). rewrite bool_decide_true by eauto.
    destruct (cache_ c !! k) as [it|]; [|done].
    destruct (deref it (keys_ c)) as [n|]; [|done]. injection Hg as Hv Hc. subst.
    simpl. eexists. by split_and!.
  - intros Hg. rewrite bool_decide_false by apply is_Some_None.
    destruct (cache_ c !! k) as [it|] eqn:Hk; [|by exists c]. exfalso.
    destruct (linked_split _ _ _ _ (wf_linked _ Hwf) Hk) as (l1 & n & l2 & El & En & Ei & Hne).
    unfold absr in Ha. by rewrite (split_a_lookup l1 l2 n _ it k) in Ha by done.
Qed.

Lemma new_Cache_wf mx el : wf (new_Cache mx el) ∧ absr (new_Cache mx el) = [].
Proof.
  split; [|done]. split; simpl; [split; simpl|intros n Hn; by apply elem_of_nil in Hn]; [constructor..|].
  intros k it. rewrite lookup_empty. split; [done|]. by intros (n & Hn%elem_of_nil & _).
Qed.

(** ** Traces of operations *)

Inductive op := OInsert (k : K) (v : V) | OGet (k : K) | OTryGet (k : K) (v : V)
  | ORemove (k : K) | OContains (k : K) | OSize | OEmpty | OClear | OWalk | OPruneValue | OPrune.
Inductive out := RUnit | RVal (v : V) | RBool (b : bool) | RTry (b : bool) (v : V) | RSize (n : Z)
  | RWalk (l : list (K * V)).

Definition run_op (o : op) (c : Cache) : result (out * Cache) :=
  match o with
  | OInsert k v => c ← insert_ k v c; Ok (RUnit, c)
  | OGet k => '(v, c) ← get_ k c; Ok (RVal v, c)
  | OTryGet k v => '(b, v, c) ← tryGet k v c; Ok (RTry b v, c)
  | ORemove k => '(b, c) ← remove_ k c; Ok (RBool b, c)
  | OContains k => Ok (RBool (contains c k), c)
  | OSize => Ok (RSize (size_ c), c)
  | OEmpty => Ok (RBool (empty_ c), c)
  | OClear => Ok (RUnit, clear c)
  | OWalk => Ok (RWalk (cwalk c), c)
  | OPruneValue => v ← pruneValue c; Ok (RVal v, c)
  | OPrune => '(n, c) ← prune c; Ok (RSize n, c)
  end.

Definition a_run_op (mx el : Z) (o : op) (l : list (K * V)) : result (out * list (K * V)) :=
  match o with
  | OInsert k v => Ok (RUnit, a_insert mx el k v l)
  | OGet k =>
      match a_lookup k l with Some v => Ok (RVal v, (k, v) :: a_remove k l) | None => Err EXCEPTION end
  | OTryGet k v =>
      Ok (RTry (bool_decide (is_Some (a_lookup k l))) (default v (a_lookup k l)),
          match a_lookup k l with Some v => (k, v) :: a_remove k l | None => l end)
  | ORemove k => Ok (RBool (bool_decide (is_Some (a_lookup k l))), a_remove k l)
  | OContains k => Ok (RBool (bool_decide (is_Some (a_lookup k l))), l)
  | OSize => Ok (RSize (zlen l), l)
  | OEmpty => Ok (RBool (bool_decide (l = [])), l)
  | OClear => Ok (RUnit, [])
  | OWalk => Ok (RWalk l, l)
  | OPruneValue => match last l with Some (_, v) => Ok (RVal v, l) | None => Err UB end
  | OPrune => Ok (RSize (zlen l - zlen (a_trim mx el l)), a_trim mx el l)
  end.

Fixpoint run_ops {S} (step : op → S → result (out * S)) (os : list op) (s : S) : result (list out * S) :=
  match os with
  | [] => Ok ([], s)
  | o :: os => '(r, s) ← step o s; '(rs, s) ← run_ops step os s; Ok (r :: rs, s)
  end.

(** One operation simulates its abstract counterpart, outcome included. *)
Definition sim (mx el : Z) (c : Cache) (l : list (K * V)) : Prop :=
  wf c ∧ absr c = l ∧ maxSize_ c = mx ∧ elasticity_ c = el.

Definition same_outcome {A} (mx el : Z) (r : result (A * Cache)) (s : result (A * list (K * V))) : Prop :=
  match r, s with
  | Ok (x, c), Ok (y, l) => x = y ∧ sim mx el c l
  | Err e, Err e' => e = e'
  | _, _ => False
  end.

Lemma run_op_sim mx el o c l : 0 ≤ mx → sim mx el c l →
  same_outcome mx el (run_op o c) (a_run_op mx el o l).
Proof.
  intros Hmx (Hwf & <- & <- & <-). destruct o as [k v|k|k v|k|k| | | | | |]; simpl.
  - destruct (insert_refines k v c Hwf Hmx) as (c' & -> & ? & ? & ? & ?). by split.
  - pose proof (get_refines k c Hwf) as Hg. revert Hg. unfold get_.
    destruct (a_lookup k (absr c)).
    + destruct (cache_ c !! k) as [it|]; [|by intros (?&?&?)].
      destruct (deref it (keys_ c)) as [n|]; [|by intros (?&?&?)].
      intros (c' & [= <- <-] & Hw & Ha). by split.
    + destruct (cache_ c !! k) as [it|]; [|done].
      destruct (deref it (keys_ c)); simpl; congruence.
  - destruct (tryGet_refines k v c Hwf) as (c' & -> & ? & ? & ? & ?). by split.
  - destruct (remove_refines k c Hwf) as (c' & -> & ? & ? & ? & ?). by split.
  - by rewrite contains_spec by done.
  - by rewrite size_spec by done.
  - split; [|done]. f_equal. unfold empty_. rewrite size_spec by done.
    destruct (absr c); [done|]. rewrite bool_decide_eq_false_2 by done. apply Z.eqb_neq. unfold zlen. simpl. lia.
  - split; [done|]. split_and!; [|done..].
    split; [apply (wf_linked _ (proj1 (new_Cache_wf 0 0)))|].
    intros n Hn. by apply elem_of_nil in Hn.
  - by split.
  - destruct (last (absr c)) as [[k v]|] eqn:El; [by rewrite (pruneValue_spec c k v)|].
    unfold pruneValue, absr in *. rewrite fmap_last in El. by destruct (last (keys_ c)).
  - destruct (prune_spec c Hwf Hmx) as (c' & -> & ? & ? & ? & ?). by split.
Qed.

End Cache.
Arguments node : clear implicits.
Arguments Cache K V {_ _}.

