(* ===== verification/ReadCache.v ===== *)
(** * The restore container cache (include/readCache.h, src/Util/readCache.cc)

    An LRU cache from container names to indices of a pool of container buffers.
    The lemmas show that pool slots are never shared, that eviction reuses exactly
    the slot of the evicted container, and that a cached name always denotes the
    bytes inserted for it. *)
From Stdlib Require Import ZArith Lia.
From stdpp Require Import base tactics numbers list gmap fin_maps.
From S2P Require Import Prelude Common LruCache.
#[local] Open Scope Z_scope.

Record ReadCache := {
  readCache_ : Cache bytes Z;
  containerPool_ : list buf;
  cacheSize_ : Z;
  currentIndex_ : Z }.

(** The constructor: [malloc]ed buffers hold arbitrary bytes. *)
Definition new_ReadCache (config : Configure) (malloc_ : nat → buf) : ReadCache :=
  let n := GetReadCacheSize config in
  {| readCache_ := new_Cache n 0;
     containerPool_ := malloc_ <$> seq 0 (Z.to_nat n);
     cacheSize_ := n;
     currentIndex_ := 0 |}.

(** [memcpy(containerPool_[i], data, length)] *)
Definition pool_memcpy (pool : list buf) (i : Z) (data : buf) (length : Z) : result (list buf) :=
  match pool !! Z.to_nat i with
  | None => Err UB
  | Some dst =>
      check ((0 <=? i) && (0 <=? length) && (length <=? MAX_CONTAINER_SIZE)) UB ;;
      Ok (<[Z.to_nat i := bwrite dst 0 (bread data 0 length)]> pool)
  end.

Definition InsertToCache (name : bytes) (data : buf) (length : Z) (rc : ReadCache) : result ReadCache :=
  if size_ (readCache_ rc) + 1 >? cacheSize_ rc then
    replaceIndex ← pruneValue (readCache_ rc);
    pool ← pool_memcpy (containerPool_ rc) replaceIndex data length;
    c ← insert_ name replaceIndex (readCache_ rc);
    Ok {| readCache_ := c; containerPool_ := pool; cacheSize_ := cacheSize_ rc;
          currentIndex_ := currentIndex_ rc |}
  else
    pool ← pool_memcpy (containerPool_ rc) (currentIndex_ rc) data length;
    c ← insert_ name (u32 (currentIndex_ rc)) (readCache_ rc);
    Ok {| readCache_ := c; containerPool_ := pool; cacheSize_ := cacheSize_ rc;
          currentIndex_ := currentIndex_ rc + 1 |}.

Definition ExistsInCache (name : bytes) (rc : ReadCache) : bool :=
  contains (readCache_ rc) name.

Definition ReadFromCache (name : bytes) (rc : ReadCache) : result (buf * ReadCache) :=
  '(index, c) ← get_ name (readCache_ rc);
  match containerPool_ rc !! Z.to_nat index with
  | None => Err UB
  | Some b =>
      Ok (b, {| readCache_ := c; containerPool_ := containerPool_ rc;
                cacheSize_ := cacheSize_ rc; currentIndex_ := currentIndex_ rc |})
  end.

(** ** Invariant *)

Abbreviation entries rc := (absr (readCache_ rc)).

Record rc_wf (rc : ReadCache) : Prop := {
  rc_cache : wf (readCache_ rc);
  rc_max : maxSize_ (readCache_ rc) = cacheSize_ rc;
  rc_el : elasticity_ (readCache_ rc) = 0;
  rc_pos : 1 ≤ cacheSize_ rc < 2 ^ 32;
  rc_pool : zlen (containerPool_ rc) = cacheSize_ rc;
  rc_cur : currentIndex_ rc = zlen (entries rc);
  rc_full : zlen (entries rc) ≤ cacheSize_ rc;
  rc_nodup : NoDup (snd <$> entries rc);
  rc_idx : ∀ k i, (k, i) ∈ entries rc → 0 ≤ i < currentIndex_ rc }.

(** The pool slot of a cached name starts with the given bytes. *)
Definition holds (rc : ReadCache) (name : bytes) (bs : bytes) : Prop :=
  ∃ i b, a_lookup name (entries rc) = Some i ∧ containerPool_ rc !! Z.to_nat i = Some b ∧
    bread b 0 (zlen bs) = bs.

(** ** Lemmas on abstract lookups *)

Lemma a_lookup_cons {K V} `{EqDecision K} (k k' : K) (v : V) l :
  a_lookup k ((k', v) :: l) = if decide (k' = k) then Some v else a_lookup k l.
Proof.
  unfold a_lookup. simpl. destruct (decide (k' = k)) as [->|Hne]; [done|].
  by destruct (list_find _ l) as [[i x]|].
Qed.

Lemma a_lookup_elem {K V} `{EqDecision K} (k : K) (v : V) l : a_lookup k l = Some v → (k, v) ∈ l.
Proof.
  induction l as [|[k' v'] l IH]; [done|]. rewrite a_lookup_cons.
  destruct (decide (k' = k)) as [->|]; [intros [= ->]; left|right; auto].
Qed.

Lemma a_lookup_app_None {K V} `{EqDecision K} (k : K) (l l' : list (K * V)) :
  a_lookup k (l ++ l') = None → a_lookup k l = None.
Proof.
  induction l as [|[k' v'] l IH]; [done|]. simpl. rewrite !a_lookup_cons. case_decide; auto.
Qed.
Lemma a_lookup_app_Some {K V} `{EqDecision K} (k : K) (l l' : list (K * V)) v :
  a_lookup k l = Some v → a_lookup k (l ++ l') = Some v.
Proof.
  induction l as [|[k' v'] l IH]; [done|]. simpl. rewrite !a_lookup_cons. case_decide; auto.
Qed.
Lemma a_lookup_remove {K V} `{EqDecision K} (k k' : K) (l : list (K * V)) : k ≠ k' →
  a_lookup k (a_remove k' l) = a_lookup k l.
Proof.
  intros Hne. unfold a_remove. induction l as [|[k1 v1] l IH]; [done|].
  destruct (decide (k1 = k')) as [->|Hk].
  - rewrite filter_cons_False, a_lookup_cons, decide_False by (done || by intros []). done.
  - rewrite filter_cons_True, !a_lookup_cons, IH by done. done.
Qed.

Lemma a_lookup_perm {K V} `{EqDecision K} (k : K) (v : V) (l : list (K * V)) :
  NoDup (fst <$> l) → a_lookup k l = Some v → (k, v) :: a_remove k l ≡ₚ l.
Proof.
  induction l as [|[k' v'] l IH]; [done|]. rewrite fmap_cons, a_lookup_cons. unfold a_remove in *.
  intros [Hk Hnd]%NoDup_cons. case_decide as E.
  - intros [= ->]. subst. rewrite filter_cons_False by (by intros []). f_equiv.
    rewrite filter_all; [done|]. intros x Hx E. apply Hk, list_elem_of_fmap. by exists x.
  - intros Hl. rewrite filter_cons_True by done. rewrite Permutation_swap, IH; done.
Qed.

Lemma pool_memcpy_ok pool i data length :
  0 ≤ i < zlen pool → 0 ≤ length ≤ MAX_CONTAINER_SIZE →
  ∃ pool' dst, pool_memcpy pool i data length = Ok pool' ∧ zlen pool' = zlen pool ∧
    pool' = <[Z.to_nat i := bwrite dst 0 (bread data 0 length)]> pool.
Proof.
  intros Hi Hl. unfold pool_memcpy.
  destruct (lookup_lt_is_Some_2 pool (Z.to_nat i)) as [dst ->]; [unfold zlen in *; lia|].
  rewrite !(proj2 (Z.leb_le _ _)) by lia. simpl. eexists _, dst.
  split_and!; [done| |done]. unfold zlen. by rewrite length_insert.
Qed.

(** ** Correctness *)

(** What both branches of [InsertToCache] do: slot [i], used by none of the entries
    [l] that stay, receives the data and the entry goes in front of [l]. *)
Lemma insert_slot rc name data len c' i l l' dst :
  rc_wf rc → entries rc = l ++ l' → a_lookup name l = None →
  wf c' → maxSize_ c' = cacheSize_ rc → elasticity_ c' = 0 → absr c' = (name, i) :: l →
  0 ≤ i < 1 + zlen l → 1 + zlen l ≤ cacheSize_ rc → (∀ k j, (k, j) ∈ l → 0 ≤ j < 1 + zlen l ∧ j ≠ i) →
  0 ≤ len →
  let rc' := {| readCache_ := c';
                containerPool_ := <[Z.to_nat i := bwrite dst 0 (bread data 0 len)]> (containerPool_ rc);
                cacheSize_ := cacheSize_ rc; currentIndex_ := 1 + zlen l |} in
  rc_wf rc' ∧ holds rc' name (bread data 0 len) ∧
  (∀ n bs, n ≠ name → ExistsInCache n rc' = true → holds rc n bs → holds rc' n bs) ∧
  (∀ n, n ≠ name → ExistsInCache n rc' = true → ExistsInCache n rc = true).
Proof.
  intros Hrc El Hnone Hwf' Hm' He' Habs Hi Hl Hl' Hlen rc'.
  pose proof Hrc as [Hwf _ _ Hpos Hpool _ _ Hnd _].
  rewrite El, fmap_app, NoDup_app in Hnd. destruct Hnd as (Hnd & _).
  assert (Hex : ∀ n, n ≠ name → ExistsInCache n rc' = true →
                ∃ j, a_lookup n l = Some j ∧ a_lookup n (entries rc) = Some j).
  { intros n Hn Hex. unfold ExistsInCache in Hex. simpl in Hex.
    rewrite contains_spec, Habs, a_lookup_cons, decide_False in Hex by done.
    apply bool_decide_eq_true in Hex as [j Hj]. exists j. split; [done|].
    rewrite El. by apply a_lookup_app_Some. }
  split_and!.
  - split; simpl; rewrite ?Habs; try done; try zlia.
    + unfold zlen. by rewrite length_insert.
    + rewrite fmap_cons. constructor; [|done]. intros ([k j] & Ej & Hj)%list_elem_of_fmap.
      simpl in Ej. by destruct (Hl' _ _ Hj).
    + intros k j [[= -> ->]|Hj]%elem_of_cons; [lia|]. by apply (Hl' k).
  - exists i. simpl. rewrite Habs, a_lookup_cons, decide_True by done.
    eexists. split_and!; [done|apply list_lookup_insert_eq; unfold zlen in *; lia|].
    by rewrite bread_bwrite_eq.
  - intros n bs Hn (j & Hj & Hj')%Hex (j' & b & Hj'' & Hb & Hbs); [|done].
    assert (j' = j) as -> by congruence. pose proof (Hl' n j (a_lookup_elem _ _ _ Hj)).
    exists j, b. simpl. rewrite Habs, a_lookup_cons, decide_False by done. split_and!; [done| |done].
    rewrite list_lookup_insert_ne; [done|lia].
  - intros n Hn (j & _ & Hj)%Hex; [|done]. unfold ExistsInCache.
    rewrite contains_spec by done. apply bool_decide_eq_true. eauto.
Qed.

(** Inserting a name that is not cached. *)
Lemma InsertToCache_spec rc name data len :
  rc_wf rc → ExistsInCache name rc = false → 0 ≤ len ≤ MAX_CONTAINER_SIZE →
  ∃ rc', InsertToCache name data len rc = Ok rc' ∧ cacheSize_ rc' = cacheSize_ rc ∧ rc_wf rc' ∧
    holds rc' name (bread data 0 len) ∧
    (∀ n bs, n ≠ name → ExistsInCache n rc' = true → holds rc n bs → holds rc' n bs) ∧
    (∀ n, n ≠ name → ExistsInCache n rc' = true → ExistsInCache n rc = true).
Proof.
  intros Hrc Hex Hlen. pose proof Hrc as [Hwf Hmax Hel Hpos Hpool Hcur Hfull Hnd Hidx].
  unfold ExistsInCache in Hex. rewrite contains_spec in Hex by done.
  assert (Hnone : a_lookup name (entries rc) = None).
  { apply bool_decide_eq_false in Hex. by apply eq_None_not_Some. }
  unfold InsertToCache. rewrite size_spec by done. destruct (_ >? _) eqn:Hcase; zbool.
  - (* the pool is full: the slot of the last entry is reused *)
    destruct (entries rc) as [|[k0 i0] l _] eqn:El using rev_ind; [rewrite zlen_nil in *; lia|].
    assert (Hi0 : 0 ≤ i0 < currentIndex_ rc) by (apply (Hidx k0); set_solver).
    rewrite (pruneValue_spec _ k0 i0) by (done || by rewrite El, last_snoc). simpl.
    destruct (pool_memcpy_ok (containerPool_ rc) i0 data len) as (pool' & dst & -> & Hlp & ->); [zlia..|].
    simpl. destruct (insert_refines name i0 (readCache_ rc)) as (c' & -> & Hwf' & Habs & Hm' & He'); [done|lia|].
    unfold a_insert, a_trim in Habs. rewrite El, Hnone, Hmax, Hel in Habs.
    rewrite (proj2 (Z.eqb_neq _ _)), (proj2 (Z.ltb_ge _ _)) in Habs by zlia. simpl in Habs.
    assert (Hzl : zlen l + 1 = cacheSize_ rc) by zlia.
    replace (Z.to_nat (cacheSize_ rc)) with (S (length l)) in Habs by (unfold zlen in *; lia).
    simpl in Habs. rewrite take_app_length in Habs.
    eexists. split; [done|]. split; [done|].
    replace (currentIndex_ rc) with (1 + zlen l) by zlia.
    apply (insert_slot rc name data len c' i0 l [(k0, i0)] dst); try done; try zlia; try congruence.
    + by apply a_lookup_app_None in Hnone.
    + intros k j Hj. rewrite fmap_app, NoDup_app in Hnd. destruct Hnd as (_ & Hnd & _).
      split; [assert (0 ≤ j < currentIndex_ rc) by (apply (Hidx k); set_solver); zlia|].
      intros ->. apply (Hnd i0); [apply list_elem_of_fmap; by exists (k, i0)|simpl; set_solver].
  - (* a free slot is used *)
    destruct (pool_memcpy_ok (containerPool_ rc) (currentIndex_ rc) data len)
      as (pool' & dst & -> & Hlp & ->); [zlia..|].
    simpl. rewrite u32_small by zlia.
    destruct (insert_refines name (currentIndex_ rc) (readCache_ rc)) as (c' & -> & Hwf' & Habs & Hm' & He'); [done|lia|].
    unfold a_insert in Habs. rewrite Hnone in Habs.
    assert (Habs' : absr c' = (name, currentIndex_ rc) :: entries rc).
    { rewrite Habs. unfold a_trim. rewrite Hmax, Hel. destruct (_ || _); [done|].
      apply take_ge. unfold zlen in *. simpl in *. lia. }
    eexists. split; [done|]. split; [done|].
    replace (currentIndex_ rc + 1) with (1 + zlen (entries rc)) by lia.
    apply (insert_slot rc name data len c' _ (entries rc) [] dst); try done; try zlia; try congruence.
    + by rewrite app_nil_r.
    + intros k j Hj%Hidx. lia.
Qed.

(** Reading a cached name: the bytes inserted for it; the rest of the cache only
    changes its recency order. *)
Lemma ReadFromCache_spec rc name bs :
  rc_wf rc → holds rc name bs →
  ∃ b rc', ReadFromCache name rc = Ok (b, rc') ∧ bread b 0 (zlen bs) = bs ∧ rc_wf rc' ∧
    cacheSize_ rc' = cacheSize_ rc ∧ containerPool_ rc' = containerPool_ rc ∧
    (∀ n, a_lookup n (entries rc') = a_lookup n (entries rc)).
Proof.
  intros Hrc (i & b & Hi & Hb & Hbs). pose proof Hrc as [Hwf Hmax Hel Hpos Hpool Hcur Hfull Hnd Hidx].
  pose proof (get_refines name (readCache_ rc) Hwf) as Hg. rewrite Hi in Hg.
  destruct Hg as (c' & Hg & Hwf' & Habs). unfold ReadFromCache. rewrite Hg. simpl. rewrite Hb.
  assert (Hp : (name, i) :: a_remove name (entries rc) ≡ₚ entries rc) 
    by (apply a_lookup_perm; [apply absr_keys|]; done).
  assert (Hc : maxSize_ c' = maxSize_ (readCache_ rc) ∧ elasticity_ c' = elasticity_ (readCache_ rc)).
  { revert Hg. unfold get_. destruct (cache_ _ !! _); [|done].
    destruct (deref _ _); [|done]. by intros [= _ <-]. }
  destruct Hc as [Hc1 Hc2]. eexists b, _. split_and!; [done|done| |done|done|].
  - split; simpl; rewrite ?Hc1, ?Hc2, ?Habs; try done.
    + unfold zlen in *. by rewrite Hp.
    + unfold zlen in *. by rewrite Hp.
    + by rewrite Hp.
    + intros k j. rewrite Hp. apply Hidx.
  - intros n. simpl. rewrite Habs, a_lookup_cons. case_decide as E; [by subst|].
    by apply a_lookup_remove.
Qed.

(** The constructor establishes the invariant; nothing is cached. *)
Lemma new_ReadCache_wf config malloc_ : 1 ≤ GetReadCacheSize config < 2 ^ 32 →
  rc_wf (new_ReadCache config malloc_) ∧ ∀ name, ExistsInCache name (new_ReadCache config malloc_) = false.
Proof.
  intros Hn. destruct (new_Cache_wf (K:=bytes) (V:=Z) (GetReadCacheSize config) 0) as [Hwf Habs].
  assert (He : entries (new_ReadCache config malloc_) = []) by done. split.
  - split; try done; rewrite ?He.
    + unfold new_ReadCache. simpl. rewrite zlen_fmap. unfold zlen. rewrite length_seq. lia.
    + rewrite zlen_nil. simpl. lia.
    + constructor.
    + by intros k i ?%elem_of_nil.
  - intros name. unfold ExistsInCache. by rewrite contains_spec.
Qed.
