(* ===== verification/Queue.v ===== *)
(** * The container queue (include/messageQueue/readerwriterqueue.h)

    What [MessageQueue] wraps: a single-producer single-consumer queue, a ring of blocks,
    each a circular buffer.  The two roles are modelled as sequences of atomic steps
    on the shared blocks (under sequential consistency: fences are no steps), so that
    the theorems are about every interleaving; a call without interference is the
    same steps in a row. *)
From Stdlib Require Import ZArith Lia.
From stdpp Require Import base tactics numbers list gmap.
From S2P Require Import Prelude.
#[local] Open Scope Z_scope.

Definition MAX_BLOCK_SIZE : Z := 512.

(** [ceilToPow2], on [size_t]. *)
Definition smear (x k : Z) : Z := Z.lor x (Z.shiftr x k).
Definition ceilToPow2 (x : Z) : Z :=
  let x := u64 (x - 1) in
  let x := smear x 1 in
  let x := smear x 2 in
  let x := smear x 4 in
  let x := smear x (Z.shiftl 1 3) in
  let x := smear x (Z.shiftl 2 3) in
  let x := smear x (Z.shiftl 4 3) in
  u64 (x + 1).

Section ReaderWriterQueue.
Context {T : Type}.

(** A block; pointers to blocks are indices, [data] has the slots that hold an object
    (a slot without one must not be read). *)
Record Block := {
  front : Z; localTail : Z; tail : Z; localFront : Z; next : nat; data : gmap Z T; sizeMask : Z }.

Record ReaderWriterQueue := {
  blocks : list Block; frontBlock : nat; tailBlock : nat; largestBlockSize : Z }.

Definition with_front (v : Z) (b : Block) : Block :=
  {| front := v; localTail := localTail b; tail := tail b; localFront := localFront b; next := next b;
     data := data b; sizeMask := sizeMask b |}.
Definition with_localTail (v : Z) (b : Block) : Block :=
  {| front := front b; localTail := v; tail := tail b; localFront := localFront b; next := next b;
     data := data b; sizeMask := sizeMask b |}.
Definition with_tail (v : Z) (b : Block) : Block :=
  {| front := front b; localTail := localTail b; tail := v; localFront := localFront b; next := next b;
     data := data b; sizeMask := sizeMask b |}.
Definition with_localFront (v : Z) (b : Block) : Block :=
  {| front := front b; localTail := localTail b; tail := tail b; localFront := v; next := next b;
     data := data b; sizeMask := sizeMask b |}.
Definition with_next (v : nat) (b : Block) : Block :=
  {| front := front b; localTail := localTail b; tail := tail b; localFront := localFront b; next := v;
     data := data b; sizeMask := sizeMask b |}.
Definition with_data (v : gmap Z T) (b : Block) : Block :=
  {| front := front b; localTail := localTail b; tail := tail b; localFront := localFront b; next := next b;
     data := v; sizeMask := sizeMask b |}.

(** Access through a pointer. *)
Definition load (i : nat) (q : ReaderWriterQueue) : result Block :=
  match blocks q !! i with Some b => Ok b | None => Err UB end.
Definition store (i : nat) (b : Block) (q : ReaderWriterQueue) : ReaderWriterQueue :=
  {| blocks := <[i := b]> (blocks q); frontBlock := frontBlock q; tailBlock := tailBlock q;
     largestBlockSize := largestBlockSize q |}.
Definition set_frontBlock (i : nat) (q : ReaderWriterQueue) : ReaderWriterQueue :=
  {| blocks := blocks q; frontBlock := i; tailBlock := tailBlock q; largestBlockSize := largestBlockSize q |}.
Definition set_tailBlock (i : nat) (q : ReaderWriterQueue) : ReaderWriterQueue :=
  {| blocks := blocks q; frontBlock := frontBlock q; tailBlock := i; largestBlockSize := largestBlockSize q |}.

(** The slot after [i]. *)
Definition succ_slot (i : Z) (b : Block) : Z := Z.land (u64 (i + 1)) (sizeMask b).

(** ** Construction *)

(** [make_block]; the callers set [next] before anything else. *)
Definition make_block (capacity : Z) (next_ : nat) : Block :=
  {| front := 0; localTail := 0; tail := 0; localFront := 0; next := next_; data := ∅;
     sizeMask := u64 (capacity - 1) |}.

(** The loop of the constructor, for large sizes; [malloc_ i] says whether the [i]-th
    allocation succeeds. *)
Fixpoint init_blocks (malloc_ : nat → bool) (n : nat) (bs : list Block) : result (list Block) :=
  match n with
  | O => Ok bs
  | S n =>
      let i := length bs in
      check (malloc_ i) EXCEPTION ;;
      let bs := alter (with_next i) (pred i) bs in
      init_blocks malloc_ n (bs ++ [make_block MAX_BLOCK_SIZE 0])
  end.

Definition new_ReaderWriterQueue (malloc_ : nat → bool) (size : Z) : result ReaderWriterQueue :=
  let largest := ceilToPow2 (u64 (size + 1)) in
  if largest >? MAX_BLOCK_SIZE * 2 then
    let initialBlockCount := u64 (size + MAX_BLOCK_SIZE * 2 - 3) / (MAX_BLOCK_SIZE - 1) in
    bs ← init_blocks malloc_ (Z.to_nat initialBlockCount) [];
    Ok {| blocks := bs; frontBlock := 0; tailBlock := 0; largestBlockSize := MAX_BLOCK_SIZE |}
  else
    check (malloc_ 0%nat) EXCEPTION ;;
    Ok {| blocks := [make_block largest 0]; frontBlock := 0; tailBlock := 0; largestBlockSize := largest |}.

(** ** The consumer: [try_dequeue]

    One step is one access to the shared part (or a few accesses to what the consumer
    owns).  An [assert] that fails is undefined behaviour. *)
Inductive cpc :=
| C_start
| C_tail (fb : nat) (blockFront : Z)        (* read [tail], the shadow copy being spent *)
| C_tailBlock (fb : nat)                    (* read [tailBlock] *)
| C_recheck                                 (* read [tail] again *)
| C_next (fb : nat)                         (* read the next block *)
| C_advance (nb : nat) (nextFront : Z)      (* move [frontBlock] *)
| C_take (fb : nat) (blockFront : Z)        (* move the element out and destroy it *)
| C_store (fb : nat) (blockFront : Z) (v : T) (* publish [front] *)
| C_ret (r : option T).

Definition cstep (pc : cpc) (q : ReaderWriterQueue) : result (ReaderWriterQueue * cpc) :=
  match pc with
  | C_start =>
      let fb := frontBlock q in
      b ← load fb q;
      if negb (front b =? localTail b) then Ok (q, C_take fb (front b)) else Ok (q, C_tail fb (front b))
  | C_tail fb blockFront =>
      b ← load fb q;
      let q := store fb (with_localTail (tail b) b) q in
      if negb (blockFront =? tail b) then Ok (q, C_take fb blockFront) else Ok (q, C_tailBlock fb)
  | C_tailBlock fb =>
      if negb (fb =? tailBlock q)%nat then Ok (q, C_recheck) else Ok (q, C_ret None)
  | C_recheck =>
      let fb := frontBlock q in
      b ← load fb q;
      let q := store fb (with_localTail (tail b) b) q in
      if negb (front b =? tail b) then Ok (q, C_take fb (front b)) else Ok (q, C_next fb)
  | C_next fb =>
      b ← load fb q;
      let nb := next b in
      b' ← load nb q;
      let q := store nb (with_localTail (tail b') b') q in
      check (negb (front b' =? tail b')) UB ;;
      Ok (q, C_advance nb (front b'))
  | C_advance nb nextFront => Ok (set_frontBlock nb q, C_take nb nextFront)
  | C_take fb blockFront =>
      b ← load fb q;
      match data b !! blockFront with
      | None => Err UB
      | Some v => Ok (store fb (with_data (delete blockFront (data b)) b) q, C_store fb blockFront v)
      end
  | C_store fb blockFront v =>
      b ← load fb q;
      Ok (store fb (with_front (succ_slot blockFront b) b) q, C_ret (Some v))
  | C_ret r => Ok (q, C_ret r)
  end.

Fixpoint crun (fuel : nat) (pc : cpc) (q : ReaderWriterQueue) : result (option T * ReaderWriterQueue) :=
  match pc with
  | C_ret r => Ok (r, q)
  | _ => match fuel with O => Err UB | S fuel => '(q, pc) ← cstep pc q; crun fuel pc q end
  end.
(** The longest path has eight steps. *)
Definition try_dequeue (q : ReaderWriterQueue) : result (option T * ReaderWriterQueue) := crun 8 C_start q.
(** The same code, with the element destroyed instead of moved out. *)
Definition pop (q : ReaderWriterQueue) : result (bool * ReaderWriterQueue) :=
  '(r, q) ← try_dequeue q; Ok (bool_decide (is_Some r), q).

(** [peek], without interference: the front element stays. *)
Definition peek (q : ReaderWriterQueue) : result (option T * ReaderWriterQueue) :=
  let elem b i := match data b !! i with Some v => Ok (Some v) | None => Err UB end in
  let fb := frontBlock q in
  b ← load fb q;
  if negb (front b =? localTail b) then v ← elem b (front b); Ok (v, q)
  else
    let q := store fb (with_localTail (tail b) b) q in
    if negb (front b =? tail b) then v ← elem b (front b); Ok (v, q)
    else if negb (fb =? tailBlock q)%nat then
      b' ← load (next b) q;
      check (negb (front b' =? tail b')) UB ;;
      v ← elem b' (front b'); Ok (v, q)
    else Ok (None, q).

(** ** The producer: [inner_enqueue] *)
Inductive ppc :=
| P_start (canAlloc : bool) (x : T)
| P_check (canAlloc : bool) (x : T) (tb : nat) (blockTail nextTail : Z)  (* read [front] *)
| P_write (x : T) (tb : nat) (blockTail nextTail : Z)   (* construct the element *)
| P_store (x : T) (tb : nat) (nextTail : Z)             (* publish [tail] *)
| P_full (canAlloc : bool) (x : T) (tb : nat)           (* read [frontBlock] *)
| P_next (x : T) (tb : nat)                             (* construct the element in the next block *)
| P_next_store (x : T) (nb : nat) (nextTail : Z)        (* set its [tail] *)
| P_alloc (x : T) (tb : nat)                            (* make a block, link it behind the tail block *)
| P_publish (x : T) (nb : nat)                          (* move [tailBlock] *)
| P_ret (ok : bool).

(** [mem]: whether an allocation of this step succeeds. *)
Definition pstep (mem : bool) (pc : ppc) (q : ReaderWriterQueue) : result (ReaderWriterQueue * ppc) :=
  match pc with
  | P_start canAlloc x =>
      let tb := tailBlock q in
      b ← load tb q;
      let nextTail := succ_slot (tail b) b in
      if negb (nextTail =? localFront b) then Ok (q, P_write x tb (tail b) nextTail)
      else Ok (q, P_check canAlloc x tb (tail b) nextTail)
  | P_check canAlloc x tb blockTail nextTail =>
      b ← load tb q;
      let q := store tb (with_localFront (front b) b) q in
      if negb (nextTail =? front b) then Ok (q, P_write x tb blockTail nextTail) else Ok (q, P_full canAlloc x tb)
  | P_write x tb blockTail nextTail =>
      b ← load tb q;
      Ok (store tb (with_data (<[blockTail := x]> (data b)) b) q, P_store x tb nextTail)
  | P_store x tb nextTail => b ← load tb q; Ok (store tb (with_tail nextTail b) q, P_ret true)
  | P_full canAlloc x tb =>
      b ← load tb q;
      if negb (next b =? frontBlock q)%nat then Ok (q, P_next x tb)
      else if canAlloc then Ok (q, P_alloc x tb) else Ok (q, P_ret false)
  | P_next x tb =>
      b ← load tb q;
      let nb := next b in
      b' ← load nb q;
      check (front b' =? tail b') UB ;;
      let b' := with_localFront (front b') b' in
      Ok (store nb (with_data (<[tail b' := x]> (data b')) b') q, P_next_store x nb (succ_slot (tail b') b'))
  | P_next_store x nb nextTail => b ← load nb q; Ok (store nb (with_tail nextTail b) q, P_publish x nb)
  | P_alloc x tb =>
      let newBlockSize := if largestBlockSize q >=? MAX_BLOCK_SIZE then largestBlockSize q
                          else u64 (largestBlockSize q * 2) in
      if mem then
        b ← load tb q;
        let nb := length (blocks q) in
        let newBlock := with_data {[ 0 := x ]} (with_localTail 1 (with_tail 1 (make_block newBlockSize (next b)))) in
        let q := store tb (with_next nb b) q in
        Ok ({| blocks := blocks q ++ [newBlock]; frontBlock := frontBlock q; tailBlock := tailBlock q;
               largestBlockSize := newBlockSize |}, P_publish x nb)
      else Ok (q, P_ret false)
  | P_publish x nb => Ok (set_tailBlock nb q, P_ret true)
  | P_ret ok => Ok (q, P_ret ok)
  end.

Fixpoint prun (fuel : nat) (mem : bool) (pc : ppc) (q : ReaderWriterQueue) : result (bool * ReaderWriterQueue) :=
  match pc with
  | P_ret ok => Ok (ok, q)
  | _ => match fuel with O => Err UB | S fuel => '(q, pc) ← pstep mem pc q; prun fuel mem pc q end
  end.
(** The longest path has six steps. *)
Definition inner_enqueue (canAlloc mem : bool) (x : T) (q : ReaderWriterQueue) : result (bool * ReaderWriterQueue) :=
  prun 6 mem (P_start canAlloc x) q.
Definition try_enqueue (x : T) (q : ReaderWriterQueue) := inner_enqueue false false x q.
Definition enqueue (mem : bool) (x : T) (q : ReaderWriterQueue) := inner_enqueue true mem x q.

(** ** Sizes: a walk around the ring *)
Fixpoint ring_sum (fuel : nat) (f : Block → Z) (block : nat) (acc : Z) (q : ReaderWriterQueue) : result Z :=
  match fuel with
  | O => Err UB
  | S fuel =>
      b ← load block q;
      let acc := u64 (acc + f b) in
      if (next b =? frontBlock q)%nat then Ok acc else ring_sum fuel f (next b) acc q
  end.
Definition size_approx (q : ReaderWriterQueue) : result Z :=
  ring_sum (length (blocks q)) (λ b, Z.land (u64 (tail b - front b)) (sizeMask b)) (frontBlock q) 0 q.
Definition max_capacity (q : ReaderWriterQueue) : result Z :=
  ring_sum (length (blocks q)) sizeMask (frontBlock q) 0 q.

(** ** The destructor, and moving

    Neither may run while another thread uses the queue.  The elements left in a block
    are destroyed, a slot without one must not be touched; then the block is freed, and
    reading [freed] memory is undefined.  The result: what was destroyed and what was
    freed, in order. *)
Fixpoint destroy_slots (fuel : nat) (i blockTail : Z) (b : Block) : result (list T) :=
  if i =? blockTail then Ok []
  else
    match fuel, data b !! i with
    | S fuel, Some v => l ← destroy_slots fuel (succ_slot i b) blockTail b; Ok (v :: l)
    | _, _ => Err UB
    end.
Fixpoint destroy_blocks (fuel : nat) (block : nat) (freed : list nat) (q : ReaderWriterQueue) : result (list T * list nat) :=
  match fuel with
  | O => Err UB
  | S fuel =>
      check (negb (bool_decide (block ∈ freed))) UB ;;
      b ← load block q;
      l ← destroy_slots (Z.to_nat (sizeMask b)) (front b) (tail b) b;
      let freed := freed ++ [block] in
      if (next b =? frontBlock q)%nat then Ok (l, freed)
      else '(l', freed) ← destroy_blocks fuel (next b) freed q; Ok (l ++ l', freed)
  end.
Definition destroy_ReaderWriterQueue (q : ReaderWriterQueue) : result (list T * list nat) :=
  destroy_blocks (length (blocks q)) (frontBlock q) [] q.

(** The moved-to queue takes the blocks, the moved-from one gets a new block of 32;
    assigning exchanges the two. *)
Definition move_ReaderWriterQueue (mem : bool) (other : ReaderWriterQueue) : result (ReaderWriterQueue * ReaderWriterQueue) :=
  check mem EXCEPTION ;;
  Ok (other, {| blocks := [make_block 32 0]; frontBlock := 0; tailBlock := 0; largestBlockSize := 32 |}).
Definition assign_ReaderWriterQueue (q other : ReaderWriterQueue) : ReaderWriterQueue * ReaderWriterQueue := (other, q).
End ReaderWriterQueue.
Arguments Block : clear implicits.
Arguments ReaderWriterQueue : clear implicits.
Arguments cpc : clear implicits.
Arguments ppc : clear implicits.

(** ** Circular buffers *)

(** Distances and successors in a ring of [n] slots. *)
Definition dist (n a b : Z) : Z := (b - a) mod n.
Definition nxt (n a : Z) : Z := (a + 1) mod n.

Lemma dist_cases n a b : 0 ≤ a < n → 0 ≤ b < n →
  (a ≤ b ∧ dist n a b = b - a) ∨ (b < a ∧ dist n a b = b - a + n).
Proof.
  intros. unfold dist. destruct (Z.le_gt_cases a b); [left|right]; split; try lia.
  - by rewrite Z.mod_small by lia.
  - rewrite <- (Z_mod_plus_full _ 1), Z.mod_small; lia.
Qed.
Lemma nxt_cases n a : 0 ≤ a < n → (a + 1 < n ∧ nxt n a = a + 1) ∨ (a + 1 = n ∧ nxt n a = 0).
Proof.
  intros. unfold nxt. destruct (Z.lt_ge_cases (a + 1) n); [left|right]; split; try lia.
  - by rewrite Z.mod_small by lia.
  - replace (a + 1) with n by lia. apply Z.mod_same. lia.
Qed.

(** Case analysis on all distances and successors in sight, then [lia]. *)
Ltac cyc :=
  repeat match goal with
  | |- context [dist ?n ?a ?b] => destruct (dist_cases n a b) as [[? ->]|[? ->]]; [lia|lia|..]
  | H : context [dist ?n ?a ?b] |- _ =>
      let E := fresh "E" in destruct (dist_cases n a b) as [[? E]|[? E]]; [lia|lia|rewrite E in *; clear E..]
  | |- context [nxt ?n ?a] => destruct (nxt_cases n a) as [[? ->]|[? ->]]; [lia|..]
  | H : context [nxt ?n ?a] |- _ =>
      let E := fresh "E" in destruct (nxt_cases n a) as [[? E]|[? E]]; [lia|rewrite E in *; clear E..]
  end; try lia.

Lemma slot_inj n f i j : 0 ≤ i < n → 0 ≤ j < n → (f + i) mod n = (f + j) mod n → i = j.
Proof.
  intros Hi Hj E.
  assert (Hm : ∀ k, 0 ≤ k < n → ((f + k) mod n - f) mod n = k).
  { intros k Hk. rewrite Zminus_mod_idemp_l. replace (f + k - f) with k by lia. by apply Z.mod_small. }
  rewrite <- (Hm i Hi), E. by apply Hm.
Qed.

Section Blocks.
Context {T : Type}.
Implicit Types (b : Block T) (q : ReaderWriterQueue T).

Definition slots b : Z := sizeMask b + 1.
Definition count b : Z := dist (slots b) (front b) (tail b).
Definition contents b : list (option T) :=
  (λ i, data b !! ((front b + Z.of_nat i) mod slots b)) <$> seq 0 (Z.to_nat (count b)).

(** The indices of a block: the shadow copies lag behind the values they shadow. *)
Record block_wf b : Prop := {
  bw_pow : ∃ k, 1 ≤ k < 64 ∧ sizeMask b = Z.ones k;
  bw_front : 0 ≤ front b < slots b;
  bw_tail : 0 ≤ tail b < slots b;
  bw_localTail : 0 ≤ localTail b < slots b;
  bw_localFront : 0 ≤ localFront b < slots b;
  bw_lt : dist (slots b) (front b) (localTail b) ≤ count b;
  bw_lf : dist (slots b) (localFront b) (front b) + count b = dist (slots b) (localFront b) (tail b) }.

Lemma bw_slots b : block_wf b → 2 ≤ slots b ≤ 2 ^ 63.
Proof.
  intros [(k & Hk & E) _ _ _ _ _ _]. unfold slots. rewrite E, Z.ones_equiv.
  assert (2 ^ 1 ≤ 2 ^ k) by (apply Z.pow_le_mono_r; lia).
  assert (2 ^ k ≤ 2 ^ 63) by (apply Z.pow_le_mono_r; lia). lia.
Qed.

Lemma succ_slot_nxt b i : block_wf b → 0 ≤ i < slots b → succ_slot i b = nxt (slots b) i.
Proof.
  intros Hb Hi. pose proof (bw_slots b Hb). destruct Hb as [(k & Hk & E) _ _ _ _ _ _]. unfold succ_slot, nxt.
  rewrite u64_small by lia. unfold slots in *. rewrite E, Z.land_ones by lia. f_equal. rewrite Z.ones_equiv. lia.
Qed.

Lemma count_range b : block_wf b → 0 ≤ count b < slots b.
Proof. intros Hb. pose proof (bw_slots b Hb). destruct Hb. unfold count. cyc. Qed.

Lemma count_0 b : block_wf b → count b = 0 ↔ front b = tail b.
Proof. intros Hb. pose proof (bw_slots b Hb). destruct Hb. unfold count. split; intros; cyc. Qed.

Lemma contents_nil b : block_wf b → contents b = [] ↔ front b = tail b.
Proof.
  intros Hb. rewrite <- (count_0 b Hb). pose proof (count_range b Hb). unfold contents. split.
  - intros E%(f_equal length). rewrite length_fmap, length_seq in E. simpl in E. lia.
  - intros ->. done.
Qed.

Lemma length_contents b : block_wf b → Z.of_nat (length (contents b)) = count b.
Proof. intros Hb. pose proof (count_range b Hb). unfold contents. rewrite length_fmap, length_seq. lia. Qed.

Lemma tail_slot b : block_wf b → (front b + count b) mod slots b = tail b.
Proof.
  intros Hb. pose proof (bw_slots b Hb). destruct Hb. unfold count, dist. rewrite Zplus_mod_idemp_r.
  replace (front b + (tail b - front b)) with (tail b) by lia. by apply Z.mod_small.
Qed.

(** A write to the slot at [tail] is not visible. *)
Lemma contents_write b x : block_wf b → contents (with_data (<[tail b := x]> (data b)) b) = contents b.
Proof.
  intros Hb. unfold contents, count, slots. simpl. fold (slots b) (count b). apply list_fmap_ext.
  intros i j Hj%lookup_seq. destruct Hj as [-> Hj]. simpl. rewrite lookup_insert_ne; [done|].
  rewrite <- (tail_slot b Hb). intros E%slot_inj; pose proof (count_range b Hb); lia.
Qed.

(** Publishing [tail] appends the element written there. *)
Lemma contents_push b x : block_wf b → count b + 1 < slots b → data b !! tail b = Some x →
  contents (with_tail (nxt (slots b) (tail b)) b) = contents b ++ [Some x].
Proof.
  intros Hb Hc Hx. pose proof (bw_slots b Hb). pose proof (count_range b Hb). unfold contents.
  assert (Hn : count (with_tail (nxt (slots b) (tail b)) b) = count b + 1).
  { destruct Hb. unfold count, slots in *. simpl in *. cyc. }
  rewrite Hn, Z2Nat.inj_add, Nat.add_1_r, seq_S, fmap_app by lia. f_equal. simpl. do 2 f_equal.
  rewrite Z2Nat.id by lia. rewrite <- Hx. f_equal. exact (tail_slot b Hb).
Qed.

(** Taking the front element out, and moving [front] on. *)
Lemma contents_front b : block_wf b → front b ≠ tail b →
  ∃ rest, contents b = data b !! front b :: rest ∧
    contents (with_data (delete (front b) (data b)) b) = None :: rest.
Proof.
  intros Hb Hne. pose proof (count_range b Hb) as Hc.
  assert (0 < count b) by (pose proof (proj1 (count_0 b Hb)); lia).
  unfold contents, count, slots. simpl. fold (slots b) (count b).
  destruct (Z.to_nat (count b)) as [|n] eqn:E; [lia|]. rewrite <- cons_seq, !fmap_cons. simpl.
  assert (Hf : (front b + 0) mod slots b = front b) by (destruct Hb; rewrite Z.add_0_r; by apply Z.mod_small).
  change (Z.of_nat 0) with 0. rewrite Hf, lookup_delete_eq. eexists. split; [done|]. f_equal. apply list_fmap_ext.
  intros i j Hj%lookup_seq. destruct Hj as [-> Hj]. rewrite lookup_delete_ne; [done|].
  rewrite <- Hf at 1. intros E'%slot_inj; lia.
Qed.

Lemma contents_pop b : block_wf b → front b ≠ tail b →
  contents (with_front (nxt (slots b) (front b)) b) = list.tail (contents b).
Proof.
  intros Hb Hne. pose proof (count_range b Hb). pose proof (bw_slots b Hb).
  assert (Hn : count (with_front (nxt (slots b) (front b)) b) = count b - 1 ∧ 0 < count b).
  { destruct Hb. unfold count, slots in *. simpl in *. cyc. }
  destruct Hn as [Hn Hpos]. unfold contents. rewrite Hn. simpl.
  replace (Z.to_nat (count b)) with (S (Z.to_nat (count b - 1))) by lia.
  rewrite <- cons_seq, fmap_cons, <- fmap_S_seq, <- list_fmap_compose. simpl.
  apply list_fmap_ext. intros i j _. simpl. unfold slots at 1. simpl. fold (slots b). f_equal. unfold nxt.
  rewrite Zplus_mod_idemp_l. f_equal. lia.
Qed.
End Blocks.

