(* ===== verification/QueueThreads.v ===== *)
(** * Two threads on the container queue

    Every interleaving of one producer and one consumer of the queue of [Queue.v]: no
    step goes wrong, and the elements come out in the order in which they went in. *)
From Stdlib Require Import ZArith Lia.
From stdpp Require Import base tactics numbers list gmap.
From S2P Require Import Prelude Queue.
#[local] Open Scope Z_scope.

(** ** Two threads

    The producer thread calls [inner_enqueue] in either mode, the consumer thread
    [try_dequeue], again and again; a configuration also records the elements whose
    enqueue or dequeue took effect, and whether the queue has been empty at some
    moment since the current dequeue began. *)
Section Concurrent.
Context {T : Type}.
Implicit Types (b : Block T) (q : ReaderWriterQueue T).

Record config := {
  c_q : ReaderWriterQueue T; c_p : option (ppc T); c_c : option (cpc T);
  enqueued : list T; dequeued : list T; empty_seen : bool }.

(** The element the next step of a thread publishes or removes. *)
Definition p_effect (pc : ppc T) : list T :=
  match pc with P_store x _ _ | P_publish x _ => [x] | _ => [] end.
Definition c_effect (pc : cpc T) : list T := match pc with C_store _ _ v => [v] | _ => [] end.
Definition is_empty (e d : list T) : bool := (length e =? length d)%nat.

Inductive step : config → config → Prop :=
| call_enqueue canAlloc x q c e d s :
    step {| c_q := q; c_p := None; c_c := c; enqueued := e; dequeued := d; empty_seen := s |}
         {| c_q := q; c_p := Some (P_start canAlloc x); c_c := c; enqueued := e; dequeued := d; empty_seen := s |}
| step_enqueue mem pc q q' pc' c e d s :
    pstep mem pc q = Ok (q', pc') →
    step {| c_q := q; c_p := Some pc; c_c := c; enqueued := e; dequeued := d; empty_seen := s |}
         {| c_q := q'; c_p := Some pc'; c_c := c; enqueued := e ++ p_effect pc; dequeued := d;
            empty_seen := s || is_empty (e ++ p_effect pc) d |}
| ret_enqueue ok q c e d s :
    step {| c_q := q; c_p := Some (P_ret ok); c_c := c; enqueued := e; dequeued := d; empty_seen := s |}
         {| c_q := q; c_p := None; c_c := c; enqueued := e; dequeued := d; empty_seen := s |}
| call_dequeue q p e d s :
    step {| c_q := q; c_p := p; c_c := None; enqueued := e; dequeued := d; empty_seen := s |}
         {| c_q := q; c_p := p; c_c := Some C_start; enqueued := e; dequeued := d; empty_seen := is_empty e d |}
| step_dequeue pc q q' pc' p e d s :
    cstep pc q = Ok (q', pc') →
    step {| c_q := q; c_p := p; c_c := Some pc; enqueued := e; dequeued := d; empty_seen := s |}
         {| c_q := q'; c_p := p; c_c := Some pc'; enqueued := e; dequeued := d ++ c_effect pc;
            empty_seen := s || is_empty e (d ++ c_effect pc) |}
| ret_dequeue r q p e d s :
    step {| c_q := q; c_p := p; c_c := Some (C_ret r); enqueued := e; dequeued := d; empty_seen := s |}
         {| c_q := q; c_p := p; c_c := None; enqueued := e; dequeued := d; empty_seen := s |}.

(** *** The ring *)

(** Following [next] through the blocks of [l] leads to [e]. *)
Fixpoint chain (bs : list (Block T)) (l : list nat) (e : nat) : Prop :=
  match l with
  | [] => True
  | x :: l => (∃ b, bs !! x = Some b ∧ next b = hd e l) ∧ chain bs l e
  end.

Lemma chain_app bs l k e : chain bs (l ++ k) e ↔ chain bs l (hd e k) ∧ chain bs k e.
Proof.
  induction l as [|x l IH]; simpl; [tauto|]. rewrite IH.
  replace (hd e (l ++ k)) with (hd (hd e k) l) by (by destruct l). tauto.
Qed.

Lemma chain_mono bs bs' l e : chain bs l e →
  (∀ x b, x ∈ l → bs !! x = Some b → ∃ b', bs' !! x = Some b' ∧ next b' = next b) → chain bs' l e.
Proof.
  induction l as [|x l IH]; simpl; [done|]. intros [(b & Hb & Hn) Hl] Hm. split; [|set_solver].
  destruct (Hm x b) as (b' & Hb' & E); [set_solver|done|]. exists b'. split; [done|congruence].
Qed.

(** The ring from the front block on: up to the tail block, and the free blocks
    behind it; no block is outside. *)
Record ring_ok q (rest free : list nat) : Prop := {
  rk_nodup : NoDup (frontBlock q :: rest ++ free);
  rk_range : ∀ i, i ∈ frontBlock q :: rest ++ free → (i < length (blocks q))%nat;
  rk_chain : chain (blocks q) (frontBlock q :: rest ++ free) (frontBlock q);
  rk_last : last (frontBlock q :: rest) = Some (tailBlock q);
  rk_wf : ∀ i b, blocks q !! i = Some b → block_wf b;
  rk_largest : ∃ k, 1 ≤ k ≤ 10 ∧ largestBlockSize q = 2 ^ k;
  rk_all : length (blocks q) = S (length (rest ++ free)) }.

Definition holds q (i : nat) (l : list T) : Prop :=
  ∃ b, blocks q !! i = Some b ∧ contents b = Some <$> l.

(** The elements: [lf] in the front block, a non-empty list in every other block up to
    the tail block, none in the free blocks.  A dequeue that has moved its element out
    still counts it; an enqueue that is about to publish the next block does not. *)
Definition front_holds q (cp : option (cpc T)) (lf : list T) : Prop :=
  match cp with
  | Some (C_store _ _ v) => ∃ b l, blocks q !! frontBlock q = Some b ∧ contents b = None :: (Some <$> l) ∧ lf = v :: l
  | _ => holds q (frontBlock q) lf
  end.
Definition unused (pp : option (ppc T)) (free : list nat) : list nat :=
  match pp with Some (P_publish _ _) => list.tail free | _ => free end.

Record content_ok q pp cp (lf : list T) (ls : list (list T)) (rest free : list nat) : Prop := {
  ct_front : front_holds q cp lf;
  ct_rest : Forall2 (λ i l, holds q i l ∧ l ≠ []) rest ls;
  ct_free : Forall (λ i, holds q i []) (unused pp free) }.

(** What a thread knows between two steps. *)
Definition c_ok q (rest : list nat) (s : bool) (pc : cpc T) : Prop :=
  let f := frontBlock q in
  match pc with
  | C_start | C_ret (Some _) => True
  | C_ret None => s = true
  | C_tail fb bf => fb = f ∧ ∃ b, blocks q !! f = Some b ∧ front b = bf
  | C_tailBlock fb => fb = f ∧ (rest = [] → s = true)
  | C_recheck => rest ≠ []
  | C_next fb => fb = f ∧ rest ≠ [] ∧ ∃ b, blocks q !! f = Some b ∧ front b = tail b
  | C_advance nb nf => ∃ b b' rest', blocks q !! f = Some b ∧ front b = tail b ∧ rest = nb :: rest' ∧
      blocks q !! nb = Some b' ∧ front b' = nf ∧ localTail b' ≠ nf
  | C_take fb bf | C_store fb bf _ => fb = f ∧ ∃ b, blocks q !! f = Some b ∧ front b = bf ∧ localTail b ≠ bf
  end.

Definition p_ok q (free : list nat) (pc : ppc T) : Prop :=
  let t := tailBlock q in
  match pc with
  | P_start _ _ | P_ret _ => True
  | P_check _ _ tb bt nt => tb = t ∧ ∃ b, blocks q !! t = Some b ∧ tail b = bt ∧ nt = nxt (slots b) bt
  | P_write _ tb bt nt => tb = t ∧
      ∃ b, blocks q !! t = Some b ∧ tail b = bt ∧ nt = nxt (slots b) bt ∧ nt ≠ localFront b
  | P_store x tb nt => tb = t ∧ ∃ b, blocks q !! t = Some b ∧ nt = nxt (slots b) (tail b) ∧
      nt ≠ localFront b ∧ data b !! tail b = Some x
  | P_full _ _ tb | P_alloc _ tb => tb = t
  | P_next _ tb => tb = t ∧ free ≠ []
  | P_next_store x nb nt => ∃ free' b, free = nb :: free' ∧ blocks q !! nb = Some b ∧ front b = tail b ∧
      localFront b = tail b ∧ nt = nxt (slots b) (tail b) ∧ data b !! tail b = Some x
  | P_publish x nb => ∃ free', free = nb :: free' ∧ holds q nb [x]
  end.

Definition inv (c : config) : Prop :=
  ∃ rest free lf ls, ring_ok (c_q c) rest free ∧ content_ok (c_q c) (c_p c) (c_c c) lf ls rest free ∧
    (∀ pc, c_p c = Some pc → p_ok (c_q c) free pc) ∧ (∀ pc, c_c c = Some pc → c_ok (c_q c) rest (empty_seen c) pc) ∧
    enqueued c = dequeued c ++ lf ++ concat ls.

(** *** Frame lemmas *)

Lemma lookup_store_eq q i b b' : blocks q !! i = Some b → blocks (store i b' q) !! i = Some b'.
Proof. intros H%lookup_lt_Some. by apply list_lookup_insert_eq. Qed.
Lemma lookup_store_ne q i b' j : i ≠ j → blocks (store i b' q) !! j = blocks q !! j.
Proof. apply list_lookup_insert_ne. Qed.

Lemma holds_store q i b b' j l : blocks q !! i = Some b → contents b' = contents b → holds q j l → holds (store i b' q) j l.
Proof.
  intros Hi Hc (bj & Hj & Hl). destruct (decide (i = j)) as [->|].
  - exists b'. split; [by eapply lookup_store_eq|congruence].
  - exists bj. split; [by rewrite lookup_store_ne|done].
Qed.
Lemma holds_store_ne q i b' j l : i ≠ j → holds q j l → holds (store i b' q) j l.
Proof. intros Hne (bj & Hj & Hl). exists bj. by rewrite lookup_store_ne. Qed.

Lemma ring_store q rest free i b b' : ring_ok q rest free → blocks q !! i = Some b → next b' = next b → block_wf b' →
  ring_ok (store i b' q) rest free.
Proof.
  intros [Hnd Hr Hch Hla Hwf Hlg Hall] Hi Hn Hw. split; simpl; rewrite ?length_insert; try done.
  - eapply (chain_mono _ _ (_ :: _)); [exact Hch|]. intros x bx _ Hx. destruct (decide (i = x)) as [->|].
    + exists b'. split; [by eapply (lookup_store_eq q)|congruence].
    + exists bx. by rewrite list_lookup_insert_ne.
  - intros j bj. destruct (decide (i = j)) as [<-|].
    + rewrite list_lookup_insert_eq by (by eapply lookup_lt_Some). by intros [= <-].
    + rewrite list_lookup_insert_ne by done. apply Hwf.
Qed.

(** A change that keeps the contents of every block. *)
Definition same_contents q q' : Prop :=
  ∀ i b, blocks q !! i = Some b → ∃ b', blocks q' !! i = Some b' ∧ contents b' = contents b.
Lemma holds_ext q q' i l : same_contents q q' → holds q i l → holds q' i l.
Proof. intros Hs (b & Hb & Hl). destruct (Hs _ _ Hb) as (b' & ? & E). exists b'. by rewrite E. Qed.
Lemma content_ext q q' pp cp lf ls rest free : frontBlock q' = frontBlock q → same_contents q q' →
  content_ok q pp cp lf ls rest free → content_ok q' pp cp lf ls rest free.
Proof.
  intros Hq Hs [Hf Hr He]. split.
  - unfold front_holds in *. rewrite Hq. destruct cp as [[]|]; try by eapply holds_ext.
    destruct Hf as (bf & l & Hbf & Hl & ->). destruct (Hs _ _ Hbf) as (b' & ? & E). exists b', l. by rewrite E.
  - eapply Forall2_impl; [exact Hr|]. intros j l [? ?]. split; [by eapply holds_ext|done].
  - eapply Forall_impl; [exact He|]. intros j ?. by eapply holds_ext.
Qed.

Lemma content_store q pp cp lf ls rest free i b b' : content_ok q pp cp lf ls rest free → blocks q !! i = Some b →
  contents b' = contents b → content_ok (store i b' q) pp cp lf ls rest free.
Proof.
  intros Hct Hi Hc. apply (content_ext q); [done| |exact Hct]. intros j x Hj. destruct (decide (i = j)) as [->|].
  - exists b'. split; [by eapply lookup_store_eq|congruence].
  - exists x. by rewrite lookup_store_ne.
Qed.

Lemma holds_at q i b l : holds q i l → blocks q !! i = Some b → contents b = Some <$> l.
Proof. intros (b' & Hb' & Hl) Hb. congruence. Qed.

(** The front block, the tail block, the others. *)
Lemma ring_front q rest free : ring_ok q rest free →
  ∃ b, blocks q !! frontBlock q = Some b ∧ block_wf b ∧ next b = hd (frontBlock q) (rest ++ free).
Proof. intros [_ _ [(b & Hb & Hn) _] _ Hwf _]. exists b. split_and!; eauto. Qed.

Lemma ring_tail q rest free : ring_ok q rest free →
  ∃ l b, frontBlock q :: rest = l ++ [tailBlock q] ∧ blocks q !! tailBlock q = Some b ∧ block_wf b ∧
    next b = hd (frontBlock q) free.
Proof.
  intros [_ _ Hch Hla Hwf Hlg]. apply last_Some in Hla as [l El]. exists l.
  rewrite app_comm_cons, El, <- app_assoc, chain_app in Hch. destruct Hch as [_ [(b & Hb & Hn) _]].
  exists b. split_and!; eauto.
Qed.

Lemma ring_in q rest free i : ring_ok q rest free → i ∈ rest ++ free → ∃ b, blocks q !! i = Some b ∧ block_wf b.
Proof.
  intros [_ Hr _ _ Hwf _] Hi. destruct (lookup_lt_is_Some_2 (blocks q) i) as [b Hb]; [apply Hr; set_solver|]. eauto.
Qed.

Lemma tail_is_front q rest free : ring_ok q rest free → tailBlock q = frontBlock q ↔ rest = [].
Proof.
  intros [Hnd _ _ Hla _ _]. split; [|intros ->; simpl in Hla; congruence].
  intros E. destruct rest as [|x rest]; [done|]. exfalso.
  rewrite last_cons_cons in Hla. rewrite E in Hla. apply last_Some_elem_of in Hla.
  apply NoDup_cons in Hnd as [Hn _]. apply Hn. set_solver.
Qed.

Lemma tail_not_free q rest free : ring_ok q rest free → tailBlock q ∉ free.
Proof.
  intros [Hnd _ _ Hla _ _] Hin. apply last_Some_elem_of in Hla. rewrite app_comm_cons in Hnd.
  apply NoDup_app in Hnd as (_ & Hd & _). by apply (Hd (tailBlock q)).
Qed.

(** Changing one block changes every block by at most [R]. *)
Lemma ext_store (R : nat → Block T → Block T → Prop) q i b b' :
  (∀ j x, R j x x) → blocks q !! i = Some b → R i b b' →
  ∀ j x, blocks q !! j = Some x → ∃ x', blocks (store i b' q) !! j = Some x' ∧ R j x x'.
Proof.
  intros Hrefl Hi HR j x Hj. destruct (decide (i = j)) as [<-|].
  - exists b'. split; [by eapply lookup_store_eq|]. by simplify_eq.
  - exists x. by rewrite lookup_store_ne.
Qed.

(** What the consumer relies on, and what the producer relies on. *)
Definition c_same q (rest : list nat) (i : nat) b b' : Prop :=
  front b' = front b ∧ localTail b' = localTail b ∧ (i = frontBlock q → rest ≠ [] → tail b' = tail b).
Definition p_same (free : list nat) (i : nat) b b' : Prop :=
  tail b' = tail b ∧ localFront b' = localFront b ∧ sizeMask b' = sizeMask b ∧
  data b' !! tail b = data b !! tail b ∧ (i ∈ free → b' = b).

Lemma c_ok_ext q q' rest s s' pc : c_ok q rest s pc → frontBlock q' = frontBlock q → (s = true → s' = true) →
  (∀ i b, blocks q !! i = Some b → ∃ b', blocks q' !! i = Some b' ∧ c_same q rest i b b') → c_ok q' rest s' pc.
Proof.
  intros Hc Hf Hs Hext. unfold c_ok in *. rewrite Hf. unfold c_same in Hext. destruct pc as [|fb bf|fb| |fb|nb nf|fb bf|fb bf v|[v|]]; try done; auto.
  - destruct Hc as (-> & b & Hb & <-). destruct (Hext _ _ Hb) as (b' & Hb' & ? & _). eauto.
  - naive_solver.
  - destruct Hc as (-> & Hr & b & Hb & E). destruct (Hext _ _ Hb) as (b' & Hb' & ? & _ & Ht).
    split_and!; [done|done|]. exists b'. split; [done|]. rewrite Ht; congruence.
  - destruct Hc as (b & b1 & rest' & Hb & E & -> & Hb1 & <- & Hl).
    destruct (Hext _ _ Hb) as (b' & Hb' & E1 & _ & Ht). destruct (Hext _ _ Hb1) as (b1' & Hb1' & E2 & E3 & _).
    exists b', b1', rest'. rewrite E1, E2, E3, Ht by done. by split_and!.
  - destruct Hc as (-> & b & Hb & <- & Hl). destruct (Hext _ _ Hb) as (b' & Hb' & E1 & E2 & _).
    split; [done|]. exists b'. by rewrite E1, E2.
  - destruct Hc as (-> & b & Hb & <- & Hl). destruct (Hext _ _ Hb) as (b' & Hb' & E1 & E2 & _).
    split; [done|]. exists b'. by rewrite E1, E2.
Qed.

Lemma p_ok_ext q q' free pc : p_ok q free pc → tailBlock q' = tailBlock q →
  (∀ i b, blocks q !! i = Some b → ∃ b', blocks q' !! i = Some b' ∧ p_same free i b b') → p_ok q' free pc.
Proof.
  intros Hp Ht Hext. unfold p_ok in *. rewrite Ht. unfold p_same in Hext.
  destruct pc as [ca x|ca x tb bt nt|x tb bt nt|x tb nt|ca x tb|x tb|x nb nt|x tb|x nb|ok]; try done.
  - destruct Hp as (-> & b & Hb & <- & ->). destruct (Hext _ _ Hb) as (b' & Hb' & E1 & _ & E2 & _).
    split; [done|]. exists b'. unfold slots. by rewrite E1, E2.
  - destruct Hp as (-> & b & Hb & <- & -> & Hn). destruct (Hext _ _ Hb) as (b' & Hb' & E1 & E3 & E2 & _).
    split; [done|]. exists b'. unfold slots in *. by rewrite E1, E2, E3.
  - destruct Hp as (-> & b & Hb & -> & Hn & Hd). destruct (Hext _ _ Hb) as (b' & Hb' & E1 & E3 & E2 & E4 & _).
    split; [done|]. exists b'. unfold slots in *. by rewrite E1, E2, E3, E4.
  - destruct Hp as (free' & b & -> & Hb & Hrest). destruct (Hext _ _ Hb) as (b' & Hb' & _ & _ & _ & _ & E).
    assert (b' = b) as -> by (apply E; set_solver). exists free', b. by split_and!; try apply Hrest.
  - destruct Hp as (free' & -> & b & Hb & Hc). exists free'. split; [done|].
    destruct (Hext _ _ Hb) as (b' & Hb' & _ & _ & _ & _ & E). assert (b' = b) as -> by (apply E; set_solver). by exists b.
Qed.

Lemma is_empty_spec (d l : list T) : is_empty (d ++ l) d = true ↔ l = [].
Proof.
  unfold is_empty. rewrite Nat.eqb_eq, length_app. split; [|intros ->; simpl; lia].
  intros. apply nil_length_inv. lia.
Qed.

(** *** Every step of the consumer succeeds and keeps the invariant *)

Record inv_at q pp cp (e d : list T) (s : bool) rest free lf ls : Prop := {
  ia_ring : ring_ok q rest free;
  ia_content : content_ok q pp cp lf ls rest free;
  ia_p : ∀ pc, pp = Some pc → p_ok q free pc;
  ia_c : ∀ pc, cp = Some pc → c_ok q rest s pc;
  ia_hist : e = d ++ lf ++ concat ls }.

Definition c_good q (pp : option (ppc T)) (e d : list T) (s : bool) (pc : cpc T) : Prop :=
  ∃ q' pc', cstep pc q = Ok (q', pc') ∧ ∃ rest' free' lf' ls',
    inv_at q' pp (Some pc') e (d ++ c_effect pc) (s || is_empty e (d ++ c_effect pc)) rest' free' lf' ls'.

(** A step that changes only [localTail] of a block that is not free, to its [tail]. *)
Lemma localTail_store q pp cp e d s rest free lf ls i b pc' :
  inv_at q pp cp e d s rest free lf ls → blocks q !! i = Some b → i ∉ free →
  front_holds (store i (with_localTail (tail b) b) q) (Some pc') lf →
  c_ok (store i (with_localTail (tail b) b) q) rest (s || is_empty e d) pc' →
  inv_at (store i (with_localTail (tail b) b) q) pp (Some pc') e d (s || is_empty e d) rest free lf ls.
Proof.
  intros [Hr Hct Hp Hc Hh] Hi Hfr Hf Hc'. pose proof (rk_wf _ _ _ Hr _ _ Hi) as Hwf. split; [| | | |done].
  - eapply ring_store; [done..|]. pose proof (bw_slots b Hwf). pose proof (count_range b Hwf).
    destruct Hwf. by split.
  - destruct (content_store q pp cp lf ls rest free i b (with_localTail (tail b) b) Hct Hi) as [_ H2 H3]; [done|]. by split.
  - intros pc Hpc. eapply p_ok_ext; [by apply Hp|done|]. eapply (ext_store (p_same free)); [|exact Hi|].
    + intros j x. by unfold p_same.
    + unfold p_same. by split_and!.
  - by intros pc [= <-].
Qed.

(** The front block is not free. *)
Lemma front_not_free q rest free : ring_ok q rest free → frontBlock q ∉ free.
Proof. intros [Hnd _ _ _ _ _] Hin. apply NoDup_cons in Hnd as [Hn _]. apply Hn. set_solver. Qed.

Lemma front_empty q pp cp e d s rest free lf ls b :
  inv_at q pp cp e d s rest free lf ls → (∀ fb bf v, cp ≠ Some (C_store fb bf v)) →
  blocks q !! frontBlock q = Some b → front b = tail b → rest = [] → is_empty e d = true.
Proof.
  intros [Hr [Hf Hre _] _ _ Hh] Hcp Hb E ->. apply Forall2_nil_inv_l in Hre as ->.
  assert (holds q (frontBlock q) lf) as Hl by (destruct cp as [[]|]; naive_solver).
  apply (holds_at _ _ _ _ Hl) in Hb as Hc. apply (contents_nil b (rk_wf _ _ _ Hr _ _ Hb)) in E. rewrite E in Hc.
  destruct lf; [|done]. rewrite Hh. by apply is_empty_spec.
Qed.

(** A step that changes nothing shared. *)
Lemma c_stay q pp cp e d s rest free lf ls pc' :
  inv_at q pp cp e d s rest free lf ls → front_holds q (Some pc') lf → c_ok q rest (s || is_empty e d) pc' →
  inv_at q pp (Some pc') e d (s || is_empty e d) rest free lf ls.
Proof. intros [Hr [Hf Hre Hfr] Hp Hc Hh] Hf' Hc'. split; [done|by split|done| |done]. by intros pc [= <-]. Qed.

Ltac c_intro pc := intros [Hr Hct Hp Hc Hh]; pose proof (Hc pc eq_refl) as Hpc; simpl in Hpc.

Lemma load_eq q i b : blocks q !! i = Some b → load i q = Ok b.
Proof. unfold load. by intros ->. Qed.

Lemma good_start q pp e d s rest free lf ls :
  inv_at q pp (Some C_start) e d s rest free lf ls → c_good q pp e d s C_start.
Proof.
  intros Hi. pose proof Hi as [Hr [Hf _ _] _ _ _]. destruct (ring_front _ _ _ Hr) as (b & Hb & Hwf & _).
  unfold c_good. simpl. rewrite app_nil_r, (load_eq _ _ _ Hb). simpl.
  destruct (front b =? localTail b) eqn:E; zbool; simpl; eexists _, _; (split; [done|]); exists rest, free, lf, ls.
  - eapply c_stay; [exact Hi|exact Hf|]. simpl. eauto.
  - eapply c_stay; [exact Hi|exact Hf|]. simpl. split; [done|]. exists b. by split_and!.
Qed.

Lemma front_localTail q b lf : holds q (frontBlock q) lf → blocks q !! frontBlock q = Some b →
  holds (store (frontBlock q) (with_localTail (tail b) b) q) (frontBlock q) lf.
Proof. intros Hf Hb. by eapply holds_store. Qed.

Lemma good_tail q pp e d s rest free lf ls fb bf :
  inv_at q pp (Some (C_tail fb bf)) e d s rest free lf ls → c_good q pp e d s (C_tail fb bf).
Proof.
  intros Hi. pose proof Hi as [Hr [Hf _ _] _ Hc _]. destruct (Hc _ eq_refl) as (-> & b & Hb & <-).
  pose proof (lookup_store_eq q _ _ (with_localTail (tail b) b) Hb) as Hb'.
  unfold c_good. simpl. rewrite app_nil_r, (load_eq _ _ _ Hb). simpl.
  destruct (front b =? tail b) eqn:E; zbool; simpl; eexists _, _; (split; [done|]); exists rest, free, lf, ls;
    (eapply localTail_store; [exact Hi|exact Hb|by eapply front_not_free|exact (front_localTail _ _ _ Hf Hb)|]);
    simpl; (split; [done|]).
  - intros Hrest. by rewrite (front_empty _ _ _ _ _ _ _ _ _ _ _ Hi ltac:(done) Hb E Hrest), orb_true_r.
  - eexists. split; [exact Hb'|]. simpl. by split.
Qed.

Lemma good_tailBlock q pp e d s rest free lf ls fb :
  inv_at q pp (Some (C_tailBlock fb)) e d s rest free lf ls → c_good q pp e d s (C_tailBlock fb).
Proof.
  intros Hi. pose proof Hi as [Hr [Hf _ _] _ Hc _]. destruct (Hc _ eq_refl) as (-> & Hs).
  unfold c_good. simpl. rewrite app_nil_r. pose proof (tail_is_front _ _ _ Hr) as Ht.
  destruct (frontBlock q =? tailBlock q)%nat eqn:E; simpl; eexists _, _; (split; [done|]); exists rest, free, lf, ls;
    (eapply c_stay; [exact Hi|exact Hf|]); simpl.
  - apply Nat.eqb_eq in E. by rewrite Hs by (by apply Ht).
  - apply Nat.eqb_neq in E. intros Hrest. apply E. symmetry. by apply Ht.
Qed.

Lemma good_recheck q pp e d s rest free lf ls :
  inv_at q pp (Some C_recheck) e d s rest free lf ls → c_good q pp e d s C_recheck.
Proof.
  intros Hi. pose proof Hi as [Hr [Hf _ _] _ Hc _]. pose proof (Hc _ eq_refl) as Hrest. simpl in Hrest.
  destruct (ring_front _ _ _ Hr) as (b & Hb & Hwf & _).
  pose proof (lookup_store_eq q _ _ (with_localTail (tail b) b) Hb) as Hb'.
  unfold c_good. simpl. rewrite app_nil_r, (load_eq _ _ _ Hb). simpl.
  destruct (front b =? tail b) eqn:E; zbool; simpl; eexists _, _; (split; [done|]); exists rest, free, lf, ls;
    (eapply localTail_store; [exact Hi|exact Hb|by eapply front_not_free|exact (front_localTail _ _ _ Hf Hb)|]);
    simpl; (split; [done|]).
  - split; [done|]. eexists. split; [exact Hb'|]. done.
  - eexists. split; [exact Hb'|]. simpl. by split.
Qed.

Lemma good_next q pp e d s rest free lf ls fb :
  inv_at q pp (Some (C_next fb)) e d s rest free lf ls → c_good q pp e d s (C_next fb).
Proof.
  intros Hi. pose proof Hi as [Hr [Hf Hre _] _ Hc _]. destruct (Hc _ eq_refl) as (-> & Hrest & b & Hb & E).
  destruct (ring_front _ _ _ Hr) as (b0 & Hb0 & Hwf & Hn). simplify_eq.
  destruct rest as [|nb rest]; [done|]. simpl in Hn.
  destruct (ring_in _ _ _ nb Hr) as (b' & Hb' & Hwf'); [set_solver|].
  assert (Hne : front b' ≠ tail b').
  { apply Forall2_cons_inv_l in Hre as (l & ls' & [Hl Hl0] & _ & ->).
    rewrite <- (contents_nil b' Hwf'), (holds_at _ _ _ _ Hl Hb'). by destruct l. }
  pose proof (rk_nodup _ _ _ Hr) as Hnd. apply NoDup_cons in Hnd as [Hnf Hnd].
  assert (Hfree : nb ∉ free) by (rewrite <- app_comm_cons in Hnd; apply NoDup_cons in Hnd as [? _]; set_solver).
  assert (Hnb : nb ≠ frontBlock q) by set_solver.
  unfold c_good. simpl. rewrite app_nil_r, (load_eq _ _ _ Hb). simpl. rewrite Hn, (load_eq _ _ _ Hb'). simpl.
  rewrite (proj2 (Z.eqb_neq _ _) Hne). simpl. eexists _, _. split; [done|]. exists (nb :: rest), free, lf, ls.
  eapply localTail_store; [exact Hi|exact Hb'|exact Hfree|..]; simpl.
  - by apply holds_store_ne.
  - exists b, (with_localTail (tail b') b'), rest. rewrite list_lookup_insert_ne by done. split_and!; try done.
    by eapply (lookup_store_eq q).
Qed.

(** The front block is exhausted and becomes the last free block. *)
Lemma ring_advance q nb rest free : ring_ok q (nb :: rest) free → ring_ok (set_frontBlock nb q) rest (free ++ [frontBlock q]).
Proof.
  intros [Hnd Hr Hch Hla Hwf Hlg Hall]. split; simpl; try done.
  - rewrite app_assoc, app_comm_cons. apply NoDup_app. apply NoDup_cons in Hnd as [Hn Hnd]. split_and!.
    + done.
    + intros x Hx ->%list_elem_of_singleton. by apply Hn.
    + apply NoDup_singleton.
  - intros i Hi. apply Hr. rewrite !elem_of_cons, !elem_of_app, !elem_of_cons in *. set_solver.
  - destruct Hch as [(b & Hb & Hn) Hch]. simpl in Hch. destruct Hch as [(b' & Hb' & Hn') Hch]. split.
    + exists b'. split; [done|]. rewrite Hn'. destruct rest, free; done.
    + rewrite app_assoc, chain_app. split; [done|]. simpl. split; [|done]. exists b. split; [done|]. rewrite Hn. done.
  - rewrite Hall. simpl. rewrite !length_app. simpl. lia.
Qed.

Lemma good_advance q pp e d s rest free lf ls nb nf :
  inv_at q pp (Some (C_advance nb nf)) e d s rest free lf ls → c_good q pp e d s (C_advance nb nf).
Proof.
  intros [Hr [Hf Hre Hfr] Hp Hc Hh]. destruct (Hc _ eq_refl) as (b & b' & rest' & Hb & E & -> & Hb' & <- & Hl).
  unfold c_good. simpl. rewrite app_nil_r. eexists _, _. split; [done|].
  pose proof (rk_wf _ _ _ Hr _ _ Hb) as Hwf. apply (contents_nil b Hwf) in E.
  simpl in Hf. pose proof (holds_at _ _ _ _ Hf Hb) as Hlf. rewrite E in Hlf. destruct lf as [|]; [|done].
  apply Forall2_cons_inv_l in Hre as (l & ls' & [Hl1 _] & Hre & ->).
  exists rest', (free ++ [frontBlock q]), l, ls'. split.
  - by apply ring_advance.
  - split; [done|done|]. assert (Hold : holds (set_frontBlock nb q) (frontBlock q) []) by (by exists b).
    destruct pp as [[]|]; simpl in *; try (apply Forall_app; by split; [|constructor]).
    destruct (Hp _ eq_refl) as (free' & -> & _). simpl. apply Forall_app. by split; [|constructor].
  - intros pc Hpc. specialize (Hp pc Hpc). destruct pc; simpl in *; try done.
    + split; [apply Hp|]. by destruct free.
    + destruct Hp as (free' & b1 & -> & Hrest). exists (free' ++ [frontBlock q]), b1. by split.
    + destruct Hp as (free' & -> & Hrest). exists (free' ++ [frontBlock q]). by split.
  - intros pc [= <-]. simpl. split; [done|]. exists b'. by split_and!.
  - by rewrite Hh.
Qed.

(** An occupied block. *)
Lemma localTail_ne b : block_wf b → localTail b ≠ front b → front b ≠ tail b.
Proof. intros Hw Hne E. pose proof (bw_slots b Hw). destruct Hw. unfold count in *. cyc. Qed.

(** A change of the front block does not touch the others. *)
Lemma unused_free (pp : option (ppc T)) free i : i ∈ unused pp free → i ∈ free.
Proof.
  destruct pp as [[]|]; simpl; try done. destruct free; [done|]. simpl. intros. by right.
Qed.
Lemma front_ne q rest free i : ring_ok q rest free → i ∈ rest ++ free → frontBlock q ≠ i.
Proof. intros [Hnd _ _ _ _ _] Hi <-. by apply NoDup_cons in Hnd as [? _]. Qed.
Lemma rest_store_ne q i rest ls b' : i ∉ rest → Forall2 (λ j l, holds q j l ∧ l ≠ []) rest ls →
  Forall2 (λ j l, holds (store i b' q) j l ∧ l ≠ []) rest ls.
Proof.
  intros Hn Hre. induction Hre as [|j l rest ls [Hh Hl] _ IH]; constructor.
  - split; [|done]. apply holds_store_ne; [|done]. intros ->. apply Hn. by left.
  - apply IH. intros Hi. apply Hn. by right.
Qed.
Lemma rest_store q rest free ls b' : ring_ok q rest free → Forall2 (λ i l, holds q i l ∧ l ≠ []) rest ls →
  Forall2 (λ i l, holds (store (frontBlock q) b' q) i l ∧ l ≠ []) rest ls.
Proof.
  intros [Hnd _ _ _ _ _]. apply rest_store_ne. intros Hi. apply NoDup_cons in Hnd as [Hn _]. apply Hn.
  apply elem_of_app. by left.
Qed.
Lemma free_store q pp rest free b' : ring_ok q rest free → Forall (λ i, holds q i []) (unused pp free) →
  Forall (λ i, holds (store (frontBlock q) b' q) i []) (unused pp free).
Proof.
  intros Hr Hfr. apply Forall_forall. intros i Hi. rewrite Forall_forall in Hfr. apply holds_store_ne; [|by apply Hfr].
  eapply front_ne; [done|]. apply elem_of_app. right. by eapply unused_free.
Qed.

Lemma good_take q pp e d s rest free lf ls fb bf :
  inv_at q pp (Some (C_take fb bf)) e d s rest free lf ls → c_good q pp e d s (C_take fb bf).
Proof.
  intros [Hr [Hf Hre Hfr] Hp Hc Hh]. destruct (Hc _ eq_refl) as (-> & b & Hb & <- & Hl).
  pose proof (rk_wf _ _ _ Hr _ _ Hb) as Hwf. pose proof (localTail_ne b Hwf Hl) as Hne.
  destruct (contents_front b Hwf Hne) as (l & Hcont & Hdel).
  simpl in Hf. pose proof (holds_at _ _ _ _ Hf Hb) as Hlf. rewrite Hlf in Hcont.
  destruct lf as [|v lf]; [done|]. injection Hcont as Hv <-.
  unfold c_good. simpl. rewrite app_nil_r, (load_eq _ _ _ Hb). simpl. rewrite <- Hv.
  set (b' := with_data (delete (front b) (data b)) b) in *.
  assert (Hwf' : block_wf b') by (by destruct Hwf). pose proof (lookup_store_eq q _ _ b' Hb) as Hb'.
  eexists _, _. split; [done|]. exists rest, free, (v :: lf), ls. split; [| | | |done].
  - by eapply ring_store.
  - split.
    + exists b', lf. by split_and!.
    + by eapply rest_store.
    + by eapply free_store.
  - intros pc Hpc. eapply p_ok_ext; [by apply Hp|done|]. eapply (ext_store (p_same free)); [|exact Hb|].
    + intros j x. by unfold p_same.
    + unfold p_same. split_and!; try done; simpl.
      * by rewrite lookup_delete_ne.
      * intros Hin. by apply front_not_free in Hr.
  - intros pc [= <-]. simpl. split; [done|]. exists b'. by split_and!.
Qed.

Lemma good_store q pp e d s rest free lf ls fb bf v :
  inv_at q pp (Some (C_store fb bf v)) e d s rest free lf ls → c_good q pp e d s (C_store fb bf v).
Proof.
  intros [Hr [Hf Hre Hfr] Hp Hc Hh]. destruct (Hc _ eq_refl) as (-> & b & Hb & <- & Hl).
  pose proof (rk_wf _ _ _ Hr _ _ Hb) as Hwf. pose proof (localTail_ne b Hwf Hl) as Hne.
  destruct Hf as (b0 & l & Hb0 & Hcont & ->). rewrite Hb in Hb0. injection Hb0 as <-.
  unfold c_good. simpl. rewrite (load_eq _ _ _ Hb). simpl. rewrite succ_slot_nxt by (done || apply Hwf).
  set (b' := with_front _ b).
  assert (Hwf' : block_wf b').
  { pose proof (bw_slots b Hwf). destruct Hwf. split; unfold b', count, slots in *; simpl; try done; cyc. }
  pose proof (lookup_store_eq q _ _ b' Hb) as Hb'.
  eexists _, _. split; [done|]. exists rest, free, l, ls. split.
  - by eapply ring_store.
  - split.
    + exists b'. split; [done|]. unfold b'. rewrite contents_pop by done. by rewrite Hcont.
    + by eapply rest_store.
    + by eapply free_store.
  - intros pc Hpc. eapply p_ok_ext; [by apply Hp|done|]. eapply (ext_store (p_same free)); [|exact Hb|].
    + intros j x. by unfold p_same.
    + unfold p_same. split_and!; try done. intros Hin. by apply front_not_free in Hr.
  - by intros pc [= <-].
  - rewrite Hh. by rewrite <- app_assoc.
Qed.

Lemma cstep_good q pp e d s rest free lf ls pc :
  inv_at q pp (Some pc) e d s rest free lf ls → c_good q pp e d s pc.
Proof.
  intros Hi. destruct pc as [|fb bf|fb| |fb|nb nf|fb bf|fb bf v|r].
  - by eapply good_start.
  - by eapply good_tail.
  - by eapply good_tailBlock.
  - by eapply good_recheck.
  - by eapply good_next.
  - by eapply good_advance.
  - by eapply good_take.
  - by eapply good_store.
  - unfold c_good. simpl. rewrite app_nil_r. eexists _, _. split; [done|]. exists rest, free, lf, ls.
    pose proof Hi as [_ [Hf _ _] _ Hc _]. eapply c_stay; [exact Hi|done|]. specialize (Hc _ eq_refl).
    destruct r; [done|]. simpl in *. by rewrite Hc.
Qed.

(** *** Every step of the producer succeeds and keeps the invariant *)

Definition p_good q (cp : option (cpc T)) (e d : list T) (s : bool) (pc : ppc T) : Prop :=
  ∀ mem, ∃ q' pc', pstep mem pc q = Ok (q', pc') ∧ ∃ rest' free' lf' ls',
    inv_at q' (Some pc') cp (e ++ p_effect pc) d (s || is_empty (e ++ p_effect pc) d) rest' free' lf' ls'.

Lemma c_ok_weaken q rest s x pc : c_ok q rest s pc → c_ok q rest (s || x) pc.
Proof.
  intros Hc. eapply c_ok_ext; [exact Hc|done|by intros ->|]. intros i b Hb. exists b. split; [done|]. by unfold c_same.
Qed.

(** Neither before nor after the step is the next block about to be published. *)
Definition not_publish (pc : ppc T) : Prop := ∀ x nb, pc ≠ P_publish x nb.
Lemma unused_eq pc pc' free : not_publish pc → not_publish pc' → unused (Some pc) free = unused (Some pc') free.
Proof. unfold not_publish. destruct pc, pc'; naive_solver. Qed.

Lemma p_stay q pc cp e d s rest free lf ls pc' :
  inv_at q (Some pc) cp e d s rest free lf ls → not_publish pc → not_publish pc' → p_ok q free pc' →
  inv_at q (Some pc') cp e d (s || is_empty e d) rest free lf ls.
Proof.
  intros [Hr [Hf Hre Hfr] Hp Hc Hh] N1 N2 Hp'. split; [done| | | |done].
  - split; [done|done|]. by rewrite (unused_eq pc' pc).
  - by intros ? [= <-].
  - intros pc0 Hpc0. apply c_ok_weaken. auto.
Qed.

(** A step that changes a block without changing its contents or what the consumer knows. *)
Lemma p_store q pc cp e d s rest free lf ls pc' i b b' :
  inv_at q (Some pc) cp e d s rest free lf ls → not_publish pc → not_publish pc' →
  blocks q !! i = Some b → next b' = next b → block_wf b' → contents b' = contents b →
  c_same q rest i b b' → p_ok (store i b' q) free pc' →
  inv_at (store i b' q) (Some pc') cp e d (s || is_empty e d) rest free lf ls.
Proof.
  intros [Hr Hct Hp Hc Hh] N1 N2 Hi Hn Hwf Hcont Hsame Hp'. split; [| | | |done].
  - by eapply ring_store.
  - destruct (content_store _ _ _ _ _ _ _ _ _ _ Hct Hi Hcont) as [H1 H2 H3]. split; [done|done|].
    by rewrite (unused_eq pc' pc).
  - by intros ? [= <-].
  - intros pc0 Hpc0. apply c_ok_weaken. eapply c_ok_ext; [by apply Hc|done|done|].
    eapply (ext_store (c_same q rest)); [|done|done]. intros j x. by unfold c_same.
Qed.

Lemma good_p_start q cp e d s rest free lf ls ca x :
  inv_at q (Some (P_start ca x)) cp e d s rest free lf ls → p_good q cp e d s (P_start ca x).
Proof.
  intros Hi mem. pose proof Hi as [Hr _ _ _ _]. destruct (ring_tail _ _ _ Hr) as (l & b & _ & Hb & Hwf & _).
  simpl. rewrite app_nil_r, (load_eq _ _ _ Hb). simpl. rewrite succ_slot_nxt by (done || apply Hwf).
  destruct (nxt (slots b) (tail b) =? localFront b) eqn:E; zbool; simpl; eexists _, _; (split; [done|]);
    exists rest, free, lf, ls; (eapply p_stay; [exact Hi|done|done|]); simpl; (split; [done|]); by exists b.
Qed.

Lemma good_p_check q cp e d s rest free lf ls ca x tb bt nt :
  inv_at q (Some (P_check ca x tb bt nt)) cp e d s rest free lf ls → p_good q cp e d s (P_check ca x tb bt nt).
Proof.
  intros Hi mem. pose proof Hi as [Hr _ Hp _ _]. destruct (Hp _ eq_refl) as (-> & b & Hb & <- & ->).
  pose proof (rk_wf _ _ _ Hr _ _ Hb) as Hwf. simpl. rewrite app_nil_r, (load_eq _ _ _ Hb). simpl.
  set (b' := with_localFront (front b) b). pose proof (lookup_store_eq q _ _ b' Hb) as Hb'.
  assert (Hwf' : block_wf b').
  { pose proof (bw_slots b Hwf). destruct Hwf. split; unfold b', count, slots in *; simpl; try done; cyc. }
  destruct (nxt (slots b) (tail b) =? front b) eqn:E; zbool; simpl; eexists _, _; (split; [done|]);
    exists rest, free, lf, ls; (eapply p_store; [exact Hi|done|done|exact Hb|done|exact Hwf'|done|by unfold c_same|]); simpl;
    [done|]. split; [done|]. exists b'. by split_and!.
Qed.

Lemma good_p_write q cp e d s rest free lf ls x tb bt nt :
  inv_at q (Some (P_write x tb bt nt)) cp e d s rest free lf ls → p_good q cp e d s (P_write x tb bt nt).
Proof.
  intros Hi mem. pose proof Hi as [Hr _ Hp _ _]. destruct (Hp _ eq_refl) as (-> & b & Hb & <- & -> & Hn).
  pose proof (rk_wf _ _ _ Hr _ _ Hb) as Hwf. simpl. rewrite app_nil_r, (load_eq _ _ _ Hb). simpl.
  eexists _, _. split; [done|]. exists rest, free, lf, ls.
  eapply p_store; [exact Hi|done|done|exact Hb|done| |by apply contents_write|by unfold c_same|].
  - by destruct Hwf.
  - simpl. split; [done|]. eexists. split; [by eapply (lookup_store_eq q)|]. simpl.
    split_and!; [done|done|]. apply lookup_insert_eq.
Qed.

Lemma good_p_full q cp e d s rest free lf ls ca x tb :
  inv_at q (Some (P_full ca x tb)) cp e d s rest free lf ls → p_good q cp e d s (P_full ca x tb).
Proof.
  intros Hi mem. pose proof Hi as [Hr _ Hp _ _]. assert (tb = tailBlock q) as -> by exact (Hp _ eq_refl).
  destruct (ring_tail _ _ _ Hr) as (l & b & _ & Hb & Hwf & Hn). simpl. rewrite app_nil_r, (load_eq _ _ _ Hb). simpl.
  rewrite Hn. destruct (_ =? _)%nat eqn:E; simpl; [destruct ca|]; eexists _, _; (split; [done|]);
    exists rest, free, lf, ls; (eapply p_stay; [exact Hi|done|done|]); simpl; try done.
  split; [done|]. apply Nat.eqb_neq in E. by destruct free.
Qed.

Lemma good_p_next q cp e d s rest free lf ls x tb :
  inv_at q (Some (P_next x tb)) cp e d s rest free lf ls → p_good q cp e d s (P_next x tb).
Proof.
  intros Hi mem. pose proof Hi as [Hr [_ _ Hfr] Hp _ _]. destruct (Hp _ eq_refl) as [-> Hfree].
  destruct (ring_tail _ _ _ Hr) as (l & b & _ & Hb & Hwf & Hn). destruct free as [|nb free]; [done|]. simpl in Hn, Hfr.
  destruct (ring_in _ _ _ nb Hr) as (b' & Hb' & Hwf'); [apply elem_of_app; right; by left|].
  apply Forall_cons in Hfr as [Hnb _]. pose proof (holds_at _ _ _ _ Hnb Hb') as Hc.
  apply (contents_nil b' Hwf') in Hc as Hft.
  simpl. rewrite app_nil_r, (load_eq _ _ _ Hb). simpl. rewrite Hn, (load_eq _ _ _ Hb'). simpl.
  rewrite (proj2 (Z.eqb_eq _ _) Hft). simpl.
  set (b1 := with_data _ (with_localFront _ b')).
  assert (Hwf1 : block_wf b1).
  { pose proof (bw_slots b' Hwf'). destruct Hwf'. split; unfold b1, count, slots in *; simpl; try done; cyc. }
  eexists _, _. split; [done|]. exists rest, (nb :: free), lf, ls.
  eapply p_store; [exact Hi|done|done|exact Hb'|done|exact Hwf1| |by unfold c_same|].
  - exact (contents_write b' x Hwf').
  - exists free, b1. split; [done|]. split; [by eapply (lookup_store_eq q)|]. unfold b1 at 1 2 3 4. simpl.
    split_and!; [done|done| |unfold b1; simpl; apply lookup_insert_eq].
    exact (succ_slot_nxt b' (tail b') Hwf' (bw_tail _ Hwf')).
Qed.

(** Room for one more element. *)
Lemma room b : block_wf b → nxt (slots b) (tail b) ≠ localFront b → count b + 1 < slots b.
Proof. intros Hwf Hn. pose proof (bw_slots b Hwf). destruct Hwf. unfold count in *. cyc. Qed.

Lemma push_wf b : block_wf b → nxt (slots b) (tail b) ≠ localFront b →
  block_wf (with_tail (nxt (slots b) (tail b)) b).
Proof.
  intros Hwf Hn. pose proof (bw_slots b Hwf). destruct Hwf. split; unfold count, slots in *; simpl; try done; cyc.
Qed.

Lemma good_p_store q cp e d s rest free lf ls x tb nt :
  inv_at q (Some (P_store x tb nt)) cp e d s rest free lf ls → p_good q cp e d s (P_store x tb nt).
Proof.
  intros [Hr [Hf Hre Hfr] Hp Hc Hh] mem. destruct (Hp _ eq_refl) as (-> & b & Hb & -> & Hn & Hx).
  pose proof (rk_wf _ _ _ Hr _ _ Hb) as Hwf. simpl. rewrite (load_eq _ _ _ Hb). simpl.
  pose proof (push_wf b Hwf Hn) as Hwf'. pose proof (contents_push b x Hwf (room b Hwf Hn) Hx) as Hcont.
  set (b' := with_tail _ b) in *. pose proof (lookup_store_eq q _ _ b' Hb) as Hb'.
  pose proof (tail_not_free _ _ _ Hr) as Htf. pose proof (tail_is_front _ _ _ Hr) as Hti.
  assert (Hfr' : Forall (λ i, holds (store (tailBlock q) b' q) i []) (unused (Some (P_ret true)) free)).
  { simpl in *. apply Forall_forall. intros i Hi. rewrite Forall_forall in Hfr. apply holds_store_ne; [|auto]. by intros <-. }
  assert (Hc' : ∀ z pc, cp = Some pc → c_ok (store (tailBlock q) b' q) rest (s || z) pc).
  { intros z pc Hpc. apply c_ok_weaken. eapply c_ok_ext; [by apply Hc|done|done|].
    eapply (ext_store (c_same q rest)); [intros j y; by unfold c_same|done|].
    unfold c_same. split_and!; [done..|]. intros E Hrest. by apply Hti in E. }
  eexists _, _. split; [done|]. destruct (decide (rest = [])) as [->|Hrest].
  - exists [], free, (lf ++ [x]), ls. apply Forall2_nil_inv_l in Hre as ->.
    rewrite (proj2 Hti eq_refl) in *. split; [by eapply ring_store| |by intros ? [= <-]|auto|].
    + split; [|done|done]. clear Hc Hc'. destruct cp as [[]|]; simpl in *;
        try (exists b'; split; [done|]; by rewrite Hcont, (holds_at _ _ _ _ Hf Hb), fmap_app).
      destruct Hf as (b0 & l & Hb0 & Hl & ->). rewrite Hb in Hb0. injection Hb0 as <-.
      exists b', (l ++ [x]). split_and!; [done| |done]. by rewrite Hcont, Hl, fmap_app.
    + rewrite Hh. simpl. by rewrite !app_nil_r, <- app_assoc.
  - pose proof (rk_last _ _ _ Hr) as Hla. destruct rest as [|y rest0] using rev_ind; [done|]. clear IHrest0 Hrest.
    rewrite app_comm_cons, last_snoc in Hla. injection Hla as ->.
    apply Forall2_app_inv_l in Hre as (ls0 & l1 & Hre & Hy & ->). apply Forall2_cons_inv_l in Hy as (l & ? & [Hl Hl0] & Hnil & ->).
    apply Forall2_nil_inv_l in Hnil as ->. exists (rest0 ++ [tailBlock q]), free, lf, (ls0 ++ [l ++ [x]]).
    pose proof (rk_nodup _ _ _ Hr) as Hnd. apply NoDup_cons in Hnd as [Hnf Hnd].
    assert (Hne : tailBlock q ≠ frontBlock q) by (intros E; apply Hnf; rewrite <- E; set_solver).
    split; [by eapply ring_store| |by intros ? [= <-]|auto|].
    + split; [| |done].
      * destruct cp as [[]|]; simpl in *; try by apply holds_store_ne.
        destruct Hf as (b0 & l0 & Hb0 & Hrest). exists b0, l0. by rewrite list_lookup_insert_ne.
      * apply Forall2_app; [|constructor; [|constructor]].
        -- apply rest_store_ne; [|done]. rewrite <- app_assoc in Hnd. apply NoDup_app in Hnd as (_ & Hd & _).
           intros Hi. apply (Hd _ Hi). by left.
        -- split; [|by destruct l]. exists b'. split; [done|]. by rewrite Hcont, (holds_at _ _ _ _ Hl Hb), fmap_app.
    + rewrite Hh, !concat_app. simpl. rewrite !app_nil_r, <- !app_assoc. done.
Qed.

Lemma front_store_ne q i b' cp lf : i ≠ frontBlock q → front_holds q cp lf → front_holds (store i b' q) cp lf.
Proof.
  intros Hne Hf. destruct cp as [[]|]; simpl in *; try by apply holds_store_ne.
  destruct Hf as (b0 & l0 & Hb0 & Hrest). exists b0, l0. by rewrite list_lookup_insert_ne.
Qed.

Lemma free_ne q rest nb free : ring_ok q rest (nb :: free) → nb ≠ frontBlock q ∧ nb ∉ rest ∧ nb ∉ free.
Proof.
  intros [Hnd _ _ _ _ _]. apply NoDup_cons in Hnd as [Hf Hnd]. apply NoDup_app in Hnd as (_ & Hd & Hnd).
  apply NoDup_cons in Hnd as [Hnb _]. split_and!; [|intros Hin; apply (Hd _ Hin); by left|done].
  intros ->. apply Hf, elem_of_app. right. by left.
Qed.

Lemma good_p_next_store q cp e d s rest free lf ls x nb nt :
  inv_at q (Some (P_next_store x nb nt)) cp e d s rest free lf ls → p_good q cp e d s (P_next_store x nb nt).
Proof.
  intros [Hr [Hf Hre Hfr] Hp Hc Hh] mem. destruct (Hp _ eq_refl) as (free' & b & -> & Hb & E & El & -> & Hx).
  pose proof (rk_wf _ _ _ Hr _ _ Hb) as Hwf. simpl. rewrite app_nil_r, (load_eq _ _ _ Hb). simpl.
  destruct (free_ne _ _ _ _ Hr) as (Hnf & Hnr & Hnn).
  assert (Hn : nxt (slots b) (tail b) ≠ localFront b).
  { pose proof (bw_slots b Hwf). rewrite El. destruct Hwf. cyc. }
  pose proof (push_wf b Hwf Hn) as Hwf'. pose proof (contents_push b x Hwf (room b Hwf Hn) Hx) as Hcont.
  rewrite (proj2 (contents_nil b Hwf) E) in Hcont.
  set (b' := with_tail _ b) in *. pose proof (lookup_store_eq q _ _ b' Hb) as Hb'.
  eexists _, _. split; [done|]. exists rest, (nb :: free'), lf, ls. split; [by eapply ring_store| | | |done].
  - split; [by apply front_store_ne|by apply rest_store_ne|]. simpl in *. apply Forall_cons in Hfr as [_ Hfr].
    apply Forall_forall. intros i Hi. rewrite Forall_forall in Hfr. apply holds_store_ne; [|auto]. by intros <-.
  - intros ? [= <-]. exists free'. split; [done|]. by exists b'.
  - intros pc Hpc. apply c_ok_weaken. eapply c_ok_ext; [by apply Hc|done|done|].
    eapply (ext_store (c_same q rest)); [intros j y; by unfold c_same|done|]. unfold c_same. by split_and!.
Qed.

Lemma good_p_publish q cp e d s rest free lf ls x nb :
  inv_at q (Some (P_publish x nb)) cp e d s rest free lf ls → p_good q cp e d s (P_publish x nb).
Proof.
  intros [Hr [Hf Hre Hfr] Hp Hc Hh] mem. destruct (Hp _ eq_refl) as (free' & -> & Hnb). simpl in Hfr |- *.
  eexists _, _. split; [done|]. exists (rest ++ [nb]), free', lf, (ls ++ [[x]]). split.
  - destruct Hr as [Hnd Hrg Hch Hla Hwf Hlg Hall]. split; simpl; rewrite <- ?app_assoc; try done.
    by rewrite app_comm_cons, last_snoc.
  - split; [by destruct cp as [[]|]| |done]. apply Forall2_app; [done|]. by constructor.
  - by intros ? [= <-].
  - intros pc Hpc. apply c_ok_weaken. specialize (Hc _ Hpc). destruct pc as [|fb bf|fb| |fb|n nf|fb bf|fb bf v|[v|]]; simpl in *; try done.
    + destruct Hc as [-> Hc]. split; [done|]. intros []%app_nil. done.
    + by intros []%app_nil.
    + destruct Hc as (-> & _ & Hc). split_and!; [done| |done]. by intros []%app_nil.
    + destruct Hc as (b & b' & rest' & Hb & E & -> & Hrest). by exists b, b', (rest' ++ [nb]).
  - rewrite Hh, concat_app. simpl. by rewrite !app_assoc.
Qed.

(** A new block linked behind the tail block. *)
Definition link (tb : nat) b (nbk : Block T) (sz : Z) q : ReaderWriterQueue T :=
  {| blocks := <[tb := with_next (length (blocks q)) b]> (blocks q) ++ [nbk]; frontBlock := frontBlock q;
     tailBlock := tailBlock q; largestBlockSize := sz |}.

Lemma link_old tb b nbk sz q i b0 : blocks q !! tb = Some b → blocks q !! i = Some b0 →
  blocks (link tb b nbk sz q) !! i = Some (if decide (tb = i) then with_next (length (blocks q)) b0 else b0).
Proof.
  intros Hb Hi. simpl. pose proof (lookup_lt_Some _ _ _ Hi). rewrite lookup_app_l by (by rewrite length_insert).
  destruct (decide (tb = i)) as [->|]; [|by rewrite list_lookup_insert_ne].
  rewrite list_lookup_insert_eq by done. congruence.
Qed.
Lemma link_new tb b nbk sz q : blocks (link tb b nbk sz q) !! length (blocks q) = Some nbk.
Proof. simpl. rewrite lookup_app_r; rewrite length_insert; [|lia]. by rewrite Nat.sub_diag. Qed.

Lemma link_ring q rest free b nbk k : ring_ok q rest free → blocks q !! tailBlock q = Some b → next nbk = next b →
  block_wf nbk → 1 ≤ k ≤ 10 → ring_ok (link (tailBlock q) b nbk (2 ^ k) q) rest (length (blocks q) :: free).
Proof.
  intros Hr Hb Hn Hwf Hk. destruct (ring_tail _ _ _ Hr) as (l & b0 & Hl & Hb0 & _ & Hnx). simplify_eq.
  pose proof (tail_not_free _ _ _ Hr) as Htf. destruct Hr as [Hnd Hrg Hch Hla Hw Hlg Hall].
  assert (Hlt : ∀ i, i ∈ frontBlock q :: rest ++ free → i ≠ length (blocks q)) by (intros i Hi%Hrg; lia).
  assert (Hp : frontBlock q :: rest ++ length (blocks q) :: free ≡ₚ length (blocks q) :: frontBlock q :: rest ++ free).
  { by rewrite <- Permutation_middle, Permutation_swap. }
  pose proof (λ i b0, link_old (tailBlock q) b nbk (2 ^ k) q i b0 Hb) as Hold.
  pose proof (link_new (tailBlock q) b nbk (2 ^ k) q) as Hnew.
  assert (Hlen : length (blocks (link (tailBlock q) b nbk (2 ^ k) q)) = S (length (blocks q))).
  { simpl. rewrite length_app, length_insert. simpl. lia. }
  set (q' := link (tailBlock q) b nbk (2 ^ k) q) in *.
  change (frontBlock q) with (frontBlock q') in Hnd, Hp, Hl, Hlt, Hla, Hrg, Hch.
  split.
  - rewrite Hp. apply NoDup_cons. split; [|done]. intros Hin. by apply (Hlt _ Hin).
  - intros i. rewrite Hp, Hlen. intros [->|Hi%Hrg]%elem_of_cons; lia.
  - rewrite app_comm_cons in Hch |- *. rewrite Hl, <- app_assoc in Hch |- *. apply chain_app in Hch as [Hch1 [_ Hch2]].
    apply chain_app. split; [|split; [|split]].
    + eapply chain_mono; [exact Hch1|]. intros i bi Hi Hbi. rewrite (Hold _ _ Hbi).
      rewrite decide_False; [by eexists|]. intros <-. rewrite app_comm_cons, Hl in Hnd.
      apply NoDup_app in Hnd as (Hnd & _ & _). apply NoDup_app in Hnd as (_ & Hd & _). apply (Hd _ Hi). by left.
    + rewrite (Hold _ _ Hb), decide_True by done. by eexists.
    + rewrite Hnew. exists nbk. split; [done|]. rewrite Hn. exact Hnx.
    + eapply chain_mono; [exact Hch2|]. intros i bi Hi Hbi. rewrite (Hold _ _ Hbi).
      rewrite decide_False; [by eexists|]. by intros <-.
  - exact Hla.
  - intros i bi Hbi. destruct (decide (i = length (blocks q))) as [->|Hi]; [congruence|].
    pose proof (lookup_lt_Some _ _ _ Hbi) as Hlt'. destruct (lookup_lt_is_Some_2 (blocks q) i) as [b1 Hb1]; [lia|].
    rewrite (Hold _ _ Hb1) in Hbi. injection Hbi as <-. apply Hw in Hb1. destruct (decide _); [by destruct Hb1|done].
  - by exists k.
  - rewrite Hlen, Hall, !length_app. simpl. lia.
Qed.

(** The size of the new block is a power of two again. *)
Lemma new_size q rest free : ring_ok q rest free → ∃ k, 1 ≤ k ≤ 10 ∧
  (if largestBlockSize q >=? MAX_BLOCK_SIZE then largestBlockSize q else u64 (largestBlockSize q * 2)) = 2 ^ k.
Proof.
  intros [_ _ _ _ _ (k & Hk & E)]. rewrite E. destruct (2 ^ k >=? MAX_BLOCK_SIZE) eqn:Hc; [by exists k|].
  assert (k < 9).
  { destruct (Z.lt_ge_cases k 9) as [|H9]; [done|]. exfalso. apply (Z.pow_le_mono_r 2) in H9; [|lia].
    unfold MAX_BLOCK_SIZE in Hc. change (2 ^ 9) with 512 in H9. lia. }
  exists (k + 1). split; [lia|]. rewrite Z.pow_add_r by lia. change (2 ^ 1) with 2. rewrite u64_small; [done|].
  split; [lia|]. apply (Z.le_lt_trans _ (2 ^ 10 * 2)); [|done].
  apply Z.mul_le_mono_nonneg_r; [lia|]. apply Z.pow_le_mono_r; lia.
Qed.

Lemma first_block (x : T) n k : 1 ≤ k ≤ 10 →
  let b := with_data {[ 0 := x ]} (with_localTail 1 (with_tail 1 (make_block (2 ^ k) n))) in
  block_wf b ∧ contents b = [Some x].
Proof.
  intros Hk b. assert (H2 : 2 ^ 1 ≤ 2 ^ k) by (apply Z.pow_le_mono_r; lia).
  assert (H10 : 2 ^ k ≤ 2 ^ 10) by (apply Z.pow_le_mono_r; lia).
  change (2 ^ 1) with 2 in H2. change (2 ^ 10) with 1024 in H10.
  assert (Hm : sizeMask b = 2 ^ k - 1) by (apply u64_small; lia).
  assert (Hs : slots b = 2 ^ k) by (unfold slots; lia).
  assert (Hd : ∀ i j, 0 ≤ i ≤ j → j ≤ 1 → dist (2 ^ k) i j = j - i) by (intros; unfold dist; apply Z.mod_small; lia).
  split.
  - split; unfold count; rewrite ?Hs; simpl; rewrite ?Hd by lia; try lia.
    exists k. split; [lia|]. rewrite Z.ones_equiv. simpl in Hm. lia.
  - unfold contents, count. rewrite Hs. simpl. rewrite Hd by lia. simpl. rewrite Z.mod_0_l by lia.
    by rewrite lookup_singleton_eq.
Qed.

Lemma good_p_alloc q cp e d s rest free lf ls x tb :
  inv_at q (Some (P_alloc x tb)) cp e d s rest free lf ls → p_good q cp e d s (P_alloc x tb).
Proof.
  intros Hi mem. pose proof Hi as [Hr Hct Hp Hc Hh]. assert (tb = tailBlock q) as -> by exact (Hp _ eq_refl).
  destruct (ring_tail _ _ _ Hr) as (l & b & _ & Hb & Hwf & Hn). destruct (new_size _ _ _ Hr) as (k & Hk & Hsz).
  destruct mem; simpl; rewrite app_nil_r, ?(load_eq _ _ _ Hb); simpl; eexists _, _; (split; [done|]).
  2: { exists rest, free, lf, ls. eapply p_stay; [exact Hi|done..]. }
  rewrite Hsz. destruct (first_block x (next b) k Hk) as [Hwf' Hc']. set (nbk := with_data _ _) in *.
  exists rest, (length (blocks q) :: free), lf, ls.
  change (inv_at (link (tailBlock q) b nbk (2 ^ k) q) (Some (P_publish x (length (blocks q)))) cp e d
    (s || is_empty e d) rest (length (blocks q) :: free) lf ls). split; [by apply link_ring| | | |done].
  - assert (Hs : same_contents q (link (tailBlock q) b nbk (2 ^ k) q)).
    { intros i bi Hbi. rewrite (link_old _ _ _ _ _ _ _ Hb Hbi). eexists. split; [done|]. by destruct (decide _). }
    destruct (content_ext q (link (tailBlock q) b nbk (2 ^ k) q) _ _ _ _ _ _ eq_refl Hs Hct) as [H1 H2 H3]. by split.
  - intros ? [= <-]. exists free. split; [done|]. exists nbk. split; [apply link_new|done].
  - intros pc Hpc. apply c_ok_weaken. eapply c_ok_ext; [by apply Hc|done|done|].
    intros i bi Hbi. rewrite (link_old _ _ _ _ _ _ _ Hb Hbi). eexists. split; [done|].
    unfold c_same. by destruct (decide _).
Qed.

Lemma pstep_good q cp e d s rest free lf ls pc :
  inv_at q (Some pc) cp e d s rest free lf ls → p_good q cp e d s pc.
Proof.
  intros Hi. destruct pc as [ca x|ca x tb bt nt|x tb bt nt|x tb nt|ca x tb|x tb|x nb nt|x tb|x nb|ok].
  - by eapply good_p_start.
  - by eapply good_p_check.
  - by eapply good_p_write.
  - by eapply good_p_store.
  - by eapply good_p_full.
  - by eapply good_p_next.
  - by eapply good_p_next_store.
  - by eapply good_p_alloc.
  - by eapply good_p_publish.
  - intros mem. simpl. rewrite app_nil_r. eexists _, _. split; [done|]. exists rest, free, lf, ls.
    by eapply p_stay.
Qed.

(** *** The invariant of whole executions *)

Lemma inv_alt c : inv c ↔ ∃ rest free lf ls,
  inv_at (c_q c) (c_p c) (c_c c) (enqueued c) (dequeued c) (empty_seen c) rest free lf ls.
Proof.
  unfold inv. split; intros (rest & free & lf & ls & H); exists rest, free, lf, ls.
  - destruct H as (? & ? & ? & ? & ?). by split.
  - destruct H as [? ? ? ? ?]. by split_and!.
Qed.

Lemma step_inv c c' : inv c → step c c' → inv c'.
Proof.
  rewrite !inv_alt. intros (rest & free & lf & ls & Hi) Hs. destruct Hs; simpl in *.
  - exists rest, free, lf, ls. destruct Hi as [Hr [Hf Hre Hfr] Hp Hc Hh]. split; [done|by split| |done|done].
    by intros ? [= <-].
  - destruct (pstep_good _ _ _ _ _ _ _ _ _ _ Hi mem) as (q1 & pc1 & E & Hi'). rewrite E in H. by simplify_eq.
  - exists rest, free, lf, ls. destruct Hi as [Hr [Hf Hre Hfr] Hp Hc Hh]. by split.
  - exists rest, free, lf, ls. destruct Hi as [Hr [Hf Hre Hfr] Hp Hc Hh]. split; [done|by split|done| |done].
    by intros ? [= <-].
  - destruct (cstep_good _ _ _ _ _ _ _ _ _ _ Hi) as (q1 & pc1 & E & Hi'). rewrite E in H. by simplify_eq.
  - exists rest, free, lf, ls. destruct Hi as [Hr [Hf Hre Hfr] Hp Hc Hh]. by split.
Qed.

Definition start q : config :=
  {| c_q := q; c_p := None; c_c := None; enqueued := []; dequeued := []; empty_seen := true |}.
Definition reachable q : config → Prop := rtc step (start q).

(** What the invariant says about a configuration. *)
Record fifo_ok (c : config) : Prop := {
  fo_prefix : ∃ l, enqueued c = dequeued c ++ l;
  fo_producer : ∀ pc mem, c_p c = Some pc → ∃ r, pstep mem pc (c_q c) = Ok r;
  fo_consumer : ∀ pc, c_c c = Some pc → ∃ r, cstep pc (c_q c) = Ok r;
  fo_empty : c_c c = Some (C_ret None) → empty_seen c = true }.

Lemma inv_fifo c : inv c → fifo_ok c.
Proof.
  rewrite inv_alt. intros (rest & free & lf & ls & Hi). pose proof Hi as [_ _ _ Hc Hh]. split.
  - eauto.
  - intros pc mem E. rewrite E in Hi. destruct (pstep_good _ _ _ _ _ _ _ _ _ _ Hi mem) as (? & ? & ? & _). eauto.
  - intros pc E. rewrite E in Hi. destruct (cstep_good _ _ _ _ _ _ _ _ _ _ Hi) as (? & ? & ? & _). eauto.
  - intros E. exact (Hc _ E).
Qed.
End Concurrent.
