(* ===== verification/QueueSpec.v ===== *)
(** * The container queue from the caller's side

    The queue after its constructor, calls that no other thread interferes with as
    operations on the list of elements, and the theorems about all interleavings. *)
From Stdlib Require Import ZArith Lia.
From stdpp Require Import base tactics numbers list gmap.
From S2P Require Import Prelude Queue QueueThreads.
#[local] Open Scope Z_scope.

Section Calls.
Context {T : Type}.
Implicit Types (b : Block T) (q : ReaderWriterQueue T).

(** ** Calls without interference *)

(** The queue between calls, and the elements it holds. *)
Definition queue_holds q (l : list T) : Prop :=
  ∃ rest free lf ls, ring_ok q rest free ∧ content_ok q None None lf ls rest free ∧ l = lf ++ concat ls.

Lemma queue_holds_inv q d l : queue_holds q l → ∃ rest free lf ls, l = lf ++ concat ls ∧
  ∀ s, inv_at q None None (d ++ l) d s rest free lf ls.
Proof.
  intros (rest & free & lf & ls & Hr & Hct & ->). exists rest, free, lf, ls. split; [done|]. by split.
Qed.
Lemma inv_queue_holds q e d s rest free lf ls pp cp : inv_at q pp cp e d s rest free lf ls →
  pp = None ∨ (∃ ok, pp = Some (P_ret ok)) → cp = None ∨ (∃ r, cp = Some (C_ret r)) →
  ∃ l, queue_holds q l ∧ e = d ++ l.
Proof.
  intros [Hr [Hf Hre Hfr] _ _ Hh] Hp Hc. exists (lf ++ concat ls). split; [|done]. exists rest, free, lf, ls.
  split_and!; [done| |done]. split; [|done|]; [destruct Hc as [->|[r ->]]|destruct Hp as [->|[ok ->]]]; done.
Qed.

Definition c_rank (pc : cpc T) : nat :=
  match pc with
  | C_start => 8 | C_tail _ _ => 7 | C_tailBlock _ => 6 | C_recheck => 5 | C_next _ => 4 | C_advance _ _ => 3
  | C_take _ _ => 2 | C_store _ _ _ => 1 | C_ret _ => 0
  end%nat.
Definition p_rank (pc : ppc T) : nat :=
  match pc with
  | P_start _ _ => 6 | P_check _ _ _ _ _ => 5 | P_full _ _ _ => 4 | P_next _ _ => 3 | P_next_store _ _ _ => 2
  | P_write _ _ _ _ => 3 | P_store _ _ _ => 2 | P_alloc _ _ => 2 | P_publish _ _ => 1 | P_ret _ => 0
  end%nat.

(** Every step brings the call nearer to its end; the last step of a dequeue that
    returns an element is the one that removes it. *)
Lemma cstep_rank pc q q' pc' : cstep pc q = Ok (q', pc') → c_rank pc ≠ 0%nat →
  (c_rank pc' < c_rank pc)%nat ∧ match pc' with C_ret r => c_effect pc = option_list r | _ => c_effect pc = [] end.
Proof.
  destruct pc; simpl; intros E Hne; try done; inv_ok; repeat (case_match; inv_ok); simplify_eq/=; (split; [lia|done]).
Qed.

(** The element of an enqueue that has not taken effect yet, and whether it may still
    allocate. *)
Definition p_elem (pc : ppc T) : list T :=
  match pc with
  | P_start _ x | P_check _ x _ _ _ | P_write x _ _ _ | P_store x _ _ | P_full _ x _ | P_next x _
  | P_next_store x _ _ | P_alloc x _ | P_publish x _ => [x]
  | P_ret _ => []
  end.
Definition p_alloc (pc : ppc T) : bool :=
  match pc with P_start ca _ | P_check ca _ _ _ _ | P_full ca _ _ => ca | _ => true end.

Lemma pstep_rank mem pc q q' pc' : pstep mem pc q = Ok (q', pc') → p_rank pc ≠ 0%nat →
  (p_rank pc' < p_rank pc)%nat ∧
  match pc' with
  | P_ret ok => p_effect pc = (if ok then p_elem pc else []) ∧ (p_alloc pc && mem = true → ok = true)
  | _ => p_effect pc = [] ∧ p_elem pc' = p_elem pc ∧ (p_alloc pc = true → p_alloc pc' = true)
  end.
Proof.
  destruct pc; simpl; intros E Hne; try done; inv_ok; repeat (case_match; inv_ok); simplify_eq/=; (split; [lia|]);
    by rewrite ?andb_false_r.
Qed.

Lemma c_rank_0 (pc : cpc T) : c_rank pc = 0%nat → ∃ r, pc = C_ret r.
Proof. destruct pc; simpl; intros; try done. eauto. Qed.
Lemma p_rank_0 (pc : ppc T) : p_rank pc = 0%nat → ∃ ok, pc = P_ret ok.
Proof. destruct pc; simpl; intros; try done. eauto. Qed.
Lemma crun_ret n r q : crun n (C_ret r) q = Ok (r, q).
Proof. by destruct n. Qed.
Lemma prun_ret n mem ok q : prun n mem (P_ret ok) q = Ok (ok, q).
Proof. by destruct n. Qed.
Lemma crun_S n pc q : c_rank pc ≠ 0%nat → crun (S n) pc q = ('(q, pc) ← cstep pc q; crun n pc q).
Proof. by destruct pc. Qed.
Lemma prun_S n mem pc q : p_rank pc ≠ 0%nat → prun (S n) mem pc q = ('(q, pc) ← pstep mem pc q; prun n mem pc q).
Proof. by destruct pc. Qed.

(** A dequeue that runs alone, from any of its points. *)
Lemma crun_good n pc q pp e d s rest free lf ls :
  inv_at q pp (Some pc) e d s rest free lf ls → (c_rank pc ≤ n)%nat → (s = true → e = d) →
  ∃ r q' s' d' rest' free' lf' ls', crun n pc q = Ok (r, q') ∧
    inv_at q' pp (Some (C_ret r)) e d' s' rest' free' lf' ls' ∧
    (c_rank pc ≠ 0%nat → d' = d ++ option_list r ∧ (r = None → e = d)).
Proof.
  revert pc q d s rest free lf ls. induction n as [|n IH]; intros pc q d s rest free lf ls Hi Hn Hs.
  { destruct (c_rank_0 pc) as [r ->]; [lia|]. exists r, q, s, d, rest, free, lf, ls. split_and!; [done|done|]. by intros []. }
  destruct (decide (c_rank pc = 0%nat)) as [[r ->]%c_rank_0|Hne].
  { exists r, q, s, d, rest, free, lf, ls. split_and!; [done|done|]. by intros []. }
  destruct (cstep_good _ _ _ _ _ _ _ _ _ _ Hi) as (q1 & pc1 & E & rest1 & free1 & lf1 & ls1 & Hi1).
  rewrite crun_S, E by done. simpl. destruct (cstep_rank _ _ _ _ E Hne) as [Hlt Heff].
  set (s1 := s || _) in *.
  assert (Hs1 : c_effect pc = [] → s1 = true → e = d).
  { unfold s1. intros -> [?|He]%orb_true_iff; [auto|]. rewrite app_nil_r in He. destruct Hi as [_ _ _ _ ->].
    apply is_empty_spec in He as ->. by rewrite app_nil_r. }
  destruct (decide (c_rank pc1 = 0%nat)) as [[r ->]%c_rank_0|Hne1].
  - exists r, q1, s1, (d ++ c_effect pc), rest1, free1, lf1, ls1. rewrite crun_ret. split_and!; [done|done|].
    intros _. rewrite Heff. split; [done|]. intros ->. apply Hs1; [done|]. exact (ia_c _ _ _ _ _ _ _ _ _ _ Hi1 _ eq_refl).
  - assert (Heff' : c_effect pc = []) by (destruct pc1; done). rewrite Heff', app_nil_r in Hi1.
    destruct (IH _ _ _ _ _ _ _ _ Hi1) as (r & q2 & s2 & d2 & rest2 & free2 & lf2 & ls2 & E2 & Hi2 & Hd2); [lia|auto|].
    exists r, q2, s2, d2, rest2, free2, lf2, ls2. split_and!; [done|done|]. auto.
Qed.

Lemma try_dequeue_spec q l : queue_holds q l →
  ∃ q', try_dequeue q = Ok (hd_error l, q') ∧ queue_holds q' (tl l).
Proof.
  intros H. destruct (queue_holds_inv q [] l H) as (rest & free & lf & ls & -> & Hi). specialize (Hi (is_empty (lf ++ concat ls) [])).
  assert (Hi' : inv_at q None (Some C_start) (lf ++ concat ls) [] (is_empty (lf ++ concat ls) []) rest free lf ls).
  { destruct Hi as [? [? ? ?] ? ? ?]. split; [done|by split|done| |done]. by intros ? [= <-]. }
  destruct (crun_good 8 _ _ _ _ _ _ _ _ _ _ Hi') as (r & q' & s' & d' & rest' & free' & lf' & ls' & E & Hi2 & Hd); [simpl; lia| |].
  { unfold is_empty. rewrite Nat.eqb_eq. by intros ?%nil_length_inv. }
  destruct Hd as [-> Hr]; [done|]. destruct (inv_queue_holds _ _ _ _ _ _ _ _ _ _ Hi2) as (l' & Hl' & El); [by left|right; eauto|].
  exists q'. unfold try_dequeue. rewrite E. clear - Hl' El Hr. rewrite app_nil_l in El. rewrite El. destruct r as [v|]; [done|].
  rewrite (Hr eq_refl) in El. simpl in El. by subst l'.
Qed.

(** An enqueue that runs alone. *)
Lemma prun_good n mem pc q cp e d s rest free lf ls :
  inv_at q (Some pc) cp e d s rest free lf ls → (p_rank pc ≤ n)%nat →
  ∃ ok q' s' e' rest' free' lf' ls', prun n mem pc q = Ok (ok, q') ∧
    inv_at q' (Some (P_ret ok)) cp e' d s' rest' free' lf' ls' ∧
    (p_rank pc ≠ 0%nat → e' = e ++ (if ok then p_elem pc else []) ∧ (p_alloc pc && mem = true → ok = true)).
Proof.
  revert pc q e s rest free lf ls. induction n as [|n IH]; intros pc q e s rest free lf ls Hi Hn.
  { destruct (p_rank_0 pc) as [r ->]; [lia|]. exists r, q, s, e, rest, free, lf, ls. split_and!; [done|done|]. by intros []. }
  destruct (decide (p_rank pc = 0%nat)) as [[r ->]%p_rank_0|Hne].
  { exists r, q, s, e, rest, free, lf, ls. split_and!; [done|done|]. by intros []. }
  destruct (pstep_good _ _ _ _ _ _ _ _ _ _ Hi mem) as (q1 & pc1 & E & rest1 & free1 & lf1 & ls1 & Hi1).
  rewrite prun_S, E by done. simpl. destruct (pstep_rank _ _ _ _ _ E Hne) as [Hlt Heff].
  set (s1 := s || _) in *.
  destruct (decide (p_rank pc1 = 0%nat)) as [[ok ->]%p_rank_0|Hne1].
  - exists ok, q1, s1, (e ++ p_effect pc), rest1, free1, lf1, ls1. rewrite prun_ret.
    destruct Heff as [Heff Hok]. split_and!; [done|done|]. intros _. by rewrite Heff.
  - assert (Heff' : p_effect pc = [] ∧ p_elem pc1 = p_elem pc ∧ (p_alloc pc = true → p_alloc pc1 = true)) by (destruct pc1; done).
    destruct Heff' as (Heff' & Hel & Hal). rewrite Heff', app_nil_r in Hi1.
    destruct (IH _ _ _ _ _ _ _ _ Hi1) as (ok & q2 & s2 & e2 & rest2 & free2 & lf2 & ls2 & E2 & Hi2 & Hd2); [lia|].
    exists ok, q2, s2, e2, rest2, free2, lf2, ls2. split_and!; [done|done|]. intros _.
    destruct (Hd2 Hne1) as [-> Hok]. rewrite Hel. split; [done|]. intros [? ->]%andb_true_iff. apply Hok.
    by rewrite Hal.
Qed.

Lemma inner_enqueue_spec canAlloc mem x q l : queue_holds q l →
  ∃ ok q', inner_enqueue canAlloc mem x q = Ok (ok, q') ∧ queue_holds q' (if ok then l ++ [x] else l) ∧
    (canAlloc && mem = true → ok = true).
Proof.
  intros H. destruct (queue_holds_inv q [] l H) as (rest & free & lf & ls & -> & Hi). specialize (Hi true).
  assert (Hi' : inv_at q (Some (P_start canAlloc x)) None (lf ++ concat ls) [] true rest free lf ls).
  { destruct Hi as [? [? ? ?] ? ? ?]. split; [done|by split| |done|done]. by intros ? [= <-]. }
  destruct (prun_good 6 mem _ _ _ _ _ _ _ _ _ _ Hi') as (ok & q' & s' & e' & rest' & free' & lf' & ls' & E & Hi2 & Hd); [done|].
  destruct Hd as [-> Hok]; [done|]. destruct (inv_queue_holds _ _ _ _ _ _ _ _ _ _ Hi2) as (l' & Hl' & El); [right; eauto|by left|].
  exists ok, q'. split_and!; [done| |done]. simpl in El. subst l'. destruct ok; [done|]. by rewrite app_nil_r in Hl'.
Qed.

(** [pop] is a dequeue whose element is dropped. *)
Lemma pop_spec q l : queue_holds q l → ∃ q', pop q = Ok (bool_decide (l ≠ []), q') ∧ queue_holds q' (tl l).
Proof.
  intros (q' & E & H)%try_dequeue_spec. exists q'. unfold pop. rewrite E. simpl. split; [|done]. do 2 f_equal.
  by destruct l.
Qed.

(** ** [peek] *)
Lemma front_elem q i b l : holds q i l → blocks q !! i = Some b → block_wf b → front b ≠ tail b →
  ∃ v l', l = v :: l' ∧ data b !! front b = Some v.
Proof.
  intros Hl Hb Hwf Hne. pose proof (holds_at _ _ _ _ Hl Hb) as Hc. destruct (contents_front b Hwf Hne) as (r & E & _).
  rewrite E in Hc. destruct l as [|v l']; [done|]. injection Hc as Hv _. by exists v, l'.
Qed.

Lemma peek_spec q l : queue_holds q l → ∃ q', peek q = Ok (hd_error l, q') ∧ queue_holds q' l.
Proof.
  intros H. destruct (queue_holds_inv q [] l H) as (rest & free & lf & ls & -> & Hi). specialize (Hi true).
  pose proof Hi as [Hr [Hf Hre Hfr] _ _ _]. simpl in Hf. destruct (ring_front _ _ _ Hr) as (b & Hb & Hwf & Hn).
  unfold peek. rewrite (load_eq _ _ _ Hb). simpl.
  destruct (front b =? localTail b) eqn:E1; zbool; simpl.
  2: { destruct (front_elem _ _ _ _ Hf Hb Hwf) as (v & l' & -> & ->); [by apply localTail_ne|]. by exists q. }
  set (q' := store _ _ q). assert (Hq' : queue_holds q' (lf ++ concat ls)).
  { assert (Hi' : inv_at q' None (Some (C_ret None)) (lf ++ concat ls) [] true rest free lf ls).
    { eapply (localTail_store q None None _ _ true); [exact Hi|exact Hb|by eapply front_not_free| |done].
      by eapply holds_store. }
    destruct (inv_queue_holds _ _ _ _ _ _ _ _ _ _ Hi') as (l' & Hl' & ->); [by left|right; eauto|done]. }
  destruct (front b =? tail b) eqn:E2; zbool; simpl.
  2: { destruct (front_elem _ _ _ _ Hf Hb Hwf E2) as (v & l' & -> & ->). by exists q'. }
  assert (lf = []) as ->.
  { pose proof (holds_at _ _ _ _ Hf Hb) as Hc. rewrite (proj2 (contents_nil b Hwf) E2) in Hc. by destruct lf. }
  pose proof (tail_is_front _ _ _ Hr) as Ht. destruct (frontBlock q =? tailBlock q)%nat eqn:E3; simpl.
  - apply Nat.eqb_eq in E3. assert (rest = []) as -> by (by apply Ht). apply Forall2_nil_inv_l in Hre as ->. by exists q'.
  - apply Nat.eqb_neq in E3. destruct rest as [|nb rest]; [by destruct E3; symmetry; apply Ht|]. simpl in Hn.
    inversion Hre as [|? l0 ? ls' [Hl0 Hne] _]; subst.
    destruct (ring_in _ _ _ (next b) Hr) as (b' & Hb' & Hwf'); [by left|].
    assert (Hne' : next b ≠ frontBlock q).
    { intros E. destruct Hr as [Hnd _ _ _ _ _]. apply NoDup_cons in Hnd as [Hnd _]. apply Hnd. rewrite E. by left. }
    assert (Hb1 : blocks q' !! next b = Some b') by (unfold q'; rewrite lookup_store_ne; done).
    rewrite (load_eq _ _ _ Hb1). simpl.
    assert (Hft : front b' ≠ tail b').
    { intros E. apply (contents_nil b' Hwf') in E. rewrite (holds_at _ _ _ _ Hl0 Hb') in E. by destruct l0. }
    rewrite (proj2 (Z.eqb_neq _ _) Hft). simpl. destruct (front_elem _ _ _ _ Hl0 Hb' Hwf' Hft) as (v & l' & -> & ->).
    by exists q'.
Qed.

(** ** [size_approx] *)
Definition ring_total (f : Block T → Z) q (l : list nat) : Z :=
  foldr (λ i s, match blocks q !! i with Some b => f b + s | None => s end) 0 l.

Lemma ring_sum_chain f q fuel i l acc : chain (blocks q) (i :: l) (frontBlock q) → frontBlock q ∉ l →
  (length l < fuel)%nat → ring_sum fuel f i acc q = Ok (u64 (acc + ring_total f q (i :: l))).
Proof.
  revert i l acc. induction fuel as [|fuel IH]; intros i l acc; [lia|]. intros [(b & Hb & Hn) Hch] Hnf Hlen.
  simpl. rewrite Hb, (load_eq _ _ _ Hb). simpl. rewrite Hn. destruct l as [|j l]; simpl.
  - rewrite Nat.eqb_refl. do 2 f_equal. lia.
  - destruct (j =? frontBlock q)%nat eqn:E; [apply Nat.eqb_eq in E as ->; exfalso; apply Hnf; by left|].
    rewrite (IH j l); [|done|intros ?; apply Hnf; by right|simpl in Hlen; lia]. f_equal. simpl. unfold u64.
    rewrite Zplus_mod_idemp_l. f_equal. lia.
Qed.

Lemma ring_length q rest free : ring_ok q rest free → (length (rest ++ free) < length (blocks q))%nat.
Proof. intros [_ _ _ _ _ _ Hall]. lia. Qed.

Lemma size_mask b : block_wf b → Z.land (u64 (tail b - front b)) (sizeMask b) = count b.
Proof.
  intros [(k & Hk & E) _ _ _ _ _ _]. rewrite E, Z.land_ones by lia. unfold count, dist, slots, u64. rewrite E, Z.ones_equiv.
  replace (Z.pred (2 ^ k) + 1) with (2 ^ k) by lia. replace 64 with (k + (64 - k)) at 1 by lia.
  rewrite Z.pow_add_r by lia. rewrite Z.rem_mul_r by lia. rewrite Z.mul_comm, Z_mod_plus_full. apply Zmod_mod.
Qed.

Lemma ring_total_holds q l ls : (∀ i b, blocks q !! i = Some b → block_wf b) → Forall2 (holds q) l ls →
  ring_total (λ b, Z.land (u64 (tail b - front b)) (sizeMask b)) q l = zlen (concat ls).
Proof.
  intros Hwf Hh. induction Hh as [|i x l ls Hi _ IH]; [done|]. destruct Hi as (b & Hb & Hc). simpl. rewrite Hb.
  pose proof (Hwf _ _ Hb) as Hw. rewrite size_mask by done. rewrite <- (length_contents b Hw), Hc, length_fmap, IH. unfold zlen. rewrite length_app. lia.
Qed.

Lemma size_approx_spec q l : queue_holds q l → size_approx q = Ok (u64 (zlen l)).
Proof.
  intros (rest & free & lf & ls & Hr & [Hf Hre Hfr] & ->). pose proof (ring_length _ _ _ Hr). unfold size_approx.
  rewrite (ring_sum_chain _ _ _ _ (rest ++ free)); [|apply Hr|eapply (λ x, proj1 (proj1 (NoDup_cons _ _) x)); apply Hr|lia].
  do 2 f_equal. rewrite Z.add_0_l.
  rewrite (ring_total_holds q _ (lf :: ls ++ ((λ _, []) <$> free))).
  - rewrite concat_cons, concat_app. replace (concat ((λ _ : nat, []) <$> free)) with (@nil T); [by rewrite app_nil_r|].
    clear. by induction free.
  - apply Hr.
  - constructor; [done|]. apply Forall2_app.
    + eapply Forall2_impl; [exact Hre|]. by intros ? ? [].
    + simpl in Hfr. clear -Hfr. induction Hfr; constructor; done.
Qed.
End Calls.

(** ** [ceilToPow2] *)

(** After smearing, a bit is set when one of the [n] bits from it upwards was. *)
Definition smeared (x y n : Z) : Prop :=
  0 ≤ y ∧ ∀ i, 0 ≤ i → Z.testbit y i = true ↔ ∃ j, 0 ≤ j < n ∧ Z.testbit x (i + j) = true.

Lemma smeared_1 x : 0 ≤ x → smeared x x 1.
Proof.
  intros Hx. split; [done|]. intros i Hi. split.
  - intros H. exists 0. by rewrite Z.add_0_r.
  - intros (j & Hj & H). replace j with 0 in H by lia. by rewrite Z.add_0_r in H.
Qed.
Lemma smeared_double n m x y : 0 ≤ n → m = n + n → smeared x y n → smeared x (smear y n) m.
Proof.
  intros Hn -> [Hy Hs]. unfold smear. split; [apply Z.lor_nonneg; split; [done|by apply Z.shiftr_nonneg]|]. intros i Hi.
  rewrite Z.lor_spec, orb_true_iff, Z.shiftr_spec by done. rewrite !Hs by lia. split.
  - intros [(j & Hj & H)|(j & Hj & H)]; [by exists j; split; [lia|]|]. exists (n + j). split; [lia|]. by rewrite Z.add_assoc.
  - intros (j & Hj & H). destruct (Z.lt_ge_cases j n); [left; by exists j; split; [lia|]|right].
    exists (j - n). split; [lia|]. by replace (i + n + (j - n)) with (i + j) by lia.
Qed.
Lemma smeared_ones x y : 0 < x < 2 ^ 64 → smeared x y 64 → y = Z.ones (Z.log2 x + 1).
Proof.
  intros Hx [Hy Hs]. pose proof (Z.log2_nonneg x). assert (Z.log2 x < 64) by (apply Z.log2_lt_pow2; lia).
  apply Z.bits_inj'. intros i Hi. rewrite Z.testbit_ones by lia. rewrite (proj2 (Z.leb_le 0 i)) by done. simpl.
  apply eq_true_iff_eq. rewrite Hs, Z.ltb_lt by done. split.
  - intros (j & Hj & H'). destruct (Z.lt_ge_cases i (Z.log2 x + 1)); [done|]. rewrite Z.bits_above_log2 in H'; [done|lia|lia].
  - intros Hlt. exists (Z.log2 x - i). split; [lia|]. replace (i + (Z.log2 x - i)) with (Z.log2 x) by lia.
    apply Z.bit_log2. lia.
Qed.

Lemma ceilToPow2_spec x : 1 ≤ x ≤ 2 ^ 63 → ceilToPow2 x = 2 ^ Z.log2_up x.
Proof.
  intros Hx. unfold ceilToPow2. rewrite (u64_small (x - 1)) by lia.
  destruct (decide (x = 1)) as [->|Hx1]; [done|].
  assert (H1 : smeared (x - 1) (x - 1) 1) by (apply smeared_1; lia).
  apply (smeared_double 1 2) in H1; [|lia..]. apply (smeared_double 2 4) in H1; [|lia..].
  apply (smeared_double 4 8) in H1; [|lia..]. apply (smeared_double 8 16) in H1; [|lia..].
  apply (smeared_double 16 32) in H1; [|lia..]. apply (smeared_double 32 64) in H1; [|lia..].
  change (Z.shiftl 1 3) with 8. change (Z.shiftl 2 3) with 16. change (Z.shiftl 4 3) with 32.
  apply smeared_ones in H1; [|lia]. rewrite H1. rewrite Z.ones_equiv. unfold Z.log2_up.
  rewrite (proj2 (Z.compare_lt_iff 1 x)) by lia. replace (Z.pred x) with (x - 1) by lia.
  assert (Z.log2 (x - 1) < 63) by (apply Z.log2_lt_pow2; lia).
  assert (2 ^ (Z.log2 (x - 1) + 1) ≤ 2 ^ 63) by (apply Z.pow_le_mono_r; lia).
  pose proof (Z.log2_nonneg (x - 1)). replace (Z.succ (Z.log2 (x - 1))) with (Z.log2 (x - 1) + 1) by lia.
  replace (Z.pred (2 ^ (Z.log2 (x - 1) + 1)) + 1) with (2 ^ (Z.log2 (x - 1) + 1)) by lia.
  apply u64_small. split; [apply Z.pow_nonneg; lia|]. lia.
Qed.

(** ** The constructor *)
Section Constructor.
Context {T : Type}.
Implicit Types (b : Block T) (q : ReaderWriterQueue T).

Lemma empty_block k n : 1 ≤ k ≤ 10 → block_wf (make_block (T:=T) (2 ^ k) n) ∧ contents (make_block (T:=T) (2 ^ k) n) = [].
Proof.
  intros Hk. assert (H2 : 2 ^ 1 ≤ 2 ^ k) by (apply Z.pow_le_mono_r; lia).
  assert (H10 : 2 ^ k ≤ 2 ^ 10) by (apply Z.pow_le_mono_r; lia). change (2 ^ 1) with 2 in H2. change (2 ^ 10) with 1024 in H10.
  assert (Hw : block_wf (make_block (T:=T) (2 ^ k) n)).
  { assert (Hm : sizeMask (make_block (T:=T) (2 ^ k) n) = 2 ^ k - 1) by (apply u64_small; lia).
    split; unfold count, slots; rewrite ?Hm; simpl; unfold dist; rewrite ?Z.mod_0_l by lia; try lia.
    exists k. rewrite Z.ones_equiv. simpl in Hm. lia. }
  split; [done|]. by apply contents_nil.
Qed.

(** The ring that the loop builds. *)
Definition ring_shape (bs : list (Block T)) : Prop :=
  ∀ i, (i < length bs)%nat → bs !! i = Some (make_block MAX_BLOCK_SIZE (if decide (S i = length bs) then 0%nat else S i)).

Lemma ring_shape_snoc bs : ring_shape bs →
  ring_shape (alter (with_next (length bs)) (pred (length bs)) bs ++ [make_block MAX_BLOCK_SIZE 0]).
Proof.
  intros Hs i. rewrite length_app, length_alter, Nat.add_1_r. simpl. intros Hi.
  destruct (decide (i = length bs)) as [->|Hne].
  { rewrite lookup_app_r, length_alter, Nat.sub_diag by (rewrite length_alter; lia). by rewrite decide_True. }
  rewrite lookup_app_l by (rewrite length_alter; lia). rewrite decide_False by lia.
  destruct (decide (i = pred (length bs))) as [E|Hne'].
  - rewrite <- E, list_lookup_alter_eq, Hs by lia. simpl. rewrite decide_True by lia. f_equal. by replace (length bs) with (S i) by lia.
  - rewrite list_lookup_alter_ne, Hs by lia. by rewrite decide_False by lia.
Qed.

Lemma init_blocks_shape malloc_ n bs bs' : init_blocks malloc_ n bs = Ok bs' → ring_shape bs →
  ring_shape bs' ∧ length bs' = (n + length bs)%nat.
Proof.
  revert bs. induction n as [|n IH]; simpl; intros bs E Hs; inv_ok; [done|].
  destruct (IH _ E (ring_shape_snoc bs Hs)) as [Hs' Hl]. split; [done|].
  rewrite Hl, length_app, length_alter. simpl. lia.
Qed.

Lemma shape_chain bs i n : ring_shape bs → (i + n = length bs)%nat → chain bs (seq i n) 0.
Proof.
  intros Hs. revert i. induction n as [|n IH]; intros i Hi; simpl; [done|]. split; [|apply IH; lia].
  eexists. split; [apply Hs; lia|]. simpl. destruct n; simpl; [by rewrite decide_True by lia|by rewrite decide_False by lia].
Qed.

(** A ring of empty blocks, all but the first free. *)
Lemma fresh_queue bs largest :
  (0 < length bs)%nat → chain bs (seq 0 (length bs)) 0 → (∀ i b, bs !! i = Some b → block_wf b ∧ contents b = []) →
  (∃ k, 1 ≤ k ≤ 10 ∧ largest = 2 ^ k) →
  queue_holds {| blocks := bs; frontBlock := 0; tailBlock := 0; largestBlockSize := largest |} [].
Proof.
  intros Hlen Hch Hb Hlg. destruct (length bs) as [|n] eqn:E; [lia|]. rewrite <- cons_seq in Hch.
  assert (Hh : ∀ i q, (i < S n)%nat → blocks q = bs → holds q i []).
  { intros i q Hi Hq. destruct (lookup_lt_is_Some_2 bs i) as [b Hi']; [lia|]. exists b. rewrite Hq. split; [done|]. apply (Hb _ _ Hi'). }
  exists [], (seq 1 n), [], []. split_and!; [split; simpl|split; simpl|done]; try done.
  - rewrite cons_seq. apply NoDup_seq.
  - intros i. rewrite cons_seq, E, elem_of_seq. lia.
  - intros i b Hi. by apply (Hb i).
  - by rewrite length_seq.
  - by apply Hh; [lia|].
  - apply Forall_forall. intros i Hi%elem_of_seq. by apply Hh; [lia|].
Qed.

Theorem new_queue_spec malloc_ size q : 1 ≤ size < 2 ^ 32 → new_ReaderWriterQueue malloc_ size = Ok q → queue_holds q [].
Proof.
  intros Hs. unfold new_ReaderWriterQueue. rewrite (u64_small (size + 1)), ceilToPow2_spec by lia.
  assert (1 ≤ Z.log2_up (size + 1)) by (apply (Z.log2_up_le_mono 2); lia).
  destruct (2 ^ Z.log2_up (size + 1) >? MAX_BLOCK_SIZE * 2) eqn:E; intros Hq; inv_ok; zbool; unfold MAX_BLOCK_SIZE in *.
  - rewrite u64_small in * by lia. destruct (init_blocks_shape _ _ _ _ E0) as [Hsh Hl]; [by intros i ?%Nat.nlt_0_r|].
    assert (1 ≤ (size + 512 * 2 - 3) / (512 - 1)) by (apply Z.div_le_lower_bound; lia).
    simpl in Hl. apply fresh_queue; [lia|by apply shape_chain| |by exists 9].
    intros i b Hi. rewrite Hsh in Hi by (by eapply lookup_lt_Some). injection Hi as <-. by apply (empty_block 9).
  - assert (Hk : 1 ≤ Z.log2_up (size + 1) ≤ 10).
    { split; [done|]. apply (Z.pow_le_mono_r_iff 2); [lia|lia|]. change (2 ^ 10) with 1024. lia. }
    apply fresh_queue; simpl; [lia| | |by eexists].
    + split; [|done]. by eexists.
    + intros [|i] b; [|done]. intros [= <-]. by apply empty_block.
Qed.
End Constructor.

(** ** A queue of one block as a bounded list

    The queue of containers has one block: [ceilToPow2 (32 + 1) - 1] slots for elements. *)
Section OneBlock.
Context {T : Type}.
Implicit Types (b : Block T) (q : ReaderWriterQueue T).

Definition one_block (cap : Z) q (l : list T) : Prop :=
  queue_holds q l ∧ length (blocks q) = 1%nat ∧ Forall (λ b, sizeMask b = cap) (blocks q).

Lemma one_block_inv cap q l : one_block cap q l →
  ∃ b, blocks q = [b] ∧ frontBlock q = 0%nat ∧ tailBlock q = 0%nat ∧ next b = 0%nat ∧ block_wf b ∧ sizeMask b = cap ∧ zlen l = count b.
Proof.
  intros ((rest & free & lf & ls & Hr & [Hf Hre Hfr] & ->) & Hl & Hc). pose proof (ring_length _ _ _ Hr) as Hlen.
  destruct (rest ++ free) eqn:E; [|simpl in Hlen; lia]. apply app_nil in E as [-> ->]. apply Forall2_nil_inv_l in Hre as ->.
  destruct (ring_front _ _ _ Hr) as (b & Hb & Hwf & Hn). pose proof (proj2 (tail_is_front _ _ _ Hr) eq_refl) as Ht.
  pose proof (holds_at _ _ _ _ Hf Hb) as Hcont. destruct (blocks q) as [|b0 [|]] eqn:Eb; simpl in *; [done| |lia].
  apply Forall_cons in Hc as [Hc _]. destruct (frontBlock q) as [|i] eqn:Ef; [|done]. injection Hb as ->. exists b.
  split_and!; try done. rewrite app_nil_r. rewrite <- (length_contents b Hwf), Hcont, length_fmap. done.
Qed.

Lemma one_block_count cap q l : one_block cap q l → 0 ≤ zlen l ≤ cap ∧ cap < 2 ^ 63.
Proof.
  intros (b & _ & _ & _ & _ & Hwf & <- & ->)%one_block_inv. pose proof (count_range b Hwf). pose proof (bw_slots b Hwf).
  unfold slots in *. lia.
Qed.

(** What the steps of a call without allocation do to the blocks. *)
Definition same_blocks q q' : Prop := Forall2 (λ b b', sizeMask b' = sizeMask b) (blocks q) (blocks q').
Lemma same_blocks_refl q : same_blocks q q.
Proof. unfold same_blocks. by induction (blocks q); constructor. Qed.
Lemma same_blocks_store q i b b' q0 : same_blocks q0 q → blocks q !! i = Some b → sizeMask b' = sizeMask b →
  same_blocks q0 (store i b' q).
Proof.
  unfold same_blocks. simpl. intros Hs Hi E. apply Forall2_lookup. intros j. rewrite Forall2_lookup in Hs. specialize (Hs j).
  destruct (decide (i = j)) as [->|]; [|by rewrite list_lookup_insert_ne].
  rewrite list_lookup_insert_eq by (by eapply lookup_lt_Some). rewrite Hi in Hs. inversion Hs as [x y E'|]; subst.
  constructor. congruence.
Qed.

Lemma load_inv q i b : load i q = Ok b → blocks q !! i = Some b.
Proof. unfold load. case_match; congruence. Qed.

Ltac blocks_kept := repeat match goal with
  | H : load _ _ = Ok _ |- _ => apply load_inv in H
  | |- same_blocks ?q ?q => apply same_blocks_refl
  | |- same_blocks _ (store _ _ _) => eapply same_blocks_store; [|eassumption|reflexivity]
  | |- same_blocks _ (set_frontBlock _ ?q) => change (same_blocks q q)
  | |- same_blocks _ (set_tailBlock _ ?q) => change (same_blocks q q)
  end.

Lemma cstep_blocks pc q q' pc' : cstep pc q = Ok (q', pc') → same_blocks q q'.
Proof.
  destruct pc; simpl; intros E; inv_ok; repeat (case_match; inv_ok); simplify_eq; blocks_kept.
Qed.

Definition p_noalloc (pc : ppc T) : Prop :=
  match pc with P_start ca _ | P_check ca _ _ _ _ | P_full ca _ _ => ca = false | P_alloc _ _ => False | _ => True end.
Lemma pstep_blocks mem pc q q' pc' : pstep mem pc q = Ok (q', pc') → p_noalloc pc → same_blocks q q' ∧ p_noalloc pc'.
Proof.
  destruct pc; simpl; intros E Hn; try done; inv_ok; repeat (case_match; inv_ok); simplify_eq; (split; [blocks_kept|done]).
Qed.

Lemma same_blocks_trans q1 q2 q3 : same_blocks q1 q2 → same_blocks q2 q3 → same_blocks q1 q3.
Proof.
  unfold same_blocks. intros H1. generalize (blocks q3). induction H1; inversion 1; subst; constructor; [congruence|auto].
Qed.

Lemma crun_blocks n pc q r q' : crun n pc q = Ok (r, q') → same_blocks q q'.
Proof.
  revert pc q. induction n as [|n IH]; intros pc q E.
  { destruct pc; try done. simpl in E. inv_ok. apply same_blocks_refl. }
  destruct (decide (c_rank pc = 0%nat)) as [[r0 ->]%c_rank_0|Hne]; [simpl in E; inv_ok; apply same_blocks_refl|].
  rewrite crun_S in E by done. inv_ok. destruct r0 as [q1 pc1]. eapply same_blocks_trans; [by eapply cstep_blocks|eauto].
Qed.
Lemma prun_blocks n mem pc q ok q' : prun n mem pc q = Ok (ok, q') → p_noalloc pc → same_blocks q q'.
Proof.
  revert pc q. induction n as [|n IH]; intros pc q E Hn.
  { destruct pc; try done. simpl in E. inv_ok. apply same_blocks_refl. }
  destruct (decide (p_rank pc = 0%nat)) as [[r0 ->]%p_rank_0|Hne]; [simpl in E; inv_ok; apply same_blocks_refl|].
  rewrite prun_S in E by done. inv_ok. destruct r as [q1 pc1].
  destruct (pstep_blocks _ _ _ _ _ E0 Hn). eapply same_blocks_trans; eauto.
Qed.

Lemma one_block_kept cap q l q' l' : one_block cap q l → same_blocks q q' → queue_holds q' l' → one_block cap q' l'.
Proof.
  intros (_ & Hl & Hc) Hs Hq. split; [done|]. split; [by rewrite <- (Forall2_length _ _ _ Hs)|].
  unfold same_blocks in Hs. revert Hc. clear -Hs. induction Hs as [|b b' bs bs' E _ IH]; [done|].
  intros [Hb Hc]%Forall_cons. constructor; [congruence|auto].
Qed.

(** An enqueue without allocation fails exactly when the block is full. *)
Lemma write_run n mem x tb bt nt q b : load tb q = Ok b → ∃ q', prun (S (S n)) mem (P_write x tb bt nt) q = Ok (true, q').
Proof.
  intros Hb. rewrite prun_S by done. cbn [pstep]. rewrite Hb. cbn [mbind result_bind].
  rewrite prun_S by done. cbn [pstep]. rewrite (load_eq _ _ _ (lookup_store_eq _ _ _ _ (load_inv _ _ _ Hb))).
  cbn [mbind result_bind]. rewrite prun_ret. by eexists.
Qed.

Lemma check_run n mem ca x tb bt nt q b : load tb q = Ok b → nt ≠ front b →
  ∃ q', prun (S (S (S n))) mem (P_check ca x tb bt nt) q = Ok (true, q').
Proof.
  intros Hb Hn. rewrite prun_S by done. cbn [pstep]. rewrite Hb. cbn [mbind result_bind].
  rewrite (proj2 (Z.eqb_neq _ _) Hn). cbn [negb].
  eapply write_run, load_eq, lookup_store_eq, load_inv, Hb.
Qed.

Lemma start_run mem ca x q b : load (tailBlock q) q = Ok b → succ_slot (tail b) b ≠ front b →
  ∃ q', inner_enqueue ca mem x q = Ok (true, q').
Proof.
  intros Hb Hn. unfold inner_enqueue. rewrite prun_S by done. cbn [pstep]. rewrite Hb. cbn [mbind result_bind].
  destruct (negb _); [by eapply (write_run 3)|by eapply (check_run 2)].
Qed.

Lemma try_enqueue_room cap x q l : one_block cap q l → zlen l < cap → ∃ q', inner_enqueue false false x q = Ok (true, q').
Proof.
  intros (b & Eb & Ef & Et & En & Hwf & Hc & Hz)%one_block_inv Hl. apply (start_run _ _ _ _ b).
  { unfold load. by rewrite Eb, Et. }
  rewrite succ_slot_nxt by (done || apply Hwf). intros E. pose proof (bw_slots b Hwf).
  assert (count b + 1 < slots b) by (unfold slots in *; lia). destruct Hwf. unfold count in *. cyc.
Qed.

Lemma try_enqueue_one cap x q l : one_block cap q l → ∃ ok q',
  try_enqueue x q = Ok (ok, q') ∧ ok = (zlen l <? cap) ∧ one_block cap q' (if ok then l ++ [x] else l).
Proof.
  intros H. destruct (inner_enqueue_spec false false x q l (proj1 H)) as (ok & q' & E & Hq & _).
  assert (Hb : one_block cap q' (if ok then l ++ [x] else l)).
  { eapply one_block_kept; [exact H|exact (prun_blocks _ _ _ _ _ _ E eq_refl)|done]. }
  exists ok, q'. split; [exact E|]. split; [|done]. pose proof (one_block_count _ _ _ Hb) as Hn. symmetry. destruct ok.
  - apply Z.ltb_lt. revert Hn. clear. unfold zlen. rewrite length_app. simpl. lia.
  - apply Z.ltb_ge. destruct (Z.lt_ge_cases (zlen l) cap) as [Hlt|]; [|lia].
    destruct (try_enqueue_room cap x q l H Hlt) as [q1 E1]. rewrite E1 in E. injection E. discriminate.
Qed.

Lemma try_dequeue_blocks q r q' : try_dequeue q = Ok (r, q') → same_blocks q q'.
Proof. apply crun_blocks. Qed.
Lemma try_dequeue_one cap q l : one_block cap q l → ∃ q', try_dequeue q = Ok (hd_error l, q') ∧ one_block cap q' (tl l).
Proof.
  intros H. destruct (try_dequeue_spec q l (proj1 H)) as (q' & E & Hq). exists q'. split; [exact E|].
  eapply one_block_kept; [exact H|exact (try_dequeue_blocks _ _ _ E)|exact Hq].
Qed.

Lemma peek_blocks q r q' : peek q = Ok (r, q') → same_blocks q q'.
Proof. unfold peek. intros E. inv_ok. repeat (case_match; inv_ok); simplify_eq; blocks_kept. Qed.

(** The operations, and the same operations on a list of at most [cap] elements. *)
Inductive op := Try_enqueue (x : T) | Try_dequeue | Pop | Peek | Size_approx.
Inductive answer := A_bool (b : bool) | A_elem (r : option T) | A_size (n : Z).
Definition run_op (o : op) q : result (answer * ReaderWriterQueue T) :=
  match o with
  | Try_enqueue x => '(ok, q) ← try_enqueue x q; Ok (A_bool ok, q)
  | Try_dequeue => '(r, q) ← try_dequeue q; Ok (A_elem r, q)
  | Pop => '(ok, q) ← pop q; Ok (A_bool ok, q)
  | Peek => '(r, q) ← peek q; Ok (A_elem r, q)
  | Size_approx => n ← size_approx q; Ok (A_size n, q)
  end.
Definition ref_op (cap : Z) (o : op) (l : list T) : answer * list T :=
  match o with
  | Try_enqueue x => if zlen l <? cap then (A_bool true, l ++ [x]) else (A_bool false, l)
  | Try_dequeue => (A_elem (hd_error l), tl l)
  | Pop => (A_bool (bool_decide (l ≠ [])), tl l)
  | Peek => (A_elem (hd_error l), l)
  | Size_approx => (A_size (zlen l), l)
  end.
Fixpoint run_ops (os : list op) q : result (list answer) :=
  match os with [] => Ok [] | o :: os => '(a, q) ← run_op o q; l ← run_ops os q; Ok (a :: l) end.
Fixpoint ref_ops (cap : Z) (os : list op) (l : list T) : list answer :=
  match os with [] => [] | o :: os => let '(a, l) := ref_op cap o l in a :: ref_ops cap os l end.

Lemma run_op_spec cap o q l : one_block cap q l →
  ∃ q', run_op o q = Ok ((ref_op cap o l).1, q') ∧ one_block cap q' (ref_op cap o l).2.
Proof.
  intros H. destruct o as [x| | | |]; simpl.
  - destruct (try_enqueue_one cap x q l H) as (ok & q' & E & -> & Hq). exists q'. rewrite E. by destruct (zlen l <? cap).
  - destruct (try_dequeue_one cap q l H) as (q' & E & Hq). exists q'. by rewrite E.
  - destruct (try_dequeue_one cap q l H) as (q' & E & Hq). exists q'. unfold pop. rewrite E. split; [|done].
    simpl. by destruct l.
  - destruct (peek_spec q l (proj1 H)) as (q' & E & Hq). exists q'. rewrite E. split; [done|].
    eapply one_block_kept; [exact H|by eapply peek_blocks|done].
  - exists q. rewrite (size_approx_spec q l (proj1 H)). simpl. split; [|done]. pose proof (one_block_count _ _ _ H).
    rewrite u64_small by lia. done.
Qed.

Lemma run_ops_spec cap os q l : one_block cap q l → run_ops os q = Ok (ref_ops cap os l).
Proof.
  revert q l. induction os as [|o os IH]; intros q l H; simpl; [done|].
  destruct (run_op_spec cap o q l H) as (q' & -> & Hq). simpl. rewrite (IH _ _ Hq). simpl. by destruct (ref_op cap o l).
Qed.

Lemma new_one_block malloc_ size : 1 ≤ size < 1024 → malloc_ 0%nat = true →
  ∃ q, new_ReaderWriterQueue (T:=T) malloc_ size = Ok q ∧ one_block (2 ^ Z.log2_up (size + 1) - 1) q [].
Proof.
  intros Hs Hm.
  assert (Hk : 1 ≤ Z.log2_up (size + 1) ≤ 10).
  { split; [apply (Z.log2_up_le_mono 2); lia|]. apply (Z.log2_up_le_mono _ 1024). lia. }
  assert (H10 : 2 ^ Z.log2_up (size + 1) ≤ 2 ^ 10) by (apply Z.pow_le_mono_r; lia). change (2 ^ 10) with 1024 in H10.
  assert (0 < 2 ^ Z.log2_up (size + 1)) by (apply Z.pow_pos_nonneg; lia).
  assert (E : ∃ q, new_ReaderWriterQueue (T:=T) malloc_ size = Ok q ∧
    blocks q = [make_block (2 ^ Z.log2_up (size + 1)) 0]).
  { unfold new_ReaderWriterQueue. rewrite (u64_small (size + 1)), ceilToPow2_spec by lia.
    destruct (_ >? _) eqn:E; zbool; unfold MAX_BLOCK_SIZE in *; [lia|]. rewrite Hm. by eexists. }
  destruct E as (q & E & Eb). exists q. split; [done|]. split; [eapply new_queue_spec, E; lia|]. rewrite Eb.
  split; [done|]. constructor; [|done]. simpl. apply u64_small. lia.
Qed.
End OneBlock.

(** ** The properties *)

Lemma reachable_inv {T} (q : ReaderWriterQueue T) c : queue_holds q [] → reachable q c → inv c.
Proof.
  intros Hq Hr. assert (Hi : inv (start q)).
  { destruct (queue_holds_inv q [] [] Hq) as (rest & free & lf & ls & _ & Hi). apply inv_alt. exists rest, free, lf, ls. apply Hi. }
  induction Hr as [|c1 c2 c3 Hs1 _ IH]; [done|]. apply IH. by eapply step_inv.
Qed.

(** C10: one producer thread and one consumer thread on a newly constructed container
    queue, in every interleaving of their atomic steps and with every outcome of the
    allocations: no step of either thread is undefined (no uninitialised slot is read,
    no assertion of the queue fails), the elements dequeued so far are a prefix, in
    order, of the elements enqueued so far, and a dequeue that reports an empty queue
    did find it empty at some moment of the call. *)
Theorem spsc_fifo {T} malloc_ size (q : ReaderWriterQueue T) c :
  1 ≤ size < 2 ^ 32 → new_ReaderWriterQueue malloc_ size = Ok q → reachable q c →
  (∃ l, enqueued c = dequeued c ++ l) ∧
  (∀ pc mem, c_p c = Some pc → ∃ r, pstep mem pc (c_q c) = Ok r) ∧
  (∀ pc, c_c c = Some pc → ∃ r, cstep pc (c_q c) = Ok r) ∧
  (c_c c = Some (C_ret None) → empty_seen c = true).
Proof.
  intros Hs Hq Hr. by destruct (inv_fifo _ (reachable_inv q c (new_queue_spec _ _ _ Hs Hq) Hr)).
Qed.

Definition queue_32 : ReaderWriterQueue nat :=
  match new_ReaderWriterQueue (λ _, true) 32 with Ok q => q | Err _ => {| blocks := []; frontBlock := 0; tailBlock := 0; largestBlockSize := 0 |} end.
Lemma spsc_fifo_witness :
  let c := {| c_q := queue_32; c_p := Some (P_write 7%nat 0 0 1); c_c := Some C_start; enqueued := []; dequeued := []; empty_seen := true |} in
  reachable queue_32 c ∧ ∃ r, pstep true (P_write 7%nat 0 0 1) queue_32 = Ok r.
Proof.
  intros c. assert (Hr : reachable queue_32 c).
  { eapply rtc_l; [apply (call_enqueue false 7%nat)|]. eapply rtc_l; [apply call_dequeue|].
    eapply rtc_l; [by apply (step_enqueue true)|]. apply rtc_refl. }
  split; [exact Hr|]. destruct (spsc_fifo (λ _, true) 32 queue_32 c) as (_ & Hp & _); [done|vm_compute; reflexivity|exact Hr|].
  by apply Hp.
Defined.

(** C13: a queue constructed for at least one and fewer than 1024 elements, with memory for
    its block, answers every sequence of
    calls that no other thread interferes with as a list of bounded length does: first
    in, first out; [try_enqueue] fails exactly when the block is full, which is never
    before [size] elements are waiting; [try_dequeue], [pop] and [peek] agree on the
    front element; [size_approx] is exact. *)
Theorem queue_refines_list {T} malloc_ size (os : list (op (T:=T))) :
  1 ≤ size < 1024 → malloc_ 0%nat = true →
  let cap := 2 ^ Z.log2_up (size + 1) - 1 in
  size ≤ cap ∧ (q ← new_ReaderWriterQueue malloc_ size; run_ops os q) = Ok (ref_ops cap os []).
Proof.
  intros Hs Hm cap. split.
  - pose proof (Z.log2_up_spec (size + 1)) as [_ H]; unfold cap; lia.
  - destruct (new_one_block (T:=T) malloc_ size Hs Hm) as (q & -> & H). cbn [mbind result_bind]. by apply run_ops_spec.
Qed.

Lemma queue_refines_list_witness :
  (q ← new_ReaderWriterQueue (λ _, true) 1; run_ops [Try_enqueue 5%nat; Try_enqueue 6%nat; Peek; Size_approx; Try_dequeue; Pop] q)
  = Ok [A_bool true; A_bool false; A_elem (Some 5%nat); A_size 1; A_elem (Some 5%nat); A_bool false].
Proof.
  refine (proj2 (queue_refines_list (λ _, true) 1
    [Try_enqueue 5%nat; Try_enqueue 6%nat; Peek; Size_approx; Try_dequeue; Pop] _ _)); [done|reflexivity].
Defined.
