(* ===== verification/QueueDestroy.v ===== *)
(** * Destroying and moving the container queue

    What the destructor of [Queue.v] does to a queue that two threads have used: every
    element that is left is destroyed, every block is freed, each of them once. *)
From Stdlib Require Import ZArith Lia.
From stdpp Require Import base tactics numbers list gmap.
From S2P Require Import Prelude Queue QueueThreads QueueSpec.
#[local] Open Scope Z_scope.

Section Destroy.
Context {T : Type}.
Implicit Types (b : Block T) (q : ReaderWriterQueue T).

(** ** One block *)

Lemma destroy_slots_ext n i t b b' : data b' = data b → sizeMask b' = sizeMask b → destroy_slots n i t b' = destroy_slots n i t b.
Proof.
  intros Hd Hm. revert i. induction n as [|n IH]; intros i; simpl; [done|].
  unfold succ_slot. rewrite Hd, Hm. fold (succ_slot i b). by rewrite IH.
Qed.

Lemma destroy_slots_spec n b l : block_wf b → contents b = Some <$> l → (length l ≤ n)%nat →
  destroy_slots n (front b) (tail b) b = Ok l.
Proof.
  revert b l. induction n as [|n IH]; intros b l Hwf Hc Hn.
  { destruct l; [|simpl in Hn; lia]. simpl. rewrite (proj1 (contents_nil b Hwf) Hc). by rewrite Z.eqb_refl. }
  destruct (Z.eqb_spec (front b) (tail b)) as [E|Hne]; simpl.
  - rewrite E, Z.eqb_refl. apply (contents_nil b Hwf) in E. rewrite E in Hc. by destruct l.
  - rewrite (proj2 (Z.eqb_neq _ _) Hne). destruct (contents_front b Hwf Hne) as (r & Hr & _). rewrite Hr in Hc.
    destruct l as [|v l]; [done|]. injection Hc as -> Hc. rewrite succ_slot_nxt by (done || apply Hwf).
    set (b' := with_front (nxt (slots b) (front b)) (with_localTail (tail b) b)).
    rewrite <- (destroy_slots_ext _ _ _ b b') by done.
    assert (Hwf' : block_wf b').
    { pose proof (bw_slots b Hwf). destruct Hwf. split; unfold b', count, slots in *; simpl; try done; cyc. }
    assert (Hc' : contents b' = Some <$> l).
    { change (contents b') with (contents (with_front (nxt (slots b) (front b)) b)). rewrite contents_pop, Hr by done. done. }
    change (nxt (slots b) (front b)) with (front b'). change (tail b) with (tail b').
    rewrite (IH b' l Hwf' Hc') by (simpl in Hn; lia). done.
Qed.

(** ** The ring *)

Lemma destroy_blocks_spec fuel i l ls freed q : (∀ j b, blocks q !! j = Some b → block_wf b) →
  chain (blocks q) (i :: l) (frontBlock q) → frontBlock q ∉ l → NoDup (freed ++ i :: l) → Forall2 (holds q) (i :: l) ls →
  (length l < fuel)%nat → destroy_blocks fuel i freed q = Ok (concat ls, freed ++ i :: l).
Proof.
  intros Hwf. revert i l ls freed. induction fuel as [|fuel IH]; intros i l ls freed; [lia|].
  intros [(b & Hb & Hn) Hch] Hnf Hnd Hh Hlen. apply Forall2_cons_inv_l in Hh as (x & ls' & Hx & Hh & ->).
  pose proof (holds_at _ _ _ _ Hx Hb) as Hc. pose proof (Hwf _ _ Hb) as Hw.
  assert (Hi : i ∉ freed).
  { intros Hi. apply NoDup_app in Hnd as (_ & Hd & _). apply (Hd _ Hi). by left. }
  simpl. rewrite bool_decide_false, (load_eq _ _ _ Hb) by done. simpl.
  rewrite (destroy_slots_spec _ b x Hw Hc).
  2: { pose proof (length_contents b Hw) as Hl. pose proof (count_range b Hw) as Hr. rewrite Hc, length_fmap in Hl.
       unfold slots in Hr. lia. }
  simpl. rewrite Hn. destruct l as [|j l]; simpl.
  - apply Forall2_nil_inv_l in Hh as ->. rewrite Nat.eqb_refl. simpl. by rewrite app_nil_r.
  - destruct (j =? frontBlock q)%nat eqn:E; [apply Nat.eqb_eq in E as ->; exfalso; apply Hnf; by left|].
    rewrite (IH j l ls' (freed ++ [i])); [|done|intros ?; apply Hnf; by right| |done|simpl in Hlen; lia].
    + simpl. by rewrite <- app_assoc.
    + by rewrite <- app_assoc.
Qed.

Lemma all_blocks q rest free : ring_ok q rest free → frontBlock q :: rest ++ free ≡ₚ seq 0 (length (blocks q)).
Proof.
  intros [Hnd Hrg _ _ _ _ Hall]. apply submseteq_length_Permutation.
  - apply NoDup_submseteq; [done|]. intros i Hi%Hrg. apply elem_of_seq. lia.
  - rewrite length_seq, Hall. done.
Qed.

Lemma destroy_spec q l : queue_holds q l →
  ∃ freed, destroy_ReaderWriterQueue q = Ok (l, freed) ∧ freed ≡ₚ seq 0 (length (blocks q)).
Proof.
  intros (rest & free & lf & ls & Hr & [Hf Hre Hfr] & ->). exists (frontBlock q :: rest ++ free).
  split; [|by apply all_blocks]. unfold destroy_ReaderWriterQueue. pose proof (ring_length _ _ _ Hr) as Hlen.
  replace (lf ++ concat ls) with (concat (lf :: ls ++ ((λ _, []) <$> free))).
  2: { rewrite concat_cons, concat_app. replace (concat ((λ _ : nat, []) <$> free)) with (@nil T); [by rewrite app_nil_r|].
       clear. by induction free. }
  apply (destroy_blocks_spec _ _ _ _ []); [apply Hr|apply Hr| |apply Hr| |exact Hlen].
  - eapply (λ x, proj1 (proj1 (NoDup_cons _ _) x)); apply Hr.
  - constructor; [done|]. apply Forall2_app.
    + eapply Forall2_impl; [exact Hre|]. by intros ? ? [].
    + simpl in Hfr. clear -Hfr. induction Hfr; constructor; done.
Qed.

(** ** Moving *)

Lemma move_spec q l : queue_holds q l →
  ∃ q' other, move_ReaderWriterQueue true q = Ok (q', other) ∧ queue_holds q' l ∧ queue_holds other [].
Proof.
  intros Hq. eexists _, _. split; [done|]. split; [done|]. apply fresh_queue; simpl; [lia| | |by exists 5].
  - split; [|done]. by eexists.
  - intros [|i] b; [|done]. intros [= <-]. by apply (empty_block 5).
Qed.
End Destroy.

(** C14: whatever two threads have done to a newly constructed queue, in any interleaving
    and with any number of blocks allocated on the way, once both calls have returned the
    destructor destroys exactly the elements that were enqueued and not dequeued, in order,
    and frees every block of the queue exactly once: nothing leaks, nothing is destroyed or
    freed twice, no empty slot and no freed block is touched. *)
Theorem destroy_frees_all {T} malloc_ size (q : ReaderWriterQueue T) c :
  1 ≤ size < 2 ^ 32 → new_ReaderWriterQueue malloc_ size = Ok q → reachable q c → c_p c = None → c_c c = None →
  ∃ l freed, enqueued c = dequeued c ++ l ∧ destroy_ReaderWriterQueue (c_q c) = Ok (l, freed) ∧
  freed ≡ₚ seq 0 (length (blocks (c_q c))).
Proof.
  intros Hs Hq Hr Hp Hc. pose proof (reachable_inv q c (new_queue_spec _ _ _ Hs Hq) Hr) as Hi. apply inv_alt in Hi as (rest & free & lf & ls & Hi).
  rewrite Hp, Hc in Hi. destruct (inv_queue_holds _ _ _ _ _ _ _ _ _ _ Hi) as (l & Hl & E); [by left|by left|].
  destruct (destroy_spec _ _ Hl) as (freed & Hd & Hf). by exists l, freed.
Qed.

(** One element enqueued and not dequeued. *)
Definition after_one_enqueue : config (T:=nat) :=
  {| c_q := match try_enqueue 7%nat queue_32 with Ok (_, q) => q | Err _ => queue_32 end;
     c_p := None; c_c := None; enqueued := [7%nat]; dequeued := []; empty_seen := true |}.
Lemma after_one_enqueue_reachable : reachable queue_32 after_one_enqueue.
Proof.
  eapply rtc_l; [apply (call_enqueue false 7%nat)|]. do 3 (eapply rtc_l; [by apply (step_enqueue true)|]).
  eapply rtc_l; [apply ret_enqueue|]. apply rtc_refl.
Qed.
Lemma destroy_frees_all_witness :
  reachable queue_32 after_one_enqueue ∧
  ∃ l freed, destroy_ReaderWriterQueue (c_q after_one_enqueue) = Ok (l, freed) ∧ freed ≡ₚ [0%nat].
Proof.
  pose proof after_one_enqueue_reachable as Hr. split; [exact Hr|].
  destruct (destroy_frees_all (λ _, true) 32 queue_32 after_one_enqueue) as (l & freed & _ & E & Hf);
    [done|by vm_compute|exact Hr|reflexivity|reflexivity|]. exists l, freed. split; [exact E|].
  assert (Hn : seq 0 (length (blocks (c_q after_one_enqueue))) = [0%nat]) by (vm_compute; reflexivity).
  rewrite Hn in Hf. exact Hf.
Defined.
