(* ===== verification/MessageQueue.v ===== *)
(** * The message queue (include/messageQueue.h)

    The queue between the thread that fills containers and the writer thread: the
    single-producer single-consumer queue with a flag that says no more will come. *)
From Stdlib Require Import ZArith Lia.
From stdpp Require Import base tactics numbers list gmap.
From S2P Require Import Prelude Queue QueueThreads QueueSpec QueueDestroy.
#[local] Open Scope Z_scope.

Section MessageQueue.
Context {T : Type}.

Record MessageQueue := { lockFreeQueue_ : ReaderWriterQueue T; done_ : bool }.

Definition new_MessageQueue (malloc_ : nat → bool) (maxQueueSize : Z) : result MessageQueue :=
  q ← new_ReaderWriterQueue malloc_ maxQueueSize; Ok {| lockFreeQueue_ := q; done_ := false |}.

(** [Push] retries until there is room: alone, it spins for ever on a full queue. *)
Fixpoint Push (fuel : nat) (item : T) (mq : MessageQueue) : result (option MessageQueue) :=
  match fuel with
  | O => Ok None
  | S fuel =>
      '(ok, q) ← try_enqueue item (lockFreeQueue_ mq);
      let mq := {| lockFreeQueue_ := q; done_ := done_ mq |} in
      if (ok : bool) then Ok (Some mq) else Push fuel item mq
  end.
Definition Pop (mq : MessageQueue) : result (option T * MessageQueue) :=
  '(r, q) ← try_dequeue (lockFreeQueue_ mq); Ok (r, {| lockFreeQueue_ := q; done_ := done_ mq |}).
Definition SetJobDoneFlag (mq : MessageQueue) : MessageQueue :=
  {| lockFreeQueue_ := lockFreeQueue_ mq; done_ := true |}.
Definition IsEmpty (q : ReaderWriterQueue T) : result bool := count ← size_approx q; Ok (count =? 0).
(** What is destroyed and freed. *)
Definition destroy_MessageQueue (mq : MessageQueue) : result (list T * list nat) :=
  flag ← IsEmpty (lockFreeQueue_ mq);
  if (flag : bool) then destroy_ReaderWriterQueue (lockFreeQueue_ mq) else Err EXIT_FAILURE.

Lemma IsEmpty_spec (q : ReaderWriterQueue T) l : queue_holds q l → zlen l < 2 ^ 64 →
  IsEmpty q = Ok (bool_decide (l = [])).
Proof.
  intros H Hl. unfold IsEmpty. rewrite (size_approx_spec q l H). simpl. rewrite u64_small by (pose proof (zlen_nonneg l); lia).
  f_equal. destruct l; [done|]. rewrite bool_decide_false by done. apply Z.eqb_neq. unfold zlen. simpl. lia.
Qed.

(** Destroyed empty, the queue gives all its memory back; otherwise the process ends. *)
Lemma destroy_MessageQueue_spec (mq : MessageQueue) l : queue_holds (lockFreeQueue_ mq) l → zlen l < 2 ^ 64 →
  if decide (l = []) then ∃ freed, destroy_MessageQueue mq = Ok ([], freed) ∧ freed ≡ₚ seq 0 (length (blocks (lockFreeQueue_ mq)))
  else destroy_MessageQueue mq = Err EXIT_FAILURE.
Proof.
  intros Hq Hl. unfold destroy_MessageQueue. rewrite (IsEmpty_spec _ l Hq Hl). simpl. destruct (decide (l = [])) as [->|Hne].
  - rewrite bool_decide_true by done. by apply destroy_spec.
  - by rewrite bool_decide_false.
Qed.

(** [Push] alone: with room it takes one attempt, without room no number of attempts. *)
Lemma Push_spec cap fuel item mq l : one_block cap (lockFreeQueue_ mq) l →
  ∃ r, Push (S fuel) item mq = Ok r ∧
  if zlen l <? cap then ∃ mq', r = Some mq' ∧ one_block cap (lockFreeQueue_ mq') (l ++ [item]) ∧ done_ mq' = done_ mq
  else r = None.
Proof.
  revert mq. induction fuel as [|fuel IH]; intros mq H;
    destruct (try_enqueue_one cap item _ l H) as (ok & q' & E & Hok & Hq);
    set (mq' := {| lockFreeQueue_ := q'; done_ := done_ mq |}) in *.
  - exists (if ok then Some mq' else None). simpl. rewrite E. simpl. rewrite <- Hok. destruct ok; [|done].
    split; [done|]. by exists mq'.
  - cbn [Push]. rewrite E. cbn [mbind result_bind]. destruct ok.
    + exists (Some mq'). rewrite <- Hok. split; [done|]. by exists mq'.
    + exact (IH mq' Hq).
Qed.
End MessageQueue.
Arguments MessageQueue : clear implicits.
