(* ===== verification/Semaphore.v ===== *)
(** * Semaphores (include/messageQueue/atomicops.h, namespace spsc_sema)

    [Semaphore] over the calls of <semaphore.h>, and [LightweightSemaphore], which
    counts in an atomic and goes to the kernel only when it has to wait.  A call is a
    sequence of steps, one access to shared memory or one kernel call each, for one
    waiting and one signalling thread; a call alone is the same steps in a row. *)
From Stdlib Require Import ZArith Lia.
From stdpp Require Import base tactics numbers list.
From S2P Require Import Prelude.
#[local] Open Scope Z_scope.

(** Wrap-around of [ssize_t]. *)
Definition s64 (x : Z) : Z := (x + 2 ^ 63) mod 2 ^ 64 - 2 ^ 63.
Lemma s64_small x : - 2 ^ 63 ≤ x < 2 ^ 63 → s64 x = x.
Proof. intros. unfold s64. rewrite Z.mod_small; lia. Qed.

(** ** The kernel's semaphore

    A waiting call returns 0, or -1 with [EINTR] or another error; a time is in
    seconds and nanoseconds. *)
Definition timespec : Type := Z * Z.
Inductive sem_rc := Rc_0 | Rc_EINTR | Rc_error.
Inductive sem_call := Sem_wait | Sem_trywait | Sem_timedwait (ts : timespec).
#[export] Instance sem_rc_eq_dec : EqDecision sem_rc.
Proof. solve_decision. Defined.
#[export] Instance sem_call_eq_dec : EqDecision sem_call.
Proof. solve_decision. Defined.

(** What <semaphore.h> documents, for an initialised semaphore whose value is [v]:
    which results a call can have, and whether [sem_post] succeeds.  A call that takes
    the semaphore finds it positive; [sem_wait] has no error but an interruption;
    [sem_trywait] fails only when the value is 0, [sem_timedwait] with a valid time then
    fails when the time is over; [sem_post] fails only when the value is at its
    maximum. *)
Class PosixSemaphore := {
  returns : sem_call → Z → sem_rc → bool;
  sem_post : Z → bool;
  takes_positive c v : returns c v Rc_0 = (0 <? v);
  wait_no_error v : returns Sem_wait v Rc_error = false;
  trywait_error v : returns Sem_trywait v Rc_error = (v <=? 0);
  timedwait_error s n : 0 ≤ n < 10 ^ 9 → returns (Sem_timedwait (s, n)) 0 Rc_error = true;
  post_succeeds v : v < 32767 → sem_post v = true }.

(** The time up to which [timed_wait] waits, from the clock's time. *)
Definition deadline (usecs : Z) (now : timespec) : timespec :=
  let tv_sec := now.1 + usecs / 1000000 in
  let tv_nsec := now.2 + usecs mod 1000000 * 1000 in
  if tv_nsec >=? 1000000000 then (tv_sec + 1, tv_nsec - 1000000000) else (tv_sec, tv_nsec).

Definition valid_time (ts : timespec) : Prop := 0 ≤ ts.2 < 10 ^ 9.
Definition nanoseconds (ts : timespec) : Z := ts.1 * 10 ^ 9 + ts.2.

(** The time handed to the kernel is valid, and as far away as the caller said. *)
Lemma deadline_spec usecs now : 0 ≤ usecs → valid_time now →
  valid_time (deadline usecs now) ∧ nanoseconds (deadline usecs now) = nanoseconds now + usecs * 1000.
Proof.
  unfold valid_time, nanoseconds, deadline. intros Hu Hn. pose proof (Z.mod_pos_bound usecs 1000000).
  pose proof (Z.div_mod usecs 1000000). case_match; zbool; simpl; lia.
Qed.

(** ** [LightweightSemaphore]

    [m_sema] is the value of the kernel's semaphore. *)
Record LightweightSemaphore := { m_count : Z; m_sema : Z }.
Definition fetch_add (n : Z) (s : LightweightSemaphore) : LightweightSemaphore :=
  {| m_count := s64 (m_count s + n); m_sema := m_sema s |}.
Definition set_sema (v : Z) (s : LightweightSemaphore) : LightweightSemaphore :=
  {| m_count := m_count s; m_sema := v |}.

(** The value of a new [Semaphore]; [sem_init] succeeds. *)
Definition new_Semaphore (initialCount : Z) : result Z := check (0 <=? initialCount) UB ;; Ok (u32 initialCount).
Definition new_LightweightSemaphore (initialCount : Z) : result LightweightSemaphore :=
  v ← new_Semaphore 0;
  check (0 <=? initialCount) UB ;;
  Ok {| m_count := initialCount; m_sema := v |}.

Definition availableApprox (s : LightweightSemaphore) : Z := if m_count s >? 0 then m_count s else 0.

Section Calls.
Context `{PosixSemaphore}.

(** *** [Semaphore]

    One kernel call of [wait], [try_wait] or [timed_wait], which returns with [rc]: the
    new value, and the answer unless the loop goes round again.  [None]: the kernel call
    cannot return with [rc], as when the thread is blocked. *)
Definition Semaphore_wait (rc : sem_rc) (c : sem_call) (v : Z) : option (Z * option bool) :=
  if returns c v rc then
    Some (match rc with Rc_0 => (v - 1, Some true) | Rc_EINTR => (v, None) | Rc_error => (v, Some false) end)
  else None.
(** One call of [sem_post] by [signal(count)]: the new value and the posts that are left;
    [None]: the loop is over. *)
Definition Semaphore_signal (count v : Z) : option (Z * Z) :=
  if count >? 0 then Some (if sem_post v then (v + 1, count - 1) else (v, count)) else None.

(** *** Waiting: [tryWait] ([None]) and [wait] with a timeout in microseconds *)
Inductive wait_pc :=
| S_load (w : option Z)             (* [tryWait] reads [m_count] *)
| S_take                            (* [m_count] was positive: decrement it *)
| S_spin (t : Z) (spin : nat)       (* so many reads of the spin loop are left *)
| S_dec (t : Z)                     (* decrement it, whatever it is *)
| S_clock (t : Z)                   (* [timed_wait] reads the clock *)
| S_kernel (c : sem_call)
| S_restore                         (* increment again *)
| S_again                           (* and decrement again *)
| S_try                             (* [try_wait] of the kernel *)
| S_ret (ok : bool).
#[export] Instance wait_pc_eq_dec : EqDecision wait_pc.
Proof. solve_decision. Defined.

Definition SPIN : nat := 1024.

(** One step; the kernel answers [rc], the clock [now].  [None]: the call cannot return
    with this answer, as when the thread is blocked. *)
Definition wait_step (rc : sem_rc) (now : timespec) (pc : wait_pc) (s : LightweightSemaphore)
    : option (LightweightSemaphore * wait_pc) :=
  match pc with
  | S_load w =>
      if m_count s >? 0 then Some (s, S_take)
      else Some (s, match w with None => S_ret false | Some t => S_spin t SPIN end)
  | S_take => Some (fetch_add (-1) s, S_ret true)
  | S_spin t O => Some (s, S_dec t)
  | S_spin t (S spin) => if m_count s >? 0 then Some (s, S_take) else Some (s, S_spin t spin)
  | S_dec t =>
      let oldCount := m_count s in
      Some (fetch_add (-1) s,
        if oldCount >? 0 then S_ret true
        else if t <? 0 then S_kernel Sem_wait
        else if t >? 0 then S_clock t
        else S_restore)
  | S_clock t => Some (s, S_kernel (Sem_timedwait (deadline t now)))
  | S_kernel c =>
      '(v, ok) ← Semaphore_wait rc c (m_sema s);
      Some (set_sema v s, match ok with Some true => S_ret true | Some false => S_restore | None => S_kernel c end)
  | S_restore =>
      let oldCount := m_count s in
      Some (fetch_add 1 s, if oldCount <? 0 then S_ret false else S_again)
  | S_again =>
      let oldCount := m_count s in
      Some (fetch_add (-1) s, if oldCount >? 0 then S_try else S_restore)
  | S_try =>
      '(v, ok) ← Semaphore_wait rc Sem_trywait (m_sema s);
      Some (set_sema v s, match ok with Some true => S_ret true | Some false => S_restore | None => S_try end)
  | S_ret _ => None
  end.

(** A call alone, up to its end; [None]: it waits for ever, or the fuel is too small. *)
Fixpoint wait_run (fuel : nat) (rc : sem_rc) (now : timespec) (pc : wait_pc) (s : LightweightSemaphore)
    : option (bool * LightweightSemaphore) :=
  match pc with
  | S_ret ok => Some (ok, s)
  | _ => match fuel with O => None | S fuel => '(s, pc) ← wait_step rc now pc s; wait_run fuel rc now pc s end
  end.
Definition tryWait (s : LightweightSemaphore) : option (bool * LightweightSemaphore) :=
  wait_run 2 Rc_error (0, 0) (S_load None) s.
(** The read of [tryWait], the spin loop, the decrement, the clock, the kernel, the increment. *)
Definition wait (rc : sem_rc) (now : timespec) (t : Z) (s : LightweightSemaphore) : option (bool * LightweightSemaphore) :=
  wait_run (SPIN + 6) rc now (S_load (Some t)) s.

(** *** Signalling *)
Inductive signal_pc :=
| G_add (count : Z)
| G_post (count : Z)                (* so many [sem_post]s are left *)
| G_ret.

Definition signal_step (pc : signal_pc) (s : LightweightSemaphore) : result (LightweightSemaphore * signal_pc) :=
  match pc with
  | G_add count =>
      check (count >=? 0) UB ;;
      let oldCount := m_count s in
      check (oldCount >=? -1) UB ;;
      Ok (fetch_add count s, if oldCount <? 0 then G_post 1 else G_ret)
  | G_post count =>
      match Semaphore_signal count (m_sema s) with
      | Some (v, count) => Ok (set_sema v s, G_post count)
      | None => Ok (s, G_ret)
      end
  | G_ret => Ok (s, G_ret)
  end.

(** A call alone: the addition, and a post that succeeds. *)
Fixpoint signal_run (fuel : nat) (pc : signal_pc) (s : LightweightSemaphore) : result LightweightSemaphore :=
  match pc with
  | G_ret => Ok s
  | _ => match fuel with O => Err UB | S fuel => '(s, pc) ← signal_step pc s; signal_run fuel pc s end
  end.
Definition signal (count : Z) (s : LightweightSemaphore) : result LightweightSemaphore := signal_run 3 (G_add count) s.

(** ** The invariant

    [a] units have been signalled and not yet taken; [posting]: the signalling thread
    has seen a waiting thread and not posted yet.  A thread that has decremented
    [m_count] without a unit makes it one less than [a], and then the kernel's semaphore
    holds the first unit that comes. *)
Inductive phase := Free | Waiting | Restored.
Definition phase_of (pc : wait_pc) : phase :=
  match pc with
  | S_clock _ | S_kernel _ | S_restore | S_try => Waiting
  | S_again => Restored
  | _ => Free
  end.

Definition kernel_unit (a : Z) (posting : bool) : Z := if (1 <=? a) && negb posting then 1 else 0.
Record sema_ok (s : LightweightSemaphore) (a : Z) (posting : bool) (ph : phase) : Prop := {
  sk_range : 0 ≤ a < 2 ^ 63;
  sk_count : m_count s = match ph with Waiting => a - 1 | _ => a end;
  sk_sema : m_sema s = match ph with Free => 0 | _ => kernel_unit a posting end;
  sk_posting : posting = true → match ph with Free => False | _ => 1 ≤ a end;
  sk_restored : ph = Restored → 1 ≤ a }.

(** What the waiting thread knows between two steps. *)
Definition wait_ok (a : Z) (pc : wait_pc) : Prop :=
  match pc with
  | S_take | S_try => 1 ≤ a
  | S_clock t => 0 < t
  | S_kernel (Sem_timedwait ts) => valid_time ts
  | _ => True
  end.
Lemma wait_ok_mono a b pc : a ≤ b → wait_ok a pc → wait_ok b pc.
Proof. destruct pc; simpl; try done; lia. Qed.

Definition taken (pc : wait_pc) : Z := match pc with S_ret true => 1 | _ => 0 end.

Ltac sema_solve := unfold kernel_unit in *; simpl in *; repeat (case_match; simplify_eq/=; zbool); rewrite ?s64_small by lia;
  try (done || lia || (by split) || (split; [done|lia])).

(** The kernel hands out a unit only after the post for it. *)
Lemma kernel_take s a posting : sema_ok s a posting Waiting → 0 < m_sema s →
  1 ≤ a ∧ sema_ok (set_sema (m_sema s - 1) s) (a - 1) posting Free.
Proof.
  intros [Hr Hc Hs Hp Hre] Hpos. simpl in *. rewrite Hs in *. unfold kernel_unit in *.
  destruct posting; rewrite ?andb_false_r, ?andb_true_r in *; [lia|]. destruct (1 <=? a) eqn:E; zbool; [|lia].
  split; [done|]. by split; simpl; try lia.
Qed.

Lemma set_sema_id s : set_sema (m_sema s) s = s.
Proof. by destruct s. Qed.

Lemma kernel_step rc c s v ok : Semaphore_wait rc c (m_sema s) = Some (v, ok) →
  (c = Sem_wait → ok ≠ Some false) ∧ (rc ≠ Rc_EINTR → ok ≠ None) ∧
  match ok with Some true => 0 < m_sema s ∧ v = m_sema s - 1 | _ => set_sema v s = s end.
Proof.
  unfold Semaphore_wait. destruct (returns c (m_sema s) rc) eqn:E; [|done].
  destruct rc; intros [= <- <-]; rewrite ?set_sema_id; [rewrite takes_positive in E; zbool; done|by split_and!|].
  split_and!; [|done..]. intros ->. by rewrite wait_no_error in E.
Qed.

(** Every step of a waiting call keeps the invariant; the last step of a call that
    returns [true] takes a unit, which was there. *)
Lemma wait_step_ok rc now s a posting pc s' pc' :
  sema_ok s a posting (phase_of pc) → wait_ok a pc → valid_time now → wait_step rc now pc s = Some (s', pc') →
  taken pc' ≤ a ∧ sema_ok s' (a - taken pc') posting (phase_of pc') ∧ wait_ok (a - taken pc') pc'.
Proof.
  intros Hok Hw Hn E. pose proof (kernel_take s a posting) as Htake. pose proof Hok as [Hr Hc Hs Hp Hre].
  destruct pc as [w| |t [|spin]|t|t|c| | | |ok]; simpl in *;
    [..|destruct (Semaphore_wait _ _ _) as [[v ok]|] eqn:Ek; [apply kernel_step in Ek as (_ & _ & Ek)|]
       | | |destruct (Semaphore_wait _ _ _) as [[v ok]|] eqn:Ek; [apply kernel_step in Ek as (_ & _ & Ek)|]|];
    repeat (case_match; simplify_eq/=; zbool); simplify_eq/=; rewrite ?Z.sub_0_r, ?Ek; auto.
  all: try (by destruct Ek, Htake; [done|done|subst; split_and!]).
  all: destruct posting; try (specialize (Hp eq_refl); simpl in Hp); try done.
  all: split; [lia|split; [split|]; sema_solve]; refine (proj1 (deadline_spec _ _ _ Hn)); lia.
Qed.

(** A step of [signal]: the assertions hold, and the unit is there afterwards. *)
Lemma signal_add_ok s a ph : sema_ok s a false ph → a + 1 < 2 ^ 63 →
  ∃ s' (b : bool), signal_step (G_add 1) s = Ok (s', if b then G_post 1 else G_ret) ∧ sema_ok s' (a + 1) b ph.
Proof.
  intros [Hr Hc Hs Hp Hre] Ha. exists (fetch_add 1 s), (m_count s <? 0). simpl.
  assert (m_count s >= -1) by (rewrite Hc; destruct ph; lia).
  replace (m_count s >=? -1) with true by (symmetry; rewrite Z.geb_leb; apply Z.leb_le; lia). simpl.
  split; [by destruct (_ <? 0)|]. split; simpl; try lia.
  - rewrite Hc, s64_small by (destruct ph; lia). destruct ph; lia.
  - rewrite Hs, Hc. pose proof Hre as Hre'. unfold kernel_unit. destruct ph; [done|..];
      destruct (1 <=? a) eqn:E1, (1 <=? a + 1) eqn:E2, (_ <? 0) eqn:E3; zbool; simpl; (done || lia || specialize (Hre' eq_refl); lia).
  - rewrite Hc. intros E; zbool. destruct ph; lia.
Qed.

Lemma signal_post_ok s a ph : sema_ok s a true ph →
  ∃ s', signal_step (G_post 1) s = Ok (s', G_post 0) ∧ sema_ok s' a false ph.
Proof.
  intros [Hr Hc Hs Hp Hre]. specialize (Hp eq_refl). assert (Hs0 : m_sema s = 0).
  { rewrite Hs. unfold kernel_unit. rewrite andb_false_r. by destruct ph. }
  exists (set_sema (m_sema s + 1) s). simpl. unfold Semaphore_signal. simpl. rewrite post_succeeds by lia. split; [done|]. split; simpl; try done.
  rewrite Hs0. unfold kernel_unit. destruct ph; [done|..]; by destruct (1 <=? a) eqn:E; zbool; [|lia].
Qed.

(** ** Calls that nobody interferes with

    The kernel's semaphore stays at 0: a wait that finds no unit changes nothing. *)
Definition sema_alone (s : LightweightSemaphore) (a : Z) : Prop := sema_ok s a false Free.

Lemma sema_alone_eq s a : sema_alone s a → 0 ≤ a < 2 ^ 63 ∧ s = {| m_count := a; m_sema := 0 |}.
Proof. intros [Hr Hc Hs _ _]. destruct s. simpl in *. by subst. Qed.
Lemma sema_alone_intro a : 0 ≤ a < 2 ^ 63 → sema_alone {| m_count := a; m_sema := 0 |} a.
Proof. by split. Qed.

Lemma tryWait_alone s a : sema_alone s a →
  ∃ s', tryWait s = Some (1 <=? a, s') ∧ sema_alone s' (if 1 <=? a then a - 1 else a).
Proof.
  intros [Ha ->]%sema_alone_eq. unfold tryWait. simpl. destruct (1 <=? a) eqn:E; zbool.
  - replace (a >? 0) with true by (symmetry; apply Z.gtb_lt; lia). simpl. eexists. split; [done|].
    unfold fetch_add. simpl. rewrite s64_small by lia. apply sema_alone_intro. lia.
  - assert (a = 0) as -> by lia. simpl. eexists. split; [done|]. by apply sema_alone_intro.
Qed.

Lemma signal_alone s a : sema_alone s a → a + 1 < 2 ^ 63 → ∃ s', signal 1 s = Ok s' ∧ sema_alone s' (a + 1).
Proof.
  intros [Ha ->]%sema_alone_eq Hb. unfold signal. simpl.
  replace (a >=? -1) with true by (symmetry; rewrite Z.geb_leb; apply Z.leb_le; lia). simpl.
  rewrite (proj2 (Z.ltb_ge a 0)) by lia. eexists. split; [done|]. unfold fetch_add. simpl. rewrite s64_small by lia.
  apply sema_alone_intro. lia.
Qed.

Lemma spin_alone rc now t n k s : m_count s = 0 → wait_run (S n + k) rc now (S_spin t n) s = wait_run k rc now (S_dec t) s.
Proof. intros Hc. induction n as [|n IH]; simpl in *; [done|]. by rewrite Hc. Qed.

(** A timed wait that is not interrupted: it takes the unit at once, or gives up when
    the time is over. *)
Lemma wait_alone s a now t : sema_alone s a → 0 ≤ t → valid_time now →
  ∃ s', wait Rc_error now t s = Some (1 <=? a, s') ∧ sema_alone s' (if 1 <=? a then a - 1 else a).
Proof.
  intros [Ha ->]%sema_alone_eq Ht Hn. unfold wait. replace (SPIN + 6)%nat with (S (S SPIN + 4)) by lia.
  destruct (1 <=? a) eqn:E; zbool; cbn [wait_run wait_step m_count].
  - rewrite (proj2 (Z.gtb_lt a 0)) by lia. eexists. split; [done|]. unfold fetch_add. simpl. rewrite s64_small by lia.
    apply sema_alone_intro. lia.
  - assert (a = 0) as -> by lia. cbn [Z.gtb Z.compare mbind option_bind]. rewrite spin_alone by done.
    exists {| m_count := 0; m_sema := 0 |}. split; [|by apply sema_alone_intro].
    cbn [wait_run wait_step m_count Z.gtb Z.compare mbind option_bind]. rewrite (proj2 (Z.ltb_ge t 0)) by lia.
    destruct (t >? 0); [|done]. cbn [wait_run wait_step mbind option_bind m_sema fetch_add].
    destruct (deadline_spec t now Ht Hn) as [Hv _]. destruct (deadline t now) as [sec nsec].
    unfold Semaphore_wait. by rewrite timedwait_error by exact Hv.
Qed.

(** *** [signal(0)]

    The assertion allows a count of 0; a waiting thread is then let through although
    there is no unit for it. *)
Lemma signal_zero_releases :
  ∃ s', signal 0 {| m_count := -1; m_sema := 0 |} = Ok s' ∧
  wait_step Rc_0 (0, 0) (S_kernel Sem_wait) s' = Some ({| m_count := -1; m_sema := 0 |}, S_ret true).
Proof.
  eexists. split.
  - unfold signal. simpl. unfold Semaphore_signal. simpl. by rewrite post_succeeds.
  - simpl. unfold Semaphore_wait. by rewrite takes_positive.
Qed.

(** ** Waiting without a timeout

    [wait()] never gives up, and each of its steps but an interruption brings it nearer
    to its end. *)
Definition untimed (pc : wait_pc) : Prop :=
  match pc with
  | S_load w => w = Some (-1)
  | S_spin t _ | S_dec t => t = -1
  | S_kernel c => c = Sem_wait
  | S_take | S_ret true => True
  | _ => False
  end.
Definition wait_rank (pc : wait_pc) : nat :=
  match pc with S_load _ => SPIN + 7 | S_spin _ n => n + 6 | S_dec _ => 5 | S_kernel _ => 4 | S_take => 2 | _ => 0 end.

Lemma untimed_step rc now pc s s' pc' : wait_step rc now pc s = Some (s', pc') → untimed pc →
  untimed pc' ∧ (rc ≠ Rc_EINTR → (wait_rank pc' < wait_rank pc)%nat).
Proof.
  intros E Hu. destruct pc as [w| |t [|spin]|t|t|c| | | |ok]; simpl in *; subst; try done;
    [| | | | |destruct (Semaphore_wait _ _ _) as [[v ok]|] eqn:Ek; [apply kernel_step in Ek as (Hw & Hr & _)|]];
    repeat (case_match; simplify_eq/=); simplify_eq/=; try (split; [done|intros; (done || lia)]).
  destruct ok as [[]|]; simpl; [split; [done|lia]|by destruct (Hw eq_refl)|].
  split; [done|]. by intros []%Hr.
Qed.

Lemma untimed_enabled now pc s : untimed pc → pc ≠ S_ret true → (pc = S_kernel Sem_wait → 0 < m_sema s) →
  ∃ s' pc', wait_step Rc_0 now pc s = Some (s', pc').
Proof.
  intros Hu Hne Hk. destruct pc as [w| |t [|spin]|t|t|c| | | |[]]; simpl in *; subst; try done; eauto.
  1, 2: case_match; eauto.
  unfold Semaphore_wait. rewrite takes_positive, (proj2 (Z.ltb_lt _ _) (Hk eq_refl)). simpl. eauto.
Qed.
End Calls.

(** A kernel as documented, on which the theorems' examples run. *)
Definition posix_returns (c : sem_call) (v : Z) (rc : sem_rc) : bool :=
  match rc, c with
  | Rc_0, _ => 0 <? v
  | Rc_EINTR, _ => true
  | Rc_error, Sem_wait => false
  | Rc_error, _ => v <=? 0
  end.
Program Definition posix : PosixSemaphore := {| returns := posix_returns; sem_post v := v <? 2 ^ 31 - 1 |}.
Solve Obligations with simpl; intros; first [done|apply Z.ltb_lt; lia].
