(* ===== verification/BlockingQueue.v ===== *)
(** * The blocking queue (include/messageQueue/readerwriterqueue.h)

    [BlockingReaderWriterQueue]: the queue of [Queue.v] with a semaphore that counts its
    elements.  One producer and one consumer, step by step over the steps of
    [QueueThreads] and [Semaphore]; then the calls of one thread alone.  The overloads
    that copy, move and construct an element are one operation here. *)
From Stdlib Require Import ZArith Lia.
From stdpp Require Import base tactics numbers list gmap.
From S2P Require Import Prelude Queue QueueThreads QueueSpec QueueDestroy Semaphore.
#[local] Open Scope Z_scope.

Section Blocking.
Context `{PosixSemaphore} {T : Type}.

(** [inner] and [sema]. *)
Record BlockingReaderWriterQueue := { inner : ReaderWriterQueue T; sema : LightweightSemaphore }.

(** [mem]: whether the allocation of the semaphore succeeds. *)
Definition new_BlockingReaderWriterQueue (malloc_ : nat → bool) (mem : bool) (size : Z) : result BlockingReaderWriterQueue :=
  q ← new_ReaderWriterQueue malloc_ size;
  check mem EXCEPTION ;;
  s ← new_LightweightSemaphore 0;
  Ok {| inner := q; sema := s |}.

(** ** The two threads

    The consumer's calls; a timeout is in microseconds, a negative one is none. *)
Inductive consumer_op := Try_dequeue_op | Pop_op | Wait_dequeue_op | Wait_dequeue_timed_op (timeout_usecs : Z).
#[export] Instance consumer_op_eq_dec : EqDecision consumer_op.
Proof. solve_decision. Defined.
Definition first_pc (op : consumer_op) : wait_pc :=
  match op with
  | Try_dequeue_op | Pop_op => S_load None
  | Wait_dequeue_op => S_load (Some (-1))
  | Wait_dequeue_timed_op t => S_load (Some t)
  end.

(** Where the threads are: in the inner queue ([c_p] and [c_c] of the configuration say
    where), in the semaphore, or about to return. *)
Inductive producer := B_idle | B_enqueue | B_signal (pc : signal_pc) | B_done (ok : bool).
Inductive consumer := D_idle | D_wait (op : consumer_op) (pc : wait_pc) | D_dequeue (op : consumer_op)
  | D_done (op : consumer_op) (r : option T).

(** [delivered]: what the consumer's calls have returned so far. *)
Record state := { b_cfg : config (T:=T); b_sema : LightweightSemaphore; b_p : producer; b_c : consumer; delivered : list T }.

(** A thread goes on to [p] or [d]; the semaphore becomes [s]. *)
Definition set_p (s : LightweightSemaphore) (p : producer) (c : state) : state :=
  {| b_cfg := b_cfg c; b_sema := s; b_p := p; b_c := b_c c; delivered := delivered c |}.
Definition set_c (s : LightweightSemaphore) (d : consumer) (c : state) : state :=
  {| b_cfg := b_cfg c; b_sema := s; b_p := b_p c; b_c := d; delivered := delivered c |}.

(** One step of [try_enqueue] or [enqueue]. *)
Definition producer_step (mem : bool) (c : state) : result (option state) :=
  let k := b_cfg c in
  match b_p c with
  | B_idle => Ok None
  | B_enqueue =>
      match c_p k with
      | None => Ok None
      | Some (P_ret ok) =>
          Ok (Some {| b_cfg := {| c_q := c_q k; c_p := None; c_c := c_c k; enqueued := enqueued k; dequeued := dequeued k;
                                  empty_seen := empty_seen k |};
                      b_sema := b_sema c; b_p := if ok then B_signal (G_add 1) else B_done false; b_c := b_c c;
                      delivered := delivered c |})
      | Some pc =>
          '(q', pc') ← pstep mem pc (c_q k);
          Ok (Some {| b_cfg := {| c_q := q'; c_p := Some pc'; c_c := c_c k; enqueued := enqueued k ++ p_effect pc;
                                  dequeued := dequeued k;
                                  empty_seen := empty_seen k || is_empty (enqueued k ++ p_effect pc) (dequeued k) |};
                      b_sema := b_sema c; b_p := B_enqueue; b_c := b_c c; delivered := delivered c |})
      end
  | B_signal G_ret => Ok (Some (set_p (b_sema c) (B_done true) c))
  | B_signal pc => '(s', pc') ← signal_step pc (b_sema c); Ok (Some (set_p s' (B_signal pc') c))
  | B_done _ => Ok (Some (set_p (b_sema c) B_idle c))
  end.

(** One step of a call of the consumer; [rc] and [now]: what the kernel and the clock
    answer.  [Ok None]: no such step. *)
Definition consumer_step (rc : sem_rc) (now : timespec) (c : state) : result (option state) :=
  let k := b_cfg c in
  match b_c c with
  | D_idle => Ok None
  | D_wait op (S_ret true) =>
      Ok (Some {| b_cfg := {| c_q := c_q k; c_p := c_p k; c_c := Some C_start; enqueued := enqueued k; dequeued := dequeued k;
                              empty_seen := is_empty (enqueued k) (dequeued k) |};
                  b_sema := b_sema c; b_p := b_p c; b_c := D_dequeue op; delivered := delivered c |})
  | D_wait op (S_ret false) =>
      Ok (Some (set_c (b_sema c) (match op with Wait_dequeue_op => D_wait op (first_pc op) | _ => D_done op None end) c))
  | D_wait op pc =>
      match wait_step rc now pc (b_sema c) with
      | None => Ok None
      | Some (s', pc') => Ok (Some (set_c s' (D_wait op pc') c))
      end
  | D_dequeue op =>
      match c_c k with
      | None => Ok None
      | Some (C_ret r) =>
          (* assert(success) *)
          check (bool_decide (is_Some r)) UB ;;
          Ok (Some {| b_cfg := {| c_q := c_q k; c_p := c_p k; c_c := None; enqueued := enqueued k; dequeued := dequeued k;
                                  empty_seen := empty_seen k |};
                      b_sema := b_sema c; b_p := b_p c; b_c := D_done op r; delivered := delivered c ++ option_list r |})
      | Some pc =>
          '(q', pc') ← cstep pc (c_q k);
          Ok (Some {| b_cfg := {| c_q := q'; c_p := c_p k; c_c := Some pc'; enqueued := enqueued k;
                                  dequeued := dequeued k ++ c_effect pc;
                                  empty_seen := empty_seen k || is_empty (enqueued k) (dequeued k ++ c_effect pc) |};
                      b_sema := b_sema c; b_p := b_p c; b_c := D_dequeue op; delivered := delivered c |})
      end
  | D_done _ _ => Ok (Some (set_c (b_sema c) D_idle c))
  end.

Definition call_enqueue_op (canAlloc : bool) (x : T) (c : state) : state :=
  let k := b_cfg c in
  {| b_cfg := {| c_q := c_q k; c_p := Some (P_start canAlloc x); c_c := c_c k; enqueued := enqueued k; dequeued := dequeued k;
                 empty_seen := empty_seen k |};
     b_sema := b_sema c; b_p := B_enqueue; b_c := b_c c; delivered := delivered c |}.
Definition call_consumer_op (op : consumer_op) (c : state) : state :=
  set_c (b_sema c) (D_wait op (first_pc op)) c.

(** The steps that continue calls, and all steps. *)
Inductive run_step (c : state) : state → Prop :=
| run_producer mem c' : producer_step mem c = Ok (Some c') → run_step c c'
| run_consumer rc now c' : valid_time now → consumer_step rc now c = Ok (Some c') → run_step c c'.
Inductive bstep (c : state) : state → Prop :=
| bstep_enqueue canAlloc x : b_p c = B_idle → bstep c (call_enqueue_op canAlloc x c)
| bstep_consume op : b_c c = D_idle → bstep c (call_consumer_op op c)
| bstep_run c' : run_step c c' → bstep c c'.

Definition bstart (b : BlockingReaderWriterQueue) : state :=
  {| b_cfg := start (inner b); b_sema := sema b; b_p := B_idle; b_c := D_idle; delivered := [] |}.
Definition breachable (b : BlockingReaderWriterQueue) : state → Prop := rtc bstep (bstart b).

(** ** The calls of one thread alone

    [w]: what waiting for the semaphore gave; [None]: nothing, for ever. *)
Definition dequeue_after (w : option (bool * LightweightSemaphore)) (b : BlockingReaderWriterQueue)
    : result (option T * BlockingReaderWriterQueue) :=
  match w with
  | None => Err UB
  | Some (false, s) => Ok (None, {| inner := inner b; sema := s |})
  | Some (true, s) =>
      '(r, q) ← try_dequeue (inner b);
      check (bool_decide (is_Some r)) UB ;;
      Ok (r, {| inner := q; sema := s |})
  end.
Definition blocking_try_dequeue (b : BlockingReaderWriterQueue) := dequeue_after (tryWait (sema b)) b.
Definition blocking_wait_dequeue_timed (rc : sem_rc) (now : timespec) (timeout_usecs : Z) (b : BlockingReaderWriterQueue) :=
  dequeue_after (wait rc now timeout_usecs (sema b)) b.
Definition blocking_pop (b : BlockingReaderWriterQueue) : result (bool * BlockingReaderWriterQueue) :=
  match tryWait (sema b) with
  | None => Err UB
  | Some (false, s) => Ok (false, {| inner := inner b; sema := s |})
  | Some (true, s) => '(ok, q) ← pop (inner b); check ok UB ;; Ok (true, {| inner := q; sema := s |})
  end.

Definition signal_after (r : bool * ReaderWriterQueue T) (b : BlockingReaderWriterQueue) : result (bool * BlockingReaderWriterQueue) :=
  if r.1 then s ← signal 1 (sema b); Ok (true, {| inner := r.2; sema := s |})
  else Ok (false, {| inner := r.2; sema := sema b |}).
Definition blocking_try_enqueue (x : T) (b : BlockingReaderWriterQueue) : result (bool * BlockingReaderWriterQueue) :=
  r ← try_enqueue x (inner b); signal_after r b.
Definition blocking_enqueue (mem : bool) (x : T) (b : BlockingReaderWriterQueue) : result (bool * BlockingReaderWriterQueue) :=
  r ← enqueue mem x (inner b); signal_after r b.

Definition blocking_peek (b : BlockingReaderWriterQueue) : result (option T * BlockingReaderWriterQueue) :=
  '(r, q) ← peek (inner b); Ok (r, {| inner := q; sema := sema b |}).
Definition blocking_size_approx (b : BlockingReaderWriterQueue) : Z := availableApprox (sema b).
Definition blocking_max_capacity (b : BlockingReaderWriterQueue) : result Z := max_capacity (inner b).

(** Moving: the moved-from queue is left with an empty inner queue and no semaphore.
    Assigning exchanges the two; [std::swap] moves the inner queues through a third one,
    which needs a block for the time being. *)
Definition move_BlockingReaderWriterQueue (mem : bool) (other : BlockingReaderWriterQueue)
    : result (BlockingReaderWriterQueue * ReaderWriterQueue T) :=
  '(q, moved) ← move_ReaderWriterQueue mem (inner other);
  Ok ({| inner := q; sema := sema other |}, moved).
Definition assign_BlockingReaderWriterQueue (mem : bool) (b other : BlockingReaderWriterQueue)
    : result (BlockingReaderWriterQueue * BlockingReaderWriterQueue) :=
  '(tmp, q) ← move_ReaderWriterQueue mem (inner b);
  let '(q, q') := assign_ReaderWriterQueue q (inner other) in
  let '(q', tmp) := assign_ReaderWriterQueue q' tmp in
  _ ← destroy_ReaderWriterQueue tmp;
  Ok ({| inner := q; sema := sema other |}, {| inner := q'; sema := sema b |}).

(** ** The invariant

    The units of the semaphore are the elements in the queue, but for one whose
    [signal] is still to come and one whose unit the consumer has taken already. *)
Definition unsignalled (p : producer) (k : option (ppc T)) : Z :=
  match p, k with B_enqueue, Some (P_ret true) => 1 | B_signal (G_add _), _ => 1 | _, _ => 0 end.
Definition owed (d : consumer) (k : option (cpc T)) : Z :=
  match d, k with
  | D_wait _ (S_ret true), _ => 1
  | D_dequeue _, Some (C_ret (Some _)) => 0
  | D_dequeue _, _ => 1
  | _, _ => 0
  end.
Definition units (c : state) : Z :=
  let k := b_cfg c in zlen (enqueued k) - zlen (dequeued k) - unsignalled (b_p c) (c_p k) - owed (b_c c) (c_c k).

Definition posting (p : producer) : bool := match p with B_signal (G_post n) => n =? 1 | _ => false end.
Definition wait_phase (d : consumer) : phase := match d with D_wait _ pc => phase_of pc | _ => Free end.
Definition in_hand (k : option (cpc T)) : list T := match k with Some (C_ret (Some v)) => [v] | _ => [] end.

Definition producer_ok (p : producer) (k : option (ppc T)) : Prop :=
  match p with
  | B_enqueue => is_Some k
  | B_signal (G_add n) => k = None ∧ n = 1
  | B_signal (G_post n) => k = None ∧ (n = 0 ∨ n = 1)
  | _ => k = None
  end.
(** While the consumer dequeues, the queue is never empty; [wait_dequeue] does not give
    up. *)
Definition consumer_ok (d : consumer) (k : option (cpc T)) (a : Z) (seen : bool) (out : list T) : Prop :=
  match d with
  | D_wait op pc => k = None ∧ wait_ok a pc ∧ (op = Wait_dequeue_op → untimed pc)
  | D_dequeue _ => match k with None => False | Some (C_ret (Some _)) => True | Some _ => seen = false end
  | D_done op r => k = None ∧ match r with Some v => last out = Some v | None => op ≠ Wait_dequeue_op end
  | D_idle => k = None
  end.

Record bq_ok (c : state) : Prop := {
  bo_inv : inv (b_cfg c);
  bo_p : producer_ok (b_p c) (c_p (b_cfg c));
  bo_c : consumer_ok (b_c c) (c_c (b_cfg c)) (units c) (empty_seen (b_cfg c)) (delivered c);
  bo_sema : sema_ok (b_sema c) (units c) (posting (b_p c)) (wait_phase (b_c c));
  bo_out : dequeued (b_cfg c) = delivered c ++ in_hand (c_c (b_cfg c)) }.

(** What one step of the inner queue adds and removes. *)
Lemma p_effect_unsignalled mem (pc : ppc T) q q' pc' : pstep mem pc q = Ok (q', pc') → p_rank pc ≠ 0%nat →
  zlen (p_effect pc) = unsignalled B_enqueue (Some pc') ∧ unsignalled B_enqueue (Some pc) = 0.
Proof.
  intros E Hne. destruct (pstep_rank _ _ _ _ _ E Hne) as [_ He]. split; [|by destruct pc].
  destruct pc'; destruct He as [He _]; rewrite He; try done. destruct ok; [|done]. by destruct pc.
Qed.
Lemma c_effect_owed op (pc : cpc T) q q' pc' : cstep pc q = Ok (q', pc') → c_rank pc ≠ 0%nat →
  c_effect pc = in_hand (Some pc') ∧ zlen (c_effect pc) = 1 - owed (D_dequeue op) (Some pc') ∧
  owed (D_dequeue op) (Some pc) = 1 ∧ in_hand (Some pc) = [].
Proof.
  intros E Hne. destruct (cstep_rank _ _ _ _ E Hne) as [_ He]. repeat split.
  - by destruct pc'.
  - destruct pc'; rewrite He; try done. by destruct r.
  - by destruct pc.
  - by destruct pc.
Qed.

Lemma not_empty c : bq_ok c → owed (b_c c) (c_c (b_cfg c)) = 1 → is_empty (enqueued (b_cfg c)) (dequeued (b_cfg c)) = false.
Proof.
  intros [_ _ _ [Hr _ _ _ _] _] Ho. unfold units in Hr. rewrite Ho in Hr. unfold is_empty. apply Nat.eqb_neq. intros E.
  unfold zlen in Hr. rewrite E in Hr. destruct (unsignalled _ _) eqn:Eu; try lia.
  exfalso. revert Eu. unfold unsignalled. repeat case_match; lia.
Qed.

Lemma consumer_ok_mono d k a b s s' out : a ≤ b → (owed d k = 1 → s = false → s' = false) →
  consumer_ok d k a s out → consumer_ok d k b s' out.
Proof.
  intros Hab Hs. destruct d as [|op pc|op|op r]; simpl; try done.
  - intros (? & ? & ?). split_and!; [done|by eapply wait_ok_mono|done].
  - destruct k as [[]|]; auto. destruct r; auto.
Qed.

(** A step of the producer. *)
Lemma producer_keeps c c' :
  bq_ok c → b_c c' = b_c c → delivered c' = delivered c → c_c (b_cfg c') = c_c (b_cfg c) →
  dequeued (b_cfg c') = dequeued (b_cfg c) → inv (b_cfg c') → producer_ok (b_p c') (c_p (b_cfg c')) →
  units c ≤ units c' →
  (is_empty (enqueued (b_cfg c)) (dequeued (b_cfg c)) = false → empty_seen (b_cfg c) = false → empty_seen (b_cfg c') = false) →
  sema_ok (b_sema c') (units c') (posting (b_p c')) (wait_phase (b_c c')) → bq_ok c'.
Proof.
  intros Hok E1 E2 E3 E4 Hi Hp Hu Hs Hsm. pose proof (not_empty c Hok) as Hne. destruct Hok as [_ _ Hc _ Ho]. split; try done.
  - rewrite E1, E2, E3. eapply consumer_ok_mono; [exact Hu| |exact Hc]. auto.
  - by rewrite E2, E3, E4.
Qed.

Lemma is_empty_app (e d x : list T) : (length d ≤ length e)%nat → is_empty e d = false → is_empty (e ++ x) d = false.
Proof. unfold is_empty. rewrite length_app, !Nat.eqb_neq. lia. Qed.

Lemma bq_prefix c : bq_ok c → (length (dequeued (b_cfg c)) ≤ length (enqueued (b_cfg c)))%nat.
Proof. intros [Hi _ _ _ _]. destruct (fo_prefix _ (inv_fifo _ Hi)) as [l ->]. rewrite length_app. lia. Qed.

Lemma enqueue_step_ok mem c pc : bq_ok c → b_p c = B_enqueue → c_p (b_cfg c) = Some pc →
  ∃ c', producer_step mem c = Ok (Some c') ∧ bq_ok c'.
Proof.
  intros Hok Ep Epc. pose proof (bq_prefix c Hok) as Hle. pose proof Hok as [Hi Hp Hc Hs Ho]. unfold producer_step. rewrite Ep, Epc.
  destruct c as [[q pp cc e d s] sm p k out]; simpl in *; subst p pp. destruct (decide (p_rank pc = 0%nat)) as [[ok ->]%p_rank_0|Hr].
  - eexists. split; [done|]. eapply producer_keeps; [exact Hok|..]; try done; unfold units in *; simpl in *; try by destruct ok.
    eapply step_inv; [exact Hi|apply ret_enqueue].
  - destruct (fo_producer _ (inv_fifo _ Hi) pc mem eq_refl) as [[q' pc'] E]. simpl in E.
    destruct (p_effect_unsignalled _ _ _ _ _ E Hr) as [He Hu].
    set (c' := {| b_cfg := {| c_q := q'; c_p := Some pc'; c_c := cc; enqueued := e ++ p_effect pc; dequeued := d;
      empty_seen := s || is_empty (e ++ p_effect pc) d |}; b_sema := sm; b_p := B_enqueue; b_c := k; delivered := out |}).
    exists c'. split; [destruct pc; try (by destruct (Hr eq_refl)); by rewrite E|].
    assert (Hun : units c' = units {| b_cfg := {| c_q := q; c_p := Some pc; c_c := cc; enqueued := e; dequeued := d;
      empty_seen := s |}; b_sema := sm; b_p := B_enqueue; b_c := k; delivered := out |}).
    { unfold units; cbn [b_cfg b_p b_c c_p c_c enqueued dequeued c']. rewrite zlen_app. lia. }
    eapply producer_keeps; [exact Hok|..]; try done; rewrite ?Hun; try done.
    + eapply step_inv; [exact Hi|]. by eapply step_enqueue.
    + by eexists.
    + simpl. intros Hem ->. simpl. by apply is_empty_app.
Qed.

Lemma producer_signal mem c pc s' pc' : b_p c = B_signal pc → pc ≠ G_ret → signal_step pc (b_sema c) = Ok (s', pc') →
  producer_step mem c =
  Ok (Some (set_p s' (B_signal pc') c)).
Proof. unfold producer_step. intros -> Hne E. destruct pc; by rewrite ?E. Qed.

Lemma signal_enough_room c : bq_ok c → zlen (enqueued (b_cfg c)) < 2 ^ 63 → unsignalled (b_p c) (c_p (b_cfg c)) = 1 → units c + 1 < 2 ^ 63.
Proof.
  intros Hok Hlen Hu. unfold units. rewrite Hu. pose proof (zlen_nonneg (dequeued (b_cfg c))). unfold owed. repeat case_match; lia.
Qed.

Lemma signal_step_ok mem c pc : bq_ok c → zlen (enqueued (b_cfg c)) < 2 ^ 63 → b_p c = B_signal pc →
  ∃ c', producer_step mem c = Ok (Some c') ∧ bq_ok c'.
Proof.
  intros Hok Hlen Ep. pose proof (bo_p _ Hok) as Hp. pose proof (bo_sema _ Hok) as Hs. rewrite Ep in Hp, Hs.
  pose proof (bo_inv _ Hok) as Hi.
  assert (Hk : c_p (b_cfg c) = None) by (destruct pc; simpl in Hp; tauto).
  assert (Hun : ∀ s' p', units (set_p s' p' c) = units c + unsignalled (b_p c) None - unsignalled p' None).
  { intros. unfold units. simpl. rewrite Hk. lia. }
  rewrite Ep in Hun. destruct pc as [n|n|]; simpl in Hun.
  - destruct Hp as [_ ->]. destruct (signal_add_ok _ _ _ Hs) as (s' & b & E & Hs').
    { apply signal_enough_room; [done|done|]. by rewrite Ep, Hk. }
    eexists. split; [by apply (producer_signal _ _ _ _ _ Ep ltac:(done) E)|].
    eapply producer_keeps; [exact Hok|..]; rewrite ?Hun; try done; destruct b; simpl; rewrite ?Z.sub_0_r; auto; lia.
  - assert (∃ s' p', producer_step mem c = Ok (Some (set_p s' p' c)) ∧ producer_ok p' None ∧ unsignalled p' None = 0 ∧
      sema_ok s' (units c) (posting p') (wait_phase (b_c c))) as (s' & p' & E & Hp' & Hu & Hs').
    { destruct Hp as [_ [-> | ->]].
      - exists (b_sema c), (B_signal G_ret). by rewrite (producer_signal _ _ (G_post 0) (b_sema c) G_ret).
      - destruct (signal_post_ok _ _ _ Hs) as (s' & E & Hs'). exists s', (B_signal (G_post 0)).
        rewrite (producer_signal _ _ (G_post 1) s' (G_post 0)) by done. simpl. auto. }
    exists (set_p s' p' c). split; [done|].
    eapply producer_keeps; [exact Hok|..]; rewrite ?Hun, ?Hu, ?Z.add_0_r, ?Z.sub_0_r; simpl; rewrite ?Hk; done.
  - exists (set_p (b_sema c) (B_done true) c). unfold producer_step. rewrite Ep. split; [done|].
    eapply producer_keeps; [exact Hok|..]; rewrite ?Hun; simpl; rewrite ?Z.add_0_r, ?Z.sub_0_r; done.
Qed.

Lemma producer_step_ok mem c : bq_ok c → zlen (enqueued (b_cfg c)) < 2 ^ 63 →
  ∃ r, producer_step mem c = Ok r ∧ ∀ c', r = Some c' → bq_ok c'.
Proof.
  intros Hok Hlen. assert (Hcase : ∀ c', producer_step mem c = Ok (Some c') ∧ bq_ok c' →
    ∃ r, producer_step mem c = Ok r ∧ ∀ c', r = Some c' → bq_ok c').
  { intros c' [E Hc']. exists (Some c'). split; [done|]. by intros ? [= <-]. }
  destruct (b_p c) as [| |pc|ok] eqn:Ep.
  - exists None. unfold producer_step. by rewrite Ep.
  - pose proof (bo_p _ Hok) as Hp. rewrite Ep in Hp. destruct Hp as [pc Hpc].
    destruct (enqueue_step_ok mem c pc Hok Ep Hpc) as [c' Hc']. by apply (Hcase c').
  - destruct (signal_step_ok mem c pc Hok Hlen Ep) as [c' Hc']. by apply (Hcase c').
  - apply (Hcase (set_p (b_sema c) B_idle c)). unfold producer_step. rewrite Ep. split; [done|].
    pose proof (bo_p _ Hok) as Hp. pose proof (bo_sema _ Hok) as Hs. rewrite Ep in Hp, Hs. simpl in Hp.
    assert (Hun : units (set_p (b_sema c) B_idle c) = units c) by (unfold units; simpl; by rewrite Ep).
    eapply producer_keeps; [exact Hok|..]; rewrite ?Hun; simpl; try done. apply Hok.
Qed.

(** A step of the consumer outside the inner queue. *)
Lemma units_set_c c s' d' : units (set_c s' d' c) = units c + owed (b_c c) (c_c (b_cfg c)) - owed d' (c_c (b_cfg c)).
Proof. unfold units. simpl. lia. Qed.

Lemma consumer_moves c s' d' : bq_ok c → c_c (b_cfg c) = None → let a := units c + owed (b_c c) None - owed d' None in
  consumer_ok d' None a (empty_seen (b_cfg c)) (delivered c) → sema_ok s' a (posting (b_p c)) (wait_phase d') →
  bq_ok (set_c s' d' c).
Proof.
  intros [Hi Hp Hc Hs Ho] Hk a Hc' Hs'. split; rewrite ?units_set_c; simpl; rewrite ?Hk in *; done.
Qed.

Lemma wait_moves op pc rc now c s' pc' : bq_ok c → b_c c = D_wait op pc → valid_time now →
  wait_step rc now pc (b_sema c) = Some (s', pc') → bq_ok (set_c s' (D_wait op pc') c).
Proof.
  intros Hok Ec Hn E. pose proof Hok as [Hi Hp Hc Hs Ho]. rewrite Ec in Hc, Hs. destruct Hc as (Hk & Hw & Hu).
  destruct (wait_step_ok _ _ _ _ _ _ _ _ Hs Hw Hn E) as (_ & Hs' & Hw').
  assert (Ho' : owed (D_wait op pc) None = 0) by (destruct pc as [| | | | | | | | |[]]; done).
  assert (Ht : owed (D_wait op pc') None = taken pc') by (by destruct pc' as [| | | | | | | | |[]]).
  apply consumer_moves; rewrite ?Ec, ?Ho', ?Ht, ?Z.add_0_r; [done|done| |done].
  split_and!; [done|done|]. intros Ew. by apply (untimed_step _ _ _ _ _ _ E), Hu.
Qed.

Lemma wait_consumer_step rc now c op pc : b_c c = D_wait op pc → (∀ ok, pc ≠ S_ret ok) →
  consumer_step rc now c = Ok ('(s', pc') ← wait_step rc now pc (b_sema c); Some (set_c s' (D_wait op pc') c)).
Proof.
  unfold consumer_step. intros -> Hne. destruct pc as [| | | | | | | | |ok]; try (by destruct (Hne ok)); by destruct (wait_step _ _ _ _) as [[]|].
Qed.

(** What a good step is. *)
Definition good_step (r : result (option state)) : Prop := ∃ o, r = Ok o ∧ ∀ c', o = Some c' → bq_ok c'.
Lemma good_some c' : bq_ok c' → good_step (Ok (Some c')).
Proof. intros Hok. exists (Some c'). split; [done|]. by intros ? [= <-]. Qed.

(** The unit is taken: the inner call begins, and the queue is not empty. *)
Lemma begin_dequeue_ok c op : bq_ok c → b_c c = D_wait op (S_ret true) →
  let k := b_cfg c in
  bq_ok {| b_cfg := {| c_q := c_q k; c_p := c_p k; c_c := Some C_start; enqueued := enqueued k; dequeued := dequeued k;
                       empty_seen := is_empty (enqueued k) (dequeued k) |};
           b_sema := b_sema c; b_p := b_p c; b_c := D_dequeue op; delivered := delivered c |}.
Proof.
  intros Hok Ec k. pose proof (not_empty c Hok) as Hne. rewrite Ec in Hne. specialize (Hne eq_refl).
  pose proof Hok as [Hi Hp Hc Hs Ho]. rewrite Ec in Hc, Hs. destruct Hc as (Hk & _). unfold k.
  destruct c as [[q pp cc e d s] sm p dd out]; unfold units in *; simpl in *; subst dd cc.
  split; unfold units; simpl; try done. eapply step_inv; [exact Hi|apply call_dequeue].
Qed.

Lemma wait_ok_step rc now c op pc : bq_ok c → b_c c = D_wait op pc → valid_time now → good_step (consumer_step rc now c).
Proof.
  intros Hok Ec Hn. pose proof Hok as [Hi Hp Hc Hs Ho]. rewrite Ec in Hc, Hs. destruct Hc as (Hk & Hw & Hu).
  destruct (decide (pc = S_ret true)) as [->|H1]; [|destruct (decide (pc = S_ret false)) as [->|H2]].
  - unfold consumer_step. rewrite Ec. apply good_some. by apply begin_dequeue_ok.
  - unfold consumer_step. rewrite Ec. apply good_some.
    assert (Hne : op ≠ Wait_dequeue_op) by (by intros ->; specialize (Hu eq_refl)).
    apply consumer_moves; rewrite ?Ec; simpl; [done|done|by destruct op|destruct op; simpl; rewrite ?Z.add_0_r, ?Z.sub_0_r; done].
  - rewrite (wait_consumer_step _ _ _ _ _ Ec) by (by intros []). eexists. split; [done|]. intros c' E.
    destruct (wait_step _ _ _ _) as [[s' pc']|] eqn:Ew; [|done]. injection E as <-. by eapply wait_moves.
Qed.

(** A step of the inner call. *)
Lemma inner_step_ok c op pc q' pc' : bq_ok c → b_c c = D_dequeue op → c_c (b_cfg c) = Some pc → c_rank pc ≠ 0%nat →
  cstep pc (c_q (b_cfg c)) = Ok (q', pc') → let k := b_cfg c in
  bq_ok {| b_cfg := {| c_q := q'; c_p := c_p k; c_c := Some pc'; enqueued := enqueued k; dequeued := dequeued k ++ c_effect pc;
                       empty_seen := empty_seen k || is_empty (enqueued k) (dequeued k ++ c_effect pc) |};
           b_sema := b_sema c; b_p := b_p c; b_c := D_dequeue op; delivered := delivered c |}.
Proof.
  intros Hok Ec Ek Hr E k. pose proof Hok as [Hi Hp Hc Hs Ho]. pose proof (not_empty c Hok) as Hem. rewrite Ec, Ek in *.
  destruct (c_effect_owed op _ _ _ _ E Hr) as (He & Hl & Hw & Hh). specialize (Hem Hw).
  assert (Hseen : empty_seen k = false) by (by destruct pc; try (by destruct (Hr eq_refl))). unfold k in *.
  set (c' := {| b_p := _ |}). assert (Hun : units c' = units c).
  { unfold units; cbn [b_cfg b_p b_c c_p c_c enqueued dequeued c']. rewrite zlen_app, Ec, Ek. lia. }
  split; rewrite ?Hun; try done.
  - eapply step_inv; [exact Hi|]. destruct c as [[q pp cc e d s] sm p dd out]; simpl in *. subst cc. by apply step_dequeue.
  - simpl. rewrite Hseen. assert (Hn : in_hand (Some pc') = [] → is_empty (enqueued (b_cfg c)) (dequeued (b_cfg c) ++ c_effect pc) = false).
    { intros Hn. by rewrite He, Hn, app_nil_r. }
    destruct pc' as [| | | | | | | |[]]; try done; by apply Hn.
  - simpl. rewrite Hh, app_nil_r in Ho. by rewrite Ho, He.
Qed.

Lemma dequeue_ok_step rc now c op : bq_ok c → b_c c = D_dequeue op → ∃ c', consumer_step rc now c = Ok (Some c') ∧ bq_ok c'.
Proof.
  intros Hok Ec. pose proof Hok as [Hi Hp Hc Hs Ho]. rewrite Ec in *.
  destruct (c_c (b_cfg c)) as [pc|] eqn:Ek; [|done]. unfold consumer_step. rewrite Ec, Ek.
  destruct (decide (c_rank pc = 0%nat)) as [[r ->]%c_rank_0|Hr].
  - destruct r as [v|].
    + cbn [check bool_decide mbind result_bind]. eexists. split; [done|].
      destruct c as [[q pp cc e d s] sm p dd out]; unfold units in *; simpl in *; subst dd cc.
      split; unfold units; simpl; rewrite ?Z.sub_0_r in *; try done.
      * eapply step_inv; [exact Hi|apply ret_dequeue].
      * split; [done|]. by rewrite last_snoc.
      * by rewrite app_nil_r.
    + exfalso. simpl in Hc. pose proof (fo_empty _ (inv_fifo _ Hi) Ek). congruence.
  - destruct (fo_consumer _ (inv_fifo _ Hi) pc Ek) as [[q' pc'] E].
    pose proof (inner_step_ok c op pc q' pc' Hok Ec Ek Hr E) as Hgood.
    eexists. split; [|exact Hgood]. destruct pc; try (by destruct (Hr eq_refl)); by rewrite E.
Qed.

Lemma consumer_step_ok rc now c : bq_ok c → valid_time now → good_step (consumer_step rc now c).
Proof.
  intros Hok Hn. destruct (b_c c) as [|op pc|op|op r] eqn:Ec; [|by eapply wait_ok_step| |].
  - exists None. unfold consumer_step. rewrite Ec. by split.
  - destruct (dequeue_ok_step rc now c op Hok Ec) as (c' & -> & Hc'). by apply good_some.
  - unfold consumer_step. rewrite Ec. apply good_some. pose proof Hok as [Hi Hp Hc Hs Ho]. rewrite Ec in Hc, Hs.
    destruct Hc as [Hk _]. apply consumer_moves; rewrite ?Ec; simpl; rewrite ?Z.add_0_r, ?Z.sub_0_r; done.
Qed.

(** ** Reachable states *)

Lemma bstep_ok c c' : bq_ok c → zlen (enqueued (b_cfg c)) < 2 ^ 63 → bstep c c' → bq_ok c'.
Proof.
  intros Hok Hlen Hs. pose proof Hok as [Hi Hp Hc Hsm Ho]. destruct Hs as [ca x Ep|op Ec|c' [mem c'' E|rc now c'' Hn E]].
  - rewrite Ep in Hp. destruct c as [[q pp cc e d s] sm p dd out]; simpl in *; subst p pp.
    eapply producer_keeps; [exact Hok|..]; try done; [|by eexists].
    eapply step_inv; [exact Hi|apply call_enqueue].
  - rewrite Ec in Hc, Hsm. apply consumer_moves; rewrite ?Ec; [done|done|..];
      destruct op; simpl; rewrite ?Z.add_0_r, ?Z.sub_0_r; done.
  - destruct (producer_step_ok mem c Hok Hlen) as (r & E' & Hr). rewrite E' in E. apply Hr. congruence.
  - destruct (consumer_step_ok rc now c Hok Hn) as (r & E' & Hr). rewrite E' in E. apply Hr. congruence.
Qed.

(** Elements are only ever added. *)
Lemma bstep_enqueued c c' : bstep c c' → enqueued (b_cfg c) `prefix_of` enqueued (b_cfg c').
Proof.
  intros [ca x Ep|op Ec|c1 [mem c2 E|rc now c2 Hn E]]; [done|done|..].
  - unfold producer_step in E. repeat (case_match; simplify_eq/=; inv_ok; simplify_eq/=); try done; by apply prefix_app_r.
  - unfold consumer_step in E. repeat (case_match; simplify_eq/=; inv_ok; simplify_eq/=); done.
Qed.

Lemma steps_enqueued c c' : rtc bstep c c' → enqueued (b_cfg c) `prefix_of` enqueued (b_cfg c').
Proof. induction 1 as [|c1 c2 c3 Hs _ IH]; [done|]. etrans; [by apply bstep_enqueued|done]. Qed.

Lemma prefix_zlen (l k : list T) : l `prefix_of` k → zlen l ≤ zlen k.
Proof. intros [m ->]. rewrite zlen_app. pose proof (zlen_nonneg m). lia. Qed.

Lemma steps_ok c c' : bq_ok c → rtc bstep c c' → zlen (enqueued (b_cfg c')) < 2 ^ 63 → bq_ok c'.
Proof.
  intros Hok Hs Hlen. induction Hs as [|c1 c2 c3 Hs Hss IH]; [done|]. apply IH; [|done].
  eapply bstep_ok; [exact Hok| |exact Hs]. pose proof (prefix_zlen _ _ (bstep_enqueued _ _ Hs)).
  pose proof (prefix_zlen _ _ (steps_enqueued _ _ Hss)). lia.
Qed.

Lemma bstart_ok q : queue_holds q [] → bq_ok (bstart {| inner := q; sema := {| m_count := 0; m_sema := 0 |} |}).
Proof.
  intros Hq. destruct (queue_holds_inv q [] [] Hq) as (rest & free & lf & ls & _ & Hi).
  split; unfold units; simpl; try done. apply inv_alt. exists rest, free, lf, ls. apply Hi.
Qed.

Lemma new_blocking_inv malloc_ mem size b : 1 ≤ size < 2 ^ 32 → new_BlockingReaderWriterQueue malloc_ mem size = Ok b →
  queue_holds (inner b) [] ∧ sema b = {| m_count := 0; m_sema := 0 |}.
Proof.
  unfold new_BlockingReaderWriterQueue. intros Hs E. inv_ok. simpl in *. simplify_eq. split; [by eapply new_queue_spec|].
  unfold new_LightweightSemaphore in *. by simplify_eq/=.
Qed.

Lemma breachable_ok malloc_ mem size b c : 1 ≤ size < 2 ^ 32 → new_BlockingReaderWriterQueue malloc_ mem size = Ok b →
  breachable b c → zlen (enqueued (b_cfg c)) < 2 ^ 63 → bq_ok c.
Proof.
  intros Hs E Hr. destruct (new_blocking_inv _ _ _ _ Hs E) as [Hq Hsm]. destruct b as [q s]; simpl in *. subst s.
  eapply steps_ok; [by apply bstart_ok|exact Hr].
Qed.

(** ** Progress *)

Inductive quiet_step (c : state) : state → Prop :=
| quiet_producer mem c' : producer_step mem c = Ok (Some c') → quiet_step c c'
| quiet_consumer rc now c' : valid_time now → rc ≠ Rc_EINTR → consumer_step rc now c = Ok (Some c') → quiet_step c c'.

Definition producer_rank (p : producer) (k : option (ppc T)) : nat :=
  match p with
  | B_enqueue => 10 + match k with Some pc => p_rank pc | None => 0 end
  | B_signal (G_add _) => 6
  | B_signal (G_post n) => if n =? 1 then 4 else 3
  | B_signal G_ret => 2
  | B_done _ => 1
  | B_idle => 0
  end.
Definition consumer_rank (d : consumer) (k : option (cpc T)) : nat :=
  match d with
  | D_wait _ pc => 20 + wait_rank pc
  | D_dequeue _ => match k with Some pc => 1 + c_rank pc | None => 0 end
  | _ => 0
  end.
Definition bq_measure (c : state) : nat :=
  producer_rank (b_p c) (c_p (b_cfg c)) + consumer_rank (b_c c) (c_c (b_cfg c)).

(** Whether the producer's call can still add an element. *)
Definition may_add (p : producer) (k : option (ppc T)) : Z :=
  match p, k with B_enqueue, Some (P_ret _) => 0 | B_enqueue, _ => 1 | _, _ => 0 end.

Lemma signal_step_rank c pc s' pc' : bq_ok c → b_p c = B_signal pc → signal_step pc (b_sema c) = Ok (s', pc') → pc ≠ G_ret →
  (producer_rank (B_signal pc') None < producer_rank (B_signal pc) None)%nat.
Proof.
  intros Hok Ep E Hne. pose proof (bo_p _ Hok) as Hp. pose proof (bo_sema _ Hok) as Hs. rewrite Ep in Hp, Hs.
  destruct pc as [n|n|]; [| |done].
  - unfold signal_step in E. inv_ok. simplify_eq. destruct (_ <? 0); simpl; lia.
  - destruct Hp as [_ [-> | ->]].
    + simpl in E. simplify_eq. simpl. lia.
    + destruct (signal_post_ok _ _ _ Hs) as (s1 & E' & _). rewrite E' in E. simplify_eq. simpl. lia.
Qed.

(** What a step of the producer's call brings about. *)
Definition producer_progress (c c' : state) : Prop :=
  (bq_measure c' < bq_measure c)%nat ∧ b_c c' = b_c c ∧ delivered c' = delivered c ∧
  zlen (enqueued (b_cfg c')) + may_add (b_p c') (c_p (b_cfg c')) ≤ zlen (enqueued (b_cfg c)) + may_add (b_p c) (c_p (b_cfg c)).

Lemma enqueue_step_rank mem c c' pc : b_p c = B_enqueue → c_p (b_cfg c) = Some pc →
  producer_step mem c = Ok (Some c') → producer_progress c c'.
Proof.
  unfold producer_step, producer_progress, bq_measure. intros Ep Hk E. rewrite Ep, Hk in *.
  destruct (decide (p_rank pc = 0%nat)) as [[ok ->]%p_rank_0|Hr].
  - injection E as <-. destruct ok; simpl; split_and!; try done; lia.
  - assert (E1 : ∃ q' pc', pstep mem pc (c_q (b_cfg c)) = Ok (q', pc')).
    { destruct (pstep mem pc (c_q (b_cfg c))) as [[]|] eqn:E1; [eauto|]. destruct pc; try done; by destruct (Hr eq_refl). }
    destruct E1 as (q' & pc' & E1). destruct (pstep_rank _ _ _ _ _ E1 Hr) as [Hlt _].
    destruct (p_effect_unsignalled _ _ _ _ _ E1 Hr) as [He _].
    assert (Hm : may_add B_enqueue (Some pc) = 1) by (by destruct pc; try (by destruct (Hr eq_refl))).
    rewrite E1 in E. assert (E' : c' = {| b_cfg :=
        {| c_q := q'; c_p := Some pc'; c_c := c_c (b_cfg c); enqueued := enqueued (b_cfg c) ++ p_effect pc; dequeued := dequeued (b_cfg c);
           empty_seen := empty_seen (b_cfg c) || is_empty (enqueued (b_cfg c) ++ p_effect pc) (dequeued (b_cfg c)) |};
        b_sema := b_sema c; b_p := B_enqueue; b_c := b_c c; delivered := delivered c |}).
    { destruct pc; try (by destruct (Hr eq_refl)); by injection E as <-. }
    subst c'. cbn [b_cfg b_p b_c c_p c_c enqueued delivered producer_rank]. rewrite zlen_app, He, Hm.
    split_and!; [lia|done|done|]. destruct pc' as [| | | | | | | | |[]]; simpl; lia.
Qed.

Lemma producer_step_rank mem c c' : bq_ok c → producer_step mem c = Ok (Some c') → producer_progress c c'.
Proof.
  intros Hok E. pose proof (bo_p _ Hok) as Hp. destruct (b_p c) as [| |pc|ok] eqn:Ep.
  - unfold producer_step in E. by rewrite Ep in E.
  - destruct Hp as [pc Hk]. by eapply enqueue_step_rank.
  - assert (Hk : c_p (b_cfg c) = None) by (destruct pc; simpl in Hp; tauto).
    assert (E' : ∃ s' p', c' = set_p s' p' c ∧ (producer_rank p' None < producer_rank (B_signal pc) None)%nat ∧ may_add p' None = 0).
    { unfold producer_step in E. rewrite Ep in E. destruct pc as [n|n|]; [| |injection E as <-; eexists _, _; split; [done|]; simpl; lia];
        apply bind_Ok in E as ([s' pc'] & E & [= <-]); eexists _, _; (split; [done|]); (split; [|done]);
        by apply (signal_step_rank _ _ _ _ Hok Ep E). }
    destruct E' as (s' & p' & -> & Hlt & Hm). unfold producer_progress, bq_measure. simpl. rewrite Ep, Hk, Hm. simpl in *.
    split_and!; try done; lia.
  - unfold producer_step in E. rewrite Ep in E. injection E as <-. unfold producer_progress, bq_measure. simpl. rewrite Ep.
    split_and!; try done. simpl. lia.
Qed.

(** [wait_dequeue] under way, with [x] the next element of the queue. *)
Definition serving (got : list T) (x : T) (c : state) : Prop :=
  bq_ok c ∧ zlen (enqueued (b_cfg c)) + may_add (b_p c) (c_p (b_cfg c)) < 2 ^ 63 ∧
  (∃ l, enqueued (b_cfg c) = got ++ x :: l) ∧ delivered c = got ∧
  ((∃ pc, b_c c = D_wait Wait_dequeue_op pc) ∨ b_c c = D_dequeue Wait_dequeue_op).
Definition served (got : list T) (x : T) (c : state) : Prop :=
  b_c c = D_done Wait_dequeue_op (Some x) ∧ delivered c = got ++ [x].

Lemma serving_producer got x c mem c' : serving got x c → producer_step mem c = Ok (Some c') →
  serving got x c' ∧ (bq_measure c' < bq_measure c)%nat.
Proof.
  intros (Hok & Hlen & [l He] & Hd & Hc) E. destruct (producer_step_rank _ _ _ Hok E) as (Hlt & Ec & Ed & Hle).
  assert (Hm : 0 ≤ may_add (b_p c) (c_p (b_cfg c))) by (unfold may_add; repeat case_match; lia).
  assert (Hs : bstep c c') by (by eapply bstep_run, run_producer). split; [|done]. split_and!.
  - eapply bstep_ok; [exact Hok|lia|exact Hs].
  - lia.
  - destruct (bstep_enqueued _ _ Hs) as [m E']. exists (l ++ m). by rewrite E', He, <- app_assoc.
  - congruence.
  - by rewrite Ec.
Qed.

Lemma consumer_step_rank rc now c c' op : bq_ok c → rc ≠ Rc_EINTR → consumer_step rc now c = Ok (Some c') → op = Wait_dequeue_op →
  ((∃ pc, b_c c = D_wait op pc) ∨ b_c c = D_dequeue op) →
  (bq_measure c' < bq_measure c)%nat ∧ b_p c' = b_p c ∧ enqueued (b_cfg c') = enqueued (b_cfg c) ∧ c_p (b_cfg c') = c_p (b_cfg c) ∧
  (delivered c' = delivered c ∧ ((∃ pc, b_c c' = D_wait op pc) ∨ b_c c' = D_dequeue op) ∨
   ∃ x, delivered c' = delivered c ++ [x] ∧ b_c c' = D_done op (Some x)).
Proof.
  intros Hok Hrc E Hop Hc. pose proof (bo_c _ Hok) as Hco. unfold bq_measure. destruct Hc as [[pc Ec]|Ec]; rewrite Ec in *.
  - destruct Hco as (Hk & Hw & Hu). specialize (Hu Hop). destruct (decide (pc = S_ret true)) as [->|Hne].
    + unfold consumer_step in E. rewrite Ec in E. injection E as <-. simpl. split_and!; try done; [lia|]. left. eauto.
    + assert (Hret : ∀ ok, pc ≠ S_ret ok) by (intros [] ->; done).
      rewrite (wait_consumer_step _ _ _ _ _ Ec Hret) in E. destruct (wait_step _ _ _ _) as [[s' pc']|] eqn:Ew; [|done].
      injection E as <-. destruct (untimed_step _ _ _ _ _ _ Ew Hu) as [_ Hlt]. specialize (Hlt Hrc). simpl.
      split_and!; try done; [lia|]. left. eauto.
  - destruct (c_c (b_cfg c)) as [pc|] eqn:Ek; [|done]. unfold consumer_step in E. rewrite Ec, Ek in E.
    destruct (decide (c_rank pc = 0%nat)) as [[r ->]%c_rank_0|Hr].
    + destruct r as [x|]; [|done]. injection E as <-. simpl. split_and!; try done; [lia|]. right. by exists x.
    + assert (E1 : ∃ q' pc', cstep pc (c_q (b_cfg c)) = Ok (q', pc')).
      { destruct (cstep pc (c_q (b_cfg c))) as [[]|] eqn:E1; [eauto|]. destruct pc; try done; by destruct (Hr eq_refl). }
      destruct E1 as (q' & pc' & E1). destruct (cstep_rank _ _ _ _ E1 Hr) as [Hlt _]. rewrite E1 in E.
      assert (E' : b_c c' = D_dequeue op ∧ c_c (b_cfg c') = Some pc' ∧ b_p c' = b_p c ∧ c_p (b_cfg c') = c_p (b_cfg c) ∧
        enqueued (b_cfg c') = enqueued (b_cfg c) ∧ delivered c' = delivered c).
      { destruct pc; try (by destruct (Hr eq_refl)); by injection E as <-. }
      destruct E' as (-> & -> & -> & -> & -> & ->). split_and!; try done; [simpl; lia|]. left. eauto.
Qed.

Lemma serving_consumer got x c rc now c' : serving got x c → valid_time now → rc ≠ Rc_EINTR →
  consumer_step rc now c = Ok (Some c') → (serving got x c' ∨ served got x c') ∧ (bq_measure c' < bq_measure c)%nat.
Proof.
  intros (Hok & Hlen & [l He] & Hd & Hc) Hn Hrc E.
  assert (Hm : 0 ≤ may_add (b_p c) (c_p (b_cfg c))) by (unfold may_add; repeat case_match; lia).
  assert (Hok' : bq_ok c') by (eapply bstep_ok; [exact Hok|lia|]; by eapply bstep_run, run_consumer).
  destruct (consumer_step_rank _ _ _ _ _ Hok Hrc E eq_refl Hc) as (Hlt & Ep & Ee & Ek & H'). split; [|done].
  destruct H' as [[Ed Hc']|(y & Ed & Hc')].
  - left. split_and!; try done; [by rewrite Ep, Ee, Ek|exists l; congruence|congruence].
  - right. destruct (fo_prefix _ (inv_fifo _ (bo_inv _ Hok'))) as [m Hpre].
    rewrite (bo_out _ Hok'), Ed, Hd, Ee, He, <- !app_assoc in Hpre. apply app_inv_head in Hpre. injection Hpre as -> _.
    split; [done|congruence].
Qed.

Lemma producer_active c : bq_ok c → zlen (enqueued (b_cfg c)) < 2 ^ 63 → b_p c ≠ B_idle →
  ∃ c', producer_step true c = Ok (Some c').
Proof.
  intros Hok Hlen Hne. destruct (b_p c) as [| |pc|ok] eqn:Ep; [done|..].
  - pose proof (bo_p _ Hok) as Hp. rewrite Ep in Hp. destruct Hp as [pc Hk].
    destruct (enqueue_step_ok true c pc Hok Ep Hk) as (c' & E & _). eauto.
  - destruct (signal_step_ok true c pc Hok Hlen Ep) as (c' & E & _). eauto.
  - unfold producer_step. rewrite Ep. eauto.
Qed.

(** When the kernel has nothing for a blocked consumer, the [signal] of the element is
    under way. *)
Lemma blocked_signal c op l x : bq_ok c → b_c c = D_wait op (S_kernel Sem_wait) → m_sema (b_sema c) ≤ 0 →
  enqueued (b_cfg c) = delivered c ++ x :: l → b_p c ≠ B_idle.
Proof.
  intros [Hi Hp Hc [Hr _ Hs _ _] Ho] Ec Hz He Ep. rewrite Ec, Ep in *. destruct Hc as [Hk _]. simpl in Hs.
  unfold units in *. rewrite Ec, Ep, Hk in *. simpl in *. rewrite app_nil_r in Ho.
  rewrite Ho, He, zlen_app, zlen_cons in *. pose proof (zlen_nonneg l). unfold kernel_unit in Hs.
  rewrite (proj2 (Z.leb_le 1 _)) in Hs by lia. simpl in Hs. lia.
Qed.

Lemma serving_progress got x c : serving got x c → ∃ c', quiet_step c c'.
Proof.
  intros (Hok & Hlen & [l He] & Hd & Hc). pose proof Hok as [Hi Hp Hco Hs Ho].
  assert (Hm : 0 ≤ may_add (b_p c) (c_p (b_cfg c))) by (unfold may_add; repeat case_match; lia).
  destruct Hc as [[pc Ec]|Ec].
  2: { destruct (dequeue_ok_step Rc_0 (0, 0) c _ Hok Ec) as (c' & E & _). exists c'. by apply (quiet_consumer c Rc_0 (0, 0)). }
  rewrite Ec in Hco. destruct Hco as (Hk & Hw & Hu). specialize (Hu eq_refl).
  destruct (decide (pc = S_ret true)) as [->|Hne].
  { eexists. apply (quiet_consumer c Rc_0 (0, 0)); [done|done|]. unfold consumer_step. by rewrite Ec. }
  assert (Hret : ∀ ok, pc ≠ S_ret ok) by (intros [] ->; done).
  destruct (decide (pc = S_kernel Sem_wait ∧ m_sema (b_sema c) ≤ 0)) as [[-> Hz]|Hfree].
  - destruct (producer_active c) as [c' E]; [done|lia| |eexists; by eapply quiet_producer].
    eapply blocked_signal; [done..|]. by rewrite He, Hd.
  - destruct (untimed_enabled (0, 0) pc (b_sema c) Hu Hne) as (s' & pc' & E); [intros ->; apply Z.nle_gt; tauto|].
    eexists. apply (quiet_consumer c Rc_0 (0, 0)); [done|done|]. by rewrite (wait_consumer_step _ _ _ _ _ Ec Hret), E.
Qed.

Lemma serving_inevitable got x c : serving got x c → inevitably quiet_step (served got x) c.
Proof.
  intros Hs. apply (inevitably_measure quiet_step _ (λ c, serving got x c ∨ served got x c) bq_measure); [|by left].
  clear c Hs. intros c [Hs|Hs]; [right|by left]. split; [by eapply serving_progress|].
  intros c' [mem c1 E|rc now c1 Hn Hrc E].
  - destruct (serving_producer _ _ _ _ _ Hs E). eauto.
  - destruct (serving_consumer _ _ _ _ _ _ Hs Hn Hrc E). eauto.
Qed.

(** ** The calls of one thread alone, as a bounded list

    A timed wait is one more operation: its time runs out unless the kernel has
    something. *)
Inductive blocking_op := Plain (o : op (T:=T)) | Wait_dequeue_timed (timeout_usecs : Z) (now : timespec).
Definition run_blocking_op (o : blocking_op) (b : BlockingReaderWriterQueue) : result (answer * BlockingReaderWriterQueue) :=
  match o with
  | Plain (Try_enqueue x) => '(ok, b) ← blocking_try_enqueue x b; Ok (A_bool ok, b)
  | Plain Try_dequeue => '(r, b) ← blocking_try_dequeue b; Ok (A_elem r, b)
  | Plain Pop => '(ok, b) ← blocking_pop b; Ok (A_bool ok, b)
  | Plain Peek => '(r, b) ← blocking_peek b; Ok (A_elem r, b)
  | Plain Size_approx => Ok (A_size (blocking_size_approx b), b)
  | Wait_dequeue_timed t now => '(r, b) ← blocking_wait_dequeue_timed Rc_error now t b; Ok (A_elem r, b)
  end.
Definition ref_blocking_op (cap : Z) (o : blocking_op) (l : list T) : answer * list T :=
  match o with Plain o => ref_op cap o l | Wait_dequeue_timed _ _ => (A_elem (hd_error l), tl l) end.
Fixpoint run_blocking_ops (os : list blocking_op) b : result (list answer) :=
  match os with [] => Ok [] | o :: os => '(a, b) ← run_blocking_op o b; l ← run_blocking_ops os b; Ok (a :: l) end.
Fixpoint ref_blocking_ops (cap : Z) (os : list blocking_op) (l : list T) : list answer :=
  match os with [] => [] | o :: os => let '(a, l) := ref_blocking_op cap o l in a :: ref_blocking_ops cap os l end.

Definition timeout_ok (o : blocking_op) : Prop :=
  match o with Wait_dequeue_timed t now => 0 ≤ t ∧ valid_time now | Plain _ => True end.

Definition blocking_holds (cap : Z) b (l : list T) : Prop := one_block cap (inner b) l ∧ sema_alone (sema b) (zlen l).

Lemma units_left {A} (l : list A) : (1 <=? zlen l) = bool_decide (l ≠ []) ∧ (if 1 <=? zlen l then zlen l - 1 else zlen l) = zlen (tl l).
Proof.
  destruct l as [|x l]; [done|]. rewrite zlen_cons, (proj2 (Z.leb_le 1 _)) by (pose proof (zlen_nonneg l); lia).
  rewrite bool_decide_true by done. split; [done|]. simpl. lia.
Qed.

Lemma dequeue_after_spec cap b l s : one_block cap (inner b) l → sema_alone s (zlen (tl l)) →
  ∃ b', dequeue_after (Some (bool_decide (l ≠ []), s)) b = Ok (hd_error l, b') ∧ blocking_holds cap b' (tl l).
Proof.
  intros Hb Hs. destruct l as [|x l]; simpl.
  - eexists. split; [done|]. by split.
  - destruct (try_dequeue_one cap _ _ Hb) as (q' & -> & Hq). eexists. split; [done|]. by split.
Qed.

Lemma pop_after_spec cap b l : blocking_holds cap b l →
  ∃ b', blocking_pop b = Ok (bool_decide (l ≠ []), b') ∧ blocking_holds cap b' (tl l).
Proof.
  intros [Hb Hs]. destruct (tryWait_alone _ _ Hs) as (s' & E & Hs'). destruct (units_left l) as [El Et]. rewrite El in E. rewrite Et in Hs'.
  unfold blocking_pop. rewrite E. destruct l as [|x l]; simpl.
  - eexists. split; [done|]. by split.
  - destruct (try_dequeue_one cap _ _ Hb) as (q' & E' & Hq). unfold pop. rewrite E'. eexists. split; [done|]. by split.
Qed.

Lemma try_enqueue_after_spec cap x b l : blocking_holds cap b l →
  ∃ b', blocking_try_enqueue x b = Ok (zlen l <? cap, b') ∧ blocking_holds cap b' (if zlen l <? cap then l ++ [x] else l).
Proof.
  intros [Hb Hs]. destruct (try_enqueue_one cap x _ _ Hb) as (ok & q' & E & -> & Hq). unfold blocking_try_enqueue. rewrite E.
  unfold signal_after. simpl. destruct (zlen l <? cap).
  - pose proof (one_block_count _ _ _ Hq) as Hn. rewrite zlen_app in Hn. change (zlen [x]) with 1 in Hn.
    destruct (signal_alone _ _ Hs) as (s' & -> & Hs'); [lia|]. eexists. split; [done|]. split; [done|]. simpl.
    by rewrite zlen_app.
  - eexists. split; [done|]. by split.
Qed.

Lemma run_blocking_op_spec cap o b l : blocking_holds cap b l → timeout_ok o →
  ∃ b', run_blocking_op o b = Ok ((ref_blocking_op cap o l).1, b') ∧ blocking_holds cap b' (ref_blocking_op cap o l).2.
Proof.
  intros Hb Ht. destruct (units_left l) as [El Et]. destruct o as [[x| | | |]|t now]; simpl.
  - destruct (try_enqueue_after_spec cap x b l Hb) as (b' & -> & Hb'). exists b'. by destruct (zlen l <? cap).
  - destruct (tryWait_alone _ _ (proj2 Hb)) as (s' & E & Hs'). rewrite El in E. rewrite Et in Hs'. unfold blocking_try_dequeue. rewrite E.
    destruct (dequeue_after_spec cap b l s' (proj1 Hb) Hs') as (b' & -> & Hb'). by exists b'.
  - destruct (pop_after_spec cap b l Hb) as (b' & -> & Hb'). by exists b'.
  - unfold blocking_peek. destruct (peek_spec _ l (proj1 (proj1 Hb))) as (q' & E & Hq). rewrite E. eexists. split; [done|]. split; [|apply Hb].
    eapply one_block_kept; [exact (proj1 Hb)|by eapply peek_blocks|done].
  - exists b. split; [|done]. destruct Hb as [_ [Hr Hs]%sema_alone_eq]. unfold blocking_size_approx, availableApprox. rewrite Hs. simpl.
    destruct (zlen l >? 0) eqn:E; zbool; [done|]. do 3 f_equal. lia.
  - destruct Ht as [Ht Hn]. destruct (wait_alone _ _ now t (proj2 Hb) Ht Hn) as (s' & E & Hs'). rewrite El in E. rewrite Et in Hs'.
    unfold blocking_wait_dequeue_timed. rewrite E.
    destruct (dequeue_after_spec cap b l s' (proj1 Hb) Hs') as (b' & -> & Hb'). by exists b'.
Qed.

(** Moving and assigning lose nothing. *)
Lemma move_blocking_spec cap b l : blocking_holds cap b l →
  ∃ b' q, move_BlockingReaderWriterQueue true b = Ok (b', q) ∧ blocking_holds cap b' l ∧ queue_holds q [].
Proof.
  intros [Hb Hs]. eexists _, _. split; [done|]. split; [by split|].
  destruct (move_spec _ l (proj1 Hb)) as (q' & other & E & _ & Ho). injection E as _ <-. exact Ho.
Qed.
Lemma assign_blocking_spec b b' : assign_BlockingReaderWriterQueue true b b' = Ok (b', b).
Proof. by destruct b, b'. Qed.

Lemma run_blocking_ops_spec cap os b l : blocking_holds cap b l → Forall timeout_ok os →
  run_blocking_ops os b = Ok (ref_blocking_ops cap os l).
Proof.
  intros Hb Hos. revert b l Hb. induction Hos as [|o os Ho _ IH]; intros b l Hb; simpl; [done|].
  destruct (run_blocking_op_spec cap o b l Hb Ho) as (b' & -> & Hb'). simpl. rewrite (IH _ _ Hb'). simpl. by destruct (ref_blocking_op cap o l).
Qed.

(** ** Running a schedule *)
Inductive action := Call_enqueue (canAlloc : bool) (x : T) | Call_op (op : consumer_op) | Producer (mem : bool) | Consumer (rc : sem_rc).
Definition act (a : action) (c : state) : option state :=
  match a with
  | Call_enqueue canAlloc x => match b_p c with B_idle => Some (call_enqueue_op canAlloc x c) | _ => None end
  | Call_op op => match b_c c with D_idle => Some (call_consumer_op op c) | _ => None end
  | Producer mem => match producer_step mem c with Ok o => o | Err _ => None end
  | Consumer rc => match consumer_step rc (0, 0) c with Ok o => o | Err _ => None end
  end.
Fixpoint acts (l : list action) (c : state) : option state :=
  match l with [] => Some c | a :: l => c ← act a c; acts l c end.

Lemma act_step a c c' : act a c = Some c' → bstep c c'.
Proof.
  destruct a as [ca x|op|mem|rc]; simpl.
  - destruct (b_p c) eqn:E; intros [= <-]. by apply bstep_enqueue.
  - destruct (b_c c) eqn:E; intros [= <-]. by apply bstep_consume.
  - destruct (producer_step mem c) as [o|] eqn:E; intros [= ->]. by eapply bstep_run, run_producer.
  - destruct (consumer_step rc (0, 0) c) as [o|] eqn:E; intros [= ->]. by apply bstep_run, (run_consumer c rc (0, 0)).
Qed.
Lemma acts_steps l c c' : acts l c = Some c' → rtc bstep c c'.
Proof.
  revert c. induction l as [|a l IH]; simpl; intros c E; [by injection E as <-|].
  destruct (act a c) as [c1|] eqn:E1; [|done]. eapply rtc_l; [by eapply act_step|by apply IH].
Qed.

(** What the semaphore says about the number of elements. *)
Lemma size_approx_bound c : bq_ok c →
  availableApprox (b_sema c) ≤ zlen (enqueued (b_cfg c)) - zlen (delivered c) ∧
  (b_p c = B_idle → b_c c = D_idle → availableApprox (b_sema c) = zlen (enqueued (b_cfg c)) - zlen (delivered c)).
Proof.
  intros Hok. pose proof Hok as [_ Hp Hc [Hr Hm _ _ _] Ho]. unfold availableApprox.
  assert (Hd : zlen (delivered c) ≤ zlen (dequeued (b_cfg c))).
  { rewrite Ho, zlen_app. pose proof (zlen_nonneg (in_hand (c_c (b_cfg c)))). lia. }
  assert (Hu : 0 ≤ unsignalled (b_p c) (c_p (b_cfg c))) by (unfold unsignalled; repeat case_match; lia).
  assert (Hw : 0 ≤ owed (b_c c) (c_c (b_cfg c))) by (unfold owed; repeat case_match; lia).
  assert (Hle : m_count (b_sema c) ≤ units c) by (rewrite Hm; destruct (wait_phase _); lia).
  pose proof (bq_prefix c Hok) as Hpre. split.
  - unfold units, zlen in *. destruct (_ >? 0); lia.
  - intros Ep Ec. rewrite Ec in Hc, Hm. simpl in Hc, Hm. rewrite Hc in Ho. simpl in Ho. rewrite app_nil_r in Ho.
    unfold units in *. rewrite Ep, Ec, Ho in *. simpl in *. destruct (_ >? 0) eqn:E; zbool; lia.
Qed.
End Blocking.
Arguments BlockingReaderWriterQueue : clear implicits.

(** ** The properties *)

(** C21: one producer thread and one consumer thread on a newly constructed blocking queue,
    in every interleaving of their atomic steps, whatever the kernel answers within its
    documentation (interruptions and timeouts at any moment) and however allocations end:
    no step goes wrong, so that no assertion fails, neither that the count the producer
    finds is at least -1 nor that the inner queue has an element once the semaphore was
    taken; the elements the calls have returned are, in order, the first that were
    enqueued; a call that is about to return has that element, or none, which does not
    happen to [wait_dequeue]; and the semaphore never promises more elements than there
    are, and exactly as many when no call is under way. *)
Theorem blocking_queue_safe `{PosixSemaphore} {T} malloc_ mem size (b : BlockingReaderWriterQueue T) c :
  1 ≤ size < 2 ^ 32 → new_BlockingReaderWriterQueue malloc_ mem size = Ok b → breachable b c →
  zlen (enqueued (b_cfg c)) < 2 ^ 63 →
  (∀ mem, ∃ r, producer_step mem c = Ok r) ∧ (∀ rc now, valid_time now → ∃ r, consumer_step rc now c = Ok r) ∧
  delivered c `prefix_of` enqueued (b_cfg c) ∧
  (∀ op r, b_c c = D_done op r → match r with Some x => last (delivered c) = Some x | None => op ≠ Wait_dequeue_op end) ∧
  availableApprox (b_sema c) ≤ zlen (enqueued (b_cfg c)) - zlen (delivered c) ∧
  (b_p c = B_idle → b_c c = D_idle → availableApprox (b_sema c) = zlen (enqueued (b_cfg c)) - zlen (delivered c)).
Proof.
  intros Hs Hb Hr Hlen. pose proof (breachable_ok _ _ _ _ _ Hs Hb Hr Hlen) as Hok. split_and!.
  - intros m. destruct (producer_step_ok m c Hok Hlen) as (r & E & _). eauto.
  - intros rc now Hn. destruct (consumer_step_ok rc now c Hok Hn) as (r & E & _). eauto.
  - destruct (fo_prefix _ (inv_fifo _ (bo_inv _ Hok))) as [l E]. rewrite (bo_out _ Hok), <- app_assoc in E. by eexists.
  - intros op r Ec. pose proof (bo_c _ Hok) as Hc. rewrite Ec in Hc. apply Hc.
  - by apply size_approx_bound.
  - by apply size_approx_bound.
Qed.

(** A consumer that has gone to sleep in the kernel, and a producer that has enqueued and
    is about to post. *)
Definition sample_blocking : BlockingReaderWriterQueue nat :=
  match new_BlockingReaderWriterQueue (λ _, true) true 15 with
  | Ok b => b
  | Err _ => {| inner := queue_32; sema := {| m_count := 0; m_sema := 0 |} |}
  end.
Definition sample_schedule : list (action (T:=nat)) :=
  Call_op Wait_dequeue_op :: replicate 1027 (Consumer Rc_0) ++ Call_enqueue false 7%nat :: replicate 5 (Producer true).
Definition sample_asleep : state (T:=nat) :=
  match acts (H:=posix) sample_schedule (bstart sample_blocking) with Some c => c | None => bstart sample_blocking end.

Lemma sample_asleep_reachable : breachable (H:=posix) sample_blocking sample_asleep ∧
  b_c sample_asleep = D_wait Wait_dequeue_op (S_kernel Sem_wait) ∧ b_p sample_asleep = B_signal (G_post 1) ∧
  enqueued (b_cfg sample_asleep) = delivered sample_asleep ++ [7%nat].
Proof.
  split; [|by vm_compute]. apply (acts_steps (H:=posix) sample_schedule). by vm_compute.
Qed.

Lemma blocking_queue_safe_witness :
  breachable (H:=posix) sample_blocking sample_asleep ∧ ∃ r, consumer_step (H:=posix) Rc_EINTR (0, 0) sample_asleep = Ok r.
Proof.
  destruct sample_asleep_reachable as [Hr _]. split; [exact Hr|].
  destruct (blocking_queue_safe (H:=posix) (λ _, true) true 15 sample_blocking sample_asleep) as (_ & Hc & _);
    [lia|by vm_compute|exact Hr|by vm_compute|]. apply (Hc Rc_EINTR (0, 0)). by vm_compute.
Defined.

(** C22: no wake-up is lost.  When [wait_dequeue] is under way, asleep in the kernel or not,
    and an element [x] is the next in the queue, then whatever steps the two threads take
    to continue their calls, as long as the kernel does not interrupt, they are finitely
    many and never get stuck until [wait_dequeue] returns, and it returns [x]. *)
Theorem wait_dequeue_served `{PosixSemaphore} {T} malloc_ mem size (b : BlockingReaderWriterQueue T) c pc x l :
  1 ≤ size < 2 ^ 32 → new_BlockingReaderWriterQueue malloc_ mem size = Ok b → breachable b c →
  zlen (enqueued (b_cfg c)) + 1 < 2 ^ 63 → b_c c = D_wait Wait_dequeue_op pc →
  enqueued (b_cfg c) = delivered c ++ x :: l →
  inevitably quiet_step (λ c', b_c c' = D_done Wait_dequeue_op (Some x) ∧ delivered c' = delivered c ++ [x]) c.
Proof.
  intros Hs Hb Hr Hlen Hc He. apply serving_inevitable. split_and!.
  - eapply breachable_ok; [exact Hs|exact Hb|exact Hr|lia].
  - unfold may_add. repeat case_match; lia.
  - by exists l.
  - done.
  - left. by exists pc.
Qed.

Lemma wait_dequeue_served_witness :
  inevitably (quiet_step (H:=posix))
    (λ c', b_c c' = D_done Wait_dequeue_op (Some 7%nat) ∧ delivered c' = delivered sample_asleep ++ [7%nat]) sample_asleep.
Proof.
  destruct sample_asleep_reachable as (Hr & Hc & _ & He).
  apply (wait_dequeue_served (H:=posix) (λ _, true) true 15 sample_blocking sample_asleep (S_kernel Sem_wait) 7%nat []);
    [lia|by vm_compute|exact Hr|by vm_compute|exact Hc|exact He].
Defined.

(** C23: a blocking queue constructed for fewer than 1024 elements answers every sequence of
    calls that no other thread interferes with, timed waits included, as the plain queue
    does, which is as a list of bounded length; a wait takes the front element, or gives up
    when its time is over and leaves the semaphore as it was.  Timeouts are not negative. *)
Theorem blocking_queue_refines_list `{PosixSemaphore} {T} malloc_ size (os : list (blocking_op (T:=T))) :
  1 ≤ size < 1024 → malloc_ 0%nat = true → Forall timeout_ok os →
  (b ← new_BlockingReaderWriterQueue malloc_ true size; run_blocking_ops os b) =
  Ok (ref_blocking_ops (2 ^ Z.log2_up (size + 1) - 1) os []).
Proof.
  intros Hs Hm Hos. unfold new_BlockingReaderWriterQueue.
  destruct (new_one_block (T:=T) malloc_ size Hs Hm) as (q & -> & Hq). simpl.
  apply run_blocking_ops_spec; [|done]. by split; [|apply sema_alone_intro].
Qed.

Lemma blocking_queue_refines_list_witness :
  (b ← new_BlockingReaderWriterQueue (λ _, true) true 1;
   run_blocking_ops (H:=posix) [Plain (Try_enqueue 5%nat); Plain Size_approx; Wait_dequeue_timed 10 (0, 0); Wait_dequeue_timed 10 (0, 0)] b)
  = Ok [A_bool true; A_size 1; A_elem (Some 5%nat); A_elem None].
Proof.
  refine (blocking_queue_refines_list (H:=posix) (λ _, true) 1
    [Plain (Try_enqueue 5%nat); Plain Size_approx; Wait_dequeue_timed 10 (0, 0); Wait_dequeue_timed 10 (0, 0)] _ _ _);
    [lia|reflexivity|]. repeat constructor; vm_compute; congruence.
Defined.
