(* ===== verification/FileSystem.v ===== *)
(** * Files and C++ file streams

    The part of the standard library the server stores its data with: regular
    files by path, [std::ofstream] opened for truncation, [std::ifstream], and
    [std::filesystem::is_regular_file].  Writes reach the file at the call; a
    stream that is not open, or that has failed, does nothing.  Whether the
    operating system lets a path be created is a property of the file system. *)
From Stdlib Require Import ZArith Lia.
From stdpp Require Import base tactics numbers list gmap.
From S2P Require Import Prelude.
#[local] Open Scope Z_scope.

Record fs := { files : gmap bytes bytes; creatable : bytes → bool }.

Definition set_file (path content : bytes) (s : fs) : fs :=
  {| files := <[path := content]> (files s); creatable := creatable s |}.

Definition is_regular_file (s : fs) (path : bytes) : bool := bool_decide (is_Some (files s !! path)).

(** ** Output streams *)

Record ofstream := { of_path : bytes; of_open : bool; of_pos : Z }.

Definition closed_ofstream : ofstream := {| of_path := []; of_open := false; of_pos := 0 |}.

(** [open(path, ios_base::trunc | ...)]: creates or empties the file. *)
Definition of_open_trunc (path : bytes) (s : fs) : ofstream * fs :=
  if creatable s path then ({| of_path := path; of_open := true; of_pos := 0 |}, set_file path [] s)
  else ({| of_path := path; of_open := false; of_pos := 0 |}, s).

Definition overwrite (content : bytes) (pos : Z) (bs : bytes) : bytes :=
  take (Z.to_nat pos) content ++ bs ++ drop (Z.to_nat (pos + zlen bs)) content.

Definition of_write (bs : bytes) (h : ofstream) (s : fs) : ofstream * fs :=
  if of_open h then
    ({| of_path := of_path h; of_open := true; of_pos := of_pos h + zlen bs |},
     set_file (of_path h) (overwrite (default [] (files s !! of_path h)) (of_pos h) bs) s)
  else (h, s).
Definition of_seekp (pos : Z) (h : ofstream) : ofstream :=
  {| of_path := of_path h; of_open := of_open h; of_pos := pos |}.
Definition of_close (h : ofstream) : ofstream :=
  {| of_path := of_path h; of_open := false; of_pos := of_pos h |}.

(** ** Input streams *)

Record ifstream := { if_path : bytes; if_open : bool; if_pos : Z; if_eof : bool; if_fail : bool }.

Definition closed_ifstream : ifstream :=
  {| if_path := []; if_open := false; if_pos := 0; if_eof := false; if_fail := false |}.

Definition if_open_ (path : bytes) (s : fs) : ifstream :=
  let ok := is_regular_file s path in
  {| if_path := path; if_open := ok; if_pos := 0; if_eof := false; if_fail := negb ok |}.

(** [read(p, n)]: the extracted bytes ([gcount] of them) and the stream; a short
    read sets eofbit and failbit, a read on a stream that is not good extracts
    nothing and sets failbit. *)
Definition if_read (n : Z) (h : ifstream) (s : fs) : bytes * ifstream :=
  if if_open h && negb (if_eof h) && negb (if_fail h) then
    let bs := take (Z.to_nat n) (drop (Z.to_nat (if_pos h)) (default [] (files s !! if_path h))) in
    let short := zlen bs <? n in
    (bs, {| if_path := if_path h; if_open := true; if_pos := if_pos h + zlen bs;
            if_eof := short; if_fail := short |})
  else ([], {| if_path := if_path h; if_open := if_open h; if_pos := if_pos h;
               if_eof := if_eof h; if_fail := true |}).
Definition if_close (h : ifstream) : ifstream :=
  {| if_path := if_path h; if_open := false; if_pos := if_pos h;
     if_eof := if_eof h; if_fail := if_fail h |}.

(** ** Lemmas *)

(** A handle that stands at the end of a file with the given content. *)
Definition at_end (h : ofstream) (s : fs) (content : bytes) : Prop :=
  of_open h = true ∧ files s !! of_path h = Some content ∧ of_pos h = zlen content.

Lemma overwrite_end content bs : overwrite content (zlen content) bs = content ++ bs.
Proof.
  unfold overwrite. rewrite take_ge, drop_ge, app_nil_r; [done|..]; unfold zlen; lia.
Qed.

Lemma of_write_end h s content bs : at_end h s content →
  at_end (of_write bs h s).1 (of_write bs h s).2 (content ++ bs) ∧
  of_path (of_write bs h s).1 = of_path h.
Proof.
  intros (Ho & Hf & Hp). unfold of_write. rewrite Ho. simpl. split; [|done]. split_and!; simpl; [done| |].
  - rewrite lookup_insert_eq, Hf, Hp. simpl. by rewrite overwrite_end.
  - zlia.
Qed.

Lemma of_write_other h s bs p : p ≠ of_path h → files (of_write bs h s).2 !! p = files s !! p.
Proof. intros. unfold of_write. destruct (of_open h); [|done]. simpl. by rewrite lookup_insert_ne. Qed.

Lemma of_write_creatable h s bs : creatable (of_write bs h s).2 = creatable s.
Proof. unfold of_write. by destruct (of_open h). Qed.

Lemma of_open_trunc_end p s : creatable s p = true →
  at_end (of_open_trunc p s).1 (of_open_trunc p s).2 [] ∧ of_path (of_open_trunc p s).1 = p.
Proof.
  intros Hc. unfold of_open_trunc. rewrite Hc. simpl. split; [|done]. split_and!; [done| |done].
  simpl. apply lookup_insert_eq.
Qed.

Lemma of_open_trunc_other p s q : q ≠ p → files (of_open_trunc p s).2 !! q = files s !! q.
Proof. intros. unfold of_open_trunc. destruct (creatable s p); [|done]. simpl. by rewrite lookup_insert_ne. Qed.

Lemma of_open_trunc_path p s : of_path (of_open_trunc p s).1 = p.
Proof. unfold of_open_trunc. by destruct (creatable s p). Qed.

Lemma of_open_trunc_creatable p s : creatable (of_open_trunc p s).2 = creatable s.
Proof. unfold of_open_trunc. by destruct (creatable s p). Qed.

(** The two operations in one statement each. *)
Lemma of_write_spec bs h s c : at_end h s c →
  ∃ h' s', of_write bs h s = (h', s') ∧ at_end h' s' (c ++ bs) ∧ of_path h' = of_path h ∧
    (∀ p, p ≠ of_path h → files s' !! p = files s !! p) ∧ creatable s' = creatable s.
Proof.
  intros He. pose proof (of_write_end h s c bs He) as [He' Hp].
  pose proof (of_write_other h s bs) as Ho. pose proof (of_write_creatable h s bs) as Hc.
  destruct (of_write bs h s) as [h' s']. simpl in *. eexists _, _. split_and!; [done..| |done]. intros; by apply Ho.
Qed.
Lemma of_open_trunc_spec p s : creatable s p = true →
  ∃ h s', of_open_trunc p s = (h, s') ∧ at_end h s' [] ∧ of_path h = p ∧
    (∀ q, q ≠ p → files s' !! q = files s !! q) ∧ creatable s' = creatable s.
Proof.
  intros Hc. pose proof (of_open_trunc_end p s Hc) as [He Hp].
  pose proof (of_open_trunc_other p s) as Ho. pose proof (of_open_trunc_creatable p s) as Hc'.
  destruct (of_open_trunc p s) as [h s']. simpl in *. eexists _, _. split_and!; [done..| |done].
  intros; by apply Ho.
Qed.

(** ** Files that are being written, as updates of the file map *)

Definition append_file (p bs : bytes) (m : gmap bytes bytes) : gmap bytes bytes :=
  <[p := default [] (m !! p) ++ bs]> m.

(** An open stream that stands at the end of the file [p]. *)
Definition writing (h : ofstream) (s : fs) (p : bytes) : Prop :=
  of_path h = p ∧ ∃ content, at_end h s content.

Lemma writing_write bs h s p : writing h s p →
  ∃ h' s', of_write bs h s = (h', s') ∧ writing h' s' p ∧ files s' = append_file p bs (files s) ∧
    creatable s' = creatable s ∧ ∀ h2 p2, p2 ≠ p → writing h2 s p2 → writing h2 s' p2.
Proof.
  intros [Hp (c & Ho & Hf & Hpos)]. unfold of_write. rewrite Ho. eexists _, _. split; [done|].
  rewrite Hp in *. split_and!.
  - split; [done|]. exists (c ++ bs). split_and!; simpl; [done| |].
    + rewrite lookup_insert_eq, Hf, Hpos. simpl. by rewrite overwrite_end.
    + zlia.
  - simpl. unfold append_file. rewrite Hf, Hpos. simpl. by rewrite overwrite_end.
  - done.
  - intros h2 p2 Hne [Hp2 (c2 & Ho2 & Hf2 & Hpos2)]. split; [done|]. exists c2. split_and!; [done| |done].
    simpl. rewrite Hp2 in *. by rewrite lookup_insert_ne.
Qed.

Lemma writing_open p s : creatable s p = true →
  ∃ h s', of_open_trunc p s = (h, s') ∧ writing h s' p ∧ files s' = <[p := []]> (files s) ∧
    creatable s' = creatable s ∧ of_open h = true ∧ ∀ h2 p2, p2 ≠ p → writing h2 s p2 → writing h2 s' p2.
Proof.
  intros Hc. unfold of_open_trunc. rewrite Hc. eexists _, _. split; [done|]. split_and!; [|done..|].
  - split; [done|]. exists []. split_and!; [done| |done]. simpl. apply lookup_insert_eq.
  - intros h2 p2 Hne [Hp2 (c2 & Ho2 & Hf2 & Hpos2)]. split; [done|]. exists c2. split_and!; [done| |done].
    simpl. rewrite Hp2 in *. by rewrite lookup_insert_ne.
Qed.
