(* ===== verification/ClientVar.v ===== *)
(** * Per-connection state (include/clientVar.h, src/Util/clientVar.cc)

    The object a request thread works on.  The constructor does not initialise
    every member: it takes the raw memory of the object and overwrites what the
    code assigns. *)
From Stdlib Require Import ZArith Lia.
From stdpp Require Import base tactics numbers list gmap.
From S2P Require Import Prelude Common FileSystem LruCache ReadCache.
#[local] Open Scope Z_scope.

(** The calls a receiver makes on its container queue: the containers pushed, in
    order, and the [done_] flag. *)
Record MQ := { pushed : list Container_t; done_ : bool }.

(** Upload buffers. *)
Record UploadState := {
  _curContainer : InmemoryContainer_t;
  _inputMQ : MQ;
  _recvChunkBuf : SendMsgBuffer_t }.

Record WriteHandlers := {
  _recipeWriteHandler : ofstream; _secureRecipeWriteHandler : ofstream;
  _keyRecipeWriteHandler : ofstream }.
Record ReadHandlers := {
  _recipeReadHandler : ifstream; _secureRecipeReadHandler : ifstream;
  _keyRecipeReadHandler : ifstream }.

(** [ReqContainer_t]: the names of the required containers in [idBuffer], the
    buffers they are loaded into. *)
Record ReqContainer_t := { idBuffer : buf; containerArray : list buf; idNum : Z }.

Record RestoreState := {
  _reqContainer : ReqContainer_t;
  _containerCache : ReadCache;
  _sendChunkBuf : SendMsgBuffer_t;
  _downloadChunkCap : Z (* entries allocated at [_downloadChunkBase] *) }.

Record ClientVar := {
  _clientID : Z;
  optType_ : OPT_TYPE;
  recipePath_ : bytes; secureRecipePath_ : bytes; keyRecipePath_ : bytes;
  _fileSize : Z; _totalChunkNum : Z; _uploadDataSize : Z;
  write_handlers : WriteHandlers;
  read_handlers : ReadHandlers;
  upload : UploadState;
  _sendRecipeBuf : SendMsgBuffer_t;
  restore : RestoreState }.

Definition with_curContainer (c : InmemoryContainer_t) (u : UploadState) : UploadState :=
  {| _curContainer := c; _inputMQ := _inputMQ u; _recvChunkBuf := _recvChunkBuf u |}.
Definition with_recvChunkBuf (m : SendMsgBuffer_t) (u : UploadState) : UploadState :=
  {| _curContainer := _curContainer u; _inputMQ := _inputMQ u; _recvChunkBuf := m |}.
Definition with_upload (u : UploadState) (c : ClientVar) : ClientVar :=
  {| _clientID := _clientID c; optType_ := optType_ c; recipePath_ := recipePath_ c;
     secureRecipePath_ := secureRecipePath_ c; keyRecipePath_ := keyRecipePath_ c;
     _fileSize := _fileSize c; _totalChunkNum := _totalChunkNum c;
     _uploadDataSize := _uploadDataSize c; write_handlers := write_handlers c;
     read_handlers := read_handlers c; upload := u; _sendRecipeBuf := _sendRecipeBuf c;
     restore := restore c |}.
Definition with_writers (w : WriteHandlers) (c : ClientVar) : ClientVar :=
  {| _clientID := _clientID c; optType_ := optType_ c; recipePath_ := recipePath_ c;
     secureRecipePath_ := secureRecipePath_ c; keyRecipePath_ := keyRecipePath_ c;
     _fileSize := _fileSize c; _totalChunkNum := _totalChunkNum c;
     _uploadDataSize := _uploadDataSize c; write_handlers := w;
     read_handlers := read_handlers c; upload := upload c; _sendRecipeBuf := _sendRecipeBuf c;
     restore := restore c |}.
Definition with_readers (r : ReadHandlers) (c : ClientVar) : ClientVar :=
  {| _clientID := _clientID c; optType_ := optType_ c; recipePath_ := recipePath_ c;
     secureRecipePath_ := secureRecipePath_ c; keyRecipePath_ := keyRecipePath_ c;
     _fileSize := _fileSize c; _totalChunkNum := _totalChunkNum c;
     _uploadDataSize := _uploadDataSize c; write_handlers := write_handlers c;
     read_handlers := r; upload := upload c; _sendRecipeBuf := _sendRecipeBuf c;
     restore := restore c |}.
Definition with_sendRecipeBuf (m : SendMsgBuffer_t) (c : ClientVar) : ClientVar :=
  {| _clientID := _clientID c; optType_ := optType_ c; recipePath_ := recipePath_ c;
     secureRecipePath_ := secureRecipePath_ c; keyRecipePath_ := keyRecipePath_ c;
     _fileSize := _fileSize c; _totalChunkNum := _totalChunkNum c;
     _uploadDataSize := _uploadDataSize c; write_handlers := write_handlers c;
     read_handlers := read_handlers c; upload := upload c; _sendRecipeBuf := m;
     restore := restore c |}.
Definition with_restore (r : RestoreState) (c : ClientVar) : ClientVar :=
  {| _clientID := _clientID c; optType_ := optType_ c; recipePath_ := recipePath_ c;
     secureRecipePath_ := secureRecipePath_ c; keyRecipePath_ := keyRecipePath_ c;
     _fileSize := _fileSize c; _totalChunkNum := _totalChunkNum c;
     _uploadDataSize := _uploadDataSize c; write_handlers := write_handlers c;
     read_handlers := read_handlers c; upload := upload c; _sendRecipeBuf := _sendRecipeBuf c;
     restore := r |}.
Definition with_uploadDataSize (n : Z) (c : ClientVar) : ClientVar :=
  {| _clientID := _clientID c; optType_ := optType_ c; recipePath_ := recipePath_ c;
     secureRecipePath_ := secureRecipePath_ c; keyRecipePath_ := keyRecipePath_ c;
     _fileSize := _fileSize c; _totalChunkNum := _totalChunkNum c;
     _uploadDataSize := n; write_handlers := write_handlers c;
     read_handlers := read_handlers c; upload := upload c; _sendRecipeBuf := _sendRecipeBuf c;
     restore := restore c |}.
(** The name, size and chunk count of the current file. *)
Definition with_file (rp sp kp : bytes) (fsz nch : Z) (c : ClientVar) : ClientVar :=
  {| _clientID := _clientID c; optType_ := optType_ c; recipePath_ := rp;
     secureRecipePath_ := sp; keyRecipePath_ := kp;
     _fileSize := fsz; _totalChunkNum := nch;
     _uploadDataSize := _uploadDataSize c; write_handlers := write_handlers c;
     read_handlers := read_handlers c; upload := upload c; _sendRecipeBuf := _sendRecipeBuf c;
     restore := restore c |}.

(** ** Construction and destruction *)

(** Bytes allocated for a buffer of [sendChunkBatchSize_] chunks. *)
Definition chunk_buf_cap (config : Configure) : Z :=
  sizeof_NetworkHead_t + GetSendChunkBatchSize config * (sizeof_uint32_t + MAX_CHUNK_SIZE).

(** A freshly allocated message buffer, with the header fields the code sets. *)
Definition init_msg (mem : buf) (cap clientID : Z) : SendMsgBuffer_t :=
  set_dataSize 0 (set_currentItemNum 0
    (set_clientID clientID {| sendBuffer := mem; bufCap := cap |})).

(** Open one recipe file for writing and write the head into it. *)
Definition init_recipe_file (path : bytes) (head : FileRecipeHead_t) (s : fs) :
    result (ofstream * fs) :=
  let '(h, s) := of_open_trunc path s in
  check (of_open h) EXIT_FAILURE ;;
  Ok (of_write (enc_RecipeHead head) h s).

(** The three recipe files of the current file name. *)
Definition open_writers (c : ClientVar) (s : fs) : result (WriteHandlers * fs) :=
  let virtualRecipeEnd := {| fileSize := _fileSize c; totalChunkNum := _totalChunkNum c |} in
  '(r, s) ← init_recipe_file (recipePath_ c) virtualRecipeEnd s;
  '(k, s) ← init_recipe_file (keyRecipePath_ c) virtualRecipeEnd s;
  '(sc, s) ← init_recipe_file (secureRecipePath_ c) virtualRecipeEnd s;
  Ok ({| _recipeWriteHandler := r; _secureRecipeWriteHandler := sc;
         _keyRecipeWriteHandler := k |}, s).

Definition open_readers (c : ClientVar) (s : fs) : result ReadHandlers :=
  let r := if_open_ (recipePath_ c) s in check (if_open r) EXIT_FAILURE ;;
  let sc := if_open_ (secureRecipePath_ c) s in check (if_open sc) EXIT_FAILURE ;;
  let k := if_open_ (keyRecipePath_ c) s in check (if_open k) EXIT_FAILURE ;;
  Ok {| _recipeReadHandler := r; _secureRecipeReadHandler := sc; _keyRecipeReadHandler := k |}.

(** The members of the current container that the code resets; [chunkNum] and the
    two arrays keep what the memory held. *)
Definition InitUploadBuffer (config : Configure) (mem : buf) (c : ClientVar) (s : fs) (g : rng) :
    result (ClientVar * fs * rng) :=
  let '(id, g) := CreateUUID CONTAINER_ID_LENGTH g in
  let cc := _curContainer (upload c) in
  let u := {| _curContainer := {| containerID := id; chunkNum := chunkNum cc; body := body cc;
                                  currentBodySize := 0; header := header cc;
                                  currentHeaderSize := 0 |};
              _inputMQ := {| pushed := []; done_ := false |};
              _recvChunkBuf := init_msg mem (chunk_buf_cap config) (_clientID c) |} in
  '(w, s) ← open_writers c s;
  Ok (with_writers w (with_upload u c), s, g).

(** The third test closes the key recipe again; the secure recipe stays open. *)
Definition DestoryUploadBuffer (c : ClientVar) : ClientVar :=
  let w := write_handlers c in
  let r := if of_open (_recipeWriteHandler w) then of_close (_recipeWriteHandler w)
           else _recipeWriteHandler w in
  let k := if of_open (_keyRecipeWriteHandler w) then of_close (_keyRecipeWriteHandler w)
           else _keyRecipeWriteHandler w in
  let k := if of_open (_secureRecipeWriteHandler w) then of_close k else k in
  with_writers {| _recipeWriteHandler := r;
                  _secureRecipeWriteHandler := _secureRecipeWriteHandler w;
                  _keyRecipeWriteHandler := k |} c.

Definition InitDownloadRecipeBuffer (config : Configure) (mem : buf) (c : ClientVar) (s : fs) :
    result ClientVar :=
  r ← open_readers c s;
  let cap := if sizeof_RecipeEntry_t >? sizeof_KeyRecipeEntry_t
             then sizeof_NetworkHead_t + GetSendRecipeBatchSize config * sizeof_RecipeEntry_t
             else sizeof_NetworkHead_t + GetSendRecipeBatchSize config * sizeof_KeyRecipeEntry_t in
  Ok (with_sendRecipeBuf (init_msg mem cap (_clientID c)) (with_readers r c)).

Definition DestoryDownloadRecipeBuffer (c : ClientVar) : ClientVar :=
  let r := read_handlers c in
  let close_if h := if if_open h then if_close h else h in
  with_readers {| _recipeReadHandler := close_if (_recipeReadHandler r);
                  _secureRecipeReadHandler := close_if (_secureRecipeReadHandler r);
                  _keyRecipeReadHandler := close_if (_keyRecipeReadHandler r) |} c.

(** [malloc_ i] is the content of the [i]-th allocation. *)
Definition InitDownloadChunkBuffer (config : Configure) (malloc_ : nat → buf) (c : ClientVar) : ClientVar :=
  with_restore
    {| _reqContainer := {| idBuffer := malloc_ 0%nat;
                           containerArray := (λ i, malloc_ (1 + i)%nat) <$> seq 0 (Z.to_nat CONTAINER_CAPPING_VALUE);
                           idNum := 0 |};
       _containerCache := new_ReadCache config (λ i, malloc_ (18 + i)%nat);
       _sendChunkBuf := init_msg (malloc_ 17%nat) (chunk_buf_cap config) (_clientID c);
       _downloadChunkCap := GetSendChunkBatchSize config |} c.

(** The constructor, on the raw memory of the object. *)
Definition new_ClientVar (config : Configure) (malloc_ : nat → buf) (raw : ClientVar)
    (clientID : Z) (optType : OPT_TYPE) (recipePath secureRecipePath keyRecipePath : bytes)
    (fileSize totalChunkNum : Z) (s : fs) (g : rng) : result (ClientVar * fs * rng) :=
  let c := with_uploadDataSize 0 (with_file recipePath secureRecipePath keyRecipePath fileSize totalChunkNum
    {| _clientID := clientID; optType_ := optType; recipePath_ := recipePath_ raw;
       secureRecipePath_ := secureRecipePath_ raw; keyRecipePath_ := keyRecipePath_ raw;
       _fileSize := _fileSize raw; _totalChunkNum := _totalChunkNum raw;
       _uploadDataSize := _uploadDataSize raw;
       write_handlers := {| _recipeWriteHandler := closed_ofstream;
         _secureRecipeWriteHandler := closed_ofstream; _keyRecipeWriteHandler := closed_ofstream |};
       read_handlers := {| _recipeReadHandler := closed_ifstream;
         _secureRecipeReadHandler := closed_ifstream; _keyRecipeReadHandler := closed_ifstream |};
       upload := upload raw; _sendRecipeBuf := _sendRecipeBuf raw; restore := restore raw |}) in
  match optType with
  | UPLOAD_OPT => InitUploadBuffer config (malloc_ 0%nat) c s g
  | DOWNLOAD_RECIPE_OPT => c ← InitDownloadRecipeBuffer config (malloc_ 0%nat) c s; Ok (c, s, g)
  | DOWNLOAD_CHUNK_OPT => Ok (InitDownloadChunkBuffer config malloc_ c, s, g)
  end.

(** The destructor's effect on the open files. *)
Definition delete_ClientVar (c : ClientVar) : ClientVar :=
  match optType_ c with
  | UPLOAD_OPT => DestoryUploadBuffer c
  | DOWNLOAD_RECIPE_OPT => DestoryDownloadRecipeBuffer c
  | DOWNLOAD_CHUNK_OPT => c
  end.

Definition recipe_paths (config : Configure) (fileName : bytes) : bytes * bytes * bytes :=
  (GetRecipeRootPath config ++ fileName ++ GetRecipeSuffix config,
   GetRecipeRootPath config ++ fileName ++ GetSecureRecipeSuffix config,
   GetRecipeRootPath config ++ fileName ++ GetKeyRecipeSuffix config).

(** [ChangeFile]: the previous streams are closed and those of the new name opened. *)
Definition ChangeFile (config : Configure) (newFileName : bytes) (fileSize totalChunkNum : Z)
    (c : ClientVar) (s : fs) : result (ClientVar * fs) :=
  let '(rp, sp, kp) := recipe_paths config newFileName in
  let c := with_file rp sp kp fileSize totalChunkNum c in
  match optType_ c with
  | UPLOAD_OPT => '(w, s) ← open_writers c s; Ok (with_writers w c, s)
  | DOWNLOAD_RECIPE_OPT => r ← open_readers c s; Ok (with_readers r c, s)
  | DOWNLOAD_CHUNK_OPT => Ok (c, s)
  end.

(** ** Lemmas *)

(** The names differ, so the three recipe files of a name are three files. *)
Lemma recipe_paths_distinct config n n' :
  let '(rp, sp, kp) := recipe_paths config n in
  let '(rp', sp', kp') := recipe_paths config n' in
  zlen n = zlen n' → rp ≠ sp' ∧ rp ≠ kp' ∧ sp ≠ kp'.
Proof.
  unfold recipe_paths. intros Hl.
  assert (Hn : length n = length n') by (unfold zlen in Hl; lia).
  split_and!; intros [_ [_ E]%app_inj_1]%app_inj_1; done.
Qed.

Lemma init_recipe_file_spec path head s : creatable s path = true →
  ∃ h s', init_recipe_file path head s = Ok (h, s') ∧ at_end h s' (enc_RecipeHead head) ∧
    of_path h = path ∧ (∀ p, p ≠ path → files s' !! p = files s !! p) ∧ creatable s' = creatable s.
Proof.
  intros Hc. unfold init_recipe_file. destruct (of_open_trunc_end path s Hc) as [He Hp].
  destruct (of_open_trunc path s) as [h s1] eqn:E. simpl in *.
  pose proof (of_write_end h s1 [] (enc_RecipeHead head) He) as [He' Hp'].
  destruct He as (Ho & _). rewrite Ho. simpl.
  destruct (of_write (enc_RecipeHead head) h s1) as [h' s2] eqn:E'. simpl in *.
  eexists _, _. split_and!; [done|done|congruence| |].
  - intros p Hne. replace s2 with (of_write (enc_RecipeHead head) h s1).2 by (by rewrite E').
    rewrite of_write_other by congruence.
    replace s1 with (of_open_trunc path s).2 by (by rewrite E). by apply of_open_trunc_other.
  - replace s2 with (of_write (enc_RecipeHead head) h s1).2 by (by rewrite E').
    rewrite of_write_creatable. replace s1 with (of_open_trunc path s).2 by (by rewrite E).
    apply of_open_trunc_creatable.
Qed.

(** Opening the three recipe files of the current name, all paths being creatable. *)
Lemma init_recipe_file_writing path head s : (∀ p, creatable s p = true) →
  ∃ h s', init_recipe_file path head s = Ok (h, s') ∧ writing h s' path ∧
    files s' = <[path := enc_RecipeHead head]> (files s) ∧ creatable s' = creatable s ∧
    ∀ h2 p2, p2 ≠ path → writing h2 s p2 → writing h2 s' p2.
Proof.
  intros Hc. unfold init_recipe_file.
  destruct (writing_open path s (Hc path)) as (h & s1 & -> & Hw & Hf & Hcr & -> & Ho). simpl.
  destruct (writing_write (enc_RecipeHead head) h s1 path Hw) as (h2 & s2 & -> & Hw2 & Hf2 & Hcr2 & Ho2).
  eexists _, _. split; [done|]. split_and!; [done| |congruence|auto].
  rewrite Hf2, Hf. unfold append_file. rewrite lookup_insert_eq, insert_insert_eq. done.
Qed.

Lemma open_writers_spec c s : (∀ p, creatable s p = true) →
  recipePath_ c ≠ secureRecipePath_ c → recipePath_ c ≠ keyRecipePath_ c → secureRecipePath_ c ≠ keyRecipePath_ c →
  let head := enc_RecipeHead {| fileSize := _fileSize c; totalChunkNum := _totalChunkNum c |} in
  ∃ w s', open_writers c s = Ok (w, s') ∧ creatable s' = creatable s ∧
    files s' = <[secureRecipePath_ c := head]> (<[keyRecipePath_ c := head]> (<[recipePath_ c := head]> (files s))) ∧
    writing (_recipeWriteHandler w) s' (recipePath_ c) ∧
    writing (_secureRecipeWriteHandler w) s' (secureRecipePath_ c) ∧
    writing (_keyRecipeWriteHandler w) s' (keyRecipePath_ c).
Proof.
  intros Hc H1 H2 H3. unfold open_writers. set (head := {| fileSize := _ |}).
  destruct (init_recipe_file_writing (recipePath_ c) head s Hc) as (r & s1 & -> & W1 & F1 & C1 & O1). simpl.
  destruct (init_recipe_file_writing (keyRecipePath_ c) head s1) as (k & s2 & -> & W2 & F2 & C2 & O2); [by rewrite C1|].
  simpl.
  destruct (init_recipe_file_writing (secureRecipePath_ c) head s2) as (sc & s3 & -> & W3 & F3 & C3 & O3);
    [by rewrite C2, C1|]. simpl.
  eexists _, _. split; [done|]. split_and!; simpl; auto; [congruence|]. by rewrite F3, F2, F1.
Qed.

(** The raw memory of an object, for concrete inputs: every member has some value, the
    chunk count of the current container the given one. *)
Definition raw_client (chunkNum0 : Z) : ClientVar :=
  let z : buf := λ _, 0 in
  let msg := {| sendBuffer := z; bufCap := 0 |} in
  {| _clientID := 0; optType_ := UPLOAD_OPT; recipePath_ := []; secureRecipePath_ := []; keyRecipePath_ := [];
     _fileSize := 0; _totalChunkNum := 0; _uploadDataSize := 0;
     write_handlers := {| _recipeWriteHandler := closed_ofstream;
       _secureRecipeWriteHandler := closed_ofstream; _keyRecipeWriteHandler := closed_ofstream |};
     read_handlers := {| _recipeReadHandler := closed_ifstream;
       _secureRecipeReadHandler := closed_ifstream; _keyRecipeReadHandler := closed_ifstream |};
     upload := {| _curContainer := {| containerID := []; chunkNum := chunkNum0; body := z;
                                      currentBodySize := 0; header := z; currentHeaderSize := 0 |};
                  _inputMQ := {| pushed := []; done_ := false |}; _recvChunkBuf := msg |};
     _sendRecipeBuf := msg;
     restore := {| _reqContainer := {| idBuffer := z; containerArray := []; idNum := 0 |};
       _containerCache := {| readCache_ := new_Cache 0 0; containerPool_ := []; cacheSize_ := 0; currentIndex_ := 0 |};
       _sendChunkBuf := msg; _downloadChunkCap := 0 |} |}.
