(* ===== verification/Storage.v ===== *)
(** * Containers (src/Server/storeOCall.cc, src/Server/storageCore.cc)

    Chunks are packed into in-memory containers: a header of (hash, offset,
    length) records and a body of chunk bytes; a full container is serialised and
    pushed to the writer.  The specification is a list of (hash, data) entries and
    its file image; the operations are shown to build that image within the bounds
    of the arrays. *)
From Stdlib Require Import ZArith Lia.
From stdpp Require Import base tactics numbers list gmap.
From S2P Require Import Prelude Common FileSystem ClientVar.
#[local] Open Scope Z_scope.

(** The four bytes the code writes for a [uint32_t], most significant first. *)
Definition be32 (x : Z) : bytes :=
  [u8 (Z.shiftr x 24); u8 (Z.shiftr x 16); u8 (Z.shiftr x 8); u8 x].

(** Size of one header record. *)
Definition entry_size : Z := CHUNK_HASH_SIZE + sizeof_uint32_t * 2.

Section Storage.
(** Content of the local [Container_t] before it is filled. *)
Context (stk : buf).

(** [MessageQueue::Push] as its caller sees it: [pushed] is the history of the containers
    handed over, whether the writer has taken them yet or not.  The call spins until the
    lock-free queue has room (messageQueue.h:71-78) and returns only then; the spinning on
    the bounded queue, against the writer's [Pop], is modelled in [MessageQueue.Push] and
    [WriterLoop.push_step]. *)
Definition Push (x : Container_t) (q : MQ) : MQ := {| pushed := pushed q ++ [x]; done_ := done_ q |}.

Definition Ocall_WriteContainer (u : UploadState) : result UploadState :=
  let cc := _curContainer u in
  let curNumChar := be32 (chunkNum cc) in
  let writeOffset := 0 in
  let b := bwrite stk writeOffset curNumChar in
  let writeOffset := u32 (writeOffset + 4) in
  check (writeOffset + currentHeaderSize cc <=? MAX_CONTAINER_SIZE) UB ;;
  let b := bwrite b writeOffset (bread (header cc) 0 (currentHeaderSize cc)) in
  let writeOffset := u32 (writeOffset + currentHeaderSize cc) in
  check (writeOffset + currentBodySize cc <=? MAX_CONTAINER_SIZE) UB ;;
  let b := bwrite b writeOffset (bread (body cc) 0 (currentBodySize cc)) in
  let writeOffset := u32 (writeOffset + currentBodySize cc) in
  Ok {| _curContainer := cc;
        _inputMQ := Push {| c_containerID := containerID cc; c_body := b;
                            c_currentSize := writeOffset |} (_inputMQ u);
        _recvChunkBuf := _recvChunkBuf u |}.

(** The part of [WriteContainer] that stores the chunk (from "save chunk" on).
    [data] points into the receive buffer: its content and the offset there. *)
Definition append_chunk (data : buf) (dataPos dataSize : Z) (chunkHash : bytes)
    (u : UploadState) : result (bytes * UploadState) :=
  let cc := _curContainer u in
  let writeBodyOffset := currentBodySize cc in
  let writeHeaderOffset := currentHeaderSize cc in
  let offsetChar := be32 writeBodyOffset in
  let lengthChar := be32 dataSize in
  check (writeBodyOffset + dataSize <=? MAX_CONTAINER_SIZE) UB ;;
  let b := bwrite (body cc) writeBodyOffset (bread data dataPos dataSize) in
  check (CHUNK_HASH_SIZE <=? zlen chunkHash + 1) UB ;;
  check (writeHeaderOffset + entry_size <=? MAX_CONTAINER_SIZE) UB ;;
  let h := bwrite (header cc) writeHeaderOffset (take (Z.to_nat CHUNK_HASH_SIZE) (chunkHash ++ [0])) in
  let writeHeaderOffset := u32 (writeHeaderOffset + CHUNK_HASH_SIZE) in
  let h := bwrite h writeHeaderOffset offsetChar in
  let writeHeaderOffset := u32 (writeHeaderOffset + sizeof_uint32_t) in
  let h := bwrite h writeHeaderOffset lengthChar in
  let cc := {| containerID := containerID cc; chunkNum := u32 (chunkNum cc + 1);
               body := b; currentBodySize := u32 (currentBodySize cc + dataSize);
               header := h;
               currentHeaderSize := u32 (currentHeaderSize cc + (CHUNK_HASH_SIZE + sizeof_uint32_t * 2)) |} in
  Ok (containerID cc, with_curContainer cc u).

Definition WriteContainer (data : buf) (dataPos dataSize : Z) (chunkHash : bytes)
    (u : UploadState) (g : rng) : result (bytes * UploadState * rng) :=
  let cc := _curContainer u in
  let writeSize := u32 (dataSize + CHUNK_HASH_SIZE + sizeof_uint32_t * 2) in
  '(u, g) ←
    (if u32 (writeSize + currentBodySize cc + currentHeaderSize cc + 4) >=? MAX_CONTAINER_SIZE then
       u ← Ocall_WriteContainer u;
       let '(id, g) := CreateUUID CONTAINER_ID_LENGTH g in
       let cc := _curContainer u in
       Ok (with_curContainer
             {| containerID := id; chunkNum := 0; body := body cc; currentBodySize := 0;
                header := header cc; currentHeaderSize := 0 |} u, g)
     else Ok (u, g));
  '(name, u) ← append_chunk data dataPos dataSize chunkHash u;
  Ok (name, u, g).

(** [StorageCore]: its statistics, and [SaveChunk]. *)
Record StorageCore := { writtenDataSize_ : Z; writtenChunkNum_ : Z }.

Definition SaveChunk (chunkData : buf) (dataPos chunkSize : Z) (chunkHash : bytes)
    (sc : StorageCore) (u : UploadState) (g : rng) : result (bytes * StorageCore * UploadState * rng) :=
  '(name, u, g) ← WriteContainer chunkData dataPos chunkSize chunkHash u g;
  Ok (name, {| writtenDataSize_ := u64 (writtenDataSize_ sc + chunkSize);
               writtenChunkNum_ := u64 (writtenChunkNum_ sc + 1) |}, u, g).
End Storage.

Definition UpdateRecipeToFile (recipeBuffer : buf) (recipeEntryNum : Z) (h : ofstream) (s : fs) :
    result (ofstream * fs) :=
  check (of_open h) EXIT_FAILURE ;;
  let recipeBufferSize := recipeEntryNum * sizeof_RecipeEntry_t in
  Ok (of_write (bread recipeBuffer 0 recipeBufferSize) h s).

Definition FinalizeRecipe (recipeHead : FileRecipeHead_t) (h : ofstream) (s : fs) :
    result (ofstream * fs) :=
  check (of_open h) EXIT_FAILURE ;;
  let h := of_seekp 0 h in
  let '(h, s) := of_write (enc_RecipeHead recipeHead) h s in
  Ok (of_close h, s).

(** ** Specification: entries and the file image of a container *)

Abbreviation entry := (bytes * bytes)%type. (* hash, data *)

Definition data_bytes (es : list entry) : bytes := concat (snd <$> es).
Fixpoint hdr_bytes (off : Z) (es : list entry) : bytes :=
  match es with
  | [] => []
  | (h, d) :: es => h ++ be32 off ++ be32 (zlen d) ++ hdr_bytes (off + zlen d) es
  end.
Definition file_image (n : Z) (es : list entry) : bytes :=
  be32 n ++ hdr_bytes 0 es ++ data_bytes es.

(** The bytes [SaveToFile] writes for a pushed container. *)
Definition image (c : Container_t) : bytes := bread (c_body c) 0 (c_currentSize c).

Definition total_size (es : list entry) : Z := 4 + zlen (hdr_bytes 0 es) + zlen (data_bytes es).

Definition hashes_ok (es : list entry) : Prop := Forall (λ e, zlen e.1 = CHUNK_HASH_SIZE) es.

(** The in-memory container holds exactly the entries [es], [n0] being the value of
    [chunkNum] when it was empty; what it would serialise to fits a file. *)
Record cont_repr (n0 : Z) (cc : InmemoryContainer_t) (es : list entry) : Prop := {
  cr_num : chunkNum cc = u32 (n0 + zlen es);
  cr_hsize : currentHeaderSize cc = zlen (hdr_bytes 0 es);
  cr_bsize : currentBodySize cc = zlen (data_bytes es);
  cr_header : bread (header cc) 0 (zlen (hdr_bytes 0 es)) = hdr_bytes 0 es;
  cr_body : bread (body cc) 0 (zlen (data_bytes es)) = data_bytes es;
  cr_fits : total_size es < MAX_CONTAINER_SIZE;
  cr_hashes : hashes_ok es;
  cr_id : zlen (containerID cc) = CONTAINER_ID_LENGTH }.

(** ** Lemmas on images *)

Lemma zlen_be32 x : zlen (be32 x) = 4.
Proof. done. Qed.
#[export] Hint Rewrite zlen_be32 : zlen.
#[global] Opaque be32.

Lemma hdr_bytes_snoc off es h d :
  hdr_bytes off (es ++ [(h, d)]) =
  hdr_bytes off es ++ h ++ be32 (off + zlen (data_bytes es)) ++ be32 (zlen d).
Proof.
  revert off. induction es as [|[h' d'] es IH]; intros off; simpl.
  - rewrite app_nil_r. unfold data_bytes. simpl. by rewrite zlen_nil, Z.add_0_r.
  - rewrite IH. unfold data_bytes. simpl. rewrite zlen_app, Z.add_assoc, <- !app_assoc. done.
Qed.

Lemma data_bytes_cons h d es : data_bytes ((h, d) :: es) = d ++ data_bytes es.
Proof. done. Qed.

Lemma data_bytes_snoc es h d : data_bytes (es ++ [(h, d)]) = data_bytes es ++ d.
Proof. unfold data_bytes. rewrite fmap_app, concat_app. simpl. by rewrite app_nil_r. Qed.

Lemma zlen_hdr_bytes off es : hashes_ok es → zlen (hdr_bytes off es) = entry_size * zlen es.
Proof.
  intros Hes. revert off. unfold entry_size. sizes.
  induction Hes as [|[h d] es Hh _ IH]; intros off; simpl in *; [done|].
  specialize (IH (off + zlen d)). sizes. zlia.
Qed.

Lemma total_size_snoc es h d : total_size (es ++ [(h, d)]) = total_size es + zlen h + 8 + zlen d.
Proof. unfold total_size. rewrite hdr_bytes_snoc, data_bytes_snoc. zlia. Qed.

Lemma total_size_ge es : 4 ≤ total_size es.
Proof. unfold total_size. zlia. Qed.

(** ** Serialisation *)

Lemma Ocall_WriteContainer_spec stk n0 u es : cont_repr n0 (_curContainer u) es →
  ∃ c, Ocall_WriteContainer stk u =
         Ok {| _curContainer := _curContainer u; _inputMQ := Push c (_inputMQ u);
               _recvChunkBuf := _recvChunkBuf u |} ∧
       c_containerID c = containerID (_curContainer u) ∧
       c_currentSize c = total_size es ∧
       image c = file_image (u32 (n0 + zlen es)) es.
Proof.
  intros [Hn Hh Hb Hhd Hbd Hfit Hes _]. unfold Ocall_WriteContainer, total_size in *.
  rewrite Hh, Hb, Hhd, Hbd, Hn. sizes. change (u32 (0 + 4)) with 4.
  generalize (u32 (n0 + zlen es)) as nn. intros nn.
  rewrite !u32_small by (rewrite ?u32_small; zlia).
  rewrite !(proj2 (Z.leb_le _ _)) by zlia. simpl. eexists. split_and!; [done..|].
  unfold image, file_image. simpl.
  rewrite bread_bwrite_app by zlia. rewrite bread_bwrite_app by zlia.
  by rewrite bread_bwrite_len, <- app_assoc by zlia.
Qed.

(** ** Storing a chunk *)

Lemma append_chunk_spec data pos n h n0 u es :
  cont_repr n0 (_curContainer u) es → 0 ≤ n → zlen h = CHUNK_HASH_SIZE →
  total_size es + entry_size + n < MAX_CONTAINER_SIZE →
  ∃ cc', append_chunk data pos n h u = Ok (containerID (_curContainer u), with_curContainer cc' u) ∧
    containerID cc' = containerID (_curContainer u) ∧
    cont_repr n0 cc' (es ++ [(h, bread data pos n)]).
Proof.
  intros [Hnum Hh Hb Hhd Hbd Hfit Hes Hid] Hn Hhash Hsize.
  assert (Ed : zlen (bread data pos n) = n) by (by apply zlen_bread).
  assert (Eh : take (Z.to_nat CHUNK_HASH_SIZE) (h ++ [0]) = h).
  { sizes. apply take_app_length'. unfold zlen in Hhash. lia. }
  unfold append_chunk. rewrite Hh, Hb, Eh. unfold entry_size in *. unfold total_size in Hsize. sizes.
  rewrite !(proj2 (Z.leb_le _ _)) by zlia. simpl.
  rewrite !(u32_small (zlen (hdr_bytes 0 es) + _)) by zlia.
  rewrite (u32_small (_ + 4)) by zlia. rewrite (u32_small (zlen (data_bytes es) + n)) by zlia.
  eexists. split; [done|]. split; [done|].
  split; simpl; rewrite ?hdr_bytes_snoc, ?data_bytes_snoc; try done.
  - rewrite Hnum, zlen_app. unfold u32. rewrite Zplus_mod_idemp_l. f_equal. zlia.
  - zlia.
  - zlia.
  - rewrite Ed, Z.add_0_l.
    rewrite !app_assoc. rewrite zlen_app, bread_bwrite_app by zlia.
    rewrite zlen_app, bread_bwrite_app by zlia.
    rewrite zlen_app, bread_bwrite_app by zlia. by rewrite Hhd.
  - rewrite zlen_app, bread_bwrite_app by zlia. by rewrite Hbd.
  - rewrite total_size_snoc. unfold total_size. sizes. zlia.
  - apply Forall_app. by split; [|constructor].
Qed.

(** The empty container of a fresh name, whatever its arrays hold. *)
Lemma cont_repr_empty n0 id b h : 0 ≤ n0 < 2 ^ 32 → zlen id = CONTAINER_ID_LENGTH →
  cont_repr n0 {| containerID := id; chunkNum := n0; body := b; currentBodySize := 0;
                  header := h; currentHeaderSize := 0 |} [].
Proof.
  intros Hn Hid. split; simpl; try done.
  - rewrite zlen_nil, Z.add_0_r. by rewrite u32_small.
  - constructor.
Qed.

(** The two outcomes of [WriteContainer] on a chunk of legal size: the chunk joins
    the current container, or that container is serialised and pushed and the chunk
    starts a container with a fresh name. *)
Lemma WriteContainer_spec stk data pos n h n0 u g es :
  cont_repr n0 (_curContainer u) es → 0 ≤ n ≤ MAX_CHUNK_SIZE → zlen h = CHUNK_HASH_SIZE →
  if total_size es + entry_size + n <? MAX_CONTAINER_SIZE then
    ∃ cc', WriteContainer stk data pos n h u g =
             Ok (containerID (_curContainer u), with_curContainer cc' u, g) ∧
      containerID cc' = containerID (_curContainer u) ∧
      cont_repr n0 cc' (es ++ [(h, bread data pos n)])
  else
    ∃ cc' c, let id := (CreateUUID CONTAINER_ID_LENGTH g).1 in
      WriteContainer stk data pos n h u g =
        Ok (id, {| _curContainer := cc'; _inputMQ := Push c (_inputMQ u);
                   _recvChunkBuf := _recvChunkBuf u |}, (CreateUUID CONTAINER_ID_LENGTH g).2) ∧
      containerID cc' = id ∧ cont_repr 0 cc' [(h, bread data pos n)] ∧
      c_containerID c = containerID (_curContainer u) ∧ c_currentSize c = total_size es ∧
      image c = file_image (u32 (n0 + zlen es)) es.
Proof.
  intros Hrep Hn Hhash. pose proof Hrep as [_ Hh Hb _ _ Hfit _ _].
  unfold WriteContainer. rewrite Hh, Hb.
  replace (u32 (u32 (n + CHUNK_HASH_SIZE + sizeof_uint32_t * 2) + zlen (data_bytes es) +
                zlen (hdr_bytes 0 es) + 4)) with (total_size es + entry_size + n).
  2:{ unfold total_size, entry_size in *. sizes. rewrite (u32_small (n + _ + _)) by lia.
      rewrite u32_small; zlia. }
  rewrite Z.geb_leb. destruct (Z.ltb_spec (total_size es + entry_size + n) MAX_CONTAINER_SIZE) as [Hlt|Hge].
  - rewrite (proj2 (Z.leb_gt _ _)) by done. simpl.
    destruct (append_chunk_spec data pos n h n0 u es) as (cc' & -> & Hid & Hrep'); [done..|lia|done|done|].
    simpl. eauto.
  - rewrite (proj2 (Z.leb_le _ _)) by done.
    destruct (Ocall_WriteContainer_spec stk n0 u es Hrep) as (c & -> & Hc & Hcs & Hci). simpl.
    pose proof (zlen_CreateUUID g) as Hid.
    destruct (CreateUUID CONTAINER_ID_LENGTH g) as [id g'] eqn:Eg. simpl in *.
    set (u1 := with_curContainer _ _).
    destruct (append_chunk_spec data pos n h 0 u1 []) as (cc' & -> & Hid' & Hrep').
    + by apply cont_repr_empty.
    + lia.
    + done.
    + change (total_size []) with 4. unfold entry_size. sizes. lia.
    + simpl. exists cc', c. by split_and!.
Qed.

(** C32: a chunk larger than a container is not rejected: whatever the current
    container holds, storing it copies past the end of the body array.  (The
    receive buffer does accept such a chunk.) *)
Theorem WriteContainer_oversized stk data pos n h n0 u g es :
  cont_repr n0 (_curContainer u) es →
  MAX_CONTAINER_SIZE < n ≤ 256 * (sizeof_uint32_t + MAX_CHUNK_SIZE) - sizeof_uint32_t →
  WriteContainer stk data pos n h u g = Err UB.
Proof.
  intros Hrep Hn. pose proof Hrep as [_ Hh Hb _ _ Hfit _ _]. pose proof (total_size_ge es).
  unfold WriteContainer. rewrite Hh, Hb. unfold total_size, entry_size in *. sizes.
  rewrite (u32_small (n + _ + _)) by lia. rewrite u32_small by zlia.
  rewrite Z.geb_leb, (proj2 (Z.leb_le _ _)) by zlia.
  destruct (Ocall_WriteContainer_spec stk n0 u es Hrep) as (c & -> & _). simpl.
  destruct (CreateUUID _ g) as [id g']. simpl.
  unfold append_chunk. simpl.
  rewrite MAX_CONTAINER_SIZE_val, (proj2 (Z.leb_gt (0 + n) 4194304)); [done|lia].
Qed.

Definition zero_buf : buf := λ _, 0.
Definition sample_container (id : Z) : InmemoryContainer_t :=
  {| containerID := replicate 8 id; chunkNum := 0; body := zero_buf; currentBodySize := 0;
     header := zero_buf; currentHeaderSize := 0 |}.
Definition sample_upload : UploadState :=
  {| _curContainer := sample_container 97; _inputMQ := {| pushed := []; done_ := false |};
     _recvChunkBuf := {| sendBuffer := zero_buf; bufCap := 16 + 256 * 16388 |} |}.
Definition sample_rng : rng :=
  {| rand_stream := λ i, 1 + Z.of_nat (i / 8); rand_pos := 0 |}.

(** The hypotheses hold for an empty container and a chunk of 4194305 bytes. *)
Lemma WriteContainer_oversized_witness :
  WriteContainer zero_buf zero_buf 0 4194305 (replicate 32 0) sample_upload sample_rng = Err UB.
Proof.
  apply (WriteContainer_oversized _ _ _ _ _ 0 _ _ []).
  - by apply cont_repr_empty.
  - sizes. lia.
Defined.
