(* ===== verification/Database.v ===== *)
(** * Index databases (src/Database, include/absDatabase.h)

    [AbsDatabase] is an interface: a class of operations with the laws its clients
    use.  [InMemoryDatabase] is a hash map that is written to a file when the
    object is destroyed and read back when it is opened; [LeveldbDatabase] wraps
    the LevelDB library, whose [Get] and [Put] are parameters.  Both are instances
    of the interface. *)
From Stdlib Require Import ZArith Lia.
From stdpp Require Import base tactics numbers list gmap fin_maps strings.
From S2P Require Import Prelude Common FileSystem.
#[local] Open Scope Z_scope.

(** ** The interface *)

(** [Query] assigns [value] only when it returns true: the second component of its
    result is the value of the reference argument afterwards. *)
Class AbsDatabase (DB : Type) := {
  Query : DB → bytes → bytes → bool * bytes;
  Insert : DB → bytes → bytes → bool * DB;
  InsertBuffer : DB → bytes → buf → Z → bool * DB;
  InsertBothBuffer : DB → buf → Z → buf → Z → bool * DB;
  QueryBuffer : DB → buf → Z → bytes → bool * bytes }.

(** What is stored under a key. *)
Definition stored `{AbsDatabase DB} (db : DB) (k : bytes) : option bytes :=
  let '(b, v) := Query db k [] in if b then Some v else None.

Class AbsDatabaseLaws (DB : Type) `{AbsDatabase DB} := {
  query_stored : ∀ (db : DB) k v,
    Query db k v = match stored db k with Some x => (true, x) | None => (false, v) end;
  insert_true : ∀ (db : DB) k v, (Insert db k v).1 = true;
  stored_insert : ∀ (db : DB) k v k',
    stored (Insert db k v).2 k' = if decide (k = k') then Some v else stored db k';
  insertBuffer_insert : ∀ (db : DB) k b n, InsertBuffer db k b n = Insert db k (bread b 0 n);
  insertBothBuffer_insert : ∀ (db : DB) kb kn b n,
    InsertBothBuffer db kb kn b n = Insert db (bread kb 0 kn) (bread b 0 n);
  queryBuffer_query : ∀ (db : DB) kb kn v, QueryBuffer db kb kn v = Query db (bread kb 0 kn) v }.

(** ** InMemoryDatabase *)

Module InMemory.

Record InMemoryDatabase := { dbName_ : bytes; indexObj_ : gmap bytes bytes }.

Definition with_index (m : gmap bytes bytes) (db : InMemoryDatabase) : InMemoryDatabase :=
  {| dbName_ := dbName_ db; indexObj_ := m |}.

Definition Query_ (db : InMemoryDatabase) (key value : bytes) : bool * bytes :=
  match indexObj_ db !! key with Some v => (true, v) | None => (false, value) end.
Definition Insert_ (db : InMemoryDatabase) (key value : bytes) : bool * InMemoryDatabase :=
  (true, with_index (<[key := value]> (indexObj_ db)) db).
Definition InsertBuffer_ (db : InMemoryDatabase) (key : bytes) (buffer : buf) (bufferSize : Z) :
    bool * InMemoryDatabase :=
  let valueStr := bread buffer 0 bufferSize in
  (true, with_index (<[key := valueStr]> (indexObj_ db)) db).
Definition InsertBothBuffer_ (db : InMemoryDatabase) (key : buf) (keySize : Z) (buffer : buf)
    (bufferSize : Z) : bool * InMemoryDatabase :=
  let keyStr := bread key 0 keySize in
  let valueStr := bread buffer 0 bufferSize in
  (true, with_index (<[keyStr := valueStr]> (indexObj_ db)) db).
Definition QueryBuffer_ (db : InMemoryDatabase) (key : buf) (keySize : Z) (value : bytes) :
    bool * bytes :=
  let keyStr := bread key 0 keySize in
  match indexObj_ db !! keyStr with Some v => (true, v) | None => (false, value) end.

#[global] Instance db : AbsDatabase InMemoryDatabase := {
  Query := Query_; Insert := Insert_; InsertBuffer := InsertBuffer_;
  InsertBothBuffer := InsertBothBuffer_; QueryBuffer := QueryBuffer_ }.

Lemma stored_lookup (d : InMemoryDatabase) k : stored d k = indexObj_ d !! k.
Proof. unfold stored. simpl. unfold Query_. by destruct (indexObj_ d !! k). Qed.

#[global] Instance db_laws : AbsDatabaseLaws InMemoryDatabase.
Proof.
  split; try done.
  - intros d k v. rewrite stored_lookup. simpl. unfold Query_. by destruct (_ !! _).
  - intros d k v k'. rewrite !stored_lookup. simpl. apply lookup_insert.
Qed.

(** *** The database file

    The destructor walks the hash map, whose iteration order is unspecified: the
    order is an argument. *)
Definition dump_item (bs : bytes) : bytes := le_enc 4 (zlen bs) ++ bs.
Definition dump_pairs (order : list (bytes * bytes)) : bytes :=
  concat ((λ kv, dump_item kv.1 ++ dump_item kv.2) <$> order).

(** [~InMemoryDatabase]: [ofstream::open] with [trunc], then the writes. *)
Definition destroy (order : list (bytes * bytes)) (d : InMemoryDatabase) (s : fs) : fs :=
  let '(h, s) := of_open_trunc (dbName_ d) s in
  let '(h, s) := of_write (dump_pairs order) h s in s.

(** [istream::read] into an object: a short read replaces only the bytes it got.
    [std::string::resize(n, 0)] keeps the old characters. *)
Definition read_into (old got : bytes) : bytes := got ++ drop (length got) old.
Definition resize (old : bytes) (n : Z) : bytes :=
  take (Z.to_nat n) old ++ replicate (Z.to_nat n - length old) 0.

(** The loop of [OpenDB].  Every round that does not end the loop consumes the four
    bytes of a key size, so more fuel than there are bytes left changes nothing
    (lemma [load_loop_fuel]).  A negative size makes [resize] throw. *)
Fixpoint load_loop (fuel : nat) (key value : bytes) (m : gmap bytes bytes) (h : ifstream) (s : fs) :
    result (gmap bytes bytes) :=
  match fuel with
  | O => Err UB
  | S fuel =>
      let '(sz, h) := if_read 4 h s in
      let itemSize := s32 (le_dec (read_into (le_enc 4 0) sz)) in
      if itemSize =? 0 then Ok m
      else
        check (0 <=? itemSize) EXCEPTION ;;
        let '(got, h) := if_read itemSize h s in
        let key := read_into (resize key itemSize) got in
        let '(sz, h) := if_read 4 h s in
        let itemSize := s32 (le_dec (read_into (le_enc 4 itemSize) sz)) in
        check (0 <=? itemSize) EXCEPTION ;;
        let '(got, h) := if_read itemSize h s in
        let value := read_into (resize value itemSize) got in
        let m := match m !! key with Some _ => m | None => <[key := value]> m end in
        if if_eof h then Ok m else load_loop fuel key value m h s
  end.

(** [OpenDB] on the object's current map: the file size is the difference of two
    [tellg]s, which are both -1 when the file could not be opened. *)
Definition OpenDB (dbName : bytes) (d : InMemoryDatabase) (s : fs) : result (bool * InMemoryDatabase) :=
  let h := if_open_ dbName s in
  let beginSize := if if_open h then 0 else -1 in
  let endSize := if if_open h then zlen (default [] (files s !! dbName)) else -1 in
  let fileSize := u64 (endSize - beginSize) in
  m ← (if fileSize =? 0 then Ok (indexObj_ d)
       else load_loop (S (Z.to_nat endSize)) [] [] (indexObj_ d) h s);
  Ok (true, {| dbName_ := dbName; indexObj_ := m |}).

Definition new_InMemoryDatabase (dbName : bytes) (s : fs) : result InMemoryDatabase :=
  '(_, d) ← OpenDB dbName {| dbName_ := []; indexObj_ := ∅ |} s; Ok d.

(** *** Lemmas: reading *)

(** A stream that is good and has [rest] left to read. *)
Definition remaining (h : ifstream) (s : fs) (rest : bytes) : Prop :=
  if_open h = true ∧ if_eof h = false ∧ if_fail h = false ∧ 0 ≤ if_pos h ∧
  drop (Z.to_nat (if_pos h)) (default [] (files s !! if_path h)) = rest.

Lemma remaining_open p s content : files s !! p = Some content → remaining (if_open_ p s) s content.
Proof.
  intros Hf. assert (is_regular_file s p = true) as Hr.
  { unfold is_regular_file. rewrite Hf. by apply bool_decide_eq_true. }
  unfold remaining, if_open_. simpl. rewrite Hr, Hf. by split_and!.
Qed.

Lemma if_read_full h s bs rest n : remaining h s (bs ++ rest) → n = zlen bs →
  ∃ h', if_read n h s = (bs, h') ∧ remaining h' s rest.
Proof.
  intros (Ho & He & Hf & Hp & Hr) ->. unfold if_read. rewrite Ho, He, Hf, Hr. simpl.
  replace (take (Z.to_nat (zlen bs)) (bs ++ rest)) with bs
    by (unfold zlen; by rewrite Nat2Z.id, take_app_length).
  rewrite Z.ltb_irrefl.
  eexists. split; [done|]. split_and!; simpl; [done..|zlia|].
  unfold zlen. rewrite Z2Nat.inj_add, Nat2Z.id, <- drop_drop, Hr by lia. apply drop_app_length.
Qed.

(** At the end of the file a read of at least one byte gets nothing. *)
Lemma if_read_end h s n : remaining h s [] → 0 < n →
  ∃ h', if_read n h s = ([], h') ∧ if_eof h' = true.
Proof.
  intros (Ho & He & Hf & Hp & Hr) Hn. unfold if_read. rewrite Ho, He, Hf, Hr. simpl.
  rewrite take_nil, zlen_nil. rewrite (proj2 (Z.ltb_lt _ _)) by done. eauto.
Qed.

(** The stream is at its end, or good with at most [n] bytes left. *)
Definition left_le (h : ifstream) (s : fs) (n : Z) : Prop :=
  if_eof h = true ∨ ∃ rest, remaining h s rest ∧ zlen rest ≤ n.

Lemma if_read_left h s n k : left_le h s k → 0 ≤ n → left_le (if_read n h s).2 s (k - n).
Proof.
  intros [He|(rest & Hr & Hk)] Hn.
  { left. unfold if_read. rewrite He. by destruct (if_open h). }
  destruct (Z.ltb_spec (zlen rest) n) as [Hlt|Hge].
  - left. destruct Hr as (Ho & He & Hf & Hp & Hr). unfold if_read. rewrite Ho, He, Hf, Hr. simpl.
    rewrite take_ge by (unfold zlen in Hlt; lia). by apply Z.ltb_lt.
  - right. exists (drop (Z.to_nat n) rest).
    assert (Hz : zlen (take (Z.to_nat n) rest) = n) by (unfold zlen in *; rewrite length_take; lia).
    rewrite <- (take_drop (Z.to_nat n) rest) in Hr.
    destruct (if_read_full _ _ _ _ n Hr (eq_sym Hz)) as (h' & -> & Hr'). simpl.
    split; [done|]. unfold zlen in *. rewrite length_drop. lia.
Qed.

Lemma read_into_full old got : length got = length old → read_into old got = got.
Proof. intros E. unfold read_into. by rewrite E, drop_all, app_nil_r. Qed.

Lemma length_resize old n : length (resize old n) = Z.to_nat n.
Proof. unfold resize. rewrite length_app, length_take, length_replicate. lia. Qed.

(** One dumped item is read back. *)
Lemma read_item_size h s x rest old : remaining h s (dump_item x ++ rest) → zlen x < 2 ^ 31 →
  ∃ h', if_read 4 h s = (le_enc 4 (zlen x), h') ∧ remaining h' s (x ++ rest) ∧
    s32 (le_dec (read_into (le_enc 4 old) (le_enc 4 (zlen x)))) = zlen x.
Proof.
  intros Hr Hx. unfold dump_item in Hr. rewrite <- app_assoc in Hr.
  destruct (if_read_full _ _ _ _ 4 Hr) as (h' & -> & Hr'); [zlia|].
  exists h'. split_and!; [done..|]. rewrite read_into_full by (by rewrite !length_le_enc).
  rewrite le_dec_enc4, s32_small; zlia.
Qed.

(** *** Termination *)

(** More fuel than there are bytes left to read: the loop ends, with an index or
    with the exception of a negative size, on every content of the file. *)
Lemma load_loop_fuel fuel key value m h s n :
  left_le h s n → if_eof h = false → n < Z.of_nat fuel → load_loop fuel key value m h s ≠ Err UB.
Proof.
  revert key value m h n. induction fuel as [|fuel IH]; intros key value m h n Hl He Hf.
  { destruct Hl as [?|(r & _ & ?)]; [congruence|zlia]. }
  cbn [load_loop]. apply (if_read_left _ _ 4) in Hl; [|lia].
  destruct (if_read 4 h s) as [sz h1]. destruct (_ =? 0); [done|].
  set (n1 := s32 _). destruct (0 <=? n1) eqn:E1; [|done]. zbool. simpl in Hl |- *.
  apply (if_read_left _ _ n1) in Hl; [|done]. destruct (if_read n1 h1 s) as [got h2]. simpl in Hl.
  apply (if_read_left _ _ 4) in Hl; [|lia]. destruct (if_read 4 h2 s) as [sz2 h3]. simpl in Hl.
  generalize (s32 (le_dec (read_into (le_enc 4 n1) sz2))) as n2. intros n2.
  destruct (0 <=? n2) eqn:E2; [|done]. zbool. simpl.
  apply (if_read_left _ _ n2) in Hl; [|done]. destruct (if_read n2 h3 s) as [got2 h4]. simpl in Hl.
  destruct (if_eof h4) eqn:E4; [done|]. apply (IH _ _ _ _ _ Hl); [done|lia].
Qed.

Lemma load_loop_no_exit fuel key value m h s : load_loop fuel key value m h s ≠ Err EXIT_FAILURE.
Proof.
  revert key value m h. induction fuel as [|fuel IH]; intros key value m h; [done|]. cbn [load_loop].
  destruct (if_read 4 h s). destruct (_ =? 0); [done|]. destruct (0 <=? _); [|done]. simpl.
  destruct (if_read _ _ s) as [? h1]. destruct (if_read 4 h1 s). destruct (0 <=? _); [|done]. simpl.
  destruct (if_read _ _ s) as [? h2]. destruct (if_eof h2); [done|]. apply IH.
Qed.

(** C17: opening a database file ends for every content of the file, also a truncated
    or corrupted one: [OpenDB] returns true, or [resize] throws on a negative size. *)
Theorem OpenDB_terminates dbName d s :
  OpenDB dbName d s = Err EXCEPTION ∨ ∃ d', OpenDB dbName d s = Ok (true, d') ∧ dbName_ d' = dbName.
Proof.
  unfold OpenDB. destruct (if_open (if_open_ dbName s)) eqn:Ho; [|right; simpl; eauto].
  simpl in Ho. unfold is_regular_file in Ho. apply bool_decide_eq_true in Ho as [content Hc].
  rewrite Hc. remember (S (Z.to_nat _)) as fuel eqn:Hfuel. simpl in Hfuel |- *.
  destruct (_ =? 0); [right; simpl; eauto|].
  pose proof (load_loop_fuel fuel [] [] (indexObj_ d) (if_open_ dbName s) s (zlen content)) as Hl.
  destruct (load_loop _ _ _ _ _ _) as [m|[]] eqn:El; simpl; [right; eauto| |exfalso|by left].
  - destruct (load_loop_no_exit fuel _ _ _ _ _ El).
  - apply Hl; [right; exists content; split; [by apply remaining_open|lia]|done|zlia|done].
Qed.

(** *** Round trip *)

Definition storable (kv : bytes * bytes) : Prop := kv.1 ≠ [] ∧ zlen kv.1 < 2 ^ 31 ∧ zlen kv.2 < 2 ^ 31.

Lemma load_loop_dump order fuel key value m h s :
  remaining h s (dump_pairs order) → Forall storable order → (length order < fuel)%nat →
  NoDup (fst <$> order) → (∀ k, k ∈ fst <$> order → m !! k = None) →
  load_loop fuel key value m h s = Ok (list_to_map order ∪ m).
Proof.
  revert fuel key value m h. induction order as [|[k v] order IH]; intros fuel key value m h Hr Hst Hf Hnd Hm;
    (destruct fuel as [|fuel]; [simpl in Hf; lia|]); cbn [load_loop].
  - destruct (if_read_end h s 4 Hr) as (h' & -> & _); [done|]. simpl. by rewrite (left_id_L ∅ (∪)).
  - apply Forall_cons in Hst as [(Hk0 & Hk & Hv) Hst]. simpl in *.
    apply NoDup_cons in Hnd as [Hkn Hnd].
    assert (Hpos : 0 < zlen k) by (destruct k; [done|]; rewrite zlen_cons; pose proof (zlen_nonneg k); lia).
    unfold dump_pairs in Hr. rewrite fmap_cons in Hr. simpl in Hr. rewrite <- app_assoc in Hr.
    destruct (read_item_size _ _ _ _ 0 Hr Hk) as (h1 & -> & Hr1 & ->).
    rewrite (proj2 (Z.eqb_neq _ _)), (proj2 (Z.leb_le _ _)) by lia. simpl.
    destruct (if_read_full _ _ _ _ (zlen k) Hr1 eq_refl) as (h2 & -> & Hr2).
    rewrite (read_into_full (resize key _)) by (rewrite length_resize; unfold zlen; lia).
    destruct (read_item_size _ _ _ _ (zlen k) Hr2 Hv) as (h3 & -> & Hr3 & ->).
    rewrite (proj2 (Z.leb_le _ _)) by (apply zlen_nonneg). simpl.
    destruct (if_read_full _ _ _ _ (zlen v) Hr3 eq_refl) as (h4 & -> & Hr4).
    rewrite (read_into_full (resize value _)) by (rewrite length_resize; unfold zlen; lia).
    rewrite Hm by set_solver. pose proof Hr4 as (_ & -> & _).
    rewrite (IH fuel k v _ h4); [|done|done|lia|done|].
    + f_equal. rewrite <- insert_union_r, <- insert_union_l; [done|].
      apply not_elem_of_list_to_map. set_solver.
    + intros k' Hk'. rewrite lookup_insert_ne by set_solver. apply Hm. set_solver.
Qed.

Lemma dump_pairs_cons k v order :
  dump_pairs ((k, v) :: order) = dump_item k ++ dump_item v ++ dump_pairs order.
Proof.
  change (dump_pairs ((k, v) :: order)) with ((dump_item k ++ dump_item v) ++ dump_pairs order).
  by rewrite <- app_assoc.
Qed.

Lemma zlen_dump_pairs order : zlen order ≤ zlen (dump_pairs order).
Proof.
  induction order as [|[k v] order IH]; [done|].
  rewrite dump_pairs_cons. unfold dump_item. zlia.
Qed.

Lemma dump_pairs_nil order : zlen (dump_pairs order) = 0 → order = [].
Proof. intros H. apply zlen_0_nil. pose proof (zlen_dump_pairs order). zlia. Qed.

Lemma destroy_other order d s p : p ≠ dbName_ d → files (destroy order d s) !! p = files s !! p.
Proof.
  intros Hp. unfold destroy. pose proof (of_open_trunc_other (dbName_ d) s p Hp) as Ho.
  pose proof (of_open_trunc_path (dbName_ d) s) as Hpath. destruct (of_open_trunc (dbName_ d) s) as [h s1]. simpl in *.
  pose proof (of_write_other h s1 (dump_pairs order) p) as Hw. rewrite Hpath in Hw.
  destruct (of_write _ h s1) as [h2 s2]. simpl in *. rewrite Hw by done. exact Ho.
Qed.

Lemma destroy_creatable order d s : creatable (destroy order d s) = creatable s.
Proof.
  unfold destroy. pose proof (of_open_trunc_creatable (dbName_ d) s) as H1.
  destruct (of_open_trunc (dbName_ d) s) as [h s1]. pose proof (of_write_creatable h s1 (dump_pairs order)) as H2.
  destruct (of_write _ h s1) as [h2 s2]. simpl in *. congruence.
Qed.

(** The file of an index whose keys and values have fixed lengths. *)
Lemma zlen_dump_fixed nk nv order : Forall (λ kv : bytes * bytes, zlen kv.1 = nk ∧ zlen kv.2 = nv) order →
  zlen (dump_pairs order) = (8 + nk + nv) * zlen order.
Proof.
  unfold dump_pairs, dump_item. induction 1 as [|kv order [Hk Hv] _ IH]; [unfold zlen; simpl; lia|].
  rewrite fmap_cons, concat_cons, !zlen_app, zlen_cons, IH, !zlen_le_enc, Hk, Hv. change (Z.of_nat 4) with 4. ring.
Qed.

Lemma reload_spec d s order :
  order ≡ₚ map_to_list (indexObj_ d) → creatable s (dbName_ d) = true →
  map_Forall (λ k v, storable (k, v)) (indexObj_ d) → zlen (dump_pairs order) < 2 ^ 64 →
  new_InMemoryDatabase (dbName_ d) (destroy order d s) = Ok d.
Proof.
  intros Hord Hc Hst Hlen. unfold new_InMemoryDatabase, OpenDB, destroy.
  destruct (of_open_trunc_end (dbName_ d) s Hc) as [He Hp].
  destruct (of_open_trunc (dbName_ d) s) as [h s1]. simpl in He, Hp.
  destruct (of_write_end _ _ _ (dump_pairs order) He) as [(_ & Hf & _) Hp'].
  destruct (of_write (dump_pairs order) h s1) as [h2 s2]. simpl in Hf, Hp'.
  rewrite Hp', Hp in Hf. simpl in Hf.
  pose proof (remaining_open _ _ _ Hf) as (Hopen & _).
  rewrite Hopen, Hf.
  remember (S (Z.to_nat _)) as fuel eqn:Hfuel. simpl in Hfuel |- *.
  rewrite Z.sub_0_r, u64_small by zlia.
  assert (Hmap : list_to_map order = indexObj_ d).
  { rewrite <- (list_to_map_to_list (indexObj_ d)). apply list_to_map_proper; [|done].
    rewrite Hord. apply NoDup_fst_map_to_list. }
  destruct (zlen (dump_pairs order) =? 0) eqn:E0; zbool.
  { apply dump_pairs_nil in E0. subst order. simpl. destruct d. simpl in *. by subst. }
  rewrite (load_loop_dump order).
  - simpl. rewrite Hmap, (right_id_L ∅ (∪)). by destruct d.
  - by apply remaining_open.
  - apply Forall_forall. intros [k v] Hin. rewrite Hord in Hin.
    apply elem_of_map_to_list in Hin. by apply (Hst k).
  - pose proof (zlen_dump_pairs order). subst fuel. unfold zlen in *. lia.
  - rewrite Hord. apply NoDup_fst_map_to_list.
  - intros. apply lookup_empty.
Qed.

(** The index survives a restart: for every iteration order of the hash map,
    opening the file the destructor wrote gives back the same database, when no key
    is empty and all sizes fit an [int]. *)
Theorem reload_destroyed d s order :
  order ≡ₚ map_to_list (indexObj_ d) → creatable s (dbName_ d) = true →
  map_Forall (λ k v, storable (k, v)) (indexObj_ d) → zlen (dump_pairs order) < 2 ^ 64 →
  new_InMemoryDatabase (dbName_ d) (destroy order d s) = Ok d.
Proof. apply reload_spec. Qed.

Definition sample_db : InMemoryDatabase :=
  {| dbName_ := of_string "db1"%string; indexObj_ := {[ [1; 2; 3] := [7]; [4] := [] ]} |}.
Definition empty_fs : fs := {| files := ∅; creatable := λ _, true |}.

Lemma reload_destroyed_witness :
  new_InMemoryDatabase (dbName_ sample_db)
    (destroy [([4], []); ([1; 2; 3], [7])] sample_db empty_fs) = Ok sample_db.
Proof.
  apply reload_destroyed.
  - apply NoDup_Permutation; [by apply (bool_decide_unpack _); vm_compute|apply NoDup_map_to_list|].
    intros [k v]. rewrite elem_of_map_to_list. unfold sample_db. simpl.
    rewrite lookup_insert_Some, lookup_singleton_Some. set_solver.
  - done.
  - unfold sample_db. simpl. apply map_Forall_insert_2; [done|]. by apply map_Forall_singleton.
  - done.
Defined.

(** An empty key is not stored faithfully: its size is the end marker of the
    loader, so a file that starts with it loads as an empty index. *)
Theorem empty_key_truncates v order s d :
  zlen v < 2 ^ 31 → creatable s (dbName_ d) = true → zlen (dump_pairs (([], v) :: order)) < 2 ^ 64 →
  new_InMemoryDatabase (dbName_ d) (destroy (([], v) :: order) d s) =
    Ok {| dbName_ := dbName_ d; indexObj_ := ∅ |}.
Proof.
  intros Hv Hc Hlen. unfold new_InMemoryDatabase, OpenDB, destroy.
  destruct (of_open_trunc_end (dbName_ d) s Hc) as [He Hp].
  destruct (of_open_trunc (dbName_ d) s) as [h s1]. simpl in He, Hp.
  set (img := dump_pairs (([], v) :: order)) in *.
  destruct (of_write_end _ _ _ img He) as [(_ & Hf & _) Hp'].
  destruct (of_write img h s1) as [h2 s2]. simpl in Hf, Hp'. rewrite Hp', Hp in Hf. simpl in Hf.
  pose proof (remaining_open _ _ _ Hf) as (Hopen & _).
  rewrite Hopen, Hf.
  remember (S (Z.to_nat _)) as fuel eqn:Hfuel. simpl in Hfuel |- *.
  rewrite Z.sub_0_r, u64_small by zlia.
  destruct (_ =? 0); [done|]. subst fuel. cbn [load_loop].
  assert (Hr : remaining (if_open_ (dbName_ d) s2) s2
                 (dump_item [] ++ dump_item v ++ dump_pairs order)).
  { apply remaining_open. rewrite Hf. unfold img. by rewrite dump_pairs_cons. }
  destruct (read_item_size _ _ [] _ 0 Hr) as (h' & -> & _ & ->); [done|]. done.
Qed.

Lemma empty_key_truncates_witness :
  new_InMemoryDatabase (dbName_ sample_db) (destroy [([], [7]); ([1], [2])] sample_db empty_fs) =
    Ok {| dbName_ := dbName_ sample_db; indexObj_ := ∅ |}.
Proof. apply empty_key_truncates; done. Defined.
End InMemory.

(** ** LeveldbDatabase

    LevelDB is a library: its handle type, [DB::Open], [Get] and [Put] are
    parameters.  [Get] returns the status and, when it is ok, the value. *)
Module Level.
Section Level.
Context {handle : Type} (Open : bytes → option handle)
  (Get : handle → bytes → option bytes) (Put : handle → bytes → bytes → bool * handle).

Record LeveldbDatabase := { ldbName_ : bytes; levelDBObj_ : handle }.

Definition with_handle (h : handle) (d : LeveldbDatabase) : LeveldbDatabase :=
  {| ldbName_ := ldbName_ d; levelDBObj_ := h |}.

Definition lockName (dbName : bytes) : bytes :=
  of_string "."%string ++ dbName ++ of_string ".lock"%string.

(** [OpenDB]: refused when the lock file exists; [assert] stops the program when
    the library cannot open the database. *)
Definition OpenDB (dbName : bytes) (d : option LeveldbDatabase) (s : fs) :
    result (bool * option LeveldbDatabase) :=
  if if_open (if_open_ (lockName dbName) s) then Ok (false, d)
  else match Open dbName with
       | Some h => Ok (true, Some {| ldbName_ := dbName; levelDBObj_ := h |})
       | None => Err EXCEPTION
       end.

Definition Query_ (d : LeveldbDatabase) (key value : bytes) : bool * bytes :=
  match Get (levelDBObj_ d) key with Some v => (true, v) | None => (false, value) end.
Definition put (d : LeveldbDatabase) (key value : bytes) : bool * LeveldbDatabase :=
  let '(ok, h) := Put (levelDBObj_ d) key value in (ok, with_handle h d).
Definition Insert_ := put.
Definition InsertBuffer_ (d : LeveldbDatabase) (key : bytes) (buffer : buf) (bufferSize : Z) :
    bool * LeveldbDatabase := put d key (bread buffer 0 bufferSize).
Definition InsertBothBuffer_ (d : LeveldbDatabase) (key : buf) (keySize : Z) (buffer : buf)
    (bufferSize : Z) : bool * LeveldbDatabase := put d (bread key 0 keySize) (bread buffer 0 bufferSize).
Definition QueryBuffer_ (d : LeveldbDatabase) (key : buf) (keySize : Z) (value : bytes) :
    bool * bytes := Query_ d (bread key 0 keySize) value.

Definition level_ops : AbsDatabase LeveldbDatabase := {|
  Query := Query_; Insert := Insert_; InsertBuffer := InsertBuffer_;
  InsertBothBuffer := InsertBothBuffer_; QueryBuffer := QueryBuffer_ |}.

(** The documented behaviour of the library, writes that do not fail: [Get]
    after [Put] returns the value for that key and leaves the others alone. *)
Class leveldb_ok : Prop := {
  put_ok : ∀ h k v, (Put h k v).1 = true;
  get_put : ∀ h k v, Get (Put h k v).2 k = Some v;
  get_put_ne : ∀ h k k' v, k ≠ k' → Get (Put h k v).2 k' = Get h k' }.

Lemma level_laws : leveldb_ok → @AbsDatabaseLaws LeveldbDatabase level_ops.
Proof.
  intros Hok.
  assert (Hst : ∀ d k, @stored _ level_ops d k = Get (levelDBObj_ d) k).
  { intros d k. unfold stored. simpl. unfold Query_. by destruct (Get _ k). }
  split; try done.
  - intros d k v. rewrite Hst. simpl. unfold Query_. by destruct (Get _ k).
  - intros d k v. simpl. unfold Insert_, put. pose proof (put_ok (levelDBObj_ d) k v).
    by destruct (Put _ k v).
  - intros d k v k'. rewrite !Hst. simpl. unfold Insert_, put.
    pose proof (get_put (levelDBObj_ d) k v) as E. pose proof (get_put_ne (levelDBObj_ d) k k' v) as E'.
    destruct (Put _ k v) as [b h]. simpl in *. case_decide; [by subst|auto].
Qed.
End Level.
End Level.

(** ** DatabaseFactory *)

Definition LEVEL_DB : Z := 1.
Definition IN_MEMORY : Z := 3.

Inductive database {handle : Type} :=
| InMemoryDB (d : InMemory.InMemoryDatabase)
| LevelDB (opened : bool) (d : option (Level.LeveldbDatabase (handle := handle))).
Arguments database : clear implicits.

(** [NULL] for an unknown type. *)
Definition CreateDatabase {handle} (Open : bytes → option handle) (type : Z) (path : bytes) (s : fs) :
    result (option (database handle)) :=
  if type =? LEVEL_DB then '(b, d) ← Level.OpenDB Open path None s; Ok (Some (LevelDB b d))
  else if type =? IN_MEMORY then d ← InMemory.new_InMemoryDatabase path s; Ok (Some (InMemoryDB d))
  else Ok None.
