(* ===== verification/Crypto.v ===== *)
(** * CryptoPrimitive (src/Util/cryptoPrimitive.cc)

    The digests and ciphers are OpenSSL's: the EVP calls are operations on an
    abstract context and what their manual pages document are the laws of a class.
    [GenerateHash] and the four cipher routines are the code's own sequences of
    those calls. *)
From Stdlib Require Import ZArith Lia.
From stdpp Require Import base tactics numbers list.
From S2P Require Import Prelude Common.
#[local] Open Scope Z_scope.

Definition of_opt {A} (o : option A) : result A :=
  match o with Some a => Ok a | None => Err EXIT_FAILURE end.

(** ** Message digests *)

Record EVP_MD (CTX : Type) := {
  EVP_DigestInit_ex : CTX → HASH_SET → option CTX;
  EVP_DigestUpdate : CTX → bytes → option CTX;
  EVP_DigestFinal_ex : CTX → option bytes;
  EVP_MD_CTX_reset : CTX → CTX }.
Arguments EVP_DigestInit_ex {CTX}.
Arguments EVP_DigestUpdate {CTX}.
Arguments EVP_DigestFinal_ex {CTX}.
Arguments EVP_MD_CTX_reset {CTX}.

Definition expectedHashSize (hashType : HASH_SET) : Z :=
  match hashType with SHA_1 => 20 | SHA_256 => 32 | MD5 => 16 end.

Section Digest.
Context {CTX : Type} (evp : EVP_MD CTX).

Definition GenerateHash (hashType_ : HASH_SET) (mdCtx : CTX) (data : bytes) : result (bytes * CTX) :=
  mdCtx ← of_opt (EVP_DigestInit_ex evp mdCtx hashType_);
  mdCtx ← of_opt (EVP_DigestUpdate evp mdCtx data);
  hash ← of_opt (EVP_DigestFinal_ex evp mdCtx);
  check (zlen hash =? expectedHashSize hashType_) EXIT_FAILURE ;;
  Ok (hash, EVP_MD_CTX_reset evp mdCtx).

(** What the manual documents: initialisation succeeds on every context and
    forgets what it held; updates accumulate; the result is the digest of the
    accumulated bytes and has the size of the algorithm. *)
Class EVP_MD_ok (digest : HASH_SET → bytes → bytes) := {
  md_view : CTX → option (HASH_SET * bytes);
  md_init : ∀ c t, ∃ c', EVP_DigestInit_ex evp c t = Some c' ∧ md_view c' = Some (t, []);
  md_update : ∀ c t x d, md_view c = Some (t, x) →
    ∃ c', EVP_DigestUpdate evp c d = Some c' ∧ md_view c' = Some (t, x ++ d);
  md_final : ∀ c t x, md_view c = Some (t, x) → EVP_DigestFinal_ex evp c = Some (digest t x);
  md_size : ∀ t x, zlen (digest t x) = expectedHashSize t }.

(** The hash does not depend on what the context was used for before. *)
Lemma GenerateHash_spec `{!EVP_MD_ok digest} t ctx d :
  ∃ ctx', GenerateHash t ctx d = Ok (digest t d, ctx').
Proof.
  unfold GenerateHash. destruct (md_init ctx t) as (c1 & -> & V1). simpl.
  destruct (md_update c1 t [] d V1) as (c2 & -> & V2). simpl.
  rewrite (md_final c2 t _ V2). simpl. rewrite (md_size t), Z.eqb_refl. simpl. eauto.
Qed.
End Digest.

(** ** Ciphers *)

Record EVP_CIPHER (CTX : Type) := {
  (* choose the algorithm; then give the key and the iv; both may fail *)
  EVP_Init_cipher : bool → CTX → ENCRYPT_SET → option CTX;
  EVP_Set_ivlen : CTX → Z → CTX;
  EVP_Init_key : bool → CTX → bytes → bytes → option CTX;
  EVP_Update_aad : bool → CTX → bytes → CTX;
  EVP_Update : bool → CTX → bytes → option (bytes * CTX);
  (* success, and the bytes written *)
  EVP_Final : bool → CTX → bool * bytes * CTX;
  EVP_CTX_reset : CTX → CTX }.
Arguments EVP_Init_cipher {CTX}.
Arguments EVP_Set_ivlen {CTX}.
Arguments EVP_Init_key {CTX}.
Arguments EVP_Update_aad {CTX}.
Arguments EVP_Update {CTX}.
Arguments EVP_Final {CTX}.
Arguments EVP_CTX_reset {CTX}.

Definition is_gcm (t : ENCRYPT_SET) : bool :=
  match t with AES_256_GCM | AES_128_GCM => true | _ => false end.

Definition gcm_aad : bytes :=
  [0x4d; 0x23; 0xc3; 0xce; 0xc3; 0x34; 0xb4; 0x9b; 0xdb; 0x37; 0x0c; 0x43; 0x7f; 0xec; 0x78; 0xde].

Section Cipher.
Context {CTX : Type} (evp : EVP_CIPHER CTX).

(** The all-zero [iv_] of the constructor. *)
Definition iv_ : bytes := replicate (Z.to_nat CRYPTO_BLOCK_SIZE) 0.

(** The [switch]: the GCM modes set the iv length and the additional data, the CFB
    modes do not.  [enc] chooses between the Encrypt and the Decrypt calls.  The GCM
    branches ignore a failure of the first call. *)
Definition init_ctx (enc : bool) (cipherType_ : ENCRYPT_SET) (ctx : CTX) (key : bytes) : result CTX :=
  match cipherType_ with
  | AES_128_CFB | AES_256_CFB =>
      ctx ← of_opt (EVP_Init_cipher evp enc ctx cipherType_);
      of_opt (EVP_Init_key evp enc ctx key iv_)
  | AES_256_GCM | AES_128_GCM =>
      let ctx := default ctx (EVP_Init_cipher evp enc ctx cipherType_) in
      let ctx := EVP_Set_ivlen evp ctx CRYPTO_BLOCK_SIZE in
      ctx ← of_opt (EVP_Init_key evp enc ctx key iv_);
      Ok (EVP_Update_aad evp enc ctx gcm_aad)
  end.

(** Update, Final (its result is not looked at), size check. *)
Definition run_cipher (enc : bool) (ctx : CTX) (data : bytes) : result (bytes * CTX) :=
  '(out, ctx) ← of_opt (EVP_Update evp enc ctx data);
  let '(_, last, ctx) := EVP_Final evp enc ctx in
  check (zlen out + zlen last =? zlen data) EXIT_FAILURE ;;
  Ok (out ++ last, EVP_CTX_reset evp ctx).

Definition EncryptWithKey (cipherType_ : ENCRYPT_SET) (ctx : CTX) (data key : bytes) : result (bytes * CTX) :=
  ctx ← init_ctx true cipherType_ ctx key; run_cipher true ctx data.
Definition DecryptWithKey (cipherType_ : ENCRYPT_SET) (ctx : CTX) (ciphertext key : bytes) :
    result (bytes * CTX) :=
  ctx ← init_ctx false cipherType_ ctx key; run_cipher false ctx ciphertext.
Definition SessionKeyEnc (ctx : CTX) (data sessionKey : bytes) : result (bytes * CTX) :=
  ctx ← init_ctx true AES_128_GCM ctx sessionKey; run_cipher true ctx data.
Definition SessionKeyDec (ctx : CTX) (ciphertext sessionKey : bytes) : result (bytes * CTX) :=
  ctx ← init_ctx false AES_128_GCM ctx sessionKey; run_cipher false ctx ciphertext.

(** The parameters a context was set up with. *)
Record params := { p_type : ENCRYPT_SET; p_ivlen : option Z; p_key : bytes; p_iv : bytes; p_aad : bytes }.

(** The documented behaviour of a stream mode: set-up succeeds, an update of a fresh
    context gives as many bytes as it gets and the two directions are inverse, the
    final call writes nothing; in a GCM mode it fails when no tag was set. *)
Class EVP_CIPHER_ok (xform : bool → params → bytes → bytes) := {
  c_alg : CTX → option (bool * ENCRYPT_SET * option Z);
  c_view : CTX → option (bool * params);
  init_cipher_ok : ∀ e c t, ∃ c', EVP_Init_cipher evp e c t = Some c' ∧ c_alg c' = Some (e, t, None);
  set_ivlen_ok : ∀ e c t l n, c_alg c = Some (e, t, l) → c_alg (EVP_Set_ivlen evp c n) = Some (e, t, Some n);
  init_key_ok : ∀ e c t l k v, c_alg c = Some (e, t, l) → ∃ c', EVP_Init_key evp e c k v = Some c' ∧
    c_view c' = Some (e, {| p_type := t; p_ivlen := l; p_key := k; p_iv := v; p_aad := [] |});
  aad_ok : ∀ e c p a, c_view c = Some (e, p) → is_gcm (p_type p) = true →
    c_view (EVP_Update_aad evp e c a) =
      Some (e, {| p_type := p_type p; p_ivlen := p_ivlen p; p_key := p_key p; p_iv := p_iv p; p_aad := a |});
  update_ok : ∀ e c p d, c_view c = Some (e, p) →
    ∃ c', EVP_Update evp e c d = Some (xform e p d, c') ∧ (EVP_Final evp e c').1.2 = [];
  xform_len : ∀ e p d, zlen (xform e p d) = zlen d;
  xform_inv : ∀ e p d, xform (negb e) p (xform e p d) = d }.

Definition params_of (t : ENCRYPT_SET) (key : bytes) : params :=
  {| p_type := t; p_ivlen := if is_gcm t then Some CRYPTO_BLOCK_SIZE else None;
     p_key := key; p_iv := iv_; p_aad := if is_gcm t then gcm_aad else [] |}.

Lemma init_ctx_spec `{!EVP_CIPHER_ok xform} e t ctx key :
  ∃ c, init_ctx e t ctx key = Ok c ∧ c_view c = Some (e, params_of t key).
Proof.
  unfold init_ctx. destruct (init_cipher_ok e ctx t) as (c1 & E1 & A1).
  pose proof (set_ivlen_ok _ _ _ _ CRYPTO_BLOCK_SIZE A1) as A2.
  destruct (init_key_ok _ _ _ _ key iv_ A1) as (k1 & K1 & V1).
  destruct (init_key_ok _ _ _ _ key iv_ A2) as (k2 & K2 & V2).
  destruct t; rewrite E1; simpl; rewrite ?K1, ?K2; simpl; eexists; (split; [done|]);
    first [done | by rewrite (aad_ok _ _ _ _ V2)].
Qed.

Lemma run_cipher_spec `{!EVP_CIPHER_ok xform} e c p d : c_view c = Some (e, p) →
  ∃ c', run_cipher e c d = Ok (xform e p d, c').
Proof.
  intros V. unfold run_cipher. destruct (update_ok _ _ _ d V) as (c' & -> & F). simpl.
  destruct (EVP_Final evp e c') as [[ok last] c'']. simpl in F. subst last.
  rewrite zlen_nil, Z.add_0_r, xform_len, Z.eqb_refl. simpl. rewrite app_nil_r. eauto.
Qed.

Lemma EncryptWithKey_spec `{!EVP_CIPHER_ok xform} t ctx d key :
  ∃ c', EncryptWithKey t ctx d key = Ok (xform true (params_of t key) d, c').
Proof.
  unfold EncryptWithKey. destruct (init_ctx_spec true t ctx key) as (c & -> & V). simpl.
  by apply run_cipher_spec.
Qed.
Lemma DecryptWithKey_spec `{!EVP_CIPHER_ok xform} t ctx d key :
  ∃ c', DecryptWithKey t ctx d key = Ok (xform false (params_of t key) d, c').
Proof.
  unfold DecryptWithKey. destruct (init_ctx_spec false t ctx key) as (c & -> & V). simpl.
  by apply run_cipher_spec.
Qed.
End Cipher.

(** C30: decryption undoes encryption for every cipher of the enumeration, every key
    and data, whatever the two contexts were used for before; the session-key pair
    agrees with [AES_128_GCM]. *)
Theorem Decrypt_Encrypt {CTX} (evp : EVP_CIPHER CTX) xform (ok : EVP_CIPHER_ok evp xform)
    t ctx ctx' data key :
  ∃ c1 c2 c, EncryptWithKey evp t ctx data key = Ok (c, c1) ∧ zlen c = zlen data ∧
    DecryptWithKey evp t ctx' c key = Ok (data, c2) ∧
    (t = AES_128_GCM → SessionKeyEnc evp ctx data key = Ok (c, c1) ∧
                       SessionKeyDec evp ctx' c key = Ok (data, c2)).
Proof.
  destruct (EncryptWithKey_spec evp t ctx data key) as (c1 & E1).
  destruct (DecryptWithKey_spec evp t ctx' (xform true (params_of t key) data) key) as (c2 & E2).
  rewrite (xform_inv evp true) in E2.
  eexists c1, c2, _. split_and!; [done|by eapply xform_len|done|]. by intros ->.
Qed.

(** C31: the integrity tag of GCM is never checked: [DecryptWithKey] accepts every byte
    string as a ciphertext, whatever the final EVP call reports about the tag. *)
Theorem DecryptWithKey_unauthenticated {CTX} (evp : EVP_CIPHER CTX) xform
    (ok : EVP_CIPHER_ok evp xform) t ctx forged key :
  ∃ c' d, DecryptWithKey evp t ctx forged key = Ok (d, c').
Proof. destruct (DecryptWithKey_spec evp t ctx forged key) as [c' E]. eauto. Qed.

(** ** A concrete library, to instantiate the hypotheses *)

Module Toy.
Inductive ctx := Fresh | Alg (e : bool) (t : ENCRYPT_SET) (l : option Z) | Ready (e : bool) (p : params).

Definition xform (e : bool) (p : params) (d : bytes) : bytes := Z.lxor (nth 0 (p_key p) 0) <$> d.

Definition evp : EVP_CIPHER ctx := {|
  EVP_Init_cipher e c t := Some (Alg e t None);
  EVP_Set_ivlen c n := match c with Alg e t _ => Alg e t (Some n) | _ => c end;
  EVP_Init_key e c k v := match c with
    | Alg e t l => Some (Ready e {| p_type := t; p_ivlen := l; p_key := k; p_iv := v; p_aad := [] |})
    | _ => None end;
  EVP_Update_aad e c a := match c with
    | Ready e p => Ready e {| p_type := p_type p; p_ivlen := p_ivlen p; p_key := p_key p;
                              p_iv := p_iv p; p_aad := a |}
    | _ => c end;
  EVP_Update e c d := match c with Ready e p => Some (xform e p d, c) | _ => None end;
  EVP_Final e c := (e, [], c);
  EVP_CTX_reset c := Fresh |}.

#[export] Instance evp_ok : EVP_CIPHER_ok evp xform.
Proof.
  refine {| c_alg := λ c, match c with Alg e t l => Some (e, t, l) | _ => None end;
            c_view := λ c, match c with Ready e p => Some (e, p) | _ => None end |}.
  - by intros; eexists.
  - intros e c t l n H; destruct c; naive_solver.
  - intros e c t l k v H; destruct c; naive_solver.
  - intros e c p a H _; destruct c; naive_solver.
  - intros e c p d H; destruct c; naive_solver.
  - intros. apply zlen_fmap.
  - intros e p d. unfold xform. generalize (nth 0 (p_key p) 0) as k. intros k.
    induction d as [|x d IH]; [done|]. rewrite !fmap_cons, IH. f_equal.
    by rewrite <- Z.lxor_assoc, Z.lxor_nilpotent.
Defined.

Definition digest (t : HASH_SET) (x : bytes) : bytes :=
  le_enc (Z.to_nat (expectedHashSize t)) (foldl (λ a b, 257 * a + b + 1) 0 x).
Definition md : EVP_MD (option (HASH_SET * bytes)) := {|
  EVP_DigestInit_ex _ t := Some (Some (t, []));
  EVP_DigestUpdate c d := match c with Some (t, x) => Some (Some (t, x ++ d)) | None => None end;
  EVP_DigestFinal_ex c := match c with Some (t, x) => Some (digest t x) | None => None end;
  EVP_MD_CTX_reset _ := None |}.
#[export] Instance md_ok : EVP_MD_ok md digest.
Proof.
  refine {| md_view := λ c, c |}.
  - by intros; eexists.
  - intros c t x d ->. eauto.
  - by intros c t x ->.
  - intros t x. unfold digest. rewrite zlen_le_enc. by destruct t.
Defined.
End Toy.

Lemma Decrypt_Encrypt_witness :
  ∃ c1 c2 c, EncryptWithKey Toy.evp AES_256_GCM Toy.Fresh [1; 2; 3] [42] = Ok (c, c1) ∧
    zlen c = 3 ∧ DecryptWithKey Toy.evp AES_256_GCM Toy.Fresh c [42] = Ok ([1; 2; 3], c2) ∧
    (AES_256_GCM = AES_128_GCM →
       SessionKeyEnc Toy.evp Toy.Fresh [1; 2; 3] [42] = Ok (c, c1) ∧
       SessionKeyDec Toy.evp Toy.Fresh c [42] = Ok ([1; 2; 3], c2)).
Proof. apply (Decrypt_Encrypt Toy.evp Toy.xform Toy.evp_ok). Defined.

Lemma DecryptWithKey_unauthenticated_witness :
  ∃ c' d, DecryptWithKey Toy.evp AES_256_GCM Toy.Fresh [9; 9] [42] = Ok (d, c').
Proof. apply (DecryptWithKey_unauthenticated Toy.evp Toy.xform Toy.evp_ok). Defined.
