(* ===== verification/Index.v ===== *)
(** * The deduplication index (src/Index, include/absIndex.h, include/plainIndex.h)

    [AbsIndex] keeps the statistics, which it saves to a file when it is destroyed
    and restores when it is constructed; [PlainIndex] deduplicates batches of
    chunks: a chunk whose hash is not in the index store is packed into the current
    container and its container name is recorded.  The index store is any
    [AbsDatabase]; the hash function is the interface [ChunkHash].

    The specification is a small abstract machine on lists of entries; one theorem
    shows that a batch of the detailed code does what the machine does, others what
    the machine guarantees: nothing is stored twice and every chunk can be found. *)
From Stdlib Require Import ZArith Lia String.
From stdpp Require Import base tactics numbers list gmap strings.
From S2P Require Import Prelude Common FileSystem Crypto ClientVar Storage Database.
#[local] Open Scope Z_scope.

(** ** Interface to the hash function *)

Class ChunkHash := chunk_hash : bytes → result bytes.

(** It is total on sizes an [int] can hold and gives [CHUNK_HASH_SIZE] bytes. *)
Class ChunkHashOk (H : bytes → bytes) `{ChunkHash} := {
  hash_total : ∀ d, zlen d < 2 ^ 31 → chunk_hash d = Ok (H d);
  hash_len : ∀ d, zlen (H d) = CHUNK_HASH_SIZE }.

(** [cryptoObj_->GenerateHash] with the [SHA_256] of the server is an instance. *)
Definition evp_hash {CTX} (evp : EVP_MD CTX) (mdCtx : CTX) : ChunkHash :=
  λ d, fst <$> GenerateHash evp HASH_TYPE mdCtx d.
Lemma evp_hash_ok {CTX} (evp : EVP_MD CTX) digest (ok : EVP_MD_ok evp digest) mdCtx :
  @ChunkHashOk (digest SHA_256) (evp_hash evp mdCtx).
Proof.
  split.
  - intros d _. unfold chunk_hash, evp_hash.
    destruct (GenerateHash_spec evp HASH_TYPE mdCtx d) as [c ->]. done.
  - intros d. by rewrite (md_size evp SHA_256).
Qed.

(** ** AbsIndex *)

Record AbsIndex (DB : Type) := {
  indexStore_ : DB;
  storageCoreObj_ : StorageCore;
  sendChunkBatchSize_ : Z; sendRecipeBatchSize_ : Z;
  totalRecvDataSize_ : Z; totalBatchNum_ : Z;
  _logicalChunkNum : Z; _logicalDataSize : Z;
  _uniqueChunkNum : Z; _uniqueDataSize : Z;
  _compressedDataSize : Z }.
Arguments indexStore_ {DB}.
Arguments storageCoreObj_ {DB}.
Arguments sendChunkBatchSize_ {DB}.
Arguments sendRecipeBatchSize_ {DB}.
Arguments totalRecvDataSize_ {DB}.
Arguments totalBatchNum_ {DB}.
Arguments _logicalChunkNum {DB}.
Arguments _logicalDataSize {DB}.
Arguments _uniqueChunkNum {DB}.
Arguments _uniqueDataSize {DB}.
Arguments _compressedDataSize {DB}.

Definition persistentFileName_ : bytes := of_string "previous-stat"%string.

(** [ifstream::read] of a [uint64_t] into a variable that holds [old]. *)
Definition read_u64 (old : Z) (h : ifstream) (s : fs) : Z * ifstream :=
  let '(got, h) := if_read 8 h s in (le_dec (InMemory.read_into (le_enc 8 old) got), h).

(** The constructor ([FileExist] and a successful [open] are the same test here). *)
Definition new_AbsIndex {DB} (config : Configure) (store : DB) (sc : StorageCore) (s : fs) :
    result (AbsIndex DB) :=
  let mk a b c d e :=
    {| indexStore_ := store; storageCoreObj_ := sc;
       sendChunkBatchSize_ := GetSendChunkBatchSize config;
       sendRecipeBatchSize_ := GetSendRecipeBatchSize config;
       totalRecvDataSize_ := 0; totalBatchNum_ := 0;
       _logicalDataSize := a; _logicalChunkNum := b; _uniqueDataSize := c; _uniqueChunkNum := d;
       _compressedDataSize := e |} in
  if is_regular_file s persistentFileName_ then
    let h := if_open_ persistentFileName_ s in
    check (if_open h) EXIT_FAILURE ;;
    let '(a, h) := read_u64 0 h s in
    let '(b, h) := read_u64 0 h s in
    let '(c, h) := read_u64 0 h s in
    let '(d, h) := read_u64 0 h s in
    let '(e, h) := read_u64 0 h s in
    Ok (mk a b c d e)
  else Ok (mk 0 0 0 0 0).

(** The destructor. *)
Definition delete_AbsIndex {DB} (ix : AbsIndex DB) (s : fs) : fs :=
  let '(h, s) := of_open_trunc persistentFileName_ s in
  if of_open h then
    let '(h, s) := of_write (le_enc 8 (_logicalDataSize ix)) h s in
    let '(h, s) := of_write (le_enc 8 (_logicalChunkNum ix)) h s in
    let '(h, s) := of_write (le_enc 8 (_uniqueDataSize ix)) h s in
    let '(h, s) := of_write (le_enc 8 (_uniqueChunkNum ix)) h s in
    let '(h, s) := of_write (le_enc 8 (_compressedDataSize ix)) h s in s
  else s.

Definition ReadIndexStore `{AbsDatabase DB} (ix : AbsIndex DB) (key value : bytes) : bool * bytes :=
  Query (indexStore_ ix) key value.

Definition with_store {DB} (db : DB) (ix : AbsIndex DB) : AbsIndex DB :=
  {| indexStore_ := db; storageCoreObj_ := storageCoreObj_ ix;
     sendChunkBatchSize_ := sendChunkBatchSize_ ix; sendRecipeBatchSize_ := sendRecipeBatchSize_ ix;
     totalRecvDataSize_ := totalRecvDataSize_ ix; totalBatchNum_ := totalBatchNum_ ix;
     _logicalChunkNum := _logicalChunkNum ix; _logicalDataSize := _logicalDataSize ix;
     _uniqueChunkNum := _uniqueChunkNum ix; _uniqueDataSize := _uniqueDataSize ix;
     _compressedDataSize := _compressedDataSize ix |}.

Definition UpdateIndexStore `{AbsDatabase DB} (key value : bytes) (ix : AbsIndex DB) : bool * AbsIndex DB :=
  let '(b, db) := Insert (indexStore_ ix) key value in (b, with_store db ix).
Definition UpdateIndexStoreBuffer `{AbsDatabase DB} (key : bytes) (buffer : buf) (bufferSize : Z)
    (ix : AbsIndex DB) : bool * AbsIndex DB :=
  let '(b, db) := InsertBuffer (indexStore_ ix) key buffer bufferSize in (b, with_store db ix).

(** ** PlainIndex *)

Definition count_batch {DB} (size : Z) (ix : AbsIndex DB) : AbsIndex DB :=
  {| indexStore_ := indexStore_ ix; storageCoreObj_ := storageCoreObj_ ix;
     sendChunkBatchSize_ := sendChunkBatchSize_ ix; sendRecipeBatchSize_ := sendRecipeBatchSize_ ix;
     totalRecvDataSize_ := u64 (totalRecvDataSize_ ix + size);
     totalBatchNum_ := u64 (totalBatchNum_ ix + 1);
     _logicalChunkNum := _logicalChunkNum ix; _logicalDataSize := _logicalDataSize ix;
     _uniqueChunkNum := _uniqueChunkNum ix; _uniqueDataSize := _uniqueDataSize ix;
     _compressedDataSize := _compressedDataSize ix |}.
Definition count_unique {DB} (sc : StorageCore) (size : Z) (ix : AbsIndex DB) : AbsIndex DB :=
  {| indexStore_ := indexStore_ ix; storageCoreObj_ := sc;
     sendChunkBatchSize_ := sendChunkBatchSize_ ix; sendRecipeBatchSize_ := sendRecipeBatchSize_ ix;
     totalRecvDataSize_ := totalRecvDataSize_ ix; totalBatchNum_ := totalBatchNum_ ix;
     _logicalChunkNum := _logicalChunkNum ix; _logicalDataSize := _logicalDataSize ix;
     _uniqueChunkNum := u64 (_uniqueChunkNum ix + 1);
     _uniqueDataSize := u64 (_uniqueDataSize ix + size);
     _compressedDataSize := _compressedDataSize ix |}.

(** [memset(dataBuffer, 0, n)] within the allocation. *)
Definition data_clear (m : SendMsgBuffer_t) (n : Z) : result SendMsgBuffer_t :=
  check ((0 <=? n) && (n <=? dataCap m)) UB ;;
  Ok (set_sendBuffer (λ i, if (dataOff 0 <=? i) && (i <? dataOff n) then 0 else sendBuffer m i) m).

Section PlainIndex.
Context `{AbsDatabase DB} `{ChunkHash} (stk : buf).

(** One round of the loop: the size prefix, the hash, the query and, for a new
    chunk, the store.  The rounds share [currentOffset] and [containerNameStr]. *)
Definition process_chunk (ix : AbsIndex DB) (u : UploadState) (g : rng)
    (currentOffset : Z) (containerNameStr : bytes) :
    result (AbsIndex DB * UploadState * rng * Z * bytes) :=
  let recvChunkBuf := _recvChunkBuf u in
  szb ← data_read recvChunkBuf currentOffset sizeof_uint32_t;
  let tmpChunkSize := le_dec szb in
  let currentOffset := u64 (currentOffset + sizeof_uint32_t) in
  d ← data_read recvChunkBuf currentOffset (s32 tmpChunkSize);
  tmpHashStr ← chunk_hash d;
  let '(status, containerNameStr) := ReadIndexStore ix tmpHashStr containerNameStr in
  '(ix, u, g, containerNameStr) ←
    (if negb status then
       '(name, sc, u, g) ← SaveChunk stk (sendBuffer recvChunkBuf) (dataOff currentOffset) tmpChunkSize
                             tmpHashStr (storageCoreObj_ ix) u g;
       let '(_, ix) := UpdateIndexStore tmpHashStr name ix in
       Ok (count_unique sc tmpChunkSize ix, u, g, name)
     else Ok (ix, u, g, containerNameStr));
  Ok (ix, u, g, u64 (currentOffset + tmpChunkSize), containerNameStr).

Fixpoint process_chunks (n : nat) (ix : AbsIndex DB) (u : UploadState) (g : rng)
    (currentOffset : Z) (containerNameStr : bytes) : result (AbsIndex DB * UploadState * rng) :=
  match n with
  | O => Ok (ix, u, g)
  | S n =>
      '(ix, u, g, off, name) ← process_chunk ix u g currentOffset containerNameStr;
      process_chunks n ix u g off name
  end.

Definition ProcessOneBatch (ix : AbsIndex DB) (u : UploadState) (g : rng) :
    result (AbsIndex DB * UploadState * rng) :=
  let recvChunkBuf := _recvChunkBuf u in
  let ix := count_batch (dataSize recvChunkBuf) ix in
  let chunkNum := currentItemNum recvChunkBuf in
  '(ix, u, g) ← process_chunks (Z.to_nat chunkNum) ix u g 0 (replicate (Z.to_nat CONTAINER_ID_LENGTH) 0);
  m ← data_clear (_recvChunkBuf u) (sendChunkBatchSize_ ix * sizeof_Chunk_t);
  Ok (ix, with_recvChunkBuf m u, g).

(** The query loop of [ProcessRecipeBatch]: 0 for a hash that is indexed, 1 for a
    new one. *)
Fixpoint query_entries (n : nat) (ix : AbsIndex DB) (m : SendMsgBuffer_t) (entryBase : Z) (name : bytes) :
    result bytes :=
  match n with
  | O => Ok []
  | S n =>
      h ← data_read m entryBase CHUNK_HASH_SIZE;
      let '(status, name) := ReadIndexStore ix h name in
      rest ← query_entries n ix m (entryBase + CHUNK_HASH_SIZE) name;
      Ok ((if status : bool then 0 else 1) :: rest)
  end.

(** The entries are appended to the secure recipe, the answer replaces them in the
    receive buffer. *)
Definition ProcessRecipeBatch (ix : AbsIndex DB) (u : UploadState) (h : ofstream) (s : fs) :
    result (UploadState * ofstream * fs) :=
  let m := _recvChunkBuf u in
  let entryNum := currentItemNum m in
  entries ← data_read m 0 (dataSize m);
  let '(h, s) := of_write entries h s in
  statusList ← query_entries (Z.to_nat entryNum) ix m 0 (replicate (Z.to_nat CONTAINER_ID_LENGTH) 0);
  m ← data_write m 0 statusList;
  let m := set_messageType (protocol_code CLOUD_QUERY_RETURN) m in
  let m := set_dataSize entryNum m in
  Ok (with_recvChunkBuf m u, h, s).
End PlainIndex.

(** ** Specification: the abstract store

    A session's containers: the sealed ones (name, initial chunk count, entries), the
    current one, and the supply of names.  [others] are the containers outside the
    session: those of earlier sessions and of other clients. *)
Abbreviation group := (bytes * list (bytes * bytes))%type.

Record astate := {
  a_sealed : list (bytes * Z * list entry);
  a_id : bytes; a_n0 : Z; a_es : list entry;
  a_g : rng }.

Definition a_groups (a : astate) : list group :=
  ((λ x, (x.1.1, x.2)) <$> a_sealed a) ++ [(a_id a, a_es a)].
Definition all_entries (gs : list group) : list entry := gs ≫= snd.
Definition hashes (gs : list group) : list bytes := (all_entries gs).*1.

(** Put an entry into the current container, or seal it and start the next one. *)
Definition a_place (e : entry) (a : astate) : astate :=
  if total_size (a_es a) + entry_size + zlen e.2 <? MAX_CONTAINER_SIZE then
    {| a_sealed := a_sealed a; a_id := a_id a; a_n0 := a_n0 a; a_es := a_es a ++ [e]; a_g := a_g a |}
  else
    let '(id, g) := CreateUUID CONTAINER_ID_LENGTH (a_g a) in
    {| a_sealed := a_sealed a ++ [(a_id a, a_n0 a, a_es a)]; a_id := id; a_n0 := 0;
       a_es := [e]; a_g := g |}.

(** Store a chunk unless some container has its hash. *)
Definition a_store (H : bytes → bytes) (others : list group) (a : astate) (d : bytes) : astate :=
  if bool_decide (H d ∈ hashes (others ++ a_groups a)) then a else a_place (H d, d) a.

(** The index knows exactly the entries of the containers, under their names. *)
Definition index_ok `{AbsDatabase DB} (db : DB) (gs : list group) : Prop :=
  ∀ h n, stored db h = Some n ↔ ∃ es, (n, es) ∈ gs ∧ h ∈ es.*1.

Definition sealed_as (x : bytes * Z * list entry) (c : Container_t) : Prop :=
  c_containerID c = x.1.1 ∧ c_currentSize c = total_size x.2 ∧
  image c = file_image (u32 (x.1.2 + zlen x.2)) x.2.

(** The session state [u] and the index [ix] represent [a]; [c0] and [s0] are the
    number of chunks and bytes stored before the session. *)
Record repr `{AbsDatabase DB} (c0 s0 : Z) (others : list group) (a : astate)
    (ix : AbsIndex DB) (u : UploadState) (g : rng) : Prop := {
  rp_cont : cont_repr (a_n0 a) (_curContainer u) (a_es a);
  rp_id : containerID (_curContainer u) = a_id a;
  rp_sealed : Forall2 sealed_as (a_sealed a) (pushed (_inputMQ u));
  rp_g : g = a_g a;
  rp_index : index_ok (indexStore_ ix) (others ++ a_groups a);
  rp_num : _uniqueChunkNum ix = u64 (c0 + zlen (all_entries (a_groups a)));
  rp_size : _uniqueDataSize ix = u64 (s0 + zlen (data_bytes (all_entries (a_groups a)))) }.

(** The payload of an upload message. *)
Definition frame (d : bytes) : bytes := le_enc 4 (zlen d) ++ d.
Definition payload (ds : list bytes) : bytes := ds ≫= frame.

(** ** Lemmas: the abstract store *)

Lemma all_entries_app gs gs' : all_entries (gs ++ gs') = all_entries gs ++ all_entries gs'.
Proof. apply bind_app. Qed.
Lemma hashes_app gs gs' : hashes (gs ++ gs') = hashes gs ++ hashes gs'.
Proof. unfold hashes. by rewrite all_entries_app, fmap_app. Qed.
Lemma data_bytes_app es es' : data_bytes (es ++ es') = data_bytes es ++ data_bytes es'.
Proof. unfold data_bytes. by rewrite fmap_app, concat_app. Qed.

Lemma elem_of_hashes h gs : h ∈ hashes gs ↔ ∃ n es, (n, es) ∈ gs ∧ h ∈ es.*1.
Proof.
  unfold hashes, all_entries. rewrite list_elem_of_fmap. split.
  - intros ([h' d] & -> & ([n es] & Hg & Hin)%list_elem_of_bind). exists n, es. split; [done|].
    apply list_elem_of_fmap. eauto.
  - intros (n & es & Hin & (e & -> & He)%list_elem_of_fmap). exists e. split; [done|].
    apply list_elem_of_bind. by exists (n, es).
Qed.

Lemma a_place_entries e a : all_entries (a_groups (a_place e a)) = all_entries (a_groups a) ++ [e].
Proof.
  unfold a_place. destruct (_ <? _).
  - unfold a_groups. simpl. rewrite !all_entries_app. unfold all_entries. simpl.
    by rewrite !app_nil_r, app_assoc.
  - destruct (CreateUUID _ _) as [id g]. unfold a_groups. simpl.
    rewrite fmap_app, !all_entries_app. unfold all_entries. simpl. by rewrite !app_nil_r.
Qed.

(** ** Lemmas: the index *)

Section IndexLemmas.
Context `{AbsDatabaseLaws DB}.
Implicit Types (db : DB).

Lemma index_ok_known db gs h : index_ok db gs → h ∈ hashes gs ↔ is_Some (stored db h).
Proof.
  intros Hok. rewrite elem_of_hashes. split.
  - intros (n & es & Hin & Hh). exists n. apply Hok. eauto.
  - intros [n Hn]. apply Hok in Hn as (es & ? & ?). eauto.
Qed.

(** A new hash is recorded under the name of the container that got the entry. *)
Lemma index_ok_extend db gs n es h d :
  index_ok db (gs ++ [(n, es)]) → stored db h = None →
  index_ok (Insert db h n).2 (gs ++ [(n, es ++ [(h, d)])]).
Proof.
  intros Hok Hnew h' n'. rewrite stored_insert. case_decide as E.
  - subst h'. split.
    + intros [= ->]. exists (es ++ [(h, d)]). split; [|rewrite fmap_app; simpl]; set_solver.
    + intros (es' & Hin & Hh). apply elem_of_app in Hin as [Hin|Hin].
      * assert (stored db h = Some n') as E; [|congruence]. apply Hok. set_solver.
      * apply list_elem_of_singleton in Hin. by injection Hin as -> ->.
  - rewrite (Hok h' n'). split; intros (es' & Hin & Hh).
    + apply elem_of_app in Hin as [Hin|Hin]; [set_solver|].
      apply list_elem_of_singleton in Hin. injection Hin as -> ->.
      exists (es ++ [(h, d)]). rewrite fmap_app. set_solver.
    + apply elem_of_app in Hin as [Hin|Hin]; [set_solver|].
      apply list_elem_of_singleton in Hin. injection Hin as -> ->.
      rewrite fmap_app in Hh. simpl in Hh. exists es. set_solver.
Qed.

Lemma index_ok_new_group db gs n : index_ok db gs → index_ok db (gs ++ [(n, [])]).
Proof.
  intros Hok h n'. rewrite (Hok h n'). split; intros (es & Hin & Hh); exists es.
  - set_solver.
  - apply elem_of_app in Hin as [Hin|Hin]; [done|].
    apply list_elem_of_singleton in Hin. injection Hin as -> ->. by apply elem_of_nil in Hh.
Qed.
End IndexLemmas.

Lemma zlen_frame d : zlen (frame d) = 4 + zlen d.
Proof. unfold frame. zlia. Qed.
#[export] Hint Rewrite zlen_frame : zlen.

(** ** Refinement *)

Section Refinement.
Context `{AbsDatabaseLaws DB} `{ChunkHashOk hash} (stk : buf) (c0 s0 : Z) (others : list group).
Implicit Types (ix : AbsIndex DB).

(** Storing a new chunk moves the representation to [a_place]. *)
Lemma SaveChunk_repr a ix u g data pos n h :
  repr c0 s0 others a ix u g → 0 ≤ n ≤ MAX_CHUNK_SIZE → zlen h = CHUNK_HASH_SIZE →
  stored (indexStore_ ix) h = None →
  ∃ name sc u' g',
    SaveChunk stk data pos n h (storageCoreObj_ ix) u g = Ok (name, sc, u', g') ∧
    repr c0 s0 others (a_place (h, bread data pos n) a)
      (count_unique sc n (UpdateIndexStore h name ix).2) u' g' ∧
    _recvChunkBuf u' = _recvChunkBuf u ∧ done_ (_inputMQ u') = done_ (_inputMQ u).
Proof.
  intros [Hc Hid Hs Hg Hix Hnum Hsize] Hn Hh Hnew. subst g.
  pose proof (WriteContainer_spec stk data pos n h _ u (a_g a) _ Hc Hn Hh) as HW.
  assert (Hd : zlen (bread data pos n) = n) by (apply zlen_bread; lia).
  assert (Hcnt : ∀ name, u64 (_uniqueChunkNum (UpdateIndexStore h name ix).2 + 1) =
      u64 (c0 + zlen (all_entries (a_groups (a_place (h, bread data pos n) a)))) ∧
    u64 (_uniqueDataSize (UpdateIndexStore h name ix).2 + n) =
      u64 (s0 + zlen (data_bytes (all_entries (a_groups (a_place (h, bread data pos n) a))))) ∧
    indexStore_ (UpdateIndexStore h name ix).2 = (Insert (indexStore_ ix) h name).2).
  { intros nm. unfold UpdateIndexStore. destruct (Insert _ _ _). simpl.
    rewrite Hnum, Hsize, a_place_entries, data_bytes_snoc, !u64_add_l.
    split_and!; [f_equal; zlia..|done]. }
  unfold SaveChunk. unfold a_place in *. simpl in *. rewrite Hd in *.
  destruct (_ <? _) eqn:E.
  - destruct HW as (cc' & -> & Hid' & Hrep). simpl. eexists _, _, _, _. split_and!; [done| |done..].
    destruct (Hcnt (containerID (_curContainer u))) as (HC1 & HC2 & Hst).
    split; simpl; try done; try congruence.
    rewrite Hst, Hid. unfold a_groups in *. simpl. rewrite app_assoc in *. by apply index_ok_extend.
  - destruct HW as (cc' & c & -> & Hid' & Hrep & Hcid & Hcs & Himg).
    destruct (CreateUUID CONTAINER_ID_LENGTH (a_g a)) as [id g'] eqn:Eg. simpl in *.
    eexists _, _, _, _. split_and!; [done| |done..].
    destruct (Hcnt id) as (HC1 & HC2 & Hst).
    split; simpl; try done; try congruence.
    + apply Forall2_app; [done|]. constructor; [|done]. split_and!; simpl; [congruence|done..].
    + rewrite Hst. unfold a_groups. simpl. rewrite fmap_app. simpl.
      rewrite app_assoc. apply (index_ok_extend _ _ id []); [|done].
      apply index_ok_new_group. done.
Qed.

(** The loop round. *)
Lemma process_chunk_repr a ix u g off d name :
  repr c0 s0 others a ix u g → 0 ≤ off → zlen d ≤ MAX_CHUNK_SIZE →
  off + zlen (frame d) ≤ dataCap (_recvChunkBuf u) < 2 ^ 32 →
  bread (sendBuffer (_recvChunkBuf u)) (dataOff off) (zlen (frame d)) = frame d →
  ∃ ix' u' g' name',
    process_chunk stk ix u g off name = Ok (ix', u', g', off + zlen (frame d), name') ∧
    repr c0 s0 others (a_store hash others a d) ix' u' g' ∧
    _recvChunkBuf u' = _recvChunkBuf u ∧ done_ (_inputMQ u') = done_ (_inputMQ u) ∧
    sendChunkBatchSize_ ix' = sendChunkBatchSize_ ix.
Proof.
  intros Hrep Hoff Hd Hcap Hbuf. rewrite zlen_frame in *. pose proof (zlen_nonneg d).
  unfold frame in Hbuf. replace (4 + zlen d) with (zlen (le_enc 4 (zlen d) ++ d)) in Hbuf by zlia.
  assert (Hsz : bread (sendBuffer (_recvChunkBuf u)) (dataOff off) 4 = le_enc 4 (zlen d)).
  { pose proof (bread_prefix _ _ (le_enc 4 (zlen d)) d Hbuf) as E. by rewrite zlen_le_enc in E. }
  assert (Hdat : bread (sendBuffer (_recvChunkBuf u)) (dataOff (off + 4)) (zlen d) = d).
  { apply bread_suffix in Hbuf. rewrite zlen_le_enc in Hbuf. unfold dataOff in *.
    by rewrite Z.add_assoc. }
  unfold process_chunk. sizes. rewrite (data_read_ok _ off 4) by lia. simpl.
  rewrite Hsz, le_dec_enc4, s32_small, (u64_small (off + 4)) by lia.
  rewrite (data_read_ok _ (off + 4)) by lia. simpl.
  rewrite Hdat, hash_total by lia. simpl.
  unfold ReadIndexStore. rewrite query_stored.
  pose proof (index_ok_known _ _ (hash d) (rp_index _ _ _ _ _ _ _ Hrep)) as Hknown.
  unfold a_store. destruct (stored (indexStore_ ix) (hash d)) as [nm|] eqn:Est; simpl.
  - rewrite bool_decide_eq_true_2 by (apply Hknown; eauto).
    eexists _, _, _, _. split_and!; [|done..]. do 2 f_equal. rewrite u64_small by lia. f_equal. lia.
  - rewrite bool_decide_eq_false_2 by (rewrite Hknown; by intros []).
    destruct (SaveChunk_repr a ix u g (sendBuffer (_recvChunkBuf u)) (dataOff (off + 4)) (zlen d) (hash d))
      as (nm & sc & u' & g' & -> & Hrep' & Hb & Hq); [done|sizes; lia|apply hash_len|done|].
    simpl. rewrite Hdat in Hrep'.
    destruct (UpdateIndexStore (hash d) nm ix) as [b ix'] eqn:Eu. simpl in *.
    eexists _, _, _, _. split_and!; [|done|done|done|].
    + do 2 f_equal. rewrite u64_small by lia. f_equal. lia.
    + unfold UpdateIndexStore in Eu. destruct (Insert _ _ _). by injection Eu as _ <-.
Qed.

Lemma process_chunks_repr ds a ix u g off name :
  repr c0 s0 others a ix u g → 0 ≤ off → Forall (λ d, zlen d ≤ MAX_CHUNK_SIZE) ds →
  off + zlen (payload ds) ≤ dataCap (_recvChunkBuf u) < 2 ^ 32 →
  bread (sendBuffer (_recvChunkBuf u)) (dataOff off) (zlen (payload ds)) = payload ds →
  ∃ ix' u' g',
    process_chunks stk (length ds) ix u g off name = Ok (ix', u', g') ∧
    repr c0 s0 others (foldl (a_store hash others) a ds) ix' u' g' ∧
    _recvChunkBuf u' = _recvChunkBuf u ∧ done_ (_inputMQ u') = done_ (_inputMQ u) ∧
    sendChunkBatchSize_ ix' = sendChunkBatchSize_ ix.
Proof.
  intros Hrep Hoff Hds. revert a ix u g off name Hrep Hoff.
  induction Hds as [|d ds Hd Hds IH]; intros a ix u g off name Hrep Hoff Hcap Hbuf.
  { simpl. eexists _, _, _. by split_and!. }
  change (payload (d :: ds)) with (frame d ++ payload ds) in *.
  assert (0 ≤ zlen (frame d)) by apply zlen_nonneg. rewrite zlen_app in Hcap.
  assert (0 ≤ zlen (payload ds)) by apply zlen_nonneg.
  destruct (process_chunk_repr a ix u g off d name) as (ix1 & u1 & g1 & nm & E & Hrep1 & Hb & Hq & Hz);
    [done|done|done|lia|by eapply bread_prefix|].
  simpl. rewrite E. simpl.
  destruct (IH (a_store hash others a d) ix1 u1 g1 (off + zlen (frame d)) nm Hrep1)
    as (ix2 & u2 & g2 & -> & Hrep2 & Hb2 & Hq2 & Hz2); [lia|by rewrite Hb; lia| |].
  - rewrite Hb. unfold dataOff in *. rewrite Z.add_assoc.
    by apply bread_suffix.
  - eexists _, _, _. split_and!; [done|done|congruence..].
Qed.
End Refinement.

(** ** What the abstract store guarantees *)

Section Guarantees.
Context (hash : bytes → bytes) (others : list group).

(** The chunks of a batch that are new, each at its first occurrence. *)
Fixpoint first_new (known : list bytes) (ds : list bytes) : list bytes :=
  match ds with
  | [] => []
  | d :: ds =>
      if bool_decide (hash d ∈ known) then first_new known ds
      else d :: first_new (known ++ [hash d]) ds
  end.

Definition entry_of (d : bytes) : entry := (hash d, d).

Lemma a_place_hashes e a : hashes (others ++ a_groups (a_place e a)) = hashes (others ++ a_groups a) ++ [e.1].
Proof. unfold hashes. by rewrite !all_entries_app, a_place_entries, app_assoc, fmap_app. Qed.

Lemma a_store_entries ds a :
  all_entries (a_groups (foldl (a_store hash others) a ds)) =
  all_entries (a_groups a) ++ (entry_of <$> first_new (hashes (others ++ a_groups a)) ds).
Proof.
  revert a. induction ds as [|d ds IH]; intros a; simpl; [by rewrite app_nil_r|]. rewrite IH.
  unfold a_store. case_bool_decide; [done|].
  by rewrite a_place_entries, a_place_hashes, <- app_assoc.
Qed.

(** A container keeps its name, and only grows. *)
Lemma a_store_groups d a n h :
  (∃ es, (n, es) ∈ others ++ a_groups a ∧ h ∈ es.*1) →
  ∃ es, (n, es) ∈ others ++ a_groups (a_store hash others a d) ∧ h ∈ es.*1.
Proof.
  intros (es & Hin & Hh). unfold a_store. case_bool_decide; [eauto|].
  unfold a_place. destruct (_ <? _); unfold a_groups in *; simpl.
  - apply elem_of_app in Hin as [|[|E%list_elem_of_singleton]%elem_of_app]; [set_solver..|].
    injection E as -> ->. exists (a_es a ++ [(hash d, d)]). rewrite fmap_app. set_solver.
  - destruct (CreateUUID _ _) as [id g]. simpl. exists es. rewrite fmap_app. set_solver.
Qed.
Lemma foldl_a_store_groups ds a n h :
  (∃ es, (n, es) ∈ others ++ a_groups a ∧ h ∈ es.*1) →
  ∃ es, (n, es) ∈ others ++ a_groups (foldl (a_store hash others) a ds) ∧ h ∈ es.*1.
Proof. revert a. induction ds; intros; simpl; auto using a_store_groups. Qed.

Lemma first_new_sound known ds d : d ∈ first_new known ds → d ∈ ds ∧ hash d ∉ known.
Proof.
  revert known. induction ds as [|d' ds IH]; intros known; simpl; [by intros ?%elem_of_nil|].
  case_bool_decide as Hd'; [intros ?%IH; set_solver|].
  intros [->|?%IH]%elem_of_cons; set_solver.
Qed.

Lemma first_new_complete known ds d :
  d ∈ ds → hash d ∈ known ∨ ∃ d', d' ∈ first_new known ds ∧ hash d' = hash d.
Proof.
  revert known. induction ds as [|d' ds IH]; intros known; [by intros ?%elem_of_nil|]. simpl.
  intros [->|Hd]%elem_of_cons; case_bool_decide as Hk.
  - by left.
  - right. exists d'. split; [left|done].
  - auto.
  - destruct (IH (known ++ [hash d']) Hd) as [Hin|(d2 & Hin & E)].
    + apply elem_of_app in Hin as [|Hin%list_elem_of_singleton]; [by left|].
      right. exists d'. split; [left|done].
    + right. exists d2. split; [by right|done].
Qed.

Lemma first_new_NoDup known ds : NoDup (hash <$> first_new known ds).
Proof.
  revert known. induction ds as [|d ds IH]; intros known; simpl; [constructor|].
  case_bool_decide; [done|]. rewrite fmap_cons. constructor; [|done].
  intros (d' & E & [_ Hd']%first_new_sound)%list_elem_of_fmap. apply Hd'. rewrite <- E. set_solver.
Qed.
End Guarantees.

(** ** Theorems *)

Section Theorems.
Context `{AbsDatabaseLaws DB} `{ChunkHashOk hash} (stk : buf) (c0 s0 : Z) (others : list group).
Implicit Types (ix : AbsIndex DB).

(** The receive buffer holds the message for the chunks [ds]. *)
Record holds_batch (u : UploadState) (ds : list bytes) : Prop := {
  hb_num : currentItemNum (_recvChunkBuf u) = zlen ds;
  hb_sizes : Forall (λ d, zlen d ≤ MAX_CHUNK_SIZE) ds;
  hb_fits : zlen (payload ds) ≤ dataCap (_recvChunkBuf u);
  hb_data : bread (sendBuffer (_recvChunkBuf u)) (dataOff 0) (zlen (payload ds)) = payload ds }.

(** The receive buffer has the size the session allocated. *)
Definition buf_ok ix (u : UploadState) : Prop :=
  dataCap (_recvChunkBuf u) = sendChunkBatchSize_ ix * sizeof_Chunk_t ∧ 0 ≤ sendChunkBatchSize_ ix ≤ 256.

Lemma ProcessOneBatch_repr a ix u g ds :
  repr c0 s0 others a ix u g → buf_ok ix u → holds_batch u ds →
  ∃ ix' u' g', ProcessOneBatch stk ix u g = Ok (ix', u', g') ∧
    repr c0 s0 others (foldl (a_store hash others) a ds) ix' u' g' ∧
    dataCap (_recvChunkBuf u') = dataCap (_recvChunkBuf u) ∧
    sendChunkBatchSize_ ix' = sendChunkBatchSize_ ix ∧ done_ (_inputMQ u') = done_ (_inputMQ u).
Proof.
  intros Hrep [Hcap Hb] [Hnum Hsz Hfit Hdata]. unfold ProcessOneBatch.
  assert (Hlt : dataCap (_recvChunkBuf u) < 2 ^ 32).
  { rewrite Hcap. unfold sizeof_Chunk_t. sizes. lia. }
  rewrite Hnum, to_nat_zlen.
  set (ix1 := count_batch _ ix).
  assert (Hrep1 : repr c0 s0 others a ix1 u g) by (by destruct Hrep).
  destruct (process_chunks_repr stk c0 s0 others ds a ix1 u g 0 (replicate (Z.to_nat CONTAINER_ID_LENGTH) 0))
    as (ix' & u' & g' & -> & Hrep' & Hb' & Hq' & Hz'); [done..|lia|done|].
  simpl. unfold data_clear. rewrite Hb', Hz'. change (sendChunkBatchSize_ ix1) with (sendChunkBatchSize_ ix).
  rewrite <- Hcap. assert (0 ≤ dataCap (_recvChunkBuf u)) by (rewrite Hcap; unfold sizeof_Chunk_t; sizes; lia).
  rewrite !(proj2 (Z.leb_le _ _)) by lia. simpl. eexists _, _, _. split; [done|].
  split_and!; [by destruct Hrep'|done|done|done].
Qed.

(** C6: deduplication is exact.  A batch of legal chunks is processed without a fault;
    the new chunks, each at its first occurrence, are appended to the session's
    containers in order and nothing else is stored; the index then maps exactly the
    hashes of all stored chunks to the names of the containers that hold them. *)
Theorem ProcessOneBatch_dedup a ix u g ds :
  repr c0 s0 others a ix u g → buf_ok ix u → holds_batch u ds →
  ∃ ix' u' g' a', ProcessOneBatch stk ix u g = Ok (ix', u', g') ∧ repr c0 s0 others a' ix' u' g' ∧
    all_entries (a_groups a') = all_entries (a_groups a) ++
      (entry_of hash <$> first_new hash (hashes (others ++ a_groups a)) ds).
Proof.
  intros Hrep Hb Hds. destruct (ProcessOneBatch_repr a ix u g ds Hrep Hb Hds) as (ix' & u' & g' & -> & Hrep' & _).
  eexists _, _, _, _. split_and!; [done..|]. apply a_store_entries.
Qed.

(** C7: no chunk is stored twice and none is lost: if the hashes in the store are
    distinct before a batch they are distinct after it, every chunk of the batch is
    indexed afterwards, and every hash that was indexed keeps its container. *)
Theorem ProcessOneBatch_once a ix u g ds :
  repr c0 s0 others a ix u g → buf_ok ix u → holds_batch u ds →
  NoDup (hashes (others ++ a_groups a)) →
  ∃ ix' u' g' a', ProcessOneBatch stk ix u g = Ok (ix', u', g') ∧ repr c0 s0 others a' ix' u' g' ∧
    NoDup (hashes (others ++ a_groups a')) ∧
    (∀ d, d ∈ ds → is_Some (stored (indexStore_ ix') (hash d))) ∧
    (∀ h n, stored (indexStore_ ix) h = Some n → stored (indexStore_ ix') h = Some n).
Proof.
  intros Hrep Hb Hds Hnd.
  destruct (ProcessOneBatch_repr a ix u g ds Hrep Hb Hds) as (ix' & u' & g' & -> & Hrep' & _).
  eexists _, _, _, _. split_and!; [done|done|..].
  - unfold hashes in *. rewrite all_entries_app, a_store_entries, app_assoc, fmap_app.
    rewrite <- all_entries_app, <- list_fmap_compose.
    apply NoDup_app. split_and!; [done| |apply first_new_NoDup].
    intros h Hh (d & -> & [_ Hd]%first_new_sound)%list_elem_of_fmap. by apply Hd.
  - intros d Hd. rewrite <- (index_ok_known _ _ (hash d) (rp_index _ _ _ _ _ _ _ Hrep')).
    unfold hashes. rewrite all_entries_app, a_store_entries, app_assoc, fmap_app, <- all_entries_app.
    apply elem_of_app.
    destruct (first_new_complete hash (hashes (others ++ a_groups a)) ds d Hd) as [|(d' & Hin & E)]; [by left|].
    right. rewrite <- list_fmap_compose. apply list_elem_of_fmap. exists d'. done.
  - intros h n Hn. apply (rp_index _ _ _ _ _ _ _ Hrep'), (foldl_a_store_groups hash others ds a).
    by apply (rp_index _ _ _ _ _ _ _ Hrep).
Qed.

(** *** Recipe batches *)

Definition status_of ix (h : bytes) : Z := if stored (indexStore_ ix) h is Some _ then 0 else 1.

Lemma query_entries_spec ix m hs off name :
  Forall (λ h, zlen h = CHUNK_HASH_SIZE) hs → 0 ≤ off → off + zlen (concat hs) ≤ dataCap m →
  bread (sendBuffer m) (dataOff off) (zlen (concat hs)) = concat hs →
  query_entries (length hs) ix m off name = Ok (status_of ix <$> hs).
Proof.
  intros Hhs. revert off name. induction Hhs as [|h hs Hh Hhs IH]; intros off name Hoff Hcap Hbuf; [done|].
  simpl in *. pose proof (bread_prefix _ _ _ _ Hbuf) as Hb1. pose proof (bread_suffix _ _ _ _ Hbuf) as Hb2.
  rewrite Hh in Hb1, Hb2. unfold dataOff in Hb2. rewrite <- Z.add_assoc in Hb2. sizes.
  rewrite data_read_ok by zlia. simpl. rewrite Hb1. unfold ReadIndexStore, status_of. rewrite query_stored.
  destruct (stored (indexStore_ ix) h); simpl; (rewrite IH; [done|lia|zlia|done]).
Qed.

Lemma query_batch_spec ix u h s hs :
  Forall (λ x, zlen x = CHUNK_HASH_SIZE) hs →
  currentItemNum (_recvChunkBuf u) = zlen hs → dataSize (_recvChunkBuf u) = zlen (concat hs) →
  zlen (concat hs) ≤ dataCap (_recvChunkBuf u) < 2 ^ 32 →
  bread (sendBuffer (_recvChunkBuf u)) (dataOff 0) (zlen (concat hs)) = concat hs →
  ∃ m, ProcessRecipeBatch ix u h s =
      Ok (with_recvChunkBuf m u, (of_write (concat hs) h s).1, (of_write (concat hs) h s).2) ∧
    bufCap m = bufCap (_recvChunkBuf u) ∧
    bread (sendBuffer m) 0 4 = le_enc 4 (protocol_code CLOUD_QUERY_RETURN) ∧
    bread (sendBuffer m) 8 4 = le_enc 4 (zlen hs) ∧
    bread (sendBuffer m) 12 4 = bread (sendBuffer (_recvChunkBuf u)) 12 4 ∧
    bread (sendBuffer m) (dataOff 0) (zlen hs) = status_of ix <$> hs.
Proof.
  intros Hhs Hnum Hsize Hcap Hbuf. unfold ProcessRecipeBatch. rewrite Hnum, Hsize.
  rewrite data_read_ok by zlia. simpl. rewrite Hbuf.
  destruct (of_write (concat hs) h s) as [h' s'].
  rewrite to_nat_zlen, query_entries_spec by (done || zlia). simpl.
  assert (Hle : zlen hs ≤ zlen (concat hs)).
  { clear -Hhs. induction Hhs as [|x hs Hx _ IH]; [done|]. simpl. sizes. zlia. }
  rewrite data_write_ok by zlia. simpl. eexists. split; [done|]. simpl. unfold dataOff. sizes. split_and!; [done|..].
  - by rewrite bread_bwrite_ne, bread_bwrite_len by zlia.
  - by rewrite bread_bwrite_len by zlia.
  - by rewrite !bread_bwrite_ne by zlia.
  - rewrite !bread_bwrite_ne by zlia. apply bread_bwrite_len. zlia.
Qed.

(** C28: a recipe batch is appended to the secure recipe file as it was received, and
    the answer in the buffer tells for each entry whether the server still needs the
    chunk: byte i is 0 when hash i is indexed and 1 when it is not. *)
Theorem ProcessRecipeBatch_answers ix u h s content hs :
  at_end h s content → Forall (λ x, zlen x = CHUNK_HASH_SIZE) hs →
  currentItemNum (_recvChunkBuf u) = zlen hs → dataSize (_recvChunkBuf u) = zlen (concat hs) →
  zlen (concat hs) ≤ dataCap (_recvChunkBuf u) < 2 ^ 32 →
  bread (sendBuffer (_recvChunkBuf u)) (dataOff 0) (zlen (concat hs)) = concat hs →
  ∃ u' h' s', ProcessRecipeBatch ix u h s = Ok (u', h', s') ∧
    at_end h' s' (content ++ concat hs) ∧
    _curContainer u' = _curContainer u ∧ _inputMQ u' = _inputMQ u ∧
    messageType (_recvChunkBuf u') = protocol_code CLOUD_QUERY_RETURN ∧
    dataSize (_recvChunkBuf u') = zlen hs ∧
    bread (sendBuffer (_recvChunkBuf u')) (dataOff 0) (zlen hs) = status_of ix <$> hs.
Proof.
  intros Hend Hhs Hnum Hsize Hcap Hbuf.
  destruct (query_batch_spec ix u h s hs Hhs Hnum Hsize Hcap Hbuf) as (m & -> & _ & Ht & Hz & _ & Hst).
  assert (Hle : zlen hs ≤ zlen (concat hs)).
  { clear -Hhs. induction Hhs as [|x hs Hx _ IH]; [done|]. simpl. sizes. zlia. }
  eexists _, _, _. split_and!; [done|by apply of_write_end|done|done| | |done]; simpl.
  - unfold messageType. by rewrite Ht.
  - unfold dataSize. rewrite Hz, le_dec_enc4; [done|zlia].
Qed.
End Theorems.

(** ** Statistics *)

Lemma delete_AbsIndex_file {DB} (ix : AbsIndex DB) s : creatable s persistentFileName_ = true →
  files (delete_AbsIndex ix s) !! persistentFileName_ =
    Some (le_enc 8 (_logicalDataSize ix) ++ le_enc 8 (_logicalChunkNum ix) ++ le_enc 8 (_uniqueDataSize ix) ++
          le_enc 8 (_uniqueChunkNum ix) ++ le_enc 8 (_compressedDataSize ix)) ∧
  (∀ p, p ≠ persistentFileName_ → files (delete_AbsIndex ix s) !! p = files s !! p).
Proof.
  intros Hc. unfold delete_AbsIndex.
  destruct (of_open_trunc_spec _ s Hc) as (h & s1 & -> & He & Hp & Ho & _).
  pose proof He as (-> & _).
  destruct (of_write_spec (le_enc 8 (_logicalDataSize ix)) _ _ _ He) as (h1 & s2 & -> & He1 & Hp1 & Ho1 & _).
  destruct (of_write_spec (le_enc 8 (_logicalChunkNum ix)) _ _ _ He1) as (h2 & s3 & -> & He2 & Hp2 & Ho2 & _).
  destruct (of_write_spec (le_enc 8 (_uniqueDataSize ix)) _ _ _ He2) as (h3 & s4 & -> & He3 & Hp3 & Ho3 & _).
  destruct (of_write_spec (le_enc 8 (_uniqueChunkNum ix)) _ _ _ He3) as (h4 & s5 & -> & He4 & Hp4 & Ho4 & _).
  destruct (of_write_spec (le_enc 8 (_compressedDataSize ix)) _ _ _ He4) as (h5 & s6 & -> & He5 & Hp5 & Ho5 & _).
  split.
  - destruct He5 as (_ & Hf & _). rewrite Hp5, Hp4, Hp3, Hp2, Hp1, Hp in Hf. rewrite Hf.
    by rewrite app_nil_l, <- !app_assoc.
  - intros p Hne. rewrite Ho5, Ho4, Ho3, Ho2, Ho1, Ho; congruence.
Qed.

Lemma read_u64_spec h s x rest old : InMemory.remaining h s (le_enc 8 x ++ rest) → 0 ≤ x < 2 ^ 64 →
  ∃ h', read_u64 old h s = (x, h') ∧ InMemory.remaining h' s rest.
Proof.
  intros Hr Hx. unfold read_u64. destruct (InMemory.if_read_full _ _ _ _ 8 Hr) as (h' & -> & Hr'); [zlia|].
  rewrite InMemory.read_into_full by (by rewrite !length_le_enc). rewrite le_dec_enc8 by done. eauto.
Qed.

Lemma delete_AbsIndex_creatable {DB} (ix : AbsIndex DB) s : creatable (delete_AbsIndex ix s) = creatable s.
Proof.
  unfold delete_AbsIndex. pose proof (of_open_trunc_creatable persistentFileName_ s) as <-.
  destruct (of_open_trunc _ s) as [h s1]. destruct (of_open h); [|done]. simpl.
  repeat (match goal with |- context [of_write ?bs ?h ?s] => pose proof (of_write_creatable h s bs) as <-;
            destruct (of_write bs h s) end; simpl); done.
Qed.

(** The bytes of the statistics file. *)
Definition stats_image {DB} (ix : AbsIndex DB) : bytes :=
  le_enc 8 (_logicalDataSize ix) ++ le_enc 8 (_logicalChunkNum ix) ++ le_enc 8 (_uniqueDataSize ix) ++
  le_enc 8 (_uniqueChunkNum ix) ++ le_enc 8 (_compressedDataSize ix).
(** The counters that survive a restart are those of [ix]; the others are zero. *)
Definition same_stats {DB DB'} (ix : AbsIndex DB) (ix' : AbsIndex DB') : Prop :=
  _logicalDataSize ix' = _logicalDataSize ix ∧ _logicalChunkNum ix' = _logicalChunkNum ix ∧
  _uniqueDataSize ix' = _uniqueDataSize ix ∧ _uniqueChunkNum ix' = _uniqueChunkNum ix ∧
  _compressedDataSize ix' = _compressedDataSize ix ∧ totalRecvDataSize_ ix' = 0 ∧ totalBatchNum_ ix' = 0.
(** The persistent counters are [uint64_t]. *)
Definition stats_ok {DB} (ix : AbsIndex DB) : Prop :=
  Forall (λ x, 0 ≤ x < 2 ^ 64) [_logicalDataSize ix; _logicalChunkNum ix; _uniqueDataSize ix;
                                _uniqueChunkNum ix; _compressedDataSize ix].

Lemma new_AbsIndex_stats {DB DB'} (config : Configure) (ix : AbsIndex DB) (db : DB') sc s :
  files s !! persistentFileName_ = Some (stats_image ix) → stats_ok ix →
  ∃ ix', new_AbsIndex config db sc s = Ok ix' ∧ same_stats ix ix' ∧ indexStore_ ix' = db ∧
    sendChunkBatchSize_ ix' = GetSendChunkBatchSize config ∧ storageCoreObj_ ix' = sc.
Proof.
  intros Hf Hr. unfold stats_ok in Hr. rewrite !Forall_cons in Hr. destruct Hr as (Ha & Hb & Hcc & Hd & He & _).
  unfold new_AbsIndex. pose proof (InMemory.remaining_open _ _ _ Hf) as Hrem.
  pose proof Hrem as (Hopen & _). simpl in Hopen. rewrite Hopen.
  replace (if_open (if_open_ _ _)) with true by done. simpl.
  destruct (read_u64_spec _ _ _ _ 0 Hrem Ha) as (h1 & -> & R1).
  destruct (read_u64_spec _ _ _ _ 0 R1 Hb) as (h2 & -> & R2).
  destruct (read_u64_spec _ _ _ _ 0 R2 Hcc) as (h3 & -> & R3).
  destruct (read_u64_spec _ _ _ _ 0 R3 Hd) as (h4 & -> & R4).
  rewrite <- (app_nil_r (le_enc 8 (_compressedDataSize ix))) in R4.
  destruct (read_u64_spec _ _ _ _ 0 R4 He) as (h5 & -> & R5).
  eexists. by split_and!.
Qed.

(** The statistics survive a restart: constructing the index over the file its
    destructor wrote restores the five persistent counters, and the per-run counters
    start at zero. *)
Theorem stats_roundtrip {DB} (config : Configure) (ix : AbsIndex DB) (db : DB) sc s :
  creatable s persistentFileName_ = true →
  Forall (λ x, 0 ≤ x < 2 ^ 64) [_logicalDataSize ix; _logicalChunkNum ix; _uniqueDataSize ix;
                                _uniqueChunkNum ix; _compressedDataSize ix] →
  ∃ ix', new_AbsIndex config db sc (delete_AbsIndex ix s) = Ok ix' ∧
    _logicalDataSize ix' = _logicalDataSize ix ∧ _logicalChunkNum ix' = _logicalChunkNum ix ∧
    _uniqueDataSize ix' = _uniqueDataSize ix ∧ _uniqueChunkNum ix' = _uniqueChunkNum ix ∧
    _compressedDataSize ix' = _compressedDataSize ix ∧
    totalRecvDataSize_ ix' = 0 ∧ totalBatchNum_ ix' = 0 ∧ indexStore_ ix' = db.
Proof.
  intros Hc Hr. destruct (delete_AbsIndex_file ix s Hc) as [Hf _].
  destruct (new_AbsIndex_stats config ix db sc _ Hf Hr) as (ix' & -> & (? & ? & ? & ? & ? & ? & ?) & ? & _).
  exists ix'. by split_and!.
Qed.

(** ** Instances for concrete inputs *)

Definition sample_hash : ChunkHash := evp_hash Toy.md None.
#[export] Instance sample_hash_ok : @ChunkHashOk (Toy.digest SHA_256) sample_hash :=
  evp_hash_ok Toy.md Toy.digest Toy.md_ok None.

Definition sample_ix : AbsIndex InMemory.InMemoryDatabase :=
  {| indexStore_ := {| InMemory.dbName_ := []; InMemory.indexObj_ := ∅ |};
     storageCoreObj_ := {| writtenDataSize_ := 0; writtenChunkNum_ := 0 |};
     sendChunkBatchSize_ := 256; sendRecipeBatchSize_ := 1024;
     totalRecvDataSize_ := 0; totalBatchNum_ := 0;
     _logicalChunkNum := 0; _logicalDataSize := 0; _uniqueChunkNum := 0; _uniqueDataSize := 0;
     _compressedDataSize := 0 |}.
Definition sample_a : astate :=
  {| a_sealed := []; a_id := replicate 8 97; a_n0 := 0; a_es := []; a_g := sample_rng |}.
Definition sample_chunks : list bytes := [[1; 2; 3]; [4]; [1; 2; 3]].
Definition sample_msg (num size : Z) (data : bytes) : SendMsgBuffer_t :=
  {| sendBuffer := bwrite (bwrite (bwrite zero_buf 12 (le_enc 4 num)) 8 (le_enc 4 size)) 16 data;
     bufCap := 16 + 256 * 16388 |}.
Definition sample_u : UploadState :=
  with_recvChunkBuf (sample_msg 3 (zlen (payload sample_chunks)) (payload sample_chunks)) sample_upload.

Lemma sample_repr : repr 0 0 [] sample_a sample_ix sample_u sample_rng.
Proof.
  split; try done.
  - by apply cont_repr_empty.
  - intros h n. rewrite InMemory.stored_lookup. simpl. rewrite lookup_empty. split; [done|].
    intros (es & Hin & Hh). apply list_elem_of_singleton in Hin. injection Hin as -> ->.
    by apply elem_of_nil in Hh.
Defined.
Lemma sample_holds : holds_batch sample_u sample_chunks.
Proof. split; [done|repeat constructor; done|done|by vm_compute]. Defined.

Lemma ProcessOneBatch_dedup_witness :
  ∃ ix' u' g' a', ProcessOneBatch (H0 := sample_hash) zero_buf sample_ix sample_u sample_rng = Ok (ix', u', g') ∧
    repr 0 0 [] a' ix' u' g' ∧
    all_entries (a_groups a') =
      entry_of (Toy.digest SHA_256) <$>
        first_new (Toy.digest SHA_256) [] sample_chunks.
Proof.
  apply (ProcessOneBatch_dedup (hash := Toy.digest SHA_256) zero_buf 0 0 [] sample_a sample_ix sample_u sample_rng sample_chunks).
  - exact sample_repr.
  - by split.
  - exact sample_holds.
Defined.

Lemma ProcessOneBatch_once_witness :
  ∃ ix' u' g' a', ProcessOneBatch (H0 := sample_hash) zero_buf sample_ix sample_u sample_rng = Ok (ix', u', g') ∧
    repr 0 0 [] a' ix' u' g' ∧ NoDup (hashes ([] ++ a_groups a')) ∧
    (∀ d, d ∈ sample_chunks → is_Some (stored (indexStore_ ix') (Toy.digest SHA_256 d))) ∧
    (∀ h n, stored (indexStore_ sample_ix) h = Some n → stored (indexStore_ ix') h = Some n).
Proof.
  apply (ProcessOneBatch_once (hash := Toy.digest SHA_256) zero_buf 0 0 [] sample_a sample_ix sample_u sample_rng sample_chunks).
  - exact sample_repr.
  - by split.
  - exact sample_holds.
  - constructor.
Defined.

Definition sample_query : UploadState :=
  with_recvChunkBuf (sample_msg 1 32 (replicate 32 5)) sample_upload.

Lemma ProcessRecipeBatch_answers_witness :
  ∃ u' h' s',
    ProcessRecipeBatch sample_ix sample_query
      {| of_path := [1]; of_open := true; of_pos := 0 |} (set_file [1] [] InMemory.empty_fs) = Ok (u', h', s') ∧
    at_end h' s' (replicate 32 5) ∧ _curContainer u' = _curContainer sample_query ∧
    _inputMQ u' = _inputMQ sample_query ∧ messageType (_recvChunkBuf u') = 2 ∧
    dataSize (_recvChunkBuf u') = 1 ∧
    bread (sendBuffer (_recvChunkBuf u')) (dataOff 0) 1 = status_of sample_ix <$> [replicate 32 5].
Proof.
  apply (ProcessRecipeBatch_answers sample_ix sample_query _ _ [] [replicate 32 5]);
    [done|by repeat constructor|by vm_compute|by vm_compute|by vm_compute|by vm_compute].
Defined.

Lemma stats_roundtrip_witness :
  ∃ ix', new_AbsIndex sample_config (indexStore_ sample_ix) {| writtenDataSize_ := 0; writtenChunkNum_ := 0 |}
      (delete_AbsIndex sample_ix InMemory.empty_fs) = Ok ix' ∧
    _logicalDataSize ix' = 0 ∧ _logicalChunkNum ix' = 0 ∧ _uniqueDataSize ix' = 0 ∧
    _uniqueChunkNum ix' = 0 ∧ _compressedDataSize ix' = 0 ∧ totalRecvDataSize_ ix' = 0 ∧
    totalBatchNum_ ix' = 0 ∧ indexStore_ ix' = indexStore_ sample_ix.
Proof. apply stats_roundtrip; [done|]. by repeat constructor. Defined.
