(* ===== verification/IndexThreads.v ===== *)
(** * Uploads of several clients at the same time (src/Index/plainIndex.cc)

    Every upload has a receiver thread that calls [PlainIndex::ProcessOneBatch] for each
    batch of chunks; the threads share the index, its counters, the storage core and
    [rand()], and protect the part of the loop body between the hash and the next chunk
    by [outIdxLck_].  Here the statements of the loop are the steps of a thread, and any
    number of threads take turns in any order.

    The two counters at the head of [ProcessOneBatch] are updated outside the lock; the
    model takes the update as one step (nothing reads them). *)
From Stdlib Require Import ZArith Lia.
From stdpp Require Import base tactics numbers list gmap.
From S2P Require Import Prelude Common FileSystem Crypto ClientVar Storage Database Index.
#[local] Open Scope Z_scope.

(** ** The steps of a thread *)

(** Where a thread is in [ProcessOneBatch]: [n] rounds of the loop are left, [off] is
    [currentOffset], [name] is [containerNameStr]. *)
Inductive point :=
| P_idle                                     (* between two batches *)
| P_start                                    (* a batch is in the buffer *)
| P_loop (n : nat) (off : Z) (name : bytes)  (* head of the loop *)
| P_lock (n : nat) (off size : Z) (h name : bytes)    (* at [pthread_rwlock_wrlock] *)
| P_query (n : nat) (off size : Z) (h name : bytes)   (* at [ReadIndexStore] *)
| P_save (n : nat) (off size : Z) (h : bytes)         (* at [SaveChunk] *)
| P_update (n : nat) (off size : Z) (h name : bytes)  (* at [UpdateIndexStore] *)
| P_count (n : nat) (off size : Z) (name : bytes)     (* at [_uniqueChunkNum++] *)
| P_unlock (n : nat) (off size : Z) (name : bytes).   (* at [pthread_rwlock_unlock] *)

Record thread := { t_u : UploadState; t_pt : point }.

(** [SaveChunk] changes the storage core, the [++] the counters. *)
Definition with_core {DB} (sc : StorageCore) (ix : AbsIndex DB) : AbsIndex DB :=
  {| indexStore_ := indexStore_ ix; storageCoreObj_ := sc;
     sendChunkBatchSize_ := sendChunkBatchSize_ ix; sendRecipeBatchSize_ := sendRecipeBatchSize_ ix;
     totalRecvDataSize_ := totalRecvDataSize_ ix; totalBatchNum_ := totalBatchNum_ ix;
     _logicalChunkNum := _logicalChunkNum ix; _logicalDataSize := _logicalDataSize ix;
     _uniqueChunkNum := _uniqueChunkNum ix; _uniqueDataSize := _uniqueDataSize ix;
     _compressedDataSize := _compressedDataSize ix |}.

Section IndexThreads.
Context `{AbsDatabase DB} `{ChunkHash} (stk : buf).

(** The part of a round before the lock: the size and the hash of the chunk at [off]. *)
Definition chunk_head (m : SendMsgBuffer_t) (off : Z) : result (Z * Z * bytes) :=
  szb ← data_read m off sizeof_uint32_t;
  let tmpChunkSize := le_dec szb in
  let off := u64 (off + sizeof_uint32_t) in
  d ← data_read m off (s32 tmpChunkSize);
  tmpHashStr ← chunk_hash d;
  Ok (off, tmpChunkSize, tmpHashStr).

(** A step that neither takes nor releases the lock. *)
Definition thread_step (ix : AbsIndex DB) (g : rng) (t : thread) : result (AbsIndex DB * rng * thread) :=
  let u := t_u t in
  let at_ pt := {| t_u := u; t_pt := pt |} in
  match t_pt t with
  | P_start =>
      let m := _recvChunkBuf u in
      Ok (count_batch (dataSize m) ix, g,
          at_ (P_loop (Z.to_nat (currentItemNum m)) 0 (replicate (Z.to_nat CONTAINER_ID_LENGTH) 0)))
  | P_loop O _ _ =>
      m ← data_clear (_recvChunkBuf u) (sendChunkBatchSize_ ix * sizeof_Chunk_t);
      Ok (ix, g, {| t_u := with_recvChunkBuf m u; t_pt := P_idle |})
  | P_loop (S n) off name =>
      '(off, size, h) ← chunk_head (_recvChunkBuf u) off;
      Ok (ix, g, at_ (P_lock n off size h name))
  | P_query n off size h name =>
      let '(status, name) := ReadIndexStore ix h name in
      Ok (ix, g, at_ (if status then P_unlock n off size name else P_save n off size h))
  | P_save n off size h =>
      '(name, sc, u, g) ← SaveChunk stk (sendBuffer (_recvChunkBuf u)) (dataOff off) size h (storageCoreObj_ ix) u g;
      Ok (with_core sc ix, g, {| t_u := u; t_pt := P_update n off size h name |})
  | P_update n off size h name =>
      let '(_, ix) := UpdateIndexStore h name ix in
      Ok (ix, g, at_ (P_count n off size name))
  | P_count n off size name =>
      Ok (count_unique (storageCoreObj_ ix) size ix, g, at_ (P_unlock n off size name))
  | P_idle | P_lock _ _ _ _ _ | P_unlock _ _ _ _ => Ok (ix, g, t)
  end.

(** The threads and what they share. *)
Record uploads := { g_ix : AbsIndex DB; g_rng : rng; outIdxLck_ : option nat; g_threads : list thread }.

Definition with_thread (i : nat) (t : thread) (s : uploads) : uploads :=
  {| g_ix := g_ix s; g_rng := g_rng s; outIdxLck_ := outIdxLck_ s; g_threads := <[i := t]> (g_threads s) |}.
Definition with_lock (o : option nat) (s : uploads) : uploads :=
  {| g_ix := g_ix s; g_rng := g_rng s; outIdxLck_ := o; g_threads := g_threads s |}.

(** Thread [i] makes its next step; [None] when it cannot. *)
Definition step (i : nat) (s : uploads) : option (result uploads) :=
  match g_threads s !! i with
  | None => None
  | Some t =>
      match t_pt t with
      | P_idle => None
      | P_lock n off size h name =>
          match outIdxLck_ s with
          | Some _ => None
          | None => Some (Ok (with_thread i {| t_u := t_u t; t_pt := P_query n off size h name |} (with_lock (Some i) s)))
          end
      | P_unlock n off size name =>
          Some (Ok (with_thread i {| t_u := t_u t; t_pt := P_loop n (u64 (off + size)) name |} (with_lock None s)))
      | _ => Some ('(ix, g, t) ← thread_step (g_ix s) (g_rng s) t;
                   Ok {| g_ix := ix; g_rng := g; outIdxLck_ := outIdxLck_ s; g_threads := <[i := t]> (g_threads s) |})
      end
  end.

(** What the threads can do from [s0], with the batches their clients have sent so far:
    an idle thread gets the next batch into its buffer, or some thread makes a step. *)
Inductive reached (s0 : uploads) : list (nat * list bytes) → uploads → Prop :=
| reached_start : reached s0 [] s0
| reached_receive log s i t m ds : reached s0 log s → g_threads s !! i = Some t → t_pt t = P_idle →
    holds_batch (with_recvChunkBuf m (t_u t)) ds → dataCap m = dataCap (_recvChunkBuf (t_u t)) →
    reached s0 (log ++ [(i, ds)]) (with_thread i {| t_u := with_recvChunkBuf m (t_u t); t_pt := P_start |} s)
| reached_step log s i s' : reached s0 log s → step i s = Some (Ok s') → reached s0 log s'.

(** ** A thread on its own *)

(** What is left of the locked part. *)
Definition rest_save (ix : AbsIndex DB) (g : rng) (u : UploadState) (off size : Z) (h : bytes) :
    result (AbsIndex DB * rng * UploadState * bytes) :=
  '(name, sc, u, g) ← SaveChunk stk (sendBuffer (_recvChunkBuf u)) (dataOff off) size h (storageCoreObj_ ix) u g;
  let '(_, ix) := UpdateIndexStore h name ix in
  Ok (count_unique sc size ix, g, u, name).

Definition rest_query (ix : AbsIndex DB) (g : rng) (u : UploadState) (off size : Z) (h name : bytes) :
    result (AbsIndex DB * rng * UploadState * bytes) :=
  let '(status, name) := ReadIndexStore ix h name in
  if negb status then rest_save ix g u off size h else Ok (ix, g, u, name).

(** The state after the thread [t] has left the locked part. *)
Definition finish (ix : AbsIndex DB) (g : rng) (t : thread) : result (AbsIndex DB * rng * thread) :=
  let leave n off size (r : result (AbsIndex DB * rng * UploadState * bytes)) :=
    '(ix, g, u, name) ← r; Ok (ix, g, {| t_u := u; t_pt := P_loop n (u64 (off + size)) name |}) in
  match t_pt t with
  | P_query n off size h name => leave n off size (rest_query ix g (t_u t) off size h name)
  | P_save n off size h => leave n off size (rest_save ix g (t_u t) off size h)
  | P_update n off size h name =>
      let '(_, ix) := UpdateIndexStore h name ix in
      leave n off size (Ok (count_unique (storageCoreObj_ ix) size ix, g, t_u t, name))
  | P_count n off size name => leave n off size (Ok (count_unique (storageCoreObj_ ix) size ix, g, t_u t, name))
  | P_unlock n off size name => leave n off size (Ok (ix, g, t_u t, name))
  | _ => Ok (ix, g, t)
  end.

Definition locked (pt : point) : bool :=
  match pt with
  | P_query _ _ _ _ _ | P_save _ _ _ _ | P_update _ _ _ _ _ | P_count _ _ _ _ | P_unlock _ _ _ _ => true
  | _ => false
  end.

(** A step in the locked part does not change where it ends. *)
Lemma finish_step ix g t ix' g' t' : locked (t_pt t) = true → thread_step ix g t = Ok (ix', g', t') →
  finish ix' g' t' = finish ix g t ∧ locked (t_pt t') = true.
Proof.
  unfold thread_step, finish. destruct t as [u pt]. destruct pt; try done; simpl; intros _ E.
  - unfold rest_query, ReadIndexStore in *. destruct (Query _ _ _) as [[] nm]; inv_ok; done.
  - unfold rest_save in *. inv_ok. destruct r as [[[nm sc] u1] g1]. inv_ok. simpl. split; [|done].
    rewrite E0. unfold UpdateIndexStore. simpl. by destruct (Insert _ _ _).
  - destruct (UpdateIndexStore _ _ ix) as [b ix1] eqn:E1. inv_ok. done.
  - by inv_ok.
  - by inv_ok.
Qed.

(** The locked part is one step and then the rest of it, faults included. *)
Lemma finish_unfold ix g t : locked (t_pt t) = true →
  finish ix g t = ('(ix, g, t) ← thread_step ix g t; finish ix g t).
Proof.
  unfold thread_step, finish. destruct t as [u pt]. destruct pt; try done; simpl; intros _.
  - unfold rest_query, ReadIndexStore. by destruct (Query _ _ _) as [[] nm].
  - unfold rest_save. destruct (SaveChunk _ _ _ _ _ _ _ _) as [[[[nm sc] u1] g1]|]; [|done]. simpl.
    unfold UpdateIndexStore. simpl. by destruct (Insert _ _ _).
  - by destruct (UpdateIndexStore _ _ ix).
Qed.

(** A step of the locked part is possible when its end is. *)
Lemma finish_progress ix g t r : locked (t_pt t) = true → finish ix g t = Ok r →
  ∃ ix' g' t', thread_step ix g t = Ok (ix', g', t').
Proof.
  intros Hl E. rewrite finish_unfold in E by done.
  destruct (thread_step ix g t) as [[[ix' g'] t']|]; [eauto|done].
Qed.

(** One round without interruption is [process_chunk]. *)
Lemma round_process_chunk ix u g n off name :
  process_chunk stk ix u g off name =
  ('(off, size, h) ← chunk_head (_recvChunkBuf u) off;
   '(ix, g, t) ← finish ix g {| t_u := u; t_pt := P_query n off size h name |};
   match t_pt t with P_loop _ off name => Ok (ix, t_u t, g, off, name) | _ => Err UB end).
Proof.
  unfold process_chunk, chunk_head, finish. simpl. destruct (data_read _ _ _) as [szb|]; [|done]. simpl.
  destruct (data_read _ _ _) as [d|]; [|done]. simpl. destruct (chunk_hash d) as [h|]; [|done]. simpl.
  unfold rest_query, rest_save. destruct (ReadIndexStore ix h name) as [[] nm]; simpl; [done|].
  destruct (SaveChunk _ _ _ _ _ _ _ _) as [[[[nm' sc] u1] g1]|]; [|done]. simpl.
  by destruct (UpdateIndexStore _ _ _).
Qed.

(** Counting a batch commutes with the locked part of another thread. *)
Lemma finish_count_batch k ix g t :
  finish (count_batch k ix) g t = ('(ix, g, t) ← finish ix g t; Ok (count_batch k ix, g, t)).
Proof.
  destruct t as [u pt]. unfold finish. destruct pt; try done; simpl.
  - unfold rest_query, rest_save, ReadIndexStore. simpl. destruct (Query _ _ _) as [[] nm]; [done|]. simpl.
    destruct (SaveChunk _ _ _ _ _ _ _ _) as [[[[nm' sc] u1] g1]|]; [|done]. simpl.
    unfold UpdateIndexStore. simpl. by destruct (Insert _ _ _).
  - unfold rest_save. simpl. destruct (SaveChunk _ _ _ _ _ _ _ _) as [[[[nm' sc] u1] g1]|]; [|done]. simpl.
    unfold UpdateIndexStore. simpl. by destruct (Insert _ _ _).
  - unfold UpdateIndexStore. simpl. by destruct (Insert _ _ _).
Qed.

(** The steps outside the lock, other than waiting for it or for a batch. *)
Definition quiet (pt : point) : bool :=
  match pt with P_start | P_loop _ _ _ => true | _ => false end.

(** They read and change nothing that the locked part of another thread uses. *)
Lemma quiet_step ix g t ix1 g1 t1 : quiet (t_pt t) = true → thread_step ix g t = Ok (ix1, g1, t1) →
  g1 = g ∧ locked (t_pt t1) = false ∧ ∃ f : AbsIndex DB → AbsIndex DB, ix1 = f ix ∧
    (∀ ix' g', sendChunkBatchSize_ ix' = sendChunkBatchSize_ ix → thread_step ix' g' t = Ok (f ix', g', t1)) ∧
    (∀ ix' g' t', finish (f ix') g' t' = ('(ix2, g2, t2) ← finish ix' g' t'; Ok (f ix2, g2, t2))).
Proof.
  assert (Hid : ∀ ix' g' t', finish ix' g' t' = ('(ix2, g2, t2) ← finish ix' g' t'; Ok (ix2, g2, t2))).
  { intros ix' g' t'. by destruct (finish ix' g' t') as [[[??]?]|]. }
  unfold thread_step. destruct t as [u pt]. destruct pt as [| |[|n] off name| | | | | |]; try done; simpl; intros _ E.
  1, 2: inv_ok.
  - split_and!; [done..|]. exists (count_batch (dataSize (_recvChunkBuf u))). split_and!; [done..|]. apply finish_count_batch.
  - split_and!; [done..|]. exists (λ ix, ix). split_and!; [done| |done]. intros ix' g' ->. by rewrite E0.
  - destruct (chunk_head _ _) as [[[off1 size] h]|]; [|done]. simpl in E. injection E as <- <- <-.
    split_and!; [done..|]. exists (λ ix, ix). by split_and!.
Qed.

Lemma finish_send ix g t ix' g' t' : finish ix g t = Ok (ix', g', t') → sendChunkBatchSize_ ix' = sendChunkBatchSize_ ix.
Proof.
  assert (Hsave : ∀ u off size h r, rest_save ix g u off size h = Ok r → sendChunkBatchSize_ r.1.1.1 = sendChunkBatchSize_ ix).
  { intros u off size h r. unfold rest_save, UpdateIndexStore.
    destruct (SaveChunk _ _ _ _ _ _ _ _) as [[[[nm sc] u1] g1]|]; [|done]. simpl.
    destruct (Insert _ _ _). intros [= <-]. done. }
  unfold finish. destruct t as [u pt]. destruct pt; cbn [t_pt t_u]; try by intros [= <- <- <-].
  - unfold rest_query, ReadIndexStore. destruct (Query _ _ _) as [[] nm]; simpl; [by intros [= <- <- <-]|].
    destruct (rest_save _ _ _ _ _ _) as [[[[ix1 g1] u1] nm1]|] eqn:E; [|done]. simpl. intros [= <- <- <-]. apply (Hsave _ _ _ _ _ E).
  - destruct (rest_save _ _ _ _ _ _) as [[[[ix1 g1] u1] nm1]|] eqn:E; [|done]. simpl. intros [= <- <- <-]. apply (Hsave _ _ _ _ _ E).
  - unfold UpdateIndexStore. destruct (Insert _ _ _). by intros [= <- <- <-].
Qed.

(** *** How much is left to do *)

Definition point_work (u : UploadState) (pt : point) : nat :=
  match pt with
  | P_idle => 0
  | P_start => 7 * Z.to_nat (currentItemNum (_recvChunkBuf u)) + 2
  | P_loop n _ _ => 7 * n + 1
  | P_lock n _ _ _ _ => 7 * n + 7
  | P_query n _ _ _ _ => 7 * n + 6
  | P_save n _ _ _ => 7 * n + 5
  | P_update n _ _ _ _ => 7 * n + 4
  | P_count n _ _ _ => 7 * n + 3
  | P_unlock n _ _ _ => 7 * n + 2
  end.
Definition work (s : uploads) : nat := sum_list ((λ t, point_work (t_u t) (t_pt t)) <$> g_threads s).

Lemma thread_step_work ix g t ix' g' t' : quiet (t_pt t) || locked (t_pt t) = true →
  (∀ n off size name, t_pt t ≠ P_unlock n off size name) → thread_step ix g t = Ok (ix', g', t') →
  (point_work (t_u t') (t_pt t') < point_work (t_u t) (t_pt t))%nat.
Proof.
  unfold thread_step. destruct t as [u pt]. destruct pt as [| |[|n] off name| | | | | |]; try done; cbn [t_pt t_u];
    intros _ Hu E; inv_ok.
  - simpl. lia.
  - simpl. lia.
  - destruct r as [[??]?]. inv_ok. simpl. lia.
  - destruct (ReadIndexStore _ _ _) as [[] ?]; inv_ok; simpl; lia.
  - destruct r as [[[??]?]?]. inv_ok. simpl. lia.
  - destruct (UpdateIndexStore _ _ _). inv_ok. simpl. lia.
  - simpl. lia.
  - by destruct (Hu n off size name).
Qed.

Lemma sum_list_insert {A} (f : A → nat) (l : list A) i x y : l !! i = Some x → (f y < f x)%nat →
  (sum_list (f <$> <[i := y]> l) < sum_list (f <$> l))%nat.
Proof.
  revert i. induction l as [|z l IH]; intros [|i] Hi Hlt; try done; simpl in *.
  - injection Hi as ->. lia.
  - apply Nat.add_lt_mono_l. by apply IH.
Qed.

Lemma step_work i s s' : step i s = Some (Ok s') → (work s' < work s)%nat.
Proof.
  unfold step, work. destruct (g_threads s !! i) as [t|] eqn:Ht; [|done].
  assert (Hgo : ∀ t', (point_work (t_u t') (t_pt t') < point_work (t_u t) (t_pt t))%nat →
    (sum_list ((λ t, point_work (t_u t) (t_pt t)) <$> <[i := t']> (g_threads s)) <
     sum_list ((λ t, point_work (t_u t) (t_pt t)) <$> g_threads s))%nat).
  { intros t'. by apply (sum_list_insert (λ t, point_work (t_u t) (t_pt t))). }
  destruct (t_pt t) eqn:Hpt; try done.
  3: destruct (outIdxLck_ s); [done|].
  all: intros E; injection E as E; first
    [ subst s'; apply Hgo; simpl; lia
    | destruct (thread_step _ _ _) as [[[ix1 g1] t1]|] eqn:Es; [|done]; injection E as <-;
      apply Hgo; rewrite <- Hpt; eapply thread_step_work; [|intros ????|exact Es]; by rewrite Hpt ].
Qed.
End IndexThreads.
Arguments uploads DB : clear implicits.

(** ** The invariant *)

Section Invariant.
Context `{AbsDatabaseLaws DB} `{ChunkHashOk hash} (stk : buf) (c0 s0 : Z) (others : list group).
Implicit Types (ix : AbsIndex DB) (s : uploads DB) (ts : list thread) (aa : list astate).

(** The containers of one upload. *)
Record thread_repr (a : astate) (t : thread) : Prop := {
  tp_cont : cont_repr (a_n0 a) (_curContainer (t_u t)) (a_es a);
  tp_id : containerID (_curContainer (t_u t)) = a_id a;
  tp_sealed : Forall2 sealed_as (a_sealed a) (pushed (_inputMQ (t_u t))) }.

Definition all_groups aa : list group := aa ≫= a_groups.

(** The index and its counters are about the containers of all uploads. *)
Record linked aa ix ts : Prop := {
  lk_threads : Forall2 thread_repr aa ts;
  lk_index : index_ok (indexStore_ ix) (others ++ all_groups aa);
  lk_num : _uniqueChunkNum ix = u64 (c0 + zlen (all_entries (all_groups aa)));
  lk_size : _uniqueDataSize ix = u64 (s0 + zlen (data_bytes (all_entries (all_groups aa)))) }.

Definition without (i : nat) aa : list astate := take i aa ++ drop (S i) aa.

Lemma without_perm i aa a : aa !! i = Some a → all_groups aa ≡ₚ all_groups (without i aa) ++ a_groups a.
Proof.
  intros Hi. unfold all_groups, without. rewrite <- (take_drop_middle aa i a Hi) at 1.
  rewrite !bind_app, bind_cons, <- !app_assoc. apply Permutation_app_head, Permutation_app_comm.
Qed.

Lemma without_insert i aa a : (i < length aa)%nat → without i (<[i := a]> aa) = without i aa.
Proof.
  intros Hi. unfold without. rewrite take_insert_ge by lia. by rewrite drop_insert_lt by lia.
Qed.

Lemma entries_perm gs gs' : gs ≡ₚ gs' → all_entries gs ≡ₚ all_entries gs'.
Proof. intros Hp. unfold all_entries. by apply bind_Permutation. Qed.
Lemma hashes_perm gs gs' : gs ≡ₚ gs' → hashes gs ≡ₚ hashes gs'.
Proof. intros Hp. unfold hashes. by apply fmap_Permutation, entries_perm. Qed.
Lemma zlen_perm {A} (l l' : list A) : l ≡ₚ l' → zlen l = zlen l'.
Proof. intros Hp. unfold zlen. by rewrite Hp. Qed.
Lemma data_perm (es es' : list entry) : es ≡ₚ es' → zlen (data_bytes es) = zlen (data_bytes es').
Proof.
  induction 1 as [|e es es' _ IH|e e' es|es es' es'' _ IH1 _ IH2]; [done| | |congruence];
    unfold data_bytes in *; csimpl; zlia.
Qed.
Lemma index_ok_perm (db : DB) gs gs' : gs ≡ₚ gs' → index_ok db gs → index_ok db gs'.
Proof. intros Hp Hix h n. rewrite (Hix h n). split; intros (es & ? & ?); exists es; (split; [|done]); by rewrite Hp || rewrite <- Hp. Qed.

(** One upload against all others. *)
Definition with_supply (g : rng) (a : astate) : astate :=
  {| a_sealed := a_sealed a; a_id := a_id a; a_n0 := a_n0 a; a_es := a_es a; a_g := g |}.
Definition outside (i : nat) aa : list group := others ++ all_groups (without i aa).
Definition num_outside (i : nat) aa : Z := c0 + zlen (all_entries (all_groups (without i aa))).
Definition size_outside (i : nat) aa : Z := s0 + zlen (data_bytes (all_entries (all_groups (without i aa)))).

Lemma outside_perm i aa a : aa !! i = Some a → others ++ all_groups aa ≡ₚ outside i aa ++ a_groups a.
Proof. intros Hi. unfold outside. by rewrite (without_perm i aa a Hi), app_assoc. Qed.

Lemma linked_counts i aa a : aa !! i = Some a →
  zlen (all_entries (all_groups aa)) = zlen (all_entries (all_groups (without i aa))) + zlen (all_entries (a_groups a)) ∧
  zlen (data_bytes (all_entries (all_groups aa))) =
    zlen (data_bytes (all_entries (all_groups (without i aa)))) + zlen (data_bytes (all_entries (a_groups a))).
Proof.
  intros Hi. pose proof (entries_perm _ _ (without_perm i aa a Hi)) as Hp.
  rewrite (zlen_perm _ _ Hp), (data_perm _ _ Hp), !all_entries_app, data_bytes_app. by rewrite !zlen_app.
Qed.

Lemma linked_repr aa ix ts i a t g : linked aa ix ts → aa !! i = Some a → ts !! i = Some t →
  repr (num_outside i aa) (size_outside i aa) (outside i aa) (with_supply g a) ix (t_u t) g.
Proof.
  intros [Hts Hix Hn Hs] Ha Ht. destruct (Forall2_lookup_lr _ _ _ _ _ _ Hts Ha Ht) as [Hc Hid Hse].
  destruct (linked_counts i aa a Ha) as [E1 E2]. unfold num_outside, size_outside. split; try done.
  - eapply index_ok_perm; [|exact Hix]. by apply (outside_perm i aa a).
  - change (a_groups (with_supply g a)) with (a_groups a). by rewrite Hn, E1, Z.add_assoc.
  - change (a_groups (with_supply g a)) with (a_groups a). by rewrite Hs, E2, Z.add_assoc.
Qed.

Lemma repr_linked aa ix ts i a ix' t' g' : linked aa ix ts → (i < length aa)%nat →
  repr (num_outside i aa) (size_outside i aa) (outside i aa) a ix' (t_u t') g' →
  linked (<[i := a]> aa) ix' (<[i := t']> ts).
Proof.
  intros [Hts _ _ _] Hi [Hc Hid Hse _ Hix Hn Hs]. pose proof (list_lookup_insert_eq aa i a Hi) as Ha.
  destruct (linked_counts i _ a Ha) as [E1 E2]. pose proof (outside_perm i _ a Ha) as Hp.
  unfold outside, num_outside, size_outside in *. rewrite without_insert in * by done. split.
  - by apply Forall2_insert.
  - eapply index_ok_perm; [|exact Hix]. by rewrite Hp.
  - by rewrite Hn, E1, Z.add_assoc.
  - by rewrite Hs, E2, Z.add_assoc.
Qed.

(** *** What a thread still has to do *)

(** The chunks [ds] from [off] on in the receive buffer. *)
Record ahead (m : SendMsgBuffer_t) (n : nat) (off : Z) (ds : list bytes) : Prop := {
  ah_num : n = length ds;
  ah_off : 0 ≤ off;
  ah_sizes : Forall (λ d, zlen d ≤ MAX_CHUNK_SIZE) ds;
  ah_fits : off + zlen (payload ds) ≤ dataCap m < 2 ^ 32;
  ah_data : bread (sendBuffer m) (dataOff off) (zlen (payload ds)) = payload ds }.

Definition pending (t : thread) (ds : list bytes) : Prop :=
  match t_pt t with
  | P_idle => ds = []
  | P_start => holds_batch (t_u t) ds
  | P_loop n off _ => ahead (_recvChunkBuf (t_u t)) n off ds
  | P_lock n off size h _ => ∃ off0, ahead (_recvChunkBuf (t_u t)) (S n) off0 ds ∧
      chunk_head (_recvChunkBuf (t_u t)) off0 = Ok (off, size, h)
  | _ => False
  end.

Lemma ahead_cons m n off ds : ahead m (S n) off ds → ∃ d ds', ds = d :: ds' ∧ zlen d ≤ MAX_CHUNK_SIZE ∧
  off + zlen (frame d) ≤ dataCap m < 2 ^ 32 ∧ bread (sendBuffer m) (dataOff off) (zlen (frame d)) = frame d ∧
  ahead m n (off + zlen (frame d)) ds'.
Proof.
  intros [Hn Ho Hs Hf Hd]. destruct ds as [|d ds]; [done|]. exists d, ds. apply Forall_cons in Hs as [Hs1 Hs].
  change (payload (d :: ds)) with (frame d ++ payload ds) in *. rewrite zlen_app in Hf.
  pose proof (zlen_nonneg (frame d)). pose proof (zlen_nonneg (payload ds)).
  pose proof (bread_suffix _ _ _ _ Hd) as Hd2. apply bread_prefix in Hd.
  split_and!; [done|done|lia|lia|done|]. split; [simpl in Hn; lia|lia|done|lia|].
  unfold dataOff in *. by rewrite Z.add_assoc.
Qed.

(** The head of a round reads the next chunk's frame. *)
Lemma chunk_head_ok m off d : 0 ≤ off → zlen d ≤ MAX_CHUNK_SIZE → off + zlen (frame d) ≤ dataCap m < 2 ^ 32 →
  bread (sendBuffer m) (dataOff off) (zlen (frame d)) = frame d →
  chunk_head m off = Ok (off + 4, zlen d, hash d).
Proof.
  intros Ho Hs Hcap Hbuf. rewrite zlen_frame in *. pose proof (zlen_nonneg d).
  unfold frame in Hbuf. replace (4 + zlen d) with (zlen (le_enc 4 (zlen d) ++ d)) in Hbuf by zlia.
  pose proof (bread_prefix _ _ _ _ Hbuf) as Hsz. apply bread_suffix in Hbuf. rewrite zlen_le_enc in *.
  change (Z.of_nat 4) with 4 in *. unfold chunk_head. sizes.
  rewrite (data_read_ok _ off 4) by lia. simpl. rewrite Hsz, le_dec_enc4, s32_small, (u64_small (off + 4)) by lia.
  rewrite (data_read_ok _ (off + 4)) by lia. simpl.
  replace (dataOff (off + 4)) with (dataOff off + 4) by (unfold dataOff; lia). by rewrite Hbuf, hash_total by lia.
Qed.

(** The locked part of a round stores the chunk. *)
Lemma finish_round aa ix ts i a t g n off off' size h name ds : linked aa ix ts → aa !! i = Some a → ts !! i = Some t →
  t_pt t = P_lock n off size h name → ahead (_recvChunkBuf (t_u t)) (S n) off' ds →
  chunk_head (_recvChunkBuf (t_u t)) off' = Ok (off, size, h) →
  ∃ d ds' ix' g' t', ds = d :: ds' ∧
    finish stk ix g {| t_u := t_u t; t_pt := P_query n off size h name |} = Ok (ix', g', t') ∧
    linked (<[i := a_store hash (outside i aa) (with_supply g a) d]> aa) ix' (<[i := t']> ts) ∧
    g' = a_g (a_store hash (outside i aa) (with_supply g a) d) ∧ zlen d ≤ MAX_CHUNK_SIZE ∧
    (∃ off'' name', t_pt t' = P_loop n off'' name' ∧ ahead (_recvChunkBuf (t_u t')) n off'' ds') ∧
    _recvChunkBuf (t_u t') = _recvChunkBuf (t_u t) ∧ sendChunkBatchSize_ ix' = sendChunkBatchSize_ ix.
Proof.
  intros Hl Ha Ht Hpt Hah Hch. destruct (ahead_cons _ _ _ _ Hah) as (d & ds' & -> & Hd & Hfit & Hbuf & Hah').
  pose proof (linked_repr aa ix ts i a t g Hl Ha Ht) as Hrep.
  destruct (process_chunk_repr stk _ _ _ _ ix (t_u t) g off' d name Hrep (ah_off _ _ _ _ Hah) Hd Hfit Hbuf)
    as (ix' & u' & g' & name' & E & Hrep' & Hb & _ & Hz).
  rewrite (round_process_chunk stk ix (t_u t) g n off' name), Hch in E. cbn [mbind result_bind] in E.
  destruct (finish stk ix g _) as [[[ix1 g1] t1]|] eqn:Ef; [|done]. cbn [mbind result_bind] in E.
  destruct (t_pt t1) as [| |n1 off1 nm1| | | | | |] eqn:Ept; try done. injection E as -> <- -> -> ->.
  exists d, ds', ix', g', t1. assert (n1 = n) as ->.
  { clear -Ef Ept. unfold finish in Ef. cbn [t_pt] in Ef. destruct (rest_query _ _ _ _ _ _ _ _) as [[[[??]?]?]|]; [|done].
    simpl in Ef. injection Ef as <- <- <-. by injection Ept. }
  split_and!; [done|done| |apply Hrep'|done|by eexists _, _; rewrite Hb; split|by rewrite Hb|done].
  eapply (repr_linked aa ix ts i); [done| |done]. by eapply lookup_lt_Some.
Qed.

(** *** States with the lock free *)

(** A property of the containers and of the supply of names that storing a legal chunk
    keeps. *)
Context (K : list astate → rng → Prop).
Hypothesis K_store : ∀ i aa a g d, aa !! i = Some a → zlen d ≤ MAX_CHUNK_SIZE → K aa g →
  let a' := a_store hash (outside i aa) (with_supply g a) d in K (<[i := a']> aa) (a_g a').

(** [log] is what the clients have sent, [pends] what is still in the buffers. *)
Record calm (log : list (nat * list bytes)) aa (pends : list (list bytes)) ix g ts : Prop := {
  cm_keeps : K aa g;
  cm_linked : linked aa ix ts;
  cm_pending : Forall2 pending ts pends;
  cm_bufs : Forall (λ t, buf_ok ix (t_u t)) ts;
  cm_distinct : NoDup (hashes (others ++ all_groups aa));
  cm_sound : ∀ e, e ∈ all_entries (all_groups aa) → e.1 = hash e.2 ∧ ∃ i ds, (i, ds) ∈ log ∧ e.2 ∈ ds;
  cm_sent : ∀ i p d, pends !! i = Some p → d ∈ p → ∃ ds, (i, ds) ∈ log ∧ d ∈ ds;
  cm_stored : ∀ i ds d, (i, ds) ∈ log → d ∈ ds →
    hash d ∈ hashes (others ++ all_groups aa) ∨ ∃ p, pends !! i = Some p ∧ d ∈ p }.

Lemma calm_free log aa pends ix g ts i t : calm log aa pends ix g ts → ts !! i = Some t → locked (t_pt t) = false.
Proof.
  intros Hc Ht. destruct (Forall2_lookup_l _ _ _ _ _ (cm_pending _ _ _ _ _ _ Hc) Ht) as (p & _ & Hp).
  unfold pending in Hp. by destruct (t_pt t).
Qed.

(** A thread moves on with the same chunks ahead; the index changes at most in counters
    that nothing depends on. *)
Lemma calm_move log aa pends ix ix' g ts i t t' p : calm log aa pends ix g ts → ts !! i = Some t → pends !! i = Some p →
  (∀ a, thread_repr a t → thread_repr a t') → pending t' p → buf_ok ix (t_u t') →
  indexStore_ ix' = indexStore_ ix → _uniqueChunkNum ix' = _uniqueChunkNum ix →
  _uniqueDataSize ix' = _uniqueDataSize ix → sendChunkBatchSize_ ix' = sendChunkBatchSize_ ix →
  calm log aa pends ix' g (<[i := t']> ts).
Proof.
  intros [HK [Hts Hix Hn Hs] Hpe Hb Hd So Se St] Ht Hp Hrep Hp' Hb' E1 E2 E3 E4.
  assert (Hbuf : ∀ u, buf_ok ix u → buf_ok ix' u) by (unfold buf_ok; by rewrite E4).
  split; try done.
  - split; rewrite ?E1, ?E2, ?E3; try done.
    destruct (Forall2_lookup_r _ _ _ _ _ Hts Ht) as (a & Ha & Hr).
    rewrite <- (list_insert_id aa i a Ha). by apply Forall2_insert; [|apply Hrep].
  - rewrite <- (list_insert_id pends i p Hp). by apply Forall2_insert.
  - apply Forall_insert; [|by apply Hbuf]. eapply Forall_impl; [exact Hb|]. intros t0. apply Hbuf.
Qed.

(** A new batch. *)
Lemma calm_receive log aa pends ix g ts i t m ds : calm log aa pends ix g ts → ts !! i = Some t → t_pt t = P_idle →
  holds_batch (with_recvChunkBuf m (t_u t)) ds → dataCap m = dataCap (_recvChunkBuf (t_u t)) →
  calm (log ++ [(i, ds)]) aa (<[i := ds]> pends) ix g (<[i := {| t_u := with_recvChunkBuf m (t_u t); t_pt := P_start |}]> ts).
Proof.
  intros [HK [Hts Hix Hn Hs] Hpe Hb Hd So Se St] Ht Hpt Hm Hcap.
  destruct (Forall2_lookup_l _ _ _ _ _ Hpe Ht) as (p & Hp & Hpp). unfold pending in Hpp. rewrite Hpt in Hpp. subst p.
  assert (Hi : (i < length pends)%nat) by (by eapply lookup_lt_Some). split; try done.
  - split; try done. destruct (Forall2_lookup_r _ _ _ _ _ Hts Ht) as (a & Ha & Hr).
    rewrite <- (list_insert_id aa i a Ha). apply Forall2_insert; [done|]. by destruct Hr.
  - by apply Forall2_insert.
  - apply Forall_insert; [done|]. pose proof (Forall_lookup_1 _ _ _ _ Hb Ht) as [Hc Hz]. split; [|done]. by simpl; rewrite Hcap.
  - intros e He. destruct (So e He) as [? (j & dd & ? & ?)]. split; [done|]. exists j, dd. split; [|done]. apply elem_of_app. by left.
  - intros j q d Hq Hin. destruct (decide (i = j)) as [<-|Hne].
    + rewrite list_lookup_insert_eq in Hq by done. injection Hq as <-. exists ds. split; [|done]. apply elem_of_app. right. left.
    + rewrite list_lookup_insert_ne in Hq by done. destruct (Se j q d Hq Hin) as (dd & ? & ?). exists dd. split; [|done].
      apply elem_of_app. by left.
  - intros j dd d [Hin|Hin]%elem_of_app Hd'.
    + destruct (St j dd d Hin Hd') as [?|(q & Hq & Hdq)]; [by left|]. right. destruct (decide (i = j)) as [<-|Hne].
      * rewrite Hp in Hq. injection Hq as <-. by apply elem_of_nil in Hdq.
      * exists q. by rewrite list_lookup_insert_ne.
    + apply list_elem_of_singleton in Hin. injection Hin as -> ->. right. exists ds. by rewrite list_lookup_insert_eq.
Qed.

(** What storing a chunk does to all groups. *)
Lemma store_groups i aa a g d : aa !! i = Some a →
  let a' := a_store hash (outside i aa) (with_supply g a) d in
  let gs := others ++ all_groups aa in let gs' := others ++ all_groups (<[i := a']> aa) in
  (NoDup (hashes gs) → NoDup (hashes gs')) ∧ hash d ∈ hashes gs' ∧ (∀ h, h ∈ hashes gs → h ∈ hashes gs') ∧
  ∀ e, e ∈ all_entries (all_groups (<[i := a']> aa)) → e ∈ all_entries (all_groups aa) ∨ e = (hash d, d).
Proof.
  intros Ha a' gs gs'. pose proof (lookup_lt_Some _ _ _ Ha) as Hi.
  pose proof (list_lookup_insert_eq aa i a' Hi) as Ha'.
  pose proof (outside_perm i aa a Ha) as P1. pose proof (outside_perm i _ a' Ha') as P2.
  unfold outside in P2. rewrite without_insert in P2 by done. fold (outside i aa) in P2.
  assert (H1' : hashes gs ≡ₚ hashes (outside i aa ++ a_groups (with_supply g a))) by (by apply hashes_perm).
  assert (H2' : hashes gs' ≡ₚ hashes (outside i aa ++ a_groups a')) by (by apply hashes_perm).
  assert (Hent : all_entries (a_groups a') = all_entries (a_groups a) ∨
    all_entries (a_groups a') = all_entries (a_groups a) ++ [(hash d, d)]).
  { unfold a', a_store. case_bool_decide; [by left|right].
    change (a_groups a) with (a_groups (with_supply g a)). apply a_place_entries. }
  assert (Hk : (∀ h, h ∈ hashes gs → h ∈ hashes gs') ∧ hash d ∈ hashes gs' ∧ (NoDup (hashes gs) → NoDup (hashes gs'))).
  { unfold a', a_store in H2'. case_bool_decide as Hin.
    - split_and!; [intros h; by rewrite H1', H2'|by rewrite H2'|by rewrite H1', H2'].
    - rewrite a_place_hashes in H2'. simpl in H2'. split_and!.
      + intros h. rewrite H1', H2'. intros. apply elem_of_app. by left.
      + rewrite H2'. apply elem_of_app. right. left.
      + rewrite H1', H2'. intros Hnd. apply NoDup_app. split_and!; [done| |apply NoDup_singleton].
        intros h Hh ->%list_elem_of_singleton. done. }
  destruct Hk as (K1 & K2 & K3). split_and!; [done..|]. intros e He.
  pose proof (entries_perm _ _ (without_perm i _ a' Ha')) as E'. rewrite without_insert in E' by done.
  rewrite E', all_entries_app in He. rewrite (entries_perm _ _ (without_perm i aa a Ha)), all_entries_app.
  rewrite elem_of_app in He |- *. destruct He as [He|He]; [by left; left|].
  destruct Hent as [E|E]; rewrite E in He; [by left; right|].
  apply elem_of_app in He as [?|?%list_elem_of_singleton]; [by left; right|by right].
Qed.

(** A round is finished. *)
Lemma calm_round log aa pends ix g ts i a t n off off' size h name ds : calm log aa pends ix g ts →
  aa !! i = Some a → ts !! i = Some t → pends !! i = Some ds →
  t_pt t = P_lock n off size h name → ahead (_recvChunkBuf (t_u t)) (S n) off' ds →
  chunk_head (_recvChunkBuf (t_u t)) off' = Ok (off, size, h) →
  ∃ ix' g' t' aa' pends', finish stk ix g {| t_u := t_u t; t_pt := P_query n off size h name |} = Ok (ix', g', t') ∧
    calm log aa' pends' ix' g' (<[i := t']> ts).
Proof.
  intros [HK Hl Hpe Hb Hd So Se St] Ha Ht Hp Hpt Hah Hch.
  destruct (finish_round aa ix ts i a t g n off off' size h name ds Hl Ha Ht Hpt Hah Hch)
    as (d & ds' & ix' & g' & t' & -> & E & Hl' & Eg & Hlen & (off'' & name' & Hpt' & Hah') & Hbuf & Hz).
  destruct (store_groups i aa a g d Ha) as (G1 & G2 & G3 & G4). pose proof (lookup_lt_Some _ _ _ Hp) as Hi.
  exists ix', g', t', (<[i := a_store hash (outside i aa) (with_supply g a) d]> aa), (<[i := ds']> pends). split; [exact E|]. split; [rewrite Eg; by apply K_store|exact Hl'| | |by apply G1| | |].
  - apply Forall2_insert; [done|]. unfold pending. by rewrite Hpt'.
  - assert (Hbuf' : ∀ u, buf_ok ix u → buf_ok ix' u) by (unfold buf_ok; by rewrite Hz).
    apply Forall_insert; [eapply Forall_impl; [exact Hb|]; intros t0; apply Hbuf'|].
    apply Hbuf'. pose proof (Forall_lookup_1 _ _ _ _ Hb Ht) as Hbt. unfold buf_ok in *. by rewrite Hbuf.
  - intros e [He| ->]%G4; [by apply So|]. split; [done|]. destruct (Se i _ d Hp) as (dd & ? & ?); [left|]. by exists i, dd.
  - intros j q x Hq Hx. destruct (decide (i = j)) as [<-|Hne].
    + rewrite list_lookup_insert_eq in Hq by done. injection Hq as <-. eapply Se; [exact Hp|by right].
    + rewrite list_lookup_insert_ne in Hq by done. by eapply Se.
  - intros j dd x Hin Hx. destruct (St j dd x Hin Hx) as [?|(q & Hq & Hxq)]; [by left; apply G3|].
    destruct (decide (i = j)) as [<-|Hne]; [|right; exists q; by rewrite list_lookup_insert_ne].
    rewrite Hp in Hq. injection Hq as <-. apply elem_of_cons in Hxq as [->|Hxq]; [by left|right].
    exists ds'. by rewrite list_lookup_insert_eq.
Qed.
(** *** The invariant of every state *)

(** The state once the holder of the lock, if any, has left the locked part. *)
Definition settle s : result (AbsIndex DB * rng * list thread) :=
  match outIdxLck_ s with
  | None => Ok (g_ix s, g_rng s, g_threads s)
  | Some i =>
      match g_threads s !! i with
      | Some t => '(ix, g, t) ← finish stk (g_ix s) (g_rng s) t; Ok (ix, g, <[i := t]> (g_threads s))
      | None => Err UB
      end
  end.

(** The thread in the locked part is the holder of the lock. *)
Definition holder s : Prop := ∀ i t, g_threads s !! i = Some t → (locked (t_pt t) = true ↔ outIdxLck_ s = Some i).

Definition inv (log : list (nat * list bytes)) s : Prop :=
  holder s ∧ ∃ ix g ts aa pends, settle s = Ok (ix, g, ts) ∧ calm log aa pends ix g ts.

(** The step of a quiet thread keeps [calm]. *)
Lemma calm_quiet log aa pends ix g ts i t : calm log aa pends ix g ts → ts !! i = Some t → quiet (t_pt t) = true →
  ∃ ix' t', thread_step stk ix g t = Ok (ix', g, t') ∧ calm log aa pends ix' g (<[i := t']> ts).
Proof.
  intros Hc Ht Hq. pose proof (Forall_lookup_1 _ _ _ _ (cm_bufs _ _ _ _ _ _ Hc) Ht) as Hb.
  destruct (Forall2_lookup_l _ _ _ _ _ (cm_pending _ _ _ _ _ _ Hc) Ht) as (p & Hp & Hpp).
  assert (Hlt : 0 ≤ dataCap (_recvChunkBuf (t_u t)) < 2 ^ 32).
  { destruct Hb as [-> Hb]. unfold sizeof_Chunk_t. sizes. lia. }
  unfold pending in Hpp. unfold thread_step. destruct t as [u pt].
  destruct pt as [| |[|n] off name| | | | | |]; try done; cbn [t_pt t_u] in *.
  - destruct Hpp as [Hnum Hsz Hfit Hdata]. eexists _, _. split; [done|].
    eapply calm_move; [exact Hc|exact Ht|exact Hp|by destruct 1| |exact Hb|done..]. unfold pending. simpl.
    split; [|lia|done|lia|done]. by rewrite Hnum, to_nat_zlen.
  - destruct Hb as [Hcap Hz]. unfold data_clear. rewrite <- Hcap, !(proj2 (Z.leb_le _ _)) by lia. simpl.
    eexists _, _. split; [done|]. eapply calm_move; [exact Hc|exact Ht|exact Hp|by destruct 1| |by split|done..].
    unfold pending. simpl. destruct Hpp as [Hn _ _ _ _]. by destruct p.
  - destruct (ahead_cons _ _ _ _ Hpp) as (d & ds & -> & Hd & Hfit & Hbuf & _).
    pose proof (chunk_head_ok _ _ _ (ah_off _ _ _ _ Hpp) Hd Hfit Hbuf) as Hch. rewrite Hch. simpl.
    eexists _, _. split; [done|]. eapply calm_move; [exact Hc|exact Ht|exact Hp|by destruct 1| |exact Hb|done..].
    unfold pending. simpl. by exists off.
Qed.

(** The same step beside the holder of the lock. *)
Lemma settle_quiet s ix g ts i t ix1 t1 : settle s = Ok (ix, g, ts) → outIdxLck_ s ≠ Some i →
  g_threads s !! i = Some t → quiet (t_pt t) = true → thread_step stk ix g t = Ok (ix1, g, t1) →
  ts !! i = Some t ∧ locked (t_pt t1) = false ∧ ∃ ix2, thread_step stk (g_ix s) (g_rng s) t = Ok (ix2, g_rng s, t1) ∧
    settle {| g_ix := ix2; g_rng := g_rng s; outIdxLck_ := outIdxLck_ s; g_threads := <[i := t1]> (g_threads s) |} =
    Ok (ix1, g, <[i := t1]> ts).
Proof.
  unfold settle. simpl. intros Hs Hne Ht Hq Hstep.
  destruct (quiet_step stk _ _ _ _ _ _ Hq Hstep) as (_ & Hl & f & -> & Hf & Hfin).
  destruct (outIdxLck_ s) as [j|].
  - assert (Hij : j ≠ i) by congruence. destruct (g_threads s !! j) as [tj|] eqn:Hj; [|done].
    destruct (finish stk (g_ix s) (g_rng s) tj) as [[[ix3 g3] tj']|] eqn:Ef; [|done]. injection Hs as -> -> <-.
    rewrite list_lookup_insert_ne by done. split_and!; [done..|]. exists (f (g_ix s)).
    split; [apply Hf; symmetry; by eapply finish_send|].
    rewrite list_lookup_insert_ne, Hj by done. rewrite Hfin, Ef. simpl. by rewrite list_insert_insert_ne.
  - injection Hs as <- <- <-. split_and!; [done..|]. eauto.
Qed.

Lemma holder_insert s i t ix g o ts' : holder s → ts' = <[i := t]> (g_threads s) → (i < length (g_threads s))%nat →
  (locked (t_pt t) = true ↔ o = Some i) → (∀ j, j ≠ i → o = Some j ↔ outIdxLck_ s = Some j) →
  holder {| g_ix := ix; g_rng := g; outIdxLck_ := o; g_threads := ts' |}.
Proof.
  intros Hh -> Hi Hl Ho j tj Hj. simpl in *. destruct (decide (i = j)) as [<-|Hne].
  - rewrite list_lookup_insert_eq in Hj by done. by injection Hj as <-.
  - rewrite list_lookup_insert_ne in Hj by done. rewrite Ho by done. by apply Hh.
Qed.

(** A thread that is not idle makes its step without a fault, unless it waits for the
    lock; the invariant is kept. *)
Lemma inv_step log s i t : inv log s → g_threads s !! i = Some t →
  (step stk i s = None ∧ (t_pt t = P_idle ∨ is_Some (outIdxLck_ s) ∧ locked (t_pt t) = false)) ∨
  ∃ s', step stk i s = Some (Ok s') ∧ inv log s'.
Proof.
  intros [Hh (ix & g & ts & aa & pends & Hs & Hc)] Ht. pose proof (lookup_lt_Some _ _ _ Ht) as Hi.
  pose proof (Hh i t Ht) as Hl. unfold step. rewrite Ht.
  destruct (quiet (t_pt t)) eqn:Hq.
  { assert (Hne : outIdxLck_ s ≠ Some i). { rewrite <- Hl. by destruct (t_pt t). }
    assert (Hti : ts !! i = Some t).
    { unfold settle in Hs. destruct (outIdxLck_ s) as [j|]; [|by injection Hs as <- <- <-].
      destruct (g_threads s !! j); [|done]. inv_ok. destruct r as [[??]?]. inv_ok. by rewrite list_lookup_insert_ne by congruence. }
    destruct (calm_quiet log aa pends ix g ts i t Hc Hti Hq) as (ix1 & t1 & E1 & Hc1).
    destruct (settle_quiet s ix g ts i t ix1 t1 Hs Hne Ht Hq E1) as (_ & Hl1 & ix2 & E2 & Hs2).
    right. rewrite E2. eexists. split; [by destruct (t_pt t)|]. split.
    - eapply holder_insert; [done..|by rewrite Hl1|done].
    - by eexists _, _, _, _, _. }
  destruct (locked (t_pt t)) eqn:Hlk.
  - right. assert (Ho : outIdxLck_ s = Some i) by (by apply Hl). unfold settle in Hs. rewrite Ho, Ht in Hs.
    destruct (finish stk (g_ix s) (g_rng s) t) as [[[ix3 g3] t3]|] eqn:Ef; [|done]. injection Hs as -> -> <-.
    destruct (finish_progress stk _ _ _ _ Hlk Ef) as (ix1 & g1 & t1 & E1).
    destruct (finish_step stk _ _ _ _ _ _ Hlk E1) as [Ef1 Hlk1].
    assert (Hgo : inv log {| g_ix := ix1; g_rng := g1; outIdxLck_ := outIdxLck_ s; g_threads := <[i := t1]> (g_threads s) |}).
    { split; [by eapply holder_insert; [done..|by rewrite Hlk1|done]|].
      eexists _, _, _, _, _. split; [|exact Hc]. unfold settle. simpl.
      rewrite Ho, list_lookup_insert_eq by done. rewrite Ef1, Ef. simpl. by rewrite list_insert_insert_eq. }
    destruct (t_pt t) as [| | | | | | | |n off size name] eqn:Hpt; try done.
    1-4: rewrite E1; simpl; eauto.
    eexists. split; [done|]. unfold finish in Ef. rewrite Hpt in Ef. injection Ef as <- <- <-. split.
    + eapply holder_insert; [done..| |]; [done|]. intros j Hj. rewrite Ho. split; [done|congruence].
    + by eexists _, _, _, _, _.
  - destruct (t_pt t) as [| | |n off size h name| | | | |] eqn:Hpt; try done; [by left; eauto|].
    destruct (outIdxLck_ s) as [j|] eqn:Ho; [left; eauto|right].
    unfold settle in Hs. rewrite Ho in Hs. injection Hs as <- <- <-.
    destruct (Forall2_lookup_r _ _ _ _ _ (lk_threads _ _ _ (cm_linked _ _ _ _ _ _ Hc)) Ht) as (a & Ha & _).
    destruct (Forall2_lookup_l _ _ _ _ _ (cm_pending _ _ _ _ _ _ Hc) Ht) as (p & Hp & Hpp).
    unfold pending in Hpp. rewrite Hpt in Hpp. destruct Hpp as (off0 & Hah & Hch).
    destruct (calm_round log aa pends (g_ix s) (g_rng s) (g_threads s) i a t n off off0 size h name p Hc Ha Ht Hp Hpt Hah Hch)
      as (ix' & g' & t' & aa' & pends' & Ef & Hc').
    eexists. split; [done|]. split.
    + eapply holder_insert; [done..| |]; [done|].
      intros j Hj. rewrite Ho. split; [intros [= E]; by destruct Hj|done].
    + eexists _, _, _, _, _. split; [|exact Hc']. unfold settle. simpl. rewrite list_lookup_insert_eq by done.
      rewrite Ef. simpl. by rewrite list_insert_insert_eq.
Qed.
(** ** Uploads that start together *)

(** All threads are idle and have nothing in their containers; [others] is what earlier
    uploads left in the store. *)
Record started aa s : Prop := {
  sd_lock : outIdxLck_ s = None;
  sd_idle : Forall (λ t, t_pt t = P_idle ∧ buf_ok (g_ix s) (t_u t)) (g_threads s);
  sd_linked : linked aa (g_ix s) (g_threads s);
  sd_empty : all_entries (all_groups aa) = [];
  sd_distinct : NoDup (hashes others) }.

Lemma inv_start aa s : started aa s → K aa (g_rng s) → inv [] s.
Proof.
  intros [Hlk Hid Hln He Hd] HK. split.
  - intros i t Ht. pose proof (Forall_lookup_1 _ _ _ _ Hid Ht) as [Hpt _]. by rewrite Hpt, Hlk.
  - exists (g_ix s), (g_rng s), (g_threads s), aa, (replicate (length (g_threads s)) []).
    unfold settle. rewrite Hlk. split; [done|]. split; [done|done|..].
    + apply Forall2_same_length_lookup_2; [by rewrite length_replicate|]. intros i t p Ht [-> _]%lookup_replicate.
      pose proof (Forall_lookup_1 _ _ _ _ Hid Ht) as [Hpt _]. unfold pending. by rewrite Hpt.
    + eapply Forall_impl; [exact Hid|]. by intros t [_ Hb].
    + unfold hashes. by rewrite all_entries_app, He, app_nil_r.
    + rewrite He. intros e He'%elem_of_nil. done.
    + intros i p d [-> _]%lookup_replicate Hin%elem_of_nil. done.
    + intros i ds d Hin%elem_of_nil. done.
Qed.

Lemma inv_receive log s i t m ds : inv log s → g_threads s !! i = Some t → t_pt t = P_idle →
  holds_batch (with_recvChunkBuf m (t_u t)) ds → dataCap m = dataCap (_recvChunkBuf (t_u t)) →
  inv (log ++ [(i, ds)]) (with_thread i {| t_u := with_recvChunkBuf m (t_u t); t_pt := P_start |} s).
Proof.
  intros [Hh (ix & g & ts & aa & pends & Hs & Hc)] Ht Hpt Hm Hcap. pose proof (lookup_lt_Some _ _ _ Ht) as Hi.
  pose proof (Hh i t Ht) as Hl. rewrite Hpt in Hl. simpl in Hl. split; [eapply holder_insert; [done..|]; done|].
  unfold settle in *. simpl. destruct (outIdxLck_ s) as [j|] eqn:Ho.
  - assert (Hij : j ≠ i) by (intros ->; discriminate (proj2 Hl eq_refl)).
    rewrite list_lookup_insert_ne by done. destruct (g_threads s !! j) as [tj|] eqn:Hj; [|done].
    destruct (finish _ _ _ tj) as [[[ix1 g1] tj']|]; [|done]. injection Hs as -> -> <-. simpl.
    eexists _, _, _, _, _. rewrite list_insert_insert_ne by done. split; [done|].
    eapply calm_receive; [exact Hc| |done..]. by rewrite list_lookup_insert_ne.
  - injection Hs as <- <- <-. eexists _, _, _, _, _. split; [done|]. by eapply calm_receive.
Qed.

Lemma inv_reached aa s log s' : started aa s → K aa (g_rng s) → reached stk s log s' → inv log s'.
Proof.
  intros H0s HK. induction 1 as [|log s1 i t m ds _ IH Ht Hpt Hm Hcap|log s1 i s2 _ IH E].
  - by eapply inv_start.
  - by apply inv_receive.
  - destruct (g_threads s1 !! i) as [t|] eqn:Ht; [|by unfold step in E; rewrite Ht in E].
    destruct (inv_step log s1 i t IH Ht) as [[E' _]|(s3 & E' & Hinv)]; [by rewrite E' in E|].
    rewrite E' in E. by injection E as <-.
Qed.

(** When everything is quiet. *)
Lemma interleaved aa s log s' : started aa s → K aa (g_rng s) → reached stk s log s' →
  (∀ i j t t', g_threads s' !! i = Some t → g_threads s' !! j = Some t' →
     locked (t_pt t) = true → locked (t_pt t') = true → i = j) ∧
  (outIdxLck_ s' = None → ∃ aa', K aa' (g_rng s') ∧
     let gs := all_groups aa' in let es := all_entries gs in
     Forall2 thread_repr aa' (g_threads s') ∧
     index_ok (indexStore_ (g_ix s')) (others ++ gs) ∧ NoDup (hashes (others ++ gs)) ∧
     (∀ e, e ∈ es → e.1 = hash e.2 ∧ ∃ i ds, (i, ds) ∈ log ∧ e.2 ∈ ds) ∧
     (∀ i ds d, (i, ds) ∈ log → d ∈ ds → (∀ t, g_threads s' !! i = Some t → t_pt t = P_idle) →
        hash d ∈ hashes (others ++ gs)) ∧
     _uniqueChunkNum (g_ix s') = u64 (c0 + zlen es) ∧
     _uniqueDataSize (g_ix s') = u64 (s0 + zlen (data_bytes es))).
Proof.
  intros H0s HK Hr. destruct (inv_reached aa s log s' H0s HK Hr) as [Hh (ix & g & ts & aa' & pends & Hs & Hc)]. split.
  - intros i j t t' Ht Ht' Hl%(Hh i t Ht) Hl'%(Hh j t' Ht'). congruence.
  - intros Ho. unfold settle in Hs. rewrite Ho in Hs. injection Hs as <- <- <-. exists aa'.
    destruct Hc as [HK' [Hts Hix Hn Hsz] Hpe _ Hd So _ St].
    split; [done|]. intros gs es. split_and!; [done..| |done|done].
    intros i ds d Hin Hd' Hid. destruct (St i ds d Hin Hd') as [?|(p & Hp & Hdp)]; [done|].
    destruct (Forall2_lookup_r _ _ _ _ _ Hpe Hp) as (t & Ht & Hpp). unfold pending in Hpp.
    rewrite (Hid t Ht) in Hpp. subst p. by apply elem_of_nil in Hdp.
Qed.

Lemma finished aa s log s' : started aa s → K aa (g_rng s) → reached stk s log s' →
  (∀ i r, step stk i s' = Some r → ∃ s'', r = Ok s'' ∧ (work s'' < work s')%nat) ∧
  ((∀ i, step stk i s' = None) → outIdxLck_ s' = None ∧ Forall (λ t, t_pt t = P_idle) (g_threads s')).
Proof.
  intros H0s HK Hr. pose proof (inv_reached aa s log s' H0s HK Hr) as Hinv. split.
  - intros i r E. destruct (g_threads s' !! i) as [t|] eqn:Ht; [|by unfold step in E; rewrite Ht in E].
    destruct (inv_step log s' i t Hinv Ht) as [[E' _]|(s2 & E' & _)]; rewrite E' in E; [done|]. injection E as <-.
    exists s2. split; [done|]. by eapply step_work.
  - intros Hno. assert (Hpts : ∀ i t, g_threads s' !! i = Some t → t_pt t = P_idle ∨
      is_Some (outIdxLck_ s') ∧ locked (t_pt t) = false).
    { intros i t Ht. destruct (inv_step log s' i t Hinv Ht) as [[_ ?]|(s2 & E & _)]; [done|]. by rewrite Hno in E. }
    assert (Ho : outIdxLck_ s' = None).
    { destruct Hinv as [Hh (ix & g & ts & aa' & pends & Hs & _)]. unfold settle in Hs.
      destruct (outIdxLck_ s') as [j|] eqn:Ho; [|done]. destruct (g_threads s' !! j) as [t|] eqn:Ht; [|done].
      assert (Hl : locked (t_pt t) = true) by (by apply (Hh j t Ht)).
      destruct (Hpts j t Ht) as [E|[_ E]]; [by rewrite E in Hl|by rewrite E in Hl]. }
    split; [done|]. apply Forall_lookup. intros i t Ht. destruct (Hpts i t Ht) as [?|[[j E] _]]; [done|]. by rewrite Ho in E.
Qed.
End Invariant.

(** ** Theorems *)

Section Theorems.
Context `{AbsDatabaseLaws DB} `{ChunkHashOk hash} (stk : buf) (c0 s0 : Z) (others : list group).
Implicit Types (s : uploads DB) (aa : list astate).

(** C8: the lock makes concurrent uploads exact.  In every state that any number of
    upload threads can reach, in any interleaving of their steps, at most one of them is
    in the locked part.  When the lock is free, the containers of the threads hold each
    chunk once between them and with what was stored before, with the hash it was
    stored under and only chunks that some client sent; the index maps exactly the hashes
    of these chunks to the containers that hold them; the chunks of every batch whose
    thread is idle again are stored; and the counters are the number and the size of
    the chunks the threads added. *)
Theorem uploads_interleave aa s log s' : started c0 s0 others aa s → reached stk s log s' →
  (∀ i j t t', g_threads s' !! i = Some t → g_threads s' !! j = Some t' →
     locked (t_pt t) = true → locked (t_pt t') = true → i = j) ∧
  (outIdxLck_ s' = None → ∃ aa',
     let gs := all_groups aa' in let es := all_entries gs in
     Forall2 thread_repr aa' (g_threads s') ∧
     index_ok (indexStore_ (g_ix s')) (others ++ gs) ∧ NoDup (hashes (others ++ gs)) ∧
     (∀ e, e ∈ es → e.1 = hash e.2 ∧ ∃ i ds, (i, ds) ∈ log ∧ e.2 ∈ ds) ∧
     (∀ i ds d, (i, ds) ∈ log → d ∈ ds → (∀ t, g_threads s' !! i = Some t → t_pt t = P_idle) →
        hash d ∈ hashes (others ++ gs)) ∧
     _uniqueChunkNum (g_ix s') = u64 (c0 + zlen es) ∧
     _uniqueDataSize (g_ix s') = u64 (s0 + zlen (data_bytes es))).
Proof.
  intros H0s Hr. destruct (interleaved stk c0 s0 others (λ _ _, True) (λ _ _ _ _ _ _ _ _, I) aa s log s' H0s I Hr)
    as [Hx Hq]. split; [exact Hx|]. intros (aa' & _ & Hl)%Hq. by exists aa'.
Qed.

(** C9: no interleaving faults, deadlocks or goes on for ever: in every state the threads
    can reach, a step that is possible succeeds and leaves less work, and when no step is
    possible the lock is free and every thread has finished its batch. *)
Theorem uploads_finish aa s log s' : started c0 s0 others aa s → reached stk s log s' →
  (∀ i r, step stk i s' = Some r → ∃ s'', r = Ok s'' ∧ (work s'' < work s')%nat) ∧
  ((∀ i, step stk i s' = None) → outIdxLck_ s' = None ∧ Forall (λ t, t_pt t = P_idle) (g_threads s')).
Proof.
  intros H0s Hr. by apply (finished stk c0 s0 others (λ _ _, True) (λ _ _ _ _ _ _ _ _, I) aa s log s' H0s I Hr).
Qed.
End Theorems.


(** ** One thread that is not interrupted *)

Section Alone.
Context `{AbsDatabase DB} `{ChunkHash} (stk : buf).
Implicit Types (s : uploads DB).

(** [n] steps of thread [i]. *)
Fixpoint steps (n i : nat) s : option (result (uploads DB)) :=
  match n with
  | O => Some (Ok s)
  | S n =>
      match step stk i s with
      | Some (Ok s) => steps n i s
      | r => r
      end
  end.

Lemma steps_app n m i s s' : steps n i s = Some (Ok s') → steps (n + m) i s = steps m i s'.
Proof.
  revert s. induction n as [|n IH]; intros s; simpl; [by intros [= ->]|].
  destruct (step stk i s) as [[s1|]|]; try done. apply IH.
Qed.


(** The steps of thread [i] from the state with these parts, the lock taken or free. *)
Definition at_step (ts : list thread) (i : nat) (o : option nat) ix g (t : thread) : uploads DB :=
  {| g_ix := ix; g_rng := g; outIdxLck_ := o; g_threads := <[i := t]> ts |}.

Lemma step_at ts i o ix g t : (i < length ts)%nat → quiet (t_pt t) || locked (t_pt t) = true →
  (∀ n off size name, t_pt t ≠ P_unlock n off size name) →
  step stk i (at_step ts i o ix g t) = Some ('(ix, g, t) ← thread_step stk ix g t; Ok (at_step ts i o ix g t)).
Proof.
  intros Hi Hq Hu. unfold step, at_step. simpl. rewrite list_lookup_insert_eq by done.
  assert (E : ∀ t', <[i := t']> (<[i := t]> ts) = <[i := t']> ts) by (intros; apply list_insert_insert_eq).
  destruct (t_pt t) eqn:Hpt; try done; try by exfalso; eapply Hu.
  all: destruct (thread_step _ _ _ _) as [[[??]?]|]; simpl; by rewrite ?E.
Qed.

Lemma locked_alone ts i : (i < length ts)%nat → ∀ k ix g t, (point_work (t_u t) (t_pt t) ≤ k)%nat → locked (t_pt t) = true →
  ∃ n, steps n i (at_step ts i (Some i) ix g t) =
    Some ('(ix, g, t) ← finish stk ix g t; Ok (at_step ts i None ix g t)).
Proof.
  intros Hi. induction k as [|k IH]; intros ix g t Hk Hl; [destruct t as [u []]; simpl in *; lia || done|].
  destruct (t_pt t) as [| | | | | | | |n off size name] eqn:Hpt; try done.
  5: { exists 1%nat. simpl. unfold step, at_step. simpl. rewrite list_lookup_insert_eq by done. rewrite Hpt.
       unfold finish. rewrite Hpt. simpl. unfold with_thread. simpl. by rewrite list_insert_insert_eq. }
  all: rewrite finish_unfold by (by rewrite Hpt).
  all: assert (Hs : step stk i (at_step ts i (Some i) ix g t) =
         Some ('(ix, g, t) ← thread_step stk ix g t; Ok (at_step ts i (Some i) ix g t)))
         by (apply step_at; [done|by rewrite Hpt|intros ????; by rewrite Hpt]).
  all: destruct (thread_step stk ix g t) as [[[ix1 g1] t1]|e] eqn:E; [|exists 1%nat; simpl; by rewrite Hs].
  all: assert (Hlk : locked (t_pt t) = true) by (by rewrite Hpt).
  all: destruct (finish_step stk _ _ _ _ _ _ Hlk E) as [_ Hl1].
  all: assert (Hw : (point_work (t_u t1) (t_pt t1) < point_work (t_u t) (t_pt t))%nat)
         by (eapply thread_step_work; [|intros ????|exact E]; by rewrite Hpt).
  all: destruct (IH ix1 g1 t1) as [n0 Hn]; [rewrite Hpt in Hw; lia|done|].
  all: exists (S n0); simpl; rewrite Hs; simpl; exact Hn.
Qed.

Lemma finish_query ix g u n off size h name ix' g' t' :
  finish stk ix g {| t_u := u; t_pt := P_query n off size h name |} = Ok (ix', g', t') →
  ∃ off' name', t_pt t' = P_loop n off' name'.
Proof.
  unfold finish. cbn [t_pt]. destruct (rest_query _ _ _ _ _ _ _ _) as [[[[??]?]?]|]; [|done]. simpl.
  intros [= <- <- <-]. by eexists _, _.
Qed.

(** The steps of the loop are [process_chunks]. *)
Lemma chunks_alone ts i : (i < length ts)%nat → ∀ k ix g u off name,
  ∃ n, steps n i (at_step ts i None ix g {| t_u := u; t_pt := P_loop k off name |}) =
    Some ('(ix, u, g) ← process_chunks stk k ix u g off name;
          m ← data_clear (_recvChunkBuf u) (sendChunkBatchSize_ ix * sizeof_Chunk_t);
          Ok (at_step ts i None ix g {| t_u := with_recvChunkBuf m u; t_pt := P_idle |})).
Proof.
  intros Hi. induction k as [|k IH]; intros ix g u off name.
  - exists 1%nat. simpl. rewrite step_at by done. unfold thread_step. simpl. by destruct (data_clear _ _).
  - simpl. rewrite (round_process_chunk stk ix u g k). pose proof (step_at ts i None ix g {| t_u := u; t_pt := P_loop (S k) off name |} Hi) as Hs.
    cbn [t_pt t_u thread_step quiet locked orb] in Hs. specialize (Hs eq_refl). unfold thread_step in Hs. cbn [t_pt t_u] in Hs.
    destruct (chunk_head _ off) as [[[off1 size] h]|e]; [|exists 1%nat; simpl; by rewrite Hs by done].
    cbn [mbind result_bind] in Hs |- *.
    destruct (locked_alone ts i Hi _ ix g {| t_u := u; t_pt := P_query k off1 size h name |} (le_n _) eq_refl) as [n Hn].
    destruct (finish stk ix g _) as [[[ix1 g1] t1]|e] eqn:Ef; cbn [mbind result_bind] in Hn |- *.
    + destruct (finish_query _ _ _ _ _ _ _ _ _ _ _ Ef) as (off' & name' & Hpt).
      destruct (IH ix1 g1 (t_u t1) off' name') as [n' Hn']. exists (S (S (n + n')))%nat. simpl. rewrite Hs by done.
      unfold step at 1, at_step at 1. simpl. rewrite list_lookup_insert_eq by done. simpl.
      unfold with_thread. simpl. rewrite list_insert_insert_eq. fold (at_step ts i (Some i) ix g {| t_u := u; t_pt := P_query k off1 size h name |}).
      rewrite (steps_app n n' i _ _ Hn). destruct t1 as [u1 pt1]. simpl in *. rewrite Hpt. exact Hn'.
    + exists (S (S n)). simpl. rewrite Hs by done. unfold step at 1, at_step at 1. simpl. rewrite list_lookup_insert_eq by done. simpl.
      unfold with_thread. simpl. by rewrite list_insert_insert_eq.
Qed.

(** A thread that no other thread interrupts does what [ProcessOneBatch] does as one
    function: its steps from the start of a batch end in the index, the containers and
    the random numbers of that function, with the lock free and the thread idle, and a
    fault of the one is a fault of the other. *)
Theorem uninterrupted_batch s i u : outIdxLck_ s = None → g_threads s !! i = Some {| t_u := u; t_pt := P_start |} →
  ∃ n, steps n i s = Some (
    '(ix, u, g) ← ProcessOneBatch stk (g_ix s) u (g_rng s);
    Ok {| g_ix := ix; g_rng := g; outIdxLck_ := None;
          g_threads := <[i := {| t_u := u; t_pt := P_idle |}]> (g_threads s) |}).
Proof.
  intros Ho Ht. pose proof (lookup_lt_Some _ _ _ Ht) as Hi. unfold ProcessOneBatch.
  destruct (chunks_alone (g_threads s) i Hi (Z.to_nat (currentItemNum (_recvChunkBuf u)))
    (count_batch (dataSize (_recvChunkBuf u)) (g_ix s)) (g_rng s) u 0 (replicate (Z.to_nat CONTAINER_ID_LENGTH) 0)) as [n Hn].
  exists (S n). simpl. unfold step at 1. rewrite Ht. simpl. rewrite Ho.
  etrans; [exact Hn|]. f_equal. change (replicate (Z.to_nat CONTAINER_ID_LENGTH) 0) with (replicate 8 0).
  destruct (process_chunks _ _ _ _ _ _ _) as [[[ix1 u1] g1]|]; [|done]. simpl. by destruct (data_clear _ _).
Qed.
End Alone.

(** ** Two uploads that take turns *)

Section Run.
Context `{AbsDatabase DB} `{ChunkHash} (stk : buf).

(** A schedule: who is next; one who cannot make a step is skipped. *)
Fixpoint run (turns : list nat) (s : uploads DB) : result (uploads DB) :=
  match turns with
  | [] => Ok s
  | i :: turns =>
      match step stk i s with
      | Some r => s ← r; run turns s
      | None => run turns s
      end
  end.

Lemma run_reached turns s0 log s s' : reached stk s0 log s → run turns s = Ok s' → reached stk s0 log s'.
Proof.
  revert s. induction turns as [|i turns IH]; intros s Hr E; simpl in E; [by injection E as <-|].
  destruct (step stk i s) as [[s1|]|] eqn:Es; [|done|by eapply IH].
  eapply IH; [|exact E]. by eapply reached_step.
Qed.
End Run.

Definition sample_thread (c : Z) : thread :=
  {| t_u := with_curContainer (sample_container c) sample_upload; t_pt := P_idle |}.
Definition sample_uploads : uploads InMemory.InMemoryDatabase :=
  {| g_ix := sample_ix; g_rng := sample_rng; outIdxLck_ := None; g_threads := [sample_thread 97; sample_thread 122] |}.
Definition sample_aa : list astate :=
  [sample_a; {| a_sealed := []; a_id := replicate 8 122; a_n0 := 0; a_es := []; a_g := sample_rng |}].

Lemma sample_started : started 0 0 [] sample_aa sample_uploads.
Proof.
  split; [done|by repeat constructor| |done|by constructor]. split; [|..|done|done].
  - repeat constructor; (apply cont_repr_empty || done); done.
  - intros h n. rewrite InMemory.stored_lookup. simpl. rewrite lookup_empty. split; [done|].
    intros (es & Hin & Hh). apply elem_of_cons in Hin as [[= -> ->]|[[= -> ->]|Hin%elem_of_nil]%elem_of_cons];
      [by apply elem_of_nil in Hh..|done].
Defined.

(** The second client sends a chunk that the first one sends too. *)
Definition sample_second : list bytes := [[4]; [9; 9]].
Definition sample_sent : uploads InMemory.InMemoryDatabase :=
  with_thread 1 {| t_u := with_recvChunkBuf (sample_msg 2 (zlen (payload sample_second)) (payload sample_second))
                            (t_u (sample_thread 122)); t_pt := P_start |}
    (with_thread 0 {| t_u := sample_u; t_pt := P_start |} sample_uploads).
Definition sample_log : list (nat * list bytes) := [(0%nat, sample_chunks); (1%nat, sample_second)].

(** The two threads take turns, step by step. *)
Definition sample_after (n : nat) : uploads InMemory.InMemoryDatabase :=
  match run (H0 := sample_hash) zero_buf (mjoin (replicate n [0; 1]%nat)) sample_sent with Ok s => s | Err _ => sample_uploads end.

Lemma sample_sent_reached : reached (H0 := sample_hash) zero_buf sample_uploads sample_log sample_sent.
Proof.
  unfold sample_sent.
  eapply (reached_receive _ _ [(0%nat, sample_chunks)] _ 1 (sample_thread 122) _ sample_second); [|done..| |done].
  - eapply (reached_receive _ _ [] _ 0 (sample_thread 97) _ sample_chunks); [by constructor|done..| |done].
    split; [done|by repeat constructor|done|by vm_compute].
  - split; [done|by repeat constructor|done|by vm_compute].
Defined.

Lemma sample_reached n :
  match run (H0 := sample_hash) zero_buf (mjoin (replicate n [0; 1]%nat)) sample_sent with Ok _ => true | Err _ => false end = true →
  reached (H0 := sample_hash) zero_buf sample_uploads sample_log (sample_after n).
Proof.
  unfold sample_after. destruct (run _ _ _) as [s|] eqn:E; [|done]. intros _.
  eapply run_reached; [exact sample_sent_reached|exact E].
Defined.

(** After 60 turns each both uploads are done. *)
Lemma uploads_interleave_witness :
  let s := sample_after 60 in
  (t_pt <$> g_threads s) = [P_idle; P_idle] ∧ _uniqueChunkNum (g_ix s) = 3 ∧ ∃ aa',
    index_ok (indexStore_ (g_ix s)) (all_groups aa') ∧ NoDup (hashes (all_groups aa')) ∧
    _uniqueChunkNum (g_ix s) = u64 (zlen (all_entries (all_groups aa'))) ∧
    ∀ i ds d, (i, ds) ∈ sample_log → d ∈ ds → (∀ t, g_threads s !! i = Some t → t_pt t = P_idle) →
      Toy.digest SHA_256 d ∈ hashes (all_groups aa').
Proof.
  destruct (uploads_interleave (H1 := sample_hash) (hash := Toy.digest SHA_256) zero_buf 0 0 [] sample_aa sample_uploads sample_log
    (sample_after 60)) as [_ (aa' & _ & Hix & Hd & _ & Hst & Hn & _)]; [|apply sample_reached; by vm_compute|by vm_compute|].
  - exact sample_started.
  - split; [by vm_compute|]. split; [by vm_compute|]. exact (ex_intro _ aa' (conj Hix (conj Hd (conj Hn Hst)))).
Defined.

(** After 5 turns the first thread is in the locked part and the second one waits. *)
Lemma uploads_finish_witness :
  let s := sample_after 5 in
  outIdxLck_ s = Some 0%nat ∧ step (H0 := sample_hash) zero_buf 1 s = None ∧
  ∀ i r, step (H0 := sample_hash) zero_buf i s = Some r → ∃ s', r = Ok s' ∧ (work s' < work s)%nat.
Proof.
  destruct (uploads_finish (H1 := sample_hash) (hash := Toy.digest SHA_256) zero_buf 0 0 [] sample_aa sample_uploads sample_log
    (sample_after 5)) as [Hw _]; [|apply sample_reached; by vm_compute|].
  - exact sample_started.
  - split; [by vm_compute|]. split; [by vm_compute|]. exact Hw.
Defined.

Lemma uninterrupted_batch_witness :
  ∃ n, steps (H0 := sample_hash) zero_buf n 0 (with_thread 0 {| t_u := sample_u; t_pt := P_start |} sample_uploads) = Some (
    '(ix, u, g) ← ProcessOneBatch (H0 := sample_hash) zero_buf sample_ix sample_u sample_rng;
    Ok {| g_ix := ix; g_rng := g; outIdxLck_ := None;
          g_threads := [{| t_u := u; t_pt := P_idle |}; sample_thread 122] |}).
Proof.
  by apply (uninterrupted_batch zero_buf (with_thread 0 {| t_u := sample_u; t_pt := P_start |} sample_uploads) 0 sample_u).
Defined.
