(* ===== verification/DataWriter.v ===== *)
(** * Writing containers (src/Server/dataWriter.cc)

    [SaveToFile] writes one container to its file.  The writer thread's loop and its
    interleaving with the receiver are in [WriterLoop]. *)
From Stdlib Require Import ZArith Lia.
From stdpp Require Import base tactics numbers list gmap.
From S2P Require Import Prelude Common FileSystem ClientVar Storage Index.
#[local] Open Scope Z_scope.

Definition container_path (config : Configure) (name : bytes) : bytes :=
  GetContainerRootPath config ++ name ++ GetContainerSuffix config.

(** [fopen(path, "wb")], [fwrite], [fclose]. *)
Definition SaveToFile (config : Configure) (c : Container_t) (s : fs) : result fs :=
  let fileName := take (Z.to_nat CONTAINER_ID_LENGTH) (c_containerID c) in
  let '(h, s) := of_open_trunc (container_path config fileName) s in
  check (of_open h) EXIT_FAILURE ;;
  let '(h, s) := of_write (bread (c_body c) 0 (c_currentSize c)) h s in
  Ok s.

(** The writer's view of a whole queue. *)
Fixpoint save_all (config : Configure) (cs : list Container_t) (s : fs) : result fs :=
  match cs with
  | [] => Ok s
  | c :: cs => s ← SaveToFile config c s; save_all config cs s
  end.

(** ** Lemmas *)

Lemma container_path_inj config n n' : container_path config n = container_path config n' → n = n'.
Proof. unfold container_path. intros E%app_inv_head. by apply app_inv_tail in E. Qed.

Lemma SaveToFile_spec config c s :
  zlen (c_containerID c) = CONTAINER_ID_LENGTH → (∀ p, creatable s p = true) →
  ∃ s', SaveToFile config c s = Ok s' ∧ creatable s' = creatable s ∧
    files s' = <[container_path config (c_containerID c) := image c]> (files s).
Proof.
  intros Hid Hc. unfold SaveToFile.
  rewrite take_ge by (unfold zlen in Hid; sizes; lia).
  unfold of_open_trunc, of_write. rewrite Hc. simpl. eexists. split_and!; [done..|]. simpl.
  rewrite lookup_insert_eq. simpl. rewrite insert_insert_eq. f_equal.
  unfold overwrite. simpl. rewrite drop_nil, app_nil_r. done.
Qed.

(** A container as an abstract group and its file. *)
Definition on_disk (config : Configure) (s : fs) (n0 : Z) (x : bytes * list (bytes * bytes)) : Prop :=
  files s !! container_path config x.1 = Some (file_image (u32 (n0 + zlen x.2)) x.2).

Lemma save_all_files config xs cs s :
  Forall2 sealed_as xs cs → Forall (λ x, zlen x.1.1 = CONTAINER_ID_LENGTH) xs →
  NoDup (xs.*1.*1) → (∀ p, creatable s p = true) →
  ∃ s', save_all config cs s = Ok s' ∧ creatable s' = creatable s ∧
    (∀ x, x ∈ xs → on_disk config s' x.1.2 (x.1.1, x.2)) ∧
    (∀ p, (∀ x, x ∈ xs → p ≠ container_path config x.1.1) → files s' !! p = files s !! p).
Proof.
  intros Hx. revert s. induction Hx as [|x c xs cs (Hid & Hsz & Himg) Hxs IH]; intros s Hlen Hnd Hc.
  { exists s. split_and!; [done|done|set_solver|done]. }
  apply Forall_cons in Hlen as [Hl Hlen]. rewrite !fmap_cons in Hnd. apply NoDup_cons in Hnd as [Hn Hnd].
  destruct (SaveToFile_spec config c s) as (s1 & E & Hc1 & Hf1); [by rewrite Hid|done|].
  simpl. rewrite E. simpl. destruct (IH s1 Hlen Hnd) as (s2 & -> & Hc2 & Hd2 & Hf2); [by rewrite Hc1|].
  exists s2. split_and!; [done|congruence| |].
  - intros y [->|Hy]%elem_of_cons; [|auto]. unfold on_disk. simpl. rewrite Hf2.
    + by rewrite Hf1, Hid, lookup_insert_eq, Himg.
    + intros y Hy E'%container_path_inj. apply Hn. apply list_elem_of_fmap. exists y.1. split; [done|].
      apply list_elem_of_fmap. eauto.
  - intros p Hp. rewrite Hf2 by set_solver. rewrite Hf1, Hid. apply lookup_insert_ne.
    intros <-. by apply (Hp x); [left|].
Qed.
