(* ===== verification/WriterLoop.v ===== *)
(** * The writer thread and the receiver thread (DataWriter::Run, MessageQueue)

    The receiver pushes containers and finally sets [done_]; the writer pops and saves
    them until the flag is set and the queue is empty.  The two threads and the queue
    between them are one step relation over the atomic steps of the queue, so that the
    theorems are about every interleaving. *)
From Stdlib Require Import ZArith Lia.
From stdpp Require Import base tactics numbers list gmap relations.
From S2P Require Import Prelude Common FileSystem ClientVar Storage Index DataWriter Database Queue QueueThreads QueueSpec MessageQueue.
#[local] Open Scope Z_scope.

Section WriterLoop.
Context {T St : Type}.
(** [SaveToFile]. *)
Context (save : T → St → result St).
Implicit Types (c : config (T:=T)).

(** The points of [DataWriter::Run]; the boolean is [jobDoneFlag]. *)
Inductive wpc :=
| W_top                          (* read [done_] *)
| W_isEmpty                      (* [IsEmpty] *)
| W_pop (jobDoneFlag : bool)     (* call [Pop] *)
| W_popping (jobDoneFlag : bool) (* inside [Pop] *)
| W_save (jobDoneFlag : bool) (tmpContainer : T)
| W_exit.

Record system := {
  s_cfg : config (T:=T);   (* the queue and the calls in progress *)
  s_done : bool;           (* [done_] *)
  s_todo : list T;         (* what the receiver has still to push, the pushes of a spinning [Push] included *)
  s_pc : wpc;
  s_st : St;               (* what has been saved *)
  containerNum_ : Z }.

Definition with_p (p : option (ppc T)) c : config :=
  {| c_q := c_q c; c_p := p; c_c := c_c c; enqueued := enqueued c; dequeued := dequeued c; empty_seen := empty_seen c |}.
Definition with_c (k : option (cpc T)) c : config :=
  {| c_q := c_q c; c_p := c_p c; c_c := k; enqueued := enqueued c; dequeued := dequeued c; empty_seen := empty_seen c |}.
Definition set_cfg c (s : system) : system :=
  {| s_cfg := c; s_done := s_done s; s_todo := s_todo s; s_pc := s_pc s; s_st := s_st s; containerNum_ := containerNum_ s |}.
Definition set_pc pc (s : system) : system :=
  {| s_cfg := s_cfg s; s_done := s_done s; s_todo := s_todo s; s_pc := pc; s_st := s_st s; containerNum_ := containerNum_ s |}.
Definition set_todo l (s : system) : system :=
  {| s_cfg := s_cfg s; s_done := s_done s; s_todo := l; s_pc := s_pc s; s_st := s_st s; containerNum_ := containerNum_ s |}.
Definition set_done (s : system) : system :=
  {| s_cfg := s_cfg s; s_done := true; s_todo := s_todo s; s_pc := s_pc s; s_st := s_st s; containerNum_ := containerNum_ s |}.
Definition next_round (jobDoneFlag : bool) : wpc := if jobDoneFlag then W_exit else W_top.

(** A step of [Push]: call [try_enqueue], advance it, and look at its answer (again
    from the start when there was no room). *)
Inductive push_step (s : system) : system → Prop :=
| push_call x l : c_p (s_cfg s) = None → s_todo s = x :: l →
    push_step s (set_cfg (with_p (Some (P_start false x)) (s_cfg s)) s)
| push_run mem pc q' pc' : c_p (s_cfg s) = Some pc → (∀ ok, pc ≠ P_ret ok) →
    pstep mem pc (c_q (s_cfg s)) = Ok (q', pc') →
    push_step s (set_cfg {| c_q := q'; c_p := Some pc'; c_c := c_c (s_cfg s); enqueued := enqueued (s_cfg s) ++ p_effect pc;
      dequeued := dequeued (s_cfg s);
      empty_seen := empty_seen (s_cfg s) || is_empty (enqueued (s_cfg s) ++ p_effect pc) (dequeued (s_cfg s)) |} s)
| push_ret ok : c_p (s_cfg s) = Some (P_ret ok) →
    push_step s (set_todo (if ok then tl (s_todo s) else s_todo s) (set_cfg (with_p None (s_cfg s)) s))
| push_done : c_p (s_cfg s) = None → s_todo s = [] → s_done s = false → push_step s (set_done s).

(** A step of [DataWriter::Run]. *)
Inductive run_step (s : system) : system → Prop :=
| run_top : s_pc s = W_top → run_step s (set_pc (if s_done s then W_isEmpty else W_pop false) s)
| run_isEmpty flag : s_pc s = W_isEmpty → IsEmpty (c_q (s_cfg s)) = Ok flag → run_step s (set_pc (W_pop flag) s)
| run_pop j : s_pc s = W_pop j →
    run_step s (set_pc (W_popping j) (set_cfg {| c_q := c_q (s_cfg s); c_p := c_p (s_cfg s); c_c := Some C_start;
      enqueued := enqueued (s_cfg s); dequeued := dequeued (s_cfg s);
      empty_seen := is_empty (enqueued (s_cfg s)) (dequeued (s_cfg s)) |} s))
| run_popping j pc q' pc' : s_pc s = W_popping j → c_c (s_cfg s) = Some pc → (∀ r, pc ≠ C_ret r) →
    cstep pc (c_q (s_cfg s)) = Ok (q', pc') →
    run_step s (set_cfg {| c_q := q'; c_p := c_p (s_cfg s); c_c := Some pc'; enqueued := enqueued (s_cfg s);
      dequeued := dequeued (s_cfg s) ++ c_effect pc;
      empty_seen := empty_seen (s_cfg s) || is_empty (enqueued (s_cfg s)) (dequeued (s_cfg s) ++ c_effect pc) |} s)
| run_ret j r : s_pc s = W_popping j → c_c (s_cfg s) = Some (C_ret r) →
    run_step s (set_pc (match r with Some v => W_save j v | None => next_round j end) (set_cfg (with_c None (s_cfg s)) s))
| run_save j v st' : s_pc s = W_save j v → save v (s_st s) = Ok st' →
    run_step s {| s_cfg := s_cfg s; s_done := s_done s; s_todo := s_todo s; s_pc := next_round j; s_st := st';
                  containerNum_ := u64 (containerNum_ s + 1) |}.

Definition sys_step (s s' : system) : Prop := push_step s s' ∨ run_step s s'.

(** The threads at their start: [cs] is what the receiver is going to push.  The server
    has one [DataWriter] for all uploads, whose counter is never reset: [n0] is its value. *)
Context (n0 : Z).
Definition sys_start (q : ReaderWriterQueue T) (cs : list T) (st : St) : system :=
  {| s_cfg := start q; s_done := false; s_todo := cs; s_pc := W_top; s_st := st; containerNum_ := u64 n0 |}.

(** Saving a list in order. *)
Fixpoint save_list (cs : list T) (st : St) : result St :=
  match cs with [] => Ok st | c :: cs => st ← save c st; save_list cs st end.

Lemma save_list_app l k st : save_list (l ++ k) st = (st ← save_list l st; save_list k st).
Proof. revert st. induction l as [|x l IH]; intros st; simpl; [done|]. destruct (save x st); simpl; auto. Qed.

(** ** The invariant *)

(** What the receiver has not pushed yet, and what the writer holds. *)
Definition remaining (s : system) : list T :=
  match c_p (s_cfg s) with Some (P_ret true) => tl (s_todo s) | _ => s_todo s end.
Definition in_hand (s : system) : list T :=
  match c_c (s_cfg s), s_pc s with Some (C_ret r), _ => option_list r | _, W_save _ v => [v] | _, _ => [] end.
Definition flag_of (pc : wpc) : bool :=
  match pc with W_pop j | W_popping j | W_save j _ => j | W_exit => true | _ => false end.

Definition popping_ok (s : system) : Prop := is_Some (c_c (s_cfg s)) ↔ ∃ j, s_pc s = W_popping j.

Lemma not_popping s : popping_ok s → (∀ j, s_pc s ≠ W_popping j) → c_c (s_cfg s) = None.
Proof. intros [Hc _] Hne. destruct (c_c (s_cfg s)); [|done]. destruct Hc as [j ?]; [eauto|]. by destruct (Hne j). Qed.

Record sys_ok (cs : list T) (st0 : St) (s : system) : Prop := {
  so_inv : inv (s_cfg s);
  so_pushed : cs = enqueued (s_cfg s) ++ remaining s;
  so_elem : ∀ pc, c_p (s_cfg s) = Some pc → s_todo s ≠ [] ∧ (p_rank pc ≠ 0%nat → p_elem pc = take 1 (s_todo s));
  so_done : s_done s = true → s_todo s = [] ∧ c_p (s_cfg s) = None;
  so_popping : popping_ok s;
  so_saved : ∃ l, dequeued (s_cfg s) = l ++ in_hand s ∧ save_list l st0 = Ok (s_st s) ∧ containerNum_ s = u64 (n0 + zlen l);
  so_isEmpty : s_pc s = W_isEmpty → s_done s = true;
  so_flag : flag_of (s_pc s) = true → s_done s = true ∧ enqueued (s_cfg s) = dequeued (s_cfg s);
  so_seen : is_Some (c_c (s_cfg s)) → is_empty (enqueued (s_cfg s)) (dequeued (s_cfg s)) = true → empty_seen (s_cfg s) = true }.

(** *** Preservation *)

Lemma push_cfg s s' : push_step s s' → s_cfg s' = s_cfg s ∨ step (s_cfg s) (s_cfg s').
Proof.
  destruct s as [[q p k e d b] dn todo pc st n].
  destruct 1; simpl in *; subst; [right; apply call_enqueue|right; by eapply step_enqueue|right; apply ret_enqueue|by left].
Qed.
Lemma run_cfg s s' : popping_ok s → run_step s s' → s_cfg s' = s_cfg s ∨ step (s_cfg s) (s_cfg s').
Proof.
  destruct s as [[q p k e d b] dn todo pc st n]. unfold popping_ok. simpl. intros Hp.
  destruct 1; simpl in *; subst; [by left|by left| |right; by apply step_dequeue|right; apply ret_dequeue|by left].
  right. destruct k; [|apply call_dequeue]. destruct Hp as [Hp _]. destruct Hp as [j' ?]; [eauto|done].
Qed.

Lemma inv_prefix c : inv c → (length (dequeued c) ≤ length (enqueued c))%nat.
Proof. intros H%inv_fifo. destruct (fo_prefix _ H) as [l ->]. rewrite length_app. lia. Qed.

Lemma push_ok cs st0 s s' : sys_ok cs st0 s → push_step s s' → sys_ok cs st0 s'.
Proof.
  intros [Hi Hp He Hd Hc Hs Hm Hf Hn] Hstep.
  assert (Hi' : inv (s_cfg s')) by (destruct (push_cfg _ _ Hstep) as [->|]; [done|by eapply step_inv]).
  destruct s as [[q p k e d b] dn todo pc st n]; unfold remaining, in_hand in *; simpl in *. destruct Hstep; simpl in *; subst.
  - split; unfold remaining, in_hand; simpl; try done.
    + by intros ? [= <-].
    + intros [? _]%Hd. done.
  - destruct (He _ eq_refl) as [Hne Hel].
    assert (Hr : p_rank pc0 ≠ 0%nat) by (intros [ok ->]%p_rank_0; by apply (H0 ok)).
    destruct (pstep_rank _ _ _ _ _ H1 Hr) as [Hlt Heff]. specialize (Hel Hr).
    destruct todo as [|x todo]; [done|]. simpl in Hel.
    assert (Hrem : match pc0 with P_ret true => tl (x :: todo) | _ => x :: todo end = x :: todo).
    { by destruct pc0. }
    rewrite Hrem.
    assert (Hnd : dn = true → False) by (intros [? ?]%Hd; done).
    split; unfold remaining, in_hand; simpl; try done.
    + destruct pc'; destruct Heff as [Heff _]; rewrite Heff, ?app_nil_r; try done.
      destruct ok; rewrite ?app_nil_r; [|done]. rewrite Hel, <- app_assoc. done.
    + intros ? [= <-]. split; [done|]. intros Hr'. destruct pc'; try done; destruct Heff as (_ & -> & _); done.
    + intros [[]%Hnd _]%Hf.
    + intros _ ->. by rewrite orb_true_r.
  - split; unfold remaining, in_hand; simpl; try done.
    + by intros [_ ?]%Hd.
  - split; unfold remaining, in_hand; simpl; try done. intros [? _]%Hf. done.
Qed.

Lemma next_round_flag j : flag_of (next_round j) = j.
Proof. by destruct j. Qed.
Lemma next_round_pc j : (next_round j ≠ W_isEmpty) ∧ (∀ j', next_round j ≠ W_popping j') ∧ ∀ j' v, next_round j ≠ W_save j' v.
Proof. by destruct j. Qed.
Lemma next_round_hand j : match next_round j with W_save _ v => [v] | _ => [] end = @nil T.
Proof. by destruct j. Qed.

Lemma queue_of c : inv c → c_p c = None → c_c c = None → ∃ l, queue_holds (c_q c) l ∧ enqueued c = dequeued c ++ l.
Proof.
  rewrite inv_alt. intros (rest & free & lf & ls & Hi) Hp Hc. rewrite Hp, Hc in Hi.
  eapply inv_queue_holds; [exact Hi|by left|by left].
Qed.

Lemma run_ok cs st0 s s' : sys_ok cs st0 s → zlen cs < 2 ^ 64 → run_step s s' → sys_ok cs st0 s'.
Proof.
  intros [Hi Hp He Hd Hc Hs Hm Hf Hn] Hlen Hstep.
  assert (Hi' : inv (s_cfg s')) by (destruct (run_cfg _ _ Hc Hstep) as [->|]; [done|by eapply step_inv]).
  pose proof (inv_prefix _ Hi') as Hpre.
  pose proof (not_popping _ Hc) as Hk.
  destruct s as [[q p k e d b] dn todo pc st n]; unfold remaining, in_hand, popping_ok in *; simpl in *.
  destruct Hs as (l & Hdq & Hsave & Hnum).
  destruct Hstep; simpl in *; subst pc.
  - rewrite Hk in * by done. split; unfold remaining, in_hand, popping_ok; simpl; try done.
    + split; [by intros []|]. by intros [j H']; destruct dn.
    + exists l. by destruct dn.
    + by destruct dn.
    + by destruct dn.
  - rewrite Hk in * by done. split; unfold remaining, in_hand, popping_ok; simpl; try done.
    + split; [by intros []|by intros [j H']].
    + by exists l.
    + intros ->. split; [by apply Hm|]. destruct (queue_of _ Hi) as (l' & Hq & E); [apply Hd; by apply Hm|done|]. simpl in *.
      rewrite (IsEmpty_spec q l' Hq) in H0.
      * injection H0 as H0%bool_decide_eq_true. rewrite H0, app_nil_r in E. done.
      * rewrite Hp, E in Hlen. revert Hlen. unfold zlen. rewrite !length_app. lia.
  - rewrite Hk in * by done. split; unfold remaining, in_hand, popping_ok; simpl; try done.
    + split; [by eexists|by eexists].
    + by exists l.
  - assert (Hr : c_rank pc0 ≠ 0%nat) by (intros [r ->]%c_rank_0; by apply (H1 r)). subst k.
    destruct (cstep_rank _ _ _ _ H2 Hr) as [Hlt Heff].
    assert (Hin : match pc0 with C_ret r => option_list r | _ => [] end = []) by (by destruct pc0).
    rewrite Hin, app_nil_r in Hdq. subst d.
    split; unfold remaining, in_hand, popping_ok; simpl; try done.
    + split; [by eexists|by eexists].
    + exists l. destruct pc'; rewrite Heff, ?app_nil_r; done.
    + intros Hj. destruct (Hf Hj) as [Hdn He']. split; [done|]. rewrite He' in Hpre. rewrite length_app in Hpre.
      destruct (c_effect pc0); [by rewrite app_nil_r|simpl in Hpre; lia].
    + intros _ ->. by rewrite orb_true_r.
  - subst k. split; unfold remaining, in_hand, popping_ok; simpl; try done.
    + split; [by intros []|]. intros [j' H']. destruct r; [done|]. by apply next_round_pc in H'.
    + exists l. rewrite <- Hnum. destruct r; [done|]. by destruct j.
    + destruct r; [done|]. by intros ?%next_round_pc.
    + destruct r; simpl; [done|]. by rewrite next_round_flag.
  - rewrite Hk in * by done. split; unfold remaining, in_hand, popping_ok; simpl; try done.
    + split; [by intros []|]. by intros [j' ?%next_round_pc].
    + exists (l ++ [v]). rewrite next_round_hand, app_nil_r, save_list_app, Hsave. simpl. rewrite H0. split_and!; [done|done|].
      rewrite Hnum. unfold u64. rewrite Zplus_mod_idemp_l. f_equal. unfold zlen. rewrite length_app. simpl. lia.
    + by intros ?%next_round_pc.
    + rewrite next_round_flag. exact Hf.
Qed.

Definition sys_reachable q cs st0 : system → Prop := rtc sys_step (sys_start q cs st0).

Lemma sys_reachable_ok q cs st0 s : queue_holds q [] → zlen cs < 2 ^ 64 → sys_reachable q cs st0 s → sys_ok cs st0 s.
Proof.
  intros Hq Hlen Hr. assert (Hs : sys_ok cs st0 (sys_start q cs st0)).
  { destruct (queue_holds_inv q [] [] Hq) as (rest & free & lf & ls & _ & Hi).
    split; unfold remaining, in_hand, popping_ok; simpl; try done.
    - apply inv_alt. exists rest, free, lf, ls. apply Hi.
    - split; [by intros []|by intros []].
    - exists []. by rewrite zlen_nil, Z.add_0_r. }
  induction Hr as [|s1 s2 s3 [H|H] _ IH]; [done|apply IH; by eapply push_ok|apply IH; by eapply run_ok].
Qed.

(** ** Progress *)

Lemma run_progress cs st0 s stF : sys_ok cs st0 s → zlen cs < 2 ^ 64 → save_list cs st0 = Ok stF → s_pc s ≠ W_exit →
  ∃ s', run_step s s'.
Proof.
  intros [Hi Hp He Hd Hc Hs Hm Hf Hn] Hlen Hsave Hne. destruct (s_pc s) as [| |j|j|j v|] eqn:Epc; [..|done].
  - eexists. by apply run_top.
  - assert (Hk : c_c (s_cfg s) = None).
    { apply (not_popping _ Hc). by rewrite Epc. }
    destruct (queue_of _ Hi) as (l & Hq & E); [apply Hd; auto|done|]. eexists. eapply run_isEmpty; [done|].
    apply (IsEmpty_spec _ l Hq). rewrite Hp, E in Hlen. revert Hlen. unfold zlen. rewrite !length_app. lia.
  - eexists. by eapply run_pop.
  - destruct Hc as [_ Hc]. destruct Hc as [pc Hpc]; [by exists j|]. destruct (decide (c_rank pc = 0%nat)) as [[r ->]%c_rank_0|Hr].
    + eexists. by eapply run_ret.
    + destruct (fo_consumer _ (inv_fifo _ Hi) _ Hpc) as [[q' pc'] E]. eexists. eapply run_popping; try done. intros r ->. done.
  - destruct Hs as (l & Hdq & Hl & _). unfold in_hand in Hdq. rewrite Epc in Hdq.
    assert (Hk : c_c (s_cfg s) = None).
    { apply (not_popping _ Hc). by rewrite Epc. }
    rewrite Hk in Hdq. destruct (fo_prefix _ (inv_fifo _ Hi)) as [m Em]. rewrite Hp, Em, Hdq, <- !app_assoc, save_list_app, Hl in Hsave.
    simpl in Hsave. destruct (save v (s_st s)) as [st'|] eqn:E; [|done]. eexists. by eapply run_save.
Qed.

Lemma push_progress cs st0 s : sys_ok cs st0 s → s_done s = false → ∃ s', push_step s s'.
Proof.
  intros [Hi Hp He Hd Hc Hs Hm Hf Hn] Hdn. destruct (c_p (s_cfg s)) as [pc|] eqn:Epc.
  - destruct (decide (p_rank pc = 0%nat)) as [[ok ->]%p_rank_0|Hr]; [eexists; by apply push_ret|].
    destruct (fo_producer _ (inv_fifo _ Hi) _ true Epc) as [[q' pc'] E]. eexists. eapply push_run; try done. intros ok ->. done.
  - destruct (s_todo s) as [|x l] eqn:E; eexists; [by apply push_done|by eapply push_call].
Qed.

(** ** Termination

    After [SetJobDoneFlag] only the writer moves, and this number decreases: each
    element still in the queue pays for one round of the loop, and there are at most
    two more rounds. *)
Definition pending (s : system) : nat := length (enqueued (s_cfg s)) - length (dequeued (s_cfg s)).
Definition round_rank (e d : list T) (b : bool) (k : option (cpc T)) (pc : wpc) : nat :=
  match pc with
  | W_exit => 0
  | W_save true _ => 1
  | W_popping true => 2 + match k with Some pc => c_rank pc | None => 0 end
  | W_pop true => 11
  | W_isEmpty => 13
  | W_top => 14
  | W_save false _ => 15
  | W_popping false => match k with Some (C_ret _) | None => 16 | Some pc => (if b then 17 else 2) + c_rank pc end
  | W_pop false => if is_empty e d then 30 else 12
  end.
Definition measure (s : system) : nat :=
  pending s * 40 +
  round_rank (enqueued (s_cfg s)) (dequeued (s_cfg s)) (empty_seen (s_cfg s)) (c_c (s_cfg s)) (s_pc s).

Lemma is_empty_pending (e d : list T) : (length d ≤ length e)%nat → is_empty e d = (length e - length d =? 0)%nat.
Proof. intros H. unfold is_empty. apply eq_true_iff_eq. rewrite !Nat.eqb_eq. lia. Qed.

Lemma c_rank_le (pc : cpc T) : (c_rank pc ≤ 8)%nat.
Proof. destruct pc; simpl; lia. Qed.

(** The steps inside a [Pop]. *)
Lemma popping_decreases j e d b (pc pc' : cpc T) q q' :
  cstep pc q = Ok (q', pc') → c_rank pc ≠ 0%nat → (length (d ++ c_effect pc) ≤ length e)%nat →
  (is_empty e d = true → b = true) → (pc' = C_ret None → b || is_empty e (d ++ c_effect pc) = true) →
  ((length e - length (d ++ c_effect pc)) * 40 +
     round_rank e (d ++ c_effect pc) (b || is_empty e (d ++ c_effect pc)) (Some pc') (W_popping j) <
   (length e - length d) * 40 + round_rank e d b (Some pc) (W_popping j))%nat.
Proof.
  intros E Hr Hle Hb Hnone. destruct (cstep_rank _ _ _ _ E Hr) as [Hlt Heff]. pose proof (c_rank_le pc).
  assert (Hret : ∀ r, pc ≠ C_ret r) by (by intros r ->).
  assert (Hold : round_rank e d b (Some pc) (W_popping j) = ((if j then 2 else if b then 17 else 2) + c_rank pc)%nat).
  { by destruct j, pc. }
  rewrite Hold. destruct (c_effect pc) as [|v l] eqn:Ec.
  - rewrite app_nil_r in *. apply Nat.add_lt_mono_l. destruct j; [simpl; lia|].
    destruct pc'; simpl; try (destruct b, (is_empty e d); simpl in *; try (discriminate (Hb eq_refl)); lia).
    destruct r as [v|]; [discriminate|]. destruct b; [lia|]. discriminate (Hb (Hnone eq_refl)).
  - rewrite length_app in Hle |- *. cbn [length] in Hle |- *.
    enough (round_rank e (d ++ v :: l) (b || is_empty e (d ++ v :: l)) (Some pc') (W_popping j) ≤ 2 + 25)%nat by (destruct j, b; lia).
    pose proof (c_rank_le pc'). destruct j; simpl; [lia|]. destruct pc'; simpl; try lia; destruct (b || _); lia.
Qed.

Lemma done_no_push cs st0 s s' : sys_ok cs st0 s → s_done s = true → ¬ push_step s s'.
Proof. intros Hok Hdn. destruct (so_done _ _ _ Hok Hdn) as [H1 H2]. destruct 1; congruence. Qed.

Lemma measure_decreases cs st0 s s' : sys_ok cs st0 s → zlen cs < 2 ^ 64 → s_done s = true → run_step s s' →
  (measure s' < measure s)%nat ∧ s_done s' = true.
Proof.
  intros Hok Hlen Hdn Hstep. pose proof (run_ok _ _ _ _ Hok Hlen Hstep) as Hok'.
  pose proof (inv_prefix _ (so_inv _ _ _ Hok')) as Hpre.
  pose proof (so_seen _ _ _ Hok) as Hseen. pose proof (fo_empty _ (inv_fifo _ (so_inv _ _ _ Hok'))) as Hem.
  destruct (so_done _ _ _ Hok Hdn) as [Htodo Hcp]. pose proof (so_inv _ _ _ Hok) as Hi.
  pose proof (not_popping _ (so_popping _ _ _ Hok)) as Hk. pose proof (so_pushed _ _ _ Hok) as Hpu. clear Hok Hok'.
  destruct s as [[q p k e d b] dn todo pc st n]; unfold measure, pending, remaining in *; simpl in *. subst dn todo p.
  rewrite app_nil_r in Hpu. subst cs.
  destruct Hstep; simpl in *; subst pc; (split; [|done]); simpl.
  - lia.
  - destruct (queue_of _ Hi) as (l & Hq & E); [done|by apply Hk|]. simpl in *.
    rewrite (IsEmpty_spec q l Hq) in H0 by (rewrite E in Hlen; revert Hlen; unfold zlen; rewrite !length_app; lia).
    injection H0 as <-. destruct l as [|x l]; simpl; [lia|]. rewrite is_empty_pending by lia.
    rewrite E, length_app in *. simpl in *. destruct (_ =? 0)%nat eqn:E0; [apply Nat.eqb_eq in E0; lia|]. lia.
  - destruct j; simpl; [lia|]. destruct (is_empty e d); lia.
  - subst k. apply (popping_decreases j _ _ _ _ _ _ _ H2); [intros [r ->]%c_rank_0; by apply (H1 r)|lia|..].
    + apply Hseen. by eexists.
    + intros ->. by apply Hem.
  - subst k. destruct r, j; simpl; lia.
  - destruct j; simpl; lia.
Qed.

(** ** Running a schedule

    [Some mem] is a step of the receiver, [None] one of the writer. *)
Definition push_exec (mem : bool) (s : system) : option system :=
  match c_p (s_cfg s), s_todo s with
  | None, x :: _ => Some (set_cfg (with_p (Some (P_start false x)) (s_cfg s)) s)
  | None, [] => if s_done s then None else Some (set_done s)
  | Some (P_ret ok), l => Some (set_todo (if ok then tl l else l) (set_cfg (with_p None (s_cfg s)) s))
  | Some pc, _ =>
      match pstep mem pc (c_q (s_cfg s)) with
      | Ok (q', pc') => Some (set_cfg {| c_q := q'; c_p := Some pc'; c_c := c_c (s_cfg s);
          enqueued := enqueued (s_cfg s) ++ p_effect pc; dequeued := dequeued (s_cfg s);
          empty_seen := empty_seen (s_cfg s) || is_empty (enqueued (s_cfg s) ++ p_effect pc) (dequeued (s_cfg s)) |} s)
      | Err _ => None
      end
  end.
Definition run_exec (s : system) : option system :=
  let c := s_cfg s in
  match s_pc s with
  | W_top => Some (set_pc (if s_done s then W_isEmpty else W_pop false) s)
  | W_isEmpty => match IsEmpty (c_q c) with Ok flag => Some (set_pc (W_pop flag) s) | Err _ => None end
  | W_pop j => Some (set_pc (W_popping j) (set_cfg {| c_q := c_q c; c_p := c_p c; c_c := Some C_start;
      enqueued := enqueued c; dequeued := dequeued c; empty_seen := is_empty (enqueued c) (dequeued c) |} s))
  | W_popping j =>
      match c_c c with
      | Some (C_ret r) => Some (set_pc (match r with Some v => W_save j v | None => next_round j end) (set_cfg (with_c None c) s))
      | Some pc =>
          match cstep pc (c_q c) with
          | Ok (q', pc') => Some (set_cfg {| c_q := q'; c_p := c_p c; c_c := Some pc'; enqueued := enqueued c;
              dequeued := dequeued c ++ c_effect pc;
              empty_seen := empty_seen c || is_empty (enqueued c) (dequeued c ++ c_effect pc) |} s)
          | Err _ => None
          end
      | None => None
      end
  | W_save j v =>
      match save v (s_st s) with
      | Ok st' => Some {| s_cfg := c; s_done := s_done s; s_todo := s_todo s; s_pc := next_round j; s_st := st';
                          containerNum_ := u64 (containerNum_ s + 1) |}
      | Err _ => None
      end
  | W_exit => None
  end.
Fixpoint exec (l : list (option bool)) (s : system) : option system :=
  match l with
  | [] => Some s
  | Some mem :: l => s ← push_exec mem s; exec l s
  | None :: l => s ← run_exec s; exec l s
  end.

Lemma push_exec_step mem s s' : push_exec mem s = Some s' → push_step s s'.
Proof.
  unfold push_exec. destruct (c_p (s_cfg s)) as [pc|] eqn:Ep.
  - destruct (decide (p_rank pc = 0%nat)) as [[ok ->]%p_rank_0|Hr]; [intros [= <-]; by apply push_ret|].
    intros E. assert (E' : ∃ q' pc', pstep mem pc (c_q (s_cfg s)) = Ok (q', pc') ∧
      s' = set_cfg {| c_q := q'; c_p := Some pc'; c_c := c_c (s_cfg s); enqueued := enqueued (s_cfg s) ++ p_effect pc;
        dequeued := dequeued (s_cfg s);
        empty_seen := empty_seen (s_cfg s) || is_empty (enqueued (s_cfg s) ++ p_effect pc) (dequeued (s_cfg s)) |} s).
    { destruct (pstep mem pc (c_q (s_cfg s))) as [[q' pc']|]; [|by destruct pc]. exists q', pc'. split; [done|].
      destruct pc; try done; by injection E as <-. }
    destruct E' as (q' & pc' & E1 & ->). eapply push_run; [done| |done]. by intros ok ->.
  - destruct (s_todo s) eqn:Et; [destruct (s_done s) eqn:Ed; [done|]|]; intros [= <-]; [by apply push_done|by eapply push_call].
Qed.
Lemma run_exec_step s s' : run_exec s = Some s' → run_step s s'.
Proof.
  unfold run_exec. destruct (s_pc s) as [| |j|j|j v|] eqn:Epc; [intros [= <-]; by apply run_top| | | | |done].
  - destruct (IsEmpty _) eqn:E; [|done]. intros [= <-]. by apply run_isEmpty.
  - intros [= <-]. by apply run_pop.
  - destruct (c_c (s_cfg s)) as [pc|] eqn:Ec; [|done].
    destruct (decide (c_rank pc = 0%nat)) as [[r ->]%c_rank_0|Hr]; [intros [= <-]; by apply run_ret|].
    intros E. assert (E' : ∃ q' pc', cstep pc (c_q (s_cfg s)) = Ok (q', pc') ∧
      s' = set_cfg {| c_q := q'; c_p := c_p (s_cfg s); c_c := Some pc'; enqueued := enqueued (s_cfg s);
        dequeued := dequeued (s_cfg s) ++ c_effect pc;
        empty_seen := empty_seen (s_cfg s) || is_empty (enqueued (s_cfg s)) (dequeued (s_cfg s) ++ c_effect pc) |} s).
    { destruct (cstep pc (c_q (s_cfg s))) as [[q' pc']|]; [|by destruct pc]. exists q', pc'. split; [done|].
      destruct pc; try done; by injection E as <-. }
    destruct E' as (q' & pc' & E1 & ->). eapply run_popping; [done|done| |done]. by intros r ->.
  - destruct (save _ _) eqn:E; [|done]. intros [= <-]. by eapply run_save.
Qed.
Lemma exec_rtc l s s' : exec l s = Some s' → rtc sys_step s s'.
Proof.
  revert s. induction l as [|[mem|] l IH]; simpl; intros s E.
  - by injection E as <-.
  - destruct (push_exec mem s) as [s1|] eqn:E1; [|done]. eapply rtc_l; [left; by eapply push_exec_step|by apply IH].
  - destruct (run_exec s) as [s1|] eqn:E1; [|done]. eapply rtc_l; [right; by apply run_exec_step|by apply IH].
Qed.

(** ** The properties of the two threads, for any way of saving *)

(** Deleting the queue at the end finds it empty and gives every block back. *)
Definition deleted_clean (s : system) : Prop :=
  ∃ freed, destroy_MessageQueue {| lockFreeQueue_ := c_q (s_cfg s); done_ := s_done s |} = Ok ([], freed) ∧
  freed ≡ₚ seq 0 (length (blocks (c_q (s_cfg s)))).

Lemma exit_deletes q cs st0 s : queue_holds q [] → zlen cs < 2 ^ 64 → sys_reachable q cs st0 s → s_pc s = W_exit →
  deleted_clean s.
Proof.
  intros Hq Hlen Hr Hpc. pose proof (sys_reachable_ok _ _ _ _ Hq Hlen Hr) as [Hi _ _ Hd Hc _ _ Hf _].
  rewrite Hpc in Hf. destruct (Hf eq_refl) as [Hdn E]. destruct (Hd Hdn) as [_ Hcp].
  destruct (queue_of _ Hi Hcp) as (l & Hl & El); [apply (not_popping _ Hc); by rewrite Hpc|].
  rewrite E in El. assert (l = []) as -> by (by apply (app_inv_head (dequeued (s_cfg s))); rewrite app_nil_r).
  exact (destroy_MessageQueue_spec {| lockFreeQueue_ := _; done_ := _ |} [] Hl eq_refl).
Qed.

Lemma exit_saves_all q cs st0 s : queue_holds q [] → zlen cs < 2 ^ 64 → sys_reachable q cs st0 s → s_pc s = W_exit →
  save_list cs st0 = Ok (s_st s) ∧ containerNum_ s = u64 (n0 + zlen cs).
Proof.
  intros Hq Hlen Hr Hpc. pose proof (sys_reachable_ok _ _ _ _ Hq Hlen Hr) as [Hi Hp He Hd Hc Hs Hm Hf Hn].
  rewrite Hpc in Hf. destruct (Hf eq_refl) as [Hdn E]. destruct (Hd Hdn) as [Ht Hcp].
  destruct Hs as (l & El & Hsave & Hnum). unfold in_hand, remaining in *. rewrite (not_popping _ Hc), Hpc in El by (by rewrite Hpc).
  rewrite Hcp, Ht, E, El, !app_nil_r in Hp. subst cs. by rewrite Hnum.
Qed.

Lemma done_bounded q cs st0 s n s' : queue_holds q [] → zlen cs < 2 ^ 64 → sys_reachable q cs st0 s → s_done s = true →
  nsteps sys_step n s s' → (n + measure s' ≤ measure s)%nat.
Proof.
  intros Hq Hlen Hr Hdn Hn. revert Hr Hdn. induction Hn as [s|n s1 s2 s3 Hst _ IH]; intros Hr Hdn; [lia|].
  pose proof (sys_reachable_ok _ _ _ _ Hq Hlen Hr) as Hok.
  destruct Hst as [Hst|Hst]; [by destruct (done_no_push _ _ _ _ Hok Hdn Hst)|].
  destruct (measure_decreases _ _ _ _ Hok Hlen Hdn Hst) as [Hlt Hdn'].
  assert (Hr' : sys_reachable q cs st0 s2) by (eapply rtc_r; [exact Hr|by right]). specialize (IH Hr' Hdn'). lia.
Qed.

Lemma measure_bound cs st0 s : sys_ok cs st0 s → (measure s ≤ (length cs + 1) * 40)%nat.
Proof.
  intros Hok. pose proof (so_pushed _ _ _ Hok) as E. assert (pending s ≤ length cs)%nat.
  { unfold pending. rewrite E, length_app. lia. }
  unfold measure. assert (round_rank (enqueued (s_cfg s)) (dequeued (s_cfg s)) (empty_seen (s_cfg s)) (c_c (s_cfg s)) (s_pc s) ≤ 40)%nat; [|lia].
  pose proof c_rank_le as Hle. destruct (s_pc s) as [| |[]|[]|[]|]; simpl; try lia.
  - destruct (is_empty _ _); lia.
  - destruct (c_c (s_cfg s)) as [pc|]; [specialize (Hle pc)|]; lia.
  - destruct (c_c (s_cfg s)) as [[]|]; simpl; destruct (empty_seen (s_cfg s)); lia.
Qed.
End WriterLoop.

(** ** The container queue between DataReceiver and DataWriter *)

Lemma save_list_all config cs s : save_list (SaveToFile config) cs s = save_all config cs s.
Proof. revert s. induction cs as [|c cs IH]; intros s; simpl; [done|]. destruct (SaveToFile config c s); simpl; auto. Qed.

Lemma container_queue malloc_ (q : ReaderWriterQueue Container_t) :
  new_ReaderWriterQueue malloc_ CONTAINER_QUEUE_SIZE = Ok q → queue_holds q [].
Proof. apply new_queue_spec. unfold CONTAINER_QUEUE_SIZE. lia. Qed.

(** C11: whatever the interleaving of the receiver thread, which pushes the containers
    [cs] into the client's queue and then sets [done_], and the writer thread: when the
    writer's loop ends, exactly the containers [cs] have been written to the disk, in
    order, none lost and none twice, and deleting the queue finds it empty, so that it
    does not end the process, and frees each of its blocks once.  The shared writer's
    counter [containerNum_] has grown by their number from whatever value [n0] it had, as
    a 64-bit number, if no other upload's writer ran at the same time (the increment,
    dataWriter.cc:72, is not synchronised). *)
Theorem writer_saves_all malloc_ config n0 cs s0 q s :
  new_ReaderWriterQueue malloc_ CONTAINER_QUEUE_SIZE = Ok q → zlen cs < 2 ^ 64 →
  sys_reachable (SaveToFile config) n0 q cs s0 s → s_pc s = W_exit →
  save_all config cs s0 = Ok (s_st s) ∧ containerNum_ s = u64 (n0 + zlen cs) ∧ deleted_clean s.
Proof.
  intros Hq%container_queue Hlen Hr Hpc. rewrite <- save_list_all.
  destruct (exit_saves_all _ _ _ _ _ _ Hq Hlen Hr Hpc). split_and!; [done|done|by eapply exit_deletes].
Qed.

(** One container, written by the writer after the receiver has finished. *)
Definition sample_queue : ReaderWriterQueue Container_t :=
  match new_ReaderWriterQueue (λ _, true) CONTAINER_QUEUE_SIZE with
  | Ok q => q
  | Err _ => {| blocks := []; frontBlock := 0; tailBlock := 0; largestBlockSize := 0 |}
  end.
Definition sample_container : Container_t := {| c_containerID := [65]; c_body := λ _, 7; c_currentSize := 2 |}.

Definition sample_schedule : list (option bool) := replicate 6 (Some true) ++ replicate 16 None.
Definition sample_exit : system :=
  match exec (SaveToFile sample_config) sample_schedule (sys_start 5 sample_queue [sample_container] InMemory.empty_fs) with
  | Some s => s
  | None => sys_start 5 sample_queue [] InMemory.empty_fs
  end.

Lemma sample_runs :
  match exec (SaveToFile sample_config) sample_schedule (sys_start 5 sample_queue [sample_container] InMemory.empty_fs) with
  | Some _ => true | None => false
  end = true.
Proof. vm_compute. reflexivity. Qed.
Lemma sample_reachable : sys_reachable (SaveToFile sample_config) 5 sample_queue [sample_container] InMemory.empty_fs sample_exit.
Proof.
  pose proof sample_runs as H. unfold sample_exit. revert H. destruct (exec _ _ _) as [s|] eqn:E; [|discriminate].
  intros _. exact (exec_rtc _ _ _ _ E).
Qed.

Lemma writer_saves_all_witness :
  save_all sample_config [sample_container] InMemory.empty_fs = Ok (s_st sample_exit) ∧ containerNum_ sample_exit = 6 ∧
  deleted_clean sample_exit.
Proof.
  apply (writer_saves_all (λ _, true) sample_config 5 [sample_container] InMemory.empty_fs sample_queue sample_exit);
    [reflexivity|reflexivity|exact sample_reachable|vm_compute; reflexivity].
Defined.

(** C12: the two threads make progress. While the flag is not set the receiver's [Push]
    is never stuck (no step of it is undefined), the writer can always take its next
    step until its loop ends, and once [done_] is set the writer's loop ends within 40
    steps for each container and 40 more, in every interleaving; this assumes that every
    container can be written. *)
Theorem writer_terminates malloc_ config n0 cs s0 q s sF :
  new_ReaderWriterQueue malloc_ CONTAINER_QUEUE_SIZE = Ok q → zlen cs < 2 ^ 64 → save_all config cs s0 = Ok sF →
  sys_reachable (SaveToFile config) n0 q cs s0 s →
  (s_done s = false → ∃ s', push_step s s') ∧
  (s_pc s ≠ W_exit → ∃ s', run_step (SaveToFile config) s s') ∧
  (s_done s = true → ∀ n s', nsteps (sys_step (SaveToFile config)) n s s' → (n ≤ (length cs + 1) * 40)%nat).
Proof.
  intros Hq%container_queue Hlen Hsave Hr. pose proof (sys_reachable_ok _ _ _ _ _ _ Hq Hlen Hr) as Hok.
  rewrite <- save_list_all in Hsave. split_and!.
  - by eapply push_progress.
  - by eapply run_progress.
  - intros Hdn n s' Hn. pose proof (done_bounded _ _ _ _ _ _ _ _ Hq Hlen Hr Hdn Hn). pose proof (measure_bound _ _ _ _ _ Hok). lia.
Qed.

Lemma writer_terminates_witness :
  s_done sample_exit = true ∧ ∀ n s', nsteps (sys_step (SaveToFile sample_config)) n sample_exit s' → (n ≤ 80)%nat.
Proof.
  split; [vm_compute; reflexivity|].
  assert (Hq : queue_holds sample_queue []) by (apply (container_queue (λ _, true)); reflexivity).
  destruct (exit_saves_all _ _ _ [sample_container] _ _ Hq ltac:(reflexivity) sample_reachable ltac:(vm_compute; reflexivity)) as [Hs _].
  rewrite save_list_all in Hs.
  apply (writer_terminates (λ _, true) sample_config 5 [sample_container] InMemory.empty_fs sample_queue sample_exit (s_st sample_exit));
    [reflexivity|reflexivity|exact Hs|exact sample_reachable|vm_compute; reflexivity].
Defined.
