(* ===== verification/Connect.v ===== *)
(** * Making and closing connections (src/Comm/sslConnect.cc, src/App/daeServer.cc)

    The constructor, [ConnectSSL], [ListenSSL], [Finish], [GetClientIp] and
    [ClearAcceptedClientSd] are programs that make system and OpenSSL calls.  What the
    calls answer is a parameter: a function of the calls made before and of the call
    itself.  The history of the calls made, with their answers, is the state; the open
    descriptors and the live SSL objects are computed from it.  [main]'s accept loop
    (src/App/daeServer.cc) runs beside the threads of the connections it accepted, which
    it never waits for: the steps of all of them interleave, call by call. *)
From Stdlib Require Import ZArith Lia String.
From stdpp Require Import base tactics numbers list relations.
From S2P Require Import Prelude.
#[local] Open Scope Z_scope.

(** ** Calls *)

Definition path_of (s : string) : bytes := of_string s.
Definition CA_CERT : bytes := path_of "../key/ca/ca.crt".
Definition SERVER_CERT : bytes := path_of "../key/server/server.crt".
Definition SERVER_KEY : bytes := path_of "../key/server/server.key".
Definition CLIENT_CERT : bytes := path_of "../key/client/client.crt".
Definition CLIENT_KEY : bytes := path_of "../key/client/client.key".
Definition IN_SERVERSIDE : Z := 0.
Definition IN_CLIENTSIDE : Z := 1.

(** The members of [sockaddr_in] the code sets. *)
Record sockaddr_in := { sin_port : Z; sin_addr : Z }.

(** Pointers to OpenSSL's objects and descriptors are numbers. *)
Inductive call :=
| socket | setsockopt_reuseaddr (fd : Z) | bind (fd : Z) (a : sockaddr_in) | listen (fd backlog : Z)
| accept (fd : Z) | connect (fd : Z) (a : sockaddr_in) | close (fd : Z) | getpeername (fd : Z)
| SSL_library_init | SSL_load_error_strings
| SSL_CTX_new_server | SSL_CTX_new_client | SSL_CTX_set_mode_auto_retry (ctx : Z) | SSL_CTX_set_verify_peer (ctx : Z)
| SSL_CTX_load_verify_locations (ctx : Z) (file : bytes) | SSL_CTX_use_certificate_file (ctx : Z) (file : bytes)
| SSL_CTX_use_PrivateKey_file (ctx : Z) (file : bytes) | SSL_CTX_check_private_key (ctx : Z) | SSL_CTX_free (ctx : Z)
| SSL_new (ctx : Z) | SSL_set_fd (ssl fd : Z) | SSL_get_fd (ssl : Z) | SSL_connect (ssl : Z) | SSL_accept (ssl : Z)
| SSL_shutdown (ssl : Z) | SSL_get_shutdown (ssl : Z) | SSL_read_int (ssl : Z) | SSL_get_error (ssl ret : Z)
| SSL_free (ssl : Z).

Abbreviation history := (list (call * Z)).

(** A program that makes calls: it has ended, or it makes a call and goes on with the
    answer. *)
Inductive io (A : Type) : Type :=
| Ret (r : result A)
| Call (c : call) (k : Z → io A).
Arguments Ret {A} r.
Arguments Call {A} c k.

Fixpoint bind_io {A B} (f : A → io B) (m : io A) : io B :=
  match m with
  | Ret (Ok a) => f a
  | Ret (Err e) => Ret (Err e)
  | Call c k => Call c (λ r, bind_io f (k r))
  end.
#[export] Instance io_ret : MRet io := λ A a, Ret (Ok a).
#[export] Instance io_bind : MBind io := @bind_io.
Definition lift {A} (r : result A) : io A := Ret r.
Definition do (c : call) : io Z := Call c (λ r, Ret (Ok r)).

(** A program run without interruption. *)
Fixpoint exec (answer : history → call → Z) {A} (p : io A) (h : history) : history * result A :=
  match p with
  | Ret r => (h, r)
  | Call c k => exec answer (k (answer h c)) (h ++ [(c, answer h c)])
  end.

(** [htons] on a little-endian machine. *)
Definition htons (x : Z) : Z := Z.lor (Z.shiftl (Z.land x 255) 8) (Z.land (Z.shiftr x 8) 255).
Definition INADDR_ANY : Z := 0.
Definition SSL_SENT_SHUTDOWN : Z := 1.

Section SSLConnection.
Context (inet_addr : bytes → Z).

Record SSLConnection := {
  socketAddr_ : sockaddr_in; serverIP_ : bytes; port_ : Z; sslCtx_ : Z; listenFd_ : Z }.

(** The constructor. *)
Definition new_SSLConnection (ip : bytes) (port type : Z) : io SSLConnection :=
  fd ← do socket;
  _ ← do SSL_library_init;
  _ ← do SSL_load_error_strings;
  '(ctx, keyFile, crtFile, addr) ←
    (if type =? IN_SERVERSIDE then
       ctx ← do SSL_CTX_new_server;
       _ ← do (SSL_CTX_set_mode_auto_retry ctx);
       let addr := {| sin_port := htons port; sin_addr := htons INADDR_ANY |} in
       r ← do (setsockopt_reuseaddr fd);
       _ ← lift (check (negb (r <? 0)) EXIT_FAILURE);
       r ← do (bind fd addr);
       _ ← lift (check (negb (r =? -1)) EXIT_FAILURE);
       r ← do (listen fd 10);
       _ ← lift (check (negb (r =? -1)) EXIT_FAILURE);
       mret (ctx, SERVER_KEY, SERVER_CERT, addr)
     else if type =? IN_CLIENTSIDE then
       ctx ← do SSL_CTX_new_client;
       mret (ctx, CLIENT_KEY, CLIENT_CERT, {| sin_port := htons port; sin_addr := inet_addr ip |})
     else lift (Err EXIT_FAILURE));
  _ ← do (SSL_CTX_set_verify_peer ctx);
  r ← do (SSL_CTX_load_verify_locations ctx CA_CERT);
  _ ← lift (check (negb (r =? 0)) EXIT_FAILURE);
  r ← do (SSL_CTX_use_certificate_file ctx crtFile);
  _ ← lift (check (negb (r =? 0)) EXIT_FAILURE);
  r ← do (SSL_CTX_use_PrivateKey_file ctx keyFile);
  _ ← lift (check (negb (r =? 0)) EXIT_FAILURE);
  r ← do (SSL_CTX_check_private_key ctx);
  _ ← lift (check (negb (r =? 0)) EXIT_FAILURE);
  mret {| socketAddr_ := addr; serverIP_ := ip; port_ := port; sslCtx_ := ctx; listenFd_ := fd |}.

Definition delete_SSLConnection (x : SSLConnection) : io unit :=
  _ ← do (SSL_CTX_free (sslCtx_ x)); _ ← do (close (listenFd_ x)); mret ().

Definition ListenSSL (x : SSLConnection) : io (Z * Z) :=
  socketFd ← do (accept (listenFd_ x));
  _ ← lift (check (negb (socketFd <? 0)) EXIT_FAILURE);
  ssl ← do (SSL_new (sslCtx_ x));
  r ← do (SSL_set_fd ssl socketFd);
  _ ← lift (check (negb (r =? 0)) EXIT_FAILURE);
  r ← do (SSL_accept ssl);
  _ ← lift (check (r =? 1) EXIT_FAILURE);
  mret (socketFd, ssl).

Definition ConnectSSL (x : SSLConnection) : io (Z * Z) :=
  socketFd ← do socket;
  r ← do (connect socketFd (socketAddr_ x));
  _ ← lift (check (negb (r <? 0)) EXIT_FAILURE);
  ssl ← do (SSL_new (sslCtx_ x));
  r ← do (SSL_set_fd ssl socketFd);
  _ ← lift (check (negb (r =? 0)) EXIT_FAILURE);
  r ← do (SSL_connect ssl);
  _ ← lift (check (r =? 1) EXIT_FAILURE);
  mret (socketFd, ssl).

(** The two middle tests of [Finish] only log. *)
Definition Finish (p : Z * Z) : io unit :=
  ret ← do (SSL_shutdown p.2);
  _ ← lift (check (ret =? 0) EXIT_FAILURE);
  _ ← do (SSL_get_shutdown p.2);
  retStatus ← do (SSL_read_int p.2);
  _ ← do (SSL_get_error p.2 retStatus);
  tmp ← do (SSL_shutdown p.2);
  _ ← lift (check (tmp =? 1) EXIT_FAILURE);
  _ ← do (SSL_free p.2);
  _ ← do (close p.1);
  mret ().

Definition ClearAcceptedClientSd (ssl : Z) : io unit :=
  sd ← do (SSL_get_fd ssl);
  _ ← do (SSL_free ssl);
  _ ← do (close sd);
  mret ().

(** The address goes to the log. *)
Definition GetClientIp (ssl : Z) : io unit :=
  clientFd ← do (SSL_get_fd ssl);
  _ ← do (getpeername clientFd);
  mret ().
End SSLConnection.

(** ** What a history leaves open *)

(** The open descriptors, as a bag: opened ones are added, a closed one removed once. *)
Definition drop_one (x : Z) (l : list Z) : list Z :=
  match list_find (x =.) l with Some (i, _) => delete i l | None => l end.
Definition fd_step (l : list Z) (e : call * Z) : list Z :=
  match e.1 with
  | socket | accept _ => if e.2 <? 0 then l else e.2 :: l
  | close fd => drop_one fd l
  | _ => l
  end.
Definition open_fds (h : history) : list Z := foldl fd_step [] h.
(** The live SSL objects; [SSL_new] answers the null pointer when it fails. *)
Definition ssl_step (l : list Z) (e : call * Z) : list Z :=
  match e.1 with SSL_new _ => if e.2 =? 0 then l else e.2 :: l | SSL_free p => drop_one p l | _ => l end.
Definition live_ssls (h : history) : list Z := foldl ssl_step [] h.
(** The descriptor a live SSL object works on; -1 when none was set, or it is freed. *)
Definition fd_of_step (f : Z → Z) (e : call * Z) : Z → Z :=
  match e.1 with
  | SSL_set_fd ssl fd => if e.2 =? 0 then f else λ p, if p =? ssl then fd else f p
  | SSL_free ssl => λ p, if p =? ssl then -1 else f p
  | _ => f
  end.
Definition fd_of (h : history) : Z → Z := foldl fd_of_step (λ _, -1) h.
Definition calls (h : history) : list call := h.*1.

(** A call is made on objects that exist: SSL objects that are not freed, descriptors
    that are open. *)
Definition usable (h : history) (c : call) : Prop :=
  match c with
  | SSL_set_fd ssl _ | SSL_get_fd ssl | SSL_connect ssl | SSL_accept ssl | SSL_shutdown ssl | SSL_get_shutdown ssl
  | SSL_read_int ssl | SSL_get_error ssl _ | SSL_free ssl => ssl ∈ live_ssls h
  | setsockopt_reuseaddr fd | bind fd _ | listen fd _ | accept fd | connect fd _ | close fd | getpeername fd =>
      fd ∈ open_fds h
  | _ => True
  end.

(** Documented behaviour: [SSL_get_fd] of a live object answers the descriptor that was
    set (nothing is said of a freed one); [SSL_new], when it has memory, makes an object
    that is not one of the live ones; connecting on a descriptor that is none fails. *)
Definition get_fd_ok (answer : history → call → Z) : Prop :=
  ∀ h ssl, ssl ∈ live_ssls h → answer h (SSL_get_fd ssl) = fd_of h ssl.
Definition new_ok (answer : history → call → Z) : Prop :=
  ∀ h ctx, answer h (SSL_new ctx) ≠ 0 ∧ answer h (SSL_new ctx) ∉ live_ssls h.
Definition connect_ok (answer : history → call → Z) : Prop :=
  ∀ h fd a, fd < 0 → answer h (connect fd a) < 0.

(** ** The accept loop and the threads of the connections (daeServer.cc) *)

(** The thread of a connection: it serves its client; it has seen the client close and is
    clearing the connection, [p] being what is left to do; or it has ended without
    clearing it, as the recipe sender does when the client sends one message more. *)
Inductive conn_thread := Serving (ssl : Z) | Clearing (p : io unit) | Left_open (ssl : Z).

Section Server.
Context (answer : history → call → Z).

(** Serving ends in one of the two ways (which service the thread runs is left open, so
    either is possible); then the clearing makes its calls: dataReceiver.cc:62,
    recvDecoder.cc:72 and recipeSender.cc:164 are the same two lines. *)
Inductive conn_step : history → conn_thread → history → conn_thread → Prop :=
| th_closed h ssl : conn_step h (Serving ssl) h (Clearing (_ ← GetClientIp ssl; ClearAcceptedClientSd ssl))
| th_leave h ssl : conn_step h (Serving ssl) h (Left_open ssl)
| th_call h c k : conn_step h (Clearing (Call c k)) (h ++ [(c, answer h c)]) (Clearing (k (answer h c))).

Record daemon := { dm_calls : history; dm_main : io (Z * Z); dm_threads : list conn_thread }.

(** [main] makes the next call of [ListenSSL], or starts the thread of the accepted
    connection and listens again; a thread makes a step, unless [main] has ended the
    process. *)
Inductive daemon_step (x : SSLConnection) : daemon → daemon → Prop :=
| st_call h c k ts : daemon_step x {| dm_calls := h; dm_main := Call c k; dm_threads := ts |}
    {| dm_calls := h ++ [(c, answer h c)]; dm_main := k (answer h c); dm_threads := ts |}
| st_thread_start h fd ssl ts : daemon_step x {| dm_calls := h; dm_main := Ret (Ok (fd, ssl)); dm_threads := ts |}
    {| dm_calls := h; dm_main := ListenSSL x; dm_threads := ts ++ [Serving ssl] |}
| st_thread h main pre t post h' t' : (∀ e, main ≠ Ret (Err e)) → conn_step h t h' t' →
    daemon_step x {| dm_calls := h; dm_main := main; dm_threads := pre ++ t :: post |}
      {| dm_calls := h'; dm_main := main; dm_threads := pre ++ t' :: post |}.

Definition start_listening (x : SSLConnection) (h : history) : daemon :=
  {| dm_calls := h; dm_main := ListenSSL x; dm_threads := [] |}.
Definition reachable (x : SSLConnection) (h : history) : daemon → Prop := rtc (daemon_step x) (start_listening x h).
End Server.

(** What the rest of a program closes and frees, [SSL_get_fd] answering [f]. *)
Fixpoint to_close {A} (f : Z → Z) (p : io A) : list Z :=
  match p with
  | Ret _ => []
  | Call (close fd) k => fd :: to_close f (k 0)
  | Call (SSL_get_fd ssl) k => to_close f (k (f ssl))
  | Call _ k => to_close f (k 0)
  end.
Fixpoint to_free {A} (f : Z → Z) (p : io A) : list Z :=
  match p with
  | Ret _ => []
  | Call (SSL_free ssl) k => ssl :: to_free f (k 0)
  | Call (SSL_get_fd ssl) k => to_free f (k (f ssl))
  | Call _ k => to_free f (k 0)
  end.

(** The descriptor and the SSL object of a thread's connection, while they are in use. *)
Definition thread_fds (f : Z → Z) (t : conn_thread) : list Z :=
  match t with Serving ssl | Left_open ssl => [f ssl] | Clearing p => to_close f p end.
Definition thread_ssls (f : Z → Z) (t : conn_thread) : list Z :=
  match t with Serving ssl | Left_open ssl => [ssl] | Clearing p => to_free f p end.

(** ** The constructor *)

(** What the code takes for success of a call. *)
Definition succeeded (e : call * Z) : bool :=
  match e.1 with
  | setsockopt_reuseaddr _ => negb (e.2 <? 0)
  | bind _ _ | listen _ _ => negb (e.2 =? -1)
  | SSL_CTX_load_verify_locations _ _ | SSL_CTX_use_certificate_file _ _ | SSL_CTX_use_PrivateKey_file _ _
  | SSL_CTX_check_private_key _ => negb (e.2 =? 0)
  | _ => true
  end.

(** The calls that set a connection object up, in their order. *)
Definition setup_calls (x : SSLConnection) (type : Z) : list call :=
  [socket; SSL_library_init; SSL_load_error_strings] ++
  (if type =? IN_SERVERSIDE then
     [SSL_CTX_new_server; SSL_CTX_set_mode_auto_retry (sslCtx_ x); setsockopt_reuseaddr (listenFd_ x);
      bind (listenFd_ x) (socketAddr_ x); listen (listenFd_ x) 10]
   else [SSL_CTX_new_client]) ++
  [SSL_CTX_set_verify_peer (sslCtx_ x); SSL_CTX_load_verify_locations (sslCtx_ x) CA_CERT;
   SSL_CTX_use_certificate_file (sslCtx_ x) (if type =? IN_SERVERSIDE then SERVER_CERT else CLIENT_CERT);
   SSL_CTX_use_PrivateKey_file (sslCtx_ x) (if type =? IN_SERVERSIDE then SERVER_KEY else CLIENT_KEY);
   SSL_CTX_check_private_key (sslCtx_ x)].

Create Rewrite HintDb trace.
Section Proofs.
Context (answer : history → call → Z) (inet_addr : bytes → Z).

Abbreviation exec := (exec answer).

Lemma bind_do0 {A} c (f : Z → io A) h : exec (do c ≫= f) h = exec (f (answer h c)) (h ++ [(c, answer h c)]).
Proof. done. Qed.
Lemma bind_do {A} c (f : Z → io A) h new :
  exec (do c ≫= f) (h ++ new) = exec (f (answer (h ++ new) c)) (h ++ (new ++ [(c, answer (h ++ new) c)])).
Proof. by rewrite app_assoc. Qed.
Lemma bind_check {A} b e (f : unit → io A) h :
  exec (lift (check b e) ≫= f) h = if b then exec (f ()) h else (h, Err e).
Proof. by destruct b. Qed.
Lemma bind_ret {A B} (a : A) (f : A → io B) h : exec (mret a ≫= f) h = exec (f a) h.
Proof. done. Qed.
Lemma exec_bind {A B} (m : io A) (f : A → io B) : ∀ h,
  exec (m ≫= f) h = let '(h', r) := exec m h in match r with Ok a => exec (f a) h' | Err e => (h', Err e) end.
Proof. induction m as [[a|e]|c k IH]; intros h; [done..|]. apply IH. Qed.
Lemma bind_bind {A B D} (m : io A) (f : A → io B) (g : B → io D) h :
  exec ((m ≫= f) ≫= g) h = exec (m ≫= λ a, f a ≫= g) h.
Proof.
  rewrite !exec_bind. destruct (exec m h) as [h' [a|e]]; [|done]. by rewrite exec_bind.
Qed.

(** [run_calls t] runs the calls one by one, each with some answer; [t] proves the goal where a
    test fails: for the constructor, [stop]. *)
Ltac stop := eexists; split; [reflexivity|]; split; [done|]; right; do 2 eexists; split; [reflexivity|done].
Ltac run_calls t :=
  repeat first
    [ rewrite bind_bind
    | rewrite bind_do; lazymatch goal with |- context [answer ?h ?c] => generalize (answer h c); intros ? end
    | rewrite bind_ret
    | rewrite bind_check;
      lazymatch goal with |- context [if ?b then _ else _] => destruct b eqn:?; [|solve [t]] end
    | progress cbv beta ].

(** Making a connection object either goes through all its calls, in the order
    [setup_calls], each successful as far as the code looks (for the server: bound and
    listening; for both: peer verification requested, authority, certificate and private
    key of the role loaded and matching), and the object has what they returned; or it
    ends the program at the first call that fails, or at an unknown connection type. *)
Theorem new_SSLConnection_sets_up ip port type h :
  let '(h', r) := exec (new_SSLConnection inet_addr ip port type) h in
  ∃ new, h' = h ++ new ∧
    match r with
    | Ok x => calls new = setup_calls x type ∧ Forall (λ e, succeeded e = true) new ∧ port_ x = port ∧ serverIP_ x = ip ∧
        listenFd_ x = answer h socket
    | Err e => e = EXIT_FAILURE ∧
        ((type ≠ IN_SERVERSIDE ∧ type ≠ IN_CLIENTSIDE) ∨ ∃ old c, new = old ++ [c] ∧ succeeded c = false)
    end.
Proof.
  unfold new_SSLConnection. rewrite bind_do0. generalize (answer h socket). intros fd.
    run_calls ltac:(stop). unfold setup_calls.
  destruct (type =? IN_SERVERSIDE) eqn:Es; [|destruct (type =? IN_CLIENTSIDE) eqn:Ec].
  - run_calls ltac:(stop). eexists. split; [reflexivity|]. split; [done|]. split; [|done].
    by repeat (constructor; [first [done|assumption]|]).
  - run_calls ltac:(stop). eexists. split; [reflexivity|]. split; [done|]. split; [|done].
    by repeat (constructor; [first [done|assumption]|]).
  - eexists. split; [reflexivity|]. split; [done|]. left. by apply Z.eqb_neq in Es, Ec.
Qed.

(** ** Connections and their resources *)

End Proofs.

(** ** Histories *)

Section Ownership.
Context (answer : history → call → Z).

Lemma drop_one_head x l : drop_one x (x :: l) = l.
Proof. unfold drop_one. simpl. by rewrite decide_True. Qed.
Lemma drop_one_perm x l l' : l ≡ₚ x :: l' → drop_one x l ≡ₚ l'.
Proof.
  intros Hp. unfold drop_one. destruct (list_find (x =.) l) as [[i y]|] eqn:E.
  - apply list_find_Some in E as (Hi & <- & _). apply delete_Permutation in Hi. rewrite Hi in Hp.
    by apply Permutation_cons_inv in Hp.
  - apply list_find_None in E. rewrite Hp in E. by apply Forall_cons in E as [[] _].
Qed.
Lemma open_fds_snoc h e : open_fds (h ++ [e]) = fd_step (open_fds h) e.
Proof. unfold open_fds. by rewrite foldl_app. Qed.
Lemma live_ssls_snoc h e : live_ssls (h ++ [e]) = ssl_step (live_ssls h) e.
Proof. unfold live_ssls. by rewrite foldl_app. Qed.
Lemma fd_of_snoc h e : fd_of (h ++ [e]) = fd_of_step (fd_of h) e.
Proof. unfold fd_of. by rewrite foldl_app. Qed.
#[local] Hint Rewrite open_fds_snoc live_ssls_snoc fd_of_snoc : trace.
Ltac trace := autorewrite with trace; cbn [fd_step ssl_step fd_of_step fst snd].

(** ** The accept loop *)

(** What is left of [ListenSSL] after its first, second and third call. *)
Definition listen_new (x : SSLConnection) (fd : Z) : io (Z * Z) :=
  Call (SSL_new (sslCtx_ x)) (λ ssl, Call (SSL_set_fd ssl fd) (λ r,
    _ ← lift (check (negb (r =? 0)) EXIT_FAILURE); r ← do (SSL_accept ssl);
    _ ← lift (check (r =? 1) EXIT_FAILURE); mret (fd, ssl))).
Definition listen_set (fd ssl : Z) : io (Z * Z) :=
  Call (SSL_set_fd ssl fd) (λ r,
    _ ← lift (check (negb (r =? 0)) EXIT_FAILURE); r ← do (SSL_accept ssl);
    _ ← lift (check (r =? 1) EXIT_FAILURE); mret (fd, ssl)).
Definition listen_shake (fd ssl : Z) : io (Z * Z) :=
  Call (SSL_accept ssl) (λ r, _ ← lift (check (r =? 1) EXIT_FAILURE); mret (fd, ssl)).

(** Where [main] is, with the descriptor and the SSL object it has taken so far. *)
Inductive listening (x : SSLConnection) (f : Z → Z) : io (Z * Z) → list Z → list Z → Prop :=
| ls_accept : listening x f (ListenSSL x) [] []
| ls_new fd : listening x f (listen_new x fd) [fd] []
| ls_set fd ssl : listening x f (listen_set fd ssl) [fd] [ssl]
| ls_shake fd ssl : f ssl = fd → listening x f (listen_shake fd ssl) [fd] [ssl]
| ls_done fd ssl : f ssl = fd → listening x f (Ret (Ok (fd, ssl))) [fd] [ssl]
| ls_exit fds ssls : (length fds ≤ 1)%nat → (length ssls ≤ 1)%nat →
    listening x f (Ret (Err EXIT_FAILURE)) fds ssls.

(** Where the thread of a connection is. *)
Inductive thread_at (f : Z → Z) : conn_thread → Prop :=
| ta_serving ssl : thread_at f (Serving ssl)
| ta_left ssl : thread_at f (Left_open ssl)
| ta_log ssl : thread_at f (Clearing (_ ← GetClientIp ssl; ClearAcceptedClientSd ssl))
| ta_peer ssl fd : f ssl = fd → thread_at f (Clearing (Call (getpeername fd) (λ _, ClearAcceptedClientSd ssl)))
| ta_clear ssl : thread_at f (Clearing (ClearAcceptedClientSd ssl))
| ta_free ssl fd : f ssl = fd → thread_at f (Clearing (Call (SSL_free ssl) (λ _, Call (close fd) (λ _, mret ()))))
| ta_close fd : thread_at f (Clearing (Call (close fd) (λ _, mret ())))
| ta_end : thread_at f (Clearing (mret ())).

(** A thread only depends on the descriptor of its own SSL object. *)
Lemma thread_frame f f' t : thread_at f t → (∀ ssl, ssl ∈ thread_ssls f t → f' ssl = f ssl) →
  thread_at f' t ∧ thread_fds f' t = thread_fds f t ∧ thread_ssls f' t = thread_ssls f t.
Proof.
  intros Ht. destruct Ht; simpl; intros Hf; try (rewrite Hf by apply list_elem_of_here); (split; [|done]);
    constructor; by rewrite ?Hf by apply list_elem_of_here.
Qed.
Lemma threads_frame f f' ts : Forall (thread_at f) ts → (∀ ssl, ssl ∈ ts ≫= thread_ssls f → f' ssl = f ssl) →
  Forall (thread_at f') ts ∧ ts ≫= thread_fds f' = ts ≫= thread_fds f ∧ ts ≫= thread_ssls f' = ts ≫= thread_ssls f.
Proof.
  induction 1 as [|t ts Ht _ IH]; intros Hf; [done|]. rewrite bind_cons in Hf. rewrite !bind_cons.
  destruct (thread_frame f f' t Ht) as (H1 & -> & ->); [intros; apply Hf; apply elem_of_app; auto|].
  destruct IH as (H2 & -> & ->); [intros; apply Hf; apply elem_of_app; auto|]. by split; [constructor|].
Qed.

Context (Hget : get_fd_ok answer) (Hnew : new_ok answer) (x : SSLConnection) (h0 : history).

(** Every open descriptor and every live SSL object has one owner: [main], a thread, or
    whoever opened it before. *)
Record owned (s : daemon) (fds ssls : list Z) : Prop := {
  ow_main : listening x (fd_of (dm_calls s)) (dm_main s) fds ssls;
  ow_threads : Forall (thread_at (fd_of (dm_calls s))) (dm_threads s);
  ow_fds : open_fds (dm_calls s) ≡ₚ fds ++ (dm_threads s ≫= thread_fds (fd_of (dm_calls s))) ++ open_fds h0;
  ow_ssls : live_ssls (dm_calls s) ≡ₚ ssls ++ (dm_threads s ≫= thread_ssls (fd_of (dm_calls s)));
  ow_nodup : NoDup (live_ssls (dm_calls s)) }.

Lemma owned_start : live_ssls h0 = [] → owned (start_listening x h0) [] [].
Proof. intros E. split; simpl; [constructor..|done|by rewrite E|rewrite E; constructor]. Qed.

Ltac own := split; cbn [dm_calls dm_main dm_threads]; trace.

(** [main] makes a call. *)
Lemma owned_call h c k ts fds ssls : owned {| dm_calls := h; dm_main := Call c k; dm_threads := ts |} fds ssls →
  ∃ fds' ssls', owned {| dm_calls := h ++ [(c, answer h c)]; dm_main := k (answer h c); dm_threads := ts |} fds' ssls'.
Proof.
  intros [Hm Ht Hf Hs Hn]; simpl in Ht, Hf, Hs, Hn, Hm. inversion Hm; subst.
  - generalize (answer h (accept (listenFd_ x))). intros r. destruct (r <? 0) eqn:Er; [exists [], []|exists [r], []];
      own; rewrite ?Er; try done; [apply ls_exit; simpl; lia|apply ls_new|by rewrite Hf].
  - destruct (Hnew h (sslCtx_ x)) as [E0 Hni]. apply Z.eqb_neq in E0.
    generalize dependent (answer h (SSL_new (sslCtx_ x))). intros ssl E0 Hni. exists [fd], [ssl].
    own; rewrite ?E0; try done; [apply ls_set|by rewrite Hs|by constructor].
  - generalize (answer h (SSL_set_fd ssl fd)). intros r. destruct (r =? 0) eqn:Er.
    + exists [fd], [ssl]. own; rewrite ?Er; try done. apply ls_exit; simpl; lia.
    + destruct (threads_frame (fd_of h) (fd_of_step (fd_of h) (SSL_set_fd ssl fd, r)) ts Ht) as (Ht' & Ef & Es).
      { intros p Hp. unfold fd_of_step. simpl. rewrite Er. destruct (Z.eqb_spec p ssl) as [->|]; [|done].
        rewrite Hs in Hn. by apply NoDup_cons in Hn as [[] _]. }
      exists [fd], [ssl]. split; cbn [dm_calls dm_main dm_threads]; rewrite ?fd_of_snoc, ?Ef, ?Es; trace; try done.
      rewrite Er. apply ls_shake. by rewrite Z.eqb_refl.
  - generalize (answer h (SSL_accept ssl)). intros r. exists [fd_of h ssl], [ssl].
    destruct (r =? 1) eqn:Er; own; rewrite ?Er; try done; [by apply ls_done|apply ls_exit; simpl; lia].
Qed.
Lemma listening_frame f f' m fds ssls : listening x f m fds ssls → (∀ p, p ∈ ssls → f' p = f p) →
  listening x f' m fds ssls.
Proof. intros Hm Hf. destruct Hm; constructor; by rewrite ?Hf by apply list_elem_of_here. Qed.

(** A thread's step gives up [cf] and [cs] of what it holds, and leaves the others alone. *)
Lemma owned_update h h' m pre t t' post fds ssls cf cs :
  owned {| dm_calls := h; dm_main := m; dm_threads := pre ++ t :: post |} fds ssls →
  (∀ p, p ∉ cs → fd_of h' p = fd_of h p) → thread_at (fd_of h') t' →
  thread_fds (fd_of h) t = cf ++ thread_fds (fd_of h') t' → thread_ssls (fd_of h) t = cs ++ thread_ssls (fd_of h') t' →
  (∀ l, open_fds h ≡ₚ cf ++ l → open_fds h' ≡ₚ l) → (∀ l, live_ssls h ≡ₚ cs ++ l → live_ssls h' ≡ₚ l) →
  owned {| dm_calls := h'; dm_main := m; dm_threads := pre ++ t' :: post |} fds ssls.
Proof.
  intros [Hm Ht Hf Hs Hn] Hfr Hat Ef Es Hof Hos. cbn [dm_calls dm_main dm_threads] in *.
  apply Forall_app in Ht as [Hpre Hpost]. apply Forall_cons in Hpost as [_ Hpost].
  rewrite bind_app, bind_cons, Ef in Hf. rewrite bind_app, bind_cons, Es in Hs. rewrite Hs in Hn.
  set (sp := pre ≫= thread_ssls (fd_of h)) in *. set (sq := post ≫= thread_ssls (fd_of h)) in *.
  assert (Hs' : live_ssls h ≡ₚ cs ++ ssls ++ sp ++ thread_ssls (fd_of h') t' ++ sq) by (rewrite Hs; solve_Permutation).
  assert (Hn' : NoDup (cs ++ ssls ++ sp ++ thread_ssls (fd_of h') t' ++ sq)) by (rewrite <- Hs', Hs; done).
  apply NoDup_app in Hn' as (_ & Hdis & Hn').
  assert (Hsame : ∀ p, p ∈ ssls ∨ p ∈ sp ∨ p ∈ sq → fd_of h' p = fd_of h p).
  { intros p Hp. apply Hfr. intros Hc. apply (Hdis p Hc). rewrite !elem_of_app. tauto. }
  destruct (threads_frame (fd_of h) (fd_of h') pre Hpre) as (Hpre' & Efp & Esp); [intros; apply Hsame; auto|].
  destruct (threads_frame (fd_of h) (fd_of h') post Hpost) as (Hpost' & Efq & Esq); [intros; apply Hsame; auto|].
  split; cbn [dm_calls dm_main dm_threads]; rewrite ?bind_app, ?bind_cons, ?Efp, ?Esp, ?Efq, ?Esq.
  - eapply listening_frame; [done|]. intros. apply Hsame. auto.
  - apply Forall_app. split; [done|]. by constructor.
  - apply Hof. rewrite Hf. solve_Permutation.
  - by apply Hos.
  - rewrite (Hos _ Hs'). done.
Qed.

Lemma owned_thread h h' m pre t t' post fds ssls :
  owned {| dm_calls := h; dm_main := m; dm_threads := pre ++ t :: post |} fds ssls → conn_step answer h t h' t' →
  owned {| dm_calls := h'; dm_main := m; dm_threads := pre ++ t' :: post |} fds ssls.
Proof.
  intros Ho Hst. pose proof Ho as [_ Ht _ Hs _]. cbn [dm_calls dm_threads] in *.
  apply Forall_app in Ht as [_ Ht]. apply Forall_cons in Ht as [Ht _].
  assert (Hlive : ∀ ssl, ssl ∈ thread_ssls (fd_of h) t → ssl ∈ live_ssls h).
  { intros ssl Hl. rewrite Hs, bind_app, bind_cons, !elem_of_app. auto. }
  inversion Hst; subst; [| |inversion Ht; subst].
  - eapply (owned_update h' h' m pre _ _ post fds ssls [] []); try done. constructor.
  - eapply (owned_update h' h' m pre _ _ post fds ssls [] []); try done. constructor.
  - rewrite Hget by (apply Hlive, list_elem_of_here).
    eapply (owned_update h _ m pre _ _ post fds ssls [] []); try done; trace; try done. by constructor.
  - eapply (owned_update h _ m pre _ _ post fds ssls [] []); try done; trace; try done. constructor.
  - rewrite Hget by (apply Hlive, list_elem_of_here).
    eapply (owned_update h _ m pre _ _ post fds ssls [] []); try done; trace; try done. by constructor.
  - eapply (owned_update h _ m pre _ _ post fds ssls [] [ssl]); try done; trace; try done; [|constructor|].
    + intros p Hp. destruct (Z.eqb_spec p ssl) as [->|]; [|done]. destruct Hp. apply list_elem_of_here.
    + intros l. apply drop_one_perm.
  - eapply (owned_update h _ m pre _ _ post fds ssls [fd] []); try done; trace; try done; [constructor|].
    intros l. apply drop_one_perm.
Qed.

Lemma owned_step s s' fds ssls : owned s fds ssls → daemon_step answer x s s' → ∃ fds' ssls', owned s' fds' ssls'.
Proof.
  intros Ho Hst. destruct Hst as [h c k ts|h fd ssl ts|h m pre t post h' t' Hm Ht].
  - by eapply owned_call.
  - destruct Ho as [Hm Ht Hf Hs Hn]. cbn [dm_calls dm_main dm_threads] in *. inversion Hm; subst. exists [], [].
    split; cbn [dm_calls dm_main dm_threads]; rewrite ?bind_app; simpl; [constructor| | | |done].
    + apply Forall_app. split; [done|]. repeat constructor.
    + rewrite Hf. solve_Permutation.
    + rewrite Hs. solve_Permutation.
  - exists fds, ssls. by eapply owned_thread.
Qed.

Lemma reachable_owned s : live_ssls h0 = [] → reachable answer x h0 s → ∃ fds ssls, owned s fds ssls.
Proof.
  intros E0. apply (rtc_ind_r (λ s, ∃ fds ssls, owned s fds ssls)).
  - exists [], []. by apply owned_start.
  - intros s1 s2 _ Hst (fds & ssls & Ho). by eapply owned_step.
Qed.

(** What [main] has taken, and that its next call is on objects that exist. *)
Lemma listening_usable s fds ssls : owned s fds ssls → listenFd_ x ∈ open_fds h0 →
  (length fds ≤ 1)%nat ∧ (length ssls ≤ 1)%nat ∧ (dm_main s = ListenSSL x → fds = [] ∧ ssls = []) ∧
  ∀ c k, dm_main s = Call c k → usable (dm_calls s) c.
Proof.
  intros [Hm _ Hf Hs _] Hl.
  inversion Hm; (split; [simpl; lia|]); (split; [simpl; lia|]); (split; [done|]); intros c k E;
    try discriminate E; injection E as <- _; simpl; rewrite ?Hf, ?Hs; set_solver.
Qed.

(** A thread serves on an object that is live and a descriptor that is open. *)
Lemma serving_live s fds ssls ssl : owned s fds ssls → Serving ssl ∈ dm_threads s →
  ssl ∈ live_ssls (dm_calls s) ∧ fd_of (dm_calls s) ssl ∈ open_fds (dm_calls s).
Proof.
  intros [_ _ Hf Hs _] Hin. rewrite Hf, Hs. rewrite !elem_of_app.
  split; [right|right; left]; apply list_elem_of_bind; exists (Serving ssl); split; done || apply list_elem_of_here.
Qed.

(** So is the next call of a thread. *)
Lemma thread_usable s fds ssls c k : owned s fds ssls → Clearing (Call c k) ∈ dm_threads s → usable (dm_calls s) c.
Proof.
  intros [_ Ht Hf Hs _] Hin. pose proof (proj1 (Forall_forall _ _) Ht _ Hin) as Hat.
  apply list_elem_of_split in Hin as (pre & post & E). rewrite E, bind_app, bind_cons in Hf, Hs.
  inversion Hat; subst; simpl in *; rewrite ?Hf, ?Hs; set_solver.
Qed.
End Ownership.


(** C26: one client whose TLS handshake fails (or who only connects and closes) ends the
    server, whatever the other connections are doing: in every state the accept loop can
    reach, with any number of threads serving clients, when [SSL_accept] does not succeed
    the process exits with a failure, and no thread makes another step. *)
Theorem failed_handshake_exits answer x h0 s ssl k :
  get_fd_ok answer → new_ok answer → live_ssls h0 = [] → reachable answer x h0 s →
  dm_main s = Call (SSL_accept ssl) k → answer (dm_calls s) (SSL_accept ssl) ≠ 1 →
  let s' := {| dm_calls := dm_calls s ++ [(SSL_accept ssl, answer (dm_calls s) (SSL_accept ssl))];
               dm_main := Ret (Err EXIT_FAILURE); dm_threads := dm_threads s |} in
  daemon_step answer x s s' ∧ ∀ s'', ¬ daemon_step answer x s' s''.
Proof.
  intros Hget Hnew E0 Hr Em Hne. destruct (reachable_owned answer Hget Hnew x h0 s E0 Hr) as (fds & ssls & Ho).
  destruct Ho as [Hm _ _ _ _]. destruct s as [h m ts]. cbn [dm_calls dm_main dm_threads] in *. subst m.
  assert (Ek : k (answer h (SSL_accept ssl)) = Ret (Err EXIT_FAILURE)).
  { inversion Hm; subst. by rewrite (proj2 (Z.eqb_neq _ _) Hne). }
  split.
  - rewrite <- Ek. apply st_call.
  - intros s'' Hst. inversion Hst as [| |h1 m1 pre t post h' t' Hrun _]; subst. by apply (Hrun EXIT_FAILURE).
Qed.

(** ** A client's connection *)

Section Client.
Context (answer : history → call → Z).

Lemma exec_do {A} c (f : Z → io A) h h' b :
  exec answer (do c ≫= f) h = (h', Ok b) → exec answer (f (answer h c)) (h ++ [(c, answer h c)]) = (h', Ok b).
Proof. done. Qed.
Lemma exec_check {A} b e (f : unit → io A) h h' (y : A) :
  exec answer (lift (check b e) ≫= f) h = (h', Ok y) → b = true ∧ exec answer (f ()) h = (h', Ok y).
Proof. rewrite bind_check. by destruct b. Qed.
(** Split a run that returned into its calls. *)
Ltac inv_io :=
  repeat match goal with
  | H : exec answer (do ?c ≫= _) ?h = (_, Ok _) |- _ => apply exec_do in H; remember (answer h c) eqn:?; cbv beta in H
  | H : exec answer (lift (check _ _) ≫= _) _ = (_, Ok _) |- _ =>
      let E := fresh "E" in apply exec_check in H as [E H]; cbv beta in H
  | H : exec answer (mret _) _ = (_, Ok _) |- _ => injection H as <- <-
  end.

(** A client that connects and finishes has exactly the descriptors and SSL objects it
    had before. *)
Theorem client_releases x h h' u : connect_ok answer → new_ok answer →
  exec answer (p ← ConnectSSL x; Finish p) h = (h', Ok u) → open_fds h' = open_fds h ∧ live_ssls h' = live_ssls h.
Proof.
  intros Hconn Hnew E. rewrite exec_bind in E. destruct (exec answer (ConnectSSL x) h) as [h1 [p|e]] eqn:E1; [|done].
  unfold ConnectSSL in E1. inv_io. unfold Finish in E. cbn [fst snd] in E. inv_io.
  assert (Hz : z <? 0 = false).
  { apply Z.ltb_ge. destruct (Z.lt_ge_cases z 0) as [Hz|]; [|done]. apply (Hconn (h ++ [(socket, z)]) z (socketAddr_ x)) in Hz.
    rewrite <- Heqz0 in Hz. lazymatch goal with H : negb (z0 <? 0) = true |- _ => apply negb_true_iff, Z.ltb_ge in H end. lia. }
  assert (Hz1 : z1 =? 0 = false) by (rewrite Heqz1; apply Z.eqb_neq, Hnew).
  rewrite !open_fds_snoc, !live_ssls_snoc. cbn [fd_step ssl_step fst snd]. rewrite Hz, Hz1. by rewrite !drop_one_head.
Qed.
End Client.

(** ** Concrete connections *)

(** Every call succeeds: descriptors and objects are numbered by the length of the history. *)
Definition sample_answer (h : history) (c : call) : Z :=
  match c with
  | socket | accept _ => 3 + Z.of_nat (length h)
  | SSL_new _ => 1 + foldr Z.max 0 (live_ssls h)
  | SSL_get_fd ssl => fd_of h ssl
  | connect fd _ => if fd <? 0 then -1 else 0
  | bind _ _ | listen _ _ | setsockopt_reuseaddr _ | close _ | getpeername _ => 0
  | SSL_shutdown ssl => if existsb (λ c, match c with SSL_shutdown s => s =? ssl | _ => false end) (calls h) then 1 else 0
  | _ => 1
  end.
Definition sample_server : SSLConnection :=
  {| socketAddr_ := {| sin_port := htons 18889; sin_addr := 0 |}; serverIP_ := []; port_ := 18889; sslCtx_ := 1; listenFd_ := 3 |}.

Lemma sample_get_fd : get_fd_ok sample_answer.
Proof. intros h ssl _. reflexivity. Defined.
Lemma max_above (l : list Z) p : p ∈ l → p ≤ foldr Z.max 0 l.
Proof. induction 1 as [p l|p q l _ IH]; simpl; lia. Qed.
Lemma max_nonneg (l : list Z) : 0 ≤ foldr Z.max 0 l.
Proof. induction l; simpl; lia. Qed.
Lemma sample_new : new_ok sample_answer.
Proof.
  intros h ctx. simpl. pose proof (max_nonneg (live_ssls h)). split; [lia|].
  intros Hin%max_above. lia.
Qed.
Lemma sample_connect : connect_ok sample_answer.
Proof. intros h fd a Hfd. simpl. by rewrite (proj2 (Z.ltb_lt _ _) Hfd). Qed.

(** Who makes the next step. *)
Inductive turn := Main | Thread (i : nat) | Leave (i : nat).
Definition take_turn (answer : history → call → Z) (x : SSLConnection) (t : turn) (s : daemon) : option daemon :=
  let h := dm_calls s in
  match t, dm_main s with
  | _, Ret (Err _) => None
  | Main, Call c k => Some {| dm_calls := h ++ [(c, answer h c)]; dm_main := k (answer h c); dm_threads := dm_threads s |}
  | Main, Ret (Ok (_, ssl)) => Some {| dm_calls := h; dm_main := ListenSSL x; dm_threads := dm_threads s ++ [Serving ssl] |}
  | Thread i, m =>
      match dm_threads s !! i with
      | Some (Serving ssl) =>
          Some {| dm_calls := h; dm_main := m; dm_threads := take i (dm_threads s) ++
                    Clearing (_ ← GetClientIp ssl; ClearAcceptedClientSd ssl) :: drop (S i) (dm_threads s) |}
      | Some (Clearing (Call c k)) =>
          Some {| dm_calls := h ++ [(c, answer h c)]; dm_main := m;
                  dm_threads := take i (dm_threads s) ++ Clearing (k (answer h c)) :: drop (S i) (dm_threads s) |}
      | _ => None
      end
  | Leave i, m =>
      match dm_threads s !! i with
      | Some (Serving ssl) =>
          Some {| dm_calls := h; dm_main := m; dm_threads := take i (dm_threads s) ++ Left_open ssl :: drop (S i) (dm_threads s) |}
      | _ => None
      end
  end.
Fixpoint take_turns (answer : history → call → Z) (x : SSLConnection) (ts : list turn) (s : daemon) : option daemon :=
  match ts with [] => Some s | t :: ts => s' ← take_turn answer x t s; take_turns answer x ts s' end.

Lemma take_turn_step answer x t s s' : take_turn answer x t s = Some s' → daemon_step answer x s s'.
Proof.
  destruct s as [h m ts]. unfold take_turn. cbn [dm_calls dm_main dm_threads]. intros E.
  assert (Hat : ∀ i th h' th', (∀ e, m ≠ Ret (Err e)) → ts !! i = Some th → conn_step answer h th h' th' →
    daemon_step answer x {| dm_calls := h; dm_main := m; dm_threads := ts |}
      {| dm_calls := h'; dm_main := m; dm_threads := take i ts ++ th' :: drop (S i) ts |}).
  { intros i th h' th' Hm Hi Hst. rewrite <- (take_drop_middle _ _ _ Hi) at 1. by apply st_thread. }
  destruct t as [|i|i]; destruct m as [[[fd ssl]|e]|c k]; try done.
  1, 2: injection E as <-; constructor.
  all: destruct (ts !! i) as [[ssl'|[r|c' k']|ssl']|] eqn:Ei; try done; injection E as <-.
  all: eapply Hat; [by intros|exact Ei|constructor].
Qed.
Lemma take_turns_reachable answer x ts : ∀ s s', take_turns answer x ts s = Some s' → rtc (daemon_step answer x) s s'.
Proof.
  induction ts as [|t ts IH]; intros s s' E; simpl in E; [by injection E as <-|].
  destruct (take_turn answer x t s) as [s1|] eqn:E1; [|done]. eapply rtc_l; [by eapply take_turn_step|by apply IH].
Qed.

(** Two clients: the first one closes while the second one is being accepted. *)
Definition sample_start : history := [(socket, 3)].
Definition sample_turns : list turn :=
  replicate 7 Main ++ replicate 3 (Thread 0) ++ replicate 3 Main ++ replicate 2 (Thread 0) ++ replicate 4 (Thread 1) ++
  [Thread 0] ++ replicate 2 (Thread 1).
Definition sample_daemon (ts : list turn) : daemon :=
  default (start_listening sample_server sample_start)
    (take_turns sample_answer sample_server ts (start_listening sample_server sample_start)).


(** The second client's handshake fails. *)
Definition failing_answer (h : history) (c : call) : Z :=
  match c with SSL_accept ssl => if ssl =? 1 then 1 else -1 | _ => sample_answer h c end.
Definition sample_failing : daemon :=
  default (start_listening sample_server sample_start)
    (take_turns failing_answer sample_server (replicate 8 Main) (start_listening sample_server sample_start)).

Lemma failed_handshake_exits_witness :
  dm_threads sample_failing = [Serving 1] ∧
  ∃ s', daemon_step failing_answer sample_server sample_failing s' ∧ dm_threads s' = [Serving 1] ∧
    ∀ s'', ¬ daemon_step failing_answer sample_server s' s''.
Proof.
  split; [by vm_compute|].
  destruct (failed_handshake_exits failing_answer sample_server sample_start sample_failing 2
    (λ r, _ ← lift (check (r =? 1) EXIT_FAILURE); mret (8, 2))) as [H1 H2].
  - intros h ssl Hl. exact (sample_get_fd h ssl Hl).
  - intros h ctx. exact (sample_new h ctx).
  - done.
  - apply (take_turns_reachable _ _ (replicate 8 Main)). by vm_compute.
  - by vm_compute.
  - by vm_compute.
  - eexists. split; [exact H1|]. split; [by vm_compute|exact H2].
Defined.

Lemma client_releases_sample :
  ∃ h' u, exec sample_answer (p ← ConnectSSL sample_server; Finish p) sample_start = (h', Ok u) ∧
    open_fds h' = [3] ∧ live_ssls h' = [].
Proof.
  destruct (exec sample_answer (p ← ConnectSSL sample_server; Finish p) sample_start) as [h' [u|e]] eqn:E; [|by vm_compute in E].
  exists h', u. split; [done|]. exact (client_releases sample_answer sample_server sample_start h' u sample_connect sample_new E).
Qed.
