(* ===== verification/SslConn.v ===== *)
(** * Message framing over TLS (src/Comm/sslConnect.cc)

    [SendData] and [ReceiveData] carry messages as a 4-byte length and the data.
    The TLS library is a parameter: a connection delivers the records its peer wrote,
    a read returns bytes of one record, and a small write is one record, as the
    OpenSSL manual documents.  [Channel] is the interface the server's loops use; the
    framing code implements it. *)
From Stdlib Require Import ZArith Lia.
From stdpp Require Import base tactics numbers list.
From S2P Require Import Prelude Common Database.
#[local] Open Scope Z_scope.

(** ** The interface *)

Class Channel (C : Type) := {
  SendData : C → bytes → result (bool * C);
  ReceiveData : C → SendMsgBuffer_t → result (bool * Z * SendMsgBuffer_t * C);
  ClearAcceptedClientSd : C → C }.

(** [m'] is [m] with [f] at its start. *)
Definition received (m : SendMsgBuffer_t) (f : bytes) (m' : SendMsgBuffer_t) : Prop :=
  bufCap m' = bufCap m ∧ ∀ i, sendBuffer m' i = bwrite (sendBuffer m) 0 f i.

(** [chan c ins outs]: the peer has sent the messages [ins], still to be received,
    and closes the connection behind them; [outs] have been sent to it. *)
Class ChannelLaws (C : Type) `{Channel C} := {
  chan : C → list bytes → list bytes → Prop;
  send_message : ∀ c ins outs f, chan c ins outs → zlen f < 2 ^ 31 →
    ∃ c', SendData c f = Ok (true, c') ∧ chan c' ins (outs ++ [f]);
  recv_message : ∀ c f ins outs m, chan c (f :: ins) outs → zlen f ≤ bufCap m →
    ∃ m' c', ReceiveData c m = Ok (true, zlen f, m', c') ∧ received m f m' ∧ chan c' ins outs;
  recv_closed : ∀ c outs m, chan c [] outs → ∃ c', ReceiveData c m = Ok (false, 0, m, c') ∧ chan c' [] outs }.

(** The peer has closed the connection after it was sent [outs], and the server has
    cleared its side. *)
Definition cleared `{ChannelLaws C} (c : C) (outs : list bytes) : Prop :=
  ∃ c0, c = ClearAcceptedClientSd c0 ∧ chan c0 [] outs.
Lemma clear_cleared `{ChannelLaws C} (c : C) outs : chan c [] outs → cleared (ClearAcceptedClientSd c) outs.
Proof. by exists c. Qed.

(** ** Messages *)

(** A message as the peer sees it. *)
Definition is_message (f : bytes) (type num : Z) (data : bytes) : Prop :=
  ∃ cid, zlen cid = 4 ∧ f = le_enc 4 type ++ cid ++ le_enc 4 (zlen data) ++ le_enc 4 num ++ data.

(** The message in a send buffer. *)
Lemma message_frame b type num data n : n = zlen data → bread b 0 4 = le_enc 4 type →
  bread b 12 4 = le_enc 4 num → bread b 8 4 = le_enc 4 (zlen data) → bread b (dataOff 0) n = data →
  is_message (bread b 0 (16 + n)) type num data.
Proof.
  intros -> Ht Hn Hs Hd. exists (bread b 4 4). split; [by rewrite zlen_bread|]. pose proof (zlen_nonneg data).
  replace (16 + zlen data) with (4 + (4 + (4 + (4 + zlen data)))) by lia.
  rewrite (bread_app _ 0 4), (bread_app _ (0 + 4) 4), (bread_app _ (0 + 4 + 4) 4),
    (bread_app _ (0 + 4 + 4 + 4) 4) by lia.
  change (0 + 4 + 4 + 4 + 4) with (dataOff 0). change (0 + 4 + 4 + 4) with 12. change (0 + 4 + 4) with 8.
  change (0 + 4) with 4. by rewrite Ht, Hs, Hn, Hd.
Qed.

(** A received message in the buffer: the header fields and the data. *)
Lemma received_raw m f m' type num data :
  received m f m' → is_message f type num data →
  bread (sendBuffer m') 0 4 = le_enc 4 type ∧ bread (sendBuffer m') 8 4 = le_enc 4 (zlen data) ∧
  bread (sendBuffer m') 12 4 = le_enc 4 num ∧ bread (sendBuffer m') (dataOff 0) (zlen data) = data.
Proof.
  intros [_ Hm] (cid & Hcid & ->).
  assert (Hb : bread (sendBuffer m') 0 (zlen (le_enc 4 type ++ cid ++ le_enc 4 (zlen data) ++ le_enc 4 num ++ data)) =
    le_enc 4 type ++ cid ++ le_enc 4 (zlen data) ++ le_enc 4 num ++ data).
  { erewrite bread_ext; [apply bread_bwrite_eq|]. intros i _. apply Hm. }
  pose proof (bread_prefix _ _ _ _ Hb) as Hb1. apply bread_suffix in Hb. rewrite zlen_le_enc in *.
  apply bread_suffix in Hb. rewrite Hcid in Hb.
  pose proof (bread_prefix _ _ _ _ Hb) as Hb3. apply bread_suffix in Hb. rewrite zlen_le_enc in *.
  pose proof (bread_prefix _ _ _ _ Hb) as Hb4. apply bread_suffix in Hb. rewrite zlen_le_enc in *.
  by split_and!.
Qed.

Lemma received_type m f m' type num data :
  received m f m' → is_message f type num data → - 2 ^ 31 ≤ type < 2 ^ 31 → messageType m' = type.
Proof.
  intros Hr Hf Ht. destruct (received_raw _ _ _ _ _ _ Hr Hf) as (Hb1 & _).
  unfold messageType. rewrite Hb1, le_dec_enc. change (256 ^ Z.of_nat 4) with (2 ^ 32). unfold s32.
  rewrite Zplus_mod_idemp_l, Z.mod_small; lia.
Qed.

Lemma received_message m f m' type num data :
  received m f m' → is_message f type num data → - 2 ^ 31 ≤ type < 2 ^ 31 → 0 ≤ num < 2 ^ 32 →
  zlen data < 2 ^ 32 →
  messageType m' = type ∧ currentItemNum m' = num ∧ dataSize m' = zlen data ∧
  bread (sendBuffer m') (dataOff 0) (zlen data) = data.
Proof.
  intros Hr Hf Ht Hn Hd. pose proof (zlen_nonneg data).
  destruct (received_raw _ _ _ _ _ _ Hr Hf) as (_ & Hb3 & Hb4 & Hb).
  rewrite (received_type _ _ _ _ _ _ Hr Hf Ht). unfold currentItemNum, dataSize.
  by rewrite Hb3, Hb4, (le_dec_enc4 num), (le_dec_enc4 (zlen data)) by lia.
Qed.

(** ** SSLConnection *)

Section SSLConnection.
(** [SSL_write c bs]: the return value; [SSL_read c n]: the return value and the
    bytes stored. *)
Context {SSL : Type} (SSL_write : SSL → bytes → Z * SSL) (SSL_read : SSL → Z → Z * bytes * SSL).

(** [sendedSize < dataSize] compares an [int] with a [uint32_t]: as unsigned numbers.
    A loop that never ends is [Err UB] at every amount of fuel. *)
Fixpoint send_loop (fuel : nat) (c : SSL) (data : bytes) (sendedSize dataSize : Z) : result SSL :=
  if u32 sendedSize <? dataSize then
    match fuel with
    | O => Err UB
    | S fuel =>
        let '(k, c) := SSL_write c (drop (Z.to_nat sendedSize) data) in
        send_loop fuel c data (s32 (sendedSize + k)) dataSize
    end
  else Ok c.

Definition SendData_ (c : SSL) (data : bytes) : result (bool * SSL) :=
  let dataSize := u32 (zlen data) in
  let '(writeStatus, c) := SSL_write c (le_enc 4 dataSize) in
  if writeStatus <=? 0 then Ok (false, c)
  else c ← send_loop (length data) c data 0 dataSize; Ok (true, c).

(** Both sizes are [int]s; the bytes are stored at [data + receivedSize]. *)
Fixpoint recv_loop (fuel : nat) (c : SSL) (m : SendMsgBuffer_t) (receivedSize len : Z) :
    result (SendMsgBuffer_t * SSL) :=
  if receivedSize <? len then
    match fuel with
    | O => Err UB
    | S fuel =>
        let '(k, got, c) := SSL_read c (len - receivedSize) in
        check ((0 <=? receivedSize) && (receivedSize + zlen got <=? bufCap m)) UB ;;
        recv_loop fuel c (set_sendBuffer (bwrite (sendBuffer m) receivedSize got) m)
          (receivedSize + k) len
    end
  else Ok (m, c).

Definition ReceiveData_ (c : SSL) (m : SendMsgBuffer_t) : result (bool * Z * SendMsgBuffer_t * SSL) :=
  let '(readStatus, got, c) := SSL_read c 4 in
  if readStatus <=? 0 then Ok (false, 0, m, c)
  else
    let len := s32 (le_dec (InMemory.read_into (le_enc 4 0) got)) in
    '(m, c) ← recv_loop (Z.to_nat len) c m 0 len;
    Ok (true, u32 len, m, c).

(** Clearing is a sequence of calls of its own ([Connect.ClearAcceptedClientSd]). *)
Definition ssl_channel (clear : SSL → SSL) : Channel SSL :=
  {| SendData := SendData_; ReceiveData := ReceiveData_; ClearAcceptedClientSd := clear |}.

(** The documented behaviour of a connection without errors: a write is complete and
    becomes one record when it is at most 16384 bytes, several otherwise; a read
    returns bytes of the next record. *)
Class SSL_ok := {
  rin : SSL → list bytes;
  wout : SSL → list bytes;
  ssl_write_ok : ∀ c bs, bs ≠ [] → ∃ c' rs, SSL_write c bs = (zlen bs, c') ∧
    wout c' = wout c ++ rs ∧ concat rs = bs ∧ Forall (λ r, r ≠ []) rs ∧
    (zlen bs ≤ 16384 → rs = [bs]) ∧ rin c' = rin c;
  ssl_read_ok : ∀ c r rs n, rin c = r :: rs → 0 < n → ∃ c',
    SSL_read c n = (zlen (take (Z.to_nat n) r), take (Z.to_nat n) r, c') ∧
    rin c' = (if n <? zlen r then drop (Z.to_nat n) r :: rs else rs) ∧ wout c' = wout c;
  ssl_read_closed : ∀ c n, rin c = [] → 0 < n → ∃ k c', SSL_read c n = (k, [], c') ∧ k ≤ 0 ∧
    rin c' = [] ∧ wout c' = wout c }.

(** The records of a sequence of messages: a length record, then data records. *)
Inductive framed : list bytes → list bytes → Prop :=
| framed_nil : framed [] []
| framed_cons f ps rs fs : concat ps = f → Forall (λ r, r ≠ []) ps → zlen f < 2 ^ 31 →
    framed rs fs → framed (le_enc 4 (zlen f) :: ps ++ rs) (f :: fs).

Lemma framed_snoc rs fs f ps : framed rs fs → concat ps = f → Forall (λ r, r ≠ []) ps → zlen f < 2 ^ 31 →
  framed (rs ++ le_enc 4 (zlen f) :: ps) (fs ++ [f]).
Proof.
  intros Hf Hp Hne Hl. induction Hf as [|f' ps' rs fs E Hne' Hl' Hf IH]; simpl.
  - rewrite <- (app_nil_r ps). by apply framed_cons; [..|constructor].
  - rewrite <- app_assoc. by apply framed_cons.
Qed.

Context {Hok : SSL_ok}.

Lemma SendData_spec c ins outs f : framed (rin c) ins → framed (wout c) outs → zlen f < 2 ^ 31 →
  ∃ c', SendData_ c f = Ok (true, c') ∧ framed (rin c') ins ∧ framed (wout c') (outs ++ [f]).
Proof.
  intros Hi Ho Hf. pose proof (zlen_nonneg f). unfold SendData_. rewrite u32_small by lia.
  destruct (ssl_write_ok c (le_enc 4 (zlen f))) as (c1 & rs1 & -> & Hw1 & _ & _ & Hs1 & Hr1); [done|].
  specialize (Hs1 ltac:(zlia)). subst rs1. rewrite zlen_le_enc. simpl.
  destruct f as [|b f0] eqn:Ef.
  { simpl. exists c1. split; [done|]. rewrite Hr1, Hw1. split; [done|].
    change ([le_enc 4 (zlen [])]) with (le_enc 4 (zlen (@nil Z)) :: []). by apply framed_snoc. }
  rewrite <- Ef in *.
  destruct (ssl_write_ok c1 f) as (c2 & rs2 & Hw & Hw2 & Hc2 & Hne & _ & Hr2); [by subst|].
  replace (length f) with (S (length f0)) by (by subst).
  assert (0 < zlen f) by (subst; zlia). cbn [send_loop]. change (u32 0) with 0.
  rewrite (proj2 (Z.ltb_lt _ _)), drop_0, Hw, Z.add_0_l, s32_small by lia.
  assert (El : send_loop (length f0) c2 f (zlen f) (zlen f) = Ok c2).
  { destruct (length f0); simpl; rewrite u32_small, Z.ltb_irrefl by lia; done. }
  rewrite El. simpl. exists c2. split; [done|]. rewrite Hr2, Hr1, Hw2, Hw1. split; [done|].
  rewrite <- app_assoc. by apply framed_snoc.
Qed.

(** The loop collects the data records whatever their sizes. *)
Lemma recv_loop_spec ps : Forall (λ r, r ≠ []) ps → ∀ fuel c m rs sz, rin c = ps ++ rs →
  0 ≤ sz → sz + zlen (concat ps) ≤ bufCap m → zlen (concat ps) ≤ Z.of_nat fuel →
  ∃ m' c', recv_loop fuel c m sz (sz + zlen (concat ps)) = Ok (m', c') ∧ rin c' = rs ∧ wout c' = wout c ∧
    bufCap m' = bufCap m ∧ ∀ i, sendBuffer m' i = bwrite (sendBuffer m) sz (concat ps) i.
Proof.
  induction 1 as [|r ps Hr Hps IH]; intros fuel c m rs sz Hin Hsz Hcap Hfuel.
  - simpl. rewrite zlen_nil, Z.add_0_r. destruct fuel; simpl; rewrite Z.ltb_irrefl;
      (exists m, c; split_and!; [done..|]; intros i; unfold bwrite;
       destruct (_ <=? _) eqn:E1, (_ <? _) eqn:E2; try done; zbool; zlia).
  - simpl in *. assert (Hrz : 0 < zlen r) by (destruct r; [done|]; zlia).
    autorewrite with zlen in *. pose proof (zlen_nonneg (concat ps)).
    destruct fuel as [|fuel]; [lia|]. cbn [recv_loop]. rewrite (proj2 (Z.ltb_lt _ _)) by lia.
    replace (sz + (zlen r + zlen (concat ps)) - sz) with (zlen r + zlen (concat ps)) by lia.
    destruct (ssl_read_ok c r (ps ++ rs) (zlen r + zlen (concat ps)) Hin ltac:(lia)) as (c1 & -> & Hr1 & Hw1).
    rewrite take_ge by (unfold zlen; lia). rewrite (proj2 (Z.ltb_ge _ _)) in Hr1 by lia.
    rewrite !(proj2 (Z.leb_le _ _)) by lia. simpl. rewrite Z.add_assoc.
    destruct (IH fuel c1 (set_sendBuffer (bwrite (sendBuffer m) sz r) m) rs (sz + zlen r) Hr1)
      as (m' & c' & -> & Hr' & Hw' & Hc' & Hb'); [lia|simpl; lia|lia|].
    exists m', c'. split_and!; [done|done|congruence|done|]. intros i. rewrite Hb'. simpl.
    apply bwrite_bwrite_app.
Qed.

Lemma ReceiveData_spec c f ins m : framed (rin c) (f :: ins) → zlen f ≤ bufCap m →
  ∃ m' c', ReceiveData_ c m = Ok (true, zlen f, m', c') ∧ received m f m' ∧
    framed (rin c') ins ∧ wout c' = wout c.
Proof.
  intros Hf Hcap. inversion Hf as [|f' ps rs fs E Hne Hl Hf' Er Ef]; subst. unfold ReceiveData_.
  destruct (ssl_read_ok c _ _ 4 (eq_sym Er) ltac:(lia)) as (c1 & -> & Hr1 & Hw1).
  rewrite take_ge in * by (by rewrite length_le_enc). rewrite zlen_le_enc in *. simpl in Hr1 |- *.
  rewrite InMemory.read_into_full by (by rewrite !length_le_enc).
  pose proof (zlen_nonneg (concat ps)). rewrite le_dec_enc4, s32_small by lia.
  destruct (recv_loop_spec ps Hne (Z.to_nat (zlen (concat ps))) c1 m rs 0 Hr1)
    as (m' & c' & E & Hr' & Hw' & Hc' & Hb'); [lia..|].
  rewrite Z.add_0_l in E. rewrite E. simpl. rewrite u32_small by lia.
  exists m', c'. split_and!; [done|done|by rewrite Hr'|congruence].
Qed.
End SSLConnection.

(** C27: the framing code implements the message channel: whatever the record sizes of
    the transport, the receiver gets exactly the messages that were sent, in order,
    and a closed connection is reported as such. *)
Theorem ssl_implements_channel {SSL} (SSL_write : SSL → bytes → Z * SSL)
    (SSL_read : SSL → Z → Z * bytes * SSL) (ok : SSL_ok SSL_write SSL_read) :
  (∀ c ins outs f, framed (rin _ _ c) ins → framed (wout _ _ c) outs → zlen f < 2 ^ 31 →
    ∃ c', SendData_ SSL_write c f = Ok (true, c') ∧ framed (rin _ _ c') ins ∧
      framed (wout _ _ c') (outs ++ [f])) ∧
  (∀ c f ins m, framed (rin _ _ c) (f :: ins) → zlen f ≤ bufCap m →
    ∃ m' c', ReceiveData_ SSL_read c m = Ok (true, zlen f, m', c') ∧ received m f m' ∧
      framed (rin _ _ c') ins ∧ wout _ _ c' = wout _ _ c) ∧
  (∀ c m, framed (rin _ _ c) [] → ∃ c', ReceiveData_ SSL_read c m = Ok (false, 0, m, c')).
Proof.
  split_and!.
  - intros. by eapply SendData_spec.
  - intros. by eapply ReceiveData_spec.
  - intros c m Hf. inversion Hf as [E|]. unfold ReceiveData_.
    destruct (ssl_read_closed _ _ c 4 (eq_sym E) ltac:(lia)) as (k & c' & -> & Hk & _).
    rewrite (proj2 (Z.leb_le _ _)) by done. eauto.
Qed.

(** The framing code as an instance of the interface. *)
Definition ssl_laws {SSL} (SSL_write : SSL → bytes → Z * SSL)
    (SSL_read : SSL → Z → Z * bytes * SSL) (clear : SSL → SSL) (ok : SSL_ok SSL_write SSL_read) :
  @ChannelLaws SSL (ssl_channel SSL_write SSL_read clear).
Proof.
  refine (@Build_ChannelLaws SSL (ssl_channel SSL_write SSL_read clear)
            (λ c ins outs, framed (rin _ _ c) ins ∧ framed (wout _ _ c) outs) _ _ _).
  - intros c ins outs f [Hi Ho] Hf. by apply SendData_spec.
  - intros c f ins outs m [Hi Ho] Hf. destruct (ReceiveData_spec SSL_write SSL_read c f ins m Hi Hf)
      as (m' & c' & E & Hr & Hi' & Hw). exists m', c'. by rewrite Hw.
  - intros c outs m [Hi Ho]. inversion Hi as [E|]. simpl. unfold ReceiveData_.
    destruct (ssl_read_closed _ _ c 4 (eq_sym E) ltac:(lia)) as (k & c' & -> & Hk & Hr & Hw).
    rewrite (proj2 (Z.leb_le _ _)) by done. exists c'. rewrite Hr, Hw. by split_and!; [|constructor|].
Defined.

(** ** Error paths *)

(** A failed write of the data is reported as success: when the length was written
    and the library returns -1 for the data, the unsigned comparison ends the loop and
    [SendData] returns true although no byte of the message was sent. *)
Theorem SendData_hides_failure {SSL} (SSL_write : SSL → bytes → Z * SSL) c c1 c2 data :
  SSL_write c (le_enc 4 (u32 (zlen data))) = (4, c1) → SSL_write c1 data = (-1, c2) →
  0 < zlen data < 2 ^ 31 → SendData_ SSL_write c data = Ok (true, c2).
Proof.
  intros H1 H2 Hl. unfold SendData_. rewrite H1. simpl. rewrite u32_small by lia.
  destruct data as [|b data]; [unfold zlen in Hl; simpl in Hl; lia|]. cbn [length send_loop].
  change (u32 0) with 0. rewrite (proj2 (Z.ltb_lt _ _)), drop_0, H2 by lia.
  change (s32 (0 + -1)) with (-1). destruct (length data); simpl;
    change (u32 (-1)) with 4294967295; rewrite (proj2 (Z.ltb_ge _ _)) by lia; done.
Qed.

(** C38: the length a peer announces is not compared with the buffer: a message whose
    first record is longer than the receive buffer is written past its end. *)
Theorem ReceiveData_overflow {SSL} (SSL_write : SSL → bytes → Z * SSL) (SSL_read : SSL → Z → Z * bytes * SSL)
    (ok : SSL_ok SSL_write SSL_read) c m f rs :
  rin _ _ c = le_enc 4 (zlen f) :: f :: rs → 0 ≤ bufCap m < zlen f → zlen f < 2 ^ 31 →
  ReceiveData_ SSL_read c m = Err UB.
Proof.
  intros Hin Hcap Hl. unfold ReceiveData_.
  destruct (ssl_read_ok _ _ c _ _ 4 Hin ltac:(lia)) as (c1 & -> & Hr1 & _).
  rewrite take_ge in * by (by rewrite length_le_enc). rewrite zlen_le_enc in *. simpl in Hr1 |- *.
  rewrite InMemory.read_into_full by (by rewrite !length_le_enc). rewrite le_dec_enc4, s32_small by lia.
  destruct (Z.to_nat (zlen f)) as [|n] eqn:En; [lia|]. cbn [recv_loop].
  rewrite (proj2 (Z.ltb_lt _ _)), Z.sub_0_r by lia.
  destruct (ssl_read_ok _ _ c1 f rs (zlen f) Hr1 ltac:(lia)) as (c2 & -> & _).
  rewrite take_ge by (unfold zlen; lia). by rewrite (proj2 (Z.leb_gt (0 + zlen f) _)) by lia.
Qed.

(** ** A concrete transport *)

Module ToySSL.
Record ssl := { t_in : list bytes; t_out : list bytes }.

Definition write (c : ssl) (bs : bytes) : Z * ssl :=
  (zlen bs, {| t_in := t_in c; t_out := t_out c ++ [bs] |}).
Definition read (c : ssl) (n : Z) : Z * bytes * ssl :=
  match t_in c with
  | [] => (0, [], c)
  | r :: rs =>
      (zlen (take (Z.to_nat n) r), take (Z.to_nat n) r,
       {| t_in := if n <? zlen r then drop (Z.to_nat n) r :: rs else rs; t_out := t_out c |})
  end.

#[export] Instance toy_ok : SSL_ok write read.
Proof.
  refine {| rin := t_in; wout := t_out |}.
  - intros c bs Hne. eexists _, [bs]. split_and!; [done|done|simpl; by rewrite app_nil_r|by repeat constructor|done..].
  - intros c r rs n Hr Hn. unfold read. rewrite Hr. eauto.
  - intros c n Hr Hn. unfold read. rewrite Hr. eexists _, _. by split_and!.
Defined.
End ToySSL.

Definition sample_ssl : ToySSL.ssl :=
  {| ToySSL.t_in := [le_enc 4 5; [1; 2]; [3; 4; 5]]; ToySSL.t_out := [] |}.
Definition sample_buf : SendMsgBuffer_t := {| sendBuffer := λ _, 0; bufCap := 16 |}.

Lemma ssl_implements_channel_witness :
  ∃ m' c', ReceiveData_ ToySSL.read sample_ssl sample_buf = Ok (true, zlen [1; 2; 3; 4; 5], m', c') ∧
    received sample_buf [1; 2; 3; 4; 5] m' ∧ framed (ToySSL.t_in c') [] ∧
    ToySSL.t_out c' = ToySSL.t_out sample_ssl.
Proof.
  refine (proj1 (proj2 (ssl_implements_channel ToySSL.write ToySSL.read ToySSL.toy_ok))
           sample_ssl [1; 2; 3; 4; 5] [] sample_buf _ _); [|done].
  apply (framed_cons [1; 2; 3; 4; 5] [[1; 2]; [3; 4; 5]] []); [done|by repeat constructor|done|constructor].
Defined.

Lemma SendData_hides_failure_witness :
  SendData_ (λ c bs, if decide (bs = [7]) then (-1, c) else ToySSL.write c bs)
    {| ToySSL.t_in := []; ToySSL.t_out := [] |} [7] =
  Ok (true, {| ToySSL.t_in := []; ToySSL.t_out := [le_enc 4 1] |}).
Proof. eapply SendData_hides_failure; [done..|]. done. Defined.

Lemma ReceiveData_overflow_witness :
  ReceiveData_ ToySSL.read {| ToySSL.t_in := [le_enc 4 3; [1; 2; 3]]; ToySSL.t_out := [] |}
    {| sendBuffer := λ _, 0; bufCap := 2 |} = Err UB.
Proof.
  apply (ReceiveData_overflow ToySSL.write ToySSL.read ToySSL.toy_ok _ _ [1; 2; 3] []); done.
Defined.

(** ** A channel of messages, for concrete inputs of the clients of the interface *)

Module ListChannel.
Definition t : Type := list bytes * list bytes.
#[global] Instance chan : Channel t := {
  SendData c f := Ok (true, (c.1, c.2 ++ [f]));
  ReceiveData c m :=
    match c.1 with
    | [] => Ok (false, 0, m, c)
    | f :: fs =>
        if zlen f <=? bufCap m
        then Ok (true, zlen f, set_sendBuffer (bwrite (sendBuffer m) 0 f) m, (fs, c.2)) else Err UB
    end;
  ClearAcceptedClientSd c := ([], c.2) }.
#[global] Instance laws : ChannelLaws t.
Proof.
  refine {| SslConn.chan := λ c ins outs, c = (ins, outs) |}.
  - intros c ins outs f -> _. eauto.
  - intros c f ins outs m -> Hf. simpl. rewrite (proj2 (Z.leb_le _ _)) by done. eexists _, _. by split_and!.
  - intros c outs m ->. eauto.
Defined.
End ListChannel.
