(* ===== verification/RecvDecoder.v ===== *)
(** * Restoring chunks (src/Server/recvDecoder.cc, src/Server/absRecvDecoder.cc)

    A download batch: the hashes of the recipe are looked up in the index, the
    required containers are loaded through the cache (at most
    [CONTAINER_CAPPING_VALUE] at a time), their headers are indexed and the chunks
    are copied into the send buffer, which is also the buffer the request arrived
    in. *)
From Stdlib Require Import ZArith Lia.
From stdpp Require Import base tactics numbers list gmap fin_maps.
From S2P Require Import Prelude Common FileSystem LruCache ReadCache ClientVar Storage.
From S2P Require Import Database Index DataWriter SslConn.
#[local] Open Scope Z_scope.

(** ** The header index *)

(** [b[3] + (b[2] << 8) + (b[1] << 16) + (b[0] << 24)], an [int]. *)
Definition be_int (b : buf) (o : Z) : Z :=
  s32 (b (o + 3) + Z.shiftl (b (o + 2)) 8 + Z.shiftl (b (o + 1)) 16 + Z.shiftl (b o) 24).

(** The inner loop, from record [j] on; [fuel] is at most the number of records, and
    large enough to reach the end of the array. *)
Fixpoint index_records (fuel : nat) (j chunkNum : Z) (container : buf)
    (restoreIndex : gmap bytes RestoreIndexEntry_t) : result (gmap bytes RestoreIndexEntry_t) :=
  match fuel with
  | O => Ok restoreIndex
  | S fuel =>
      let base := 4 + j * (CHUNK_HASH_SIZE + 8) in
      check (base + (CHUNK_HASH_SIZE + 8) <=? MAX_CONTAINER_SIZE) UB ;;
      let tmpChunkHash := bread container base CHUNK_HASH_SIZE in
      let tmpRestoreEntry :=
        {| offset := u32 (be_int container (base + CHUNK_HASH_SIZE) + chunkNum * (CHUNK_HASH_SIZE + 8) + 4);
           length_ := u32 (be_int container (base + CHUNK_HASH_SIZE + 4)) |} in
      index_records fuel (j + 1) chunkNum container (<[tmpChunkHash := tmpRestoreEntry]> restoreIndex)
  end.

Definition max_records : Z := 104858. (* more than fit an array *)

Definition index_container (container : buf) (restoreIndex : gmap bytes RestoreIndexEntry_t) :
    result (gmap bytes RestoreIndexEntry_t) :=
  let chunkNum := u64 (be_int container 0) in
  index_records (Z.to_nat (Z.min chunkNum max_records)) 0 chunkNum container restoreIndex.

Fixpoint index_containers (containers : list buf) (restoreIndex : gmap bytes RestoreIndexEntry_t) :
    result (gmap bytes RestoreIndexEntry_t) :=
  match containers with
  | [] => Ok restoreIndex
  | c :: cs => m ← index_container c restoreIndex; index_containers cs m
  end.

Definition IndexConstruct (restoreIndex : gmap bytes RestoreIndexEntry_t) (containerArray : list buf)
    (idNum : Z) : result (gmap bytes RestoreIndexEntry_t) :=
  check (idNum <=? zlen containerArray) UB ;;
  index_containers (take (Z.to_nat idNum) containerArray) restoreIndex.

(** ** Loading containers *)

(** [memcpy(dst, src, n)] between two buffers. *)
Definition bcopy (dst src : buf) (n : Z) : buf := λ i, if (0 <=? i) && (i <? n) then src i else dst i.

Section RecvDecoder.
Context (config : Configure).

(** One round of [GetReqContainers]: the array slot, the cache and the number of
    container files read. *)
Definition load_container (name : bytes) (slot : buf) (containerCache : ReadCache) (fileNum : Z) (s : fs) :
    result (buf * ReadCache * Z) :=
  if ExistsInCache name containerCache then
    '(cached, containerCache) ← ReadFromCache name containerCache;
    Ok (bcopy slot cached MAX_CONTAINER_SIZE, containerCache, fileNum)
  else
    let readFileNameStr := container_path config name in
    let containerIn := if_open_ readFileNameStr s in
    check (if_open containerIn) EXIT_FAILURE ;;
    let containerSize := s32 (zlen (default [] (files s !! readFileNameStr))) in
    let '(got, containerIn) := if_read containerSize containerIn s in
    check (zlen got <=? MAX_CONTAINER_SIZE) UB ;;
    let slot := bwrite slot 0 got in
    check (zlen got =? containerSize) EXIT_FAILURE ;;
    containerCache ← InsertToCache name slot containerSize containerCache;
    Ok (slot, containerCache, u64 (fileNum + 1)).

Fixpoint load_containers (n : nat) (i : Z) (rq : ReqContainer_t) (containerCache : ReadCache)
    (fileNum : Z) (s : fs) : result (ReqContainer_t * ReadCache * Z) :=
  match n with
  | O => Ok (rq, containerCache, fileNum)
  | S n =>
      check (CONTAINER_ID_LENGTH * (i + 1) <=? CONTAINER_CAPPING_VALUE * CONTAINER_ID_LENGTH) UB ;;
      let containerNameStr := bread (idBuffer rq) (i * CONTAINER_ID_LENGTH) CONTAINER_ID_LENGTH in
      match containerArray rq !! Z.to_nat i with
      | None => Err UB
      | Some slot =>
          '(slot, containerCache, fileNum) ← load_container containerNameStr slot containerCache fileNum s;
          load_containers n (i + 1)
            {| idBuffer := idBuffer rq; containerArray := <[Z.to_nat i := slot]> (containerArray rq);
               idNum := idNum rq |} containerCache fileNum s
      end
  end.

Definition GetReqContainers (rq : ReqContainer_t) (containerCache : ReadCache) (fileNum : Z) (s : fs) :
    result (ReqContainer_t * ReadCache * Z) :=
  load_containers (Z.to_nat (idNum rq)) 0 rq containerCache fileNum s.

(** ** Filling and sending the chunk buffer *)

Definition RecoverOneChunk (entry : DownloadChunkEntry_t) (chunkBuffer : buf) (m : SendMsgBuffer_t) :
    result SendMsgBuffer_t :=
  let out := dataSize m in
  let n := chunkSize entry in
  m ← data_write m out (le_enc 4 n);
  check ((0 <=? chunkOffset entry) && (chunkOffset entry + n <=? MAX_CONTAINER_SIZE)) UB ;;
  m ← data_write m (out + sizeof_uint32_t) (bread chunkBuffer (chunkOffset entry) n);
  let m := set_dataSize (u32 (dataSize m + (sizeof_uint32_t + n))) m in
  Ok (set_currentItemNum (u32 (currentItemNum m + 1)) m).

Context `{AbsDatabase DB} `{Channel C}.

(** The message in the buffer: the header and [dataSize] bytes. *)
Definition SendBatchChunks (m : SendMsgBuffer_t) (c : C) : result C :=
  check (sizeof_NetworkHead_t + dataSize m <=? bufCap m) UB ;;
  '(ok, c) ← SendData c (bread (sendBuffer m) 0 (sizeof_NetworkHead_t + dataSize m));
  check ok EXIT_FAILURE ;;
  Ok c.

(** "chunk buf full" and "last batch": send and reset. *)
Definition send_chunks (m : SendMsgBuffer_t) (c : C) : result (SendMsgBuffer_t * C) :=
  let m := set_messageType (edge_code CLOUD_SEND_CHUNK) m in
  c ← SendBatchChunks m c;
  Ok (set_currentItemNum 0 (set_dataSize 0 m), c).

Definition ProcessRecipeTailBatch (m : SendMsgBuffer_t) (c : C) : result (SendMsgBuffer_t * C) :=
  let m := set_messageType (edge_code CLOUD_SEND_CHUNK_END) m in
  c ← SendBatchChunks m c; Ok (m, c).

(** The [while (startEntry != endEntry)] loop; a hash that is not in the index makes
    it dereference the end iterator. *)
Fixpoint recover_entries (es : list DownloadChunkEntry_t) (restoreIndex : gmap bytes RestoreIndexEntry_t)
    (containers : list buf) (m : SendMsgBuffer_t) (c : C) : result (SendMsgBuffer_t * C) :=
  match es with
  | [] => Ok (m, c)
  | e :: es =>
      match restoreIndex !! chunkHash e with
      | None => Err UB
      | Some r =>
          let e := {| chunkHash := chunkHash e; containerName := containerName e;
                      chunkOffset := offset r; chunkSize := length_ r;
                      entryContainerID := entryContainerID e |} in
          match containers !! Z.to_nat (entryContainerID e) with
          | None => Err UB
          | Some container =>
              m ← RecoverOneChunk e container m;
              '(m, c) ← (if currentItemNum m mod GetSendChunkBatchSize config =? 0 then send_chunks m c
                         else Ok (m, c));
              recover_entries es restoreIndex containers m c
          end
      end
  end.

(** ** One batch *)

(** The first loop: hash and container name of every recipe entry. *)
Fixpoint lookup_entries (n : nat) (i : Z) (ix : AbsIndex DB) (m : SendMsgBuffer_t) (cap : Z) (name : bytes) :
    result (list DownloadChunkEntry_t) :=
  match n with
  | O => Ok []
  | S n =>
      check (i <? cap) UB ;;
      h ← data_read m (u32 (i * sizeof_RecipeEntry_t)) CHUNK_HASH_SIZE;
      let '(_, name) := ReadIndexStore ix h name in
      check (CONTAINER_ID_LENGTH <=? zlen name + 1) UB ;;
      es ← lookup_entries n (i + 1) ix m cap name;
      Ok ({| chunkHash := h; containerName := take (Z.to_nat CONTAINER_ID_LENGTH) (name ++ [0]);
             chunkOffset := 0; chunkSize := 0; entryContainerID := 0 |} :: es)
  end.

(** Number the container of an entry: the one it has in [tmpContainerMap], or the
    next free one. *)
Definition assign_container (e : DownloadChunkEntry_t) (tmpContainerMap : gmap bytes Z) (rq : ReqContainer_t) :
    result (DownloadChunkEntry_t * gmap bytes Z * ReqContainer_t) :=
  let name := containerName e in
  let with_id i := {| chunkHash := chunkHash e; containerName := name; chunkOffset := chunkOffset e;
                      chunkSize := chunkSize e; entryContainerID := i |} in
  match tmpContainerMap !! name with
  | Some i => Ok (with_id i, tmpContainerMap, rq)
  | None =>
      check (CONTAINER_ID_LENGTH * (idNum rq + 1) <=? CONTAINER_CAPPING_VALUE * CONTAINER_ID_LENGTH) UB ;;
      Ok (with_id (idNum rq), <[name := idNum rq]> tmpContainerMap,
          {| idBuffer := bwrite (idBuffer rq) (idNum rq * CONTAINER_ID_LENGTH) name;
             containerArray := containerArray rq; idNum := u32 (idNum rq + 1) |})
  end.

(** The state of a restore thread: buffers and cache, the number of container files
    read, the connection. *)
Record rstate := { r_st : RestoreState; r_fileNum : Z; r_conn : C }.

Definition with_req (rq : ReqContainer_t) (r : rstate) : rstate :=
  {| r_st := {| _reqContainer := rq; _containerCache := _containerCache (r_st r);
                _sendChunkBuf := _sendChunkBuf (r_st r); _downloadChunkCap := _downloadChunkCap (r_st r) |};
     r_fileNum := r_fileNum r; r_conn := r_conn r |}.
Definition with_cache (rc : ReadCache) (n : Z) (r : rstate) : rstate :=
  {| r_st := {| _reqContainer := _reqContainer (r_st r); _containerCache := rc;
                _sendChunkBuf := _sendChunkBuf (r_st r); _downloadChunkCap := _downloadChunkCap (r_st r) |};
     r_fileNum := n; r_conn := r_conn r |}.
Definition with_buf (m : SendMsgBuffer_t) (c : C) (r : rstate) : rstate :=
  {| r_st := {| _reqContainer := _reqContainer (r_st r); _containerCache := _containerCache (r_st r);
                _sendChunkBuf := m; _downloadChunkCap := _downloadChunkCap (r_st r) |};
     r_fileNum := r_fileNum r; r_conn := c |}.

(** The body of the capping test: load, index, recover the pending entries, reset. *)
Definition flush_entries (pending : list DownloadChunkEntry_t) (last : bool) (r : rstate) (s : fs) :
    result rstate :=
  '(rq, rc, n) ← GetReqContainers (_reqContainer (r_st r)) (_containerCache (r_st r)) (r_fileNum r) s;
  restoreIndex ← IndexConstruct ∅ (containerArray rq) (idNum rq);
  '(m, c) ← recover_entries pending restoreIndex (containerArray rq) (_sendChunkBuf (r_st r)) (r_conn r);
  '(m, c) ← (if last && negb (currentItemNum m mod GetSendChunkBatchSize config =? 0)
             then send_chunks m c else Ok (m, c));
  let rq := {| idBuffer := idBuffer rq; containerArray := containerArray rq; idNum := 0 |} in
  Ok (with_buf m c (with_cache rc n (with_req rq r))).

(** The second loop.  [pending] are the entries from [startEntry] on. *)
Fixpoint process_entries (es pending : list DownloadChunkEntry_t) (tmpContainerMap : gmap bytes Z)
    (r : rstate) (s : fs) : result rstate :=
  match es with
  | [] => Ok r
  | e :: es =>
      '(e, tmpContainerMap, rq) ← assign_container e tmpContainerMap (_reqContainer (r_st r));
      let r := with_req rq r in
      let pending := pending ++ [e] in
      let last := bool_decide (es = []) in
      if (idNum rq =? CONTAINER_CAPPING_VALUE) || last then
        r ← flush_entries pending last r s;
        process_entries es [] ∅ r s
      else process_entries es pending tmpContainerMap r s
  end.

Definition ProcessRecipeBatch (ix : AbsIndex DB) (recipeNum : Z) (r : rstate) (s : fs) : result rstate :=
  es ← lookup_entries (Z.to_nat recipeNum) 0 ix (_sendChunkBuf (r_st r)) (_downloadChunkCap (r_st r))
         (replicate (Z.to_nat CONTAINER_ID_LENGTH) 0);
  r ← process_entries es [] ∅ r s;
  '(m, c) ← ProcessRecipeTailBatch (_sendChunkBuf (r_st r)) (r_conn r);
  Ok (with_buf m c r).

(** ** The thread *)

(** The loop: one batch per request until the peer closes; [fuel] bounds the number
    of requests. *)
Fixpoint serve (fuel : nat) (ix : AbsIndex DB) (r : rstate) (s : fs) : result rstate :=
  match fuel with
  | O => Err UB
  | S fuel =>
      '(ok, _, m, c) ← ReceiveData (r_conn r) (_sendChunkBuf (r_st r));
      let r := with_buf m c r in
      if negb ok then Ok (with_buf m (ClearAcceptedClientSd c) r)
      else
        check (messageType m =? edge_code EDGE_DOWNLOAD_CHUNK_READY) EXIT_FAILURE ;;
        let recipeNum := currentItemNum m in
        let m := set_dataSize 0 (set_currentItemNum 0 m) in
        r ← ProcessRecipeBatch ix recipeNum (with_buf m c r) s;
        serve fuel ix r s
  end.

Definition Run (fuel : nat) (ix : AbsIndex DB) (r : rstate) (s : fs) : result rstate :=
  '(ok, _, m, c) ← ReceiveData (r_conn r) (_sendChunkBuf (r_st r));
  check ok EXIT_FAILURE ;;
  check (messageType m =? edge_code EDGE_RECEIVE_READY) EXIT_FAILURE ;;
  serve fuel ix (with_buf m c r) s.
End RecvDecoder.

(** ** Lemmas: reading container headers *)

#[local] Transparent be32.
Lemma be32_sum b o x : 0 ≤ x < 2 ^ 32 → bread b o 4 = be32 x →
  b (o + 3) + Z.shiftl (b (o + 2)) 8 + Z.shiftl (b (o + 1)) 16 + Z.shiftl (b o) 24 = x.
Proof.
  intros Hx Hb. unfold bread, be32 in Hb. simpl in Hb. injection Hb as H0 H1 H2 H3.
  rewrite Z.add_0_r in H0. change (Z.of_nat 1) with 1 in H1.
  change (Z.of_nat 2) with 2 in H2. change (Z.of_nat 3) with 3 in H3. rewrite H0, H1, H2, H3.
  unfold u8. rewrite !Z.shiftl_mul_pow2, !Z.shiftr_div_pow2 by lia.
  Z.to_euclidean_division_equations; lia.
Qed.
Lemma be_int_be32 b o x : 0 ≤ x < 2 ^ 31 → bread b o 4 = be32 x → be_int b o = x.
Proof. intros Hx Hb. unfold be_int. rewrite (be32_sum b o x) by (done || lia). apply s32_small. lia. Qed.
#[local] Opaque be32.

(** The index records of a list of entries whose data starts at [base]. *)
Fixpoint locs (base off : Z) (es : list entry) : list (bytes * RestoreIndexEntry_t) :=
  match es with
  | [] => []
  | (h, d) :: es => (h, {| offset := base + off; length_ := zlen d |}) :: locs base (off + zlen d) es
  end.

Definition insert_all {V} (m : gmap bytes V) (l : list (bytes * V)) : gmap bytes V :=
  foldl (λ m x, <[x.1 := x.2]> m) m l.

Lemma locs_keys base off es : (locs base off es).*1 = es.*1.
Proof. revert off. induction es as [|[h d] es IH]; intros off; simpl; [done|]. by rewrite IH. Qed.

Lemma insert_all_app {V} (m : gmap bytes V) l l' : insert_all m (l ++ l') = insert_all (insert_all m l) l'.
Proof. apply foldl_app. Qed.

Lemma insert_all_ne {V} (m : gmap bytes V) l k : k ∉ l.*1 → insert_all m l !! k = m !! k.
Proof.
  revert m. induction l as [|[k' v] l IH]; intros m Hk; [done|]. simpl in *. rewrite IH by set_solver.
  apply lookup_insert_ne. set_solver.
Qed.

Lemma insert_all_lookup {V} (m : gmap bytes V) l k v :
  NoDup (l.*1) → (k, v) ∈ l → insert_all m l !! k = Some v.
Proof.
  revert m. induction l as [|[k' v'] l IH]; intros m; [by intros _ ?%elem_of_nil|].
  rewrite fmap_cons. intros [Hn Hnd]%NoDup_cons [E|Hin]%elem_of_cons; simpl.
  - injection E as -> ->. rewrite insert_all_ne by done. apply lookup_insert_eq.
  - auto.
Qed.

(** Scanning the records of [es], which start at record [j]. *)
Lemma index_records_spec es b j n off m :
  hashes_ok es → 0 ≤ j → 4 + (j + zlen es) * 40 ≤ MAX_CONTAINER_SIZE → 0 ≤ off → 0 ≤ n →
  off + zlen (data_bytes es) + n * 40 + 4 < 2 ^ 31 →
  bread b (4 + j * 40) (zlen (hdr_bytes off es)) = hdr_bytes off es →
  index_records (length es) j n b m = Ok (insert_all m (locs (n * 40 + 4) off es)).
Proof.
  intros Hes. revert j off m. induction Hes as [|[h d] es Hh Hes IH]; intros j off m Hj Hmax Hoff Hn Hlt Hb; [done|].
  cbn [length index_records hdr_bytes locs] in *. simpl in Hh. rewrite data_bytes_cons in Hlt.
  autorewrite with zlen in Hmax, Hlt.
  pose proof (zlen_nonneg d). pose proof (zlen_nonneg es). pose proof (zlen_nonneg (data_bytes es)).
  pose proof (bread_prefix _ _ _ _ Hb) as Hb1. apply bread_suffix in Hb. rewrite Hh in Hb1, Hb.
  pose proof (bread_prefix _ _ _ _ Hb) as Hb2. apply bread_suffix in Hb. rewrite zlen_be32 in Hb2, Hb.
  pose proof (bread_prefix _ _ _ _ Hb) as Hb3. apply bread_suffix in Hb. rewrite zlen_be32 in Hb3, Hb.
  sizes. rewrite (proj2 (Z.leb_le _ _)) by lia. simpl. change (32 + 8) with 40 in *.
  rewrite Hb1, (be_int_be32 _ _ off), (be_int_be32 _ _ (zlen d)), !u32_small by (done || lia).
  rewrite (IH (j + 1) (off + zlen d)); try lia.
  - simpl. do 3 f_equal. f_equal. lia.
  - by replace (4 + (j + 1) * 40) with (4 + j * 40 + 32 + 4 + 4) by lia.
Qed.

(** Scanning more records than the array has room for. *)
Lemma index_records_overrun fuel j n b m : 0 ≤ j →
  MAX_CONTAINER_SIZE < 4 + (j + Z.of_nat fuel) * (CHUNK_HASH_SIZE + 8) → (0 < fuel)%nat ∨ 4 + j * (CHUNK_HASH_SIZE + 8) ≤ MAX_CONTAINER_SIZE →
  index_records fuel j n b m = Err UB.
Proof.
  revert j m. induction fuel as [|fuel IH]; intros j m Hj Hf Hpos; [sizes; lia|]. cbn [index_records].
  destruct (_ <=? _) eqn:E; [|done]. zbool. simpl. apply IH; sizes; lia.
Qed.

(** A loaded container: the array starts with the image of the entries. *)
Definition loaded (b : buf) (es : list entry) : Prop :=
  bread b 0 (total_size es) = file_image (zlen es) es ∧ total_size es < MAX_CONTAINER_SIZE ∧ hashes_ok es.

Lemma zlen_file_image n es : zlen (file_image n es) = total_size es.
Proof. unfold file_image, total_size. zlia. Qed.

(** The records of a container give the position of each chunk in the array. *)
Lemma index_container_spec b es m : loaded b es →
  index_container b m = Ok (insert_all m (locs (zlen es * 40 + 4) 0 es)).
Proof.
  intros (Hb & Hfit & Hes). pose proof (zlen_hdr_bytes 0 es Hes) as Hh.
  unfold total_size, entry_size in *. sizes. pose proof (zlen_nonneg es). pose proof (zlen_nonneg (data_bytes es)).
  assert (Hb' : bread b 0 (zlen (file_image (zlen es) es)) = file_image (zlen es) es).
  { by rewrite zlen_file_image. }
  unfold file_image in Hb'.
  pose proof (bread_prefix _ _ _ _ Hb') as Hb1. apply bread_suffix in Hb'. rewrite zlen_be32 in Hb1, Hb'.
  apply bread_prefix in Hb'.
  unfold index_container. rewrite (be_int_be32 _ _ (zlen es)), u64_small by (done || lia).
  unfold max_records. rewrite Z.min_l, to_nat_zlen by lia.
  apply (index_records_spec es b 0 (zlen es) 0 m); try done; sizes; lia.
Qed.

(** The position found for a chunk holds its data. *)
Lemma locs_data es b base off h d : (h, d) ∈ es →
  bread b (base + off) (zlen (data_bytes es)) = data_bytes es → 0 ≤ off →
  ∃ o, (h, {| offset := o; length_ := zlen d |}) ∈ locs base off es ∧ bread b o (zlen d) = d ∧
    base + off ≤ o ∧ o + zlen d ≤ base + off + zlen (data_bytes es).
Proof.
  revert off. induction es as [|[h' d'] es IH]; intros off; [by intros ?%elem_of_nil|].
  rewrite data_bytes_cons. simpl. intros Hin Hb Hoff.
  pose proof (bread_prefix _ _ _ _ Hb) as Hb1. apply bread_suffix in Hb. pose proof (zlen_nonneg d').
  apply elem_of_cons in Hin as [[= -> ->]|Hin].
  - exists (base + off). split_and!; [left|done|lia|zlia].
  - destruct (IH (off + zlen d') Hin) as (o & Ho & Hd & ? & ?); [by rewrite Z.add_assoc|lia|].
    exists o. split_and!; [by right|done|lia|zlia].
Qed.

Lemma loaded_lookup b es h d : loaded b es → (h, d) ∈ es →
  ∃ o, (h, {| offset := o; length_ := zlen d |}) ∈ locs (zlen es * 40 + 4) 0 es ∧
    bread b o (zlen d) = d ∧ 0 ≤ o ∧ o + zlen d < MAX_CONTAINER_SIZE.
Proof.
  intros (Hb & Hfit & Hes) Hin. pose proof (zlen_hdr_bytes 0 es Hes) as Hh.
  assert (Hb' : bread b 0 (zlen (file_image (zlen es) es)) = file_image (zlen es) es).
  { by rewrite zlen_file_image. }
  unfold file_image in Hb'. apply bread_suffix in Hb'. apply bread_suffix in Hb'.
  unfold total_size, entry_size in *. sizes. rewrite Hh, zlen_be32 in Hb'.
  pose proof (zlen_nonneg es).
  destruct (locs_data es b (zlen es * 40 + 4) 0 h d Hin) as (o & Ho & Hd & ? & ?); [|lia|].
  - by replace (zlen es * 40 + 4 + 0) with (0 + 4 + (32 + 4 * 2) * zlen es) by lia.
  - exists o. split_and!; [done|done|lia|zlia].
Qed.

Lemma index_containers_spec bs ess m : Forall2 loaded bs ess →
  index_containers bs m = Ok (insert_all m (ess ≫= λ es, locs (zlen es * 40 + 4) 0 es)).
Proof.
  intros Hl. revert m. induction Hl as [|b es bs ess Hb Hl IH]; intros m; [done|].
  simpl. rewrite (index_container_spec b es m Hb). simpl. by rewrite IH, insert_all_app.
Qed.

(** ** Lemmas: loading containers *)

Section Load.
Context (config : Configure) (s : fs).

(** Every cached container is the file of its name. *)
Definition coherent (rc : ReadCache) : Prop :=
  ∀ name, ExistsInCache name rc = true →
    ∃ bs, files s !! container_path config name = Some bs ∧ holds rc name bs.

Lemma exists_lookup rc name : rc_wf rc →
  ExistsInCache name rc = true ↔ is_Some (a_lookup name (entries rc)).
Proof.
  intros Hrc. unfold ExistsInCache. rewrite contains_spec by apply Hrc. by rewrite bool_decide_eq_true.
Qed.

Lemma bread_bcopy dst src n k : 0 ≤ k ≤ n → bread (bcopy dst src n) 0 k = bread src 0 k.
Proof.
  intros. apply bread_ext. intros i Hi. unfold bcopy.
  by rewrite (proj2 (Z.leb_le _ _)), (proj2 (Z.ltb_lt _ _)) by lia.
Qed.

(** From the cache or from the disk, the slot gets the content of the file. *)
Lemma load_container_spec name slot rc n bs :
  rc_wf rc → coherent rc → files s !! container_path config name = Some bs →
  zlen bs ≤ MAX_CONTAINER_SIZE →
  ∃ slot' rc' n', load_container config name slot rc n s = Ok (slot', rc', n') ∧
    bread slot' 0 (zlen bs) = bs ∧ rc_wf rc' ∧ coherent rc'.
Proof.
  intros Hrc Hcoh Hf Hmax. pose proof (zlen_nonneg bs). unfold load_container.
  destruct (ExistsInCache name rc) eqn:Hex.
  - destruct (Hcoh name Hex) as (bs' & Hf' & Hh). rewrite Hf in Hf'. injection Hf' as <-.
    destruct (ReadFromCache_spec rc name bs Hrc Hh) as (b & rc' & -> & Hb & Hrc' & _ & Hpool & Hlook).
    simpl. eexists _, _, _. split_and!; [done| |done|].
    + by rewrite bread_bcopy.
    + intros k Hk. rewrite exists_lookup, Hlook, <- exists_lookup in Hk by done.
      destruct (Hcoh k Hk) as (bs' & Hf' & (i & b' & Hi & Hb' & Hr)). exists bs'. split; [done|].
      exists i, b'. by rewrite Hlook, Hpool.
  - pose proof (InMemory.remaining_open _ _ _ Hf) as Hr. pose proof Hr as (-> & _).
    rewrite Hf. simpl. sizes. rewrite s32_small by lia. rewrite <- (app_nil_r bs) in Hr.
    destruct (InMemory.if_read_full _ _ _ _ (zlen bs) Hr eq_refl) as (h' & -> & _).
    rewrite (proj2 (Z.leb_le _ _)), Z.eqb_refl by done. simpl.
    destruct (InsertToCache_spec rc name (bwrite slot 0 bs) (zlen bs) Hrc Hex)
      as (rc' & -> & _ & Hrc' & Hh & Hother & Hex'); [sizes; lia|].
    simpl. rewrite bread_bwrite_eq in Hh. eexists _, _, _. split_and!; [done|by rewrite bread_bwrite_eq|done|].
    intros k Hk. destruct (decide (k = name)) as [->|Hne]; [eauto|].
    destruct (Hcoh k (Hex' k Hne Hk)) as (bs' & Hf' & Hh'). eauto.
Qed.

Lemma load_containers_spec ns : ∀ i rq rc num,
  rc_wf rc → coherent rc → 0 ≤ i →
  i + zlen ns ≤ CONTAINER_CAPPING_VALUE → zlen (containerArray rq) = CONTAINER_CAPPING_VALUE →
  Forall (λ n, zlen n = CONTAINER_ID_LENGTH ∧
               ∃ bs, files s !! container_path config n = Some bs ∧ zlen bs ≤ MAX_CONTAINER_SIZE) ns →
  bread (idBuffer rq) (i * CONTAINER_ID_LENGTH) (zlen (concat ns)) = concat ns →
  ∃ rq' rc' num', load_containers config (length ns) i rq rc num s = Ok (rq', rc', num') ∧
    rc_wf rc' ∧ coherent rc' ∧ idNum rq' = idNum rq ∧
    zlen (containerArray rq') = CONTAINER_CAPPING_VALUE ∧
    (∀ j, (j < Z.to_nat i)%nat → containerArray rq' !! j = containerArray rq !! j) ∧
    (∀ k n, ns !! k = Some n → ∃ b bs, containerArray rq' !! (Z.to_nat i + k)%nat = Some b ∧
       files s !! container_path config n = Some bs ∧ bread b 0 (zlen bs) = bs).
Proof.
  induction ns as [|n ns IH]; intros i rq rc num Hrc Hcoh Hi Hcap Harr Hns Hid.
  { simpl. eexists _, _, _. split_and!; [done..|]. intros k n. by rewrite lookup_nil. }
  apply Forall_cons in Hns as [(Hn & bs & Hf & Hbs) Hns]. simpl in *. autorewrite with zlen in Hcap.
  pose proof (zlen_nonneg ns).
  pose proof (bread_prefix _ _ _ _ Hid) as Hid1. apply bread_suffix in Hid. rewrite Hn in *.
  sizes. rewrite (proj2 (Z.leb_le _ _)), Hid1 by lia. simpl.
  destruct (lookup_lt_is_Some_2 (containerArray rq) (Z.to_nat i)) as [slot ->]; [unfold zlen in *; lia|].
  destruct (load_container_spec n slot rc num bs) as (slot' & rc1 & num1 & -> & Hs & Hrc1 & Hcoh1);
    [done..|sizes; lia|].
  simpl. set (rq1 := {| idBuffer := _ |}).
  destruct (IH (i + 1) rq1 rc1 num1) as (rq' & rc' & num' & -> & Hrc' & Hcoh' & Hnum & Hlen & Hold & Hnew);
    try done; try lia.
  - unfold rq1. simpl. unfold zlen in *. rewrite length_insert. done.
  - simpl. by replace ((i + 1) * 8) with (i * 8 + 8) by lia.
  - eexists _, _, _. split_and!; [done..| |].
    + intros j Hj. rewrite Hold by lia. simpl. apply list_lookup_insert_ne. lia.
    + intros [|k] n' Hk; simpl in Hk.
      * injection Hk as <-. exists slot', bs. rewrite Nat.add_0_r, Hold by lia. simpl.
        rewrite list_lookup_insert_eq by (unfold zlen in *; lia). done.
      * destruct (Hnew k n' Hk) as (b & bs' & Hb & ?). exists b, bs'.
        by replace (Z.to_nat i + S k)%nat with (Z.to_nat (i + 1) + k)%nat by lia.
Qed.
End Load.

(** ** Lemmas: the send buffer *)

(** The buffer holds the chunks [ds], ready to be sent. *)
Record sending (m : SendMsgBuffer_t) (ds : list bytes) : Prop := {
  sd_cap : dataCap m = 256 * (sizeof_uint32_t + MAX_CHUNK_SIZE);
  sd_size : bread (sendBuffer m) 8 4 = le_enc 4 (zlen (payload ds));
  sd_num : bread (sendBuffer m) 12 4 = le_enc 4 (zlen ds);
  sd_data : bread (sendBuffer m) 16 (zlen (payload ds)) = payload ds;
  sd_lens : Forall (λ d, zlen d ≤ MAX_CHUNK_SIZE) ds;
  sd_max : zlen ds ≤ 256 }.

Lemma payload_snoc ds d : payload (ds ++ [d]) = payload ds ++ frame d.
Proof. unfold payload. rewrite bind_app. simpl. by rewrite app_nil_r. Qed.

Lemma zlen_payload ds : Forall (λ d, zlen d ≤ MAX_CHUNK_SIZE) ds →
  zlen (payload ds) ≤ zlen ds * (sizeof_uint32_t + MAX_CHUNK_SIZE).
Proof.
  sizes. induction 1 as [|d ds Hd _ IH]; [done|].
  change (payload (d :: ds)) with (frame d ++ payload ds). zlia.
Qed.

Lemma sending_size m ds : sending m ds → dataSize m = zlen (payload ds) ∧ currentItemNum m = zlen ds.
Proof.
  intros [Hc Hs Hn _ Hl Hm]. pose proof (zlen_payload ds Hl). sizes. unfold dataSize, currentItemNum.
  rewrite Hs, Hn, !le_dec_enc4 by zlia. done.
Qed.

(** The header setters on a buffer that holds chunks. *)
Lemma sending_type m ds v : sending m ds → sending (set_messageType v m) ds.
Proof.
  intros [Hc Hs Hn Hd Hl Hm]. split; try done; simpl; rewrite bread_bwrite_ne by zlia; done.
Qed.
Lemma sending_reset m ds : sending m ds → sending (set_currentItemNum 0 (set_dataSize 0 m)) [].
Proof.
  intros [Hc _ _ _ _ _]. by split.
Qed.

Lemma sending_frame m ds type : sending m ds → bread (sendBuffer m) 0 4 = le_enc 4 type →
  is_message (bread (sendBuffer m) 0 (16 + dataSize m)) type (zlen ds) (payload ds).
Proof.
  intros Hsd Ht. destruct (sending_size m ds Hsd) as [Hsz _]. destruct Hsd as [_ Hs Hn Hd _ _].
  rewrite Hsz. by apply message_frame.
Qed.

Lemma RecoverOneChunk_spec e container m ds d :
  sending m ds → zlen ds < 256 → zlen d ≤ MAX_CHUNK_SIZE → chunkSize e = zlen d →
  0 ≤ chunkOffset e → chunkOffset e + zlen d ≤ MAX_CONTAINER_SIZE →
  bread container (chunkOffset e) (zlen d) = d →
  ∃ m', RecoverOneChunk e container m = Ok m' ∧ sending m' (ds ++ [d]).
Proof.
  intros Hsd Hlt Hd Hsz Ho Hmax Hb. destruct (sending_size m ds Hsd) as [Hsize Hnum].
  destruct Hsd as [Hc Hs Hn Hdat Hl Hm]. pose proof (zlen_payload ds Hl) as Hp.
  pose proof (zlen_nonneg (payload ds)). pose proof (zlen_nonneg d). pose proof (zlen_nonneg ds).
  unfold RecoverOneChunk. rewrite Hsz, Hsize, Hb. sizes.
  rewrite data_write_ok by zlia. simpl. rewrite !(proj2 (Z.leb_le _ _)) by lia. simpl.
  rewrite data_write_ok; [|lia|unfold dataCap in *; simpl; lia]. simpl.
  match goal with |- context [set_sendBuffer ?b ?m0] => set (m2 := set_sendBuffer b m0) end.
  unfold dataOff in m2. sizes.
  assert (Hs2 : dataSize m2 = zlen (payload ds) ∧ currentItemNum m2 = zlen ds).
  { unfold dataSize, currentItemNum, m2. simpl. rewrite !bread_bwrite_ne by zlia. done. }
  destruct Hs2 as [Hs2 Hn2]. rewrite Hs2, num_set_size, Hn2.
  eexists. split; [done|]. rewrite !u32_small by lia.
  split; simpl; try done.
  - rewrite bread_bwrite_ne, bread_bwrite_len by zlia. rewrite payload_snoc. do 2 f_equal. zlia.
  - rewrite bread_bwrite_len by zlia. f_equal. zlia.
  - rewrite !bread_bwrite_ne by zlia. rewrite payload_snoc. unfold frame. rewrite !app_assoc.
    rewrite zlen_app, bread_bwrite_app by zlia. f_equal.
    rewrite zlen_app, bread_bwrite_app by zlia. by rewrite Hdat.
  - apply Forall_app. split; [done|]. by repeat constructor.
  - zlia.
Qed.

(** ** Lemmas: a batch of requests *)

(** A requested chunk: the container that has it and its entry there. *)
Abbreviation request := (group * (bytes * bytes))%type.
Abbreviation req_hashes qs := ((λ q : request, q.2.1) <$> qs).
Abbreviation req_data qs := ((λ q : request, q.2.2) <$> qs).

Section Batch.
Context (config : Configure) `{AbsDatabaseLaws DB} `{ChannelLaws C} (s : fs).

Lemma send_chunks_spec m ds c ins outs : sending m ds → chan c ins outs →
  ∃ m' c' f, send_chunks m c = Ok (m', c') ∧ sending m' [] ∧ chan c' ins (outs ++ [f]) ∧
    is_message f (edge_code CLOUD_SEND_CHUNK) (zlen ds) (payload ds).
Proof.
  intros Hsd Hc. unfold send_chunks, SendBatchChunks.
  set (m1 := set_messageType _ m).
  assert (Hsd1 : sending m1 ds) by (by apply sending_type).
  assert (Ht1 : bread (sendBuffer m1) 0 4 = le_enc 4 (edge_code CLOUD_SEND_CHUNK)).
  { unfold m1. simpl. by rewrite bread_bwrite_len. }
  clearbody m1.
  pose proof (sending_size m1 ds Hsd1) as [Hsz _].
  pose proof (zlen_payload ds (sd_lens _ _ Hsd1)). pose proof (sd_cap _ _ Hsd1) as Hcap.
  pose proof (sd_max _ _ Hsd1). pose proof (zlen_nonneg (payload ds)). unfold dataCap in Hcap. sizes.
  rewrite (proj2 (Z.leb_le _ _)) by lia. simpl.
  destruct (send_message c ins outs (bread (sendBuffer m1) 0 (16 + dataSize m1)) Hc) as (c' & -> & Hc').
  { rewrite zlen_bread; lia. }
  simpl. eexists _, _, _. split_and!; [done|by eapply sending_reset|done|].
  by apply sending_frame.
Qed.

(** Recovering the pending entries; the buffer is sent when it holds 256 chunks. *)
Lemma recover_entries_spec pend es ri arrs m c ds ins outs :
  Forall2 (λ (q : request) e, ∃ o b, ri !! chunkHash e = Some {| offset := o; length_ := zlen q.2.2 |} ∧
    arrs !! Z.to_nat (entryContainerID e) = Some b ∧ bread b o (zlen q.2.2) = q.2.2 ∧
    0 ≤ o ∧ o + zlen q.2.2 ≤ MAX_CONTAINER_SIZE ∧ zlen q.2.2 ≤ MAX_CHUNK_SIZE) pend es →
  sending m ds → chan c ins outs → zlen ds < 256 → zlen ds + zlen pend ≤ 256 →
  let all := ds ++ (snd ∘ snd <$> pend) in
  ∃ m' c', recover_entries config es ri arrs m c = Ok (m', c') ∧
    if zlen all =? 256 then
      sending m' [] ∧ ∃ f, chan c' ins (outs ++ [f]) ∧ is_message f (edge_code CLOUD_SEND_CHUNK) (zlen all) (payload all)
    else sending m' all ∧ chan c' ins outs.
Proof.
  intros Hp. revert m c ds. induction Hp as [|q e pend es (o & b & Hri & Hb & Hd & Ho & Hmax & Hlen) Hp IH];
    intros m c ds Hsd Hc Hlt Htot; simpl.
  { rewrite app_nil_r, (proj2 (Z.eqb_neq _ _)) by lia. eauto. }
  rewrite Hri, Hb. simpl. set (e1 := {| chunkHash := _ |}).
  destruct (RecoverOneChunk_spec e1 b m ds q.2.2 Hsd) as (m1 & -> & Hsd1); [done..|].
  simpl. pose proof (sending_size _ _ Hsd1) as [_ ->]. autorewrite with zlen in Htot.
  pose proof (zlen_nonneg pend) as Hpn. pose proof (zlen_nonneg ds).
  change (GetSendChunkBatchSize config) with 256. rewrite zlen_app, zlen_cons, zlen_nil.
  destruct (decide (zlen ds + (1 + 0) = 256)) as [Hfull|Hpart].
  - rewrite Hfull, Z.mod_same, Z.eqb_refl by lia.
    destruct (send_chunks_spec m1 _ c ins outs Hsd1 Hc) as (m2 & c2 & f & -> & Hsd2 & Hc2 & Hf). simpl.
    assert (pend = []) as -> by (apply zlen_0_nil; lia). inversion Hp; subst. simpl.
    rewrite zlen_app, zlen_cons, zlen_nil, Hfull. simpl.
    eexists _, _. split; [done|]. split; [done|]. exists f. split; [done|].
    rewrite zlen_app, zlen_cons, zlen_nil, Hfull in Hf. done.
  - rewrite Z.mod_small, (proj2 (Z.eqb_neq _ _)) by lia. simpl.
    destruct (IH m1 c (ds ++ [q.2.2]) Hsd1 Hc) as (m2 & c2 & -> & Hres); [zlia..|].
    eexists _, _. split; [done|]. by rewrite <- app_assoc in Hres.
Qed.

(** The containers [gs] are on the disk, with distinct names and hashes. *)
Record disk_ok (gs : list group) : Prop := {
  dk_file : ∀ n es, (n, es) ∈ gs → files s !! container_path config n = Some (file_image (zlen es) es) ∧
    total_size es < MAX_CONTAINER_SIZE ∧ hashes_ok es ∧ zlen n = CONTAINER_ID_LENGTH;
  dk_len : ∀ n es h d, (n, es) ∈ gs → (h, d) ∈ es → zlen d ≤ MAX_CHUNK_SIZE;
  dk_names : NoDup (gs.*1);
  dk_hashes : NoDup (hashes gs) }.

Context (gs : list group) (Hgs : disk_ok gs).

(** The required containers are [ns], in the order of their numbers. *)
Record req_ok (rq : ReqContainer_t) (ns : list group) : Prop := {
  rq_num : idNum rq = zlen ns;
  rq_ids : bread (idBuffer rq) 0 (zlen (concat ns.*1)) = concat ns.*1;
  rq_arr : zlen (containerArray rq) = CONTAINER_CAPPING_VALUE;
  rq_in : ns ⊆ gs;
  rq_nd : NoDup ns;
  rq_max : zlen ns ≤ CONTAINER_CAPPING_VALUE }.

Definition entry_ok (ns : list group) (q : request) (e : DownloadChunkEntry_t) : Prop :=
  chunkHash e = q.2.1 ∧ q.2 ∈ q.1.2 ∧ ∃ k, entryContainerID e = Z.of_nat k ∧ ns !! k = Some q.1.

Lemma hashes_sub ns : ns ⊆ gs → NoDup ns → NoDup (hashes ns).
Proof.
  intros Hsub Hnd. destruct (submseteq_Permutation ns gs) as [rest E]; [by apply NoDup_submseteq|].
  pose proof (dk_hashes _ Hgs) as Hh. unfold hashes, all_entries in *. rewrite E, bind_app, fmap_app in Hh.
  by apply NoDup_app in Hh as [? _].
Qed.

Lemma names_len ns : ns ⊆ gs → zlen (concat ns.*1) = zlen ns * CONTAINER_ID_LENGTH.
Proof.
  induction ns as [|[n es] ns IH]; intros Hsub; [done|]. csimpl.
  destruct (dk_file _ Hgs n es) as (_ & _ & _ & Hl); [set_solver|].
  rewrite zlen_app, zlen_cons, Hl, IH by set_solver. lia.
Qed.

Lemma locs_groups_keys (ns : list group) :
  (ns.*2 ≫= λ es, locs (zlen es * 40 + 4) 0 es).*1 = hashes ns.
Proof.
  unfold hashes, all_entries. induction ns as [|[n es] ns IH]; [done|].
  csimpl. by rewrite !fmap_app, locs_keys, IH.
Qed.

(** Loading the required containers and indexing their headers: every entry can be
    recovered. *)
Lemma load_and_index rq rc num ns pend es :
  req_ok rq ns → rc_wf rc → coherent config s rc → Forall2 (entry_ok ns) pend es →
  ∃ rq' rc' num' ri, GetReqContainers config rq rc num s = Ok (rq', rc', num') ∧
    rc_wf rc' ∧ coherent config s rc' ∧ zlen (containerArray rq') = CONTAINER_CAPPING_VALUE ∧
    IndexConstruct ∅ (containerArray rq') (idNum rq') = Ok ri ∧
    (∀ h, h ∉ hashes ns → ri !! h = None) ∧
    Forall2 (λ (q : request) e, ∃ o b, ri !! chunkHash e = Some {| offset := o; length_ := zlen q.2.2 |} ∧
      containerArray rq' !! Z.to_nat (entryContainerID e) = Some b ∧ bread b o (zlen q.2.2) = q.2.2 ∧
      0 ≤ o ∧ o + zlen q.2.2 ≤ MAX_CONTAINER_SIZE ∧ zlen q.2.2 ≤ MAX_CHUNK_SIZE) pend es.
Proof.
  intros [Hnum Hids Harr Hin Hnd Hmax] Hrc Hcoh Hpend. unfold GetReqContainers. rewrite Hnum, to_nat_zlen.
  destruct (load_containers_spec config s ns.*1 0 rq rc num) as
    (rq' & rc' & num' & E & Hrc' & Hcoh' & Hnum' & Harr' & _ & Hload); try done.
  { by rewrite zlen_fmap. }
  { apply Forall_forall. intros n ([n' es'] & -> & Hg)%list_elem_of_fmap.
    destruct (dk_file _ Hgs n' es') as (Hf & Hfit & _ & Hl); [set_solver|]. split; [done|].
    eexists. split; [done|]. rewrite zlen_file_image. lia. }
  rewrite length_fmap in E.
  assert (Hloaded : ∀ k g, ns !! k = Some g → ∃ b, containerArray rq' !! k = Some b ∧ loaded b g.2).
  { intros k [n es'] Hk. destruct (Hload k n) as (b & bs & Hb & Hf & Hr).
    { by rewrite list_lookup_fmap, Hk. }
    destruct (dk_file _ Hgs n es') as (Hf' & Hfit & Hh & _); [apply Hin; by eapply list_elem_of_lookup_2|].
    rewrite Hf in Hf'. injection Hf' as ->. rewrite zlen_file_image in Hr. exists b. by split_and!. }
  assert (Hall : Forall2 loaded (take (length ns) (containerArray rq')) ns.*2).
  { apply Forall2_same_length_lookup_2.
    - rewrite length_take, length_fmap. unfold zlen in *. lia.
    - intros k b es' Hb Hes. rewrite list_lookup_fmap in Hes.
      destruct (ns !! k) as [g|] eqn:Hk; [|done]. injection Hes as <-.
      destruct (Hloaded k g Hk) as (b' & Hb' & Hl).
      rewrite lookup_take_lt in Hb by (by eapply lookup_lt_Some). congruence. }
  exists rq', rc', num'. eexists. split; [done|]. split_and!; [done..| | |].
  { unfold IndexConstruct. rewrite Hnum', Hnum, (proj2 (Z.leb_le _ _)) by lia. simpl.
    rewrite to_nat_zlen. by apply index_containers_spec. }
  { intros h Hh. rewrite insert_all_ne by (by rewrite locs_groups_keys). apply lookup_empty. }
  pose proof (hashes_sub ns Hin Hnd) as Hkeys. rewrite <- locs_groups_keys in Hkeys.
  eapply Forall2_impl; [exact Hpend|]. intros [[n es'] [h d]] e (Hh & Hd & k & Hk & Hns). simpl in *.
  destruct (Hloaded k _ Hns) as (b & Hb & Hl). simpl in Hl.
  destruct (loaded_lookup b es' h d Hl Hd) as (o & Ho & Hr & ? & ?).
  exists o, b. rewrite Hh, Hk, Nat2Z.id. split_and!; [|done|done|lia|lia|].
  - apply insert_all_lookup; [done|]. apply list_elem_of_bind. exists es'. split; [done|].
    apply list_elem_of_fmap. exists (n, es'). split; [done|]. by eapply list_elem_of_lookup_2.
  - eapply (dk_len _ Hgs); [|done]. apply Hin. by eapply list_elem_of_lookup_2.
Qed.

(** Numbering the container of the next entry. *)
Definition map_ok (map : gmap bytes Z) (ns : list group) : Prop :=
  (∀ n i, map !! n = Some i → ∃ g k, i = Z.of_nat k ∧ ns !! k = Some g ∧ g.1 = n) ∧
  (∀ g, g ∈ ns → is_Some (map !! g.1)).

Lemma assign_container_spec e map rq ns (q : request) :
  req_ok rq ns → map_ok map ns → zlen ns < CONTAINER_CAPPING_VALUE →
  chunkHash e = q.2.1 → containerName e = q.1.1 → q.1 ∈ gs → q.2 ∈ q.1.2 →
  ∃ e' map' rq' ns', assign_container e map rq = Ok (e', map', rq') ∧
    req_ok rq' ns' ∧ map_ok map' ns' ∧ ns `prefix_of` ns' ∧ entry_ok ns' q e'.
Proof.
  intros [Hnum Hids Harr Hin Hnd Hmax] [Hm1 Hm2] Hlt Hh Hn Hg Hq. unfold assign_container. rewrite Hn.
  destruct (map !! q.1.1) as [i|] eqn:Em.
  - destruct (Hm1 _ _ Em) as (g & k & -> & Hk & Hgn). eexists _, _, _, ns. split_and!; [done..|].
    split_and!; [done|done|]. exists k. split; [done|]. rewrite Hk. f_equal.
    apply (NoDup_fst_inj gs); [apply Hgs|apply Hin; by eapply list_elem_of_lookup_2|done|done].
  - sizes. pose proof (zlen_nonneg ns). rewrite Hnum, (proj2 (Z.leb_le _ _)) by lia. simpl.
    pose proof (names_len ns Hin) as Hlen. sizes.
    assert (Hq1 : zlen q.1.1 = 8).
    { destruct q as [[n es] x]. by destruct (dk_file _ Hgs n es Hg) as (_ & _ & _ & ?). }
    eexists _, _, _, (ns ++ [q.1]). split_and!; [done| | |by apply prefix_app_r|].
    + split; simpl; try done.
      * rewrite u32_small by lia. zlia.
      * rewrite fmap_app, concat_app. csimpl. rewrite app_nil_r, zlen_app.
        rewrite bread_bwrite_app by lia. by rewrite Hids.
      * intros g [?| ->%list_elem_of_singleton]%elem_of_app; auto.
      * apply NoDup_app. split_and!; [done| |apply NoDup_singleton].
        intros g Hns' ->%list_elem_of_singleton. destruct (Hm2 _ Hns'). congruence.
      * sizes. zlia.
    + split.
      * intros n i. rewrite lookup_insert_Some. intros [[<- <-]|[Hne Hi]].
        -- exists q.1, (length ns). rewrite lookup_app_r, Nat.sub_diag by lia. done.
        -- destruct (Hm1 n i Hi) as (g & k & -> & Hk & ?). exists g, k. split_and!; [done| |done].
           by apply lookup_app_l_Some.
      * intros g [Hin'| ->%list_elem_of_singleton]%elem_of_app; rewrite lookup_insert_is_Some'; auto.
    + split_and!; [done|done|]. exists (length ns). simpl. split; [done|].
      by rewrite lookup_app_r, Nat.sub_diag by lia.
Qed.

Lemma entry_ok_mono ns ns' q e : ns `prefix_of` ns' → entry_ok ns q e → entry_ok ns' q e.
Proof.
  intros Hp (? & ? & k & ? & ?). split_and!; [done..|]. exists k. split; [done|].
  by eapply prefix_lookup_Some.
Qed.

(** The buffers and the cache of a restore thread. *)
Record restore_ok (r : rstate (C := C)) : Prop := {
  ro_cache : rc_wf (_containerCache (r_st r));
  ro_coh : coherent config s (_containerCache (r_st r)) }.

(** Flushing: the pending chunks join the buffer; it is sent when it is full or the
    batch ends. *)
Lemma flush_entries_spec pend es last r ns ds ins outs :
  req_ok (_reqContainer (r_st r)) ns → restore_ok r → Forall2 (entry_ok ns) pend es →
  sending (_sendChunkBuf (r_st r)) ds → chan (r_conn r) ins outs →
  zlen ds < 256 → zlen ds + zlen pend ≤ 256 → pend ≠ [] →
  (last = false → zlen ds + zlen pend < 256) →
  let all := ds ++ (snd ∘ snd <$> pend) in
  ∃ r', flush_entries config es last r s = Ok r' ∧ req_ok (_reqContainer (r_st r')) [] ∧ restore_ok r' ∧
    _downloadChunkCap (r_st r') = _downloadChunkCap (r_st r) ∧
    if last then
      sending (_sendChunkBuf (r_st r')) [] ∧ ∃ f, chan (r_conn r') ins (outs ++ [f]) ∧
        is_message f (edge_code CLOUD_SEND_CHUNK) (zlen all) (payload all)
    else sending (_sendChunkBuf (r_st r')) all ∧ chan (r_conn r') ins outs.
Proof.
  intros Hreq [Hrc Hcoh] Hpend Hsd Hc Hlt Htot Hne Hlast. simpl. unfold flush_entries.
  destruct (load_and_index _ _ (r_fileNum r) ns pend es Hreq Hrc Hcoh Hpend)
    as (rq' & rc' & num' & ri & -> & Hrc' & Hcoh' & Harr' & Hri & _ & Hrec). simpl. rewrite Hri. simpl.
  destruct (recover_entries_spec pend es ri (containerArray rq') (_sendChunkBuf (r_st r)) (r_conn r) ds ins outs)
    as (m' & c' & -> & Hres); [done..|]. simpl.
  set (all := ds ++ (snd ∘ snd <$> pend)) in *.
  assert (Hlen : zlen all = zlen ds + zlen pend) by (unfold all; rewrite zlen_app, zlen_fmap; done).
  assert (0 < zlen pend) by (destruct pend; [done|zlia]). pose proof (zlen_nonneg ds).
  assert (Hreq' : req_ok {| idBuffer := idBuffer rq'; containerArray := containerArray rq'; idNum := 0 |} []).
  { split; try done; [set_solver|constructor]. }
  destruct (zlen all =? 256) eqn:E; zbool.
  - destruct Hres as (Hsd' & f & Hc' & Hf). destruct last; [|specialize (Hlast eq_refl); lia].
    pose proof (sending_size _ _ Hsd') as [_ ->]. change (zlen (@nil bytes)) with 0. simpl.
    eexists. split_and!; [done|done|done|done|done|eauto].
  - destruct Hres as (Hsd' & Hc'). pose proof (sending_size _ _ Hsd') as [_ ->].
    change (GetSendChunkBatchSize config) with 256. rewrite Z.mod_small, (proj2 (Z.eqb_neq _ _)) by lia.
    destruct last; simpl.
    + destruct (send_chunks_spec m' all c' ins outs Hsd' Hc') as (m2 & c2 & f & -> & Hsd2 & Hc2 & Hf). simpl.
      eexists. split_and!; [done|done|done|done|done|eauto].
    + eexists. by split_and!.
Qed.

(** The whole second loop sends one message with every chunk of the batch. *)
Lemma process_entries_spec qs es : ∀ pendq pend map r ns ds ins outs,
  Forall2 (λ (q : request) e, chunkHash e = q.2.1 ∧ containerName e = q.1.1 ∧ q.1 ∈ gs ∧ q.2 ∈ q.1.2) qs es →
  req_ok (_reqContainer (r_st r)) ns → map_ok map ns → zlen ns < CONTAINER_CAPPING_VALUE → restore_ok r →
  Forall2 (entry_ok ns) pendq pend →
  sending (_sendChunkBuf (r_st r)) ds → chan (r_conn r) ins outs →
  zlen ds + zlen pendq + zlen qs ≤ 256 → qs ≠ [] →
  let all := ds ++ (snd ∘ snd <$> pendq ++ qs) in
  ∃ r', process_entries config es pend map r s = Ok r' ∧
    req_ok (_reqContainer (r_st r')) [] ∧ restore_ok r' ∧
    _downloadChunkCap (r_st r') = _downloadChunkCap (r_st r) ∧
    sending (_sendChunkBuf (r_st r')) [] ∧ ∃ f, chan (r_conn r') ins (outs ++ [f]) ∧
      is_message f (edge_code CLOUD_SEND_CHUNK) (zlen all) (payload all).
Proof.
  revert es. induction qs as [|q qs IH]; intros es pendq pend map r ns ds ins outs Hqs Hreq Hmap Hns Hro Hpend
    Hsd Hc Htot Hne; [done|].
  apply Forall2_cons_inv_l in Hqs as (e & es' & (Hh & Hn & Hg & Hq) & Hqs & ->). cbn [process_entries].
  destruct (assign_container_spec e map _ ns q Hreq Hmap Hns Hh Hn Hg Hq)
    as (e' & map' & rq' & ns' & -> & Hreq' & Hmap' & Hpre & He').
  simpl. set (r1 := with_req rq' r).
  assert (Hpend' : Forall2 (entry_ok ns') (pendq ++ [q]) (pend ++ [e'])).
  { apply Forall2_app; [|by constructor]. eapply Forall2_impl; [done|]. intros; by eapply entry_ok_mono. }
  assert (Hlen : zlen (pendq ++ [q]) = zlen pendq + 1) by zlia. autorewrite with zlen in Htot.
  pose proof (zlen_nonneg pendq). pose proof (zlen_nonneg ds). pose proof (zlen_nonneg qs).
  assert (Hro1 : restore_ok r1) by (by destruct Hro).
  assert (Hes : length qs = length es') by (by eapply Forall2_length).
  replace (pendq ++ q :: qs) with ((pendq ++ [q]) ++ qs) by (by rewrite <- app_assoc).
  destruct (decide (es' = [])) as [->|Hes'].
  - assert (qs = []) as -> by (by destruct qs). rewrite bool_decide_eq_true_2, orb_true_r by done.
    destruct (flush_entries_spec (pendq ++ [q]) (pend ++ [e']) true r1 ns' ds ins outs)
      as (r2 & -> & Hreq2 & Hro2 & Hcap2 & Hsd2 & f & Hc2 & Hf); try done; [lia|lia|by destruct pendq|].
    simpl. exists r2. rewrite app_nil_r. split_and!; [done..|]. eauto.
  - rewrite bool_decide_eq_false_2, orb_false_r by done.
    assert (qs ≠ []) as Hqs' by (intros ->; by destruct es').
    assert (0 < zlen qs) by (destruct qs; [done|zlia]).
    destruct (idNum rq' =? CONTAINER_CAPPING_VALUE) eqn:Efull; zbool.
    + destruct (flush_entries_spec (pendq ++ [q]) (pend ++ [e']) false r1 ns' ds ins outs)
        as (r2 & -> & Hreq2 & Hro2 & Hcap2 & Hsd2 & Hc2); try done; [lia..|by destruct pendq|lia|].
      simpl. destruct (IH es' [] [] ∅ r2 [] (ds ++ (snd ∘ snd <$> pendq ++ [q])) ins outs)
        as (r3 & -> & Hreq3 & Hro3 & Hcap3 & Hsd3 & f & Hc3 & Hf); try done.
      * split; [by intros ? ? ?%lookup_empty_Some|set_solver].
      * rewrite zlen_app, zlen_fmap, Hlen, zlen_nil. lia.
      * exists r3. rewrite (fmap_app _ (pendq ++ [q])). rewrite <- app_assoc in Hf. simpl in Hf.
        split_and!; [done|done|done|by rewrite Hcap3|done|eauto].
    + pose proof (rq_num _ _ Hreq') as Hnum. pose proof (rq_max _ _ Hreq').
      destruct (IH es' (pendq ++ [q]) (pend ++ [e']) map' r1 ns' ds ins outs)
        as (r3 & -> & Hreq3 & Hro3 & Hcap3 & Hsd3 & f & Hc3 & Hf); try done; [lia..|].
      exists r3. by split_and!; eauto.
Qed.

(** The requests a batch makes, as the index answers them. *)
Definition requested (ix : AbsIndex DB) (qs : list request) : Prop :=
  Forall (λ q : request, stored (indexStore_ ix) q.2.1 = Some q.1.1 ∧ q.1 ∈ gs ∧ q.2 ∈ q.1.2) qs.

Lemma lookup_entries_spec ix qs : ∀ i m cap name,
  requested ix qs → 0 ≤ i → i + zlen qs ≤ cap → cap ≤ 256 → 256 * 32 ≤ dataCap m →
  bread (sendBuffer m) (dataOff (i * 32)) (zlen (concat (req_hashes qs))) = concat (req_hashes qs) →
  ∃ es, lookup_entries (length qs) i ix m cap name = Ok es ∧
    Forall2 (λ (q : request) e, chunkHash e = q.2.1 ∧ containerName e = q.1.1 ∧ q.1 ∈ gs ∧ q.2 ∈ q.1.2) qs es.
Proof.
  induction qs as [|[[n es] [h d]] qs IH]; intros i m cap name Hqs Hi Hcap Hc Hm Hb; [by exists []|].
  apply Forall_cons in Hqs as [(Hst & Hg & Hq) Hqs]. csimpl in *. autorewrite with zlen in Hcap.
  pose proof (zlen_nonneg qs).
  destruct (dk_file _ Hgs n es Hg) as (_ & _ & Hh & Hl).
  assert (Hhl : zlen h = 32) by (eapply (Forall_forall _ _) in Hh; [|exact Hq]; done).
  pose proof (bread_prefix _ _ _ _ Hb) as Hb1. apply bread_suffix in Hb. rewrite Hhl in *.
  sizes. rewrite (proj2 (Z.ltb_lt _ _)) by lia. simpl. rewrite u32_small, data_read_ok by lia. simpl.
  rewrite Hb1. unfold ReadIndexStore. rewrite query_stored, Hst. rewrite (proj2 (Z.leb_le _ _)) by lia. simpl.
  destruct (IH (i + 1) m cap n) as (es' & -> & Hes'); try done; try lia.
  { replace (dataOff ((i + 1) * 32)) with (dataOff (i * 32) + 32) by (unfold dataOff; lia). done. }
  simpl. eexists. split; [done|]. constructor; [|done]. split_and!; try done. simpl.
  apply take_app_length'. unfold zlen in Hl. lia.
Qed.

Lemma ProcessRecipeBatch_spec ix qs r ins outs :
  requested ix qs → zlen qs ≤ 256 →
  req_ok (_reqContainer (r_st r)) [] → restore_ok r → _downloadChunkCap (r_st r) = 256 →
  sending (_sendChunkBuf (r_st r)) [] → chan (r_conn r) ins outs →
  bread (sendBuffer (_sendChunkBuf (r_st r))) (dataOff 0) (zlen (concat (req_hashes qs))) = concat (req_hashes qs) →
  ∃ r' fs f, ProcessRecipeBatch config ix (zlen qs) r s = Ok r' ∧
    chan (r_conn r') ins (outs ++ fs ++ [f]) ∧
    (if bool_decide (qs = []) then fs = [] else
       ∃ f1, fs = [f1] ∧ is_message f1 (edge_code CLOUD_SEND_CHUNK) (zlen qs) (payload (req_data qs))) ∧
    is_message f (edge_code CLOUD_SEND_CHUNK_END) 0 [] ∧
    req_ok (_reqContainer (r_st r')) [] ∧ restore_ok r' ∧ _downloadChunkCap (r_st r') = 256 ∧
    sending (_sendChunkBuf (r_st r')) [].
Proof.
  intros Hqs Hlen Hreq Hro Hcap Hsd Hc Hb. unfold ProcessRecipeBatch. rewrite to_nat_zlen, Hcap.
  pose proof (sd_cap _ _ Hsd) as Hdc. sizes.
  destruct (lookup_entries_spec ix qs 0 (_sendChunkBuf (r_st r)) 256 (replicate (Z.to_nat 8) 0) Hqs)
    as (es & -> & Hes); [lia|lia|lia|lia|done|]. simpl.
  assert (Hmid : ∃ r1 fs, process_entries config es [] ∅ r s = Ok r1 ∧ chan (r_conn r1) ins (outs ++ fs) ∧
    (if bool_decide (qs = []) then fs = [] else
       ∃ f1, fs = [f1] ∧ is_message f1 (edge_code CLOUD_SEND_CHUNK) (zlen qs) (payload (req_data qs))) ∧
    req_ok (_reqContainer (r_st r1)) [] ∧ restore_ok r1 ∧ _downloadChunkCap (r_st r1) = 256 ∧
    sending (_sendChunkBuf (r_st r1)) []).
  { destruct (decide (qs = [])) as [->|Hne].
    - inversion Hes; subst. exists r, []. rewrite app_nil_r. by split_and!.
    - destruct (process_entries_spec qs es [] [] ∅ r [] [] ins outs)
        as (r1 & -> & Hreq1 & Hro1 & Hcap1 & Hsd1 & f1 & Hc1 & Hf1); try done; try lia.
      { split; [by intros ? ? ?%lookup_empty_Some|set_solver]. }
      exists r1, [f1]. rewrite bool_decide_eq_false_2 by done. split_and!; try done; [|congruence].
      exists f1. split; [done|]. simpl in Hf1. by rewrite zlen_fmap in Hf1. }
  destruct Hmid as (r1 & fs & -> & Hc1 & Hfs & Hreq1 & Hro1 & Hcap1 & Hsd1). simpl.
  unfold ProcessRecipeTailBatch, SendBatchChunks.
  set (m1 := set_messageType _ (_sendChunkBuf (r_st r1))).
  assert (Hsd2 : sending m1 []) by (by apply sending_type).
  assert (Ht1 : bread (sendBuffer m1) 0 4 = le_enc 4 (edge_code CLOUD_SEND_CHUNK_END)).
  { unfold m1. simpl. by rewrite bread_bwrite_len. }
  clearbody m1. destruct (sending_size _ _ Hsd2) as [Hz _]. pose proof (sd_cap _ _ Hsd2) as Hdc2.
  unfold dataCap in Hdc2. sizes. rewrite Hz. change (zlen (payload [])) with 0.
  rewrite (proj2 (Z.leb_le _ _)) by lia. simpl.
  destruct (send_message (r_conn r1) ins (outs ++ fs) (bread (sendBuffer m1) 0 (16 + 0)) Hc1)
    as (c' & -> & Hc'); [by rewrite zlen_bread|]. simpl.
  eexists _, fs, _. split_and!; [done| |done| |done| |done|done].
  - rewrite app_assoc. exact Hc'.
  - pose proof (sending_frame m1 [] _ Hsd2 Ht1) as Hm. by rewrite Hz in Hm.
  - by destruct Hro1.
Qed.

(** *** A session *)

Lemma req_hashes_len ix qs : requested ix qs → zlen (concat (req_hashes qs)) = zlen qs * 32.
Proof.
  induction 1 as [|[[n es] [h d]] qs (_ & Hg & Hq) _ IH]; [done|]. csimpl in *.
  destruct (dk_file _ Hgs n es Hg) as (_ & _ & Hh & _). eapply (Forall_forall _ _) in Hh; [|exact Hq].
  simpl in Hh. sizes. zlia.
Qed.

(** A request message, and the answer to it. *)
Definition is_request (f : bytes) (qs : list request) : Prop :=
  is_message f (edge_code EDGE_DOWNLOAD_CHUNK_READY) (zlen qs) (concat (req_hashes qs)).
Definition is_answer (qs : list request) (fs : list bytes) : Prop :=
  ∃ gs f, fs = gs ++ [f] ∧ is_message f (edge_code CLOUD_SEND_CHUNK_END) 0 [] ∧
    if bool_decide (qs = []) then gs = [] else
      ∃ f1, gs = [f1] ∧ is_message f1 (edge_code CLOUD_SEND_CHUNK) (zlen qs) (payload (req_data qs)).

(** The thread between two messages. *)
Record idle (r : rstate (C := C)) : Prop := {
  id_req : req_ok (_reqContainer (r_st r)) [];
  id_ok : restore_ok r;
  id_cap : _downloadChunkCap (r_st r) = 256;
  id_buf : dataCap (_sendChunkBuf (r_st r)) = 256 * (sizeof_uint32_t + MAX_CHUNK_SIZE) }.

Lemma serve_spec ix fss qss : ∀ fuel r outs,
  Forall2 is_request fss qss → Forall (λ qs, requested ix qs ∧ zlen qs ≤ 256) qss →
  idle r → chan (r_conn r) fss outs → (length fss < fuel)%nat →
  ∃ r' ans, serve config fuel ix r s = Ok r' ∧ idle r' ∧
    Forall2 is_answer qss ans ∧ cleared (r_conn r') (outs ++ concat ans).
Proof.
  revert qss. induction fss as [|f fss IH]; intros qss fuel r outs Hfs Hqss Hid Hc Hfuel;
    (destruct fuel as [|fuel]; [simpl in Hfuel; lia|]); cbn [serve].
  - inversion Hfs; subst. destruct (recv_closed _ _ (_sendChunkBuf (r_st r)) Hc) as (c' & -> & Hc'). simpl.
    eexists _, []. simpl. rewrite app_nil_r. split_and!; [done| |constructor|by apply clear_cleared].
    by destruct Hid as [? [] ? ?].
  - apply Forall2_cons_inv_l in Hfs as (qs & qss' & Hf & Hfs & ->). apply Forall_cons in Hqss as [[Hq Hlen] Hqss].
    destruct Hid as [Hreq Hro Hcap Hbuf].
    assert (Hfit : zlen f ≤ bufCap (_sendChunkBuf (r_st r))).
    { destruct Hf as (cid & Hcid & ->). unfold dataCap in Hbuf. sizes.
      pose proof (req_hashes_len ix qs Hq). zlia. }
    destruct (recv_message _ f fss outs (_sendChunkBuf (r_st r)) Hc Hfit) as (m' & c' & -> & Hrecv & Hc'). simpl.
    pose proof (zlen_nonneg qs). pose proof (req_hashes_len ix qs Hq).
    destruct (received_message _ f m' _ _ _ Hrecv Hf) as (-> & -> & _ & Hdat); [done|lia|lia|].
    rewrite Z.eqb_refl. simpl.
    set (m2 := set_dataSize 0 (set_currentItemNum 0 m')).
    assert (Hdat2 : bread (sendBuffer m2) (dataOff 0) (zlen (concat (req_hashes qs))) = concat (req_hashes qs)).
    { unfold m2, dataOff. sizes. simpl. by rewrite !bread_bwrite_ne by zlia. }
    destruct (ProcessRecipeBatch_spec ix qs (with_buf m2 c' (with_buf m' c' r)) fss outs)
      as (r1 & gs1 & f1 & -> & Hc1 & Hgs1 & Hf1 & Hreq1 & Hro1 & Hcap1 & Hsd1); try done.
    { by destruct Hro. }
    { destruct Hrecv as [Hbc _]. split; try done; simpl.
      unfold dataCap in *. simpl. by rewrite Hbc. }
    simpl. destruct (IH qss' fuel r1 (outs ++ gs1 ++ [f1])) as (r2 & ans & -> & Hid2 & Hans & Hc2);
      [done|done|split; [done..|]; apply Hsd1|done|simpl in Hfuel; lia|].
    exists r2, ((gs1 ++ [f1]) :: ans). split_and!; [done|done| |].
    + constructor; [|done]. by exists gs1, f1.
    + simpl. by rewrite <- app_assoc in Hc2.
Qed.
End Batch.

(** A thread whose buffers the constructor of [ClientVar] allocated is idle. *)
Definition start_restore {C} (config : Configure) (malloc_ : nat → buf) (c : ClientVar) (conn : C) : rstate :=
  {| r_st := ClientVar.restore (InitDownloadChunkBuffer config malloc_ c); r_fileNum := 0; r_conn := conn |}.

Lemma start_restore_idle {C} config malloc_ c (conn : C) s gs :
  1 ≤ GetReadCacheSize config < 2 ^ 32 → idle config s gs (start_restore config malloc_ c conn).
Proof.
  intros Hn. destruct (new_ReadCache_wf config (λ i, malloc_ (18 + i)%nat) Hn) as [Hwf Hex].
  split; try done. split; try done; [set_solver|constructor].
Qed.

(** *** A container that is not on the disk *)

Section Missing.
Context (config : Configure) `{AbsDatabaseLaws DB} `{ChannelLaws C} (s : fs) (ix : AbsIndex DB).
Hypothesis names_len8 : ∀ h n, stored (indexStore_ ix) h = Some n → zlen n = CONTAINER_ID_LENGTH.

Lemma zlen_concat32 (hs : list bytes) : Forall (λ h, zlen h = CHUNK_HASH_SIZE) hs → zlen (concat hs) = zlen hs * 32.
Proof. induction 1 as [|h hs Hh _ IH]; [done|]. csimpl. sizes. zlia. Qed.

(** The look-ups succeed for any hashes; the first entry has the container of the
    first hash, or the name the loop starts with when the index does not know the hash. *)
Lemma lookup_entries_any (hs : list bytes) : ∀ i m cap name, Forall (λ h, zlen h = CHUNK_HASH_SIZE) hs →
  zlen name = CONTAINER_ID_LENGTH → 0 ≤ i → i + zlen hs ≤ cap → cap ≤ 256 → 256 * 32 ≤ dataCap m →
  bread (sendBuffer m) (dataOff (i * 32)) (zlen (concat hs)) = concat hs →
  ∃ es, lookup_entries (length hs) i ix m cap name = Ok es ∧ length es = length hs ∧
    ∀ h hs', hs = h :: hs' → ∃ e es', es = e :: es' ∧ containerName e = default name (stored (indexStore_ ix) h).
Proof.
  induction hs as [|h hs IH]; intros i m cap name Hhs Hnm Hi Hcap Hc Hm Hb; [by exists []|].
  apply Forall_cons in Hhs as [Hh Hhs]. simpl in *. autorewrite with zlen in Hcap. pose proof (zlen_nonneg hs).
  pose proof (bread_prefix _ _ _ _ Hb) as Hb1. apply bread_suffix in Hb. sizes. rewrite Hh in *.
  rewrite (proj2 (Z.ltb_lt _ _)) by lia. simpl. rewrite u32_small, data_read_ok by lia. simpl. rewrite Hb1.
  assert (Hq : ∃ b name', Query (indexStore_ ix) h name = (b, name') ∧ zlen name' = 8 ∧
    name' = default name (stored (indexStore_ ix) h)).
  { rewrite query_stored. destruct (stored _ h) as [n|] eqn:E; eexists _, _; split_and!; try done. by eapply names_len8. }
  destruct Hq as (b & name' & Eq & Hl & Hn). unfold ReadIndexStore. rewrite Eq, (proj2 (Z.leb_le _ _)) by lia. simpl.
  destruct (IH (i + 1) m cap name' Hhs Hl) as (es & -> & Hlen & _); [lia..| |].
  { replace (dataOff ((i + 1) * 32)) with (dataOff (i * 32) + 32) by (unfold dataOff; lia). done. }
  simpl. eexists. split; [done|]. split; [simpl; lia|]. intros h' hs' [= <- <-]. eexists _, _. split; [done|]. simpl.
  rewrite <- Hn. apply take_app_length'. unfold zlen in Hl. lia.
Qed.

(** [n] is, or is about to be, the first required container; it is not cached and its
    file cannot be opened. *)
Record missing (n : bytes) (es : list DownloadChunkEntry_t) (map : gmap bytes Z) (r : rstate (C := C)) : Prop := {
  ms_num : 0 ≤ idNum (_reqContainer (r_st r)) < CONTAINER_CAPPING_VALUE;
  ms_first : (0 < idNum (_reqContainer (r_st r)) ∧
      bread (idBuffer (_reqContainer (r_st r))) 0 CONTAINER_ID_LENGTH = n) ∨
    (idNum (_reqContainer (r_st r)) = 0 ∧ map = ∅ ∧ ∃ e es', es = e :: es' ∧ containerName e = n);
  ms_arr : containerArray (_reqContainer (r_st r)) ≠ [];
  ms_cache : ExistsInCache n (_containerCache (r_st r)) = false;
  ms_file : is_regular_file s (container_path config n) = false }.

Lemma missing_exits n r pending last : 0 < idNum (_reqContainer (r_st r)) ≤ CONTAINER_CAPPING_VALUE →
  bread (idBuffer (_reqContainer (r_st r))) 0 CONTAINER_ID_LENGTH = n →
  containerArray (_reqContainer (r_st r)) ≠ [] → ExistsInCache n (_containerCache (r_st r)) = false →
  is_regular_file s (container_path config n) = false →
  flush_entries config pending last r s = Err EXIT_FAILURE.
Proof.
  intros Hn Hid Ha Hc Hf. unfold flush_entries, GetReqContainers.
  destruct (Z.to_nat (idNum (_reqContainer (r_st r)))) as [|k] eqn:Ek; [lia|]. simpl.
  destruct (containerArray (_reqContainer (r_st r))) as [|slot arr] eqn:Ea; [done|]. simpl in *.
  change (0 * CONTAINER_ID_LENGTH) with 0. rewrite Hid. unfold load_container. rewrite Hc. simpl. by rewrite Hf.
Qed.

(** Numbering the next entry keeps [n] in front. *)
Lemma assign_missing n e es map r : zlen n = CONTAINER_ID_LENGTH → missing n (e :: es) map r →
  ∃ e' map' rq', assign_container e map (_reqContainer (r_st r)) = Ok (e', map', rq') ∧
    0 < idNum rq' ≤ CONTAINER_CAPPING_VALUE ∧ bread (idBuffer rq') 0 CONTAINER_ID_LENGTH = n ∧
    containerArray rq' = containerArray (_reqContainer (r_st r)).
Proof.
  intros Hl [Hnum Hfirst Ha _ _]. unfold assign_container. sizes.
  destruct Hfirst as [[Hpos Hid]|(Hz & -> & e0 & es0 & [= <- <-] & Hn)].
  - destruct (map !! containerName e); [eexists _, _, _; split; [done|]; split; [lia|done]|].
    rewrite (proj2 (Z.leb_le _ _)) by lia. simpl. eexists _, _, _. split; [done|]. simpl.
    rewrite u32_small by lia. split; [lia|]. by rewrite bread_bwrite_ne by lia.
  - rewrite lookup_empty, Hz. simpl. eexists _, _, _. split; [done|]. simpl. split; [done|]. split; [|done].
    rewrite <- Hl, <- Hn. by apply bread_bwrite_len.
Qed.

(** Whatever else the batch asks for, the first flush fails. *)
Lemma process_entries_missing n es : ∀ pending map r, zlen n = CONTAINER_ID_LENGTH → missing n es map r → es ≠ [] →
  process_entries config es pending map r s = Err EXIT_FAILURE.
Proof.
  induction es as [|e es IH]; intros pending map r Hl Hms Hne; [done|]. clear Hne. cbn [process_entries].
  destruct (assign_missing n e es map r Hl Hms) as (e' & map' & rq' & -> & Hn' & Hid' & Ha'). simpl.
  destruct Hms as [_ _ Ha Hc Hf]. rewrite <- Ha' in Ha.
  destruct ((idNum rq' =? CONTAINER_CAPPING_VALUE) || bool_decide (es = [])) eqn:E.
  - by rewrite (missing_exits n).
  - apply orb_false_iff in E as [E1%Z.eqb_neq E2%bool_decide_eq_false]. apply IH; [done| |done].
    split; try done; simpl; [lia|left; split; [lia|done]].
Qed.

(** The container name an entry gets: zeros for a first hash that is not known. *)
Definition entry_container (h : bytes) : bytes :=
  default (replicate (Z.to_nat CONTAINER_ID_LENGTH) 0) (stored (indexStore_ ix) h).

(** A request whose first chunk is in a container that is not on the disk ends the server. *)
Lemma missing_Run_spec malloc_ client (conn : C) ready f fss h hs fuel : 1 ≤ GetReadCacheSize config < 2 ^ 32 →
  is_message ready (edge_code EDGE_RECEIVE_READY) 0 [] →
  is_message f (edge_code EDGE_DOWNLOAD_CHUNK_READY) (zlen (h :: hs)) (concat (h :: hs)) → zlen (h :: hs) ≤ 256 →
  Forall (λ h, zlen h = CHUNK_HASH_SIZE) (h :: hs) →
  is_regular_file s (container_path config (entry_container h)) = false →
  chan conn (ready :: f :: fss) [] → (0 < fuel)%nat →
  Run config fuel ix (start_restore config malloc_ client conn) s = Err EXIT_FAILURE.
Proof.
  intros Hn Hready Hf Hlen Hhs Hno Hc Hfuel. set (n := entry_container h) in *.
  destruct (start_restore_idle config malloc_ client conn s [] Hn) as [Hreq _ Hcap Hbuf].
  destruct (new_ReadCache_wf config (λ i, malloc_ (18 + i)%nat) Hn) as [_ Hex].
  assert (Hex' : ExistsInCache n (_containerCache (r_st (start_restore config malloc_ client conn))) = false) by apply Hex.
  set (r := start_restore config malloc_ client conn) in *. unfold Run. change conn with (r_conn r) in Hc. clearbody r.
  assert (Hfit : zlen ready ≤ bufCap (_sendChunkBuf (r_st r))).
  { unfold dataCap in Hbuf. sizes. destruct Hready as (cid & Hcid & ->). zlia. }
  destruct (recv_message _ ready (f :: fss) [] (_sendChunkBuf (r_st r)) Hc Hfit) as (m' & c' & -> & Hrecv & Hc'). simpl.
  destruct (received_message _ ready m' _ _ _ Hrecv Hready) as (-> & _); [done..|]. rewrite Z.eqb_refl. simpl.
  destruct fuel as [|fuel]; [lia|]. cbn [serve].
  assert (Hfit2 : zlen f ≤ bufCap (_sendChunkBuf (r_st (with_buf m' c' r)))).
  { destruct Hrecv as [Hbc _]. unfold dataCap in Hbuf. sizes. destruct Hf as (cid & Hcid & ->).
    change (_sendChunkBuf (r_st (with_buf m' c' r))) with m'.
    rewrite Hbc, !zlen_app, !zlen_le_enc, Hcid, zlen_concat32 by done. lia. }
  change (r_conn (with_buf m' c' r)) with c'.
  destruct (recv_message _ f fss [] _ Hc' Hfit2) as (m2 & c2 & -> & Hrecv2 & _). simpl.
  pose proof (zlen_nonneg (h :: hs)). pose proof (zlen_concat32 (h :: hs) Hhs) as Hcl.
  destruct (received_message _ f m2 _ _ _ Hrecv2 Hf) as (-> & -> & _ & Hdat); [done|lia|lia|].
  rewrite Z.eqb_refl. simpl. set (m3 := set_dataSize 0 (set_currentItemNum 0 m2)).
  assert (Hdat3 : bread (sendBuffer m3) (dataOff 0) (zlen (concat (h :: hs))) = concat (h :: hs)).
  { unfold m3, dataOff. sizes. simpl. by rewrite !bread_bwrite_ne by zlia. }
  unfold ProcessRecipeBatch. rewrite to_nat_zlen. cbn [r_st with_buf _downloadChunkCap _sendChunkBuf]. rewrite Hcap.
  destruct (lookup_entries_any (h :: hs) 0 m3 256 (replicate (Z.to_nat CONTAINER_ID_LENGTH) 0) Hhs)
    as (es & -> & Hel & Hfst); [done|lia|lia|lia| |done|].
  { destruct Hrecv as [Hbc _], Hrecv2 as [Hbc2 _]. unfold dataCap in *. simpl in *. rewrite Hbc2, Hbc, Hbuf. sizes. lia. }
  simpl. destruct (Hfst h hs eq_refl) as (e & es' & -> & Hen). fold (entry_container h) in Hen. fold n in Hen.
  rewrite (process_entries_missing n); [done| | |done].
  { unfold n, entry_container. destruct (stored _ h) as [n'|] eqn:E; [by eapply names_len8|done]. }
  pose proof (rq_num _ _ _ Hreq) as Hz. pose proof (rq_arr _ _ _ Hreq) as Har.
  split; simpl; [rewrite Hz; done|right; split; [done|]; eauto| |done|done].
  intros E. by rewrite E in Har.
Qed.
End Missing.

(** ** Theorems *)

(** The whole session. *)
Lemma restore_Run_spec config `{AbsDatabaseLaws DB} `{ChannelLaws C} (s : fs) (gs : list group)
    (ix : AbsIndex DB) malloc_ client (conn : C) ready fss qss fuel :
  disk_ok config s gs → 1 ≤ GetReadCacheSize config < 2 ^ 32 →
  is_message ready (edge_code EDGE_RECEIVE_READY) 0 [] →
  Forall2 is_request fss qss → Forall (λ qs, requested gs ix qs ∧ zlen qs ≤ 256) qss →
  chan conn (ready :: fss) [] → (length fss < fuel)%nat →
  ∃ r' ans, Run config fuel ix (start_restore config malloc_ client conn) s = Ok r' ∧
    Forall2 is_answer qss ans ∧ cleared (r_conn r') (concat ans).
Proof.
  intros Hgs Hn Hready Hfs Hqss Hc Hfuel.
  pose proof (start_restore_idle config malloc_ client conn s gs Hn) as Hid.
  set (r := start_restore config malloc_ client conn) in *. unfold Run. change conn with (r_conn r) in Hc.
  assert (Hfit : zlen ready ≤ bufCap (_sendChunkBuf (r_st r))).
  { pose proof (id_buf _ _ _ _ Hid) as Hb. unfold dataCap in Hb. sizes.
    destruct Hready as (cid & Hcid & ->). zlia. }
  destruct (recv_message _ ready fss [] (_sendChunkBuf (r_st r)) Hc Hfit) as (m' & c' & -> & Hrecv & Hc'). simpl.
  destruct (received_message _ ready m' _ _ _ Hrecv Hready) as (-> & _); [done..|].
  rewrite Z.eqb_refl. simpl. clearbody r.
  destruct (serve_spec config s gs Hgs ix fss qss fuel (with_buf m' c' r) []) as (r' & ans & -> & _ & Hans & Hc'');
    [done|done| |done|done|eauto].
  destruct Hid as [Hreq [? ?] Hcap Hbuf]. split; try done. destruct Hrecv as [Hbc _].
  unfold dataCap in *. simpl. by rewrite Hbc.
Qed.

(** C5: restore is exact.  A session that starts with the ready message and requests
    batches of stored chunks ends when the peer closes; each batch is answered by one
    message with exactly the data of the requested chunks, in the order of the
    request, and an end message, whatever the cache evicts and however the chunks are
    spread over containers; then the connection is cleared.  A batch has at most 256
    hashes, all of them stored, and the container files have different names. *)
Theorem Run_restores config `{AbsDatabaseLaws DB} `{ChannelLaws C} (s : fs) (gs : list group)
    (ix : AbsIndex DB) malloc_ client (conn : C) ready fss qss fuel :
  disk_ok config s gs → 1 ≤ GetReadCacheSize config < 2 ^ 32 →
  is_message ready (edge_code EDGE_RECEIVE_READY) 0 [] →
  Forall2 is_request fss qss → Forall (λ qs, requested gs ix qs ∧ zlen qs ≤ 256) qss →
  chan conn (ready :: fss) [] → (length fss < fuel)%nat →
  ∃ r' ans, Run config fuel ix (start_restore config malloc_ client conn) s = Ok r' ∧
    Forall2 is_answer qss ans ∧ cleared (r_conn r') (concat ans).
Proof. intros. by eapply restore_Run_spec. Qed.

(** Indexing a loaded container file finds exactly the hashes of its chunks, with the
    position and the length of their data. *)
Lemma index_loaded b es : loaded b es → NoDup (es.*1) →
  ∃ ri, IndexConstruct ∅ [b] 1 = Ok ri ∧
    (∀ h d, (h, d) ∈ es → ∃ o, ri !! h = Some {| offset := o; length_ := zlen d |} ∧ bread b o (zlen d) = d ∧
       0 ≤ o ∧ o + zlen d < MAX_CONTAINER_SIZE) ∧
    (∀ h, is_Some (ri !! h) ↔ h ∈ es.*1).
Proof.
  intros Hl Hnd. unfold IndexConstruct. rewrite (proj2 (Z.leb_le _ _)) by done. simpl.
  rewrite (index_container_spec b es ∅ Hl). simpl. eexists. split; [done|].
  assert (Hk : NoDup (locs (zlen es * 40 + 4) 0 es).*1) by (by rewrite locs_keys). split.
  - intros h d Hin. destruct (loaded_lookup b es h d Hl Hin) as (o & Ho & Hd & ? & ?).
    exists o. by split; [by apply insert_all_lookup|].
  - intros h. rewrite <- (locs_keys (zlen es * 40 + 4) 0 es). split.
    + intros Hh. apply dec_stable. intros Hn. rewrite insert_all_ne, lookup_empty in Hh by done. by destruct Hh.
    + intros ([h' r] & -> & Hin)%list_elem_of_fmap. exists r. by apply insert_all_lookup.
Qed.

(** Storing chunks one by one, each from the start of a buffer of its own. *)
Fixpoint store_chunks (stk : buf) (cs : list entry) (u : UploadState) (g : rng) : result (UploadState * rng) :=
  match cs with
  | [] => Ok (u, g)
  | (h, d) :: cs =>
      '(_, u, g) ← WriteContainer stk (bwrite (λ _, 0) 0 d) 0 (zlen d) h u g;
      store_chunks stk cs u g
  end.

Lemma total_size_app es cs : total_size es ≤ total_size (es ++ cs).
Proof.
  induction cs as [|[h d] cs IH] using rev_ind; [by rewrite app_nil_r|].
  rewrite app_assoc, total_size_snoc. pose proof (zlen_nonneg h). pose proof (zlen_nonneg d). lia.
Qed.

Lemma store_chunks_spec stk cs : ∀ es u g, cont_repr 0 (_curContainer u) es →
  Forall (λ c, zlen c.1 = CHUNK_HASH_SIZE ∧ zlen c.2 ≤ MAX_CHUNK_SIZE) cs → total_size (es ++ cs) < MAX_CONTAINER_SIZE →
  ∃ cc', store_chunks stk cs u g = Ok (with_curContainer cc' u, g) ∧ containerID cc' = containerID (_curContainer u) ∧
    cont_repr 0 cc' (es ++ cs).
Proof.
  induction cs as [|[h d] cs IH]; intros es u g Hrep Hcs Hsz.
  { exists (_curContainer u). rewrite app_nil_r. split; [by destruct u|done]. }
  apply Forall_cons in Hcs as [[Hh Hd] Hcs]. cbn [fst snd] in *. cbn [store_chunks].
  pose proof (WriteContainer_spec stk (bwrite (λ _, 0) 0 d) 0 (zlen d) h 0 u g es Hrep) as Hw.
  rewrite bread_bwrite_eq in Hw. replace (es ++ (h, d) :: cs) with ((es ++ [(h, d)]) ++ cs) in * by by rewrite <- app_assoc.
  assert (Hfit : total_size es + entry_size + zlen d < MAX_CONTAINER_SIZE).
  { pose proof (total_size_app (es ++ [(h, d)]) cs) as Hle. rewrite total_size_snoc, Hh in Hle. unfold entry_size. sizes. lia. }
  rewrite (proj2 (Z.ltb_lt _ _) Hfit) in Hw. destruct Hw as (cc1 & -> & Hid1 & Hrep1); [split; [apply zlen_nonneg|done]|done|].
  cbn [mbind result_bind]. destruct (IH _ (with_curContainer cc1 u) g Hrep1 Hcs Hsz) as (cc' & -> & Hid & Hrep').
  exists cc'. split; [done|]. by rewrite <- Hid1.
Qed.

(** C15: containers round trip.  Chunks with different hashes that fit an empty container
    are stored ([WriteContainer]), the container is serialised and pushed
    ([Ocall_WriteContainer]) and written to its file ([SaveToFile]); the restore side,
    whose cache is empty, reads that file (a round of [GetReqContainers]),
    indexes its header ([IndexConstruct]) and copies chunks out ([RecoverOneChunk]).
    All of it succeeds; the index then knows exactly the hashes that were stored, and
    for each of them the bytes put into the send buffer are the length and the bytes of
    that very chunk.  (Containers after the first one of an upload start with chunk
    count 0, as assumed here; see [EndToEnd.uninitialised_count] for the first one.) *)
Theorem container_roundtrip config stk u g cs s slot rc fileNum m :
  let cc := _curContainer u in let m0 := set_currentItemNum 0 (set_dataSize 0 m) in
  chunkNum cc = 0 → currentBodySize cc = 0 → currentHeaderSize cc = 0 → zlen (containerID cc) = CONTAINER_ID_LENGTH →
  Forall (λ c, zlen c.1 = CHUNK_HASH_SIZE ∧ zlen c.2 ≤ MAX_CHUNK_SIZE) cs → NoDup cs.*1 → total_size cs < MAX_CONTAINER_SIZE →
  (∀ p, creatable s p = true) → rc_wf rc → (∀ n, ExistsInCache n rc = false) →
  dataCap m = 256 * (sizeof_uint32_t + MAX_CHUNK_SIZE) →
  ∃ u1 u2 c s1 slot1 rc1 n1 ri,
    store_chunks stk cs u g = Ok (u1, g) ∧ Ocall_WriteContainer stk u1 = Ok u2 ∧
    pushed (_inputMQ u2) = pushed (_inputMQ u) ++ [c] ∧ SaveToFile config c s = Ok s1 ∧
    load_container config (containerID cc) slot rc fileNum s1 = Ok (slot1, rc1, n1) ∧
    IndexConstruct ∅ [slot1] 1 = Ok ri ∧ (∀ h, is_Some (ri !! h) ↔ h ∈ cs.*1) ∧
    ∀ h d, (h, d) ∈ cs → ∃ r m1, ri !! h = Some r ∧
      RecoverOneChunk {| chunkHash := h; containerName := containerID cc; chunkOffset := offset r; chunkSize := length_ r;
                         entryContainerID := 0 |} slot1 m0 = Ok m1 ∧
      dataSize m1 = 4 + zlen d ∧ bread (sendBuffer m1) (dataOff 0) (4 + zlen d) = le_enc 4 (zlen d) ++ d.
Proof.
  intros cc m0 Hnum Hbs Hhs Hid Hcs Hnd Hsz Hcr Hrc Hex Hcap.
  assert (Hrep : cont_repr 0 (_curContainer u) []).
  { pose proof (cont_repr_empty 0 (containerID cc) (body cc) (header cc) ltac:(lia) Hid) as Hr.
    rewrite <- Hnum, <- Hbs, <- Hhs in Hr at 2. subst cc. by destruct (_curContainer u). }
  destruct (store_chunks_spec stk cs [] u g Hrep Hcs Hsz) as (cc1 & E1 & Hid1 & Hrep1). cbn [app] in Hrep1.
  destruct (Ocall_WriteContainer_spec stk 0 (with_curContainer cc1 u) cs Hrep1) as (c & E2 & Hc & _ & Himg).
  change (containerID (_curContainer (with_curContainer cc1 u))) with (containerID cc1) in Hc. rewrite Hid1 in Hc. fold cc in Hc.
  destruct (SaveToFile_spec config c s) as (s1 & E3 & _ & Hf1); [by rewrite Hc|done|].
  assert (Hhok : hashes_ok cs) by (apply (cr_hashes _ _ _ Hrep1)). pose proof (zlen_nonneg cs).
  rewrite Hc, Himg, Z.add_0_l, u32_small in Hf1.
  2:{ pose proof (zlen_hdr_bytes 0 cs Hhok) as Hh. pose proof (zlen_nonneg (data_bytes cs)).
      unfold total_size, entry_size in *. sizes. lia. }
  destruct (load_container_spec config s1 (containerID cc) slot rc fileNum (file_image (zlen cs) cs) Hrc)
    as (slot1 & rc1 & n1 & E4 & Hb & _); [by intros n; rewrite Hex|by rewrite Hf1, lookup_insert_eq|rewrite zlen_file_image; lia|].
  rewrite zlen_file_image in Hb.
  destruct (index_loaded slot1 cs) as (ri & E5 & Hfind & Hdom); [by split_and!|done|].
  eexists _, _, c, s1, slot1, rc1, n1, ri. split_and!; try done. intros h d Hin.
  destruct (Hfind h d Hin) as (o & Ho & Hd & Ho1 & Ho2). pose proof (proj1 (Forall_forall _ _) Hcs _ Hin) as [_ Hdl]. cbn [snd] in Hdl.
  destruct (RecoverOneChunk_spec {| chunkHash := h; containerName := containerID cc; chunkOffset := o; chunkSize := zlen d;
    entryContainerID := 0 |} slot1 m0 [] d) as (m1 & E6 & Hsd); try done; try (simpl; lia).
  destruct (sending_size _ _ Hsd) as [Hds _]. destruct Hsd as [_ _ _ Hdat _ _].
  change (payload ([] ++ [d])) with (frame d ++ []) in *. rewrite app_nil_r in *. unfold frame in *.
  rewrite zlen_app, zlen_le_enc in *. eexists _, m1. split_and!; [exact Ho|exact E6|done|exact Hdat].
Qed.


Lemma index_container_overruns container n m :
  max_records ≤ n < 2 ^ 32 → bread container 0 4 = be32 n → index_container container m = Err UB.
Proof.
  intros Hn Hb. unfold index_container.
  assert (Hc : max_records ≤ u64 (be_int container 0)).
  { unfold max_records in *. unfold be_int. rewrite (be32_sum container 0 n) by (done || lia).
    unfold u64, s32. destruct (Z.ltb_spec n (2 ^ 31)).
    - rewrite (Z.mod_small (n + 2 ^ 31)), Z.mod_small; lia.
    - rewrite <- (Zmod_unique (n + 2 ^ 31) (2 ^ 32) 1 (n - 2 ^ 31)) by lia.
      rewrite <- (Zmod_unique (n - 2 ^ 31 - 2 ^ 31) (2 ^ 64) (-1) (n - 2 ^ 32 + 2 ^ 64)) by lia. lia. }
  revert Hc. generalize (u64 (be_int container 0)) as k. intros k Hk. rewrite Z.min_r by done.
  apply index_records_overrun; [done|unfold max_records; sizes; lia|left; unfold max_records; lia].
Qed.

(** A wrong chunk count is not detected: a container file whose header announces
    more records than the array can hold makes the scan run past the end of the
    array, whatever the rest of the file. *)
Theorem bad_count_overruns container n m :
  max_records ≤ n < 2 ^ 32 → bread container 0 4 = be32 n → index_container container m = Err UB.
Proof. apply index_container_overruns. Qed.

(** C35: a hash the index does not know is not reported to the client.  In a batch of a
    known and an unknown hash the second entry inherits the container name of the
    first, and looking the hash up in that container's header dereferences the end
    iterator. *)
Theorem unknown_hash_faults config `{AbsDatabaseLaws DB} `{ChannelLaws C} (s : fs) (gs : list group)
    (ix : AbsIndex DB) (r : rstate (C := C)) (q : request) h :
  disk_ok config s gs → requested gs ix [q] →
  stored (indexStore_ ix) h = None → h ∉ hashes gs → zlen h = CHUNK_HASH_SIZE →
  idle config s gs r → sending (_sendChunkBuf (r_st r)) [] →
  bread (sendBuffer (_sendChunkBuf (r_st r))) (dataOff 0) (zlen (q.2.1 ++ h)) = q.2.1 ++ h →
  ProcessRecipeBatch config ix 2 r s = Err UB.
Proof.
  intros Hgs Hq Hnone Hh Hhl [Hreq [Hrc Hcoh] Hcap Hbuf] Hsd Hb.
  apply Forall_cons in Hq as [(Hst & Hg & Hin) _]. destruct q as [[n es] [h1 d1]]. simpl in *.
  destruct (dk_file _ _ _ Hgs n es Hg) as (_ & _ & Hes & Hnl).
  assert (Hh1 : zlen h1 = CHUNK_HASH_SIZE) by (eapply (Forall_forall _ _) in Hes; [|exact Hin]; done).
  pose proof (bread_prefix _ _ _ _ Hb) as Hb1. apply bread_suffix in Hb. rewrite Hh1 in Hb1, Hb. rewrite Hhl in Hb.
  set (e1 := {| chunkHash := h1; containerName := n; chunkOffset := 0; chunkSize := 0; entryContainerID := 0 |}).
  set (e2 := {| chunkHash := h; containerName := n; chunkOffset := 0; chunkSize := 0; entryContainerID := 0 |}).
  assert (Htn : take (Z.to_nat CONTAINER_ID_LENGTH) (n ++ [0]) = n).
  { apply take_app_length'. unfold zlen in Hnl. lia. }
  assert (E : ∀ name, lookup_entries 2 0 ix (_sendChunkBuf (r_st r)) 256 name = Ok [e1; e2]).
  { intros name. simpl. sizes. change (u32 (0 * 32)) with 0. change (u32 (1 * 32)) with 32.
    rewrite (data_read_ok _ 0) by lia. simpl. rewrite Hb1. unfold ReadIndexStore. rewrite query_stored, Hst, Hnl.
    simpl. rewrite (data_read_ok _ 32) by lia. simpl.
    replace (dataOff 32) with (dataOff 0 + 32) by done. rewrite Hb, query_stored, Hnone, Hnl. simpl.
    by rewrite Htn. }
  unfold ProcessRecipeBatch. rewrite Hcap. change (Z.to_nat 2) with 2%nat. rewrite E. clear E. simpl.
  destruct (assign_container_spec config s gs Hgs e1 ∅ (_reqContainer (r_st r)) [] (n, es, (h1, d1)) Hreq)
    as (e1' & map & rq' & ns & Ea & Hreq' & [Hm1 Hm2] & _ & He1); try done.
  { split; [by intros ? ? ?%lookup_empty_Some|set_solver]. }
  unfold assign_container in *. simpl in *. rewrite lookup_empty in Ea |- *.
  pose proof (rq_num _ _ _ Hreq) as Hz. rewrite Hz in *. rewrite zlen_nil in *. simpl in Ea |- *.
  injection Ea as <- <- <-. simpl. change (u32 1 =? CONTAINER_CAPPING_VALUE) with false. simpl.
  rewrite lookup_insert_eq. simpl. change (zlen (@nil group)) with 0. unfold flush_entries. simpl.
  destruct (load_and_index config s gs Hgs _ (_containerCache (r_st r)) (r_fileNum r) ns [(n, es, (h1, d1))] _ Hreq' Hrc Hcoh
    (List.Forall2_cons _ _ He1 (List.Forall2_nil _)))
    as (rq2 & rc2 & num2 & ri & -> & _ & _ & _ & Hri & Hmiss & Hrec).
  simpl. rewrite Hri. simpl. apply Forall2_cons_inv_l in Hrec as (e' & l' & (o & b & Hr1 & Hb2 & Hbd & ? & ? & ?) & _ & [= <- <-]).
  simpl in *. rewrite Hr1, Hb2. simpl.
  destruct (RecoverOneChunk_spec {| chunkHash := h1; containerName := n; chunkOffset := o; chunkSize := zlen d1;
    entryContainerID := 0 |} b _ [] d1 Hsd) as (m1 & -> & Hsd1); try done.
  simpl. destruct (sending_size _ _ Hsd1) as [_ ->]. simpl.
  rewrite Hmiss; [done|]. intros Hc. apply Hh. revert Hc. unfold hashes. rewrite !list_elem_of_fmap.
  intros (x & -> & Hx). exists x. split; [done|]. unfold all_entries in *.
  apply list_elem_of_bind in Hx as (y & Hy & Hyn). apply list_elem_of_bind. exists y. split; [done|].
  by apply (rq_in _ _ _ Hreq').
Qed.

Definition sample_image : buf := bwrite (λ _, 0) 0 (file_image 2 [(replicate 32 1, [7; 8]); (replicate 32 2, [9])]).
Definition sample_entries : list entry := [(replicate 32 1, [7; 8]); (replicate 32 2, [9])].

Lemma sample_loaded : loaded sample_image sample_entries.
Proof. split_and!; [by vm_compute|by vm_compute|by repeat constructor]. Defined.

Definition sample_storing : UploadState :=
  {| _curContainer := {| containerID := replicate 8 65; chunkNum := 0; body := λ i, i; currentBodySize := 0;
                         header := λ i, 7; currentHeaderSize := 0 |};
     _inputMQ := {| pushed := []; ClientVar.done_ := false |}; _recvChunkBuf := {| sendBuffer := λ _, 0; bufCap := 0 |} |}.
Definition sample_chunk_buf : SendMsgBuffer_t :=
  {| sendBuffer := λ _, 9; bufCap := 16 + 256 * (sizeof_uint32_t + MAX_CHUNK_SIZE) |}.

Lemma container_roundtrip_witness :
  ∃ u1 u2 c s1 slot1 rc1 n1 ri,
    store_chunks (λ _, 5) sample_entries sample_storing sample_rng = Ok (u1, sample_rng) ∧ Ocall_WriteContainer (λ _, 5) u1 = Ok u2 ∧
    pushed (_inputMQ u2) = [c] ∧ SaveToFile sample_config c InMemory.empty_fs = Ok s1 ∧
    load_container sample_config (replicate 8 65) (λ _, 3) (new_ReadCache sample_config (λ _ _, 0)) 0 s1 = Ok (slot1, rc1, n1) ∧
    IndexConstruct ∅ [slot1] 1 = Ok ri ∧ (∀ h, is_Some (ri !! h) ↔ h ∈ sample_entries.*1) ∧
    ∀ h d, (h, d) ∈ sample_entries → ∃ r m1, ri !! h = Some r ∧
      RecoverOneChunk {| chunkHash := h; containerName := replicate 8 65; chunkOffset := offset r; chunkSize := length_ r;
                         entryContainerID := 0 |} slot1 (set_currentItemNum 0 (set_dataSize 0 sample_chunk_buf)) = Ok m1 ∧
      dataSize m1 = 4 + zlen d ∧ bread (sendBuffer m1) (dataOff 0) (4 + zlen d) = le_enc 4 (zlen d) ++ d.
Proof.
  destruct (new_ReadCache_wf sample_config (λ _ _, 0)) as [Hwf Hex]; [by vm_compute|].
  apply (container_roundtrip sample_config (λ _, 5) sample_storing sample_rng sample_entries InMemory.empty_fs (λ _, 3)
    (new_ReadCache sample_config (λ _ _, 0)) 0 sample_chunk_buf); try done.
  - by repeat constructor.
  - by apply (bool_decide_unpack _); vm_compute.
Defined.

Lemma bad_count_overruns_witness :
  index_container (bwrite (λ _, 0) 0 (be32 3000000000)) ∅ = Err UB.
Proof. apply (bad_count_overruns _ 3000000000); [done|by vm_compute]. Defined.

(** *** A concrete store, session and request *)

Definition sample_name : bytes := replicate 8 97.
Definition sample_groups : list group := [(sample_name, sample_entries)].
Definition sample_disk : fs :=
  set_file (container_path sample_config sample_name) (file_image 2 sample_entries) InMemory.empty_fs.
Definition sample_index : AbsIndex InMemory.InMemoryDatabase :=
  with_store {| InMemory.dbName_ := [];
                InMemory.indexObj_ := {[ replicate 32 1 := sample_name; replicate 32 2 := sample_name ]} |} sample_ix.
Definition sample_request : list request :=
  [((sample_name, sample_entries), (replicate 32 2, [9])); ((sample_name, sample_entries), (replicate 32 1, [7; 8]))].

Lemma sample_disk_ok : disk_ok sample_config sample_disk sample_groups.
Proof.
  split.
  - intros n es Hin. apply list_elem_of_singleton in Hin. injection Hin as -> ->.
    split_and!; [by apply lookup_insert_eq|done|by repeat constructor|done].
  - intros n es h d Hin Hd. apply list_elem_of_singleton in Hin. injection Hin as -> ->.
    repeat (apply elem_of_cons in Hd as [[= -> ->]|Hd]; [done|]). by apply elem_of_nil in Hd.
  - apply NoDup_singleton.
  - by apply (bool_decide_unpack _); vm_compute.
Defined.

Lemma sample_requested : requested sample_groups sample_index sample_request.
Proof. repeat constructor. Defined.

Definition sample_message (type num : Z) (data : bytes) : bytes :=
  le_enc 4 type ++ [0; 0; 0; 0] ++ le_enc 4 (zlen data) ++ le_enc 4 num ++ data.
Lemma sample_message_ok type num data : is_message (sample_message type num data) type num data.
Proof. by exists [0; 0; 0; 0]. Defined.

Definition sample_conn : ListChannel.t :=
  ([sample_message (edge_code EDGE_RECEIVE_READY) 0 [];
    sample_message (edge_code EDGE_DOWNLOAD_CHUNK_READY) 2 (replicate 32 2 ++ replicate 32 1)], []).

Lemma Run_restores_witness :
  ∃ r' ans, Run sample_config 3 sample_index
      (start_restore sample_config (λ _, zero_buf) (raw_client 0) sample_conn) sample_disk = Ok r' ∧
    Forall2 is_answer [sample_request] ans ∧ cleared (r_conn r') (concat ans).
Proof.
  apply (Run_restores sample_config sample_disk sample_groups sample_index (λ _, zero_buf) (raw_client 0) sample_conn
           (sample_message (edge_code EDGE_RECEIVE_READY) 0 [])
           [sample_message (edge_code EDGE_DOWNLOAD_CHUNK_READY) 2 (replicate 32 2 ++ replicate 32 1)]).
  - exact sample_disk_ok.
  - done.
  - apply sample_message_ok.
  - constructor; [|constructor]. by exists [0; 0; 0; 0].
  - constructor; [|constructor]. split; [exact sample_requested|done].
  - done.
  - simpl. lia.
Defined.

Definition sample_restore : rstate (C := ListChannel.t) :=
  let r := start_restore sample_config (λ _, zero_buf) (raw_client 0) ([], []) in
  with_buf (set_sendBuffer (bwrite zero_buf 16 (replicate 32 1 ++ replicate 32 5)) (_sendChunkBuf (r_st r))) ([], []) r.

Lemma unknown_hash_faults_witness :
  ProcessRecipeBatch sample_config sample_index 2 sample_restore sample_disk = Err UB.
Proof.
  apply (unknown_hash_faults sample_config sample_disk sample_groups sample_index sample_restore
           ((sample_name, sample_entries), (replicate 32 1, [7; 8])) (replicate 32 5)).
  - exact sample_disk_ok.
  - by repeat constructor.
  - done.
  - by apply (bool_decide_unpack _); vm_compute.
  - done.
  - destruct (start_restore_idle sample_config (λ _, zero_buf) (raw_client 0) (([], []) : ListChannel.t) sample_disk sample_groups)
      as [? [? ?] ? ?]; [done|]. by split.
  - by split.
  - by vm_compute.
Defined.
