(* ===== verification/DataReceiver.v ===== *)
(** * The upload session (src/Server/dataReceiver.cc)

    The receive loop dispatches on the message type: chunk batches go to the index,
    recipe batches are stored and answered, and the recipe files of the session
    change with each new file.  When the peer closes, the last container is pushed
    and the queue is marked done. *)
From Stdlib Require Import ZArith Lia.
From stdpp Require Import base tactics numbers list gmap fin_maps.
From S2P Require Import Prelude Common FileSystem ClientVar Storage Database Crypto Index SslConn.
#[local] Open Scope Z_scope.

Section DataReceiver.
Context (config : Configure) `{AbsDatabase DB} `{ChunkHash} `{Channel C} (stk : buf).

(** What the thread works on: the shared index, its client, the files, the random
    number generator, the connection, and the receiver's counters. *)
Record session := {
  s_ix : AbsIndex DB; s_client : ClientVar; s_fs : fs; s_rng : rng; s_conn : C;
  batchNum_ : Z; recipeBatchNum_ : Z; recipeEndNum_ : Z }.

Definition with_client (c : ClientVar) (x : session) : session :=
  {| s_ix := s_ix x; s_client := c; s_fs := s_fs x; s_rng := s_rng x; s_conn := s_conn x;
     batchNum_ := batchNum_ x; recipeBatchNum_ := recipeBatchNum_ x; recipeEndNum_ := recipeEndNum_ x |}.
Definition with_files (c : ClientVar) (s : fs) (x : session) : session :=
  {| s_ix := s_ix x; s_client := c; s_fs := s; s_rng := s_rng x; s_conn := s_conn x;
     batchNum_ := batchNum_ x; recipeBatchNum_ := recipeBatchNum_ x; recipeEndNum_ := recipeEndNum_ x |}.

(** Replace one write handler. *)
Definition set_recipe (h : ofstream) (c : ClientVar) : ClientVar :=
  with_writers {| _recipeWriteHandler := h;
    _secureRecipeWriteHandler := _secureRecipeWriteHandler (write_handlers c);
    _keyRecipeWriteHandler := _keyRecipeWriteHandler (write_handlers c) |} c.
Definition set_secure (h : ofstream) (c : ClientVar) : ClientVar :=
  with_writers {| _recipeWriteHandler := _recipeWriteHandler (write_handlers c);
    _secureRecipeWriteHandler := h;
    _keyRecipeWriteHandler := _keyRecipeWriteHandler (write_handlers c) |} c.
Definition set_key (h : ofstream) (c : ClientVar) : ClientVar :=
  with_writers {| _recipeWriteHandler := _recipeWriteHandler (write_handlers c);
    _secureRecipeWriteHandler := _secureRecipeWriteHandler (write_handlers c);
    _keyRecipeWriteHandler := h |} c.

(** The [switch] on the message type; the message is in the receive buffer. *)
Definition handle (x : session) : result session :=
  let c := s_client x in
  let m := _recvChunkBuf (upload c) in
  match edge_decode (messageType m) with
  | Some EDGE_MIGRATION_CHUNK =>
      '(ix, u, g) ← ProcessOneBatch stk (s_ix x) (upload c) (s_rng x);
      Ok {| s_ix := ix; s_client := with_upload u c; s_fs := s_fs x; s_rng := g; s_conn := s_conn x;
            batchNum_ := u64 (batchNum_ x + 1); recipeBatchNum_ := recipeBatchNum_ x;
            recipeEndNum_ := recipeEndNum_ x |}
  | Some EDGE_MIGRATION_CHUNK_FINAL => Ok x
  | Some EDGE_UPLOAD_SEC_RECIPE =>
      '(u, h, s) ← ProcessRecipeBatch (s_ix x) (upload c) (_secureRecipeWriteHandler (write_handlers c)) (s_fs x);
      let c := with_upload u (set_secure h c) in
      let m := _recvChunkBuf u in
      check (sizeof_NetworkHead_t + dataSize m <=? bufCap m) UB ;;
      '(_, conn) ← SendData (s_conn x) (bread (sendBuffer m) 0 (sizeof_NetworkHead_t + dataSize m));
      Ok {| s_ix := s_ix x; s_client := c; s_fs := s; s_rng := s_rng x; s_conn := conn;
            batchNum_ := batchNum_ x; recipeBatchNum_ := u64 (recipeBatchNum_ x + 1);
            recipeEndNum_ := recipeEndNum_ x |}
  | Some EDGE_UPLOAD_SEC_RECIPE_END => Ok x
  | Some EDGE_MIGRATION_NEWFILE =>
      fileName ← data_read m 0 (CHUNK_HASH_SIZE * 2);
      _ ← data_read m (CHUNK_HASH_SIZE * 2) sizeof_FileRecipeHead_t;
      let head := dec_RecipeHead (sendBuffer m) (dataOff (CHUNK_HASH_SIZE * 2)) in
      '(c, s) ← ChangeFile config fileName (fileSize head) (totalChunkNum head) c (s_fs x);
      Ok (with_files c s x)
  | Some EDGE_UPLOAD_RECIPE =>
      bs ← data_read m 0 (u32 (currentItemNum m * CHUNK_HASH_SIZE));
      let '(h, s) := of_write bs (_recipeWriteHandler (write_handlers c)) (s_fs x) in
      Ok (with_files (set_recipe h c) s x)
  | Some EDGE_UPLOAD_KEY_RECIPE =>
      bs ← data_read m 0 (u32 (currentItemNum m * CHUNK_HASH_SIZE));
      let '(h, s) := of_write bs (_keyRecipeWriteHandler (write_handlers c)) (s_fs x) in
      Ok (with_files (set_key h c) s x)
  | Some EDGE_UPLOAD_RECIPE_END =>
      _ ← data_read m 0 sizeof_FileRecipeHead_t;
      let head := dec_RecipeHead (sendBuffer m) (dataOff 0) in
      let c := with_uploadDataSize (fileSize head) c in
      Ok {| s_ix := s_ix x; s_client := c; s_fs := s_fs x; s_rng := s_rng x; s_conn := s_conn x;
            batchNum_ := batchNum_ x; recipeBatchNum_ := recipeBatchNum_ x;
            recipeEndNum_ := u64 (recipeEndNum_ x + 1) |}
  | _ => Err EXIT_FAILURE
  end.

(** Receive into the session's buffer. *)
Definition receive (x : session) : result (bool * session) :=
  let c := s_client x in
  '(ok, _, m, conn) ← ReceiveData (s_conn x) (_recvChunkBuf (upload c));
  Ok (ok, {| s_ix := s_ix x; s_client := with_upload (with_recvChunkBuf m (upload c)) c; s_fs := s_fs x;
             s_rng := s_rng x; s_conn := conn; batchNum_ := batchNum_ x;
             recipeBatchNum_ := recipeBatchNum_ x; recipeEndNum_ := recipeEndNum_ x |}).

(** The peer has closed: clear the connection. *)
Definition clear_conn (x : session) : session :=
  {| s_ix := s_ix x; s_client := s_client x; s_fs := s_fs x; s_rng := s_rng x;
     s_conn := ClearAcceptedClientSd (s_conn x); batchNum_ := batchNum_ x; recipeBatchNum_ := recipeBatchNum_ x;
     recipeEndNum_ := recipeEndNum_ x |}.

(** The receive loop; [fuel] bounds the number of messages. *)
Fixpoint receive_loop (fuel : nat) (x : session) : result session :=
  match fuel with
  | O => Err UB
  | S fuel =>
      '(ok, x) ← receive x;
      if negb ok then Ok (clear_conn x) else x ← handle x; receive_loop fuel x
  end.

Definition set_done (u : UploadState) : UploadState :=
  {| _curContainer := _curContainer u; _inputMQ := {| pushed := pushed (_inputMQ u); done_ := true |};
     _recvChunkBuf := _recvChunkBuf u |}.

(** After the loop: push the last container unless it is empty, and set the flag. *)
Definition last_container (u : UploadState) : result UploadState :=
  u ← (if negb (currentHeaderSize (_curContainer u) =? 0) then Ocall_WriteContainer stk u else Ok u);
  Ok (set_done u).
Definition finish_upload (x : session) : result session :=
  let c := s_client x in
  u ← last_container (upload c);
  Ok (with_client (with_upload u c) x).

Definition count_logical (size num : Z) (ix : AbsIndex DB) : AbsIndex DB :=
  {| indexStore_ := indexStore_ ix; storageCoreObj_ := storageCoreObj_ ix;
     Index.sendChunkBatchSize_ := Index.sendChunkBatchSize_ ix;
     Index.sendRecipeBatchSize_ := Index.sendRecipeBatchSize_ ix;
     totalRecvDataSize_ := totalRecvDataSize_ ix; totalBatchNum_ := totalBatchNum_ ix;
     _logicalChunkNum := u64 (_logicalChunkNum ix + num); _logicalDataSize := u64 (_logicalDataSize ix + size);
     _uniqueChunkNum := _uniqueChunkNum ix; _uniqueDataSize := _uniqueDataSize ix;
     _compressedDataSize := _compressedDataSize ix |}.

Definition enclave_info (ix : AbsIndex DB) : EnclaveInfo_t :=
  {| info_uniqueChunkNum := _uniqueChunkNum ix; info_uniqueDataSize := _uniqueDataSize ix;
     info_logicalChunkNum := _logicalChunkNum ix; info_logicalDataSize := _logicalDataSize ix;
     info_compressedSize := _compressedDataSize ix |}.

Definition Run (fuel : nat) (x : session) : result (session * EnclaveInfo_t) :=
  let c := s_client x in
  let x := {| s_ix := count_logical (_fileSize c) (_totalChunkNum c) (s_ix x); s_client := c;
              s_fs := s_fs x; s_rng := s_rng x; s_conn := s_conn x; batchNum_ := batchNum_ x;
              recipeBatchNum_ := recipeBatchNum_ x; recipeEndNum_ := recipeEndNum_ x |} in
  x ← receive_loop fuel x;
  x ← finish_upload x;
  Ok (x, enclave_info (s_ix x)).
End DataReceiver.

(** ** Specification *)

(** The messages of an upload. *)
Inductive umsg :=
| UChunks (ds : list bytes)
| UChunksFinal
| USecRecipe (hs : list bytes)
| USecRecipeEnd
| UNewFile (name : bytes) (size num : Z)
| URecipe (hs : list bytes)
| UKeyRecipe (ks : list bytes)
| URecipeEnd (size num : Z).

Definition recv_cap : Z := 256 * (sizeof_uint32_t + MAX_CHUNK_SIZE).
Definition records (hs : list bytes) : Prop :=
  Forall (λ h, zlen h = CHUNK_HASH_SIZE) hs ∧ zlen (concat hs) ≤ recv_cap.

(** The message types of an upload. *)
Definition upload_types : list EDGE_PROTCOL_CODE_SET :=
  [EDGE_MIGRATION_CHUNK; EDGE_MIGRATION_CHUNK_FINAL; EDGE_UPLOAD_SEC_RECIPE; EDGE_UPLOAD_SEC_RECIPE_END;
   EDGE_MIGRATION_NEWFILE; EDGE_UPLOAD_RECIPE; EDGE_UPLOAD_KEY_RECIPE; EDGE_UPLOAD_RECIPE_END].

(** How a message looks on the wire. *)
Definition is_upload (f : bytes) (m : umsg) : Prop :=
  zlen f ≤ sizeof_NetworkHead_t + recv_cap ∧
  match m with
  | UChunks ds => is_message f (edge_code EDGE_MIGRATION_CHUNK) (zlen ds) (payload ds) ∧
      Forall (λ d, zlen d ≤ MAX_CHUNK_SIZE) ds
  | UChunksFinal => is_message f (edge_code EDGE_MIGRATION_CHUNK_FINAL) 0 []
  | USecRecipe hs => is_message f (edge_code EDGE_UPLOAD_SEC_RECIPE) (zlen hs) (concat hs) ∧ records hs
  | USecRecipeEnd => is_message f (edge_code EDGE_UPLOAD_SEC_RECIPE_END) 0 []
  | UNewFile name size num =>
      is_message f (edge_code EDGE_MIGRATION_NEWFILE) 0
        (name ++ enc_RecipeHead {| fileSize := size; totalChunkNum := num |}) ∧
      zlen name = CHUNK_HASH_SIZE * 2 ∧ 0 ≤ size < 2 ^ 64 ∧ 0 ≤ num < 2 ^ 64
  | URecipe hs => is_message f (edge_code EDGE_UPLOAD_RECIPE) (zlen hs) (concat hs) ∧ records hs
  | UKeyRecipe hs => is_message f (edge_code EDGE_UPLOAD_KEY_RECIPE) (zlen hs) (concat hs) ∧ records hs
  | URecipeEnd size num => is_message f (edge_code EDGE_UPLOAD_RECIPE_END) 0
      (enc_RecipeHead {| fileSize := size; totalChunkNum := num |}) ∧ 0 ≤ size < 2 ^ 64
  end.

(** The abstract session: the store, the files, the recipe paths, and the status
    lists that were sent. *)
Record ustate := {
  u_a : astate; u_files : gmap bytes bytes;
  u_rp : bytes; u_sp : bytes; u_kp : bytes; u_answers : list bytes }.

Section Spec.
Context (config : Configure) (hash : bytes → bytes) (others : list group).

Definition needed (a : astate) (hs : list bytes) : bytes :=
  (λ h, if bool_decide (h ∈ hashes (others ++ a_groups a)) then 0 else 1) <$> hs.

Definition u_step (m : umsg) (u : ustate) : ustate :=
  match m with
  | UChunks ds =>
      {| u_a := foldl (a_store hash others) (u_a u) ds; u_files := u_files u; u_rp := u_rp u; u_sp := u_sp u;
         u_kp := u_kp u; u_answers := u_answers u |}
  | USecRecipe hs =>
      {| u_a := u_a u; u_files := append_file (u_sp u) (concat hs) (u_files u); u_rp := u_rp u; u_sp := u_sp u;
         u_kp := u_kp u; u_answers := u_answers u ++ [needed (u_a u) hs] |}
  | UNewFile name size num =>
      let '(rp, sp, kp) := recipe_paths config name in
      let head := enc_RecipeHead {| fileSize := size; totalChunkNum := num |} in
      {| u_a := u_a u; u_files := <[sp := head]> (<[kp := head]> (<[rp := head]> (u_files u)));
         u_rp := rp; u_sp := sp; u_kp := kp; u_answers := u_answers u |}
  | URecipe hs =>
      {| u_a := u_a u; u_files := append_file (u_rp u) (concat hs) (u_files u); u_rp := u_rp u; u_sp := u_sp u;
         u_kp := u_kp u; u_answers := u_answers u |}
  | UKeyRecipe hs =>
      {| u_a := u_a u; u_files := append_file (u_kp u) (concat hs) (u_files u); u_rp := u_rp u; u_sp := u_sp u;
         u_kp := u_kp u; u_answers := u_answers u |}
  | UChunksFinal | USecRecipeEnd | URecipeEnd _ _ => u
  end.
End Spec.

Lemma zlen_concat_records (hs : list bytes) : Forall (λ h, zlen h = CHUNK_HASH_SIZE) hs → zlen (concat hs) = zlen hs * 32.
Proof. induction 1 as [|h hs Hh _ IH]; [done|]. simpl. sizes. zlia. Qed.

(** ** Refinement *)

Section Refine.
Context (config : Configure) `{AbsDatabaseLaws DB} `{ChunkHashOk hash} `{ChannelLaws C} (stk : buf)
  (c0 s0 : Z) (others : list group).
Implicit Types (x : session (DB := DB) (C := C)).

(** The session [x] is at the abstract state [u], with the messages [ins] to come. *)
Record at_state (u : ustate) (ins : list bytes) x : Prop := {
  as_repr : repr c0 s0 others (u_a u) (s_ix x) (upload (s_client x)) (s_rng x);
  as_cap : dataCap (_recvChunkBuf (upload (s_client x))) = recv_cap;
  as_batch : Index.sendChunkBatchSize_ (s_ix x) = 256;
  as_opt : optType_ (s_client x) = UPLOAD_OPT;
  as_done : done_ (_inputMQ (upload (s_client x))) = false;
  as_files : files (s_fs x) = u_files u;
  as_create : ∀ p, creatable (s_fs x) p = true;
  as_r : writing (_recipeWriteHandler (write_handlers (s_client x))) (s_fs x) (u_rp u);
  as_s : writing (_secureRecipeWriteHandler (write_handlers (s_client x))) (s_fs x) (u_sp u);
  as_k : writing (_keyRecipeWriteHandler (write_handlers (s_client x))) (s_fs x) (u_kp u);
  as_ne : u_rp u ≠ u_sp u ∧ u_rp u ≠ u_kp u ∧ u_sp u ≠ u_kp u;
  as_out : ∃ outs, chan (s_conn x) ins outs ∧
    Forall2 (λ st f, is_message f (protocol_code CLOUD_QUERY_RETURN) (zlen st) st) (u_answers u) outs }.

Lemma receive_spec u f ins x : at_state u (f :: ins) x → zlen f ≤ sizeof_NetworkHead_t + recv_cap →
  ∃ x', receive x = Ok (true, x') ∧ at_state u ins x' ∧
    received (_recvChunkBuf (upload (s_client x))) f (_recvChunkBuf (upload (s_client x'))).
Proof.
  intros [Hrepr Hcap Hbatch Hopt Hdone Hf Hcr Hr Hs Hk Hne (outs & Hc & Hans)] Hlen. unfold receive.
  assert (zlen f ≤ bufCap (_recvChunkBuf (upload (s_client x)))) as Hfit by (unfold dataCap in Hcap; lia).
  destruct (recv_message _ f ins outs _ Hc Hfit) as (m & conn & -> & Hm & Hc'). simpl.
  eexists. split; [done|]. split; [|done].
  split; simpl; try done; [by destruct Hrepr| |by eauto].
  destruct Hm as [Hb _]. unfold dataCap in *. by rewrite Hb.
Qed.

(** The session that [Run] starts from, after the logical counts, is at the same state. *)
Lemma at_state_start u ins x size num : at_state u ins x →
  at_state u ins {| s_ix := count_logical size num (s_ix x); s_client := s_client x; s_fs := s_fs x;
                    s_rng := s_rng x; s_conn := s_conn x; batchNum_ := batchNum_ x;
                    recipeBatchNum_ := recipeBatchNum_ x; recipeEndNum_ := recipeEndNum_ x |}.
Proof. intros [[] ? ? ? ? ? ? ? ? ? ? ?]. by split. Qed.

(** The message in the receive buffer. *)
Definition in_buffer x (type : EDGE_PROTCOL_CODE_SET) (num : Z) (data : bytes) : Prop :=
  ∃ m0 f, received m0 f (_recvChunkBuf (upload (s_client x))) ∧ is_message f (edge_code type) num data.

Lemma in_buffer_fields x type num data :
  in_buffer x type num data → 0 ≤ num < 2 ^ 32 → zlen data < 2 ^ 32 →
  let m := _recvChunkBuf (upload (s_client x)) in
  edge_decode (messageType m) = Some type ∧ currentItemNum m = num ∧ dataSize m = zlen data ∧
  bread (sendBuffer m) (dataOff 0) (zlen data) = data.
Proof.
  intros (m0 & f & Hr & Hf) Hn Hd m. subst m. pose proof (edge_code_range type).
  destruct (received_message _ _ _ _ _ _ Hr Hf) as (-> & ? & ? & ?); [lia..|].
  rewrite edge_decode_code. by split_and!.
Qed.

Lemma handle_chunks u ins x ds :
  at_state u ins x → in_buffer x EDGE_MIGRATION_CHUNK (zlen ds) (payload ds) →
  Forall (λ d, zlen d ≤ MAX_CHUNK_SIZE) ds → zlen (payload ds) ≤ recv_cap →
  ∃ x', handle config stk x = Ok x' ∧ at_state (u_step config hash others (UChunks ds) u) ins x'.
Proof.
  intros [Hrepr Hcap Hbatch Hopt Hdone Hf Hcr Hr Hs Hk Hne Hout] Hin Hds Hfit.
  assert (Hlen : zlen ds ≤ zlen (payload ds)).
  { clear. induction ds as [|d ds IH]; [done|]. change (payload (d :: ds)) with (frame d ++ payload ds). zlia. }
  unfold recv_cap in *. sizes. pose proof (zlen_nonneg ds).
  destruct (in_buffer_fields _ _ _ _ Hin) as (Ht & Hn & _ & Hd); [lia..|].
  destruct (ProcessOneBatch_repr stk c0 s0 others (u_a u) (s_ix x) (upload (s_client x)) (s_rng x) ds Hrepr)
    as (ix' & up' & g' & E & Hrepr' & Hcap' & Hb' & Hq').
  { split; [rewrite Hcap, Hbatch; done|rewrite Hbatch; lia]. }
  { by split; [..|rewrite Hcap|]. }
  unfold handle. rewrite Ht, E. simpl. eexists. split; [done|].
  split; simpl; first [done | congruence | by rewrite Hcap', Hcap].
Qed.

(** The three appends to recipe files. *)
Lemma handle_recipe u ins x hs :
  at_state u ins x → in_buffer x EDGE_UPLOAD_RECIPE (zlen hs) (concat hs) → records hs →
  ∃ x', handle config stk x = Ok x' ∧ at_state (u_step config hash others (URecipe hs) u) ins x'.
Proof.
  intros [Hrepr Hcap Hbatch Hopt Hdone Hf Hcr Hr Hs Hk (N1 & N2 & N3) Hout] Hin [Hhs Hfit].
  pose proof (zlen_concat_records hs Hhs) as Hz. pose proof (zlen_nonneg hs). unfold recv_cap in *. sizes.
  destruct (in_buffer_fields _ _ _ _ Hin) as (Ht & Hn & _ & Hd); [lia..|].
  unfold handle. rewrite Ht, Hn. sizes. rewrite u32_small, data_read_ok by lia. simpl. rewrite <- Hz, Hd.
  destruct (writing_write (concat hs) _ _ _ Hr) as (h' & s' & -> & Hw & Hf' & Hc' & Ho). simpl.
  eexists. split; [done|]. split; simpl; auto; [congruence|by rewrite Hc'].
Qed.

Lemma handle_key_recipe u ins x hs :
  at_state u ins x → in_buffer x EDGE_UPLOAD_KEY_RECIPE (zlen hs) (concat hs) → records hs →
  ∃ x', handle config stk x = Ok x' ∧ at_state (u_step config hash others (UKeyRecipe hs) u) ins x'.
Proof.
  intros [Hrepr Hcap Hbatch Hopt Hdone Hf Hcr Hr Hs Hk (N1 & N2 & N3) Hout] Hin [Hhs Hfit].
  pose proof (zlen_concat_records hs Hhs) as Hz. pose proof (zlen_nonneg hs). unfold recv_cap in *. sizes.
  destruct (in_buffer_fields _ _ _ _ Hin) as (Ht & Hn & _ & Hd); [lia..|].
  unfold handle. rewrite Ht, Hn. sizes. rewrite u32_small, data_read_ok by lia. simpl. rewrite <- Hz, Hd.
  destruct (writing_write (concat hs) _ _ _ Hk) as (h' & s' & -> & Hw & Hf' & Hc' & Ho). simpl.
  eexists. split; [done|]. split; simpl; auto; [congruence|by rewrite Hc'].
Qed.

Lemma needed_status u x hs : index_ok (indexStore_ (s_ix x)) (others ++ a_groups (u_a u)) →
  status_of (s_ix x) <$> hs = needed others (u_a u) hs.
Proof.
  intros Hix. unfold needed. apply list_fmap_ext. intros i h _. unfold status_of.
  pose proof (index_ok_known _ _ h Hix) as Hk. destruct (stored _ h) as [n|] eqn:E.
  - rewrite bool_decide_eq_true_2; [done|]. apply Hk. eauto.
  - rewrite bool_decide_eq_false_2; [done|]. rewrite Hk. by intros [].
Qed.

Lemma handle_sec_recipe u ins x hs :
  at_state u ins x → in_buffer x EDGE_UPLOAD_SEC_RECIPE (zlen hs) (concat hs) → records hs →
  ∃ x', handle config stk x = Ok x' ∧ at_state (u_step config hash others (USecRecipe hs) u) ins x'.
Proof.
  intros [Hrepr Hcap Hbatch Hopt Hdone Hf Hcr Hr Hs Hk (N1 & N2 & N3) (outs & Hc & Hans)] Hin [Hhs Hfit].
  pose proof (zlen_concat_records hs Hhs) as Hz. pose proof (zlen_nonneg hs). unfold recv_cap in *. sizes.
  destruct (in_buffer_fields _ _ _ _ Hin) as (Ht & Hn & Hsz & Hd); [lia..|].
  destruct Hin as (m0 & f & Hrec & Hmsg). destruct (received_raw _ _ _ _ _ _ Hrec Hmsg) as (_ & _ & Hb12 & _).
  unfold handle. rewrite Ht.
  destruct (query_batch_spec (s_ix x) (upload (s_client x))
    (_secureRecipeWriteHandler (write_handlers (s_client x))) (s_fs x) hs)
    as (m & -> & Hbc & B0 & B8 & B12 & Bd); [done..|rewrite Hcap; lia|done|].
  destruct (writing_write (concat hs) _ _ _ Hs) as (h' & s' & -> & Hw & Hf' & Hc' & Ho). simpl.
  assert (Hds : dataSize m = zlen hs) by (unfold dataSize; rewrite B8; apply le_dec_enc4; lia).
  unfold dataCap in Hcap. rewrite Hds, (proj2 (Z.leb_le _ _)) by (sizes; lia). simpl. sizes.
  destruct (send_message (s_conn x) ins outs (bread (sendBuffer m) 0 (16 + zlen hs)) Hc) as (conn & -> & Hconn).
  { rewrite zlen_bread; lia. }
  simpl. eexists. split; [done|]. split; simpl; auto.
  - by destruct Hrepr.
  - unfold dataCap. simpl. by rewrite Hbc.
  - congruence.
  - by rewrite Hc'.
  - exists (outs ++ [bread (sendBuffer m) 0 (16 + zlen hs)]). split; [done|]. apply Forall2_app; [done|].
    constructor; [|constructor]. rewrite <- (needed_status u x hs) by apply Hrepr.
    rewrite zlen_fmap. apply message_frame; [by rewrite zlen_fmap|done|congruence|by rewrite zlen_fmap|done].
Qed.

Lemma handle_new_file u ins x name size num :
  at_state u ins x →
  in_buffer x EDGE_MIGRATION_NEWFILE 0 (name ++ enc_RecipeHead {| fileSize := size; totalChunkNum := num |}) →
  zlen name = CHUNK_HASH_SIZE * 2 → 0 ≤ size < 2 ^ 64 → 0 ≤ num < 2 ^ 64 →
  ∃ x', handle config stk x = Ok x' ∧ at_state (u_step config hash others (UNewFile name size num) u) ins x'.
Proof.
  intros [Hrepr Hcap Hbatch Hopt Hdone Hf Hcr Hr Hs Hk (N1 & N2 & N3) Hout] Hin Hname Hsz Hnum.
  unfold recv_cap in *. sizes. unfold enc_RecipeHead in Hin. cbn [fileSize totalChunkNum] in Hin.
  destruct (in_buffer_fields _ _ _ _ Hin) as (Ht & _ & _ & Hd); [lia|zlia|].
  pose proof (bread_prefix _ _ _ _ Hd) as Hd1. apply bread_suffix in Hd. rewrite Hname in Hd1, Hd.
  unfold handle. rewrite Ht. sizes. change (32 * 2) with 64 in *.
  rewrite (data_read_ok _ 0 64), (data_read_ok _ 64 16) by lia. simpl. rewrite Hd1.
  change (dataOff 0 + 64) with (dataOff 64) in Hd.
  pose proof (bread_prefix _ _ _ _ Hd) as Ha. apply bread_suffix in Hd. rewrite !zlen_le_enc in *.
  change (Z.of_nat 8) with 8 in *. rewrite Ha, Hd, !le_dec_enc8 by done.
  unfold ChangeFile. simpl. rewrite Hopt. simpl.
  pose proof (recipe_paths_distinct config name name) as Hp. unfold recipe_paths in Hp. destruct Hp as (P1 & P2 & P3); [done|].
  match goal with |- context [open_writers ?c0 _] => set (c := c0) end.
  destruct (open_writers_spec c (s_fs x) Hcr P1 P2 P3) as (w & s' & -> & Hc' & Hf' & Wr & Ws & Wk).
  simpl. eexists. split; [done|]. split; simpl; auto; [by rewrite Hf', Hf|by rewrite Hc'].
Qed.

(** Every message of an upload is handled as the abstract session says. *)
Lemma handle_spec u ins x m0 f m :
  at_state u ins x → received m0 f (_recvChunkBuf (upload (s_client x))) → is_upload f m →
  ∃ x', handle config stk x = Ok x' ∧ at_state (u_step config hash others m u) ins x'.
Proof.
  intros Hx Hrec [Hlen Hf].
  assert (Hin : ∀ t n d, is_message f (edge_code t) n d → in_buffer x t n d) by (intros; by exists m0, f).
  destruct m as [ds| |hs| |name size num|hs|hs|size num].
  - destruct Hf as [Hf Hds]. apply (handle_chunks u ins x ds Hx); [auto|done|].
    destruct Hf as (cid & Hcid & ->). unfold recv_cap in *. sizes. zlia.
  - destruct (in_buffer_fields _ _ _ _ (Hin _ _ _ Hf)) as (Ht & _); [lia|done|].
    unfold handle. rewrite Ht. eauto.
  - destruct Hf as [Hf Hhs]. apply (handle_sec_recipe u ins x hs Hx); auto.
  - destruct (in_buffer_fields _ _ _ _ (Hin _ _ _ Hf)) as (Ht & _); [lia|done|].
    unfold handle. rewrite Ht. eauto.
  - destruct Hf as (Hf & Hn & Hs & Hm). apply (handle_new_file u ins x name size num Hx); auto.
  - destruct Hf as [Hf Hhs]. apply (handle_recipe u ins x hs Hx); auto.
  - destruct Hf as [Hf Hhs]. apply (handle_key_recipe u ins x hs Hx); auto.
  - destruct Hf as [Hf Hs].
    destruct (in_buffer_fields _ _ _ _ (Hin _ _ _ Hf)) as (Ht & _); [lia|done|].
    unfold handle. rewrite Ht. destruct Hx as [Hrepr Hcap Hbatch Hopt Hdone Hfs Hcr Hr Hs' Hk Hne Hout].
    unfold recv_cap in *. sizes. rewrite data_read_ok by lia. simpl. eexists. split; [done|]. by split.
Qed.

(** The loop consumes a prefix of legal messages, whatever follows them. *)
Lemma receive_loop_prefix fs ms rest : Forall2 is_upload fs ms → ∀ fuel u x,
  at_state u (fs ++ rest) x →
  ∃ x', receive_loop config stk (length fs + fuel) x = receive_loop config stk fuel x' ∧
    at_state (foldl (λ u m, u_step config hash others m u) u ms) rest x'.
Proof.
  induction 1 as [|f m fs ms Hf Hfs IH]; intros fuel u x Hx; [by exists x|].
  cbn [length Nat.add receive_loop].
  destruct (receive_spec u f (fs ++ rest) x Hx) as (x1 & -> & Hx1 & Hrec); [apply Hf|]. simpl.
  destruct (handle_spec u (fs ++ rest) x1 _ f m Hx1 Hrec Hf) as (x2 & -> & Hx2). simpl. by apply IH.
Qed.

(** The peer closes the channel: the loop ends. *)
Lemma receive_loop_closed fuel u x : at_state u [] x →
  ∃ x', receive_loop config stk (S fuel) x = Ok (clear_conn x') ∧ at_state u [] x'.
Proof.
  intros Hx. pose proof Hx as [Hrepr Hcap Hbatch Hopt Hdone Hfs Hcr Hr Hs Hk Hne (outs & Hc & Hans)].
  destruct (recv_closed _ outs (_recvChunkBuf (upload (s_client x))) Hc) as (c' & E & Hc').
  cbn [receive_loop]. unfold receive. rewrite E. cbn [mbind result_bind negb].
  eexists. split; [reflexivity|]. split; simpl; try done; [by destruct Hrepr|eauto].
Qed.

Lemma receive_loop_spec fs ms fuel u x : Forall2 is_upload fs ms →
  at_state u fs x → (length fs < fuel)%nat →
  ∃ x', receive_loop config stk fuel x = Ok (clear_conn x') ∧
    at_state (foldl (λ u m, u_step config hash others m u) u ms) [] x'.
Proof.
  intros Hms Hx Hfuel. replace fuel with (length fs + S (fuel - length fs - 1))%nat by lia.
  destruct (receive_loop_prefix fs ms [] Hms (S (fuel - length fs - 1)) u x) as (x1 & -> & Hx1); [by rewrite app_nil_r|].
  by eapply receive_loop_closed.
Qed.

(** A message of any other type ends the process. *)
Lemma handle_other m0 f t num data x :
  received m0 f (_recvChunkBuf (upload (s_client x))) → is_message f t num data →
  - 2 ^ 31 ≤ t < 2 ^ 31 → t ∉ edge_code <$> upload_types → handle config stk x = Err EXIT_FAILURE.
Proof.
  intros Hrec Hf Ht Hno. unfold handle. rewrite (received_type _ _ _ _ _ _ Hrec Hf Ht).
  destruct (edge_decode t) as [c|] eqn:E; [|done]. apply edge_decode_Some in E as <-.
  destruct c; try done; destruct Hno; by vm_compute; repeat constructor.
Qed.

Lemma receive_loop_other fs ms f rest t num data fuel u x :
  Forall2 is_upload fs ms → at_state u (fs ++ f :: rest) x → (length fs < fuel)%nat →
  is_message f t num data → zlen f ≤ sizeof_NetworkHead_t + recv_cap →
  - 2 ^ 31 ≤ t < 2 ^ 31 → t ∉ edge_code <$> upload_types →
  receive_loop config stk fuel x = Err EXIT_FAILURE.
Proof.
  intros Hms Hx Hfuel Hf Hlen Ht Hno. replace fuel with (length fs + S (fuel - length fs - 1))%nat by lia.
  destruct (receive_loop_prefix fs ms (f :: rest) Hms (S (fuel - length fs - 1)) u x Hx) as (x1 & -> & Hx1).
  cbn [receive_loop]. destruct (receive_spec _ f rest x1 Hx1 Hlen) as (x2 & -> & _ & Hrec). simpl.
  by rewrite (handle_other _ _ _ _ _ x2 Hrec Hf Ht Hno).
Qed.

(** The containers of a session once the last one is pushed. *)
Definition a_final (a : astate) : list (bytes * Z * list entry) :=
  a_sealed a ++ (if bool_decide (a_es a = []) then [] else [(a_id a, a_n0 a, a_es a)]).

Lemma last_container_spec a u : cont_repr (a_n0 a) (_curContainer u) (a_es a) →
  containerID (_curContainer u) = a_id a → Forall2 sealed_as (a_sealed a) (pushed (_inputMQ u)) →
  ∃ u', last_container stk u = Ok u' ∧ Forall2 sealed_as (a_final a) (pushed (_inputMQ u')) ∧
    done_ (_inputMQ u') = true.
Proof.
  intros Hcont Hid Hsealed. pose proof Hcont as [_ Hhs _ _ _ _ Hes _]. unfold last_container, a_final. rewrite Hhs.
  pose proof (zlen_hdr_bytes 0 _ Hes) as Hz. unfold entry_size in Hz. sizes.
  destruct (decide (a_es a = [])) as [E|E].
  - rewrite E. simpl. change (zlen (@nil Z) =? 0) with true. simpl. eexists. split; [done|]. simpl.
    rewrite app_nil_r. by split_and!.
  - rewrite bool_decide_eq_false_2 by done.
    assert (0 < zlen (a_es a)) by (destruct (a_es a); [done|zlia]).
    rewrite (proj2 (Z.eqb_neq _ _)) by lia. simpl.
    destruct (Ocall_WriteContainer_spec stk _ _ _ Hcont) as (c & -> & Hc1 & Hc2 & Hc3). simpl.
    eexists. split; [done|]. simpl. split; [|done]. apply Forall2_app; [done|].
    constructor; [|constructor]. split_and!; simpl; [congruence|done..].
Qed.

Lemma finish_upload_spec u x : at_state u [] x →
  ∃ x', finish_upload stk (clear_conn x) = Ok x' ∧
    Forall2 sealed_as (a_final (u_a u)) (pushed (_inputMQ (upload (s_client x')))) ∧
    done_ (_inputMQ (upload (s_client x'))) = true ∧
    s_ix x' = s_ix x ∧ s_fs x' = s_fs x ∧
    s_conn x' = ClearAcceptedClientSd (s_conn x) ∧ s_rng x' = s_rng x.
Proof.
  intros [[Hcont Hid Hsealed _ _ _ _] _ _ _ _ _ _ _ _ _ _ _]. unfold finish_upload. cbn [clear_conn s_client].
  destruct (last_container_spec _ _ Hcont Hid Hsealed) as (u' & -> & Hp & Hd). simpl.
  eexists. split; [done|]. by split_and!.
Qed.
End Refine.

(** The whole session. *)
Lemma upload_Run_spec config `{AbsDatabaseLaws DB} `{ChunkHashOk hash} `{ChannelLaws C} stk c0 s0 others
    (x : session (DB := DB) (C := C)) u fs ms fuel :
  at_state c0 s0 others u fs x → Forall2 is_upload fs ms → (length fs < fuel)%nat →
  let u' := foldl (λ u m, u_step config hash others m u) u ms in
  ∃ x' info, Run config stk fuel x = Ok (x', info) ∧
    Forall2 sealed_as (a_final (u_a u')) (pushed (_inputMQ (upload (s_client x')))) ∧
    done_ (_inputMQ (upload (s_client x'))) = true ∧
    index_ok (indexStore_ (s_ix x')) (others ++ a_groups (u_a u')) ∧
    files (s_fs x') = u_files u' ∧ (∀ p, creatable (s_fs x') p = true) ∧
    (∃ outs, cleared (s_conn x') outs ∧
       Forall2 (λ st f, is_message f (protocol_code CLOUD_QUERY_RETURN) (zlen st) st) (u_answers u') outs) ∧
    info_uniqueChunkNum info = u64 (c0 + zlen (all_entries (a_groups (u_a u')))) ∧
    info_uniqueDataSize info = u64 (s0 + zlen (data_bytes (all_entries (a_groups (u_a u'))))) ∧
    s_rng x' = a_g (u_a u') ∧ Index.sendChunkBatchSize_ (s_ix x') = 256 ∧
    info_uniqueChunkNum info = _uniqueChunkNum (s_ix x') ∧ info_uniqueDataSize info = _uniqueDataSize (s_ix x').
Proof.
  intros Hx Hms Hfuel. simpl. unfold Run.
  match goal with |- context [receive_loop _ _ _ ?x0] => set (x1 := x0) end.
  assert (Hx1 : at_state c0 s0 others u fs x1) by by apply at_state_start.
  destruct (receive_loop_spec config stk c0 s0 others fs ms fuel u x1 Hms Hx1 Hfuel) as (x2 & -> & Hx2). simpl.
  destruct (finish_upload_spec stk c0 s0 others _ x2 Hx2) as (x3 & -> & Hp & Hd & Hix & Hfs & Hc & Hg). simpl.
  destruct Hx2 as [Hrepr Hcap Hbatch Hopt Hdone Hf Hcr Hr Hs Hk Hne Hout].
  destruct Hout as (outs & Hch & Hans).
  eexists _, _. split; [done|]. rewrite Hix, Hfs, Hc, Hg.
  split_and!; try done; try apply Hrepr. exists outs. split; [by apply clear_cleared|done].
Qed.

(** C4: an upload session refines its specification.  For every sequence of legal
    messages the receiver ends when the peer closes, without a fault; chunks are
    deduplicated across all files of the session and all other containers; the
    containers pushed to the writer hold, in order, exactly the new chunks; the index
    maps exactly the stored hashes to their containers; the recipe files have the
    contents that were sent; each recipe query is answered with the chunks that are
    missing at that point; the connection is cleared; and the writer is told that no more
    containers follow. *)
Theorem Run_uploads config `{AbsDatabaseLaws DB} `{ChunkHashOk hash} `{ChannelLaws C} stk c0 s0 others
    (x : session (DB := DB) (C := C)) u fs ms fuel :
  at_state c0 s0 others u fs x → Forall2 is_upload fs ms → (length fs < fuel)%nat →
  let u' := foldl (λ u m, u_step config hash others m u) u ms in
  ∃ x' info, Run config stk fuel x = Ok (x', info) ∧
    Forall2 sealed_as (a_final (u_a u')) (pushed (_inputMQ (upload (s_client x')))) ∧
    done_ (_inputMQ (upload (s_client x'))) = true ∧
    index_ok (indexStore_ (s_ix x')) (others ++ a_groups (u_a u')) ∧
    files (s_fs x') = u_files u' ∧ (∀ p, creatable (s_fs x') p = true) ∧
    (∃ outs, cleared (s_conn x') outs ∧
       Forall2 (λ st f, is_message f (protocol_code CLOUD_QUERY_RETURN) (zlen st) st) (u_answers u') outs) ∧
    info_uniqueChunkNum info = u64 (c0 + zlen (all_entries (a_groups (u_a u')))) ∧
    info_uniqueDataSize info = u64 (s0 + zlen (data_bytes (all_entries (a_groups (u_a u'))))).
Proof.
  intros Hx Hms Hfuel u'. destruct (upload_Run_spec config stk c0 s0 others x u fs ms fuel Hx Hms Hfuel)
    as (x' & info & H1' & H2' & H3' & H4' & H5' & H6' & H7' & H8' & H9' & _).
  exists x', info. by split_and!.
Qed.

(** C36: a client can end the whole server in the middle of an upload.  After any sequence
    of legal messages, a message of any type that is not one of the eight of an upload
    makes [Run] end in [EXIT_FAILURE], whatever is still to come: neither the open
    container is flushed nor the queue told that the upload is over.  The protocol's own
    [EDGE_UPLOAD_KEY_RECIPE_END] is such a type. *)
Theorem other_message_exits config `{AbsDatabaseLaws DB} `{ChunkHashOk hash} `{ChannelLaws C} stk c0 s0 others
    (x : session (DB := DB) (C := C)) u fs ms f rest t num data fuel :
  at_state c0 s0 others u (fs ++ f :: rest) x → Forall2 is_upload fs ms → (length fs < fuel)%nat →
  is_message f t num data → zlen f ≤ sizeof_NetworkHead_t + recv_cap →
  - 2 ^ 31 ≤ t < 2 ^ 31 → t ∉ edge_code <$> upload_types →
  Run config stk fuel x = Err EXIT_FAILURE.
Proof.
  intros Hx Hms Hfuel Hf Hlen Ht Hno. unfold Run.
  erewrite (receive_loop_other _ _ _ _ _ fs ms f rest t num data fuel u);
    [done|done|by apply at_state_start|done..].
Qed.

(** ** A concrete session *)

Definition sample_frame (type num : Z) (data : bytes) : bytes :=
  le_enc 4 type ++ [0; 0; 0; 0] ++ le_enc 4 (zlen data) ++ le_enc 4 num ++ data.
Lemma sample_frame_ok type num data : is_message (sample_frame type num data) type num data.
Proof. by exists [0; 0; 0; 0]. Defined.

Definition sample_msgs : list umsg :=
  [UChunks sample_chunks; USecRecipe [Toy.digest SHA_256 [4]; replicate 32 9]; UChunks [[5; 5]; [4]]; UChunksFinal].
Definition sample_frames : list bytes :=
  [sample_frame (edge_code EDGE_MIGRATION_CHUNK) 3 (payload sample_chunks);
   sample_frame (edge_code EDGE_UPLOAD_SEC_RECIPE) 2 (Toy.digest SHA_256 [4] ++ replicate 32 9);
   sample_frame (edge_code EDGE_MIGRATION_CHUNK) 2 (payload [[5; 5]; [4]]);
   sample_frame (edge_code EDGE_MIGRATION_CHUNK_FINAL) 0 []].

Definition sample_files : fs := set_file [1] [] (set_file [2] [] (set_file [3] [] InMemory.empty_fs)).
Definition sample_writer (p : Z) : ofstream := {| of_path := [p]; of_open := true; of_pos := 0 |}.
Definition sample_session (chunkNum0 : Z) (ins : list bytes) : session (DB := InMemory.InMemoryDatabase) (C := ListChannel.t) :=
  {| s_ix := sample_ix;
     s_client := with_upload (with_curContainer
         {| containerID := replicate 8 97; chunkNum := chunkNum0; body := zero_buf; currentBodySize := 0;
            header := zero_buf; currentHeaderSize := 0 |} sample_upload)
       (with_writers {| _recipeWriteHandler := sample_writer 1; _secureRecipeWriteHandler := sample_writer 2;
                        _keyRecipeWriteHandler := sample_writer 3 |} (raw_client 0));
     s_fs := sample_files; s_rng := sample_rng; s_conn := (ins, []);
     batchNum_ := 0; recipeBatchNum_ := 0; recipeEndNum_ := 0 |}.
Definition sample_ustate (chunkNum0 : Z) : ustate :=
  {| u_a := {| a_sealed := []; a_id := replicate 8 97; a_n0 := chunkNum0; a_es := []; a_g := sample_rng |};
     u_files := files sample_files; u_rp := [1]; u_sp := [2]; u_kp := [3]; u_answers := [] |}.

Lemma sample_at_state chunkNum0 ins : 0 ≤ chunkNum0 < 2 ^ 32 →
  at_state 0 0 [] (sample_ustate chunkNum0) ins (sample_session chunkNum0 ins).
Proof.
  intros Hn. split; try done.
  - destruct sample_repr as [? ? ? ? ? ? ?]. split; try done. by apply cont_repr_empty.
  - split; [done|]. by exists [].
  - split; [done|]. by exists [].
  - split; [done|]. by exists [].
  - by exists [].
Defined.
Lemma sample_uploads : Forall2 is_upload sample_frames sample_msgs.
Proof.
  repeat constructor; try done; try apply sample_frame_ok; try (by vm_compute).
Defined.

Lemma Run_uploads_witness :
  let u' := foldl (λ u m, u_step sample_config (Toy.digest SHA_256) [] m u) (sample_ustate 0) sample_msgs in
  ∃ x' info, Run (H0 := sample_hash) sample_config zero_buf 5 (sample_session 0 sample_frames) = Ok (x', info) ∧
    Forall2 sealed_as (a_final (u_a u')) (pushed (_inputMQ (upload (s_client x')))) ∧
    done_ (_inputMQ (upload (s_client x'))) = true ∧
    index_ok (indexStore_ (s_ix x')) ([] ++ a_groups (u_a u')) ∧
    files (s_fs x') = u_files u' ∧ (∀ p, creatable (s_fs x') p = true) ∧
    (∃ outs, cleared (s_conn x') outs ∧
       Forall2 (λ st f, is_message f (protocol_code CLOUD_QUERY_RETURN) (zlen st) st) (u_answers u') outs) ∧
    info_uniqueChunkNum info = u64 (0 + zlen (all_entries (a_groups (u_a u')))) ∧
    info_uniqueDataSize info = u64 (0 + zlen (data_bytes (all_entries (a_groups (u_a u'))))).
Proof.
  apply (Run_uploads (hash := Toy.digest SHA_256) sample_config zero_buf 0 0 []
           (sample_session 0 sample_frames) (sample_ustate 0) sample_frames sample_msgs).
  - by apply sample_at_state.
  - exact sample_uploads.
  - simpl. lia.
Defined.

(** The same session with the message that ends a key recipe in its middle. *)
Definition key_end_frame : bytes := sample_frame (edge_code EDGE_UPLOAD_KEY_RECIPE_END) 0 [].
Lemma other_message_exits_witness :
  Run (H0 := sample_hash) sample_config zero_buf 5
    (sample_session 0 (sample_frames ++ key_end_frame :: sample_frames)) = Err EXIT_FAILURE.
Proof.
  apply (other_message_exits (hash := Toy.digest SHA_256) sample_config zero_buf 0 0 []
           (sample_session 0 (sample_frames ++ key_end_frame :: sample_frames)) (sample_ustate 0)
           sample_frames sample_msgs key_end_frame sample_frames (edge_code EDGE_UPLOAD_KEY_RECIPE_END) 0 []).
  - by apply sample_at_state.
  - exact sample_uploads.
  - simpl. lia.
  - apply sample_frame_ok.
  - by vm_compute.
  - by vm_compute.
  - apply (bool_decide_unpack _). by vm_compute.
Defined.
