(* ===== verification/EndToEnd.v ===== *)
(** * Upload, write, restore

    The components put together: an upload session on an empty store, the writer
    saving the containers it pushed, and a restore session on the resulting disk and
    index. *)
From Stdlib Require Import ZArith Lia.
From stdpp Require Import base tactics numbers list gmap fin_maps.
From S2P Require Import Prelude Common FileSystem LruCache ReadCache ClientVar Storage Database Crypto Index.
From S2P Require Import DataWriter SslConn RecvDecoder DataReceiver.
#[local] Open Scope Z_scope.

(** ** The names and the sizes of the containers *)

(** The container names the next draws give. *)
Fixpoint uuids (n : nat) (g : rng) : list bytes :=
  match n with
  | O => []
  | S n => let '(id, g) := CreateUUID CONTAINER_ID_LENGTH g in id :: uuids n g
  end.

(** The chunks of an upload. *)
Definition uploaded (ms : list umsg) : list bytes :=
  ms ≫= λ m, match m with UChunks ds => ds | _ => [] end.

Lemma uploaded_legal fs ms : Forall2 is_upload fs ms → Forall (λ d, zlen d ≤ MAX_CHUNK_SIZE) (uploaded ms).
Proof.
  induction 1 as [|f m fs ms Hf Hfs IH]; [constructor|]. unfold uploaded. simpl. apply Forall_app.
  split; [|done]. destruct Hf as [_ Hf]. destruct m; try constructor. apply Hf.
Qed.

Lemma u_step_store config hash others ms u :
  u_a (foldl (λ u m, u_step config hash others m u) u ms) = foldl (a_store hash others) (u_a u) (uploaded ms).
Proof.
  revert u. induction ms as [|m ms IH]; intros u; [done|]. simpl. rewrite IH. unfold uploaded. simpl.
  rewrite foldl_app. f_equal. by destruct m.
Qed.

Section Store.
Context (hash : bytes → bytes) (Hlen : ∀ d, zlen (hash d) = CHUNK_HASH_SIZE) (others : list group).

(** Containers of legal chunks that fit a file. *)
Definition fine (x : bytes * Z * list entry) : Prop :=
  total_size x.2 < MAX_CONTAINER_SIZE ∧ zlen x.1.1 = CONTAINER_ID_LENGTH ∧
  Forall (λ e, e.1 = hash e.2 ∧ zlen e.2 ≤ MAX_CHUNK_SIZE) x.2.
Definition containers (a : astate) : list (bytes * Z * list entry) :=
  a_sealed a ++ [(a_id a, a_n0 a, a_es a)].
Definition all_fine (a : astate) : Prop := Forall fine (containers a).

(** Only the first container of a session starts with a chunk count other than 0. *)
Definition counts (n0 : Z) (a : astate) : Prop :=
  ∃ x rest, containers a = x :: rest ∧ x.1.2 = n0 ∧ Forall (λ y, y.1.2 = 0) rest.

Lemma a_store_fine a d : all_fine a → zlen d ≤ MAX_CHUNK_SIZE → all_fine (a_store hash others a d).
Proof.
  intros Ha Hd. unfold a_store. case_bool_decide; [done|]. unfold a_place, all_fine, containers in *. simpl.
  pose proof Ha as [Hs Hc]%Forall_app. apply Forall_cons in Hc as [(H1 & H3 & H4) _]. simpl in *.
  destruct (_ <? _) eqn:E; zbool.
  - simpl. apply Forall_app. split; [done|]. constructor; [|done]. unfold fine. simpl.
    split_and!; try done.
    + rewrite total_size_snoc, Hlen. unfold entry_size in E. sizes. lia.
    + apply Forall_app. split; [done|]. by repeat constructor.
  - pose proof (zlen_CreateUUID (a_g a)) as Hid. destruct (CreateUUID _ _) as [id g]. simpl in *.
    apply Forall_app. split; [done|]. constructor; [|done]. unfold fine. simpl. split_and!; try done.
    + unfold total_size, data_bytes. simpl. rewrite !app_nil_r. pose proof (Hlen d). sizes. zlia.
    + by repeat constructor.
Qed.

Lemma a_store_counts n0 a d : counts n0 a → counts n0 (a_store hash others a d).
Proof.
  intros (x & rest & E & Hx & Hr). unfold a_store. case_bool_decide; [by exists x, rest|].
  unfold a_place, counts, containers in *. destruct (_ <? _).
  - simpl. destruct (a_sealed a) as [|y sl]; simpl in *; injection E as <- <-.
    + eexists _, _. by split_and!.
    + eexists _, _. split_and!; [done|done|]. apply Forall_app in Hr as [? Hr]. apply Forall_app. split; [done|].
      by apply Forall_cons in Hr as [? _]; constructor.
  - destruct (CreateUUID _ _) as [id g]. simpl. rewrite E. simpl. eexists _, _. split_and!; [done|done|].
    apply Forall_app. by split; [|constructor].
Qed.

(** The names are the initial one and draws, at most one per chunk that is new. *)
Lemma a_store_names a d :
  ∃ k, (k ≤ 1)%nat ∧
    (k + length (all_entries (a_groups a)) ≤ length (all_entries (a_groups (a_store hash others a d))))%nat ∧
    (a_groups (a_store hash others a d)).*1 = (a_groups a).*1 ++ uuids k (a_g a) ∧
    ∀ n, uuids (k + n) (a_g a) = uuids k (a_g a) ++ uuids n (a_g (a_store hash others a d)).
Proof.
  unfold a_store. case_bool_decide; [exists 0%nat; rewrite app_nil_r; by split_and!; [lia|simpl; lia|..]|].
  pose proof (a_place_entries (hash d, d) a) as He. apply (f_equal length) in He. rewrite length_app in He. simpl in He.
  revert He. unfold a_place. destruct (_ <? _); intros He.
  - exists 0%nat. rewrite app_nil_r. split_and!; [lia|simpl in *; lia| |done]. unfold a_groups. simpl. by rewrite !fmap_app.
  - exists 1%nat. split; [done|]. split; [lia|]. clear He. simpl. destruct (CreateUUID _ _) as [id g] eqn:E. simpl. split; [|done].
    unfold a_groups. simpl. rewrite !fmap_app. csimpl. done.
Qed.

Lemma foldl_names ds : ∀ a,
  ∃ k, (k ≤ length ds)%nat ∧ (a_groups (foldl (a_store hash others) a ds)).*1 = (a_groups a).*1 ++ uuids k (a_g a) ∧
    ∀ n, uuids (k + n) (a_g a) = uuids k (a_g a) ++ uuids n (a_g (foldl (a_store hash others) a ds)).
Proof.
  induction ds as [|d ds IH]; intros a; simpl.
  { exists 0%nat. rewrite app_nil_r. by split_and!. }
  destruct (a_store_names a d) as (k1 & Hk1 & _ & E1 & U1). destruct (IH (a_store hash others a d)) as (k2 & Hk2 & E2 & U2).
  exists (k1 + k2)%nat. split; [lia|]. rewrite E2, E1, U1, <- app_assoc. split; [done|].
  intros n. by rewrite <- Nat.add_assoc, U1, U2, app_assoc.
Qed.

Lemma names_NoDup l ds a :
  NoDup (l ++ (a_groups a).*1 ++ uuids (length ds) (a_g a)) →
  NoDup (l ++ (a_groups (foldl (a_store hash others) a ds)).*1).
Proof.
  destruct (foldl_names ds a) as (k & Hk & -> & U). specialize (U (length ds - k)%nat).
  replace (k + (length ds - k))%nat with (length ds) in U by lia. rewrite U, !app_assoc.
  intros H%NoDup_app. apply H.
Qed.

Lemma foldl_fine ds a : all_fine a → Forall (λ d, zlen d ≤ MAX_CHUNK_SIZE) ds →
  all_fine (foldl (a_store hash others) a ds).
Proof. intros Ha Hds. revert a Ha. induction Hds; intros a Ha; simpl; [done|]. auto using a_store_fine. Qed.

Lemma foldl_counts n0 ds a : counts n0 a → counts n0 (foldl (a_store hash others) a ds).
Proof. revert a. induction ds as [|d ds IH]; intros a Ha; simpl; auto using a_store_counts. Qed.
End Store.

(** ** Upload then restore *)

(** The answer to a request for the chunks [ds]. *)
Definition served (ds : list bytes) (fs : list bytes) : Prop :=
  ∃ gs f, fs = gs ++ [f] ∧ is_message f (edge_code CLOUD_SEND_CHUNK_END) 0 [] ∧
    if bool_decide (ds = []) then gs = [] else
      ∃ f1, gs = [f1] ∧ is_message f1 (edge_code CLOUD_SEND_CHUNK) (zlen ds) (payload ds).

Lemma answers_served (qss : list (list request)) ans : Forall2 is_answer qss ans → Forall2 served ((λ qs : list request, (req_data qs : list bytes)) <$> qss) ans.
Proof.
  intros Hans. apply Forall2_fmap_l. eapply Forall2_impl; [exact Hans|]. intros qs fs (gs & f & -> & Hf & Hg).
  exists gs, f. split_and!; [done..|].
  assert (bool_decide (req_data qs = []) = bool_decide (qs = [])) as -> by (apply bool_decide_ext; by destruct qs).
  by rewrite zlen_fmap.
Qed.

(** A fresh session: nothing stored yet.  What the chunk count of its first container is
    then, the source does not say: [chunkNum] is never initialised (clientVar.cc:90). *)
Definition fresh (a : astate) : Prop :=
  a_sealed a = [] ∧ a_es a = [] ∧ zlen (a_id a) = CONTAINER_ID_LENGTH.
(** The memory of the client object happened to hold a zero there. *)
Definition zero_count (a : astate) : Prop := a_n0 a = 0.

Definition final_groups (a : astate) : list group := (λ x, (x.1.1, x.2)) <$> a_final a.

Lemma final_entries a : all_entries (final_groups a) = all_entries (a_groups a).
Proof.
  unfold final_groups, a_final, a_groups. rewrite fmap_app, !all_entries_app.
  case_bool_decide as E; [|done]. by rewrite E.
Qed.

Lemma final_groups_hashes a : hashes (final_groups a) = hashes (a_groups a).
Proof. unfold hashes. by rewrite final_entries. Qed.

Lemma final_groups_names a : (final_groups a).*1 `sublist_of` (a_groups a).*1.
Proof.
  unfold final_groups, a_final, a_groups. rewrite !fmap_app. apply sublist_app; [done|].
  case_bool_decide; [apply sublist_nil_l|done].
Qed.

Lemma final_groups_in a n es h : (n, es) ∈ a_groups a → h ∈ es.*1 → (n, es) ∈ final_groups a.
Proof.
  unfold final_groups, a_final, a_groups. rewrite fmap_app, !elem_of_app. intros [?|Hin] Hh; [by left|].
  right. apply list_elem_of_singleton in Hin. injection Hin as -> ->.
  rewrite bool_decide_eq_false_2; [simpl; set_solver|]. intros E. rewrite E in Hh. by apply elem_of_nil in Hh.
Qed.

(** Containers of two sources on one disk. *)
Lemma disk_ok_files config s s' gs : disk_ok config s gs →
  (∀ n, files s' !! container_path config n = files s !! container_path config n) → disk_ok config s' gs.
Proof.
  intros [Hf Hl Hn Hh] Hs. split; [|done..]. intros n es Hin. rewrite Hs. by apply Hf.
Qed.

Lemma disk_ok_app config s gs gs' : disk_ok config s gs → disk_ok config s gs' →
  NoDup ((gs ++ gs').*1) → NoDup (hashes (gs ++ gs')) → disk_ok config s (gs ++ gs').
Proof.
  intros [Hf Hl _ _] [Hf' Hl' _ _] Hn Hh. split; [| |done..]; intros n es; [|intros h d];
    rewrite elem_of_app; intros [Hg|Hg]; eauto.
Qed.

(** The hash of every entry is the hash of its data. *)
Definition entries_ok (hash : bytes → bytes) (gs : list group) : Prop :=
  Forall (λ e : entry, e.1 = hash e.2) (all_entries gs).

(** The groups of a list of containers. *)
Definition groups_of (xs : list (bytes * Z * list entry)) : list group := (λ x, (x.1.1, x.2)) <$> xs.

(** Writing fine containers whose counts start at 0 puts them next to the others. *)
Lemma save_fine config hash others xs cs s : (∀ d, zlen (hash d) = CHUNK_HASH_SIZE) →
  Forall2 sealed_as xs cs → Forall (λ x, fine hash x ∧ x.1.2 = 0) xs → (∀ p, creatable s p = true) →
  NoDup ((others ++ groups_of xs).*1) → NoDup (hashes (others ++ groups_of xs)) → disk_ok config s others →
  ∃ s', save_all config cs s = Ok s' ∧ creatable s' = creatable s ∧
    disk_ok config s' (others ++ groups_of xs) ∧
    ∀ p, (∀ n, p ≠ container_path config n) → files s' !! p = files s !! p.
Proof.
  intros Hlen Hcs Hfine Hc Hnames Hhashes Hold. pose proof Hnames as Hnd.
  assert (Hfst : (groups_of xs).*1 = xs.*1.*1) by (unfold groups_of; by rewrite <- !list_fmap_compose).
  rewrite fmap_app, Hfst in Hnd. apply NoDup_app in Hnd as (_ & Hdis & Hnd).
  destruct (save_all_files config xs cs s Hcs) as (s' & -> & Hc' & Hdisk & Hother); [|done..|].
  { eapply Forall_impl; [exact Hfine|]. by intros x [(_ & ? & _) _]. }
  assert (Hx : ∀ n es, (n, es) ∈ groups_of xs → ∃ x, x ∈ xs ∧ x.1.1 = n ∧ x.2 = es ∧ fine hash x ∧ x.1.2 = 0 ∧ hashes_ok es).
  { intros n es (x & E & Hx)%list_elem_of_fmap. injection E as -> ->. exists x.
    destruct (proj1 (Forall_forall _ _) Hfine x Hx) as [Hf Hz]. split_and!; [done..|].
    destruct Hf as (_ & _ & Hes). eapply Forall_impl; [exact Hes|]. intros e [-> _]. apply Hlen. }
  exists s'. split_and!; [done|done| |intros; apply Hother; naive_solver].
  apply disk_ok_app; [| |done|done].
  - destruct Hold as [Hf Hl Hn Hh]. split; [|done..]. intros n es Hg. rewrite Hother; [by apply Hf|].
    intros x Hxin ->%container_path_inj. apply (Hdis x.1.1).
    + apply list_elem_of_fmap. by exists (x.1.1, es).
    + apply list_elem_of_fmap. exists x.1. split; [done|]. apply list_elem_of_fmap. eauto.
  - rewrite fmap_app in Hnames. rewrite hashes_app in Hhashes.
    apply NoDup_app in Hnames as (_ & _ & Hn2). apply NoDup_app in Hhashes as (_ & _ & Hh2). split; [| |done|done].
    + intros n es Hg. destruct (Hx n es Hg) as (x & Hxin & <- & <- & (Ht & Hn & _) & Hz & Hes).
      split_and!; [|done..]. pose proof (Hdisk x Hxin) as Hd. unfold on_disk in Hd. simpl in Hd. rewrite Hd, Hz.
      do 2 f_equal. pose proof (zlen_hdr_bytes 0 _ Hes) as Hh. unfold total_size, entry_size in *. sizes.
      pose proof (zlen_nonneg x.2). pose proof (zlen_nonneg (data_bytes x.2)). apply u32_small. lia.
    + intros n es h d Hg Hd. destruct (Hx n es Hg) as (x & _ & _ & <- & (_ & _ & Hes) & _).
      by eapply (Forall_forall _ _) in Hes as [_ ?]; [|exact Hd].
Qed.

(** Containers without entries do not matter to the index. *)
Lemma index_ok_nonempty `{AbsDatabase DB} (db : DB) gs gs' : gs' ⊆ gs →
  (∀ n es h, (n, es) ∈ gs → h ∈ es.*1 → (n, es) ∈ gs') → index_ok db gs → index_ok db gs'.
Proof. intros H1 H2 Hix h n. rewrite (Hix h n). split; intros (es & Hin & Hh); exists es; eauto. Qed.

Lemma final_groups_sub a : final_groups a ⊆ a_groups a.
Proof.
  intros x. unfold final_groups, a_final, a_groups. rewrite fmap_app, !elem_of_app. intros [?|Hx]; [by left|right].
  by case_bool_decide; [apply elem_of_nil in Hx|].
Qed.

Section UploadRestore.
Context (config : Configure) (hash : bytes → bytes) (Hlen : ∀ d, zlen (hash d) = CHUNK_HASH_SIZE)
  (others : list group) (a0 : astate) (ds : list bytes).
Context (Hfresh : fresh a0) (Hzero : zero_count a0) (Hds : Forall (λ d, zlen d ≤ MAX_CHUNK_SIZE) ds)
  (Hnames : NoDup (others.*1 ++ a_id a0 :: uuids (length ds) (a_g a0))).

Abbreviation a1 := (foldl (a_store hash others) a0 ds).

Lemma fresh_fine : all_fine hash a1 ∧ Forall (λ x, x.1.2 = 0) (containers a1).
Proof.
  destruct Hfresh as (E1 & E2 & E4). pose proof Hzero as E3. unfold zero_count in E3. split.
  - apply foldl_fine; [done| |done]. unfold all_fine, containers. rewrite E1, E2. simpl.
    constructor; [|constructor]. by split_and!; simpl; [..|constructor].
  - destruct (foldl_counts hash others 0 ds a0) as (x & rest & -> & Hx & Hr); [|by constructor].
    unfold counts, containers. rewrite E1. simpl. by eexists _, _.
Qed.

Lemma fresh_entries : all_entries (a_groups a1) = entry_of hash <$> first_new hash (hashes others) ds.
Proof.
  rewrite a_store_entries, hashes_app. destruct Hfresh as (E1 & E2 & _). unfold a_groups. rewrite E1, E2.
  change (hashes (((λ x, (x.1.1, x.2)) <$> []) ++ [(a_id a0, [])])) with (@nil bytes). by rewrite app_nil_r.
Qed.

(** All names and all hashes are different. *)
Lemma fresh_names : NoDup ((others ++ final_groups a1).*1).
Proof.
  rewrite fmap_app. eapply sublist_NoDup; [|apply sublist_app; [reflexivity|apply final_groups_names]].
  apply names_NoDup. destruct Hfresh as (E1 & E2 & _). unfold a_groups. rewrite E1. done.
Qed.

Lemma fresh_hashes : NoDup (hashes others) → NoDup (hashes (others ++ final_groups a1)).
Proof.
  intros Ho. rewrite hashes_app, final_groups_hashes. unfold hashes at 2.
  rewrite fresh_entries, <- list_fmap_compose. apply NoDup_app. split_and!; [done| |apply first_new_NoDup].
  intros h Hh (d & -> & [_ Hd]%first_new_sound)%list_elem_of_fmap. by apply Hd.
Qed.

Lemma fresh_entries_ok : entries_ok hash others → entries_ok hash (others ++ final_groups a1).
Proof.
  unfold entries_ok. rewrite all_entries_app, final_entries, fresh_entries. intros Ho. apply Forall_app.
  split; [done|]. apply Forall_fmap, Forall_true. done.
Qed.

Lemma fresh_final x : x ∈ a_final a1 → fine hash x ∧ x.1.2 = 0.
Proof.
  pose proof fresh_fine as [Hfine Hnum]. revert x. apply Forall_forall, Forall_and.
  unfold all_fine, containers, a_final in *.
  apply Forall_app in Hfine as [H1 H2]. apply Forall_app in Hnum as [H3 H4].
  split; apply Forall_app; (split; [done|]); by case_bool_decide.
Qed.

(** The writer puts the session's containers next to the others. *)
Lemma saved_disk_ok cs s : Forall2 sealed_as (a_final a1) cs → (∀ p, creatable s p = true) →
  disk_ok config s others →
  ∃ s', save_all config cs s = Ok s' ∧ creatable s' = creatable s ∧
    disk_ok config s' (others ++ final_groups a1) ∧
    ∀ p, (∀ n, p ≠ container_path config n) → files s' !! p = files s !! p.
Proof.
  intros Hcs Hc Hold. apply (save_fine config hash); [done..| |done|apply fresh_names|apply fresh_hashes, Hold|done].
  apply Forall_forall, fresh_final.
Qed.

(** Every uploaded chunk is stored under its hash. *)
Lemma uploaded_stored d : d ∈ ds → hash d ∈ hashes (others ++ final_groups a1).
Proof.
  intros Hd. rewrite hashes_app, final_groups_hashes. unfold hashes at 2. rewrite fresh_entries. apply elem_of_app.
  destruct (first_new_complete hash (hashes others) ds d Hd) as [?|(d' & Hd' & E)]; [by left|right].
  rewrite <- list_fmap_compose. apply list_elem_of_fmap. by exists d'.
Qed.

(** An index of the session's containers is one of the final ones: the open container
    counts only when it has entries. *)
Lemma index_ok_final `{AbsDatabase DB} (db : DB) :
  index_ok db (others ++ a_groups a1) → index_ok db (others ++ final_groups a1).
Proof.
  apply index_ok_nonempty; [intros x; rewrite !elem_of_app; intros [?|?%final_groups_sub]; auto|].
  intros n es h. rewrite !elem_of_app. intros [?|Hin] Hh; [by left|right]. by eapply final_groups_in.
Qed.
End UploadRestore.

(** Stored chunks can be requested by their hashes. *)
Lemma hashes_requested `{AbsDatabase DB} (ix : AbsIndex DB) gs hs :
  index_ok (indexStore_ ix) gs → hs ⊆ hashes gs →
  ∃ qs, requested gs ix qs ∧ req_hashes qs = hs ∧ Forall (λ q, q.2 ∈ all_entries gs) qs.
Proof.
  intros Hix. induction hs as [|h hs IH]; intros Hsub; [exists []; split_and!; constructor|].
  destruct IH as (qs & Hqs & Hhs & Hin); [set_solver|].
  assert (h ∈ hashes gs) as (n & es & Hg & Hh)%elem_of_hashes by set_solver.
  pose proof Hh as ([h' d] & Eh & He)%list_elem_of_fmap. simpl in Eh. subst h'.
  exists (((n, es), (h, d)) :: qs). csimpl. rewrite Hhs. split_and!; [|done|].
  - constructor; [|done]. split_and!; simpl; [|done..]. apply Hix. eauto.
  - constructor; [|done]. apply list_elem_of_bind. by exists (n, es).
Qed.

Lemma chunks_requested `{AbsDatabase DB} (ix : AbsIndex DB) hash gs ds :
  index_ok (indexStore_ ix) gs → entries_ok hash gs →
  (∀ d, d ∈ ds → hash d ∈ hashes gs ∧ ∀ e, e ∈ all_entries gs → hash e.2 = hash d → e.2 = d) →
  ∃ qs, requested gs ix qs ∧ req_data qs = ds ∧ req_hashes qs = hash <$> ds.
Proof.
  intros Hix Hok Hds. destruct (hashes_requested ix gs (hash <$> ds) Hix) as (qs & Hqs & Hhs & Hin).
  { intros h (d & -> & Hd)%list_elem_of_fmap. by apply Hds. }
  exists qs. split_and!; [done| |done]. clear Hqs Hix. revert qs Hhs Hin.
  induction ds as [|d ds IH]; intros [|[g [h d']] qs] Hhs Hin; csimpl in *; try discriminate; [done|].
  injection Hhs as -> Hhs. apply Forall_cons in Hin as [He Hin]. simpl in He.
  f_equal; [|apply IH; [set_solver|done..]].
  destruct (Hds d) as [_ Hu]; [left|]. apply (Hu _ He).
  pose proof (proj1 (Forall_forall _ _) Hok _ He) as E. by symmetry.
Qed.

(** A restore of stored chunks. *)
Lemma restore_chunks config `{AbsDatabaseLaws DB} `{ChannelLaws C} hash (ix : AbsIndex DB) gs chunks s
    malloc_ client (conn : C) ready fss dss fuel :
  disk_ok config s gs → index_ok (indexStore_ ix) gs → entries_ok hash gs →
  (∀ d, d ∈ chunks → hash d ∈ hashes gs ∧ ∀ e, e ∈ all_entries gs → hash e.2 = hash d → e.2 = d) →
  1 ≤ GetReadCacheSize config < 2 ^ 32 →
  is_message ready (edge_code EDGE_RECEIVE_READY) 0 [] →
  Forall2 (λ f ds, is_message f (edge_code EDGE_DOWNLOAD_CHUNK_READY) (zlen ds) (concat (hash <$> ds))) fss dss →
  Forall (λ ds, ds ⊆ chunks ∧ zlen ds ≤ 256) dss →
  chan conn (ready :: fss) [] → (length fss < fuel)%nat →
  ∃ r' ans, RecvDecoder.Run config fuel ix (start_restore config malloc_ client conn) s = Ok r' ∧
    Forall2 served dss ans ∧ cleared (r_conn r') (concat ans).
Proof.
  intros Hdisk Hix Hgs Hst Hcache Hready Hfss Hdss Hconn Hfuel.
  assert (Hqss : ∃ qss, Forall2 is_request fss qss ∧ Forall (λ qs, requested gs ix qs ∧ zlen qs ≤ 256) qss ∧
    Forall2 (λ qs ds, req_data qs = ds) qss dss).
  { clear Hconn Hfuel. induction Hfss as [|f ds fss dss Hf Hfss IH]; [exists []; by split_and!|].
    apply Forall_cons in Hdss as [[Hsub Hn] Hdss]. destruct (IH Hdss) as (qss & H1' & H2' & H3').
    destruct (chunks_requested ix hash gs ds Hix Hgs) as (qs & Hq & Hd & Hh); [auto|].
    assert (Hz : zlen qs = zlen ds) by (by rewrite <- Hd, zlen_fmap).
    exists (qs :: qss). split_and!; constructor; try done.
    - unfold is_request. by rewrite Hh, Hz.
    - by rewrite Hz. }
  destruct Hqss as (qss & Hreq & Hok & Hdat).
  destruct (restore_Run_spec config s _ ix malloc_ client conn ready fss qss fuel Hdisk Hcache Hready
    Hreq Hok Hconn Hfuel) as (r' & ans & Hrun' & Hans & Hc').
  exists r', ans. split_and!; try done.
  assert (dss = (λ qs : list request, (req_data qs : list bytes)) <$> qss) as -> by (clear -Hdat; by induction Hdat; csimpl; f_equal).
  by apply answers_served.
Qed.

(** What was uploaded can be restored.  After a session on an empty store whose
    container starts with chunk count zero, and after the writer saved the pushed
    containers, a client that requests any uploaded chunks by their hashes gets
    exactly their bytes, batch by batch, provided the names drawn for the containers
    do not repeat and the hash separates the uploaded chunks. *)
Theorem upload_then_restore config `{AbsDatabaseLaws DB} `{ChunkHashOk hash} `{ChannelLaws C} stk
    (x : session (DB := DB) (C := C)) u fs ms fuel
    malloc_ client (conn : C) ready fss dss fuel' :
  at_state 0 0 [] u fs x → Forall2 is_upload fs ms → (length fs < fuel)%nat → fresh (u_a u) → zero_count (u_a u) →
  NoDup (a_id (u_a u) :: uuids (length (uploaded ms)) (a_g (u_a u))) →
  (∀ d d', d ∈ uploaded ms → d' ∈ uploaded ms → hash d = hash d' → d = d') →
  1 ≤ GetReadCacheSize config < 2 ^ 32 →
  is_message ready (edge_code EDGE_RECEIVE_READY) 0 [] →
  Forall2 (λ f ds, is_message f (edge_code EDGE_DOWNLOAD_CHUNK_READY) (zlen ds) (concat (hash <$> ds))) fss dss →
  Forall (λ ds, ds ⊆ uploaded ms ∧ zlen ds ≤ 256) dss →
  chan conn (ready :: fss) [] → (length fss < fuel')%nat →
  ∃ x' info s' r' ans, DataReceiver.Run config stk fuel x = Ok (x', info) ∧
    save_all config (pushed (_inputMQ (upload (s_client x')))) (s_fs x') = Ok s' ∧
    RecvDecoder.Run config fuel' (s_ix x') (start_restore config malloc_ client conn) s' = Ok r' ∧
    Forall2 served dss ans ∧ cleared (r_conn r') (concat ans).
Proof.
  intros Hx Hms Hfuel Hfresh Hzero Hnames Hinj Hcache Hready Hfss Hdss Hconn Hfuel'.
  pose proof (uploaded_legal _ _ Hms) as Hlegal.
  destruct (upload_Run_spec config stk 0 0 [] x u fs ms fuel Hx Hms Hfuel)
    as (x' & info & Hrun & Hpush & _ & Hix & _ & Hcr & _).
  rewrite u_step_store in Hpush, Hix.
  destruct (saved_disk_ok config hash hash_len [] (u_a u) (uploaded ms) Hfresh Hzero Hlegal Hnames _ (s_fs x') Hpush Hcr)
    as (s' & Hsave & _ & Hdisk & _).
  { split; [by intros ?? ?%elem_of_nil|by intros ???? ?%elem_of_nil|constructor..]. }
  set (gs := [] ++ final_groups _) in Hdisk.
  assert (Hgs : entries_ok hash gs) by (by apply fresh_entries_ok; [..|constructor]).
  assert (Hixf : index_ok (indexStore_ (s_ix x')) gs) by (by apply index_ok_final).
  assert (Hup : ∀ e, e ∈ all_entries gs → e.2 ∈ uploaded ms).
  { intros e He. unfold gs in He. simpl in He. rewrite final_entries, fresh_entries in He by done.
    apply list_elem_of_fmap in He as (d & -> & [? _]%first_new_sound). done. }
  destruct (restore_chunks config hash (s_ix x') gs (uploaded ms) s' malloc_ client conn ready fss dss fuel' Hdisk Hixf Hgs)
    as (r' & ans & Hrun' & Hans & Hc'); [|done..|].
  { intros d Hd. split; [by apply uploaded_stored|]. intros e He. apply Hinj; auto. }
  exists x', info, s', r', ans. by split_and!.
Qed.

(** ** The start of a session *)

(** What the server thread sets up for an upload: a new client object over raw memory,
    and the receiver's counters. *)
Definition start_session {DB C} (ix : AbsIndex DB) (conn : C) (r : ClientVar * fs * rng) : session (DB := DB) (C := C) :=
  let '(c, s, g) := r in
  {| s_ix := ix; s_client := c; s_fs := s; s_rng := g; s_conn := conn;
     batchNum_ := 0; recipeBatchNum_ := 0; recipeEndNum_ := 0 |}.

(** The abstract session that starts on a store holding the groups of others: its
    container is empty, and its chunk count is whatever the object's memory held. *)
Definition start_ustate (config : Configure) (raw : ClientVar) (rp sp kp : bytes) (fsz nch : Z) (s : fs) (g : rng) : ustate :=
  let head := enc_RecipeHead {| fileSize := fsz; totalChunkNum := nch |} in
  {| u_a := {| a_sealed := []; a_id := (CreateUUID CONTAINER_ID_LENGTH g).1;
               a_n0 := chunkNum (_curContainer (upload raw)); a_es := [];
               a_g := (CreateUUID CONTAINER_ID_LENGTH g).2 |};
     u_files := <[sp := head]> (<[kp := head]> (<[rp := head]> (files s)));
     u_rp := rp; u_sp := sp; u_kp := kp; u_answers := [] |}.

Lemma start_at_state config `{AbsDatabaseLaws DB} `{ChannelLaws C} (ix : AbsIndex DB) others c0 s0 (conn : C) fs
    malloc_ raw id rp sp kp fsz nch s g :
  index_ok (indexStore_ ix) others → _uniqueChunkNum ix = u64 c0 → _uniqueDataSize ix = u64 s0 →
  Index.sendChunkBatchSize_ ix = 256 → chan conn fs [] → (∀ p, creatable s p = true) →
  rp ≠ sp → rp ≠ kp → sp ≠ kp → 0 ≤ chunkNum (_curContainer (upload raw)) < 2 ^ 32 →
  ∃ r, new_ClientVar config malloc_ raw id UPLOAD_OPT rp sp kp fsz nch s g = Ok r ∧
    at_state c0 s0 others (start_ustate config raw rp sp kp fsz nch s g) fs (start_session ix conn r).
Proof.
  intros Hix Hnum Hsize Hb Hconn Hc N1 N2 N3 Hn. unfold new_ClientVar, InitUploadBuffer.
  pose proof (zlen_CreateUUID g) as Hid. unfold start_ustate.
  destruct (CreateUUID CONTAINER_ID_LENGTH g) as [cid g']. simpl in *.
  match goal with |- context [open_writers ?c0 s] => destruct (open_writers_spec c0 s) as
    (w & s' & -> & Hcr & Hf & Hr & Hs & Hk); [done..|] end.
  simpl. eexists. split; [done|]. split; simpl; try done.
  - split; simpl; try done; [by apply cont_repr_empty|by apply index_ok_new_group|..].
    + by rewrite Hnum, Z.add_0_r.
    + by rewrite Hsize, Z.add_0_r.
  - by rewrite Hcr.
  - exists []. by split.
Qed.

(** ** The chunk count that is never initialised *)

(** Containers of legal chunks have fewer records than an array can hold. *)
Lemma fine_count hash x : (∀ d, zlen (hash d) = CHUNK_HASH_SIZE) → fine hash x → zlen x.2 < max_records.
Proof.
  intros Hlen (Ht & _ & Hes). unfold total_size in Ht. rewrite zlen_hdr_bytes in Ht.
  - unfold entry_size, max_records in *. sizes. zlia.
  - eapply Forall_impl; [exact Hes|]. intros e [-> _]. apply Hlen.
Qed.

Lemma final_first hash others n0 a ds : (∀ d, zlen (hash d) = CHUNK_HASH_SIZE) →
  a_sealed a = [] → a_es a = [] → a_n0 a = n0 → zlen (a_id a) = CONTAINER_ID_LENGTH →
  Forall (λ d, zlen d ≤ MAX_CHUNK_SIZE) ds → first_new hash (hashes others) ds ≠ [] →
  ∃ x rest, a_final (foldl (a_store hash others) a ds) = x :: rest ∧ x.1.2 = n0 ∧ fine hash x.
Proof.
  intros Hlen E1 E2 E3 E4 Hds Hnew. set (a' := foldl _ _ _).
  destruct (foldl_counts hash others n0 ds a) as (x & rest & E & Hx & _).
  { unfold counts, containers. rewrite E1. simpl. by eexists _, _. }
  pose proof (foldl_fine hash Hlen others ds a) as Hfine. fold a' in E, Hfine.
  unfold all_fine in Hfine. rewrite E in Hfine. destruct (proj1 (Forall_cons _ _ _) (Hfine ltac:(
    unfold containers; rewrite E1, E2; simpl; constructor; [by split_and!; simpl; [..|constructor]|constructor]) Hds)) as [Hfx _].
  unfold a_final. unfold containers in E. destruct (a_sealed a') as [|y l] eqn:Es; simpl in E; injection E as <- <-.
  - rewrite bool_decide_eq_false_2; [simpl; eauto|]. intros Ee.
    assert (Hh : hashes (others ++ a_groups a) = hashes others).
    { unfold hashes, a_groups. rewrite E1, E2, all_entries_app. unfold all_entries at 2. simpl. by rewrite app_nil_r. }
    pose proof (a_store_entries hash others ds a) as He. fold a' in He. rewrite Hh in He. revert He.
    unfold a_groups, all_entries. rewrite Es, Ee, E1, E2. simpl.
    destruct (first_new hash (hashes others) ds); [done|discriminate].
  - simpl. eauto.
Qed.

(** C29: the chunk count of a session's first container is never initialised.  The
    constructor leaves it at whatever the object's memory held; when that is a large
    number, a session over legal messages that stores at least one new chunk ends
    without a fault, and the first container it hands to the writer cannot be restored:
    indexing a buffer the file was loaded into runs past the end of the array. *)
Theorem uninitialised_count config `{AbsDatabaseLaws DB} `{ChunkHashOk hash} `{ChannelLaws C} stk
    (ix : AbsIndex DB) others c0 s0 (conn : C) fs ms fuel malloc_ raw id rp sp kp fsz nch s g :
  index_ok (indexStore_ ix) others → _uniqueChunkNum ix = u64 c0 → _uniqueDataSize ix = u64 s0 →
  Index.sendChunkBatchSize_ ix = 256 → chan conn fs [] → (∀ p, creatable s p = true) →
  rp ≠ sp → rp ≠ kp → sp ≠ kp →
  max_records ≤ chunkNum (_curContainer (upload raw)) < 2 ^ 32 - max_records →
  Forall2 is_upload fs ms → (length fs < fuel)%nat →
  (∃ d, d ∈ uploaded ms ∧ hash d ∉ hashes others) →
  ∃ r x' info c cs, new_ClientVar config malloc_ raw id UPLOAD_OPT rp sp kp fsz nch s g = Ok r ∧
    DataReceiver.Run config stk fuel (start_session ix conn r) = Ok (x', info) ∧
    pushed (_inputMQ (upload (s_client x'))) = c :: cs ∧
    ∀ b m, bread b 0 (c_currentSize c) = image c → index_container b m = Err UB.
Proof.
  intros Hix Hnum Hsize Hb Hconn Hc N1 N2 N3 Hn Hms Hfuel (d & Hd & Hnd).
  destruct (start_at_state config ix others c0 s0 conn fs malloc_ raw id rp sp kp fsz nch s g) as (r & Hr & Hst);
    [try done..|unfold max_records in Hn; lia|].
  destruct (upload_Run_spec config stk c0 s0 others _ _ fs ms fuel Hst Hms Hfuel)
    as (x' & info & Hrun & Hpush & _).
  rewrite u_step_store in Hpush. pose proof (zlen_CreateUUID g) as Hid.
  destruct (final_first hash others (chunkNum (_curContainer (upload raw)))
    (u_a (start_ustate config raw rp sp kp fsz nch s g)) (uploaded ms)) as (x & rest & E & Hx & Hfine);
    [apply hash_len|done..|by eapply uploaded_legal| |].
  { destruct (first_new_complete hash (hashes others) (uploaded ms) d Hd) as [?|(d' & Hd' & _)]; [done|].
    intros E. rewrite E in Hd'. by apply elem_of_nil in Hd'. }
  rewrite E in Hpush. apply Forall2_cons_inv_l in Hpush as (c & cs & (_ & Hcs & Himg) & _ & Hp).
  exists r, x', info, c, cs. split_and!; [done..|]. intros b m Hbm.
  pose proof (fine_count hash x hash_len Hfine) as Hcnt. pose proof (zlen_nonneg x.2).
  rewrite Himg in Hbm. unfold file_image in Hbm. rewrite Hx in Hbm.
  apply (index_container_overruns b (chunkNum (_curContainer (upload raw)) + zlen x.2));
    [unfold max_records in *; lia|].
  rewrite u32_small in Hbm by (unfold max_records in *; lia).
  apply (bread_prefix b 0 (be32 _) (hdr_bytes 0 x.2 ++ data_bytes x.2)). rewrite <- Hbm at 2. f_equal.
  rewrite <- Hbm, zlen_bread; [done|]. rewrite Hcs. pose proof (total_size_ge x.2). lia.
Qed.

(** Names that are drawn have the length of a container name. *)
Lemma uuids_len k g : Forall (λ n, zlen n = CONTAINER_ID_LENGTH) (uuids k g).
Proof.
  revert g. induction k as [|k IH]; intros g; simpl; [constructor|].
  pose proof (zlen_CreateUUID g) as Hl. destruct (CreateUUID CONTAINER_ID_LENGTH g) as [id g']. by constructor.
Qed.

(** C33: a client cannot restore what another one is still uploading.  The index maps a
    chunk to its container as soon as the batch is processed, but the container is
    written to the disk only when it is full or the upload ends.  A restore session
    whose first request starts with the hash of a new chunk of the batch, while none of
    the upload's containers is on the disk, ends the whole server with an exit status,
    whatever else is requested. *)
Theorem unsaved_chunk_exits config `{AbsDatabaseLaws DB} `{ChunkHashOk hash} `{ChannelLaws C} stk c0 s0 others a
    (ix : AbsIndex DB) u g ds :
  repr c0 s0 others a ix u g → buf_ok ix u → holds_batch u ds →
  Forall (λ x, zlen x.1 = CONTAINER_ID_LENGTH) (others ++ a_groups a) →
  ∃ ix' u' g' a', ProcessOneBatch stk ix u g = Ok (ix', u', g') ∧ repr c0 s0 others a' ix' u' g' ∧
    ∀ s malloc_ client (conn : C) ready f fss d hs fuel,
      (∀ x, x ∈ a_groups a' → is_regular_file s (container_path config x.1) = false) →
      d ∈ ds → hash d ∉ hashes others →
      1 ≤ GetReadCacheSize config < 2 ^ 32 → is_message ready (edge_code EDGE_RECEIVE_READY) 0 [] →
      is_message f (edge_code EDGE_DOWNLOAD_CHUNK_READY) (zlen (hash d :: hs)) (concat (hash d :: hs)) →
      zlen (hash d :: hs) ≤ 256 → Forall (λ h, zlen h = CHUNK_HASH_SIZE) hs →
      chan conn (ready :: f :: fss) [] → (0 < fuel)%nat →
      RecvDecoder.Run config fuel ix' (start_restore config malloc_ client conn) s = Err EXIT_FAILURE.
Proof.
  intros Hrep Hb Hds Hlen. destruct (ProcessOneBatch_repr stk c0 s0 others a ix u g ds Hrep Hb Hds)
    as (ix' & u' & g' & -> & Hrep' & _). eexists _, _, _, _. split; [done|]. split; [exact Hrep'|].
  set (a' := foldl (a_store hash others) a ds) in *. pose proof (rp_index _ _ _ _ _ _ _ Hrep') as Hix.
  assert (Hn8 : ∀ h n, stored (indexStore_ ix') h = Some n → zlen n = CONTAINER_ID_LENGTH).
  { intros h n (es & Hin & _)%Hix. destruct (foldl_names hash others ds a) as (k & _ & Hnm & _). fold a' in Hnm.
    apply Forall_app in Hlen as [Ho Ha]. apply elem_of_app in Hin as [Hin|Hin].
    - by apply (proj1 (Forall_forall _ _) Ho (n, es)).
    - assert (Hn : n ∈ (a_groups a').*1) by (apply list_elem_of_fmap; by exists (n, es)). rewrite Hnm in Hn.
      apply elem_of_app in Hn as [(x & -> & Hx)%list_elem_of_fmap|Hn].
      + by apply (proj1 (Forall_forall _ _) Ha).
      + by apply (proj1 (Forall_forall _ _) (uuids_len k (a_g a))). }
  intros s malloc_ client conn ready f fss d hs fuel Hno Hd Hnew Hrc Hready Hf Hmax Hhs Hc Hfuel.
  assert (Hst : hash d ∈ hashes (others ++ a_groups a')).
  { unfold hashes, a'. rewrite all_entries_app, a_store_entries, app_assoc, fmap_app, <- all_entries_app.
    apply elem_of_app. destruct (first_new_complete hash (hashes (others ++ a_groups a)) ds d Hd) as [|(d' & Hin & E)]; [by left|].
    right. rewrite <- list_fmap_compose. apply list_elem_of_fmap. by exists d'. }
  apply elem_of_hashes in Hst as (n & es & Hin & Hh).
  eapply (missing_Run_spec config s ix' Hn8 malloc_ client conn ready f fss (hash d) hs fuel); try done.
  - by constructor; [apply hash_len|].
  - assert (stored (indexStore_ ix') (hash d) = Some n) as E by (apply Hix; eauto).
    unfold entry_container. rewrite E. apply (Hno (n, es)). apply elem_of_app in Hin as [Hin|Hin]; [|done]. exfalso. apply Hnew.
    apply elem_of_hashes. eauto.
Qed.

(** ** Concrete sessions *)

Definition sample_wanted : list bytes := [[5; 5]; [1; 2; 3]].
Definition sample_ready : bytes := sample_frame (edge_code EDGE_RECEIVE_READY) 0 [].
Definition sample_request : bytes :=
  sample_frame (edge_code EDGE_DOWNLOAD_CHUNK_READY) 2 (concat (Toy.digest SHA_256 <$> sample_wanted)).

Lemma upload_then_restore_witness :
  ∃ x' info s' r' ans,
    DataReceiver.Run (H0 := sample_hash) sample_config zero_buf 5 (sample_session 0 sample_frames) = Ok (x', info) ∧
    save_all sample_config (pushed (_inputMQ (upload (s_client x')))) (s_fs x') = Ok s' ∧
    RecvDecoder.Run sample_config 2 (s_ix x')
      (start_restore sample_config (λ _, zero_buf) (raw_client 0) (([sample_ready; sample_request], []) : ListChannel.t)) s' = Ok r' ∧
    Forall2 served [sample_wanted] ans ∧ cleared (r_conn r') (concat ans).
Proof.
  apply (upload_then_restore (hash := Toy.digest SHA_256) sample_config zero_buf (sample_session 0 sample_frames)
           (sample_ustate 0) sample_frames sample_msgs 5 (λ _, zero_buf) (raw_client 0)
           (([sample_ready; sample_request], []) : ListChannel.t) sample_ready [sample_request] [sample_wanted]).
  - by apply sample_at_state.
  - exact sample_uploads.
  - simpl. lia.
  - by split_and!.
  - done.
  - apply (bool_decide_unpack _). by vm_compute.
  - intros d d' Hd Hd'. repeat (apply elem_of_cons in Hd as [->|Hd];
      [repeat (apply elem_of_cons in Hd' as [->|Hd']; [by vm_compute|]); by apply elem_of_nil in Hd'|]).
    by apply elem_of_nil in Hd.
  - done.
  - apply sample_frame_ok.
  - constructor; [|constructor]. apply sample_frame_ok.
  - constructor; [|constructor]. split; [set_solver|by vm_compute].
  - done.
  - simpl. lia.
Defined.

Lemma uninitialised_count_witness :
  ∃ r x' info c cs, new_ClientVar sample_config (λ _, zero_buf) (raw_client 3000000000) 1 UPLOAD_OPT [1] [2] [3] 8 3
      InMemory.empty_fs sample_rng = Ok r ∧
    DataReceiver.Run (H0 := sample_hash) sample_config zero_buf 5
      (start_session sample_ix ((sample_frames, []) : ListChannel.t) r) = Ok (x', info) ∧
    pushed (_inputMQ (upload (s_client x'))) = c :: cs ∧
    ∀ b m, bread b 0 (c_currentSize c) = image c → index_container b m = Err UB.
Proof.
  apply (uninitialised_count (hash := Toy.digest SHA_256) sample_config zero_buf sample_ix [] 0 0
           ((sample_frames, []) : ListChannel.t) sample_frames sample_msgs); try done.
  - intros h n. rewrite InMemory.stored_lookup. simpl. rewrite lookup_empty. split; [done|].
    intros (es & Hin & _). by apply elem_of_nil in Hin.
  - exact sample_uploads.
  - simpl. lia.
  - exists [4]. split; [set_solver|apply not_elem_of_nil].
Defined.

(** Another client asks for a chunk of the batch before the writer has saved it. *)
Lemma unsaved_chunk_exits_witness :
  ∃ ix' u' g', ProcessOneBatch (H0 := sample_hash) zero_buf sample_ix sample_u sample_rng = Ok (ix', u', g') ∧
    RecvDecoder.Run sample_config 2 ix' (start_restore sample_config (λ _, zero_buf) (raw_client 0)
      (([sample_ready; sample_frame (edge_code EDGE_DOWNLOAD_CHUNK_READY) 1 (concat [Toy.digest SHA_256 [4]])], []) : ListChannel.t))
      InMemory.empty_fs = Err EXIT_FAILURE.
Proof.
  destruct (unsaved_chunk_exits (H1 := sample_hash) (hash := Toy.digest SHA_256) sample_config (C := ListChannel.t)
    zero_buf 0 0 [] sample_a sample_ix sample_u sample_rng sample_chunks) as (ix' & u' & g' & a' & E & _ & Hrun).
  - exact sample_repr.
  - by split.
  - exact sample_holds.
  - by repeat constructor.
  - exists ix', u', g'. split; [exact E|]. clear E.
    apply (Hrun InMemory.empty_fs (λ _, zero_buf) (raw_client 0) _ sample_ready
      (sample_frame (edge_code EDGE_DOWNLOAD_CHUNK_READY) 1 (concat [Toy.digest SHA_256 [4]])) [] [4] [] 2%nat).
    + intros x _. unfold is_regular_file. by apply bool_decide_eq_false_2; intros [].
    + right. left.
    + apply not_elem_of_nil.
    + by vm_compute.
    + apply sample_frame_ok.
    + apply sample_frame_ok.
    + by vm_compute.
    + constructor.
    + reflexivity.
    + lia.
Defined.
