(* ===== verification/ConcurrentRestore.v ===== *)
(** * Concurrent uploads and the restore of what they stored

    The uploads of [IndexThreads] are ended, the containers they handed to their writers
    are saved, in any order, and a client restores chunks of any of them.  The invariant
    that is added here is about the containers: their sizes and chunk counts, and their
    names, which all uploads draw from the one sequence of [rand()]. *)
From Stdlib Require Import ZArith Lia.
From stdpp Require Import base tactics numbers list gmap.
From S2P Require Import Prelude Common FileSystem Crypto ClientVar Storage Database Index IndexThreads.
From S2P Require Import DataWriter SslConn RecvDecoder DataReceiver EndToEnd.
#[local] Open Scope Z_scope.

(** The chunks the clients have sent. *)
Definition sent (log : list (nat * list bytes)) : list bytes := log ≫= snd.

Section Tidy.
Context (hash : bytes → bytes) (Hlen : ∀ d, zlen (hash d) = CHUNK_HASH_SIZE) (others : list group)
  (names : list bytes) (g0 : rng).
Implicit Types (aa : list astate) (g : rng).

(** All containers are fine and count from 0; their names are the initial ones and the
    draws so far, not more than there are chunks. *)
Record tidy aa g : Prop := {
  td_fine : Forall (λ a, Forall (λ x, fine hash x ∧ x.1.2 = 0) (containers a)) aa;
  td_names : ∃ k, (k ≤ length (all_entries (all_groups aa)))%nat ∧
    (all_groups aa).*1 ≡ₚ names ++ uuids k g0 ∧ ∀ n, uuids (k + n) g0 = uuids k g0 ++ uuids n g }.

Lemma a_store_zero o a d : Forall (λ x, x.1.2 = 0) (containers a) → Forall (λ x, x.1.2 = 0) (containers (a_store hash o a d)).
Proof.
  unfold a_store. case_bool_decide; [done|]. unfold a_place, containers. intros Ha.
  pose proof Ha as [Hs Hc]%Forall_app. apply Forall_cons in Hc as [Hc _]. simpl in Hc.
  destruct (_ <? _); simpl; [apply Forall_app; by repeat constructor|].
  destruct (CreateUUID _ _) as [id g]. simpl. apply Forall_app. split; [done|]. by repeat constructor.
Qed.

Lemma tidy_store i aa a g d : aa !! i = Some a → zlen d ≤ MAX_CHUNK_SIZE → tidy aa g →
  let a' := a_store hash (outside others i aa) (with_supply g a) d in tidy (<[i := a']> aa) (a_g a').
Proof.
  intros Ha Hd [Hf (k & Hk & Hn & Hu)] a'. pose proof (lookup_lt_Some _ _ _ Ha) as Hi.
  pose proof (without_perm i aa a Ha) as P1.
  pose proof (without_perm i (<[i := a']> aa) a' (list_lookup_insert_eq _ _ _ Hi)) as P2. rewrite without_insert in P2 by done.
  split.
  - apply Forall_insert; [done|]. pose proof (Forall_lookup_1 _ _ _ _ Hf Ha) as [H1 H2]%Forall_and.
    apply Forall_and. split; [by apply a_store_fine|by apply a_store_zero].
  - destruct (a_store_names hash (outside others i aa) (with_supply g a) d) as (k1 & _ & Hk1 & Hn1 & Hu1).
    fold a' in Hk1, Hn1, Hu1. change (a_groups (with_supply g a)) with (a_groups a) in Hk1, Hn1.
    change (a_g (with_supply g a)) with g in Hn1, Hu1. exists (k + k1)%nat. split_and!.
    + rewrite (entries_perm _ _ P1), all_entries_app, length_app in Hk.
      rewrite (entries_perm _ _ P2), all_entries_app, length_app. lia.
    + rewrite Hu, P2, fmap_app, Hn1, !app_assoc, <- fmap_app, <- P1. by rewrite Hn.
    + intros n. by rewrite <- Nat.add_assoc, Hu, Hu1, app_assoc, <- Hu.
Qed.

(** Uploads that have not stored anything. *)
Lemma fresh_tidy aa : Forall fresh aa → Forall zero_count aa → names = a_id <$> aa → tidy aa g0.
Proof.
  intros Hfr Hz En. split.
  - assert (Hboth : Forall (λ a, fresh a ∧ zero_count a) aa) by (by apply Forall_and).
    eapply Forall_impl; [exact Hboth|]. intros a [(E1 & E2 & E4) E3]. unfold containers. rewrite E1, E2. simpl.
    constructor; [|constructor]. split; [|done]. unfold fine. simpl. by split_and!; [..|constructor].
  - exists 0%nat. simpl. split_and!; [lia| |done]. rewrite app_nil_r, En. clear En Hz.
    induction Hfr as [|a aa (E1 & E2 & _) _ IH]; [reflexivity|].
    unfold all_groups in *. rewrite bind_cons, fmap_app, IH. unfold a_groups. by rewrite E1.
Qed.

(** What the uploads leave when they end. *)
Definition all_final aa : list (bytes * Z * list entry) := aa ≫= a_final.

Lemma all_final_groups aa : groups_of (all_final aa) = aa ≫= final_groups.
Proof. unfold groups_of, all_final. induction aa as [|a aa IH]; [done|]. by rewrite !bind_cons, fmap_app, IH. Qed.

Lemma all_final_entries aa : all_entries (groups_of (all_final aa)) = all_entries (all_groups aa).
Proof.
  rewrite all_final_groups. unfold all_groups. induction aa as [|a aa IH]; [done|].
  by rewrite !bind_cons, !all_entries_app, IH, final_entries.
Qed.

Lemma all_final_names aa : (groups_of (all_final aa)).*1 `sublist_of` (all_groups aa).*1.
Proof.
  rewrite all_final_groups. unfold all_groups. induction aa as [|a aa IH]; [done|].
  rewrite !bind_cons, !fmap_app. apply sublist_app; [apply final_groups_names|done].
Qed.

Lemma all_final_fine aa g : tidy aa g → Forall (λ x, fine hash x ∧ x.1.2 = 0) (all_final aa).
Proof.
  intros [Hf _]. unfold all_final. induction Hf as [|a aa Ha _ IH]; [constructor|].
  rewrite bind_cons. apply Forall_app. split; [|done]. unfold containers in Ha. apply Forall_app in Ha as [H1 H2].
  unfold a_final. apply Forall_app. split; [done|]. by case_bool_decide.
Qed.

Lemma all_final_index `{AbsDatabase DB} (db : DB) aa :
  index_ok db (others ++ all_groups aa) → index_ok db (others ++ groups_of (all_final aa)).
Proof.
  rewrite all_final_groups. apply index_ok_nonempty.
  - intros x. rewrite !elem_of_app. intros [?|(a & Hx & Ha)%list_elem_of_bind]; [by left|right].
    apply list_elem_of_bind. exists a. split; [by apply final_groups_sub|done].
  - intros n es h. rewrite !elem_of_app. intros [?|(a & Hx & Ha)%list_elem_of_bind] Hh; [by left|right].
    apply list_elem_of_bind. exists a. split; [by eapply final_groups_in|done].
Qed.

(** Distinct chunks, and therefore names, come from the chunks that were sent. *)
Lemma tidy_names_NoDup aa g cs : tidy aa g → NoDup (hashes (all_groups aa)) →
  (∀ h, h ∈ hashes (all_groups aa) → h ∈ hash <$> cs) →
  NoDup (others.*1 ++ names ++ uuids (length cs) g0) → NoDup ((others ++ groups_of (all_final aa)).*1).
Proof.
  intros [_ (k & Hk & Hn & Hu)] Hnd Hsub Hnames.
  assert (Hle : (k ≤ length cs)%nat).
  { pose proof (submseteq_length _ _ (NoDup_submseteq _ _ Hnd Hsub)) as Hl. unfold hashes in Hl. rewrite !length_fmap in Hl. lia. }
  specialize (Hu (length cs - k)%nat). replace (k + (length cs - k))%nat with (length cs) in Hu by lia.
  rewrite Hu, !app_assoc in Hnames. apply NoDup_app in Hnames as [Hnames _]. rewrite <- app_assoc, <- Hn in Hnames.
  rewrite fmap_app. eapply sublist_NoDup; [exact Hnames|]. apply sublist_app; [done|apply all_final_names].
Qed.
End Tidy.

Section Theorems.
Context (config : Configure) `{AbsDatabaseLaws DB} `{ChunkHashOk hash} `{ChannelLaws C} (stk : buf)
  (c0 s0 : Z) (others : list group).
Implicit Types (aa : list astate).

(** The last containers of the threads. *)
Lemma last_containers aa (ts : list thread) : Forall2 thread_repr aa ts →
  ∃ us, Forall2 (λ t u, last_container stk (t_u t) = Ok u) ts us ∧
    Forall2 sealed_as (all_final aa) (us ≫= λ u, pushed (_inputMQ u)).
Proof.
  induction 1 as [|a t aa ts [Hc Hid Hs] _ (us & Hus & Hse)]; [by exists []; repeat constructor|].
  destruct (last_container_spec stk a (t_u t) Hc Hid Hs) as (u & Hu & Hp & _).
  exists (u :: us). split; [by constructor|]. unfold all_final. rewrite !bind_cons. by apply Forall2_app.
Qed.

(** Saving the containers in any order. *)
Lemma groups_of_perm xs xs' : xs ≡ₚ xs' → groups_of xs ≡ₚ groups_of xs'.
Proof. intros Hp. unfold groups_of. by rewrite Hp. Qed.

Lemma save_any_order xs cs cs' s : Forall2 sealed_as xs cs' → cs ≡ₚ cs' → Forall (λ x, fine hash x ∧ x.1.2 = 0) xs →
  (∀ p, creatable s p = true) → NoDup ((others ++ groups_of xs).*1) → NoDup (hashes (others ++ groups_of xs)) →
  disk_ok config s others →
  ∃ s' gs, save_all config cs s = Ok s' ∧ gs ≡ₚ others ++ groups_of xs ∧ disk_ok config s' gs.
Proof.
  intros Hse Hp Hf Hc Hn Hh Hold. symmetry in Hp.
  destruct (Permutation_Forall2 Hp (proj2 (Forall2_flip _ _ _) Hse)) as (xs' & Hxs & Hse'%Forall2_flip).
  assert (Hg : others ++ groups_of xs ≡ₚ others ++ groups_of xs') by (by apply Permutation_app_head, groups_of_perm).
  destruct (save_fine config hash others xs' cs s hash_len Hse') as (s' & E & _ & Hd & _); [|done|..|done|].
  - by rewrite <- Hxs.
  - by rewrite <- Hg.
  - by rewrite <- (hashes_perm _ _ Hg).
  - exists s', (others ++ groups_of xs'). by split_and!.
Qed.

(** C3: what was uploaded by several clients at the same time can be restored.  Uploads
    that have stored nothing yet share the index and take turns in any order; when all of
    them are done with their batches, each hands its last container to its writer without
    a fault, and the writers save the containers in any order.  From then on a client that
    requests chunks of any of the uploads by their hashes, at most 256 in a batch, gets
    exactly their bytes, batch by batch.  The provisos: the chunk count of each upload's
    first container, which the constructor never initialises (clientVar.cc:90), happened to
    be zero in its memory ([zero_count]; [EndToEnd.uninitialised_count] shows the restore
    fail otherwise); the names drawn for the containers do not repeat, nor those of the
    containers there were; the containers' files can be created; and the hash separates
    the chunks that were sent, and those stored before. *)
Theorem concurrent_uploads_restored aa (s s' : uploads DB) log disk : started c0 s0 others aa s →
  Forall fresh aa → Forall zero_count aa →
  NoDup (others.*1 ++ (a_id <$> aa) ++ uuids (length (sent log)) (g_rng s)) →
  disk_ok config disk others → entries_ok hash others → (∀ p, creatable disk p = true) →
  reached stk s log s' → (∀ i, step stk i s' = None) →
  (∀ d d', d ∈ (all_entries others).*2 ++ sent log → d' ∈ sent log → hash d = hash d' → d = d') →
  1 ≤ GetReadCacheSize config < 2 ^ 32 →
  ∃ us, Forall2 (λ t u, last_container stk (t_u t) = Ok u) (g_threads s') us ∧
    ∀ cs, cs ≡ₚ us ≫= (λ u, pushed (_inputMQ u)) → ∃ disk', save_all config cs disk = Ok disk' ∧
      ∀ malloc_ client (conn : C) ready fss dss fuel,
        is_message ready (edge_code EDGE_RECEIVE_READY) 0 [] →
        Forall2 (λ f ds, is_message f (edge_code EDGE_DOWNLOAD_CHUNK_READY) (zlen ds) (concat (hash <$> ds))) fss dss →
        Forall (λ ds, ds ⊆ sent log ∧ zlen ds ≤ 256) dss →
        chan conn (ready :: fss) [] → (length fss < fuel)%nat →
        ∃ r' ans, RecvDecoder.Run config fuel (g_ix s') (start_restore config malloc_ client conn) disk' = Ok r' ∧
          Forall2 served dss ans ∧ cleared (r_conn r') (concat ans).
Proof.
  intros H0s Hfresh Hzero Hnames Hold Hoe Hcr Hr Hno Hinj Hcache.
  pose proof (fresh_tidy hash _ (g_rng s) aa Hfresh Hzero eq_refl) as Htidy.
  pose proof (tidy_store hash hash_len others (a_id <$> aa) (g_rng s)) as Hkeep.
  destruct (finished stk c0 s0 others _ Hkeep aa s log s' H0s Htidy Hr) as [_ Hfin].
  destruct (Hfin Hno) as [Hlock Hidle].
  destruct (interleaved stk c0 s0 others _ Hkeep aa s log s' H0s Htidy Hr) as [_ Hq].
  destruct (Hq Hlock) as (aa' & Ht & Hts & Hix & Hnd & Hsound & Hstored & _). clear Hq Hfin.
  assert (Hsnt : ∀ e, e ∈ all_entries (all_groups aa') → e.1 = hash e.2 ∧ e.2 ∈ sent log).
  { intros e (E & i & ds & Hin & Hd)%Hsound. split; [done|]. apply list_elem_of_bind. by exists (i, ds). }
  assert (Hall : ∀ d, d ∈ sent log → hash d ∈ hashes (others ++ all_groups aa')).
  { intros d ([i ds] & Hd & Hin)%list_elem_of_bind. apply (Hstored i ds d Hin Hd). intros t.
    by apply (Forall_lookup_1 _ _ _ _ Hidle). }
  clear Hsound Hstored. destruct (last_containers aa' _ Hts) as (us & Hus & Hse). exists us. split; [exact Hus|]. intros cs Hcs.
  set (xs := all_final aa') in *.
  assert (Hents : all_entries (others ++ groups_of xs) = all_entries (others ++ all_groups aa')).
  { unfold xs. by rewrite !all_entries_app, all_final_entries. }
  assert (Hh : NoDup (hashes (others ++ groups_of xs))) by (unfold hashes; by rewrite Hents).
  assert (Hn : NoDup ((others ++ groups_of xs).*1)).
  { eapply (tidy_names_NoDup hash others _ _ aa' _ (sent log) Ht); [|..|exact Hnames].
    - rewrite hashes_app in Hnd. by apply NoDup_app in Hnd as (_ & _ & ?).
    - intros h (e & -> & [-> Hd]%Hsnt)%list_elem_of_fmap. apply list_elem_of_fmap. eauto. }
  destruct (save_any_order xs cs _ disk Hse Hcs (all_final_fine _ _ _ _ _ Ht) Hcr Hn Hh Hold) as (disk' & gs & E & Hgs & Hdisk).
  exists disk'. split; [exact E|]. intros malloc_ client conn ready fss dss fuel Hready Hfss Hdss Hconn Hfuel.
  pose proof (entries_perm _ _ Hgs) as Hep. rewrite Hents, all_entries_app in Hep.
  apply (restore_chunks config hash (g_ix s') gs (sent log) disk' malloc_ client conn ready fss dss fuel); try done.
  - eapply index_ok_perm; [symmetry; exact Hgs|]. by apply all_final_index.
  - unfold entries_ok. rewrite Hep. apply Forall_app. split; [done|]. apply Forall_forall. by intros e [? _]%Hsnt.
  - intros d Hd. split; [unfold hashes; rewrite Hep, <- all_entries_app; by apply Hall|].
    intros e. rewrite Hep. intros He Heq. apply Hinj; [|done|done]. apply elem_of_app.
    apply elem_of_app in He as [He|[_ ?]%Hsnt]; [left|by right]. apply list_elem_of_fmap. eauto.
Qed.
End Theorems.

(** ** The two uploads of [IndexThreads], and a client that wants a chunk of each *)

Lemma sample_finished i : step (H0 := sample_hash) zero_buf i (sample_after 60) = None.
Proof.
  destruct i as [|[|i]]; [by vm_compute..|].
  assert (Hl : length (g_threads (sample_after 60)) = 2%nat) by (by vm_compute).
  unfold step. by rewrite (lookup_ge_None_2 (g_threads (sample_after 60))) by (rewrite Hl; lia).
Defined.

Definition sample_both : list bytes := [[9; 9]; [1; 2; 3]].
Definition sample_both_request : bytes :=
  sample_frame (edge_code EDGE_DOWNLOAD_CHUNK_READY) 2 (concat (Toy.digest SHA_256 <$> sample_both)).

Lemma concurrent_uploads_restored_witness :
  ∃ us, Forall2 (λ t u, last_container zero_buf (t_u t) = Ok u) (g_threads (sample_after 60)) us ∧
    ∃ disk', save_all sample_config (us ≫= λ u, pushed (_inputMQ u)) InMemory.empty_fs = Ok disk' ∧
    ∃ r' ans, RecvDecoder.Run sample_config 2 (g_ix (sample_after 60))
        (start_restore sample_config (λ _, zero_buf) (raw_client 0) (([sample_ready; sample_both_request], []) : ListChannel.t)) disk' = Ok r' ∧
      Forall2 served [sample_both] ans ∧ cleared (r_conn r') (concat ans).
Proof.
  destruct (concurrent_uploads_restored (H1 := sample_hash) (hash := Toy.digest SHA_256) (C := ListChannel.t) sample_config zero_buf 0 0 []
    sample_aa IndexThreads.sample_uploads (sample_after 60) sample_log InMemory.empty_fs) as (us & Hus & Hall).
  - exact sample_started.
  - by repeat constructor.
  - by repeat constructor.
  - apply (bool_decide_unpack _). by vm_compute.
  - split; [by intros ?? ?%elem_of_nil|by intros ???? ?%elem_of_nil|constructor..].
  - constructor.
  - done.
  - apply sample_reached. by vm_compute.
  - exact sample_finished.
  - intros d d' Hd Hd'. repeat (apply elem_of_cons in Hd as [->|Hd];
      [repeat (apply elem_of_cons in Hd' as [->|Hd']; [by vm_compute|]); by apply elem_of_nil in Hd'|]).
    by apply elem_of_nil in Hd.
  - by vm_compute.
  - exists us. split; [exact Hus|]. clear Hus.
    destruct (Hall (us ≫= λ u, pushed (_inputMQ u)) (reflexivity _)) as (disk' & E & Hrun). exists disk'. split; [exact E|].
    apply (Hrun (λ _, zero_buf) (raw_client 0) _ sample_ready [sample_both_request] [sample_both] 2%nat).
    + apply sample_frame_ok.
    + constructor; [|constructor]. apply sample_frame_ok.
    + constructor; [|constructor]. split; [|by vm_compute].
      intros d Hd. repeat (apply elem_of_cons in Hd as [->|Hd]; [apply (bool_decide_unpack _); by vm_compute|]). by apply elem_of_nil in Hd.
    + reflexivity.
    + simpl. lia.
Defined.
