(* ===== verification/RecipeSender.v ===== *)
(** * Sending recipes (src/Server/recipeSender.cc)

    The three recipe files of a stored file go to the client in batches, each
    acknowledged with a ready message, through the one buffer that also receives the
    acknowledgements. *)
From Stdlib Require Import ZArith Lia.
From stdpp Require Import base tactics numbers list gmap.
From S2P Require Import Prelude Common FileSystem ClientVar Database SslConn.
#[local] Open Scope Z_scope.

Section RecipeSender.
Context (config : Configure) `{Channel C}.

(** The acknowledgement of the client. *)
Definition receive_ready (m : SendMsgBuffer_t) (c : C) : result (SendMsgBuffer_t * C) :=
  '(ok, _, m, c) ← ReceiveData c m;
  check ok EXIT_FAILURE ;;
  check (messageType m =? edge_code EDGE_RECEIVE_READY) EXIT_FAILURE ;;
  Ok (m, c).

(** The header and [dataSize] bytes. *)
Definition send_batch (m : SendMsgBuffer_t) (c : C) : result C :=
  check (sizeof_NetworkHead_t + dataSize m <=? bufCap m) UB ;;
  '(ok, c) ← SendData c (bread (sendBuffer m) 0 (sizeof_NetworkHead_t + dataSize m));
  check ok EXIT_FAILURE ;;
  Ok c.

(** One of the three loops: [type] is the message type of its batches, [h] its stream;
    [fuel] bounds the number of rounds. *)
Fixpoint send_recipe (fuel : nat) (type : EDGE_PROTCOL_CODE_SET) (h : ifstream) (m : SendMsgBuffer_t) (c : C)
    (s : fs) : result (ifstream * SendMsgBuffer_t * C) :=
  match fuel with
  | O => Err UB
  | S fuel =>
      let '(got, h) := if_read (sizeof_RecipeEntry_t * GetSendRecipeBatchSize config) h s in
      m ← data_write m 0 got;
      let readCnt := zlen got in
      let end_ := if_eof h in
      let recipeEntryNum := readCnt / sizeof_RecipeEntry_t in
      if readCnt =? 0 then Ok (h, m, c)
      else
        let m := set_currentItemNum (u32 recipeEntryNum) m in
        let m := set_dataSize (u32 readCnt) m in
        let m := set_messageType (edge_code type) m in
        c ← send_batch m c;
        '(m, c) ← receive_ready m c;
        if end_ then Ok (h, m, c) else send_recipe fuel type h m c s
  end.

(** [Run], with the recipe head already taken from the first stream by the login.  The
    connection is cleared if the client closes it after the last message; a client that
    sends something instead is left with its connection open. *)
Definition Run (fuel : nat) (client : ClientVar) (c : C) (s : fs) : result (ClientVar * C) :=
  let rd := read_handlers client in
  '(m, c) ← receive_ready (_sendRecipeBuf client) c;
  '(plain, m, c) ← send_recipe fuel CLOUD_SEND_RECIPE (_recipeReadHandler rd) m c s;
  let '(_, secure) := if_read sizeof_FileRecipeHead_t (_secureRecipeReadHandler rd) s in
  '(secure, m, c) ← send_recipe fuel CLOUD_SEND_SECURE_RECIPE secure m c s;
  let '(_, key) := if_read sizeof_FileRecipeHead_t (_keyRecipeReadHandler rd) s in
  '(key, m, c) ← send_recipe fuel CLOUD_SEND_KEY_RECIPE key m c s;
  let m := set_messageType (edge_code CLOUD_SEND_RECIPE_END) (set_dataSize 0 (set_currentItemNum 0 m)) in
  '(ok, c) ← SendData c (bread (sendBuffer m) 0 sizeof_NetworkHead_t);
  check ok EXIT_FAILURE ;;
  '(ok, _, m, c) ← ReceiveData c m;
  let c := if negb ok then ClearAcceptedClientSd c else c in
  Ok (with_sendRecipeBuf m (with_readers {| _recipeReadHandler := plain; _secureRecipeReadHandler := secure;
                                            _keyRecipeReadHandler := key |} client), c).
End RecipeSender.

(** ** Lemmas: batches *)

Fixpoint chunks (fuel n : nat) (l : bytes) : list bytes :=
  match fuel with
  | O => []
  | S fuel => match l with [] => [] | _ => take n l :: chunks fuel n (drop n l) end
  end.
(** A byte string cut into pieces of [n] bytes, the last one as long as it is. *)
Definition batches (n : nat) (l : bytes) : list bytes := chunks (length l) n l.

Lemma chunks_fuel fuel n l : (0 < n)%nat → (length l ≤ fuel)%nat → chunks fuel n l = batches n l.
Proof.
  intros Hn. unfold batches. assert (H : ∀ f g l, (length l ≤ f)%nat → (length l ≤ g)%nat → chunks f n l = chunks g n l).
  { clear l fuel. induction f as [|f IH]; intros g l Hf Hg; [destruct l; [by destruct g|simpl in Hf; lia]|].
    destruct l as [|x l]; [by destruct g|]. destruct g as [|g]; [simpl in Hg; lia|]. cbn [chunks]. f_equal.
    apply IH; rewrite length_drop; simpl in *; lia. }
  intros Hl. by apply H.
Qed.
Lemma batches_cons n l : (0 < n)%nat → l ≠ [] → batches n l = take n l :: batches n (drop n l).
Proof.
  intros Hn Hl. destruct l as [|x l]; [done|]. unfold batches at 1. cbn [length chunks]. f_equal.
  apply chunks_fuel; [done|]. rewrite length_drop. simpl. lia.
Qed.
Lemma batches_ind (n : nat) (P : bytes → Prop) : (0 < n)%nat → P [] → (∀ l, l ≠ [] → P (drop n l) → P l) → ∀ l, P l.
Proof.
  intros Hn H0 HS l. remember (length l) as k eqn:E. revert l E. induction (lt_wf k) as [k _ IH]. intros l ->.
  destruct l as [|x l]; [done|]. apply HS; [done|]. apply (IH (length (drop n (x :: l)))); [|done].
  rewrite length_drop. simpl. lia.
Qed.
Lemma concat_batches n l : (0 < n)%nat → concat (batches n l) = l.
Proof.
  intros Hn. revert l. apply (batches_ind n); [done|done|]. intros l Hl IH.
  rewrite batches_cons by done. simpl. by rewrite IH, take_drop.
Qed.
Lemma batches_sizes n l : (0 < n)%nat → Forall (λ b, 0 < zlen b ≤ Z.of_nat n) (batches n l).
Proof.
  intros Hn. revert l. apply (batches_ind n); [done|constructor|]. intros l Hl IH.
  rewrite batches_cons by done. constructor; [|done]. unfold zlen. rewrite length_take. destruct l; [done|simpl; lia].
Qed.

(** Reading from the middle of a file. *)
Lemma if_read_at h s content n : if_open h = true → if_eof h = false → if_fail h = false →
  files s !! if_path h = Some content → 0 ≤ if_pos h → 0 < n →
  let rest := drop (Z.to_nat (if_pos h)) content in
  let got := take (Z.to_nat n) rest in
  ∃ h', if_read n h s = (got, h') ∧ if_path h' = if_path h ∧ if_open h' = true ∧ if_eof h' = (zlen got <? n) ∧
    if_fail h' = (zlen got <? n) ∧ if_pos h' = if_pos h + zlen got ∧
    drop (Z.to_nat (if_pos h')) content = drop (Z.to_nat n) rest.
Proof.
  intros Ho He Hf Hc Hp Hn rest got. unfold if_read. rewrite Ho, He, Hf, Hc. simpl. eexists. split_and!; [done..|].
  cbn [if_pos default id]. fold rest got. rewrite Z2Nat.inj_add by (pose proof (zlen_nonneg got); lia).
  rewrite <- (drop_drop content). fold rest. unfold got, zlen. rewrite Nat2Z.id, length_take.
  destruct (decide (Z.to_nat n ≤ length rest)%nat).
  - by rewrite Nat.min_l by done.
  - rewrite Nat.min_r by lia. by rewrite !drop_ge by lia.
Qed.

(** ** Lemmas: the protocol *)

(** An acknowledgement that fits the buffer. *)
Definition is_ready (cap : Z) (f : bytes) : Prop :=
  ∃ num data, is_message f (edge_code EDGE_RECEIVE_READY) num data ∧ zlen f ≤ cap ∧ 0 ≤ num < 2 ^ 32.

(** A batch of recipe entries of type [t] as the client sees it. *)
Definition is_batch (x : EDGE_PROTCOL_CODE_SET * bytes) (f : bytes) : Prop :=
  is_message f (edge_code x.1) (zlen x.2 / sizeof_RecipeEntry_t) x.2.

Section Protocol.
Context (config : Configure) `{ChannelLaws C}.

Lemma batch_size_range : 512 ≤ GetSendRecipeBatchSize config ≤ 1024.
Proof. unfold GetSendRecipeBatchSize. destruct (_ =? 1); lia. Qed.

Lemma receive_ready_spec m (c : C) f ins outs : chan c (f :: ins) outs → is_ready (bufCap m) f →
  bufCap m < 2 ^ 31 →
  ∃ m' c', receive_ready m c = Ok (m', c') ∧ bufCap m' = bufCap m ∧ chan c' ins outs.
Proof.
  intros Hc (num & data & Hm & Hl & Hn) Hcap. destruct (recv_message c f ins outs m Hc Hl) as (m' & c' & E & Hr & Hc').
  assert (Hd : zlen data < 2 ^ 32).
  { destruct Hm as (cid & Hcid & ->). autorewrite with zlen in Hl. pose proof (zlen_nonneg data). zlia. }
  pose proof (edge_code_range EDGE_RECEIVE_READY).
  destruct (received_message _ _ _ _ _ _ Hr Hm) as (Ht & _); [lia|lia|lia|].
  unfold receive_ready. rewrite E. simpl. rewrite Ht, Z.eqb_refl. simpl. exists m', c'. split_and!; [done|apply Hr|done].
Qed.

Lemma send_batch_spec m (c : C) ins outs type d : chan c ins outs → bufCap m < 2 ^ 31 →
  sizeof_NetworkHead_t + zlen d ≤ bufCap m → bread (sendBuffer m) (dataOff 0) (zlen d) = d →
  let m' := set_messageType (edge_code type) (set_dataSize (u32 (zlen d))
              (set_currentItemNum (u32 (zlen d / sizeof_RecipeEntry_t)) m)) in
  ∃ c' f, send_batch m' c = Ok c' ∧ is_batch (type, d) f ∧ chan c' ins (outs ++ [f]).
Proof.
  intros Hc Hcap Hfit Hd m'. pose proof (zlen_nonneg d). change (sizeof_NetworkHead_t) with 16 in *.
  assert (Hq : 0 ≤ zlen d / sizeof_RecipeEntry_t ≤ zlen d).
  { change sizeof_RecipeEntry_t with 32. split; [apply Z.div_pos; lia|]. apply Z.div_le_upper_bound; lia. }
  assert (Hs : dataSize m' = zlen d).
  { unfold m'. autorewrite with hdr. rewrite u32_small, get_set_size by lia. done. }
  unfold send_batch. rewrite Hs. change (bufCap m') with (bufCap m). rewrite (proj2 (Z.leb_le _ _)) by (change sizeof_NetworkHead_t with 16; lia).
  cbn [check mbind result_bind]. set (f := bread (sendBuffer m') 0 (sizeof_NetworkHead_t + zlen d)).
  destruct (send_message c ins outs f Hc) as (c' & -> & Hc'); [unfold f; rewrite zlen_bread by (change sizeof_NetworkHead_t with 16; lia); change sizeof_NetworkHead_t with 16; lia|].
  exists c', f. split_and!; [done| |done]. unfold is_batch, f. simpl fst. simpl snd. apply message_frame; [done| | | |].
  - unfold m', set_messageType. apply bread_bwrite_len. by rewrite zlen_le_enc.
  - unfold m', set_messageType, set_dataSize, set_currentItemNum. simpl.
    rewrite !bread_bwrite_ne by zlia. rewrite bread_bwrite_len by zlia. by rewrite u32_small by lia.
  - unfold m', set_messageType, set_dataSize. simpl. rewrite bread_bwrite_ne by zlia.
    rewrite bread_bwrite_len by zlia. by rewrite u32_small by lia.
  - unfold m'. autorewrite with hdr. done.
Qed.

(** One of the three loops, from any point of its file. *)
Lemma send_recipe_spec fuel type h m (c : C) s content ins outs readies :
  let N := Z.to_nat (sizeof_RecipeEntry_t * GetSendRecipeBatchSize config) in
  let rest := drop (Z.to_nat (if_pos h)) content in
  if_open h = true → if_eof h = false → if_fail h = false → files s !! if_path h = Some content → 0 ≤ if_pos h →
  bufCap m = sizeof_NetworkHead_t + GetSendRecipeBatchSize config * sizeof_RecipeEntry_t →
  length readies = length (batches N rest) → Forall (is_ready (bufCap m)) readies → chan c (readies ++ ins) outs →
  (length rest < fuel)%nat →
  ∃ h' m' c' frames, send_recipe config fuel type h m c s = Ok (h', m', c') ∧ bufCap m' = bufCap m ∧
    chan c' ins (outs ++ frames) ∧ Forall2 is_batch (pair type <$> batches N rest) frames.
Proof.
  intros N. pose proof batch_size_range as Hbs. revert h m c outs readies.
  induction fuel as [|fuel IH]; intros h m c outs readies rest Ho He Hf Hfile Hpos Hcap Hlen Hrd Hc Hfuel; [lia|].
  assert (HN : (0 < N)%nat) by (unfold N; change sizeof_RecipeEntry_t with 32; lia).
  destruct (if_read_at h s content (sizeof_RecipeEntry_t * GetSendRecipeBatchSize config) Ho He Hf Hfile Hpos)
    as (h' & E & Hp' & Ho' & He' & Hf' & Hpos' & Hdrop); [change sizeof_RecipeEntry_t with 32; lia|].
  fold rest N in E, Hdrop, He', Hf', Hpos'. cbn [send_recipe]. rewrite E.
  assert (Hgot : zlen (take N rest) ≤ sizeof_RecipeEntry_t * GetSendRecipeBatchSize config).
  { unfold zlen. rewrite length_take. unfold N. lia. }
  change sizeof_RecipeEntry_t with 32 in *. change sizeof_NetworkHead_t with 16 in *.
  pose proof (zlen_nonneg (take N rest)).
  rewrite data_write_ok by (unfold dataCap; change sizeof_NetworkHead_t with 16; lia). cbn [mbind result_bind].
  set (m1 := set_sendBuffer _ m).
  destruct (decide (rest = [])) as [Hnil|Hne].
  { rewrite Hnil in *. rewrite take_nil. simpl. destruct readies; [|done]. exists h', m1, c, [].
    rewrite app_nil_r. split_and!; [done|done|exact Hc|constructor]. }
  rewrite (batches_cons N rest HN Hne) in Hlen |- *. destruct readies as [|f0 readies]; [done|].
  apply Forall_cons in Hrd as [Hf0 Hrd]. simpl in Hlen. injection Hlen as Hlen.
  assert (Hpos0 : 0 < zlen (take N rest)).
  { unfold zlen. rewrite length_take. destruct rest; [done|]. simpl. lia. }
  rewrite (proj2 (Z.eqb_neq _ _)) by lia.
  pose proof (send_batch_spec m1 c ((f0 :: readies) ++ ins) outs type (take N rest) Hc) as Hsb.
  change sizeof_RecipeEntry_t with 32 in Hsb. destruct Hsb as (c1 & f & -> & Hb & Hc1).
  { change (bufCap m1) with (bufCap m). lia. }
  { change (bufCap m1) with (bufCap m). change sizeof_NetworkHead_t with 16. lia. }
  { unfold m1. simpl. apply bread_bwrite_eq. }
  cbn [mbind result_bind]. set (m2 := set_messageType _ _).
  destruct (receive_ready_spec m2 c1 f0 (readies ++ ins) (outs ++ [f]) Hc1) as (m3 & c2 & -> & Hcap3 & Hc2).
  { exact Hf0. } { change (bufCap m2) with (bufCap m). lia. }
  cbn [mbind result_bind]. rewrite He'. destruct (zlen (take N rest) <? 32 * GetSendRecipeBatchSize config) eqn:Eend.
  - zbool. assert (Hlast : drop N rest = []).
    { apply drop_ge. revert Eend. unfold zlen. rewrite length_take. unfold N. lia. }
    rewrite Hlast in *. destruct readies; [|done]. exists h', m3, c2, [f]. split_and!; [done|exact Hcap3|done|].
    by repeat constructor.
  - rewrite <- Hdrop in Hlen |- *. destruct (IH h' m3 c2 (outs ++ [f]) readies) as (h4 & m4 & c4 & frames & E4 & Hcap4 & Hc4 & Hfr);
      try done.
    + by rewrite Hp'.
    + lia.
    + by rewrite Hcap3.
    + rewrite Hcap3. exact Hrd.
    + rewrite Hdrop, length_drop. destruct rest; [done|]. simpl in *. lia.
    + exists h4, m4, c4, (f :: frames). split_and!; [done|by rewrite Hcap4|by rewrite <- app_assoc in Hc4|].
      by constructor.
Qed.

(** A stream on a recipe file (a head of 16 bytes, then entries) at position [pos]. *)
Definition reading (s : fs) (h : ifstream) (entries : bytes) (pos : Z) : Prop :=
  if_open h = true ∧ if_eof h = false ∧ if_fail h = false ∧ if_pos h = pos ∧
  ∃ head, zlen head = sizeof_FileRecipeHead_t ∧ files s !! if_path h = Some (head ++ entries).

Lemma skip_head s h entries : reading s h entries 0 →
  reading s (if_read sizeof_FileRecipeHead_t h s).2 entries sizeof_FileRecipeHead_t.
Proof.
  intros (Ho & He & Hf & Hp & head & Hl & Hc). change sizeof_FileRecipeHead_t with 16 in *.
  destruct (if_read_at h s _ 16 Ho He Hf Hc) as (h' & -> & Hp' & Ho' & He' & Hf' & Hpos' & _); [lia|lia|].
  rewrite Hp in *. rewrite drop_0 in *. rewrite take_app_length' in * by (unfold zlen in Hl; lia). rewrite Hl in *.
  simpl. split_and!; try done. exists head. by rewrite Hp'.
Qed.

(** Where the three streams of a download stand when the thread takes over. *)
Definition at_recipes (s : fs) (client : ClientVar) (plain secure key : bytes) : Prop :=
  reading s (_recipeReadHandler (read_handlers client)) plain sizeof_FileRecipeHead_t ∧
  reading s (_secureRecipeReadHandler (read_handlers client)) secure 0 ∧
  reading s (_keyRecipeReadHandler (read_handlers client)) key 0 ∧
  bufCap (_sendRecipeBuf client) = sizeof_NetworkHead_t + GetSendRecipeBatchSize config * sizeof_RecipeEntry_t.

(** The bytes of one batch. *)
Definition recipe_batch : nat := Z.to_nat (sizeof_RecipeEntry_t * GetSendRecipeBatchSize config).
(** All messages of a download. *)
Definition recipe_messages (plain secure key : bytes) : list (EDGE_PROTCOL_CODE_SET * bytes) :=
  (pair CLOUD_SEND_RECIPE <$> batches recipe_batch plain) ++
  (pair CLOUD_SEND_SECURE_RECIPE <$> batches recipe_batch secure) ++
  (pair CLOUD_SEND_KEY_RECIPE <$> batches recipe_batch key) ++ [(CLOUD_SEND_RECIPE_END, [])].

Lemma reading_send s h entries m (c : C) type fuel ins outs readies :
  reading s h entries sizeof_FileRecipeHead_t →
  bufCap m = sizeof_NetworkHead_t + GetSendRecipeBatchSize config * sizeof_RecipeEntry_t →
  length readies = length (batches recipe_batch entries) → Forall (is_ready (bufCap m)) readies →
  chan c (readies ++ ins) outs → (length entries < fuel)%nat →
  ∃ h' m' c' frames, send_recipe config fuel type h m c s = Ok (h', m', c') ∧ bufCap m' = bufCap m ∧
    chan c' ins (outs ++ frames) ∧ Forall2 is_batch (pair type <$> batches recipe_batch entries) frames.
Proof.
  intros (Ho & He & Hf & Hp & head & Hl & Hc) Hcap Hlen Hrd Hch Hfuel. change sizeof_FileRecipeHead_t with 16 in *.
  assert (E : drop (Z.to_nat (if_pos h)) (head ++ entries) = entries).
  { rewrite Hp. apply drop_app_length'. unfold zlen in Hl. lia. }
  pose proof (send_recipe_spec fuel type h m c s (head ++ entries) ins outs readies) as Hs. rewrite E in Hs.
  apply Hs; try done. by rewrite Hp.
Qed.

(** What the client does after the end message: it closes the connection, which is then
    cleared, or it sends a message, and the connection stays open. *)
Definition after_end (late : list bytes) (c : C) (outs : list bytes) : Prop :=
  match late with [] => cleared c outs | _ :: rest => chan c rest outs end.

Lemma last_answer (c : C) m late outs : chan c late outs → Forall (λ f, zlen f ≤ bufCap m) late →
  ∃ ok n m' c', ReceiveData c m = Ok (ok, n, m', c') ∧
    after_end late (if negb ok then ClearAcceptedClientSd c' else c') outs.
Proof.
  intros Hc Hl. destruct late as [|f rest].
  - destruct (recv_closed c _ m Hc) as (c' & -> & Hc'). do 4 eexists. split; [done|]. by apply clear_cleared.
  - apply Forall_cons in Hl as [Hf _]. destruct (recv_message c f rest outs m Hc Hf) as (m' & c' & -> & _ & Hc').
    by do 4 eexists.
Qed.

Lemma Run_spec fuel client (c : C) s plain secure key r0 rp rs rk late :
  at_recipes s client plain secure key →
  Forall (is_ready (bufCap (_sendRecipeBuf client))) (r0 :: rp ++ rs ++ rk) →
  length rp = length (batches recipe_batch plain) → length rs = length (batches recipe_batch secure) →
  length rk = length (batches recipe_batch key) →
  chan c (r0 :: rp ++ rs ++ rk ++ late) [] → Forall (λ f, zlen f ≤ bufCap (_sendRecipeBuf client)) late →
  (length plain < fuel)%nat → (length secure < fuel)%nat → (length key < fuel)%nat →
  ∃ client' c' frames, Run config fuel client c s = Ok (client', c') ∧ after_end late c' frames ∧
    Forall2 is_batch (recipe_messages plain secure key) frames.
Proof.
  intros (Hp & Hs & Hk & Hcap) Hrd Lp Ls Lk Hc Hlate F1 F2 F3. pose proof batch_size_range.
  apply Forall_cons in Hrd as [R0 Hrd]. apply Forall_app in Hrd as [Rp Hrd]. apply Forall_app in Hrd as [Rs Rk].
  unfold Run. destruct (receive_ready_spec _ _ _ _ _ Hc R0) as (m1 & c1 & -> & Hcap1 & Hc1).
  { rewrite Hcap. change sizeof_NetworkHead_t with 16. change sizeof_RecipeEntry_t with 32. lia. }
  rewrite <- Hcap1 in Hcap, Rp, Rs, Rk, Hlate. cbn [mbind result_bind].
  destruct (reading_send s _ plain m1 c1 CLOUD_SEND_RECIPE fuel (rs ++ rk ++ late) [] rp Hp Hcap Lp Rp Hc1 F1)
    as (h2 & m2 & c2 & f2 & -> & Hcap2 & Hc2 & Hf2). rewrite <- Hcap2 in Hcap, Rs, Rk, Hlate. cbn [mbind result_bind].
  pose proof (skip_head _ _ _ Hs) as Hs'. destruct (if_read _ (_secureRecipeReadHandler _) _) as [? hs]. cbn [snd] in Hs'.
  destruct (reading_send s hs secure m2 c2 CLOUD_SEND_SECURE_RECIPE fuel (rk ++ late) _ rs Hs' Hcap Ls Rs Hc2 F2)
    as (h3 & m3 & c3 & f3 & -> & Hcap3 & Hc3 & Hf3). rewrite <- Hcap3 in Hcap, Rk, Hlate. cbn [mbind result_bind].
  pose proof (skip_head _ _ _ Hk) as Hk'. destruct (if_read _ (_keyRecipeReadHandler _) _) as [? hk]. cbn [snd] in Hk'.
  destruct (reading_send s hk key m3 c3 CLOUD_SEND_KEY_RECIPE fuel late _ rk Hk' Hcap Lk Rk Hc3 F3)
    as (h4 & m4 & c4 & f4 & -> & Hcap4 & Hc4 & Hf4). rewrite <- Hcap4 in Hlate. cbn [mbind result_bind].
  set (m5 := set_messageType _ _). set (f := bread (sendBuffer m5) 0 sizeof_NetworkHead_t).
  destruct (send_message c4 late _ f Hc4) as (c5 & -> & Hc5); [done|]. cbn [mbind result_bind check].
  change (bufCap m4) with (bufCap m5) in Hlate.
  destruct (last_answer c5 m5 late _ Hc5 Hlate) as (ok & n & m6 & c6 & -> & Hc6). cbn [mbind result_bind].
  eexists _, _, _. split; [reflexivity|]. split; [exact Hc6|]. unfold recipe_messages. simpl. rewrite <- !app_assoc.
  repeat (apply Forall2_app; [done|]). constructor; [|constructor]. unfold is_batch, f. simpl.
  apply (message_frame _ _ 0 [] 0); [done| | | |done].
  - unfold m5, set_messageType. apply bread_bwrite_len. by rewrite zlen_le_enc.
  - unfold m5, set_messageType, set_dataSize, set_currentItemNum. simpl. rewrite !bread_bwrite_ne by zlia. by rewrite bread_bwrite_len by zlia.
  - unfold m5, set_messageType, set_dataSize. simpl. rewrite bread_bwrite_ne by zlia. by rewrite bread_bwrite_len by zlia.
Qed.

(** C24: the recipe sender gives the client the three recipe files: with a client that
    acknowledges every batch, it sends the entries of the plain, then of the secure,
    then of the key recipe, each as batches of at most [sendRecipeBatchSize] entries
    whose contents put together are the file's entries, every message with the number of
    its entries and its size, and then one end message; the loops end, and when the client
    then closes, the connection is cleared. *)
Theorem Run_sends_recipes fuel client (c : C) s plain secure key r0 rp rs rk :
  at_recipes s client plain secure key →
  Forall (is_ready (bufCap (_sendRecipeBuf client))) (r0 :: rp ++ rs ++ rk) →
  length rp = length (batches recipe_batch plain) → length rs = length (batches recipe_batch secure) →
  length rk = length (batches recipe_batch key) →
  chan c (r0 :: rp ++ rs ++ rk) [] →
  (length plain < fuel)%nat → (length secure < fuel)%nat → (length key < fuel)%nat →
  (∃ client' c' frames, Run config fuel client c s = Ok (client', c') ∧ cleared c' frames ∧
    Forall2 is_batch (recipe_messages plain secure key) frames) ∧
  ∀ l, concat (batches recipe_batch l) = l ∧ Forall (λ b, 0 < zlen b ≤ sizeof_RecipeEntry_t * GetSendRecipeBatchSize config) (batches recipe_batch l).
Proof.
  intros. pose proof batch_size_range.
  split; [apply (Run_spec fuel client c s plain secure key r0 rp rs rk []); rewrite ?app_nil_r; by auto|].
  intros l. assert (0 < recipe_batch)%nat by (unfold recipe_batch; change sizeof_RecipeEntry_t with 32; lia).
  split; [by apply concat_batches|]. eapply Forall_impl; [by apply batches_sizes|]. intros b Hb. cbv beta in *.
  unfold recipe_batch in Hb. lia.
Qed.

(** A client that sends one more message instead of closing leaves the thread with its
    connection never cleared: descriptor and SSL object stay in use. *)
Theorem late_message_keeps_open fuel client (c : C) s plain secure key r0 rp rs rk f rest :
  at_recipes s client plain secure key →
  Forall (is_ready (bufCap (_sendRecipeBuf client))) (r0 :: rp ++ rs ++ rk) →
  length rp = length (batches recipe_batch plain) → length rs = length (batches recipe_batch secure) →
  length rk = length (batches recipe_batch key) →
  chan c (r0 :: rp ++ rs ++ rk ++ f :: rest) [] →
  Forall (λ f, zlen f ≤ bufCap (_sendRecipeBuf client)) (f :: rest) →
  (length plain < fuel)%nat → (length secure < fuel)%nat → (length key < fuel)%nat →
  ∃ client' c' frames, Run config fuel client c s = Ok (client', c') ∧ chan c' rest frames ∧
    Forall2 is_batch (recipe_messages plain secure key) frames.
Proof. intros. by apply (Run_spec fuel client c s plain secure key r0 rp rs rk (f :: rest)). Qed.
End Protocol.

Definition sample_recipes : fs :=
  set_file [1] (replicate 16 9 ++ replicate 64 1) (set_file [2] (replicate 16 9) (set_file [3] (replicate 16 9 ++ replicate 40 3) InMemory.empty_fs)).
Definition sample_stream (p : bytes) (pos : Z) : ifstream :=
  {| if_path := p; if_open := true; if_pos := pos; if_eof := false; if_fail := false |}.
Definition sample_download : ClientVar :=
  with_sendRecipeBuf {| sendBuffer := λ _, 0; bufCap := 16 + GetSendRecipeBatchSize sample_config * 32 |}
    (with_readers {| _recipeReadHandler := sample_stream [1] 16; _secureRecipeReadHandler := sample_stream [2] 0;
                     _keyRecipeReadHandler := sample_stream [3] 0 |} (raw_client 0)).
Definition sample_ready : bytes := le_enc 4 (edge_code EDGE_RECEIVE_READY) ++ [0; 0; 0; 0] ++ le_enc 4 0 ++ le_enc 4 0.

Lemma Run_sends_recipes_witness :
  ∃ client' c' frames, Run sample_config 65 sample_download ([sample_ready; sample_ready; sample_ready], []) sample_recipes = Ok (client', c') ∧
    cleared c' frames ∧ Forall2 is_batch (recipe_messages sample_config (replicate 64 1) [] (replicate 40 3)) frames.
Proof.
  assert (Hr : is_ready (bufCap (_sendRecipeBuf sample_download)) sample_ready).
  { exists 0, []. split; [by exists [0; 0; 0; 0]|]. by vm_compute. }
  refine (proj1 (Run_sends_recipes (C := ListChannel.t) sample_config 65 sample_download ([sample_ready; sample_ready; sample_ready], []) sample_recipes
    (replicate 64 1) [] (replicate 40 3) sample_ready [sample_ready] [] [sample_ready] _ _ _ _ _ _ _ _ _)).
  - split_and!; [..|by vm_compute]; (split_and!; [done..|]); exists (replicate 16 9); (split; [done|by vm_compute]).
  - by repeat constructor.
  - by vm_compute.
  - done.
  - by vm_compute.
  - done.
  - simpl. lia.
  - simpl. lia.
  - simpl. lia.
Defined.
