(* ===== verification/ClientLocks.v ===== *)
(** * The client locks (ServerOptThread::Run, src/Server/serverOptThread.cc)

    Every connection has a thread; before it serves its request the thread takes the
    lock of its client ID, which it looks up (or creates) under [clientLockSetLock_],
    and it gives the client lock back when the request is done.  The locks and the
    threads are a step relation; what a thread does while it serves is in [ServerOpt]. *)
From Stdlib Require Import ZArith Lia.
From stdpp Require Import base tactics numbers list gmap fin_maps relations.
From S2P Require Import Prelude.
#[local] Open Scope Z_scope.

(** The points of [Run]. *)
Inductive lpc :=
| L_login                (* about to enter [lock_guard lock(clientLockSetLock_)] *)
| L_find                 (* inside it: look the client ID up *)
| L_lock                 (* about to call [tmpLock->lock()], still inside *)
| L_leave                (* has the client lock, about to leave the guarded scope *)
| L_serve                (* serves the request *)
| L_done.
#[global] Instance lpc_eq_dec : EqDecision lpc.
Proof. solve_decision. Defined.

(** The key of [clientLockIndex_] is an [int]. *)
Definition lock_key (clientID : Z) : Z := s32 clientID.

Record locks := {
  setLock : option nat;              (* the thread that holds [clientLockSetLock_] *)
  clientLockIndex_ : gmap Z (option nat); (* the client mutexes and the threads that hold them *)
  threads : gmap nat (Z * lpc) }.    (* client ID and point of every connection's thread *)

Definition set_point (i : nat) (id : Z) (pc : lpc) (s : locks) : locks :=
  {| setLock := setLock s; clientLockIndex_ := clientLockIndex_ s; threads := <[i := (id, pc)]> (threads s) |}.
Definition set_guard (o : option nat) (s : locks) : locks :=
  {| setLock := o; clientLockIndex_ := clientLockIndex_ s; threads := threads s |}.
Definition set_client (k : Z) (o : option nat) (s : locks) : locks :=
  {| setLock := setLock s; clientLockIndex_ := <[k := o]> (clientLockIndex_ s); threads := threads s |}.

(** A new mutex is not held. *)
Definition find_lock (k : Z) (s : locks) : locks :=
  match clientLockIndex_ s !! k with Some _ => s | None => set_client k None s end.

Inductive lock_step (i : nat) (s : locks) : locks → Prop :=
| enter_guard id : threads s !! i = Some (id, L_login) → setLock s = None →
    lock_step i s (set_point i id L_find (set_guard (Some i) s))
| find_client id : threads s !! i = Some (id, L_find) →
    lock_step i s (set_point i id L_lock (find_lock (lock_key id) s))
| take_client id : threads s !! i = Some (id, L_lock) → clientLockIndex_ s !! lock_key id = Some None →
    lock_step i s (set_point i id L_leave (set_client (lock_key id) (Some i) s))
| leave_guard id : threads s !! i = Some (id, L_leave) →
    lock_step i s (set_point i id L_serve (set_guard None s))
| unlock_client id : threads s !! i = Some (id, L_serve) →
    lock_step i s (set_point i id L_done (set_client (lock_key id) None s)).

Definition locks_step (s s' : locks) : Prop := ∃ i, lock_step i s s'.
(** A server with the connections of clients [ids], none served yet. *)
Definition locks_start (ids : list Z) : locks :=
  {| setLock := None; clientLockIndex_ := ∅;
     threads := map_seq 0 ((λ id, (id, L_login)) <$> ids) |}.

(** ** The invariant *)

Definition in_guard (pc : lpc) : Prop := pc = L_find ∨ pc = L_lock ∨ pc = L_leave.
Definition has_client (pc : lpc) : Prop := pc = L_leave ∨ pc = L_serve.

Record locks_ok (s : locks) : Prop := {
  lo_guard : ∀ i, setLock s = Some i ↔ ∃ id pc, threads s !! i = Some (id, pc) ∧ in_guard pc;
  lo_client : ∀ k i, clientLockIndex_ s !! k = Some (Some i) ↔
    ∃ id pc, threads s !! i = Some (id, pc) ∧ lock_key id = k ∧ has_client pc;
  lo_found : ∀ i id, threads s !! i = Some (id, L_lock) → is_Some (clientLockIndex_ s !! lock_key id) }.

Lemma start_locks_ok ids : locks_ok (locks_start ids).
Proof.
  assert (Hpc : ∀ i id pc, threads (locks_start ids) !! i = Some (id, pc) → pc = L_login).
  { intros i id pc Hi. simpl in Hi. apply lookup_map_seq_Some in Hi as [_ Hi]. rewrite list_lookup_fmap in Hi.
    destruct (ids !! _); [|done]. by injection Hi. }
  split.
  - intros i. split; [done|]. intros (id & pc & ->%Hpc & [|[|]]); done.
  - intros k i. simpl. rewrite lookup_empty. split; [done|]. intros (id & pc & ->%Hpc & _ & [|]); done.
  - intros i id Hi%Hpc. done.
Qed.

(** A property of the thread [j] after thread [i] has moved. *)
Lemma point_iff (ts : gmap nat (Z * lpc)) i j id pc (P : Z → lpc → Prop) :
  (∃ id' pc', <[i := (id, pc)]> ts !! j = Some (id', pc') ∧ P id' pc') ↔
  if decide (j = i) then P id pc else ∃ id' pc', ts !! j = Some (id', pc') ∧ P id' pc'.
Proof.
  destruct (decide (j = i)) as [->|]; [rewrite lookup_insert_eq|by rewrite lookup_insert_ne].
  split; [by intros (? & ? & [= <- <-] & ?)|by eauto].
Qed.

Lemma guard_at s i id pc : locks_ok s → threads s !! i = Some (id, pc) → setLock s = Some i ↔ in_guard pc.
Proof. intros [Hg _ _] Hi. rewrite Hg, Hi. split; [by intros (? & ? & [= <- <-] & ?)|by eauto]. Qed.
Lemma client_at s i id pc k : locks_ok s → threads s !! i = Some (id, pc) →
  clientLockIndex_ s !! k = Some (Some i) ↔ lock_key id = k ∧ has_client pc.
Proof. intros [_ Hc _] Hi. rewrite Hc, Hi. split; [by intros (? & ? & [= <- <-] & ?)|by eauto]. Qed.

Lemma find_lock_owner k k' i s : clientLockIndex_ (find_lock k s) !! k' = Some (Some i) ↔ clientLockIndex_ s !! k' = Some (Some i).
Proof.
  unfold find_lock. destruct (clientLockIndex_ s !! k) eqn:E; [done|]. simpl.
  destruct (decide (k = k')) as [->|]; [|by rewrite lookup_insert_ne]. rewrite lookup_insert_eq, E. naive_solver.
Qed.
Lemma find_lock_some k s k' : is_Some (clientLockIndex_ s !! k') ∨ k = k' → is_Some (clientLockIndex_ (find_lock k s) !! k').
Proof.
  unfold find_lock. destruct (clientLockIndex_ s !! k) eqn:E; simpl.
  - intros [?|<-]; [done|]. by rewrite E.
  - destruct (decide (k = k')) as [->|]; [by rewrite lookup_insert_eq|rewrite lookup_insert_ne by done]. naive_solver.
Qed.
Lemma find_lock_same k s : setLock (find_lock k s) = setLock s ∧ threads (find_lock k s) = threads s.
Proof. unfold find_lock. by destruct (clientLockIndex_ s !! k). Qed.

Lemma not_in_guard : ¬ in_guard L_login ∧ ¬ in_guard L_serve ∧ ¬ in_guard L_done.
Proof. unfold in_guard. naive_solver. Qed.
Lemma not_has_client : ¬ has_client L_login ∧ ¬ has_client L_find ∧ ¬ has_client L_lock ∧ ¬ has_client L_done.
Proof. unfold has_client. naive_solver. Qed.

(** The part of the invariant about [clientLockSetLock_]. *)
Definition guard_ok (s : locks) : Prop :=
  ∀ i, setLock s = Some i ↔ ∃ id pc, threads s !! i = Some (id, pc) ∧ in_guard pc.
Definition client_ok (s : locks) : Prop :=
  ∀ k i, clientLockIndex_ s !! k = Some (Some i) ↔
    ∃ id pc, threads s !! i = Some (id, pc) ∧ lock_key id = k ∧ has_client pc.
Definition found_ok (s : locks) : Prop :=
  ∀ i id, threads s !! i = Some (id, L_lock) → is_Some (clientLockIndex_ s !! lock_key id).

Lemma step_guard i s s' : locks_ok s → lock_step i s s' → guard_ok s'.
Proof.
  intros Hok Hs j. pose proof not_in_guard as (N1 & N2 & N3). pose proof (lo_guard _ Hok) as Hg.
  destruct Hs as [id Hi Hn|id Hi|id Hi Hn|id Hi|id Hi]; simpl; rewrite ?(proj2 (find_lock_same _ _)), ?(proj1 (find_lock_same _ _));
    rewrite (point_iff _ _ _ _ _ (λ _ pc, in_guard pc)); pose proof (guard_at _ _ _ _ Hok Hi) as Ha;
    destruct (decide (j = i)) as [->|Hne].
  - unfold in_guard. naive_solver.
  - rewrite <- Hg, Hn. naive_solver.
  - rewrite Ha. unfold in_guard. naive_solver.
  - done.
  - rewrite Ha. unfold in_guard. naive_solver.
  - done.
  - naive_solver.
  - rewrite <- Hg. assert (setLock s = Some i) as -> by (apply Ha; unfold in_guard; naive_solver). naive_solver.
  - rewrite Ha. naive_solver.
  - done.
Qed.

Lemma step_client i s s' : locks_ok s → lock_step i s s' → client_ok s'.
Proof.
  intros Hok Hs k j. pose proof not_has_client as (N1 & N2 & N3 & N4). pose proof (lo_client _ Hok k) as Hc.
  destruct Hs as [id Hi Hn|id Hi|id Hi Hn|id Hi|id Hi]; simpl; rewrite ?(proj2 (find_lock_same _ _));
    rewrite (point_iff _ _ _ _ _ (λ id pc, lock_key id = k ∧ has_client pc)); pose proof (client_at _ _ _ _ k Hok Hi) as Ha.
  - destruct (decide (j = i)) as [->|Hne]; [rewrite Ha; naive_solver|done].
  - rewrite find_lock_owner. destruct (decide (j = i)) as [->|Hne]; [rewrite Ha; naive_solver|done].
  - destruct (decide (lock_key id = k)) as [<-|Hk]; [rewrite lookup_insert_eq|rewrite lookup_insert_ne by done].
    + destruct (decide (j = i)) as [->|Hne]; [unfold has_client; naive_solver|]. rewrite <- Hc, Hn. naive_solver.
    + destruct (decide (j = i)) as [->|Hne]; [rewrite Ha; naive_solver|done].
  - destruct (decide (j = i)) as [->|Hne]; [rewrite Ha; unfold has_client; naive_solver|done].
  - destruct (decide (lock_key id = k)) as [<-|Hk]; [rewrite lookup_insert_eq|rewrite lookup_insert_ne by done].
    + destruct (decide (j = i)) as [->|Hne]; [naive_solver|]. rewrite <- Hc.
      assert (clientLockIndex_ s !! lock_key id = Some (Some i)) as -> by (apply Ha; unfold has_client; naive_solver). naive_solver.
    + destruct (decide (j = i)) as [->|Hne]; [rewrite Ha; naive_solver|done].
Qed.

Lemma step_found i s s' : locks_ok s → lock_step i s s' → found_ok s'.
Proof.
  intros Hok Hs j id' Hj. pose proof (lo_found _ Hok) as Hf.
  destruct Hs as [id Hi Hn|id Hi|id Hi Hn|id Hi|id Hi]; simpl in *; rewrite ?(proj2 (find_lock_same _ _)) in Hj;
    (destruct (decide (j = i)) as [->|Hne]; [rewrite lookup_insert_eq in Hj|rewrite lookup_insert_ne in Hj by done]);
    try done; try (apply (Hf _ _ Hj)); try (apply find_lock_some; left; by apply (Hf _ _ Hj)).
  - injection Hj as <-. apply find_lock_some. by right.
  - destruct (decide (lock_key id = lock_key id')) as [->|]; [by rewrite lookup_insert_eq|rewrite lookup_insert_ne by done]. by apply (Hf _ _ Hj).
  - destruct (decide (lock_key id = lock_key id')) as [->|]; [by rewrite lookup_insert_eq|rewrite lookup_insert_ne by done]. by apply (Hf _ _ Hj).
Qed.

Lemma lock_step_ok i s s' : locks_ok s → lock_step i s s' → locks_ok s'.
Proof. intros Hok Hs. split; [by eapply step_guard|by eapply step_client|by eapply step_found]. Qed.
Lemma locks_reachable_ok ids s : rtc locks_step (locks_start ids) s → locks_ok s.
Proof.
  intros Hr. assert (Hs : locks_ok (locks_start ids)) by apply start_locks_ok.
  induction Hr as [|s1 s2 s3 [i H] _ IH]; [done|]. apply IH. by eapply lock_step_ok.
Qed.

(** ** Progress and termination *)

Lemma locks_progress s i id pc : locks_ok s → threads s !! i = Some (id, pc) → pc ≠ L_done →
  ∃ s', locks_step s s'.
Proof.
  intros Hok Hi Hpc.
  assert (Hguarded : ∀ j, setLock s = Some j → ∃ s', locks_step s s').
  { intros j (id' & pc' & Hj & Hin)%(lo_guard _ Hok). destruct Hin as [->|[->| ->]].
    - eexists _, j. by apply find_client.
    - destruct (lo_found _ Hok _ _ Hj) as [[o|] Ho].
      + apply (lo_client _ Hok) in Ho as Ho'. destruct Ho' as (id2 & pc2 & Ho2 & Hk & [->| ->]).
        * eexists _, o. by eapply leave_guard.
        * eexists _, o. by eapply unlock_client.
      + eexists _, j. by eapply take_client.
    - eexists _, j. by eapply leave_guard. }
  destruct (setLock s) as [j|] eqn:Es; [by apply (Hguarded j)|].
  pose proof (guard_at _ _ _ _ Hok Hi) as Ha. rewrite Es in Ha.
  assert (Hn : ¬ in_guard pc) by (by intros H%Ha). unfold in_guard in Hn. destruct pc.
  - eexists _, i. by eapply enter_guard.
  - destruct Hn. by left.
  - destruct Hn. right. by left.
  - destruct Hn. right. by right.
  - eexists _, i. by eapply unlock_client.
  - done.
Qed.

Definition l_rank (pc : lpc) : nat :=
  match pc with L_login => 5 | L_find => 4 | L_lock => 3 | L_leave => 2 | L_serve => 1 | L_done => 0 end.
Definition total_rank (ts : gmap nat (Z * lpc)) : nat := map_fold (λ _ x n, (l_rank x.2 + n)%nat) 0%nat ts.

Lemma total_rank_insert i x ts : ts !! i = None → total_rank (<[i := x]> ts) = (l_rank x.2 + total_rank ts)%nat.
Proof. intros Hi. unfold total_rank. rewrite map_fold_insert_L; [done| |done]. intros. lia. Qed.
Lemma total_rank_update i x y ts : ts !! i = Some x → (total_rank (<[i := y]> ts) + l_rank x.2 = total_rank ts + l_rank y.2)%nat.
Proof.
  intros Hi. rewrite <- (insert_delete_id ts i x Hi) at 2. rewrite <- insert_delete_eq.
  rewrite !total_rank_insert by apply lookup_delete_eq. lia.
Qed.

Lemma lock_step_rank i s s' : lock_step i s s' → (total_rank (threads s') + 1 = total_rank (threads s))%nat.
Proof.
  intros Hs. destruct Hs as [id Hi Hn|id Hi|id Hi Hn|id Hi|id Hi]; simpl; rewrite ?(proj2 (find_lock_same _ _));
    match goal with |- context [<[i := ?y]> _] => pose proof (total_rank_update i _ y _ Hi) as E; simpl in E; lia end.
Qed.
Lemma locks_steps_rank n s s' : nsteps locks_step n s s' → (total_rank (threads s') + n = total_rank (threads s))%nat.
Proof. induction 1 as [|n s1 s2 s3 [i H%lock_step_rank] _ IH]; lia. Qed.

Lemma total_rank_0 ts : total_rank ts = 0%nat → ∀ i id pc, ts !! i = Some (id, pc) → pc = L_done.
Proof.
  intros H i id pc Hi. rewrite <- (insert_delete_id ts i _ Hi), total_rank_insert in H by apply lookup_delete_eq.
  by destruct pc.
Qed.
Lemma total_rank_start ids : total_rank (threads (locks_start ids)) = (5 * length ids)%nat.
Proof.
  assert (H : ∀ n, total_rank (map_seq n ((λ id, (id, L_login)) <$> ids)) = (length ids * 5)%nat).
  { induction ids as [|id ids IH]; intros n; simpl; [done|].
    rewrite total_rank_insert by (apply lookup_map_seq_None; lia). rewrite IH. simpl. lia. }
  unfold locks_start. cbn [threads]. rewrite H. lia.
Qed.

(** ** The properties *)

(** C19: at most one request of a client is served at a time: in every interleaving of
    the connections' threads, two threads whose client IDs are the same are never both
    in the part of [Run] between taking and releasing the client lock. *)
Theorem client_exclusion ids s i j ci cj pi pj :
  rtc locks_step (locks_start ids) s → threads s !! i = Some (ci, pi) → threads s !! j = Some (cj, pj) →
  has_client pi → has_client pj → lock_key ci = lock_key cj → i = j.
Proof.
  intros Hok%locks_reachable_ok Hi Hj Pi Pj E.
  pose proof (proj2 (client_at _ _ _ _ (lock_key ci) Hok Hi) (conj eq_refl Pi)) as H1.
  pose proof (proj2 (client_at _ _ _ _ (lock_key ci) Hok Hj) (conj (eq_sym E) Pj)) as H2. congruence.
Qed.

(** C20: the two kinds of locks do not deadlock and every connection is served: a server
    with [n] connections makes at most [5 n] steps in any interleaving, from every state
    some thread can move unless all are done, and after [5 n] steps all are done (given
    that every request that is served ends). *)
Theorem logins_terminate ids n s :
  nsteps locks_step n (locks_start ids) s →
  (n ≤ 5 * length ids)%nat ∧
  ((∃ s', locks_step s s') ∨ ∀ i id pc, threads s !! i = Some (id, pc) → pc = L_done) ∧
  (n = (5 * length ids)%nat → ∀ i id pc, threads s !! i = Some (id, pc) → pc = L_done).
Proof.
  intros Hn. pose proof (locks_steps_rank _ _ _ Hn) as Hr. rewrite total_rank_start in Hr.
  assert (Hok : locks_ok s) by (apply (locks_reachable_ok ids); by eapply rtc_nsteps_2). split_and!; [lia| |].
  - destruct (decide (total_rank (threads s) = 0%nat)) as [E|E]; [right; by apply total_rank_0|left].
    destruct (decide (map_Forall (λ _ x, x.2 = L_done) (threads s))) as [Hd|Hd].
    + destruct E. revert Hd. generalize (threads s). clear. apply (map_ind (λ ts, map_Forall _ ts → total_rank ts = 0%nat)); [done|].
      intros i x ts Hi IH Hd. rewrite total_rank_insert by done. apply map_Forall_insert in Hd as [-> Hd]; [|done]. by rewrite IH.
    + apply map_not_Forall in Hd as (i & [id pc] & Hi & Hpc); [|apply _]. by eapply locks_progress.
  - intros ->. apply total_rank_0. lia.
Qed.

(** C40: a client that connects again while its first request is being served blocks
    everybody: the thread of the second connection waits for the client lock without
    leaving the guarded scope, and until the first request ends no other connection,
    whatever its client, can even look up its lock. *)
Theorem second_login_blocks_all ids s i ci j cj :
  rtc locks_step (locks_start ids) s → threads s !! i = Some (ci, L_lock) → threads s !! j = Some (cj, L_serve) →
  lock_key ci = lock_key cj →
  ∀ k s', lock_step k s s' → k = j ∨ ∃ ck, threads s !! k = Some (ck, L_serve).
Proof.
  intros Hok%locks_reachable_ok Hi Hj E k s' Hs.
  assert (Hg : setLock s = Some i) by (apply (guard_at _ _ _ _ Hok Hi); unfold in_guard; auto).
  assert (Hc : clientLockIndex_ s !! lock_key ci = Some (Some j)).
  { apply (client_at _ _ _ _ _ Hok Hj). unfold has_client. auto. }
  destruct Hs as [id Hk Hn|id Hk|id Hk Hn|id Hk|id Hk]; [congruence| | | |by right; exists id].
  - assert (setLock s = Some k) by (apply (guard_at _ _ _ _ Hok Hk); unfold in_guard; auto). congruence.
  - assert (setLock s = Some k) by (apply (guard_at _ _ _ _ Hok Hk); unfold in_guard; auto). congruence.
  - assert (setLock s = Some k) by (apply (guard_at _ _ _ _ Hok Hk); unfold in_guard; auto). congruence.
Qed.

(** ** Concrete connections: two of client 7, one of client 8 *)

Definition lock_exec (i : nat) (s : locks) : locks :=
  match threads s !! i with
  | Some (id, L_login) => if decide (setLock s = None) then set_point i id L_find (set_guard (Some i) s) else s
  | Some (id, L_find) => set_point i id L_lock (find_lock (lock_key id) s)
  | Some (id, L_lock) =>
      if decide (clientLockIndex_ s !! lock_key id = Some None)
      then set_point i id L_leave (set_client (lock_key id) (Some i) s) else s
  | Some (id, L_leave) => set_point i id L_serve (set_guard None s)
  | Some (id, L_serve) => set_point i id L_done (set_client (lock_key id) None s)
  | _ => s
  end.
Lemma lock_exec_step i s : lock_exec i s = s ∨ lock_step i s (lock_exec i s).
Proof.
  unfold lock_exec. destruct (threads s !! i) as [[id []]|] eqn:E; try (by left); try case_decide; try (by left); right.
  - by apply enter_guard.
  - by apply find_client.
  - by apply take_client.
  - by apply leave_guard.
  - by apply unlock_client.
Qed.
Lemma lock_exec_reachable s0 l : rtc locks_step s0 (foldl (λ s i, lock_exec i s) s0 l).
Proof.
  induction l as [|i l IH] using rev_ind; [done|]. rewrite foldl_app. simpl.
  destruct (lock_exec_step i (foldl (λ s i, lock_exec i s) s0 l)) as [->|H]; [done|]. eapply rtc_r; [done|by exists i].
Qed.

(** The first connection is served, the second waits for it. *)
Definition sample_locks : locks := foldl (λ s i, lock_exec i s) (locks_start [7; 7; 8]) [0; 0; 0; 0; 1; 1]%nat.

Lemma client_exclusion_witness : ∃ id pc, threads sample_locks !! 0%nat = Some (id, pc) ∧ has_client pc ∧ 0%nat = 0%nat.
Proof.
  exists 7, L_serve. split; [reflexivity|]. split; [by right|].
  apply (client_exclusion [7; 7; 8] sample_locks 0%nat 0%nat 7 7 L_serve L_serve);
    [apply lock_exec_reachable|reflexivity|reflexivity|by right|by right|reflexivity].
Defined.

Lemma logins_terminate_witness :
  nsteps locks_step 1 (locks_start [7]) (lock_exec 0 (locks_start [7])) ∧
  ∃ s', locks_step (lock_exec 0 (locks_start [7])) s'.
Proof.
  assert (H : nsteps locks_step 1 (locks_start [7]) (lock_exec 0 (locks_start [7]))).
  { apply nsteps_once. exists 0%nat. by apply enter_guard. }
  split; [exact H|]. destruct (logins_terminate [7] 1 _ H) as (_ & [Hs|Hd] & _); [exact Hs|].
  specialize (Hd 0%nat 7 L_find eq_refl). discriminate Hd.
Defined.

Lemma second_login_blocks_all_witness :
  threads sample_locks !! 2%nat = Some (8, L_login) ∧ ¬ ∃ s', lock_step 2 sample_locks s'.
Proof.
  split; [reflexivity|]. intros [s' Hs].
  destruct (second_login_blocks_all [7; 7; 8] sample_locks 1%nat 7 0%nat 7 (lock_exec_reachable _ _) eq_refl eq_refl eq_refl 2%nat s' Hs)
    as [H|[ck H]]; [discriminate H|]. vm_compute in H. discriminate H.
Defined.
