(* ===== verification/ServerOpt.v ===== *)
(** * The server's request threads (src/Server/serverOptThread.cc, src/App/daeServer.cc)

    A connection starts with a login message that says what the client wants; the
    thread of the connection sets the client object up, answers, and hands over to the
    upload, recipe or chunk thread.  The threads that work for one request at the same
    time are composed here in the order their messages force on them; the interleaving
    of receiver and writer is in [WriterLoop], that of the connections' locks in
    [ClientLocks]. *)
From Stdlib Require Import ZArith Lia.
From stdpp Require Import base tactics numbers list gmap fin_maps.
From S2P Require Import Prelude Common FileSystem LruCache ReadCache ClientVar Storage Database Crypto Index.
From S2P Require Import DataWriter SslConn RecvDecoder DataReceiver EndToEnd RecipeSender.
#[local] Open Scope Z_scope.

(** ** CheckFileStatus *)
Definition CheckFileStatus (fullRecipePath : bytes) (optType : OPT_TYPE) (s : fs) : bool :=
  if is_regular_file s fullRecipePath then true
  else match optType with DOWNLOAD_RECIPE_OPT => false | _ => true end.

Section ServerOptThread.
Context (config : Configure) `{AbsDatabase DB} `{ChunkHash} `{Channel C} (stk : buf).

(** What all threads share: the index, the files, the state of [rand()]. *)
Record server := { sv_ix : AbsIndex DB; sv_fs : fs; sv_rng : rng }.

(** The memory a request finds in its allocations. *)
Record memory := { m_login : buf; m_client : nat → buf; m_object : ClientVar }.

(** [recvBuf]. *)
Definition login_cap : Z := sizeof_NetworkHead_t + CHUNK_HASH_SIZE * 2 + sizeof_FileRecipeHead_t.
Definition login_buf (mm : memory) : SendMsgBuffer_t :=
  set_dataSize 0 {| sendBuffer := m_login mm; bufCap := login_cap |}.

(** An answer of [n] bytes from the login buffer. *)
Definition answer_login (type : EDGE_PROTCOL_CODE_SET) (n : Z) (m : SendMsgBuffer_t) (c : C) : result C :=
  let m := set_messageType (edge_code type) m in
  check (n <=? bufCap m) UB ;;
  '(ok, c) ← SendData c (bread (sendBuffer m) 0 n);
  check ok EXIT_FAILURE ;; Ok c.

Definition login_paths (m : SendMsgBuffer_t) : result (bytes * bytes * bytes) :=
  fileName ← data_read m 0 (CHUNK_HASH_SIZE * 2); Ok (recipe_paths config fileName).

(** [EdgeUploadThread]: the receiver, and the writer behind it. *)
Definition EdgeUploadThread (fuel : nat) (mm : memory) (m : SendMsgBuffer_t) (c : C) (sv : server) :
    result (server * C) :=
  '(rp, sp, kp) ← login_paths m;
  let tmpRecipeHead := dec_RecipeHead (sendBuffer m) (dataOff (CHUNK_HASH_SIZE * 2)) in
  '(client, s, g) ← new_ClientVar config (m_client mm) (m_object mm) (clientID m) UPLOAD_OPT rp sp kp
                      (fileSize tmpRecipeHead) (totalChunkNum tmpRecipeHead) (sv_fs sv) (sv_rng sv);
  c ← answer_login EDGE_LOGIN_RESPONSE sizeof_NetworkHead_t m c;
  '(x, _) ← DataReceiver.Run config stk fuel (start_session (sv_ix sv) c (client, s, g));
  s ← save_all config (pushed (_inputMQ (upload (s_client x)))) (s_fs x);
  Ok ({| sv_ix := s_ix x; sv_fs := s; sv_rng := s_rng x |}, s_conn x).

(** [EdgeDownloadRecipeThread]; without the three files [curClient] is deleted
    although it was never assigned. *)
Definition EdgeDownloadRecipeThread (fuel : nat) (mm : memory) (m : SendMsgBuffer_t) (c : C) (sv : server) :
    result (server * C) :=
  '(rp, sp, kp) ← login_paths m;
  if is_regular_file (sv_fs sv) rp && is_regular_file (sv_fs sv) sp && is_regular_file (sv_fs sv) kp then
    '(client, s, g) ← new_ClientVar config (m_client mm) (m_object mm) (clientID m) DOWNLOAD_RECIPE_OPT rp sp kp 0 0
                        (sv_fs sv) (sv_rng sv);
    let '(got, h) := if_read sizeof_FileRecipeHead_t (_recipeReadHandler (read_handlers client)) s in
    m ← data_write m 0 got;
    c ← answer_login EDGE_LOGIN_RESPONSE (sizeof_NetworkHead_t + sizeof_FileRecipeHead_t) m c;
    let client := with_readers {| _recipeReadHandler := h;
        _secureRecipeReadHandler := _secureRecipeReadHandler (read_handlers client);
        _keyRecipeReadHandler := _keyRecipeReadHandler (read_handlers client) |} client in
    '(_, c) ← RecipeSender.Run config fuel client c s;
    Ok ({| sv_ix := sv_ix sv; sv_fs := s; sv_rng := g |}, c)
  else
    c ← answer_login CLOUD_FILE_NON_EXIST (sizeof_NetworkHead_t + sizeof_FileRecipeHead_t) m c;
    Err UB.

(** [EdgeDownloadChunkThread]. *)
Definition EdgeDownloadChunkThread (fuel : nat) (mm : memory) (m : SendMsgBuffer_t) (c : C) (sv : server) :
    result (server * C) :=
  '(client, s, g) ← new_ClientVar config (m_client mm) (m_object mm) (clientID m) DOWNLOAD_CHUNK_OPT [] [] [] 0 0
                      (sv_fs sv) (sv_rng sv);
  c ← answer_login EDGE_LOGIN_RESPONSE sizeof_NetworkHead_t m c;
  r ← RecvDecoder.Run config fuel (sv_ix sv)
        {| r_st := ClientVar.restore client; r_fileNum := 0; r_conn := c |} s;
  Ok ({| sv_ix := sv_ix sv; sv_fs := s; sv_rng := g |}, r_conn r).

(** [Run], between taking and releasing the client lock. *)
Definition Run (fuel : nat) (mm : memory) (c : C) (sv : server) : result (server * C) :=
  '(ok, _, m, c) ← ReceiveData c (login_buf mm);
  check ok EXIT_FAILURE ;;
  match edge_decode (messageType m) with
  | Some EDGE_MIGRATE_LOGIN => EdgeUploadThread fuel mm m c sv
  | Some EDGE_DOWNLOAD_RECIPE_LOGIN => EdgeDownloadRecipeThread fuel mm m c sv
  | Some EDGE_DOWNLOAD_CHUNK_LOGIN => EdgeDownloadChunkThread fuel mm m c sv
  | _ => Err EXIT_FAILURE
  end.
End ServerOptThread.
Arguments server DB : clear implicits.

(** ** Start and shutdown (daeServer.cc) *)

(** The objects [main] makes before its first connection. *)
Definition start_server (config : Configure) (g : rng) (s : fs) : result (server InMemory.InMemoryDatabase) :=
  db ← InMemory.new_InMemoryDatabase (GetFp2ChunkDBName config) s;
  ix ← new_AbsIndex config db {| writtenDataSize_ := 0; writtenChunkNum_ := 0 |} s;
  Ok {| sv_ix := ix; sv_fs := s; sv_rng := g |}.

(** [CTRLC], once the connections' threads are joined; [order] is the iteration order
    of the index's hash map. *)
Definition shutdown_server (order : list (bytes * bytes)) (sv : server InMemory.InMemoryDatabase) : fs :=
  let s := delete_AbsIndex (sv_ix sv) (sv_fs sv) in
  InMemory.destroy order (indexStore_ (sv_ix sv)) s.

(** ** Lemmas *)

(** The same channel, seen by somebody who joins after [pre] was sent. *)
Definition joined `{ChannelLaws C} (pre : list bytes) : ChannelLaws C.
Proof.
  refine {| SslConn.chan := λ c ins outs, chan c ins (pre ++ outs) |}.
  - intros c ins outs f Hc Hf. destruct (send_message c ins (pre ++ outs) f Hc Hf) as (c' & E & Hc').
    exists c'. by rewrite app_assoc.
  - intros c f ins outs m Hc Hf. exact (recv_message c f ins (pre ++ outs) m Hc Hf).
  - intros c outs m Hc. exact (recv_closed c (pre ++ outs) m Hc).
Defined.

(** A login message in the buffer. *)
Definition is_login (type : EDGE_PROTCOL_CODE_SET) (data f : bytes) : Prop :=
  is_message f (edge_code type) 0 data ∧ zlen data ≤ CHUNK_HASH_SIZE * 2 + sizeof_FileRecipeHead_t.

Section Logins.
Context (config : Configure) `{AbsDatabaseLaws DB} `{ChunkHashOk hash} `{ChannelLaws C} (stk : buf).

Lemma login_received type data f ins outs (c : C) mm : chan c (f :: ins) outs → is_login type data f →
  ∃ m c', ReceiveData c (login_buf mm) = Ok (true, zlen f, m, c') ∧ chan c' ins outs ∧ bufCap m = login_cap ∧
    edge_decode (messageType m) = Some type ∧ bread (sendBuffer m) (dataOff 0) (zlen data) = data.
Proof.
  intros Hc [Hf Hl]. assert (Hlen : zlen f ≤ bufCap (login_buf mm)).
  { destruct Hf as (cid & Hcid & ->). unfold login_buf, login_cap. simpl. sizes. unfold sizeof_NetworkHead_t, sizeof_FileRecipeHead_t in *. zlia. }
  destruct (recv_message c f ins outs (login_buf mm) Hc Hlen) as (m & c' & E & Hr & Hc').
  pose proof (edge_code_range type). assert (zlen data < 2 ^ 32) by (sizes; unfold sizeof_FileRecipeHead_t in *; lia).
  destruct (received_message _ _ _ _ _ _ Hr Hf) as (Ht & _ & _ & Hd); [lia..|].
  exists m, c'. split_and!; [done|done|apply Hr|by rewrite Ht, edge_decode_code|done].
Qed.

Lemma login_paths_spec m name rest : bufCap m = login_cap → zlen name = CHUNK_HASH_SIZE * 2 →
  bread (sendBuffer m) (dataOff 0) (zlen (name ++ rest)) = name ++ rest →
  login_paths config m = Ok (recipe_paths config name).
Proof.
  intros Hcap Hn Hb. unfold login_paths. apply bread_prefix in Hb. rewrite Hn in Hb.
  rewrite data_read_ok by (unfold dataCap; rewrite ?Hcap; unfold login_cap, sizeof_NetworkHead_t, sizeof_FileRecipeHead_t; sizes; lia).
  simpl. by rewrite Hb.
Qed.

Lemma answer_login_spec type n m (c : C) ins outs : chan c ins outs → 0 ≤ n ≤ bufCap m → bufCap m < 2 ^ 31 →
  ∃ c', answer_login type n m c = Ok c' ∧ chan c' ins (outs ++ [bread (sendBuffer (set_messageType (edge_code type) m)) 0 n]).
Proof.
  intros Hc Hn Hcap. unfold answer_login. change (bufCap (set_messageType _ m)) with (bufCap m).
  rewrite (proj2 (Z.leb_le _ _)) by lia. cbn [check mbind result_bind].
  destruct (send_message c ins outs (bread (sendBuffer (set_messageType (edge_code type) m)) 0 n) Hc) as (c' & -> & Hc').
  { rewrite zlen_bread; lia. }
  by exists c'.
Qed.

Lemma login_cap_val : login_cap = 96.
Proof. by vm_compute. Qed.


(** *** The recipes an upload leaves *)

Definition plain_of (ms : list umsg) : bytes := ms ≫= λ m, match m with URecipe hs => concat hs | _ => [] end.
Definition secure_of (ms : list umsg) : bytes := ms ≫= λ m, match m with USecRecipe hs => concat hs | _ => [] end.
Definition key_of (ms : list umsg) : bytes := ms ≫= λ m, match m with UKeyRecipe ks => concat ks | _ => [] end.
(** All messages of the session are about the file of its login. *)
Definition one_file (ms : list umsg) : Prop :=
  Forall (λ m, match m with UNewFile _ _ _ => False | _ => True end) ms.

(** The three recipe files and their contents. *)
Definition recipes_at (fm : gmap bytes bytes) (rp sp kp plain secure key : bytes) : Prop :=
  fm !! rp = Some plain ∧ fm !! sp = Some secure ∧ fm !! kp = Some key.

Lemma append_file_eq p bs fm content : fm !! p = Some content → append_file p bs fm !! p = Some (content ++ bs).
Proof. intros Hf. unfold append_file. by rewrite lookup_insert_eq, Hf. Qed.
Lemma append_file_ne p q bs fm : p ≠ q → append_file p bs fm !! q = fm !! q.
Proof. intros Hne. unfold append_file. by rewrite lookup_insert_ne. Qed.

Lemma u_steps_recipes others ms u plain secure key : one_file ms →
  u_rp u ≠ u_sp u → u_rp u ≠ u_kp u → u_sp u ≠ u_kp u →
  recipes_at (u_files u) (u_rp u) (u_sp u) (u_kp u) plain secure key →
  recipes_at (u_files (foldl (λ u m, u_step config hash others m u) u ms)) (u_rp u) (u_sp u) (u_kp u)
    (plain ++ plain_of ms) (secure ++ secure_of ms) (key ++ key_of ms).
Proof.
  intros Hone. revert u plain secure key. induction Hone as [|m ms Hm _ IH]; intros u plain secure key N1 N2 N3 (Hp & Hs & Hk).
  - unfold plain_of, secure_of, key_of. simpl. by rewrite !app_nil_r.
  - unfold plain_of, secure_of, key_of in *. csimpl. rewrite !app_assoc.
    specialize (IH (u_step config hash others m u)). destruct m; try done; simpl in *; rewrite ?app_nil_r; apply IH; try done;
      (split_and!; simpl; rewrite ?append_file_ne by done); try done; by apply append_file_eq.
Qed.

Lemma save_all_other cs s s' p : save_all config cs s = Ok s' →
  (∀ c, c ∈ cs → p ≠ container_path config (take (Z.to_nat CONTAINER_ID_LENGTH) (c_containerID c))) →
  files s' !! p = files s !! p.
Proof.
  revert s. induction cs as [|c cs IH]; intros s E Hp; simpl in E; inv_ok; [done|].
  rewrite (IH r E) by (intros; apply Hp; by right). unfold SaveToFile in E0.
  assert (Hne : p ≠ container_path config (take (Z.to_nat CONTAINER_ID_LENGTH) (c_containerID c))) by (apply Hp; by left).
  pose proof (of_open_trunc_other (container_path config (take (Z.to_nat CONTAINER_ID_LENGTH) (c_containerID c))) s p Hne) as H1'.
  unfold of_open_trunc in *. destruct (creatable s _); simpl in *; [|inv_ok; done].
  inv_ok. simpl. by rewrite lookup_insert_ne.
Qed.

Lemma save_all_total cs s : (∀ p, creatable s p = true) → ∃ s', save_all config cs s = Ok s' ∧ creatable s' = creatable s.
Proof.
  revert s. induction cs as [|c cs IH]; intros s Hc; simpl; [by exists s|]. unfold SaveToFile, of_open_trunc.
  rewrite Hc. simpl. edestruct IH as (s' & E & Hs'); [|exists s'; split; [exact E|]]; [done|done].
Qed.

(** What an upload needs of the server's state: a consistent index, a file system that
    creates files. *)
Record serving (c0 s0 : Z) (others : list group) (sv : server DB) : Prop := {
  sg_index : index_ok (indexStore_ (sv_ix sv)) others;
  sg_num : _uniqueChunkNum (sv_ix sv) = u64 c0;
  sg_size : _uniqueDataSize (sv_ix sv) = u64 s0;
  sg_batch : Index.sendChunkBatchSize_ (sv_ix sv) = 256;
  sg_create : ∀ p, creatable (sv_fs sv) p = true }.

(** No recipe file of the name is a container file. *)
Definition apart (name : bytes) : Prop :=
  let '(rp, sp, kp) := recipe_paths config name in
  ∀ id, container_path config id ≠ rp ∧ container_path config id ≠ sp ∧ container_path config id ≠ kp.

Lemma dec_enc_head size num b off : 0 ≤ size < 2 ^ 64 → 0 ≤ num < 2 ^ 64 →
  bread b off 16 = enc_RecipeHead {| fileSize := size; totalChunkNum := num |} →
  dec_RecipeHead b off = {| fileSize := size; totalChunkNum := num |}.
Proof.
  intros Hs Hn Hb. unfold enc_RecipeHead in Hb. cbn [fileSize totalChunkNum] in Hb. change 16 with (8 + 8) in Hb.
  rewrite (bread_app _ off 8 8) in Hb by lia. apply app_inj_1 in Hb as [H1' H2']; [|by rewrite length_le_enc].
  unfold dec_RecipeHead. by rewrite H1', H2', !le_dec_enc8.
Qed.

(** The connection of an upload: the receiver follows the abstract session that starts
    with the login's file, the writer saves the session's containers, and the client has
    got the response and the answers to its queries. *)
Lemma upload_login_run c0 s0 others fuel mm (c : C) sv name size num login fs ms :
  serving c0 s0 others sv → 0 ≤ chunkNum (_curContainer (upload (m_object mm))) < 2 ^ 32 →
  zlen name = CHUNK_HASH_SIZE * 2 → 0 ≤ size < 2 ^ 64 → 0 ≤ num < 2 ^ 64 →
  is_login EDGE_MIGRATE_LOGIN (name ++ enc_RecipeHead {| fileSize := size; totalChunkNum := num |}) login →
  Forall2 is_upload fs ms → (length fs < fuel)%nat → chan c (login :: fs) [] →
  let '(rp, sp, kp) := recipe_paths config name in
  let u' := foldl (λ u m, u_step config hash others m u)
    (start_ustate config (m_object mm) rp sp kp size num (sv_fs sv) (sv_rng sv)) ms in
  ∃ sv' c' resp outs cs s, Run config stk fuel mm c sv = Ok (sv', c') ∧ cleared c' (resp :: outs) ∧
    Forall2 (λ st f, is_message f (protocol_code CLOUD_QUERY_RETURN) (zlen st) st) (u_answers u') outs ∧
    Forall2 sealed_as (a_final (u_a u')) cs ∧ files s = u_files u' ∧ (∀ p, creatable s p = true) ∧
    save_all config cs s = Ok (sv_fs sv') ∧ creatable (sv_fs sv') = creatable s ∧
    index_ok (indexStore_ (sv_ix sv')) (others ++ a_groups (u_a u')) ∧ sv_rng sv' = a_g (u_a u') ∧
    Index.sendChunkBatchSize_ (sv_ix sv') = 256 ∧
    _uniqueChunkNum (sv_ix sv') = u64 (c0 + zlen (all_entries (a_groups (u_a u')))) ∧
    _uniqueDataSize (sv_ix sv') = u64 (s0 + zlen (data_bytes (all_entries (a_groups (u_a u'))))).
Proof.
  intros [Hix Hnum Hsize Hbatch Hcr] Hraw Hn Hsz Hnm Hlogin Hfs Hfuel Hc. unfold Run.
  destruct (login_received _ _ _ _ _ _ mm Hc Hlogin) as (m & c1 & -> & Hc1 & Hcap & Ht & Hb). cbn [mbind result_bind check].
  rewrite Ht. unfold EdgeUploadThread. rewrite (login_paths_spec m name _ Hcap Hn Hb). cbn [mbind result_bind].
  assert (Hhead : dec_RecipeHead (sendBuffer m) (dataOff (CHUNK_HASH_SIZE * 2)) = {| fileSize := size; totalChunkNum := num |}).
  { apply dec_enc_head; [done|done|]. apply bread_suffix in Hb. rewrite Hn in Hb. exact Hb. }
  rewrite Hhead. cbn [fileSize totalChunkNum]. pose proof (recipe_paths_distinct config name name) as Hd.
  destruct (recipe_paths config name) as [[rp sp] kp]. destruct (Hd eq_refl) as (N1 & N2 & N3).
  destruct (answer_login_spec EDGE_LOGIN_RESPONSE sizeof_NetworkHead_t m c1 fs [] Hc1) as (c2 & Hans & Hc2);
    [rewrite Hcap, login_cap_val; unfold sizeof_NetworkHead_t; lia|rewrite Hcap, login_cap_val; lia|].
  set (resp := bread _ 0 sizeof_NetworkHead_t) in Hc2.
  destruct (start_at_state (H2 := joined [resp]) config (sv_ix sv) others c0 s0 c2 fs (m_client mm) (m_object mm) (clientID m)
    rp sp kp size num (sv_fs sv) (sv_rng sv) Hix Hnum Hsize Hbatch Hc2 Hcr N1 N2 N3 Hraw) as (r & -> & Hst).
  destruct r as [[client s1] g1]. cbn [mbind result_bind]. rewrite Hans. cbn [mbind result_bind].
  destruct (upload_Run_spec (H4 := joined [resp]) config stk c0 s0 others _ _ fs ms fuel Hst Hfs Hfuel)
    as (x & info & -> & Hp & _ & Hix' & Hfiles & Hcr' & (outs & Hout & Hq) & I1 & I2 & Hg & Hb' & J1 & J2).
  cbn [mbind result_bind]. destruct (save_all_total (pushed (_inputMQ (upload (s_client x)))) (s_fs x) Hcr') as (s' & E & Hs').
  rewrite E. cbn [mbind result_bind]. eexists _, _, resp, outs, _, _. split; [reflexivity|]. rewrite J1 in I1. rewrite J2 in I2.
  by split_and!.
Qed.

Lemma upload_login_spec c0 s0 others fuel mm (c : C) sv name size num login fs ms :
  serving c0 s0 others sv → 0 ≤ chunkNum (_curContainer (upload (m_object mm))) < 2 ^ 32 →
  zlen name = CHUNK_HASH_SIZE * 2 → 0 ≤ size < 2 ^ 64 → 0 ≤ num < 2 ^ 64 → apart name →
  let head := enc_RecipeHead {| fileSize := size; totalChunkNum := num |} in
  is_login EDGE_MIGRATE_LOGIN (name ++ head) login →
  Forall2 is_upload fs ms → one_file ms → (length fs < fuel)%nat → chan c (login :: fs) [] →
  ∃ sv' c', Run config stk fuel mm c sv = Ok (sv', c') ∧
    let '(rp, sp, kp) := recipe_paths config name in
    recipes_at (files (sv_fs sv')) rp sp kp (head ++ plain_of ms) (head ++ secure_of ms) (head ++ key_of ms).
Proof.
  intros Hsv Hraw Hn Hsz Hnm Hap head Hlogin Hfs Hone Hfuel Hc.
  pose proof (upload_login_run c0 s0 others fuel mm c sv name size num login fs ms Hsv Hraw Hn Hsz Hnm Hlogin Hfs Hfuel Hc) as Hr.
  pose proof (recipe_paths_distinct config name name) as Hd. unfold apart in Hap.
  destruct (recipe_paths config name) as [[rp sp] kp]. destruct (Hd eq_refl) as (N1 & N2 & N3).
  destruct Hr as (sv' & c' & resp & outs & cs & s & E & _ & _ & _ & Hfiles & _ & Esave & _).
  exists sv', c'. split; [done|].
  assert (Hu : recipes_at (u_files (start_ustate config (m_object mm) rp sp kp size num (sv_fs sv) (sv_rng sv))) rp sp kp head head head).
  { unfold start_ustate. simpl. split_and!; [rewrite !lookup_insert_ne by done; apply lookup_insert_eq|apply lookup_insert_eq|].
    rewrite lookup_insert_ne by done. apply lookup_insert_eq. }
  apply (u_steps_recipes others ms (start_ustate config (m_object mm) rp sp kp size num (sv_fs sv) (sv_rng sv))
    head head head Hone N1 N2 N3) in Hu. rewrite <- Hfiles in Hu. cbn [start_ustate u_rp u_sp u_kp] in Hu.
  destruct Hu as (R1 & R2 & R3). split_and!; (erewrite save_all_other; [eassumption|exact Esave|]);
    intros x _ Heq; destruct (Hap (take (Z.to_nat CONTAINER_ID_LENGTH) (c_containerID x))) as (? & ? & ?); congruence.
Qed.

(** *** The recipes a download gets *)

(** The answer to a recipe login: the type, and the recipe head as the data. *)
Definition is_recipe_answer (head f : bytes) : Prop :=
  take 4 f = le_enc 4 (edge_code EDGE_LOGIN_RESPONSE) ∧ drop 16 f = head.

(** The size of the buffer the recipe sender works with. *)
Definition recipe_cap : Z := sizeof_NetworkHead_t + GetSendRecipeBatchSize config * sizeof_RecipeEntry_t.

Lemma fresh_stream s p head entries : zlen head = sizeof_FileRecipeHead_t → files s !! p = Some (head ++ entries) →
  if_open (if_open_ p s) = true ∧ reading s (if_open_ p s) entries 0.
Proof.
  intros Hl Hf. assert (Ho : if_open (if_open_ p s) = true).
  { unfold if_open_, is_regular_file. simpl. apply bool_decide_eq_true_2. by rewrite Hf. }
  split; [done|]. split_and!; [done|done| |done|by exists head]. unfold if_open_ in *. simpl in *. by rewrite Ho.
Qed.

Lemma open_recipe_readers mem raw id rp sp kp s g plain secure key head :
  zlen head = sizeof_FileRecipeHead_t →
  recipes_at (files s) rp sp kp (head ++ plain) (head ++ secure) (head ++ key) →
  ∃ client, new_ClientVar config mem raw id DOWNLOAD_RECIPE_OPT rp sp kp 0 0 s g = Ok (client, s, g) ∧
    bufCap (_sendRecipeBuf client) = recipe_cap ∧
    read_handlers client = {| _recipeReadHandler := if_open_ rp s; _secureRecipeReadHandler := if_open_ sp s;
                              _keyRecipeReadHandler := if_open_ kp s |} ∧
    reading s (if_open_ rp s) plain 0 ∧ reading s (if_open_ sp s) secure 0 ∧ reading s (if_open_ kp s) key 0.
Proof.
  intros Hl (Hp & Hs & Hk). destruct (fresh_stream s rp head plain Hl Hp) as [O1 R1].
  destruct (fresh_stream s sp head secure Hl Hs) as [O2 R2]. destruct (fresh_stream s kp head key Hl Hk) as [O3 R3].
  unfold new_ClientVar, InitDownloadRecipeBuffer, open_readers.
  cbn [recipePath_ secureRecipePath_ keyRecipePath_ with_uploadDataSize with_file]. rewrite O1, O2, O3.
  cbn [check mbind result_bind]. eexists. split_and!; [reflexivity|done..].
Qed.

Lemma recipe_answer m head got : bufCap m = login_cap → zlen head = sizeof_FileRecipeHead_t → got = head →
  ∃ m', data_write m 0 got = Ok m' ∧ bufCap m' = login_cap ∧
    is_recipe_answer head (bread (sendBuffer (set_messageType (edge_code EDGE_LOGIN_RESPONSE) m')) 0
      (sizeof_NetworkHead_t + sizeof_FileRecipeHead_t)).
Proof.
  intros Hcap Hl ->. change sizeof_FileRecipeHead_t with 16 in *. change sizeof_NetworkHead_t with 16.
  rewrite data_write_ok by (unfold dataCap; rewrite ?Hcap, ?login_cap_val; change sizeof_NetworkHead_t with 16; lia).
  eexists. split_and!; [reflexivity|done|]. rewrite (bread_app _ 0 16 16) by lia.
  split.
  - rewrite take_app_le by (rewrite length_bread; lia). rewrite (bread_app _ 0 4 12) by lia.
    rewrite take_app_length' by (by rewrite length_bread). unfold set_messageType. simpl.
    by rewrite bread_bwrite_len by (by rewrite zlen_le_enc).
  - rewrite drop_app_length' by (by rewrite length_bread). unfold set_messageType. simpl.
    rewrite bread_bwrite_ne by (rewrite zlen_le_enc; lia). change (0 + 16) with (dataOff 0).
    by rewrite bread_bwrite_len.
Qed.

Lemma download_login_spec fuel mm (c : C) (sv : server DB) name login head plain secure key r0 rp rs rk :
  zlen name = CHUNK_HASH_SIZE * 2 → is_login EDGE_DOWNLOAD_RECIPE_LOGIN name login →
  zlen head = sizeof_FileRecipeHead_t →
  (let '(rp, sp, kp) := recipe_paths config name in
   recipes_at (files (sv_fs sv)) rp sp kp (head ++ plain) (head ++ secure) (head ++ key)) →
  Forall (is_ready recipe_cap) (r0 :: rp ++ rs ++ rk) →
  length rp = length (batches (recipe_batch config) plain) → length rs = length (batches (recipe_batch config) secure) →
  length rk = length (batches (recipe_batch config) key) →
  (length plain < fuel)%nat → (length secure < fuel)%nat → (length key < fuel)%nat →
  chan c (login :: r0 :: rp ++ rs ++ rk) [] →
  ∃ c' f frames, Run config stk fuel mm c sv = Ok (sv, c') ∧ cleared c' (f :: frames) ∧
    is_recipe_answer head f ∧ Forall2 is_batch (recipe_messages config plain secure key) frames.
Proof.
  intros Hn Hlogin Hl Hfiles Hrd L1 L2 L3 F1 F2 F3 Hc. unfold Run.
  destruct (login_received _ _ _ _ _ _ mm Hc Hlogin) as (m & c1 & -> & Hc1 & Hcap & Ht & Hb). cbn [mbind result_bind check].
  rewrite Ht. rewrite <- (app_nil_r name) in Hb. unfold EdgeDownloadRecipeThread.
  rewrite (login_paths_spec m name [] Hcap Hn Hb). cbn [mbind result_bind].
  destruct (recipe_paths config name) as [[p1 p2] p3].
  destruct (open_recipe_readers (m_client mm) (m_object mm) (clientID m) p1 p2 p3 (sv_fs sv) (sv_rng sv) plain secure key head Hl Hfiles)
    as (client & -> & Hscap & Hh & R1 & R2 & R3).
  assert (E : is_regular_file (sv_fs sv) p1 && is_regular_file (sv_fs sv) p2 && is_regular_file (sv_fs sv) p3 = true).
  { destruct Hfiles as (E1 & E2 & E3). unfold is_regular_file. rewrite E1, E2, E3. done. }
  rewrite E. cbn [mbind result_bind]. rewrite Hh. cbn [_recipeReadHandler].
  pose proof (skip_head _ _ _ R1) as R1'. destruct R1 as (O1 & E1 & F1' & P1 & head' & Hl' & Hf1).
  assert (head' = head) as ->.
  { destruct Hfiles as (Hf & _). change (if_path (if_open_ p1 (sv_fs sv))) with p1 in Hf1. rewrite Hf in Hf1. injection Hf1 as Hf1.
    apply app_inj_1 in Hf1 as [? _]; [done|]. unfold zlen in *. lia. }
  change sizeof_FileRecipeHead_t with 16 in Hl. pose proof (if_read_at _ _ _ 16 O1 E1 F1' Hf1) as Hread. rewrite P1 in Hread.
  destruct Hread as (h' & Hread & _); [lia|lia|]. rewrite drop_0, take_app_length' in Hread by (unfold zlen in Hl; lia).
  change sizeof_FileRecipeHead_t with 16 in *. rewrite Hread in *. cbn [snd] in R1'.
  destruct (recipe_answer m head head Hcap Hl eq_refl) as (m' & -> & Hcap' & Hans). cbn [mbind result_bind].
  destruct (answer_login_spec EDGE_LOGIN_RESPONSE (sizeof_NetworkHead_t + 16) m' c1 (r0 :: rp ++ rs ++ rk) [] Hc1) as (c2 & -> & Hc2);
    [rewrite Hcap', login_cap_val; change sizeof_NetworkHead_t with 16; lia|rewrite Hcap', login_cap_val; lia|].
  set (resp := bread _ 0 (sizeof_NetworkHead_t + 16)) in *. cbn [mbind result_bind app] in *.
  destruct (RecipeSender.Run_spec (H0 := joined [resp]) config fuel
    (with_readers {| _recipeReadHandler := h'; _secureRecipeReadHandler := if_open_ p2 (sv_fs sv);
       _keyRecipeReadHandler := if_open_ p3 (sv_fs sv) |} client) c2 (sv_fs sv) plain secure key r0 rp rs rk [])
    as (client' & c3 & frames & Hrun & Hc3 & Hfr); rewrite ?app_nil_r; try done; try by constructor.
  { by rewrite <- Hscap in Hrd. }
  cbn [_secureRecipeReadHandler _keyRecipeReadHandler]. rewrite Hrun. cbn [mbind result_bind].
  exists c3, resp, frames. split_and!; [by destruct sv|exact Hc3|exact Hans|exact Hfr].
Qed.

(** The connection of a chunk download: nothing of the server changes, and the client
    gets the response and the answers to its requests. *)
Lemma chunk_login_spec gs fuel mm (c : C) (sv : server DB) data login ready fss qss :
  disk_ok config (sv_fs sv) gs → 1 ≤ GetReadCacheSize config < 2 ^ 32 →
  is_login EDGE_DOWNLOAD_CHUNK_LOGIN data login → is_message ready (edge_code EDGE_RECEIVE_READY) 0 [] →
  Forall2 is_request fss qss → Forall (λ qs, requested gs (sv_ix sv) qs ∧ zlen qs ≤ 256) qss →
  chan c (login :: ready :: fss) [] → (length fss < fuel)%nat →
  ∃ c' resp ans, Run config stk fuel mm c sv = Ok (sv, c') ∧ cleared c' (resp :: concat ans) ∧
    Forall2 is_answer qss ans.
Proof.
  intros Hgs Hcache Hlogin Hready Hfs Hqs Hc Hfuel. unfold Run.
  destruct (login_received _ _ _ _ _ _ mm Hc Hlogin) as (m & c1 & -> & Hc1 & Hcap & Ht & Hb). cbn [mbind result_bind check].
  rewrite Ht. unfold EdgeDownloadChunkThread. unfold new_ClientVar. cbn [mbind result_bind].
  destruct (answer_login_spec EDGE_LOGIN_RESPONSE sizeof_NetworkHead_t m c1 (ready :: fss) [] Hc1) as (c2 & -> & Hc2);
    [rewrite Hcap, login_cap_val; unfold sizeof_NetworkHead_t; lia|rewrite Hcap, login_cap_val; lia|].
  set (resp := bread _ 0 sizeof_NetworkHead_t) in Hc2. cbn [mbind result_bind].
  match goal with |- context [ClientVar.restore (InitDownloadChunkBuffer _ _ ?client)] =>
    destruct (restore_Run_spec (H2 := joined [resp]) config (sv_fs sv) gs (sv_ix sv) (m_client mm) client c2 ready fss qss fuel
      Hgs Hcache Hready Hfs Hqs Hc2 Hfuel) as (r & ans & E & Hans & Hc3) end.
  unfold start_restore in E. rewrite E. cbn [mbind result_bind].
  exists (r_conn r), resp, ans. split_and!; [by destruct sv|exact Hc3|exact Hans].
Qed.

(** A file that was uploaded can be fetched: after the upload connection of a name
    ended, a recipe login with that name is answered with the file's size and chunk
    number as they were given at the upload, and the recipe sender delivers the plain,
    secure and key recipe entries the upload sent, in their order, in batches, and ends.
    *)
Theorem recipes_roundtrip c0 s0 others fuel mm (c : C) sv name size num login fs ms
    mm' (c1 : C) login' r0 rp rs rk fuel' :
  serving c0 s0 others sv → 0 ≤ chunkNum (_curContainer (upload (m_object mm))) < 2 ^ 32 →
  zlen name = CHUNK_HASH_SIZE * 2 → 0 ≤ size < 2 ^ 64 → 0 ≤ num < 2 ^ 64 → apart name →
  let head := enc_RecipeHead {| fileSize := size; totalChunkNum := num |} in
  is_login EDGE_MIGRATE_LOGIN (name ++ head) login →
  Forall2 is_upload fs ms → one_file ms → (length fs < fuel)%nat → chan c (login :: fs) [] →
  is_login EDGE_DOWNLOAD_RECIPE_LOGIN name login' →
  Forall (is_ready recipe_cap) (r0 :: rp ++ rs ++ rk) →
  length rp = length (batches (recipe_batch config) (plain_of ms)) →
  length rs = length (batches (recipe_batch config) (secure_of ms)) →
  length rk = length (batches (recipe_batch config) (key_of ms)) →
  (length (plain_of ms) < fuel')%nat → (length (secure_of ms) < fuel')%nat → (length (key_of ms) < fuel')%nat →
  chan c1 (login' :: r0 :: rp ++ rs ++ rk) [] →
  ∃ sv1 c' c2 f frames, Run config stk fuel mm c sv = Ok (sv1, c') ∧
    Run config stk fuel' mm' c1 sv1 = Ok (sv1, c2) ∧ cleared c2 (f :: frames) ∧ is_recipe_answer head f ∧
    Forall2 is_batch (recipe_messages config (plain_of ms) (secure_of ms) (key_of ms)) frames.
Proof.
  intros Hsv Hraw Hn Hsz Hnm Hap head Hlogin Hfs Hone Hfuel Hc Hlogin' Hrd L1 L2 L3 F1 F2 F3 Hc1.
  destruct (upload_login_spec c0 s0 others fuel mm c sv name size num login fs ms) as (sv1 & c' & Hrun & Hfiles); try done.
  fold head in Hfiles.
  destruct (download_login_spec fuel' mm' c1 sv1 name login' head (plain_of ms) (secure_of ms) (key_of ms) r0 rp rs rk)
    as (c2 & f & frames & Hrun' & Hc2 & Hf & Hfr); try done.
  by exists sv1, c', c2, f, frames.
Qed.
End Logins.

(** ** Restart *)

Lemma restart_spec config order g (sv : server InMemory.InMemoryDatabase) :
  let db := indexStore_ (sv_ix sv) in
  InMemory.dbName_ db = GetFp2ChunkDBName config → GetFp2ChunkDBName config ≠ persistentFileName_ →
  order ≡ₚ map_to_list (InMemory.indexObj_ db) → map_Forall (λ k v, InMemory.storable (k, v)) (InMemory.indexObj_ db) →
  zlen (InMemory.dump_pairs order) < 2 ^ 64 → stats_ok (sv_ix sv) →
  creatable (sv_fs sv) (GetFp2ChunkDBName config) = true → creatable (sv_fs sv) persistentFileName_ = true →
  ∃ sv', start_server config g (shutdown_server order sv) = Ok sv' ∧
    indexStore_ (sv_ix sv') = db ∧ same_stats (sv_ix sv) (sv_ix sv') ∧
    (∀ p, p ≠ persistentFileName_ → p ≠ GetFp2ChunkDBName config → files (sv_fs sv') !! p = files (sv_fs sv) !! p) ∧
    sv_rng sv' = g ∧ Index.sendChunkBatchSize_ (sv_ix sv') = 256 ∧
    storageCoreObj_ (sv_ix sv') = {| writtenDataSize_ := 0; writtenChunkNum_ := 0 |} ∧
    creatable (sv_fs sv') = creatable (sv_fs sv).
Proof.
  intros db Hname Hne Hord Hst Hlen Hstats Hc1 Hc2. unfold start_server, shutdown_server. fold db.
  destruct (delete_AbsIndex_file (sv_ix sv) (sv_fs sv) Hc2) as [Hf Ho].
  pose proof (delete_AbsIndex_creatable (sv_ix sv) (sv_fs sv)) as Hcr. set (s1 := delete_AbsIndex _ _) in *.
  rewrite <- Hname in *. rewrite InMemory.reload_spec by (try done; by rewrite Hcr). cbn [mbind result_bind].
  destruct (new_AbsIndex_stats config (sv_ix sv) db {| writtenDataSize_ := 0; writtenChunkNum_ := 0 |} (InMemory.destroy order db s1))
    as (ix' & -> & Hsame & Hdb & Hb & Hsc); [by rewrite InMemory.destroy_other|done|].
  eexists. split; [reflexivity|]. split_and!; [done|done| |done|done|done|simpl; by rewrite InMemory.destroy_creatable].
  intros p H1 H2. simpl. by rewrite InMemory.destroy_other, Ho.
Qed.

(** C18: a restart loses nothing: when the server is shut down, whatever order the hash
    map is written in, the next start has the same chunk index and the same persistent
    counters, with the counters of the run at zero, and all other files are as they
    were. *)
Theorem restart_preserves config order g (sv : server InMemory.InMemoryDatabase) :
  let db := indexStore_ (sv_ix sv) in
  InMemory.dbName_ db = GetFp2ChunkDBName config → GetFp2ChunkDBName config ≠ persistentFileName_ →
  order ≡ₚ map_to_list (InMemory.indexObj_ db) → map_Forall (λ k v, InMemory.storable (k, v)) (InMemory.indexObj_ db) →
  zlen (InMemory.dump_pairs order) < 2 ^ 64 → stats_ok (sv_ix sv) →
  creatable (sv_fs sv) (GetFp2ChunkDBName config) = true → creatable (sv_fs sv) persistentFileName_ = true →
  ∃ sv', start_server config g (shutdown_server order sv) = Ok sv' ∧
    indexStore_ (sv_ix sv') = db ∧ same_stats (sv_ix sv) (sv_ix sv') ∧
    ∀ p, p ≠ persistentFileName_ → p ≠ GetFp2ChunkDBName config → files (sv_fs sv') !! p = files (sv_fs sv) !! p.
Proof.
  intros db H1 H2 H3 H4 H5 H6 H7 H8.
  destruct (restart_spec config order g sv H1 H2 H3 H4 H5 H6 H7 H8) as (sv' & E & ? & ? & ? & _). by exists sv'.
Qed.

(** ** Concrete connections *)

Definition sample_file : bytes := replicate 64 97.
Definition sample_head : bytes := enc_RecipeHead {| fileSize := 8; totalChunkNum := 3 |}.
Definition sample_memory : memory :=
  {| m_login := zero_buf; m_client := λ _, zero_buf; m_object := raw_client 0 |}.
Definition sample_server : server InMemory.InMemoryDatabase :=
  {| sv_ix := sample_ix; sv_fs := InMemory.empty_fs; sv_rng := sample_rng |}.
Definition sample_ack : bytes := sample_frame (edge_code EDGE_RECEIVE_READY) 0 [].

Lemma sample_login type data : zlen data ≤ CHUNK_HASH_SIZE * 2 + sizeof_FileRecipeHead_t →
  is_login type data (sample_frame (edge_code type) 0 data).
Proof. intros Hl. by split; [apply sample_frame_ok|]. Qed.


Lemma recipes_roundtrip_witness :
  ∃ sv1 c' c2 f frames,
    Run (H0 := sample_hash) sample_config zero_buf 5 sample_memory
      ((sample_frame (edge_code EDGE_MIGRATE_LOGIN) 0 (sample_file ++ sample_head) :: sample_frames, []) : ListChannel.t)
      sample_server = Ok (sv1, c') ∧
    Run (H0 := sample_hash) sample_config zero_buf 65 sample_memory
      (([sample_frame (edge_code EDGE_DOWNLOAD_RECIPE_LOGIN) 0 sample_file; sample_ack; sample_ack], []) : ListChannel.t)
      sv1 = Ok (sv1, c2) ∧ cleared c2 (f :: frames) ∧ is_recipe_answer sample_head f ∧
    Forall2 is_batch (recipe_messages sample_config [] (Toy.digest SHA_256 [4] ++ replicate 32 9) []) frames.
Proof.
  assert (Hr : is_ready (recipe_cap sample_config) sample_ack).
  { exists 0, []. split; [apply sample_frame_ok|]. by vm_compute. }
  apply (recipes_roundtrip (hash := Toy.digest SHA_256) sample_config zero_buf 0 0 [] 5 sample_memory
    ((sample_frame (edge_code EDGE_MIGRATE_LOGIN) 0 (sample_file ++ sample_head) :: sample_frames, []) : ListChannel.t)
    sample_server sample_file 8 3 (sample_frame (edge_code EDGE_MIGRATE_LOGIN) 0 (sample_file ++ sample_head))
    sample_frames sample_msgs sample_memory
    (([sample_frame (edge_code EDGE_DOWNLOAD_RECIPE_LOGIN) 0 sample_file; sample_ack; sample_ack], []) : ListChannel.t)
    (sample_frame (edge_code EDGE_DOWNLOAD_RECIPE_LOGIN) 0 sample_file) sample_ack [] [sample_ack] []).
  - split; try done. intros h n. rewrite InMemory.stored_lookup. simpl. rewrite lookup_empty. split; [done|].
    intros (es & Hin & _). by apply elem_of_nil in Hin.
  - done.
  - by vm_compute.
  - done.
  - done.
  - intros id. split_and!; by intros [=].
  - apply sample_login. by vm_compute.
  - exact sample_uploads.
  - by repeat constructor.
  - simpl. lia.
  - done.
  - apply sample_login. by vm_compute.
  - by repeat constructor.
  - by vm_compute.
  - by vm_compute.
  - by vm_compute.
  - simpl. lia.
  - apply Nat.ltb_lt. by vm_compute.
  - simpl. lia.
  - done.
Defined.

Definition sample_indexed : server InMemory.InMemoryDatabase :=
  {| sv_ix := {| indexStore_ := {| InMemory.dbName_ := GetFp2ChunkDBName sample_config; InMemory.indexObj_ := {[ [1] := [2; 3] ]} |};
       storageCoreObj_ := {| writtenDataSize_ := 0; writtenChunkNum_ := 0 |}; sendChunkBatchSize_ := 256;
       sendRecipeBatchSize_ := 1024; totalRecvDataSize_ := 8; totalBatchNum_ := 1; _logicalDataSize := 8;
       _logicalChunkNum := 2; _uniqueDataSize := 4; _uniqueChunkNum := 1; _compressedDataSize := 0 |};
     sv_fs := InMemory.empty_fs; sv_rng := sample_rng |}.

Lemma restart_preserves_witness :
  ∃ sv', start_server sample_config sample_rng (shutdown_server [([1], [2; 3])] sample_indexed) = Ok sv' ∧
    indexStore_ (sv_ix sv') = indexStore_ (sv_ix sample_indexed) ∧ same_stats (sv_ix sample_indexed) (sv_ix sv') ∧
    ∀ p, p ≠ persistentFileName_ → p ≠ GetFp2ChunkDBName sample_config →
      files (sv_fs sv') !! p = files (sv_fs sample_indexed) !! p.
Proof.
  apply (restart_preserves sample_config [([1], [2; 3])] sample_rng sample_indexed).
  - done.
  - done.
  - change (InMemory.indexObj_ _) with ({[ [1] := [2; 3] ]} : gmap bytes bytes). by rewrite map_to_list_singleton.
  - by apply map_Forall_singleton.
  - done.
  - by repeat constructor.
  - done.
  - done.
Defined.
