(* ===== verification/Typing.v ===== *)
(** * The types of an upload session, for every input

    The theorems of [DataReceiver] are about clients that send legal messages.  Here
    nothing is assumed about the bytes a client sends, nor about the index: whatever
    the receiver is given, as long as it does not fault, every field keeps to its C
    type and every container it hands to the writer fits its array. *)
From Stdlib Require Import ZArith Lia.
From stdpp Require Import base tactics numbers list gmap.
From S2P Require Import RecvDecoder EndToEnd RecipeSender ServerOpt.
From S2P Require Import Prelude Common FileSystem ClientVar Storage Database Crypto Index SslConn DataReceiver.
#[local] Open Scope Z_scope.

Definition is_u32 (x : Z) : Prop := 0 ≤ x < 2 ^ 32.
Definition is_u64 (x : Z) : Prop := 0 ≤ x < 2 ^ 64.

Lemma is_u32_wrap x : is_u32 (u32 x).
Proof. apply Z.mod_pos_bound. lia. Qed.
Lemma is_u64_wrap x : is_u64 (u64 x).
Proof. apply Z.mod_pos_bound. lia. Qed.
#[export] Hint Resolve is_u32_wrap is_u64_wrap : cloud.

(** A container as the writer gets it. *)
Record typed_container (c : Container_t) : Prop := {
  tc_name : zlen (c_containerID c) = CONTAINER_ID_LENGTH;
  tc_size : sizeof_uint32_t ≤ c_currentSize c ≤ MAX_CONTAINER_SIZE }.

Record typed_upload (u : UploadState) : Prop := {
  tu_name : zlen (containerID (_curContainer u)) = CONTAINER_ID_LENGTH;
  tu_num : is_u32 (chunkNum (_curContainer u));
  tu_body : is_u32 (currentBodySize (_curContainer u));
  tu_header : is_u32 (currentHeaderSize (_curContainer u));
  tu_pushed : Forall typed_container (pushed (_inputMQ u)) }.

(** [P] is what the index store itself keeps to. *)
Record typed_index {DB} (P : DB → Prop) (ix : AbsIndex DB) : Prop := {
  ti_store : P (indexStore_ ix);
  ti_stats : stats_ok ix;
  ti_recv : is_u64 (totalRecvDataSize_ ix);
  ti_batches : is_u64 (totalBatchNum_ ix);
  ti_written : is_u64 (writtenDataSize_ (storageCoreObj_ ix)) ∧ is_u64 (writtenChunkNum_ (storageCoreObj_ ix)) }.

Record typed_session {DB C} (P : DB → Prop) (x : session (DB := DB) (C := C)) : Prop := {
  ts_index : typed_index P (s_ix x);
  ts_upload : typed_upload (upload (s_client x));
  ts_batches : is_u64 (batchNum_ x) ∧ is_u64 (recipeBatchNum_ x) ∧ is_u64 (recipeEndNum_ x) }.
#[export] Hint Resolve ts_index ts_upload : cloud.

(** ** Containers *)

Lemma typed_recv m u : typed_upload (with_recvChunkBuf m u) ↔ typed_upload u.
Proof. split; intros []; by split. Qed.

Lemma Ocall_typed stk u u' : Ocall_WriteContainer stk u = Ok u' → typed_upload u →
  typed_upload u' ∧ _curContainer u' = _curContainer u.
Proof.
  intros E [Hn Hc Hb Hh Hp]. unfold Ocall_WriteContainer in E. inv_ok. zbool. split; [|done].
  split; try done. simpl. apply Forall_app. split; [done|]. constructor; [|constructor]. split; [done|]. simpl.
  unfold is_u32 in *. sizes. change (u32 (0 + 4)) with 4 in *.
  rewrite (u32_small (4 + _)) in * by lia. rewrite u32_small by lia. lia.
Qed.

Lemma append_typed data pos n h u name u' : append_chunk data pos n h u = Ok (name, u') → typed_upload u →
  typed_upload u'.
Proof.
  intros E [Hn Hc Hb Hh Hp]. unfold append_chunk in E. inv_ok. split; simpl; auto with cloud.
Qed.

Lemma WriteContainer_typed stk data pos n h u g name u' g' :
  WriteContainer stk data pos n h u g = Ok (name, u', g') → typed_upload u → typed_upload u'.
Proof.
  intros E Hu. unfold WriteContainer in E. inv_ok. destruct r as [u1 g1]. inv_ok. destruct r as [name1 u2]. inv_ok.
  eapply append_typed; [done|]. destruct (_ >=? _); inv_ok; [|done].
  destruct (Ocall_typed _ _ _ E Hu) as [[Hn Hc Hb Hh Hp] _]. pose proof (zlen_CreateUUID g) as Hid.
  destruct (CreateUUID _ g) as [id g2]. inv_ok. split; simpl; by auto.
Qed.

(** ** The index *)

Section Index.
Context `{AbsDatabase DB} `{ChunkHash} (stk : buf).
Context (P : DB → Prop) (HP : ∀ db k v, P db → P (Insert db k v).2).

Lemma count_batch_typed n (ix : AbsIndex DB) : typed_index P ix → typed_index P (count_batch n ix).
Proof. intros [Hp Hs Hr Hb Hw]. split; simpl; auto with cloud. Qed.

Lemma count_unique_typed sc n (ix : AbsIndex DB) : is_u64 (writtenDataSize_ sc) → is_u64 (writtenChunkNum_ sc) →
  typed_index P ix → typed_index P (count_unique sc n ix).
Proof.
  intros H1 H2 [Hp Hs Hr Hb Hw]. split; simpl; [done| |done..]. unfold stats_ok in *. rewrite !Forall_cons in *. simpl.
  destruct Hs as (? & ? & _ & _ & ? & _). repeat (split; [first [done|apply is_u64_wrap]|]); constructor.
Qed.

Lemma Update_typed key v (ix : AbsIndex DB) : typed_index P ix → typed_index P (UpdateIndexStore key v ix).2.
Proof. intros [Hp Hs Hr Hb Hw]. unfold UpdateIndexStore. pose proof (HP _ key v Hp).
  destruct (Insert _ _ _) as [b db]. by split. Qed.

Lemma process_chunk_typed (ix : AbsIndex DB) u g off name ix' u' g' off' name' :
  process_chunk stk ix u g off name = Ok (ix', u', g', off', name') →
  typed_index P ix → typed_upload u → typed_index P ix' ∧ typed_upload u'.
Proof.
  intros E Hix Hu. unfold process_chunk in E. inv_ok. destruct (ReadIndexStore _ _ _) as [status name1].
  inv_ok. destruct r2 as [[[ix1 u1] g1] name2]. inv_ok. destruct (negb status); inv_ok; [|done].
  destruct r2 as [[[name3 sc] u2] g2]. unfold SaveChunk in E. inv_ok. destruct r2 as [[name4 u3] g3]. inv_ok.
  pose proof (Update_typed r1 name3 ix Hix) as Hup. destruct (UpdateIndexStore r1 name3 ix) as [b ix2]. inv_ok.
  split; [|by eapply WriteContainer_typed]. apply count_unique_typed; [apply is_u64_wrap..|done].
Qed.

Lemma process_chunks_typed n : ∀ (ix : AbsIndex DB) u g off name ix' u' g',
  process_chunks stk n ix u g off name = Ok (ix', u', g') →
  typed_index P ix → typed_upload u → typed_index P ix' ∧ typed_upload u'.
Proof.
  induction n as [|n IH]; intros ix u g off name ix' u' g' E Hix Hu; simpl in E; inv_ok; [done|].
  destruct r as [[[[ix1 u1] g1] off1] name1]. destruct (process_chunk_typed _ _ _ _ _ _ _ _ _ _ E0 Hix Hu).
  by eapply IH.
Qed.

Lemma ProcessOneBatch_typed (ix : AbsIndex DB) u g ix' u' g' : ProcessOneBatch stk ix u g = Ok (ix', u', g') →
  typed_index P ix → typed_upload u → typed_index P ix' ∧ typed_upload u'.
Proof.
  intros E Hix Hu. unfold ProcessOneBatch in E. inv_ok. destruct r as [[ix1 u1] g1]. inv_ok.
  rewrite typed_recv. eapply process_chunks_typed; [done|by apply count_batch_typed|done].
Qed.
End Index.

(** ** The session *)

Section Session.
Context (config : Configure) `{AbsDatabase DB} `{ChunkHash} `{Channel C} (stk : buf).
Context (P : DB → Prop) (HP : ∀ db k v, P db → P (Insert db k v).2).

Lemma upload_ChangeFile name size num c s c' s' : ChangeFile config name size num c s = Ok (c', s') →
  upload c' = upload c.
Proof.
  unfold ChangeFile. destruct (recipe_paths config name) as [[rp sp] kp]. intros E.
  destruct (optType_ _); inv_ok; [by destruct r; inv_ok|done..].
Qed.

Lemma receive_typed (x x' : session (DB := DB) (C := C)) ok : receive x = Ok (ok, x') → typed_session P x → typed_session P x'.
Proof.
  intros E [Hix Hu Hn]. unfold receive in E. inv_ok. destruct r as [[[ok1 n] m] conn]. inv_ok.
  split; simpl; [done| |done]. by apply typed_recv.
Qed.

Lemma ProcessRecipeBatch_upload (ix : AbsIndex DB) u h s u' h' s' : ProcessRecipeBatch ix u h s = Ok (u', h', s') →
  typed_upload u → typed_upload u'.
Proof.
  intros E Hu. unfold ProcessRecipeBatch in E. inv_ok. destruct (of_write _ _ _) as [h1 s1]. inv_ok. by apply typed_recv.
Qed.

Lemma handle_typed (x x' : session (DB := DB) (C := C)) : handle config stk x = Ok x' → typed_session P x → typed_session P x'.
Proof.
  intros E [Hix Hu Hn]. unfold handle in E. destruct (edge_decode _) as [[]|]; inv_ok; try by split.
  all: try (destruct Hn as (N1 & N2 & N3)).
  all: lazymatch goal with
    | E : ProcessOneBatch _ _ _ _ = Ok ?r |- _ =>
        destruct r as [[ix u] g]; inv_ok; destruct (ProcessOneBatch_typed _ P HP _ _ _ _ _ _ E Hix Hu)
    | E : ProcessRecipeBatch _ _ _ _ = Ok ?r |- _ =>
        destruct r as [[u h] s]; inv_ok; destruct r0 as [b conn]; inv_ok;
        pose proof (ProcessRecipeBatch_upload _ _ _ _ _ _ _ E Hu)
    | E : ChangeFile _ _ _ _ _ _ = Ok ?r |- _ =>
        destruct r as [c s]; inv_ok; pose proof (upload_ChangeFile _ _ _ _ _ _ _ E) as Hc
    | E : context [of_write ?a ?b ?c] |- _ => destruct (of_write a b c) as [h s]; inv_ok
    | _ => idtac
    end.
  all: split; simpl; [done| |auto with cloud]; first [done|by rewrite Hc].
Qed.

Lemma receive_loop_typed fuel : ∀ x x' : session (DB := DB) (C := C),
  receive_loop config stk fuel x = Ok x' → typed_session P x → typed_session P x'.
Proof.
  induction fuel as [|fuel IH]; intros x x' E Hx; simpl in E; inv_ok. destruct r as [ok x1].
  pose proof (receive_typed _ _ _ E0 Hx) as Hx1. destruct (negb ok); inv_ok; [|by eauto using handle_typed].
  by destruct Hx1.
Qed.

Lemma session_typed fuel (x x' : session (DB := DB) (C := C)) info :
  DataReceiver.Run config stk fuel x = Ok (x', info) → typed_session P x → typed_session P x'.
Proof.
  intros E [Hix Hu Hn]. unfold DataReceiver.Run in E. inv_ok.
  assert (Hr : typed_session P r).
  { eapply receive_loop_typed; [exact E0|]. split; simpl; [|done..]. destruct Hix as [Hp Hs Hr Hb Hw]. split; simpl; [done| |done..].
    unfold stats_ok in *. rewrite !Forall_cons in *. simpl. destruct Hs as (_ & _ & ? & ? & ? & _).
    repeat (split; [first [done|apply is_u64_wrap]|]); constructor. }
  destruct Hr as [Hix' Hu' Hn']. unfold finish_upload, last_container in E1. inv_ok. split; simpl; [done| |done].
  lazymatch goal with E : (if _ then Ocall_WriteContainer _ _ else _) = Ok ?r0 |- _ =>
    assert (Hr0 : typed_upload r0) by (destruct (negb _); inv_ok; [by eapply Ocall_typed|done]) end. by destruct Hr0.
Qed.

(** Whatever a client sends, the upload receiver keeps every field to its type: if
    it ends without a fault, all counters of the index, the storage core and the
    receiver are still 64-bit values, the fields of the current container are 32-bit
    values, and every container that was handed to the writer has a name of the right
    length and a size within its array; whatever property of the index store insertion
    keeps is kept as well; nothing is assumed of the messages, the index or the hash. *)
Theorem Run_typed fuel (x x' : session (DB := DB) (C := C)) info :
  DataReceiver.Run config stk fuel x = Ok (x', info) → typed_session P x → typed_session P x'.
Proof. apply session_typed. Qed.

(** The object of an upload request. *)
Lemma InitUploadBuffer_typed mem c s g c' s' g' : InitUploadBuffer config mem c s g = Ok (c', s', g') →
  is_u32 (chunkNum (_curContainer (upload c))) → typed_upload (upload c').
Proof.
  intros E Hn. unfold InitUploadBuffer in E. pose proof (zlen_CreateUUID g) as Hid.
  destruct (CreateUUID CONTAINER_ID_LENGTH g) as [id g1]. inv_ok. destruct r as [w s1]. inv_ok.
  by split; simpl; [..|constructor].
Qed.

(** Whatever the bytes of a connection are, the server's index keeps to its types. *)
Lemma server_typed fuel mm (c c' : C) (sv sv' : server DB) :
  ServerOpt.Run config stk fuel mm c sv = Ok (sv', c') →
  is_u32 (chunkNum (_curContainer (upload (m_object mm)))) → typed_index P (sv_ix sv) → typed_index P (sv_ix sv').
Proof.
  intros E Hn Hix. unfold ServerOpt.Run in E. inv_ok. destruct r as [[[ok n] m] c1]. inv_ok.
  destruct (edge_decode _) as [[]|]; inv_ok.
  - unfold EdgeUploadThread in E. inv_ok. destruct r0 as [[rp sp] kp]. inv_ok.
    lazymatch goal with E : new_ClientVar _ _ _ _ _ _ _ _ _ _ _ _ = Ok ?r |- _ =>
      destruct r as [[client s1] g1]; rename E into Enew end. inv_ok.
    lazymatch goal with E : DataReceiver.Run _ _ _ _ = Ok ?r |- _ => destruct r as [x info]; rename E into Erun end. inv_ok.
    eapply (ts_index P), (session_typed _ _ _ _ Erun). split; simpl; [done| |done].
    eapply InitUploadBuffer_typed; [exact Enew|exact Hn].
  - unfold EdgeDownloadRecipeThread in E. inv_ok. destruct r0 as [[rp sp] kp]. destruct (_ && _); inv_ok.
    lazymatch goal with E : new_ClientVar _ _ _ _ _ _ _ _ _ _ _ _ = Ok ?r |- _ => destruct r as [[client s1] g1] end. inv_ok.
    destruct (if_read _ _ _) as [got h]. inv_ok.
    lazymatch goal with E : RecipeSender.Run _ _ _ _ _ = Ok ?r |- _ => destruct r as [x c2] end. by inv_ok.
  - unfold EdgeDownloadChunkThread in E. inv_ok.
    lazymatch goal with E : new_ClientVar _ _ _ _ _ _ _ _ _ _ _ _ = Ok ?r |- _ => destruct r as [[client s1] g1] end.
    by inv_ok.
Qed.
End Session.

(** ** A concrete session *)

(** A client that sends one legal batch, a batch whose count is 0, a query of a hash, and closes. *)
Definition sample_odd_frames : list bytes :=
  [sample_frame (edge_code EDGE_MIGRATION_CHUNK) 3 (payload sample_chunks); sample_frame (edge_code EDGE_MIGRATION_CHUNK) 0 [255];
   sample_frame (edge_code EDGE_UPLOAD_SEC_RECIPE) 1 (replicate 32 0)].

Lemma sample_typed n ins : is_u32 n → typed_session (λ _, True) (sample_session n ins).
Proof.
  intros Hn. split; [split; [done|by repeat constructor|done..]| |done]. split; [done|exact Hn|done..|by constructor].
Defined.

Lemma Run_typed_witness :
  match DataReceiver.Run (H0 := sample_hash) sample_config zero_buf 4 (sample_session 4294967295 sample_odd_frames) with
  | Ok (x', _) => typed_session (λ _, True) x' ∧ chunkNum (_curContainer (upload (s_client x'))) = 1
  | Err _ => False
  end.
Proof.
  destruct (DataReceiver.Run (H0 := sample_hash) sample_config zero_buf 4 (sample_session 4294967295 sample_odd_frames)) as [[x' info]|f] eqn:E.
  - split.
    + apply (Run_typed (H0 := sample_hash) sample_config zero_buf (λ _, True) (λ _ _ _ _, I) 4 (sample_session 4294967295 sample_odd_frames) x' info E).
      apply sample_typed. unfold is_u32. lia.
    + assert (Hc : match DataReceiver.Run (H0 := sample_hash) sample_config zero_buf 4 (sample_session 4294967295 sample_odd_frames) with
        | Ok (x', _) => chunkNum (_curContainer (upload (s_client x'))) | Err _ => 0 end = 1) by (by vm_compute).
      by rewrite E in Hc.
  - assert (Hc : match DataReceiver.Run (H0 := sample_hash) sample_config zero_buf 4 (sample_session 4294967295 sample_odd_frames) with
      | Ok _ => true | Err _ => false end = true) by (by vm_compute).
    by rewrite E in Hc.
Defined.
