(* ===== verification/Lifetime.v ===== *)
(** * The life of the server

    All connections of a server put together, from its first start on: uploads, recipe
    downloads, chunk downloads and restarts, in any order.  The specification is an
    abstract store: the containers with their entries, the recipes by file name, and
    the supply of container names.  One theorem is the simulation of the server by the
    store, the other what it means for a client: a chunk that was ever uploaded is
    given back.  Both are about legal histories: what that asks of the clients, of the
    random names and of the memory uploads start in is spelled out at [legal],
    [count_zeroed] and [carries].

    Connections are served one after the other here; what may overlap is in
    [ClientLocks], [IndexThreads] and [WriterLoop]. *)
From Stdlib Require Import ZArith Lia.
From stdpp Require Import base tactics numbers list gmap fin_maps.
From S2P Require Import Prelude Common FileSystem LruCache ReadCache RecvDecoder ClientVar Storage Database Crypto Index.
From S2P Require Import DataWriter SslConn DataReceiver EndToEnd RecipeSender ServerOpt Typing.
#[local] Open Scope Z_scope.

(** ** The abstract store *)

(** What the server keeps about a file: its head and the three lists of entries. *)
Record recipe := { rc_head : bytes; rc_plain : bytes; rc_secure : bytes; rc_key : bytes }.

Record store := { st_groups : list group; st_recipes : gmap bytes recipe; st_rng : rng }.

Inductive event :=
| EUpload (name : bytes) (size num : Z) (ms : list umsg)
| ERecipes (name : bytes)
| EChunks (hss : list (list bytes))
| EReboot (g : rng).

Definition new_recipe (size num : Z) : recipe :=
  {| rc_head := enc_RecipeHead {| fileSize := size; totalChunkNum := num |};
     rc_plain := []; rc_secure := []; rc_key := [] |}.

Definition add_plain (bs : bytes) (r : recipe) : recipe :=
  {| rc_head := rc_head r; rc_plain := rc_plain r ++ bs; rc_secure := rc_secure r; rc_key := rc_key r |}.
Definition add_secure (bs : bytes) (r : recipe) : recipe :=
  {| rc_head := rc_head r; rc_plain := rc_plain r; rc_secure := rc_secure r ++ bs; rc_key := rc_key r |}.
Definition add_key (bs : bytes) (r : recipe) : recipe :=
  {| rc_head := rc_head r; rc_plain := rc_plain r; rc_secure := rc_secure r; rc_key := rc_key r ++ bs |}.

(** A message of an upload, for the current file and the recipes. *)
Definition r_step (m : umsg) (x : bytes * gmap bytes recipe) : bytes * gmap bytes recipe :=
  let '(cur, rs) := x in
  match m with
  | UNewFile name size num => (name, <[name := new_recipe size num]> rs)
  | URecipe hs => (cur, alter (add_plain (concat hs)) cur rs)
  | USecRecipe hs => (cur, alter (add_secure (concat hs)) cur rs)
  | UKeyRecipe hs => (cur, alter (add_key (concat hs)) cur rs)
  | UChunks _ | UChunksFinal | USecRecipeEnd | URecipeEnd _ _ => (cur, rs)
  end.

(** The answers to the queries of an upload. *)
Fixpoint replies (hash : bytes → bytes) (others : list group) (a : astate) (ms : list umsg) : list bytes :=
  match ms with
  | [] => []
  | UChunks ds :: ms => replies hash others (foldl (a_store hash others) a ds) ms
  | USecRecipe hs :: ms => needed others a hs :: replies hash others a ms
  | _ :: ms => replies hash others a ms
  end.

(** The session an upload starts with: an empty container with the next name; [n0] is what
    the memory of the client object holds as the container's chunk count, which the
    constructor leaves as it is (clientVar.cc:90). *)
Definition open_container (n0 : Z) (g : rng) : astate :=
  {| a_sealed := []; a_id := (CreateUUID CONTAINER_ID_LENGTH g).1; a_n0 := n0; a_es := [];
     a_g := (CreateUUID CONTAINER_ID_LENGTH g).2 |}.

Section Spec.
Context (config : Configure) (hash : bytes → bytes).

(** The session at the end of an upload whose chunk count happened to be zero. *)
Definition session_end (ms : list umsg) (st : store) : astate :=
  foldl (a_store hash (st_groups st)) (open_container 0 (st_rng st)) (uploaded ms).

Definition st_step (e : event) (st : store) : store :=
  match e with
  | EUpload name size num ms =>
      {| st_groups := st_groups st ++ final_groups (session_end ms st);
         st_recipes := (foldl (λ x m, r_step m x) (name, <[name := new_recipe size num]> (st_recipes st)) ms).2;
         st_rng := a_g (session_end ms st) |}
  | EReboot g => {| st_groups := st_groups st; st_recipes := st_recipes st; st_rng := g |}
  | ERecipes _ | EChunks _ => st
  end.

(** What a client may ask for in a state: the names the upload draws for its containers
    are not taken; recipes are asked for files that exist, chunks by hashes the server
    has; and the index fits the database file when it is written. *)
Definition legal (e : event) (st : store) : Prop :=
  match e with
  | EUpload name size num ms =>
      zlen name = CHUNK_HASH_SIZE * 2 ∧ 0 ≤ size < 2 ^ 64 ∧ 0 ≤ num < 2 ^ 64 ∧
      NoDup ((st_groups st).*1 ++ uuids (S (length (uploaded ms))) (st_rng st))
  | ERecipes name => is_Some (st_recipes st !! name)
  | EChunks hss => Forall (λ hs, hs ⊆ hashes (st_groups st) ∧ zlen hs ≤ 256) hss
  | EReboot g => 48 * zlen (all_entries (st_groups st)) < 2 ^ 64
  end.
End Spec.

(** The data of the chunk with a given hash. *)
Definition chunk_of (gs : list group) (h : bytes) : option bytes :=
  (list_to_map (all_entries gs) : gmap bytes bytes) !! h.

(** ** Files *)

(** The server's files are apart: no container and no recipe file has the path of the
    database or of the statistics, and no container that of a recipe. *)
Record layout_ok (config : Configure) : Prop := {
  lo_db : GetFp2ChunkDBName config ≠ persistentFileName_;
  lo_container : ∀ id, container_path config id ≠ GetFp2ChunkDBName config ∧
    container_path config id ≠ persistentFileName_;
  lo_recipe : ∀ name, zlen name = CHUNK_HASH_SIZE * 2 →
    let '(rp, sp, kp) := recipe_paths config name in
    Forall (λ p, p ≠ GetFp2ChunkDBName config ∧ p ≠ persistentFileName_) [rp; sp; kp];
  lo_apart : ∀ name, zlen name = CHUNK_HASH_SIZE * 2 → apart config name }.

Definition paths (config : Configure) (name : bytes) : list bytes :=
  let '(rp, sp, kp) := recipe_paths config name in [rp; sp; kp].

Lemma paths_disjoint config n n' p q : zlen n = zlen n' → n ≠ n' →
  p ∈ paths config n → q ∈ paths config n' → p ≠ q.
Proof.
  intros Hl Hne Hp Hq ->. assert (Hn : length n = length n') by (unfold zlen in Hl; lia).
  unfold paths, recipe_paths in *. apply Hne.
  repeat (apply elem_of_cons in Hp as [->|Hp]; [|]); try by apply elem_of_nil in Hp.
  all: repeat (apply elem_of_cons in Hq as [Hq|Hq]; [by apply app_inv_head, app_inj_1 in Hq as [? _]|]).
  all: by apply elem_of_nil in Hq.
Qed.

(** The recipe of a name is in its three files. *)
Definition holds_recipe (config : Configure) (fm : gmap bytes bytes) (name : bytes) (r : recipe) : Prop :=
  zlen name = CHUNK_HASH_SIZE * 2 ∧ zlen (rc_head r) = sizeof_FileRecipeHead_t ∧
  let '(rp, sp, kp) := recipe_paths config name in
  recipes_at fm rp sp kp (rc_head r ++ rc_plain r) (rc_head r ++ rc_secure r) (rc_head r ++ rc_key r).

Lemma holds_recipe_files (config : Configure) (fm fm' : gmap bytes bytes) name r : holds_recipe config fm name r →
  (∀ p, p ∈ paths config name → fm' !! p = fm !! p) → holds_recipe config fm' name r.
Proof.
  intros (Hn & Hl & Hr) Hf. split_and!; [done..|]. unfold paths in Hf.
  destruct (recipe_paths config name) as [[rp sp] kp]. destruct Hr as (? & ? & ?).
  split_and!; rewrite Hf; try done; set_solver.
Qed.

Lemma holds_recipes_insert (config : Configure) (fm fm' : gmap bytes bytes) (rs : gmap bytes recipe) name r : map_Forall (holds_recipe config fm) rs →
  holds_recipe config fm' name r → (∀ p, p ∉ paths config name → fm' !! p = fm !! p) →
  map_Forall (holds_recipe config fm') (<[name := r]> rs).
Proof.
  intros Hrs Hr Hf n r'. destruct (decide (name = n)) as [->|Hne].
  - rewrite lookup_insert_eq. by intros [= <-].
  - rewrite lookup_insert_ne by done. intros Hn. eapply holds_recipe_files; [by apply Hrs|].
    intros p Hp. apply Hf. intros Hp'. destruct (Hrs _ _ Hn) as [Hz _]. destruct Hr as [Hz' _].
    by eapply (paths_disjoint config name n); [congruence|done..|].
Qed.

Lemma alter_insert {V} (f : V → V) (m : gmap bytes V) k v : m !! k = Some v → alter f k m = <[k := f v]> m.
Proof.
  intros Hk. apply map_eq. intros i. destruct (decide (k = i)) as [<-|Hne].
  - by rewrite lookup_alter_eq, Hk, lookup_insert_eq.
  - by rewrite lookup_alter_ne, lookup_insert_ne.
Qed.

Lemma holds_new_recipe config fm name size num rp sp kp : zlen name = CHUNK_HASH_SIZE * 2 →
  recipe_paths config name = (rp, sp, kp) →
  let head := enc_RecipeHead {| fileSize := size; totalChunkNum := num |} in
  holds_recipe config (<[sp := head]> (<[kp := head]> (<[rp := head]> fm))) name (new_recipe size num).
Proof.
  intros Hn E head. pose proof (recipe_paths_distinct config name name) as Hd. unfold holds_recipe. rewrite E in *.
  destruct (Hd eq_refl) as (N1 & N2 & N3). split_and!; [done|simpl; unfold head, enc_RecipeHead; by rewrite zlen_app, !zlen_le_enc|].
  unfold new_recipe. cbn [rc_head rc_plain rc_secure rc_key]. rewrite !app_nil_r. fold head. split_and!; [rewrite !lookup_insert_ne by done; apply lookup_insert_eq|apply lookup_insert_eq|].
  rewrite lookup_insert_ne by done. apply lookup_insert_eq.
Qed.

Lemma holds_append config fm name r bs rp sp kp : recipe_paths config name = (rp, sp, kp) → holds_recipe config fm name r →
  holds_recipe config (append_file rp bs fm) name (add_plain bs r) ∧
  holds_recipe config (append_file sp bs fm) name (add_secure bs r) ∧
  holds_recipe config (append_file kp bs fm) name (add_key bs r).
Proof.
  intros E (Hn & Hz & Hr). pose proof (recipe_paths_distinct config name name) as Hd. unfold holds_recipe. rewrite E in *.
  destruct (Hd eq_refl) as (N1 & N2 & N3). destruct Hr as (R1 & R2 & R3).
  unfold add_plain, add_secure, add_key, recipes_at. cbn [rc_head rc_plain rc_secure rc_key].
  split_and!; try done; rewrite ?app_assoc; first [by apply append_file_eq|by rewrite append_file_ne].
Qed.

Section Tracking.
Context (config : Configure) (hash : bytes → bytes) (others : list group).

(** The files of a session hold the recipes, and its streams are those of the current file. *)
Record tracked (u : ustate) (x : bytes * gmap bytes recipe) : Prop := {
  tr_len : zlen x.1 = CHUNK_HASH_SIZE * 2;
  tr_paths : recipe_paths config x.1 = (u_rp u, u_sp u, u_kp u);
  tr_cur : is_Some (x.2 !! x.1);
  tr_holds : map_Forall (holds_recipe config (u_files u)) x.2 }.

(** The path of no recipe file. *)
Definition no_recipe (p : bytes) : Prop := ∀ name, zlen name = CHUNK_HASH_SIZE * 2 → p ∉ paths config name.

(** An append to one of the current files. *)
Lemma tracked_append u u' cur rs p bs f : tracked u (cur, rs) → p ∈ paths config cur →
  u_files u' = append_file p bs (u_files u) → (u_rp u', u_sp u', u_kp u') = (u_rp u, u_sp u, u_kp u) →
  (∀ r, holds_recipe config (u_files u) cur r → holds_recipe config (append_file p bs (u_files u)) cur (f r)) →
  tracked u' (cur, alter f cur rs) ∧ ∀ q, no_recipe q → u_files u' !! q = u_files u !! q.
Proof.
  intros [Hl Hp [r Hr] Hh] Hin E E' Hf. simpl in *. rewrite E, (alter_insert _ _ _ _ Hr). split; [split|]; simpl.
  - done.
  - congruence.
  - rewrite lookup_insert_eq. eauto.
  - rewrite E. eapply holds_recipes_insert; [exact Hh|by apply Hf, Hh|]. intros q Hq. apply append_file_ne. by intros ->.
  - intros q Hq. apply append_file_ne. intros ->. by apply (Hq cur).
Qed.

Lemma u_step_tracked f m u x : is_upload f m → tracked u x →
  tracked (u_step config hash others m u) (r_step m x) ∧
  ∀ p, no_recipe p → u_files (u_step config hash others m u) !! p = u_files u !! p.
Proof.
  intros [_ Hm] Ht. destruct x as [cur rs]. pose proof Ht as [Hl Hp Hc Hh]. simpl in Hl, Hp.
  assert (Hpaths : paths config cur = [u_rp u; u_sp u; u_kp u]) by (unfold paths; by rewrite Hp).
  assert (Hap := λ r bs, holds_append config (u_files u) cur r bs _ _ _ Hp).
  destruct m as [ds| |hs| |name size num|hs|hs|size num]; unfold u_step, r_step; try (by split; [by destruct Ht|]);
    try (eapply tracked_append; [done| |reflexivity|reflexivity|by intros r Hr; apply Hap]; rewrite Hpaths; set_solver).
  destruct Hm as (_ & Hn & _). destruct (recipe_paths config name) as [[rp sp] kp] eqn:E.
  pose proof (holds_new_recipe config (u_files u) name size num rp sp kp Hn E) as Hnew. split; [split; simpl; try done|].
  - rewrite lookup_insert_eq. eauto.
  - eapply holds_recipes_insert; [exact Hh|exact Hnew|]. intros p Hin. unfold paths in Hin. rewrite E in Hin.
    rewrite !lookup_insert_ne; [done|set_solver..].
  - intros p Hnr. specialize (Hnr name Hn). unfold paths in Hnr. rewrite E in Hnr. cbn [u_files].
    rewrite !lookup_insert_ne; [done|set_solver..].
Qed.

Lemma u_steps_tracked fs ms u x : Forall2 is_upload fs ms → tracked u x →
  let u' := foldl (λ u m, u_step config hash others m u) u ms in
  tracked u' (foldl (λ x m, r_step m x) x ms) ∧ ∀ p, no_recipe p → u_files u' !! p = u_files u !! p.
Proof.
  intros Hms. revert u x. induction Hms as [|f m fs ms Hm Hms IH]; intros u x Ht; [done|]. simpl.
  destruct (u_step_tracked f m u x Hm Ht) as [Ht' Hf]. destruct (IH _ _ Ht') as [H1 H2].
  split; [exact H1|]. intros p Hp. by rewrite H2, Hf.
Qed.

Lemma u_steps_answers ms u :
  u_answers (foldl (λ u m, u_step config hash others m u) u ms) = u_answers u ++ replies hash others (u_a u) ms.
Proof.
  revert u. induction ms as [|m ms IH]; intros u; simpl; [by rewrite app_nil_r|]. rewrite IH.
  destruct m; simpl; try done. by rewrite <- app_assoc.
Qed.
End Tracking.

(** ** The server follows the store *)

Lemma chunk_of_in gs h d : NoDup (hashes gs) → (h, d) ∈ all_entries gs → chunk_of gs h = Some d.
Proof. intros Hn Hin. by apply elem_of_list_to_map. Qed.

Section Life.
Context (config : Configure) (Hlayout : layout_ok config).
(** The order in which the destructor of the index store walks the hash map. *)
Context (order : gmap bytes bytes → list (bytes * bytes)) (Horder : ∀ m, order m ≡ₚ map_to_list m).
Context `{ChunkHashOk hash} `{ChannelLaws C} (stk : buf).
Abbreviation DB := InMemory.InMemoryDatabase.
Implicit Types (sv : server DB) (st : store).

(** What happens to the server: a connection is accepted, or it is shut down and
    started again. *)
Inductive action := Accept (fuel : nat) (mm : memory) (c : C) | Reboot (g : rng).

Definition act (a : action) sv : result (server DB * list C) :=
  match a with
  | Accept fuel mm c => '(sv, c) ← ServerOpt.Run config stk fuel mm c sv; Ok (sv, [c])
  | Reboot g =>
      sv ← start_server config g (shutdown_server (order (InMemory.indexObj_ (indexStore_ (sv_ix sv)))) sv);
      Ok (sv, [])
  end.

Fixpoint live (acts : list action) sv : result (server DB * list (list C)) :=
  match acts with
  | [] => Ok (sv, [])
  | a :: acts => '(sv, cs) ← act a sv; '(sv, css) ← live acts sv; Ok (sv, cs :: css)
  end.

(** The client's side of a connection: the messages of the event are on their way, and
    the thread has the fuel for them. *)
Definition carries (a : action) (e : event) st : Prop :=
  match a, e with
  | Accept fuel mm c, EUpload name size num ms =>
      ∃ login fs,
        is_login EDGE_MIGRATE_LOGIN (name ++ enc_RecipeHead {| fileSize := size; totalChunkNum := num |}) login ∧
        Forall2 is_upload fs ms ∧ (length fs < fuel)%nat ∧ chan c (login :: fs) []
  | Accept fuel mm c, ERecipes name => ∃ r login r0 rp rs rk,
        is_login EDGE_DOWNLOAD_RECIPE_LOGIN name login ∧ st_recipes st !! name = Some r ∧
        Forall (is_ready (recipe_cap config)) (r0 :: rp ++ rs ++ rk) ∧
        length rp = length (batches (recipe_batch config) (rc_plain r)) ∧
        length rs = length (batches (recipe_batch config) (rc_secure r)) ∧
        length rk = length (batches (recipe_batch config) (rc_key r)) ∧
        (length (rc_plain r) < fuel)%nat ∧ (length (rc_secure r) < fuel)%nat ∧ (length (rc_key r) < fuel)%nat ∧
        chan c (login :: r0 :: rp ++ rs ++ rk) []
  | Accept fuel mm c, EChunks hss => ∃ data login ready fss,
        is_login EDGE_DOWNLOAD_CHUNK_LOGIN data login ∧ is_message ready (edge_code EDGE_RECEIVE_READY) 0 [] ∧
        Forall2 (λ f hs, is_message f (edge_code EDGE_DOWNLOAD_CHUNK_READY) (zlen hs) (concat hs)) fss hss ∧
        chan c (login :: ready :: fss) [] ∧ (length fss < fuel)%nat
  | Reboot g, EReboot g' => g = g'
  | _, _ => False
  end.

(** The memory an upload's client object is made in happens to hold a zero where the chunk
    count of its first container is, which nothing initialises (clientVar.cc:90). *)
Definition count_zeroed (ae : action * event) : Prop :=
  match ae with
  | (Accept _ mm _, EUpload _ _ _ _) => chunkNum (_curContainer (upload (m_object mm))) = 0
  | _ => True
  end.

(** What the client has got at the end of the connection. *)
Definition answered (e : event) st (cs : list C) : Prop :=
  match e with
  | EUpload name size num ms => ∃ c resp outs, cs = [c] ∧ cleared c (resp :: outs) ∧
      Forall2 (λ ans f, is_message f (protocol_code CLOUD_QUERY_RETURN) (zlen ans) ans)
        (replies hash (st_groups st) (open_container 0 (st_rng st)) ms) outs
  | ERecipes name => ∃ r c f frames, st_recipes st !! name = Some r ∧ cs = [c] ∧ cleared c (f :: frames) ∧
      is_recipe_answer (rc_head r) f ∧
      Forall2 is_batch (recipe_messages config (rc_plain r) (rc_secure r) (rc_key r)) frames
  | EChunks hss => ∃ c resp dss ans, cs = [c] ∧ cleared c (resp :: concat ans) ∧
      Forall2 (Forall2 (λ h d, chunk_of (st_groups st) h = Some d)) hss dss ∧ Forall2 served dss ans
  | EReboot _ => cs = []
  end.

(** The server's state is that of the store. *)
Record keeps st sv : Prop := {
  kp_serving : serving (zlen (all_entries (st_groups st))) (zlen (data_bytes (all_entries (st_groups st))))
    (st_groups st) sv;
  kp_typed : typed_index (λ db, InMemory.dbName_ db = GetFp2ChunkDBName config) (sv_ix sv);
  kp_disk : disk_ok config (sv_fs sv) (st_groups st);
  kp_entries : entries_ok hash (st_groups st);
  kp_recipes : map_Forall (holds_recipe config (files (sv_fs sv))) (st_recipes st);
  kp_rng : sv_rng sv = st_rng st }.

Lemma container_no_recipe id : no_recipe config (container_path config id).
Proof.
  intros name Hn Hin. pose proof (lo_apart config Hlayout name Hn id) as Ha. unfold apart, paths, recipe_paths in *.
  destruct Ha as (? & ? & ?). set_solver.
Qed.

Lemma uuids_S n g : uuids (S n) g = (CreateUUID CONTAINER_ID_LENGTH g).1 :: uuids n (CreateUUID CONTAINER_ID_LENGTH g).2.
Proof. simpl. by destruct (CreateUUID CONTAINER_ID_LENGTH g). Qed.

(** A path the server writes neither a recipe nor a container to. *)
Definition untouched (p : bytes) : Prop := no_recipe config p ∧ ∀ id, p ≠ container_path config id.

(** The files of an upload at its start. *)
Lemma tracked_start st sv (mm : memory) name size num rp sp kp : keeps st sv → zlen name = CHUNK_HASH_SIZE * 2 →
  recipe_paths config name = (rp, sp, kp) →
  let u := start_ustate config (m_object mm) rp sp kp size num (sv_fs sv) (sv_rng sv) in
  tracked config u (name, <[name := new_recipe size num]> (st_recipes st)) ∧
  ∀ p, no_recipe config p → u_files u !! p = files (sv_fs sv) !! p.
Proof.
  intros Hk Hn Ep u. assert (Hf : ∀ p, p ∉ paths config name → u_files u !! p = files (sv_fs sv) !! p).
  { intros p Hp. unfold paths in Hp. rewrite Ep in Hp. simpl. rewrite !lookup_insert_ne; [done|set_solver..]. }
  split; [|intros p Hp; apply Hf; by apply Hp].
  split; simpl; [done|done|rewrite lookup_insert_eq; eauto|].
  eapply holds_recipes_insert; [apply Hk|by apply holds_new_recipe|done].
Qed.

Lemma upload_kept st sv fuel mm c name size num ms login fs : keeps st sv → legal (EUpload name size num ms) st →
  chunkNum (_curContainer (upload (m_object mm))) = 0 →
  is_login EDGE_MIGRATE_LOGIN (name ++ enc_RecipeHead {| fileSize := size; totalChunkNum := num |}) login →
  Forall2 is_upload fs ms → (length fs < fuel)%nat → chan c (login :: fs) [] →
  ∃ sv' c', ServerOpt.Run config stk fuel mm c sv = Ok (sv', c') ∧
    keeps (st_step hash (EUpload name size num ms) st) sv' ∧ answered (EUpload name size num ms) st [c'] ∧
    ∀ p, untouched p → files (sv_fs sv') !! p = files (sv_fs sv) !! p.
Proof.
  intros Hk (Hn & Hsz & Hnm & Hnd) Hraw Hlogin Hfs Hfuel Hc. pose proof Hk as [Hsv Hty Hdisk Hent _ Hg].
  set (gs := st_groups st) in *.
  pose proof (upload_login_run config stk _ _ gs fuel mm c sv name size num login fs ms Hsv
    ltac:(rewrite Hraw; lia) Hn Hsz Hnm Hlogin Hfs Hfuel Hc) as Hr.
  destruct (recipe_paths config name) as [[rp sp] kp] eqn:Ep.
  destruct Hr as (sv' & c' & resp & outs & cs & s & E & Hc' & Hq & Hcs & Hfiles & Hcr & Esave & Hcr' & Hix & Hg' & Hb & I1 & I2).
  set (u0 := start_ustate _ _ _ _ _ _ _ _ _) in *.
  assert (Ha0 : u_a u0 = open_container 0 (st_rng st)).
  { unfold u0, start_ustate, open_container. simpl. by rewrite Hraw, Hg. }
  rewrite u_steps_answers in Hq. rewrite u_step_store in *. rewrite Ha0 in *.
  change (foldl (a_store hash gs) (open_container 0 (st_rng st)) (uploaded ms)) with (session_end hash ms st) in *.
  assert (Hfresh : fresh (open_container 0 (st_rng st))) by (split_and!; try done; apply zlen_CreateUUID).
  pose proof (uploaded_legal _ _ Hfs) as Hlegal. rewrite uuids_S in Hnd.
  destruct (tracked_start st sv mm name size num rp sp kp Hk Hn Ep) as [Ht Hsame0]. fold u0 in Ht, Hsame0.
  destruct (u_steps_tracked config hash gs fs ms u0 _ Hfs Ht) as [Ht' Hsame].
  assert (Hsm : ∀ p, no_recipe config p → files s !! p = files (sv_fs sv) !! p).
  { intros p Hp. by rewrite Hfiles, Hsame, Hsame0. }
  assert (Hold : disk_ok config s gs).
  { eapply disk_ok_files; [exact Hdisk|]. intros id. by apply Hsm, container_no_recipe. }
  destruct (saved_disk_ok config hash hash_len gs (open_container 0 (st_rng st)) (uploaded ms) Hfresh eq_refl Hlegal Hnd cs s Hcs Hcr Hold)
    as (s' & Esave' & _ & Hdisk' & Hother). rewrite Esave in Esave'. injection Esave' as <-.
  exists sv', c'. split_and!; [done| |by exists c', resp, outs|intros p [H1' H2']; by rewrite Hother, Hsm]. split; simpl.
  - split; [by apply index_ok_final| | |done|by rewrite Hcr'].
    + by rewrite all_entries_app, zlen_app, final_entries.
    + by rewrite all_entries_app, data_bytes_app, zlen_app, final_entries.
  - eapply server_typed; [|exact E|rewrite Hraw; unfold is_u32; lia|exact Hty]. done.
  - exact Hdisk'.
  - by apply fresh_entries_ok.
  - intros n r Hr. eapply holds_recipe_files; [by apply Ht'|]. intros p Hp. rewrite Hother, Hfiles; [done|].
    intros id ->. destruct (tr_holds _ _ _ Ht' _ _ Hr) as [Hz _]. by apply (container_no_recipe id n Hz).
  - done.
Qed.

Lemma recipes_answered st sv fuel mm c name : keeps st sv → legal (ERecipes name) st →
  carries (Accept fuel mm c) (ERecipes name) st →
  ∃ c', ServerOpt.Run config stk fuel mm c sv = Ok (sv, c') ∧ answered (ERecipes name) st [c'].
Proof.
  intros [_ _ _ _ Hrec _] _ (r & login & r0 & rp & rs & rk & Hlogin & Hr & Hrd & L1 & L2 & L3 & F1 & F2 & F3 & Hc).
  destruct (Hrec _ _ Hr) as (Hn & Hz & Hat).
  destruct (download_login_spec config stk fuel mm c sv name login (rc_head r) (rc_plain r) (rc_secure r) (rc_key r) r0 rp rs rk)
    as (c' & f & frames & E & Hc' & Hf & Hfr); try done.
  exists c'. split; [done|]. by exists r, c', f, frames.
Qed.

Lemma chunks_answered st sv fuel mm c hss : keeps st sv → 1 ≤ GetReadCacheSize config < 2 ^ 32 →
  legal (EChunks hss) st → carries (Accept fuel mm c) (EChunks hss) st →
  ∃ c', ServerOpt.Run config stk fuel mm c sv = Ok (sv, c') ∧ answered (EChunks hss) st [c'].
Proof.
  intros [[Hix _ _ _ _] _ Hdisk _ _ _] Hcache Hlegal (data & login & ready & fss & Hlogin & Hready & Hfss & Hc & Hfuel).
  set (gs := st_groups st) in *. simpl in Hlegal. fold gs in Hlegal.
  assert (Hqss : ∃ qss, Forall2 is_request fss qss ∧ Forall (λ qs, requested gs (sv_ix sv) qs ∧ zlen qs ≤ 256) qss ∧
    Forall2 (λ hs qs, Forall2 (λ h d, chunk_of gs h = Some d) hs (req_data qs)) hss qss).
  { clear Hc Hfuel. induction Hfss as [|f hs fss hss Hf Hfss IH]; [exists []; by split_and!|].
    apply Forall_cons in Hlegal as [[Hsub Hlen] Hlegal]. destruct (IH Hlegal) as (qss & Q1 & Q2 & Q3).
    destruct (hashes_requested (sv_ix sv) gs hs Hix Hsub) as (qs & Hq & Hh & Hin).
    assert (Hz : zlen qs = zlen hs) by (by rewrite <- Hh, zlen_fmap).
    exists (qs :: qss). split_and!; constructor; try done.
    - unfold is_request. by rewrite Hh, Hz.
    - by rewrite Hz.
    - rewrite <- Hh. clear -Hin Hdisk. induction Hin as [|[g [h d]] qs He _ IH]; csimpl; constructor; [|done].
      apply chunk_of_in; [apply Hdisk|done]. }
  destruct Hqss as (qss & Hreq & Hok & Hdat).
  destruct (chunk_login_spec config stk gs fuel mm c sv data login ready fss qss Hdisk Hcache Hlogin Hready Hreq Hok Hc Hfuel)
    as (c' & resp & ans & E & Hc' & Hans).
  exists c'. split; [done|]. exists c', resp, ((λ qs : list request, (req_data qs : list bytes)) <$> qss), ans. split_and!; [done|done| |by apply answers_served].
  by apply Forall2_fmap_r.
Qed.

(** The index store of a kept state: one entry per stored chunk, of fixed size. *)
Lemma index_entries (db : DB) s gs : index_ok db gs → disk_ok config s gs →
  map_Forall (λ k v, zlen k = CHUNK_HASH_SIZE ∧ zlen v = CONTAINER_ID_LENGTH) (InMemory.indexObj_ db) ∧
  size (InMemory.indexObj_ db) = length (all_entries gs).
Proof.
  intros Hix [Hf _ _ Hnd]. split.
  - intros k v Hk. rewrite <- InMemory.stored_lookup in Hk. apply Hix in Hk as (es & Hin & Hh).
    destruct (Hf v es Hin) as (_ & _ & Hes & Hv). split; [|done].
    apply list_elem_of_fmap in Hh as (e & -> & He). by apply (proj1 (Forall_forall _ _) Hes).
  - replace (length (all_entries gs)) with (length (hashes gs)) by apply length_fmap.
    rewrite <- (size_list_to_set (C := gset bytes) _ Hnd), <- (size_dom (D := gset bytes)). f_equal.
    apply set_eq. intros h. rewrite elem_of_dom, elem_of_list_to_set, (index_ok_known db gs h Hix).
    by rewrite InMemory.stored_lookup.
Qed.

Lemma reboot_kept st sv g : keeps st sv → legal (EReboot g) st →
  ∃ sv', act (Reboot g) sv = Ok (sv', []) ∧ keeps (st_step hash (EReboot g) st) sv'.
Proof.
  intros [[Hix Hnum Hsize Hb Hcr] [Hname Hst _ _ _] Hdisk Hent Hrec _] Hlegal. simpl in Hlegal. unfold act.
  set (db := indexStore_ (sv_ix sv)) in *. destruct (index_entries db _ _ Hix Hdisk) as [Hkv Hn].
  assert (Hlist : Forall (λ kv : bytes * bytes, zlen kv.1 = CHUNK_HASH_SIZE ∧ zlen kv.2 = CONTAINER_ID_LENGTH)
    (order (InMemory.indexObj_ db))).
  { rewrite Horder. apply map_Forall_to_list in Hkv. eapply Forall_impl; [exact Hkv|]. by intros [k v]. }
  destruct (restart_spec config (order (InMemory.indexObj_ db)) g sv) as
    (sv' & -> & Hdb & Hsame & Hother & Hg & Hb' & Hsc & Hcr');
    [done|apply Hlayout|apply Horder| | |done|apply Hcr|apply Hcr|].
  { eapply map_Forall_impl; [exact Hkv|]. intros k v [Hk Hv]. simpl in *. sizes.
    split_and!; simpl; [intros ->; by rewrite zlen_nil in Hk|lia..]. }
  { rewrite (InMemory.zlen_dump_fixed CHUNK_HASH_SIZE CONTAINER_ID_LENGTH) by done.
    unfold zlen in *. rewrite Horder, length_map_to_list, Hn. sizes. lia. }
  cbn [mbind result_bind]. eexists. split; [reflexivity|].
  destruct Hsame as (S1 & S2 & S3 & S4 & S5 & S6 & S7). split; simpl.
  - split; rewrite ?Hdb, ?S4, ?S3, ?Hcr'; done.
  - split; [by rewrite Hdb| |by rewrite S6|by rewrite S7|by rewrite Hsc]. unfold stats_ok. by rewrite S1, S2, S3, S4, S5.
  - eapply disk_ok_files; [exact Hdisk|]. intros id. by apply Hother; apply Hlayout.
  - done.
  - intros n r Hr. eapply holds_recipe_files; [by apply Hrec|]. intros p Hp.
    destruct (Hrec _ _ Hr) as [Hz _]. pose proof (lo_recipe config Hlayout n Hz) as Hf. unfold paths in Hp.
    destruct (recipe_paths config n) as [[rp sp] kp]. eapply (proj1 (Forall_forall _ _)) in Hf as [? ?]; [|exact Hp].
    by apply Hother.
  - done.
Qed.

(** One event. *)
Definition is_accept (a : action) : Prop := match a with Accept _ _ _ => True | Reboot _ => False end.
Lemma act_kept a e st sv : 1 ≤ GetReadCacheSize config < 2 ^ 32 → keeps st sv → count_zeroed (a, e) → legal e st → carries a e st →
  ∃ sv' cs, act a sv = Ok (sv', cs) ∧ keeps (st_step hash e st) sv' ∧ answered e st cs ∧
    (is_accept a → ∀ p, untouched p → files (sv_fs sv') !! p = files (sv_fs sv) !! p).
Proof.
  intros Hcache Hk Hraw Hl Hc. destruct a as [fuel mm c|g], e as [name size num ms|name|hss|g']; try done.
  - destruct Hc as (login & fs & Hlogin & Hfs & Hfuel & Hc).
    destruct (upload_kept st sv fuel mm c name size num ms login fs) as (sv' & c' & E & Hk' & Ha & Hf); try done.
    exists sv', [c']. unfold act. by rewrite E.
  - destruct (recipes_answered st sv fuel mm c name Hk Hl Hc) as (c' & E & Ha).
    exists sv, [c']. unfold act. by rewrite E.
  - destruct (chunks_answered st sv fuel mm c hss Hk Hcache Hl Hc) as (c' & E & Ha).
    exists sv, [c']. unfold act. by rewrite E.
  - simpl in Hc. subst g'. destruct (reboot_kept st sv g Hk Hl) as (sv' & E & Hk'). by exists sv', [].
Qed.

(** A history: what happens, and the clients' side of it. *)
Fixpoint legal_history (l : list (action * event)) st : Prop :=
  match l with
  | [] => True
  | (a, e) :: l => legal e st ∧ carries a e st ∧ legal_history l (st_step hash e st)
  end.
Fixpoint answered_history (l : list (action * event)) st (css : list (list C)) : Prop :=
  match l, css with
  | [], [] => True
  | (a, e) :: l, cs :: css => answered e st cs ∧ answered_history l (st_step hash e st) css
  | _, _ => False
  end.
Definition st_after (l : list (action * event)) st : store := foldl (λ st ae, st_step hash ae.2 st) st l.

Lemma live_kept l : 1 ≤ GetReadCacheSize config < 2 ^ 32 → ∀ st sv, keeps st sv → Forall count_zeroed l → legal_history l st →
  ∃ sv' css, live l.*1 sv = Ok (sv', css) ∧ keeps (st_after l st) sv' ∧ answered_history l st css.
Proof.
  intros Hcache. induction l as [|[a e] l IH]; intros st sv Hk Hz Hl; [by exists sv, []|].
  apply Forall_cons in Hz as [Hz1 Hz]. destruct Hl as (Hle & Hca & Hl). destruct (act_kept a e st sv Hcache Hk Hz1 Hle Hca) as (sv1 & cs & E & Hk1 & Ha & _).
  destruct (IH _ _ Hk1 Hz Hl) as (sv2 & css & E2 & Hk2 & Hans).
  exists sv2, (cs :: css). csimpl. rewrite E. cbn [mbind result_bind]. rewrite E2. by split_and!.
Qed.

(** The first start, on a disk without the server's files. *)
Lemma first_start s g : files s !! GetFp2ChunkDBName config = None → files s !! persistentFileName_ = None →
  (∀ p, creatable s p = true) →
  ∃ sv, start_server config g s = Ok sv ∧ keeps {| st_groups := []; st_recipes := ∅; st_rng := g |} sv.
Proof.
  intros Hd Hp Hc. unfold start_server, InMemory.new_InMemoryDatabase, InMemory.OpenDB.
  assert (Hno : ∀ p, files s !! p = None → is_regular_file s p = false).
  { intros p E. unfold is_regular_file. rewrite E. apply bool_decide_eq_false_2. by intros []. }
  unfold if_open_. rewrite (Hno _ Hd). simpl. unfold new_AbsIndex. rewrite (Hno _ Hp). simpl.
  eexists. split; [reflexivity|]. split; simpl; try done.
  - split; try done. intros h n. rewrite InMemory.stored_lookup. simpl. rewrite lookup_empty. split; [done|].
    intros (es & Hin & _). by apply elem_of_nil in Hin.
  - split; try done. by repeat constructor.
  - split; [by intros ?? ?%elem_of_nil|by intros ???? ?%elem_of_nil|constructor..].
  - constructor.
Qed.

(** The chunks of a history. *)
Definition all_uploaded (l : list (action * event)) : list bytes :=
  l ≫= λ ae, match ae.2 with EUpload _ _ _ ms => uploaded ms | _ => [] end.

Lemma st_step_groups e st :
  (∀ d, d ∈ match e with EUpload _ _ _ ms => uploaded ms | _ => [] end → hash d ∈ hashes (st_groups (st_step hash e st))) ∧
  (∀ h, h ∈ hashes (st_groups st) → h ∈ hashes (st_groups (st_step hash e st))) ∧
  ∀ x, x ∈ all_entries (st_groups (st_step hash e st)) → x ∈ all_entries (st_groups st) ∨
    x.1 = hash x.2 ∧ x.2 ∈ match e with EUpload _ _ _ ms => uploaded ms | _ => [] end.
Proof.
  assert (Hf : ∀ g, fresh (open_container 0 g)) by (intros g; split_and!; try done; apply zlen_CreateUUID).
  destruct e as [name size num ms|name|hss|g]; simpl; try (split_and!; [by intros d ?%elem_of_nil|done|by left]).
  split_and!.
  - intros d Hd. by apply uploaded_stored.
  - intros h Hh. rewrite hashes_app. apply elem_of_app. by left.
  - intros x. rewrite all_entries_app, elem_of_app, final_entries. unfold session_end. rewrite fresh_entries by done.
    intros [?|(d & -> & [? _]%first_new_sound)%list_elem_of_fmap]; [by left|by right].
Qed.

Lemma st_after_groups l st :
  (∀ d, d ∈ all_uploaded l → hash d ∈ hashes (st_groups (st_after l st))) ∧
  (∀ h, h ∈ hashes (st_groups st) → h ∈ hashes (st_groups (st_after l st))) ∧
  ∀ x, x ∈ all_entries (st_groups (st_after l st)) → x ∈ all_entries (st_groups st) ∨ x.1 = hash x.2 ∧ x.2 ∈ all_uploaded l.
Proof.
  revert st. induction l as [|[a e] l IH]; intros st; [split_and!; [by intros d ?%elem_of_nil|done|by left]|].
  destruct (IH (st_step hash e st)) as (I1 & I2 & I3). destruct (st_step_groups e st) as (S1 & S2 & S3).
  change (st_after ((a, e) :: l) st) with (st_after l (st_step hash e st)).
  unfold all_uploaded. csimpl. fold (all_uploaded l). split_and!.
  - intros d [Hd|Hd]%elem_of_app; auto.
  - auto.
  - intros x [[?|[? ?]]%S3|[? ?]]%I3; [by left|right..]; (split; [done|]; apply elem_of_app; auto).
Qed.

Lemma chunk_of_uploaded l g d :
  let gs := st_groups (st_after l {| st_groups := []; st_recipes := ∅; st_rng := g |}) in
  NoDup (hashes gs) → (∀ d', d' ∈ all_uploaded l → hash d' = hash d → d' = d) → d ∈ all_uploaded l →
  hash d ∈ hashes gs ∧ chunk_of gs (hash d) = Some d.
Proof.
  intros gs Hnd Hinj Hd. destruct (st_after_groups l {| st_groups := []; st_recipes := ∅; st_rng := g |}) as (I1 & _ & I3).
  split; [by apply I1|]. pose proof (I1 d Hd) as Hh. fold gs in Hh, I3.
  apply list_elem_of_fmap in Hh as ([h d'] & Eh & He). simpl in Eh. subst h.
  destruct (I3 _ He) as [?%elem_of_nil|[E Hd']]; [done|]. simpl in *. rewrite (Hinj d') in He by done. by apply chunk_of_in.
Qed.

(** C1: the server is the abstract store.  From its first start on, serving connections
    one after the other, uploads of any number of files each, recipe downloads and chunk
    downloads, and however often it is shut down and started again in between, no
    connection of a legal history faults; every recipe query is answered with the chunks
    the store lacks at that point, every recipe download with the head and the entries the
    store has for the name, every chunk download with the bytes the store has under the
    hashes; and the index, the counters, the containers and the recipe files are those of
    the store.  A history is legal ([legal_history], [count_zeroed]) when
    - the chunk count of each upload's first container, which the constructor never
      initialises (clientVar.cc:90), happens to be zero in the memory of the client object
      (for what happens otherwise see [EndToEnd.uninitialised_count]);
    - the random names an upload may draw for its containers are not taken and do not
      repeat;
    - clients send messages of the protocol, each of the right form and size, acknowledge
      recipe batches, and close the connection at the end;
    - recipes are asked for names that have one (a missing one is undefined behaviour,
      serverOptThread.cc:299; [ServerOpt.missing_recipe_faults]), and chunks by hashes the
      server has, at most 256 in a batch;
    - when the server is shut down the index fits its file.
    The server's files are apart from each other ([layout_ok]) and can be created, there
    are none of them at the first start, and the restore cache holds at least one
    container. *)
Theorem server_refines_store s g l :
  1 ≤ GetReadCacheSize config < 2 ^ 32 →
  files s !! GetFp2ChunkDBName config = None → files s !! persistentFileName_ = None → (∀ p, creatable s p = true) →
  let st := {| st_groups := []; st_recipes := ∅; st_rng := g |} in
  Forall count_zeroed l → legal_history l st →
  ∃ sv sv' css, start_server config g s = Ok sv ∧ live l.*1 sv = Ok (sv', css) ∧
    keeps (st_after l st) sv' ∧ answered_history l st css.
Proof.
  intros Hcache Hd Hp Hc st Hz Hl. destruct (first_start s g Hd Hp Hc) as (sv & E & Hk).
  destruct (live_kept l Hcache st sv Hk Hz Hl) as (sv' & css & E' & Hk' & Ha). by exists sv, sv', css.
Qed.

(** C2: nothing that was uploaded is lost.  After any legal history of a server since its
    first start, restarts included, a client that asks for chunks of any uploads of the
    history by their hashes, at most 256 in a batch, gets exactly their bytes, batch by
    batch, provided the hash separates the chunks that were uploaded.  Legal is what it is
    for [server_refines_store]: the never initialised chunk count of each upload's first
    container (clientVar.cc:90) happened to be zero in its memory ([count_zeroed]; with a
    large count the upload is lost, [EndToEnd.uninitialised_count]), the random container
    names do not repeat, clients keep to the protocol, recipes are only asked for by names
    that have one and chunks by hashes the server has, the index fits its file at each
    shutdown, and files can be created and are apart. *)
Theorem uploads_are_kept s g l fuel mm (c : C) (dss : list (list bytes)) :
  1 ≤ GetReadCacheSize config < 2 ^ 32 →
  files s !! GetFp2ChunkDBName config = None → files s !! persistentFileName_ = None → (∀ p, creatable s p = true) →
  let st := {| st_groups := []; st_recipes := ∅; st_rng := g |} in
  Forall count_zeroed l → legal_history l st →
  (∀ d d', d ∈ all_uploaded l → d' ∈ all_uploaded l → hash d = hash d' → d = d') →
  Forall (λ ds, ds ⊆ all_uploaded l ∧ zlen ds ≤ 256) dss →
  carries (Accept fuel mm c) (EChunks ((λ ds : list bytes, hash <$> ds) <$> dss)) (st_after l st) →
  ∃ sv sv' css c' resp ans, start_server config g s = Ok sv ∧ live l.*1 sv = Ok (sv', css) ∧
    act (Accept fuel mm c) sv' = Ok (sv', [c']) ∧ cleared c' (resp :: concat ans) ∧ Forall2 served dss ans.
Proof.
  intros Hcache Hd Hp Hc st Hz Hl Hinj Hdss Hca. destruct (first_start s g Hd Hp Hc) as (sv & E & Hk).
  destruct (live_kept l Hcache st sv Hk Hz Hl) as (sv' & css & E' & Hk' & _).
  assert (Hof : ∀ d, d ∈ all_uploaded l → hash d ∈ hashes (st_groups (st_after l st)) ∧
    chunk_of (st_groups (st_after l st)) (hash d) = Some d).
  { intros d Hin. apply chunk_of_uploaded; [apply Hk'|auto|done]. }
  destruct (chunks_answered (st_after l st) sv' fuel mm c ((λ ds : list bytes, hash <$> ds) <$> dss) Hk' Hcache) as (c' & Er & Hans); [|done|].
  { simpl. apply Forall_fmap. eapply Forall_impl; [exact Hdss|]. intros ds [Hsub Hn]. simpl. rewrite zlen_fmap.
    split; [|done]. intros h (d & -> & Hin%Hsub)%list_elem_of_fmap. by apply Hof. }
  destruct Hans as (c1 & resp & dss' & ans & Ec & Hc' & Hdat & Hans). injection Ec as <-.
  exists sv, sv', css, c', resp, ans. unfold act. rewrite Er. split_and!; [done..|].
  enough (dss' = dss) as <- by done. rewrite Forall2_fmap_l in Hdat. clear -Hdat Hdss Hof.
  induction Hdat as [|ds ds' tl tl' Hds _ IH]; [done|]. apply Forall_cons in Hdss as [[Hsub _] Hdss].
  f_equal; [|auto]. clear IH. unfold compose in Hds. rewrite Forall2_fmap_l in Hds. induction Hds as [|d d' ds ds' E _ IH]; [done|].
  f_equal; [|apply IH; set_solver]. destruct (Hof d) as [_ E']; [set_solver|]. congruence.
Qed.
End Life.

(** ** A concrete life *)

Definition any_order (m : gmap bytes bytes) : list (bytes * bytes) := map_to_list m.
Definition boot_rng : rng := {| rand_stream := λ n, Z.of_nat n + 100; rand_pos := 0 |}.
Definition upload_action (fs : list bytes) : action (C := ListChannel.t) :=
  Accept 6 sample_memory
    (sample_frame (edge_code EDGE_MIGRATE_LOGIN) 0 (sample_file ++ sample_head) :: fs, []).
Definition other_file : bytes := replicate 64 98.
Definition later_msgs : list umsg :=
  [UChunks [[5; 5]; [6]]; UNewFile other_file 3 1; URecipe [replicate 32 7]; UChunks [[4]]; UChunksFinal].
Definition later_frames : list bytes :=
  [sample_frame (edge_code EDGE_MIGRATION_CHUNK) 2 (payload [[5; 5]; [6]]);
   sample_frame (edge_code EDGE_MIGRATION_NEWFILE) 0 (other_file ++ enc_RecipeHead {| fileSize := 3; totalChunkNum := 1 |});
   sample_frame (edge_code EDGE_UPLOAD_RECIPE) 1 (replicate 32 7);
   sample_frame (edge_code EDGE_MIGRATION_CHUNK) 1 (payload [[4]]);
   sample_frame (edge_code EDGE_MIGRATION_CHUNK_FINAL) 0 []].

(** Two uploads with a restart between them, and a download of the second file's recipe. *)
Definition sample_history : list (action (C := ListChannel.t) * event) :=
  [(upload_action sample_frames, EUpload sample_file 8 3 sample_msgs);
   (Reboot boot_rng, EReboot boot_rng);
   (upload_action later_frames, EUpload sample_file 8 3 later_msgs);
   (Accept 65 sample_memory ([sample_frame (edge_code EDGE_DOWNLOAD_RECIPE_LOGIN) 0 other_file; sample_ack; sample_ack], []),
    ERecipes other_file)].
Definition sample_start : store := {| st_groups := []; st_recipes := ∅; st_rng := sample_rng |}.

Lemma sample_layout : layout_ok sample_config.
Proof.
  split.
  - done.
  - intros id. by split.
  - intros name _. by repeat constructor.
  - intros name _ id. split_and!; by intros [=].
Defined.

Lemma later_uploads : Forall2 is_upload later_frames later_msgs.
Proof. repeat constructor; try done; try apply sample_frame_ok; try (by vm_compute). Defined.

Lemma sample_history_legal :
  legal_history sample_config (hash := Toy.digest SHA_256) sample_history sample_start.
Proof.
  assert (Hr : is_ready (recipe_cap sample_config) sample_ack).
  { exists 0, []. split; [apply sample_frame_ok|]. by vm_compute. }
  split; [|split; [|split; [|split; [|split; [|split; [|split; [|split; [|done]]]]]]]].
  - split_and!; try done. apply (bool_decide_unpack _). by vm_compute.
  - eexists _, _. split_and!; [by apply sample_login|exact sample_uploads|simpl; lia|done].
  - apply Z.ltb_lt. by vm_compute.
  - done.
  - split_and!; try done. apply (bool_decide_unpack _). by vm_compute.
  - eexists _, _. split_and!; [by apply sample_login|exact later_uploads|simpl; lia|done].
  - apply (bool_decide_unpack _). by vm_compute.
  - eexists _, _, sample_ack, [sample_ack], [], []. split_and!; [by apply sample_login|by vm_compute|do 2 (apply Forall_cons_2; [exact Hr|]); by apply Forall_nil_2|by vm_compute..|vm_compute; lia|vm_compute; lia|vm_compute; lia|done].
Defined.

Lemma sample_history_zeroed : Forall count_zeroed sample_history.
Proof. by repeat constructor. Defined.

Lemma server_refines_store_witness :
  ∃ sv sv' css, start_server sample_config sample_rng InMemory.empty_fs = Ok sv ∧
    live (H0 := sample_hash) sample_config any_order zero_buf sample_history.*1 sv = Ok (sv', css) ∧
    keeps sample_config (hash := Toy.digest SHA_256) (st_after (hash := Toy.digest SHA_256) sample_history sample_start) sv' ∧
    answered_history sample_config (hash := Toy.digest SHA_256) sample_history sample_start css.
Proof.
  apply (server_refines_store sample_config sample_layout any_order (λ m, Permutation_refl _) (hash := Toy.digest SHA_256)
           zero_buf InMemory.empty_fs sample_rng sample_history).
  - done.
  - apply lookup_empty.
  - apply lookup_empty.
  - done.
  - exact sample_history_zeroed.
  - exact sample_history_legal.
Defined.

Definition sample_asked : list (list bytes) := [[[6]; [5; 5]]; [[1; 2; 3]]].
Definition sample_asking : ListChannel.t :=
  (sample_frame (edge_code EDGE_DOWNLOAD_CHUNK_LOGIN) 0 [] :: sample_ack ::
    ((λ ds : list bytes, sample_frame (edge_code EDGE_DOWNLOAD_CHUNK_READY) (zlen ds) (concat (Toy.digest SHA_256 <$> ds))) <$> sample_asked), []).

Lemma uploads_are_kept_witness :
  ∃ sv sv' css c' resp ans, start_server sample_config sample_rng InMemory.empty_fs = Ok sv ∧
    live (H0 := sample_hash) sample_config any_order zero_buf sample_history.*1 sv = Ok (sv', css) ∧
    act (H0 := sample_hash) sample_config any_order zero_buf (Accept 3 sample_memory sample_asking) sv' = Ok (sv', [c']) ∧
    cleared c' (resp :: concat ans) ∧ Forall2 served sample_asked ans.
Proof.
  apply (uploads_are_kept sample_config sample_layout any_order (λ m, Permutation_refl _) (hash := Toy.digest SHA_256)
           zero_buf InMemory.empty_fs sample_rng sample_history 3 sample_memory sample_asking sample_asked).
  - done.
  - apply lookup_empty.
  - apply lookup_empty.
  - done.
  - exact sample_history_zeroed.
  - exact sample_history_legal.
  - intros d d' Hd Hd'. set_unfold.
    destruct_or? Hd; try done; subst d; destruct_or? Hd'; try done; subst d'; by vm_compute.
  - apply Forall_cons_2; [split; [set_solver|done]|apply Forall_cons_2; [split; [set_solver|done]|by apply Forall_nil_2]].
  - eexists [], _, _, _. split_and!; [by apply sample_login|apply sample_frame_ok|repeat constructor; apply sample_frame_ok|done|simpl; lia].
Defined.
