(* ===== verification/Crash.v ===== *)
(** * The server ends without being shut down

    The chunk index and the statistics are written to the disk by destructors that only
    the interrupt handler calls (src/App/daeServer.cc, [CTRLC]); [exit], which every
    error path of the services calls, does not run them.  What the next start finds then
    is the index of the last start, while the containers and the recipes of all uploads
    since are on the disk. *)
From Stdlib Require Import ZArith Lia.
From stdpp Require Import base tactics numbers list gmap fin_maps.
From S2P Require Import Prelude Common FileSystem ClientVar Storage Database Crypto Index.
From S2P Require Import RecvDecoder DataWriter SslConn DataReceiver EndToEnd RecipeSender ServerOpt Typing Lifetime.
#[local] Open Scope Z_scope.

(** ** A start reads two files *)

Section Reads.
Context (s s' : fs).

Definition same_file (p : bytes) : Prop := files s !! p = files s' !! p.

Lemma is_regular_file_same p : same_file p → is_regular_file s p = is_regular_file s' p.
Proof. intros E. unfold is_regular_file. by rewrite E. Qed.

Lemma if_open_same p : same_file p → if_open_ p s = if_open_ p s'.
Proof. intros E. unfold if_open_. by rewrite is_regular_file_same. Qed.

Lemma if_read_same n h : same_file (if_path h) → if_read n h s = if_read n h s'.
Proof. intros E. unfold if_read. by rewrite E. Qed.

Lemma if_read_path n h : if_path (if_read n h s).2 = if_path h.
Proof. unfold if_read. by destruct (_ && _). Qed.

Lemma read_u64_same old h : same_file (if_path h) → read_u64 old h s = read_u64 old h s'.
Proof. intros E. unfold read_u64. by rewrite if_read_same. Qed.

Lemma read_u64_path old h : if_path (read_u64 old h s).2 = if_path h.
Proof.
  unfold read_u64. pose proof (if_read_path 8 h) as E. by destruct (if_read 8 h s).
Qed.

Lemma load_loop_same fuel : ∀ key value m h, same_file (if_path h) →
  InMemory.load_loop fuel key value m h s = InMemory.load_loop fuel key value m h s'.
Proof.
  induction fuel as [|fuel IH]; intros key value m h E; [done|]. cbn [InMemory.load_loop].
  rewrite <- if_read_same by done. pose proof (if_read_path 4 h) as P1. destruct (if_read 4 h s) as [sz h1]. simpl in P1.
  destruct (_ =? _); [done|]. destruct (0 <=? _); [|done]. cbn [check mbind result_bind].
  rewrite <- if_read_same by by rewrite P1.
  pose proof (if_read_path (s32 (le_dec (InMemory.read_into (le_enc 4 0) sz))) h1) as P2. destruct (if_read _ h1 s) as [got h2]. simpl in P2.
  rewrite <- if_read_same by by rewrite P2, P1.
  pose proof (if_read_path 4 h2) as P3. destruct (if_read 4 h2 s) as [sz2 h3]. simpl in P3.
  destruct (0 <=? _); [|done]. cbn [check mbind result_bind].
  rewrite <- if_read_same by by rewrite P3, P2, P1.
  match goal with |- context [if_read ?n h3 s] => pose proof (if_read_path n h3) as P4; destruct (if_read n h3 s) as [got2 h4] end.
  simpl in P4. destruct (if_eof h4); [done|]. apply IH. by rewrite P4, P3, P2, P1.
Qed.

Lemma new_AbsIndex_same {DB} config (db : DB) sc : same_file persistentFileName_ →
  new_AbsIndex config db sc s = new_AbsIndex config db sc s'.
Proof.
  intros E. unfold new_AbsIndex. rewrite <- is_regular_file_same by done. destruct (is_regular_file s _); [|done].
  rewrite <- if_open_same by done. destruct (if_open _); [|done]. cbn [check mbind result_bind].
  assert (P0 : if_path (if_open_ persistentFileName_ s) = persistentFileName_) by done.
  assert (Hs : ∀ h, if_path h = persistentFileName_ → read_u64 0 h s' = read_u64 0 h s)
    by (intros h Eh; symmetry; apply read_u64_same; by rewrite Eh).
  assert (Hp : ∀ h v h', read_u64 0 h s = (v, h') → if_path h = persistentFileName_ → if_path h' = persistentFileName_)
    by (intros h v h' Er <-; rewrite <- (read_u64_path 0 h); by rewrite Er).
  do 4 (rewrite Hs by done; match goal with |- context [read_u64 0 ?h s] =>
    let Er := fresh in destruct (read_u64 0 h s) as [? ?] eqn:Er; apply Hp in Er; [|done] end).
  by rewrite Hs.
Qed.

Lemma OpenDB_same dbName d : same_file dbName → InMemory.OpenDB dbName d s = InMemory.OpenDB dbName d s'.
Proof.
  intros E. unfold InMemory.OpenDB. rewrite <- E, <- (if_open_same dbName) by done.
  by rewrite <- load_loop_same.
Qed.

Lemma start_server_same config g sv : same_file (GetFp2ChunkDBName config) → same_file persistentFileName_ →
  start_server config g s = Ok sv → ∀ g', start_server config g' s' = Ok {| sv_ix := sv_ix sv; sv_fs := s'; sv_rng := g' |}.
Proof.
  intros Ed Ep E g'. unfold start_server, InMemory.new_InMemoryDatabase in *. rewrite <- (OpenDB_same _ _ Ed).
  destruct (InMemory.OpenDB _ _ s) as [[ok db]|]; [|done]. cbn [mbind result_bind] in *. rewrite <- new_AbsIndex_same by done.
  destruct (new_AbsIndex _ _ _ s) as [ix|]; [|done]. cbn [mbind result_bind] in *. by injection E as <-.
Qed.
End Reads.

(** ** What a start finds after an exit *)

Section Crash.
Context (config : Configure) (Hlayout : layout_ok config).
Context (order : gmap bytes bytes → list (bytes * bytes)) (Horder : ∀ m, order m ≡ₚ map_to_list m).
Context `{ChunkHashOk hash} `{ChannelLaws C} (stk : buf).
Abbreviation DB := InMemory.InMemoryDatabase.
Abbreviation keeps := (keeps config (hash := hash)).
Abbreviation legal_history := (legal_history config (hash := hash)).
Abbreviation st_after := (st_after (hash := hash)).
Abbreviation live := (live config order stk).
Implicit Types (sv : server DB) (st : store).

Lemma untouched_server : untouched config (GetFp2ChunkDBName config) ∧ untouched config persistentFileName_.
Proof.
  assert (Hno : no_recipe config (GetFp2ChunkDBName config) ∧ no_recipe config persistentFileName_).
  { split; intros name Hn Hin; pose proof (lo_recipe config Hlayout name Hn) as Hf; unfold paths in Hin;
      destruct (recipe_paths config name) as [[rp sp] kp];
      by destruct (proj1 (Forall_forall _ _) Hf _ Hin). }
  split; (split; [apply Hno|]); intros id E; by destruct (lo_container config Hlayout id).
Qed.

(** A server as it is right after a start. *)
Definition booted sv : Prop := ∃ g s, start_server config g s = Ok sv ∧ sv_fs sv = s.

Lemma start_booted g s sv : start_server config g s = Ok sv → booted sv.
Proof. intros E. exists g, s. split; [done|]. unfold start_server in E. inv_ok. done. Qed.

(** Connections leave the server's two files alone. *)
Lemma live_files l : 1 ≤ GetReadCacheSize config < 2 ^ 32 → ∀ st sv sv' css, keeps st sv → Forall count_zeroed l → legal_history l st →
  Forall (λ ae, is_accept ae.1) l → live l.*1 sv = Ok (sv', css) →
  ∀ p, untouched config p → files (sv_fs sv') !! p = files (sv_fs sv) !! p.
Proof.
  intros Hcache. induction l as [|[a e] l IH]; intros st sv sv' css Hk Hz Hl Hacc E p Hp.
  { simpl in E. by injection E as <- <-. }
  apply Forall_cons in Hz as [Hz1 Hz]. destruct Hl as (Hle & Hca & Hl). apply Forall_cons in Hacc as [Hacc1 Hacc].
  destruct (act_kept config Hlayout order Horder stk a e st sv Hcache Hk Hz1 Hle Hca) as (sv1 & cs & E1 & Hk1 & _ & Hf).
  csimpl in E. rewrite E1 in E. cbn [mbind result_bind] in E.
  destruct (live l.*1 sv1) as [[sv2 css2]|] eqn:E2; [|done]. injection E as <- <-.
  rewrite (IH _ _ _ _ Hk1 Hz Hl Hacc E2 p Hp). by apply Hf.
Qed.

(** A history that ends with a start. *)
Definition ends_booted (l : list (action (C := C) * event)) : Prop :=
  l = [] ∨ ∃ l' g, l = l' ++ [(Reboot g, EReboot g)].

Lemma live_app acts1 acts2 sv : live (acts1 ++ acts2) sv =
  ('(sv, css1) ← live acts1 sv; '(sv, css2) ← live acts2 sv; Ok (sv, css1 ++ css2)).
Proof.
  revert sv. induction acts1 as [|a acts1 IH]; intros sv; simpl.
  - by destruct (live acts2 sv) as [[??]|].
  - destruct (act _ _ _ a sv) as [[sv1 cs]|]; [|done]. simpl. rewrite IH.
    destruct (live acts1 sv1) as [[sv2 css1]|]; [|done]. simpl. by destruct (live acts2 sv2) as [[??]|].
Qed.

Lemma live_booted l sv sv' css : ends_booted l → booted sv → live l.*1 sv = Ok (sv', css) → booted sv'.
Proof.
  intros [->|(l' & g & ->)] Hb E; [simpl in E; by injection E as <- <-|].
  rewrite fmap_app, live_app in E. destruct (live l'.*1 sv) as [[sv1 css1]|]; [|done]. csimpl in E. unfold act in E.
  destruct (start_server config g _) as [sv2|] eqn:E2; [|done]. cbn [mbind result_bind] in E. injection E as <- <-.
  by eapply start_booted.
Qed.

Lemma legal_app l1 l2 st : legal_history (l1 ++ l2) st ↔ legal_history l1 st ∧ legal_history l2 (st_after l1 st).
Proof.
  revert st. induction l1 as [|[a e] l1 IH]; intros st; simpl; [tauto|]. rewrite IH. unfold Lifetime.st_after. simpl. tauto.
Qed.

(** A server of which only the two files are left. *)
Lemma lost_start sv sv' s1 g1 : booted sv →
  (∀ p, untouched config p → files (sv_fs sv') !! p = files (sv_fs sv) !! p) →
  same_file (sv_fs sv') s1 (GetFp2ChunkDBName config) → same_file (sv_fs sv') s1 persistentFileName_ →
  start_server config g1 s1 = Ok {| sv_ix := sv_ix sv; sv_fs := s1; sv_rng := g1 |}.
Proof.
  intros (g & s & E & <-) Hf E1 E2. destruct untouched_server as [U1 U2]. unfold same_file in *.
  eapply (start_server_same (sv_fs sv)); [| |exact E]; unfold same_file.
  - rewrite <- E1. symmetry. by apply Hf.
  - rewrite <- E2. symmetry. by apply Hf.
Qed.

(** C34: an exit loses what was uploaded since the last start.  Let a server run a legal
    history of connections and restarts, then serve legal connections, and then end
    without being shut down (the disk may have changed in other files).  All uploads are
    on the disk at that moment; but the next start has the index and the counter of the
    last start.  The hash of a chunk that was first uploaded since then is unknown,
    although a container file holds its data, and a restore session that asks for it first
    ends the server again (as long as there is no container named by zero bytes).  Legal is
    what it is for [Lifetime.server_refines_store]: the never initialised chunk count of
    each upload's first container (clientVar.cc:90) happened to be zero in its memory
    ([count_zeroed]), the random container names do not repeat, clients keep to the
    protocol, recipes are only asked for by names that have one and chunks by hashes the
    server has, at most 256 in a batch, the index fits its file at each shutdown, and
    files can be created and are apart. *)
Theorem exit_loses_uploads s g l1 l2 :
  1 ≤ GetReadCacheSize config < 2 ^ 32 →
  files s !! GetFp2ChunkDBName config = None → files s !! persistentFileName_ = None → (∀ p, creatable s p = true) →
  let st := {| st_groups := []; st_recipes := ∅; st_rng := g |} in
  ends_booted l1 → Forall (λ ae, is_accept ae.1) l2 → Forall count_zeroed (l1 ++ l2) → legal_history (l1 ++ l2) st →
  let gs := st_groups (st_after l1 st) in
  ∃ sv sv' css, start_server config g s = Ok sv ∧ live (l1 ++ l2).*1 sv = Ok (sv', css) ∧
    keeps (st_after (l1 ++ l2) st) sv' ∧
    ∀ s1 g1, same_file (sv_fs sv') s1 (GetFp2ChunkDBName config) → same_file (sv_fs sv') s1 persistentFileName_ →
    ∃ sv1, start_server config g1 s1 = Ok sv1 ∧ sv_fs sv1 = s1 ∧ index_ok (indexStore_ (sv_ix sv1)) gs ∧
      _uniqueChunkNum (sv_ix sv1) = u64 (zlen (all_entries gs)) ∧
      ∀ d, d ∈ all_uploaded l2 → hash d ∉ hashes gs →
        (∃ n es, files (sv_fs sv') !! container_path config n = Some (file_image (zlen es) es) ∧ hash d ∈ es.*1) ∧
        stored (indexStore_ (sv_ix sv1)) (hash d) = None ∧
        ∀ malloc_ client (conn : C) ready f fss hs fuel,
          is_regular_file s1 (container_path config (replicate (Z.to_nat CONTAINER_ID_LENGTH) 0)) = false →
          is_message ready (edge_code EDGE_RECEIVE_READY) 0 [] →
          is_message f (edge_code EDGE_DOWNLOAD_CHUNK_READY) (zlen (hash d :: hs)) (concat (hash d :: hs)) →
          zlen (hash d :: hs) ≤ 256 → Forall (λ h, zlen h = CHUNK_HASH_SIZE) hs →
          chan conn (ready :: f :: fss) [] → (0 < fuel)%nat →
          RecvDecoder.Run config fuel (sv_ix sv1) (start_restore config malloc_ client conn) s1 = Err EXIT_FAILURE.
Proof.
  intros Hcache Hd Hp Hc st Hboot Hacc [Hz1 Hz2]%Forall_app [Hl1 Hl2]%legal_app gs. destruct (first_start config (hash := hash) s g Hd Hp Hc) as (sv & E & Hk).
  destruct (live_kept config Hlayout order Horder stk l1 Hcache st sv Hk Hz1 Hl1) as (svm & css1 & E1 & Hkm & _).
  destruct (live_kept config Hlayout order Horder stk l2 Hcache _ svm Hkm Hz2 Hl2) as (sv' & css2 & E2 & Hk' & _).
  exists sv, sv', (css1 ++ css2). split_and!; [done|by rewrite fmap_app, live_app, E1; simpl; rewrite E2| |].
  { unfold Lifetime.st_after. by rewrite foldl_app. }
  intros s1 g1 S1 S2.
  pose proof (lost_start svm sv' s1 g1 (live_booted _ _ _ _ Hboot (start_booted _ _ _ E) E1)
    (live_files l2 Hcache _ _ _ _ Hkm Hz2 Hl2 Hacc E2) S1 S2) as E3.
  eexists. split; [exact E3|]. simpl. pose proof (sg_index _ _ _ _ (kp_serving _ _ _ Hkm)) as Hix.
  split_and!; [done|done|by destruct (kp_serving _ _ _ Hkm)|]. intros d Hin Hnew.
  assert (Hnone : stored (indexStore_ (sv_ix svm)) (hash d) = None).
  { apply eq_None_not_Some. by rewrite <- (index_ok_known _ _ (hash d) Hix). }
  split_and!; [|done|].
  - destruct (st_after_groups (hash := hash) l2 (st_after l1 st)) as (Hst & _). apply Hst, elem_of_hashes in Hin as (n & es & Hg & Hh).
    exists n, es. split; [|done]. by destruct (dk_file _ _ _ (kp_disk _ _ _ Hk') n es Hg).
  - intros malloc_ client conn ready f fss hs fuel Hno Hready Hf Hmax Hhs Hconn Hfuel.
    eapply (missing_Run_spec config s1 (sv_ix svm)); try done.
    + intros h n (es & Hg & _)%Hix. by destruct (dk_file _ _ _ (kp_disk _ _ _ Hkm) n es Hg) as (_ & _ & _ & ?).
    + by constructor; [apply hash_len|].
    + unfold entry_container. by rewrite Hnone.
Qed.
End Crash.

(** ** The history of [Lifetime], and an exit behind it *)

Definition sample_before : list (action (C := ListChannel.t) * event) := take 2 sample_history.
Definition sample_since : list (action (C := ListChannel.t) * event) := drop 2 sample_history.

(** The chunk [[6]] came after the last start. *)
Lemma exit_loses_uploads_witness :
  ∃ sv sv' css sv1, start_server sample_config sample_rng InMemory.empty_fs = Ok sv ∧
    live (H0 := sample_hash) sample_config any_order zero_buf sample_history.*1 sv = Ok (sv', css) ∧
    start_server sample_config boot_rng (sv_fs sv') = Ok sv1 ∧
    stored (indexStore_ (sv_ix sv1)) (Toy.digest SHA_256 [6]) = None ∧
    (∃ n es, files (sv_fs sv') !! container_path sample_config n = Some (file_image (zlen es) es) ∧ Toy.digest SHA_256 [6] ∈ es.*1).
Proof.
  destruct (exit_loses_uploads (H0 := sample_hash) (C := ListChannel.t) sample_config sample_layout any_order
    (λ m, Permutation_refl _) (hash := Toy.digest SHA_256) zero_buf InMemory.empty_fs sample_rng sample_before sample_since)
    as (sv & sv' & css & E1 & E2 & _ & Hcrash).
  - by vm_compute.
  - apply lookup_empty.
  - apply lookup_empty.
  - done.
  - right. by eexists [_], boot_rng.
  - by repeat constructor.
  - exact sample_history_zeroed.
  - exact sample_history_legal.
  - destruct (Hcrash (sv_fs sv') boot_rng eq_refl eq_refl) as (sv1 & E3 & _ & _ & _ & Hlost). clear Hcrash.
    exists sv, sv', css, sv1. split; [exact E1|]. split; [exact E2|]. split; [exact E3|]. clear E1 E2 E3.
    destruct (Hlost [6]) as (Hfile & Hnone & _).
    + apply (bool_decide_unpack _). by vm_compute.
    + apply (bool_decide_unpack _). by vm_compute.
    + by split.
Defined.
